(* ===== verification/_CoqProject ===== *)
-Q . S2P
Prelude.v
Status.v
Ring.v
Resp.v
Ycsb.v
Args.v
FsUtil.v
Encoding.v
Crc32.v
Log.v
VLog.v
LruCache.v
Bloom.v
InternalKey.v
Mvcc.v
Layers.v
Iterator.v
Block.v
SSTable.v
TableSize.v
Manifest.v
SkipList.v
MemTable.v
Merge.v
Db.v
DbRead.v
DbInv.v
DbFlush.v
DbPick.v
DbMerge.v
DbCompact.v
DbValues.v
DbScan.v
DbSystem.v
DbLogs.v
DbRefine.v
DbOpen.v
DbBackground.v
DbCollect.v
DbCorrect.v
DbRounds.v
DbFiles.v
DbDisk.v
DbDurable.v
DbInstall.v
DbRecover.v
DbInterrupt.v
DbLives.v
DbBugs.v
Server.v
YcsbBench.v
Engine.v
ServerMain.v
