(* ===== verification/Prelude.v ===== *)
(** * BedrockKV: a verification library for the LSM key-value engine

    BedrockKV is a key-value store in C++: a log-structured merge tree with
    multi-version reads, value separation into value logs, an optional io_uring
    path for its log, and a server that speaks the Redis protocol.  This library
    translates it into Rocq functions, file by file, and proves what makes it
    correct.  Paths below are relative to the root of the repository.

    ** The program and its parts

    A write ([DB::Put], [DB::Delete] of src/db.cpp) moves a large value into a
    value log (src/vlog.cpp), appends a record to the write-ahead log
    (src/log.cpp, directly or through the ring of src/ring.cpp), syncs if the
    options ask for it, and inserts a version (key, sequence number, type,
    value) into the memtable (src/memtable.cpp, a skiplist of
    include/bedrockkv/skiplist.h).  A full memtable is rotated: it becomes
    immutable and a background thread writes it as a sorted table
    (src/sstable.cpp, made of the blocks of src/block.cpp with the filters of
    include/bedrockkv/bloom.h) to level 0.  The same thread merges tables into
    deeper levels (the merging iterator of include/bedrockkv/iterator.h),
    dropping versions that no snapshot can see, and collects the garbage of the
    value logs.  Every change of the set of files is published by an atomic
    replacement of the MANIFEST.  A read looks at the memtables, level 0 and the
    levels in turn, and resolves value pointers through a cache
    (include/bedrockkv/lru_cache.h).  The server (src/server.cpp) parses
    requests (src/resp.cpp) and runs them against the database.

    ** Files of the library

    Foundations:
    - Prelude: machine integers ([u8], [u32], [u64]: the wrap-around is written
      out), byte strings with [slice] and checked reads, strict weak orders,
      sorting and searching lemmas, the tactics [slia] and [bauto], the rewrite
      base [len] and the hint base [bedrock].
    - Status, Encoding, Crc32, FsUtil: src/status.cpp,
      include/bedrockkv/encoding.h, src/crc32.cpp, src/fs_util.cpp.  The table
      loop of the CRC is proved equal to bitwise division; a durable write
      followed by a read is the identity for every split of the calls.

    Components, each with its state as a record and an operation per function:
    - Ring (src/ring.cpp): both index pairs on 32 bits; nothing is lost or
      duplicated.
    - Log (src/log.cpp): a cut log replays exactly its whole records, a repaired
      log can be appended to, and what was appended is read back.
    - VLog (src/vlog.cpp), LruCache (include/bedrockkv/lru_cache.h), Bloom
      (include/bedrockkv/bloom.h).
    - InternalKey, Mvcc, Layers: the order of internal keys, and the abstract
      specification of reads: [Mvcc.read] is the newest version at or below a
      sequence number, [Layers] says when a layered lookup implements it and
      what a compaction may drop.
    - Iterator: the interface of include/bedrockkv/iterator.h as a class with
      laws.  MemTable and SSTable discharge the laws, Merge is proved against
      them and satisfies them again.
    - Block, SSTable, TableSize (src/block.cpp, src/sstable.cpp): decoders are
      safe on arbitrary bytes; what is built is what is read; table sizes are
      bounded.
    - SkipList, MemTable: the skiplist refines a sorted list, also while a
      lock-free reader runs between two stores of the writer.
    - Manifest: the record codecs and file names of src/db.cpp.
    - Resp, Server: the parser under every fragmentation, the event loop; the
      server is proved against the class [KvStore] with laws [KvLaws].
    - Args: the number conversions of the command lines.
    - Ycsb, YcsbBench (bench/ycsb.h, bench/ycsb_bench.cpp): the benchmark, from
      its command line to its report, against [KvStore] and [BenchStore]; both
      phases complete and their counters add up.

    The engine (include/bedrockkv/db.h, src/db.cpp):
    - Db: the state [DB] and every operation: [Open] with recovery, [Put],
      [Delete], [Get], [Scan], snapshots, rotation, flush, compaction,
      collection, MANIFEST and shutdown.
    - DbRead, DbInv, DbFlush, DbPick, DbMerge, DbCompact: what a state holds,
      the invariant [db_inv], and that writes, flushes and compactions keep it.
    - DbValues, DbLogs: what stored values stand for, and value logs that a
      collection can scan.  DbScan: range scans.
    - DbSystem: the concurrent system.  The background thread is a state machine
      ([Bg], [bg_step]) whose sections are interleaved with the users' calls
      ([step], [run]); [Map] with [allowed] is the abstract specification.
    - DbRefine, DbOpen, DbBackground, DbCollect: the simulation, call by call
      and section by section.
    - DbCorrect: the main theorems.  [database_refines_map]: in every
      interleaving, with any system calls failing, every call returns and its
      answer is one the map with snapshots allows.  [levels_stay_well_formed],
      [compaction_preserves_reads].
    - DbRounds: a stalled writer is released; sections add up to rounds.
    - DbBugs: runs of the model that lose data after a crash or a failed call.

    Recovery (the part of [DB::Open] that finds a used directory):
    - DbFiles, DbDisk: the file names, what a directory holds ([on_disk]: the
      MANIFEST, the tables it names, the logs to replay) and that [Open] makes
      the version, the value logs and the memtable of it again.
    - DbDurable, DbInstall: the invariant [durable] between the state in memory
      and the files; writes, rotations, flushes, compactions and collections
      keep it.
    - DbRecover: [recoverable] is kept by every step of a run whose calls are
      [reliable]: records reach the log or leave it alone, and no MANIFEST is
      installed while an older log holds the only copy of a record.
    - DbInterrupt: a process that dies in a call, with a log record torn at any
      byte or a MANIFEST replacement stopped at any system call, leaves a
      directory for the map before the call or after it.
    - DbLives: [recovery_restores_map]: over any number of lives, each opening
      what the one before left when it died, between two sections or in a call,
      the answers are those of one map in which every acknowledged write stays.
      A torn log must be [noticed] by the reader.  DbBugs shows that the program
      loses data without these conditions.

    The whole program:
    - Engine: the database discharges the laws the server and the benchmark are
      proved against.  An [Engine] is the concurrent system with the background
      sections and system call outcomes around each operation;
      [served_database_refines_map] composes sockets, parser, commands and
      engine.
    - ServerMain (tools/server_main.cpp): the server program, from its
      arguments to its exit code.

    ** Conventions

    The outcomes of system calls are arguments: a list of outcomes for the calls
    of a loop, a record of them for an operation ([put_env], [bg_env], ...); a
    theorem that quantifies over them holds for every short transfer,
    interruption and error.  Unsigned integers are [Z] with their wrap-around;
    bytes are [Init.Byte.byte].  [None] is behaviour the program does not
    define (a read outside a buffer, a dangling pointer) or exhausted fuel.

    Fuel: a loop that is not structural takes fuel computed from its input: the
    remaining length of a buffer or file for the parsers and the log reader, the
    number of entries for iterations, the number of nodes and levels for the
    skiplist, the number of files of the target level for the choice of a
    compaction's inputs, the number of outcomes and bytes left for a loop over
    system calls.  Each round consumes at least one unit of that measure, and
    the theorems prove that the result is [Some], so the fuel is enough.

    Assumptions of the main theorems ([DbSystem.limits]) are on sizes: sequence
    numbers fit in 56 bits, a table in 32, value-log offsets in 63, and keys in
    32; a failed value-log append leaves no torn entry, the reads of a
    collection's scan are not cut short, and the file of a new value log is
    empty.  [limits] is decidable and the witnesses evaluate it.  A client's
    theorem asks for the limits of the operations the client makes
    ([Server.exec_all_fit], [YcsbBench.phases_fit], [Engine.engine_fits]).

    ** Not modelled

    Memory orders weaker than sequential consistency, the mutexes inside the
    cache, and the timing of waits and sleeps: a locked section is one step.
    The hash of the standard library, the texts of [strerror], [std::pow], the
    random engine, the clock, the shell and the text of a NaN are arguments.
    A crash of [DbLives] keeps all bytes that were written, synced or not, and
    tears no entry of a value log; recovery with the ring is not covered.  A
    process that dies in a call is modelled by system calls that fail from that
    point on, clean-up included.  The mapping of
    the ring's memory and its setup call are an argument of [Ring.Open].  Of the
    headers only declarations, comments and accessors without a counterpart
    above are left out. *)

From Stdlib Require Export ZArith Lia Bool Btauto.
From stdpp Require Export base numbers option sets gmap.
From stdpp Require Export list.
From Stdlib Require Strings.Byte.
From Stdlib Require Import Init.Byte.

#[global] Open Scope Z_scope.

(** ** Machine integers

    A C++ unsigned integer of width [w] is a [Z]; every operation of the
    source that can leave the range is followed by the wrap-around. *)

Definition u8 (z : Z) : Z := z mod 2 ^ 8.
Definition u32 (z : Z) : Z := z mod 2 ^ 32.
Definition u64 (z : Z) : Z := z mod 2 ^ 64.

(** ** Bytes and byte strings *)

Abbreviation byte := Init.Byte.byte.
Abbreviation bytes := (list byte).

(** [static_cast<unsigned char>(c)] *)
Definition byte_val (b : byte) : Z := Z.of_N (Strings.Byte.to_N b).

(** [static_cast<char>(v)]: the low eight bits. *)
Definition to_char (z : Z) : byte :=
  match Strings.Byte.of_N (Z.to_N (z mod 256)) with
  | Some b => b
  | None => Init.Byte.x00
  end.

(** [s.size()] *)
Definition len {A} (l : list A) : Z := Z.of_nat (length l).

(** [s.substr(off, n)] for [off <= s.size()], and the view
    [string_view(s.data() + off, n)]. *)
Definition slice {A} (off n : Z) (l : list A) : list A :=
  take (Z.to_nat n) (drop (Z.to_nat off) l).

(** [s.data() + off] *)
Definition at_off {A} (off : Z) (l : list A) : list A := drop (Z.to_nat off) l.

(** [s[i]]; [None] is an access outside the string. *)
Definition at_ix {A} (l : list A) (i : Z) : option A :=
  if i <? 0 then None else l !! Z.to_nat i.

#[global] Instance byte_eq_dec : EqDecision byte := Strings.Byte.byte_eq_dec.

(** [std::string_view::compare]: lexicographic on unsigned bytes. *)
Fixpoint bytes_compare (a b : bytes) : comparison :=
  match a, b with
  | [], [] => Eq
  | [], _ :: _ => Lt
  | _ :: _, [] => Gt
  | x :: a', y :: b' =>
      match byte_val x ?= byte_val y with
      | Eq => bytes_compare a' b'
      | c => c
      end
  end.

Definition bytes_ltb (a b : bytes) : bool :=
  match bytes_compare a b with Lt => true | _ => false end.
Definition bytes_leb (a b : bytes) : bool := negb (bytes_ltb b a).
Definition bytes_eqb (a b : bytes) : bool := bool_decide (a = b).

(** ** Orders given by a boolean comparator

    What [std::sort], [std::lower_bound] and the skiplist require of the
    comparators they are instantiated with. *)

Class StrictWeak {A} (lt : A → A → bool) : Prop := {
  sw_irrefl : ∀ x, lt x x = false;
  sw_trans : ∀ x y z, lt x y = true → lt y z = true → lt x z = true;
  sw_cotrans : ∀ x y z, lt x z = true → lt x y = true ∨ lt y z = true
}.

(** [l] is in strictly increasing order. *)
Fixpoint sorted_by {A} (lt : A → A → bool) (l : list A) : Prop :=
  match l with
  | [] => True
  | x :: l => Forall (λ y, lt x y = true) l ∧ sorted_by lt l
  end.

(** ** [std::lower_bound]

    The libstdc++ loop: [first] and the length [n] of the range still to
    search.  [comp x] is [comp] applied to the middle element and the value.  The fuel is the length of the
    range, which bounds the number of halvings. *)
Fixpoint lower_bound_loop {A} (comp : A → bool) (l : list A)
    (fuel : nat) (first n : nat) : nat :=
  match fuel with
  | O => first
  | S fuel =>
      match n with
      | O => first
      | _ =>
          let half := Nat.div n 2 in
          match l !! (first + half)%nat with
          | Some x =>
              if comp x
              then lower_bound_loop comp l fuel (first + half + 1) (n - half - 1)
              else lower_bound_loop comp l fuel first half
          | None => first
          end
      end
  end.

Definition lower_bound {A} (comp : A → bool) (l : list A) : nat :=
  lower_bound_loop comp l (length l) 0 (length l).

(** ** Automation

    [len] rewrites the length of a byte string to its parts; [slia] closes
    length and offset arithmetic with it. *)

Create Rewrite HintDb len.
Create HintDb bedrock.

Lemma len_nil {A} : len (@nil A) = 0.
Proof. reflexivity. Qed.
Lemma len_cons {A} (x : A) l : len (x :: l) = 1 + len l.
Proof. unfold len; simpl; lia. Qed.
Lemma len_app {A} (l k : list A) : len (l ++ k) = len l + len k.
Proof. unfold len; rewrite length_app; lia. Qed.
Lemma len_nonneg {A} (l : list A) : 0 ≤ len l.
Proof. unfold len; lia. Qed.
Lemma len_drop {A} (l : list A) n : len (drop n l) = Z.max 0 (len l - Z.of_nat n).
Proof. unfold len; rewrite length_drop; lia. Qed.
Lemma len_take {A} (l : list A) n : len (take n l) = Z.min (Z.of_nat n) (len l).
Proof. unfold len; rewrite length_take; lia. Qed.
Lemma len_replicate {A} (x : A) n : len (replicate n x) = Z.of_nat n.
Proof. unfold len; rewrite length_replicate; lia. Qed.
Lemma len_fmap {A B} (f : A → B) l : len (f <$> l) = len l.
Proof. unfold len; rewrite length_fmap; lia. Qed.
Lemma len_to_nat {A} (l : list A) : Z.to_nat (len l) = length l.
Proof. unfold len; lia. Qed.
Lemma len_slice {A} (l : list A) off n :
  0 ≤ off → 0 ≤ n → off + n ≤ len l → len (slice off n l) = n.
Proof. intros; unfold slice; rewrite len_take, len_drop; lia. Qed.
Lemma len_at_off {A} (l : list A) off :
  0 ≤ off ≤ len l → len (at_off off l) = len l - off.
Proof. intros; unfold at_off; rewrite len_drop; lia. Qed.

#[export] Hint Rewrite @len_nil @len_cons @len_app @len_drop @len_take
  @len_replicate @len_fmap @len_to_nat : len.

Ltac pose_len_nonneg :=
  repeat match goal with
  | |- context [len ?l] =>
      lazymatch goal with H : 0 ≤ len l |- _ => fail | _ => pose proof (len_nonneg l) end
  | _ : context [len ?l] |- _ =>
      lazymatch goal with H : 0 ≤ len l |- _ => fail | _ => pose proof (len_nonneg l) end
  end.

#[export] Hint Extern 3 (_ ≤ _) => lia : bedrock.
#[export] Hint Extern 3 (_ < _) => lia : bedrock.

(** Closes a goal with the component's registered lemmas and arithmetic side
    conditions. *)
Ltac bauto := solve [eauto 6 with bedrock].

Ltac slia := autorewrite with len in *; pose_len_nonneg; lia.

(** *** Integers that fit *)

Lemma u32_small n : 0 ≤ n < 2 ^ 32 → u32 n = n.
Proof. apply Z.mod_small. Qed.

Lemma u64_small n : 0 ≤ n < 2 ^ 64 → u64 n = n.
Proof. apply Z.mod_small. Qed.

(** *** Slices *)

Lemma slice_app_l {A} (l k : list A) off n :
  0 ≤ off → 0 ≤ n → off + n ≤ len l → slice off n (l ++ k) = slice off n l.
Proof.
  intros. unfold slice, len in *.
  rewrite drop_app_le by lia. rewrite take_app_le; [done|]. rewrite length_drop; lia.
Qed.

Lemma slice_app_r {A} (l k : list A) off n :
  len l ≤ off → slice off n (l ++ k) = slice (off - len l) n k.
Proof.
  intros. unfold slice, len in *.
  rewrite drop_app_ge by lia. do 2 f_equal. lia.
Qed.

Lemma slice_app_exact {A} (l m k : list A) off n :
  off = len l → n = len m → slice off n (l ++ m ++ k) = m.
Proof.
  intros -> ->. rewrite slice_app_r by lia. unfold slice.
  rewrite Z.sub_diag. change (Z.to_nat 0) with 0%nat. rewrite drop_0, len_to_nat.
  by rewrite take_app_length.
Qed.

Lemma slice_app {A} (l k : list A) n :
  len l ≤ n → slice 0 n (l ++ k) = l ++ slice 0 (n - len l) k.
Proof.
  intros. unfold slice, len in *. change (Z.to_nat 0) with 0%nat. rewrite !drop_0.
  rewrite take_app_ge by lia. do 2 f_equal. lia.
Qed.

Lemma slice_full {A} (l : list A) : slice 0 (len l) l = l.
Proof. unfold slice. rewrite len_to_nat. change (Z.to_nat 0) with 0%nat. by rewrite drop_0, take_ge. Qed.

Lemma slice_empty {A} off (l : list A) : slice off 0 l = [].
Proof. reflexivity. Qed.

Lemma at_off_0 {A} (l : list A) : at_off 0 l = l.
Proof. reflexivity. Qed.

Lemma at_off_app {A} (l k : list A) off :
  off = len l → at_off off (l ++ k) = k.
Proof. intros ->. unfold at_off. rewrite len_to_nat. by rewrite drop_app_length. Qed.

Lemma at_off_app_r {A} (l k : list A) off :
  len l ≤ off → at_off off (l ++ k) = at_off (off - len l) k.
Proof. intros. unfold at_off, len in *. rewrite drop_app_ge by lia. f_equal. lia. Qed.

Lemma at_off_at_off {A} (l : list A) o1 o2 :
  0 ≤ o1 → 0 ≤ o2 → at_off o2 (at_off o1 l) = at_off (o1 + o2) l.
Proof. intros. unfold at_off. rewrite drop_drop. f_equal. lia. Qed.

Lemma slice_at_off {A} (l : list A) o1 o2 n :
  0 ≤ o1 → 0 ≤ o2 → slice o2 n (at_off o1 l) = slice (o1 + o2) n l.
Proof. intros. unfold slice, at_off. rewrite drop_drop. do 2 f_equal. lia. Qed.

Lemma slice_split {A} (l : list A) n :
  0 ≤ n ≤ len l → l = slice 0 n l ++ at_off n l.
Proof.
  intros. unfold slice, at_off. change (Z.to_nat 0) with 0%nat. by rewrite drop_0, take_drop.
Qed.

Lemma slice_min {A} off n (l : list A) : slice off n l = slice off (Z.min n (len l)) l.
Proof.
  unfold slice, len. destruct (Z.le_gt_cases n (Z.of_nat (length l))).
  - do 2 f_equal. lia.
  - rewrite !take_ge; [done|rewrite length_drop; lia..].
Qed.

Lemma slice_join {A} (l : list A) a b :
  0 ≤ a ≤ b → slice 0 a l ++ slice 0 (b - a) (at_off a l) = slice 0 b l.
Proof.
  intros. unfold slice, at_off. change (Z.to_nat 0) with 0%nat. rewrite !drop_0.
  replace (Z.to_nat b) with (Z.to_nat a + Z.to_nat (b - a))%nat by lia.
  by rewrite take_take_drop.
Qed.

Lemma drop_slice {A} (l : list A) s n p :
  0 ≤ s → 0 ≤ p ≤ n → at_off p (slice s n l) = slice (s + p) (n - p) l.
Proof.
  intros. unfold at_off, slice.
  replace (Z.to_nat n) with (Z.to_nat p + Z.to_nat (n - p))%nat by lia.
  rewrite <- take_drop_commute, drop_drop. do 2 f_equal. lia.
Qed.

Lemma slice_slice {A} (l : list A) s n p k :
  0 ≤ s → 0 ≤ p → 0 ≤ k → p + k ≤ n → slice p k (slice s n l) = slice (s + p) k l.
Proof.
  intros. change (slice p k (slice s n l)) with (take (Z.to_nat k) (at_off p (slice s n l))).
  rewrite drop_slice by lia. unfold slice. rewrite take_take. f_equal. lia.
Qed.

Lemma at_ix_slice {A} (l : list A) s n i :
  0 ≤ s → 0 ≤ i < n → at_ix (slice s n l) i = at_ix l (s + i).
Proof.
  intros. unfold at_ix. rewrite !(proj2 (Z.ltb_ge _ _)) by lia. unfold slice.
  rewrite lookup_take_lt by lia. rewrite lookup_drop. f_equal. lia.
Qed.

Lemma at_ix_is_Some {A} (l : list A) i : 0 ≤ i < len l → is_Some (at_ix l i).
Proof.
  intros. unfold at_ix, len in *. rewrite (proj2 (Z.ltb_ge _ _)) by lia.
  apply lookup_lt_is_Some_2. lia.
Qed.

Lemma at_ix_app_r {A} (l k : list A) i :
  len l ≤ i → at_ix (l ++ k) i = at_ix k (i - len l).
Proof.
  intros. unfold at_ix, len in *. rewrite !(proj2 (Z.ltb_ge _ _)) by lia.
  rewrite lookup_app_r by lia. f_equal. lia.
Qed.

Lemma at_ix_app_l {A} (l k : list A) i : 0 ≤ i < len l → at_ix (l ++ k) i = at_ix l i.
Proof.
  intros. unfold at_ix, len in *. rewrite !(proj2 (Z.ltb_ge _ _)) by lia.
  rewrite lookup_app_l by lia. done.
Qed.

(** *** Filters *)

(** The shorter of two prefixes of a string is a prefix of the longer. *)
Lemma app_split_le {A} (w s x t : list A) :
  w ++ s = x ++ t → len x ≤ len w → ∃ w', w = x ++ w' ∧ t = w' ++ s.
Proof.
  revert w. induction x as [|a x IH]; intros w E Hl; [by exists w|].
  destruct w as [|b w]; [rewrite len_cons in Hl; pose proof (len_nonneg x); unfold len in *; simpl in *; lia|].
  injection E as -> E. rewrite !len_cons in Hl. destruct (IH w E ltac:(lia)) as (w' & -> & ->). by exists w'.
Qed.

Lemma filter_all {A} (P : A → Prop) `{!∀ x, Decision (P x)} (l : list A) :
  Forall P l → filter P l = l.
Proof. induction 1; [done|]. rewrite filter_cons_True by done. by f_equal. Qed.

Lemma filter_none {A} (P : A → Prop) `{!∀ x, Decision (P x)} (l : list A) :
  Forall (λ x, ¬ P x) l → filter P l = [].
Proof. induction 1; [done|]. by rewrite filter_cons_False. Qed.

Lemma filter_agree {A} (P Q : A → Prop) `{!∀ x, Decision (P x)} `{!∀ x, Decision (Q x)} (l : list A) :
  (∀ x, x ∈ l → P x ↔ Q x) → filter P l = filter Q l.
Proof.
  induction l as [|x l IH]; intros Hag; [done|]. rewrite !filter_cons.
  rewrite IH by (intros y Hy; apply Hag; by apply list_elem_of_further).
  pose proof (Hag x (list_elem_of_here _ _)). repeat case_decide; tauto.
Qed.

Lemma elem_of_concat {A} (x : A) (ls : list (list A)) : x ∈ concat ls ↔ ∃ l, l ∈ ls ∧ x ∈ l.
Proof.
  induction ls as [|l ls IH]; simpl.
  - split; [by intros ?%not_elem_of_nil|]. by intros (l & ?%not_elem_of_nil & _).
  - rewrite elem_of_app, IH. setoid_rewrite elem_of_cons. split.
    + intros [?|(k & ? & ?)]; eauto.
    + intros (k & [->|?] & ?); eauto.
Qed.

Lemma filter_concat {A} (P : A → Prop) `{!∀ x, Decision (P x)} (ls : list (list A)) :
  filter P (concat ls) = concat (filter P <$> ls).
Proof. induction ls as [|l ls IH]; [done|]. rewrite fmap_cons. simpl. by rewrite filter_app, IH. Qed.

(** *** Bytes *)

Lemma byte_val_range b : 0 ≤ byte_val b < 256.
Proof.
  unfold byte_val. pose proof (Strings.Byte.to_N_bounded b). lia.
Qed.

Lemma byte_val_to_char z : byte_val (to_char z) = z mod 256.
Proof.
  unfold byte_val, to_char.
  pose proof (Z.mod_pos_bound z 256 eq_refl).
  destruct (Strings.Byte.of_N (Z.to_N (z mod 256))) eqn:E.
  - apply Strings.Byte.to_of_N in E. rewrite E. lia.
  - apply Strings.Byte.of_N_None_iff in E. lia.
Qed.

Lemma to_char_byte_val b : to_char (byte_val b) = b.
Proof.
  unfold to_char. pose proof (byte_val_range b). rewrite Z.mod_small by lia.
  unfold byte_val. rewrite N2Z.id. by rewrite Strings.Byte.of_to_N.
Qed.

#[global] Instance byte_val_inj : Inj (=) (=) byte_val.
Proof. intros a b E. by rewrite <- (to_char_byte_val a), E, to_char_byte_val. Qed.

(** *** Lexicographic order on byte strings *)

Lemma bytes_compare_refl a : bytes_compare a a = Eq.
Proof. induction a; simpl; [done|]. by rewrite Z.compare_refl. Qed.

Lemma bytes_compare_eq a b : bytes_compare a b = Eq ↔ a = b.
Proof.
  split; [|intros ->; apply bytes_compare_refl].
  revert b; induction a as [|x a IH]; intros [|y b]; simpl; try done.
  destruct (Z.compare_spec (byte_val x) (byte_val y)) as [E| |]; try done.
  intros ?%IH. apply (inj byte_val) in E. congruence.
Qed.

Lemma bytes_compare_antisym a b : bytes_compare b a = CompOpp (bytes_compare a b).
Proof.
  revert b; induction a as [|x a IH]; intros [|y b]; simpl; try done.
  rewrite Z.compare_antisym. destruct (byte_val x ?= byte_val y); simpl; auto.
Qed.

Lemma bytes_compare_lt_trans a b c :
  bytes_compare a b = Lt → bytes_compare b c = Lt → bytes_compare a c = Lt.
Proof.
  revert b c; induction a as [|x a IH]; intros [|y b] [|z c]; simpl; try done.
  destruct (Z.compare_spec (byte_val x) (byte_val y));
  destruct (Z.compare_spec (byte_val y) (byte_val z));
  destruct (Z.compare_spec (byte_val x) (byte_val z)); try done; try lia; eauto.
Qed.

#[export] Instance bytes_ltb_strict_weak : StrictWeak bytes_ltb.
Proof.
  unfold bytes_ltb. split.
  - intros x. by rewrite bytes_compare_refl.
  - intros x y z. pose proof (bytes_compare_lt_trans x y z).
    destruct (bytes_compare x y), (bytes_compare y z); try done.
    by rewrite (H eq_refl eq_refl).
  - intros x y z. destruct (bytes_compare x y) eqn:E1; [| by left |].
    + apply bytes_compare_eq in E1 as ->. by right.
    + pose proof (bytes_compare_lt_trans y x z) as T.
      rewrite (bytes_compare_antisym x y), E1 in T. simpl in T.
      destruct (bytes_compare x z); try done. rewrite T by done. by right.
Qed.

Lemma bytes_ltb_total a b : bytes_ltb a b = false → bytes_ltb b a = false → a = b.
Proof.
  unfold bytes_ltb. rewrite (bytes_compare_antisym a b).
  destruct (bytes_compare a b) eqn:E; simpl; try done. by apply bytes_compare_eq in E.
Qed.

Lemma bytes_eqb_eq a b : bytes_eqb a b = true ↔ a = b.
Proof. unfold bytes_eqb. by rewrite bool_decide_eq_true. Qed.

(** *** Sorted lists *)

Lemma sorted_by_app {A} (lt : A → A → bool) l k :
  sorted_by lt (l ++ k) ↔
  sorted_by lt l ∧ sorted_by lt k ∧ (∀ x y, x ∈ l → y ∈ k → lt x y = true).
Proof.
  induction l as [|z l IH]; simpl.
  - split; [intros H; split_and!; [done|done|]|tauto]. intros x y Hx. by apply not_elem_of_nil in Hx.
  - rewrite Forall_app, IH, !Forall_forall. split.
    + intros [[H1 H2] (H3 & H4 & H5)]. split_and!; [done|done|done|].
      intros x y [->|Hx]%elem_of_cons Hy; auto.
    + intros [[H1 H2] [H3 H4]]. split_and!; [done| |done|done|].
      * intros y Hy. apply H4; [apply list_elem_of_here|done].
      * intros x y Hx Hy. apply H4; [by apply list_elem_of_further|done].
Qed.

Lemma sorted_by_ext {A} (lt lt' : A → A → bool) l :
  (∀ x y, x ∈ l → y ∈ l → lt x y = lt' x y) → sorted_by lt l → sorted_by lt' l.
Proof.
  induction l as [|z l IH]; intros He; [done|]. simpl. intros [H1 H2]. split.
  - rewrite Forall_forall in *. intros y Hy.
    rewrite <- He; [by apply H1|apply list_elem_of_here|by apply list_elem_of_further].
  - apply IH; [|done]. intros x y Hx Hy. apply He; by apply list_elem_of_further.
Qed.

Lemma sorted_by_lookup {A} (lt : A → A → bool) l i j x y :
  sorted_by lt l → (i < j)%nat → l !! i = Some x → l !! j = Some y → lt x y = true.
Proof.
  revert i j. induction l as [|z l IH]; intros i j Hs Hij Hi Hj; [done|]. destruct Hs as [H1 H2].
  destruct j as [|j]; [lia|]. destruct i as [|i]; simpl in *; [|by apply (IH i j); [|lia|..]].
  injection Hi as ->. rewrite Forall_forall in H1. apply H1. by eapply list_elem_of_lookup_2.
Qed.

Lemma sorted_by_fmap {A B} (f : A → B) (lt : B → B → bool) l :
  sorted_by lt (f <$> l) ↔ sorted_by (λ x y, lt (f x) (f y)) l.
Proof. induction l as [|z l IH]; [done|]. rewrite fmap_cons. simpl. by rewrite Forall_fmap, IH. Qed.

(** *** Consequences of [StrictWeak] *)

Section StrictWeak.
Context {A} (lt : A → A → bool) `{!StrictWeak lt}.

Lemma sw_asym x y : lt x y = true → lt y x = false.
Proof.
  intros H. destruct (lt y x) eqn:E; [|done].
  pose proof (sw_trans _ _ _ H E). by rewrite sw_irrefl in *.
Qed.

Lemma sw_lt_le_trans x y z : lt x y = true → lt z y = false → lt x z = true.
Proof. intros H1 H2. destruct (sw_cotrans x z y H1); congruence. Qed.

Lemma sw_le_lt_trans x y z : lt y x = false → lt y z = true → lt x z = true.
Proof. intros H1 H2. destruct (sw_cotrans y x z H2); congruence. Qed.

Lemma sw_le_trans x y z : lt y x = false → lt z y = false → lt z x = false.
Proof.
  intros H1 H2. destruct (lt z x) eqn:E; [|done].
  destruct (sw_cotrans _ y _ E); congruence.
Qed.

End StrictWeak.

(** *** [std::lower_bound] finds the partition point *)

(** [comp] is true on a prefix of [l] and false after it. *)
Definition partitioned {A} (comp : A → bool) (l : list A) : Prop :=
  ∀ i j x y, (i < j)%nat → l !! i = Some x → l !! j = Some y → comp y = true → comp x = true.

Lemma lower_bound_loop_spec {A} (comp : A → bool) (l : list A) fuel first n :
  partitioned comp l →
  (n ≤ fuel)%nat →
  (first + n ≤ length l)%nat →
  (∀ i x, (i < first)%nat → l !! i = Some x → comp x = true) →
  (∀ i x, (first + n ≤ i)%nat → l !! i = Some x → comp x = false) →
  let r := lower_bound_loop comp l fuel first n in
  (r ≤ length l)%nat ∧
  (∀ i x, (i < r)%nat → l !! i = Some x → comp x = true) ∧
  (∀ i x, (r ≤ i)%nat → l !! i = Some x → comp x = false).
Proof.
  intros Hp. revert first n.
  induction fuel as [|fuel IH]; intros first n Hf Hb Hlo Hhi; cbn [lower_bound_loop].
  - split_and!; [lia|done|]. intros i x ?. apply Hhi. lia.
  - destruct n as [|n].
    { split_and!; [lia|done|]. intros i x ?. apply Hhi. lia. }
    set (half := Nat.div (S n) 2).
    assert (half < S n)%nat as Hhalf by (apply Nat.div_lt; lia).
    destruct (lookup_lt_is_Some_2 l (first + half)%nat) as [m Hm]; [lia|].
    rewrite Hm. destruct (comp m) eqn:E; apply IH; try lia.
    + intros i x Hi Hx. destruct (decide (i = first + half)%nat) as [->|].
      * congruence.
      * apply (Hp i (first + half)%nat x m); [lia|done..].
    + intros i x Hi Hx. apply (Hhi i); [lia|done].
    + done.
    + intros i x Hi Hx. destruct (decide (i = first + half)%nat) as [->|].
      * congruence.
      * destruct (comp x) eqn:Ex; [|done].
        rewrite <- E. symmetry. apply (Hp (first + half)%nat i m x); [lia|done..].
Qed.

Lemma lower_bound_spec {A} (comp : A → bool) (l : list A) :
  partitioned comp l →
  (lower_bound comp l ≤ length l)%nat ∧
  (∀ i x, (i < lower_bound comp l)%nat → l !! i = Some x → comp x = true) ∧
  (∀ i x, (lower_bound comp l ≤ i)%nat → l !! i = Some x → comp x = false).
Proof.
  intros Hp. apply lower_bound_loop_spec; [done|lia|lia|intros; lia|].
  intros i x Hi Hx. apply lookup_lt_Some in Hx. lia.
Qed.
