(* ===== verification/Status.v ===== *)
(** * Status: the error-handling primitive of the engine

    Models include/bedrockkv/status.h and src/status.cpp: the code, the
    message, the named constructors, equality and [ToString].  Messages are
    byte strings, since the server copies them into replies. *)

From S2P Require Import Prelude.
From Stdlib Require Import String.
Export String.StringSyntax.

(** A string literal of the source. *)
Definition lit (s : string) : bytes := list_byte_of_string s.
Arguments lit s%_string_scope.

(** [std::to_string] of an unsigned 64-bit integer: at most twenty digits. *)
Definition digit (d : Z) : byte := to_char (48 + d).

Fixpoint digits (fuel : nat) (n : Z) (acc : bytes) : bytes :=
  match fuel with
  | O => acc
  | S fuel =>
      let acc := digit (n mod 10) :: acc in
      if n <? 10 then acc else digits fuel (n / 10) acc
  end.

Definition to_string (n : Z) : bytes := digits 20 n [].

(** [%06llu] *)
Definition zero_pad6 (n : Z) : bytes :=
  let s := to_string n in replicate (6 - Datatypes.length s)%nat (digit 0) ++ s.

(** A decimal digit, and the value a digit string denotes. *)
Definition is_digit (c : byte) : bool := (48 <=? byte_val c) && (byte_val c <=? 57).

Fixpoint decimal_value (acc : Z) (s : bytes) : Z :=
  match s with
  | [] => acc
  | c :: s => decimal_value (10 * acc + (byte_val c - 48)) s
  end.

Inductive Code :=
  | kOk
  | kNotFound
  | kCorruption
  | kIOError
  | kInvalidArgument
  | kNotSupported.

#[global] Instance Code_eq_dec : EqDecision Code.
Proof. solve_decision. Defined.

Record Status := mkStatus { code_ : Code; message_ : bytes }.

Definition Ok : Status := mkStatus kOk [].
Definition NotFound (msg : bytes) : Status := mkStatus kNotFound msg.
Definition Corruption (msg : bytes) : Status := mkStatus kCorruption msg.
Definition IOError (msg : bytes) : Status := mkStatus kIOError msg.
Definition InvalidArgument (msg : bytes) : Status := mkStatus kInvalidArgument msg.
Definition NotSupported (msg : bytes) : Status := mkStatus kNotSupported msg.

Definition ok (s : Status) : bool := bool_decide (code_ s = kOk).

(** [operator==]: OK statuses compare equal whatever their message. *)
Definition status_eqb (a b : Status) : bool :=
  bool_decide (code_ a = code_ b) && (ok a || bytes_eqb (message_ a) (message_ b)).

Definition ToString (s : Status) : bytes :=
  match code_ s with
  | kOk => lit "OK"
  | kNotFound => lit "NotFound: " ++ message_ s
  | kCorruption => lit "Corruption: " ++ message_ s
  | kIOError => lit "IOError: " ++ message_ s
  | kInvalidArgument => lit "InvalidArgument: " ++ message_ s
  | kNotSupported => lit "NotSupported: " ++ message_ s
  end.

(** The named constructors are the only way to build a [Status], so an OK
    status never carries a message. *)
Definition constructed (s : Status) : Prop := ok s = true → message_ s = [].

Lemma ok_Ok : ok Ok = true.
Proof. reflexivity. Qed.

Lemma ok_code s : ok s = true ↔ code_ s = kOk.
Proof. unfold ok. by rewrite bool_decide_eq_true. Qed.

(** [ToString] separates the statuses the named constructors can build:
    two of them with the same text are equal under [operator==]. *)
Lemma ToString_inj a b :
  constructed a → constructed b → ToString a = ToString b → status_eqb a b = true.
Proof.
  intros _ _. unfold ToString, status_eqb, ok.
  destruct a as [[] m], b as [[] m']; simpl; intros E; try discriminate E; try done;
    repeat match goal with H : _ :: _ = _ :: _ |- _ => injection H as H end; subst;
    by apply bytes_eqb_eq.
Qed.

(** ** Decimal numbers *)

Lemma byte_val_digit d : 0 ≤ d < 10 → byte_val (digit d) = 48 + d.
Proof. intros H. unfold digit. rewrite byte_val_to_char. apply Z.mod_small. lia. Qed.

Lemma is_digit_digit d : 0 ≤ d < 10 → is_digit (digit d) = true.
Proof. intros H. unfold is_digit. rewrite byte_val_digit by done. lia. Qed.

Lemma decimal_value_app acc s t : decimal_value acc (s ++ t) = decimal_value (decimal_value acc s) t.
Proof. revert acc. induction s as [|c s IH]; intros acc; simpl; [done|]. apply IH. Qed.

Lemma decimal_value_zeros n s : decimal_value 0 (replicate n (digit 0) ++ s) = decimal_value 0 s.
Proof. induction n as [|n IH]; [done|]. simpl. by rewrite byte_val_digit by lia. Qed.

Lemma digits_spec fuel n acc :
  (0 < fuel)%nat → 0 ≤ n < 10 ^ Z.of_nat fuel →
  ∃ ds, digits fuel n acc = ds ++ acc ∧ ds ≠ [] ∧ len ds ≤ Z.of_nat fuel ∧
        Forall (λ c, is_digit c = true) ds ∧ decimal_value 0 ds = n.
Proof.
  revert n acc. induction fuel as [|fuel IH]; intros n acc Hf Hn; [lia|]. cbn [digits].
  pose proof (Z.mod_pos_bound n 10 ltac:(lia)) as Hm. destruct (Z.ltb_spec n 10) as [Hlt|Hge].
  - exists [digit (n mod 10)]. split_and!; [done|done|unfold len; simpl; lia| |].
    + constructor; [by apply is_digit_digit|constructor].
    + simpl. rewrite byte_val_digit, Z.mod_small by lia. lia.
  - rewrite Nat2Z.inj_succ, Z.pow_succ_r in Hn by lia. destruct fuel as [|fuel]; [simpl in Hn; lia|].
    destruct (IH (n / 10) (digit (n mod 10) :: acc) ltac:(lia)) as (ds & -> & Hne & Hl & Hd & Hv).
    { split; [apply Z.div_pos; lia|]. apply Z.div_lt_upper_bound; lia. }
    exists (ds ++ [digit (n mod 10)]). rewrite <- app_assoc. split_and!; [done| | | |].
    + by destruct ds.
    + rewrite len_app. unfold len in *. simpl. lia.
    + apply Forall_app. split; [done|]. constructor; [by apply is_digit_digit|constructor].
    + rewrite decimal_value_app, Hv. simpl. rewrite byte_val_digit by lia.
      pose proof (Z.div_mod n 10 ltac:(lia)). lia.
Qed.

Lemma to_string_spec n :
  0 ≤ n < 2 ^ 64 →
  to_string n ≠ [] ∧ len (to_string n) ≤ 20 ∧ Forall (λ c, is_digit c = true) (to_string n) ∧
  decimal_value 0 (to_string n) = n.
Proof.
  intros Hn. unfold to_string. destruct (digits_spec 20 n [] ltac:(lia) ltac:(lia)) as (ds & -> & H).
  by rewrite app_nil_r.
Qed.

Lemma zero_pad6_spec n :
  0 ≤ n < 2 ^ 64 →
  zero_pad6 n ≠ [] ∧ len (zero_pad6 n) ≤ 20 ∧ Forall (λ c, is_digit c = true) (zero_pad6 n) ∧
  decimal_value 0 (zero_pad6 n) = n.
Proof.
  intros Hn. destruct (to_string_spec n Hn) as (Hne & Hl & Hd & Hv). unfold zero_pad6. split_and!.
  - by destruct (replicate _ _), (to_string n).
  - rewrite len_app, len_replicate. unfold len in *. lia.
  - apply Forall_app. split; [|done]. by apply Forall_replicate, is_digit_digit.
  - by rewrite decimal_value_zeros.
Qed.

Lemma zero_pad6_inj n m : 0 ≤ n < 2 ^ 64 → 0 ≤ m < 2 ^ 64 → zero_pad6 n = zero_pad6 m → n = m.
Proof.
  intros Hn Hm E. destruct (zero_pad6_spec n Hn) as (_ & _ & _ & <-).
  destruct (zero_pad6_spec m Hm) as (_ & _ & _ & <-). by rewrite E.
Qed.
