(* ===== verification/Ring.v ===== *)
(** * The io_uring wrapper

    Models include/bedrockkv/ring.h and src/ring.cpp after [Open]: the
    submission queue with its index array, the completion queue, and the
    counters.  Indices are 32-bit and wrap around.  The kernel is the
    environment: what an [io_uring_enter] consumes and which operations
    complete are arguments; [accepted] is every operation it has taken, in
    order, and [inflight] those of them it has not completed. *)

From S2P Require Import Prelude Status.

Module ring.

Inductive OpCode :=
  | kOpWrite (fd : Z) (buf : bytes) (offset : Z)
  | kOpFsync (fd : Z).

Record Sqe := mkSqe { op : OpCode; user_data : Z }.
Record Cqe := mkCqe { cqe_user_data : Z; res : Z }.

(** [sqes_], [sq_array_] and [cqes] are the mapped arrays; [sq_head_] and
    [cq_tail_] are written by the kernel. *)
Record Ring := mkRing {
  entries_ : Z;
  outstanding_ : Z;
  sq_tail_ : Z;
  queued_ : Z;
  sqes_ : list (option Sqe);
  sq_array_ : list Z;
  sq_mask_ : Z;
  sq_head_ : Z;
  sq_tail_pub_ : Z;
  cqes : list (option Cqe);
  cq_mask_ : Z;
  cq_head_ : Z;
  cq_tail_ : Z;
  inflight : list Sqe;
  accepted : list Sqe
}.

Definition new_Ring (entries sq_entries cq_entries : Z) : Ring :=
  mkRing entries 0 0 0 (replicate (Z.to_nat sq_entries) None) (replicate (Z.to_nat sq_entries) 0)
    (sq_entries - 1) 0 0 (replicate (Z.to_nat cq_entries) None) (cq_entries - 1) 0 0 [] [].

(** [params] is what [io_uring_setup] reports: the real sizes of the queues,
    powers of two. *)
Definition Open (setup mmap_err : option bytes) (entries sq_entries cq_entries : Z) : Status * option Ring :=
  match setup with
  | Some e => (IOError (lit "io_uring_setup failed: " ++ e), None)
  | None =>
      match mmap_err with
      | Some e => (IOError (lit "io_uring mmap failed: " ++ e), None)
      | None =>
          (Ok, Some (new_Ring entries sq_entries cq_entries))
      end
  end.

(** The body shared by [QueueWrite] and [QueueFsync]. *)
Definition queue (o : OpCode) (ud : Z) (r : Ring) : bool * Ring :=
  if entries_ r <=? u32 (sq_tail_ r - sq_head_ r) then (false, r)
  else
    let slot := Z.land (sq_tail_ r) (sq_mask_ r) in
    (true, mkRing (entries_ r) (outstanding_ r) (u32 (sq_tail_ r + 1)) (u32 (queued_ r + 1))
             (<[Z.to_nat slot := Some (mkSqe o ud)]> (sqes_ r)) (<[Z.to_nat slot := slot]> (sq_array_ r)) (sq_mask_ r)
             (sq_head_ r) (sq_tail_pub_ r) (cqes r) (cq_mask_ r) (cq_head_ r) (cq_tail_ r) (inflight r) (accepted r)).

(** The SQE carries the length in 32 bits. *)
Definition QueueWrite (fd : Z) (buf : bytes) (offset ud : Z) (r : Ring) : bool * Ring :=
  queue (kOpWrite fd (slice 0 (u32 (len buf)) buf) offset) ud r.

Definition QueueFsync (fd ud : Z) (r : Ring) : bool * Ring := queue (kOpFsync fd) ud r.

(** ** The kernel *)

(** The SQE the kernel finds at the head of the queue. *)
Definition head_sqe (r : Ring) : option Sqe :=
  slot ← sq_array_ r !! Z.to_nat (Z.land (sq_head_ r) (sq_mask_ r));
  mjoin (sqes_ r !! Z.to_nat slot).

Definition take_head (e : Sqe) (r : Ring) : Ring :=
  mkRing (entries_ r) (outstanding_ r) (sq_tail_ r) (queued_ r) (sqes_ r) (sq_array_ r) (sq_mask_ r)
    (u32 (sq_head_ r + 1)) (sq_tail_pub_ r) (cqes r) (cq_mask_ r) (cq_head_ r) (cq_tail_ r)
    (inflight r ++ [e]) (accepted r ++ [e]).

(** It takes at most [n] published entries. *)
Fixpoint consume (n : nat) (r : Ring) : Ring :=
  match n with
  | O => r
  | S n =>
      if u32 (sq_tail_pub_ r - sq_head_ r) =? 0 then r
      else
        match head_sqe r with
        | None => r
        | Some e => consume n (take_head e r)
        end
  end.

(** Operation number [i] of those in flight completes with [result].  The
    kernel holds a completion back while the queue has no room for it. *)
Definition complete (i : nat) (result : Z) (r : Ring) : Ring :=
  match (if u32 (cq_tail_ r - cq_head_ r) <=? cq_mask_ r then inflight r !! i else None) with
  | None => r
  | Some e =>
      mkRing (entries_ r) (outstanding_ r) (sq_tail_ r) (queued_ r) (sqes_ r) (sq_array_ r) (sq_mask_ r)
        (sq_head_ r) (sq_tail_pub_ r)
        (<[Z.to_nat (Z.land (cq_tail_ r) (cq_mask_ r)) := Some (mkCqe (user_data e) result)]> (cqes r))
        (cq_mask_ r) (cq_head_ r) (u32 (cq_tail_ r + 1)) (delete i (inflight r)) (accepted r)
  end.

(** What happens around one [io_uring_enter]: the entries it consumes, the
    operations that complete, and its return value ([inl]: the number
    submitted, [inr]: [errno], [EINTR] apart). *)
Record enter_outcome := mkEnter { consumed : nat; completions : list (nat * Z); rc : Z + option bytes }.

Definition run_completions (cs : list (nat * Z)) (r : Ring) : Ring :=
  foldl (λ r c, complete c.1 c.2 r) r cs.

(** The retry loop around [enter]; an exhausted schedule is a call that
    submits everything and returns. *)
Fixpoint enter_loop (outcomes : list enter_outcome) (to_submit : Z) (r : Ring) : bool * Ring :=
  match outcomes with
  | [] => (true, consume (Z.to_nat to_submit) r)
  | o :: outcomes =>
      let r := run_completions (completions o) (consume (Nat.min (consumed o) (Z.to_nat to_submit)) r) in
      match rc o with
      | inl _ => (true, r)
      | inr (Some _) => (false, r)
      | inr None => enter_loop outcomes to_submit r
      end
  end.

(** ** Flush and Reap *)

Definition Flush (outcomes : list enter_outcome) (wait_all : bool) (r : Ring) : bool * Ring :=
  if (queued_ r =? 0) && negb wait_all then (true, r)
  else
    let to_submit := queued_ r in
    let r1 := if 0 <? to_submit
              then mkRing (entries_ r) (outstanding_ r) (sq_tail_ r) (queued_ r) (sqes_ r) (sq_array_ r) (sq_mask_ r)
                     (sq_head_ r) (sq_tail_ r) (cqes r) (cq_mask_ r) (cq_head_ r) (cq_tail_ r) (inflight r) (accepted r)
              else r in
    let '(okay, r2) := enter_loop outcomes to_submit r1 in
    if okay
    then (true, mkRing (entries_ r2) (u64 (outstanding_ r2 + to_submit)) (sq_tail_ r2) 0 (sqes_ r2) (sq_array_ r2)
                  (sq_mask_ r2) (sq_head_ r2) (sq_tail_pub_ r2) (cqes r2) (cq_mask_ r2) (cq_head_ r2) (cq_tail_ r2)
                  (inflight r2) (accepted r2))
    else (false, r2).

(** Consuming the entry at the head of the completion queue. *)
Definition pop_cqe (r : Ring) : Ring :=
  mkRing (entries_ r) (if 0 <? outstanding_ r then outstanding_ r - 1 else outstanding_ r) (sq_tail_ r)
    (queued_ r) (sqes_ r) (sq_array_ r) (sq_mask_ r) (sq_head_ r) (sq_tail_pub_ r) (cqes r) (cq_mask_ r)
    (u32 (cq_head_ r + 1)) (cq_tail_ r) (inflight r) (accepted r).

(** The loop that drains the completion queue; it takes at most as many steps
    as there are entries between head and tail. *)
Fixpoint reap_loop (fuel : nat) (r : Ring) (acc : list Cqe) : option (list Cqe * Ring) :=
  match fuel with
  | O => None
  | S fuel =>
      if cq_head_ r =? cq_tail_ r then Some (acc, r)
      else
        cqe ← mjoin (cqes r !! Z.to_nat (Z.land (cq_head_ r) (cq_mask_ r)));
        reap_loop fuel (pop_cqe r) (acc ++ [cqe])
  end.

(** [Reap(fn, wait)]: the completions [fn] was called with.  [arrived] are the
    completions that came in before the queue is read. *)
Definition Reap (outcomes outcomes2 : list enter_outcome) (arrived : list (nat * Z)) (wait : bool) (r : Ring)
    : option (bool * list Cqe * Ring) :=
  let '(flushed, r) :=
    if wait && ((0 <? outstanding_ r) || (0 <? queued_ r)) then Flush outcomes false r else (true, r) in
  if negb flushed then Some (false, [], r)
  else
    let '(entered, r) := if wait && (0 <? outstanding_ r) then enter_loop outcomes2 0 r else (true, r) in
    if negb entered then Some (false, [], r)
    else
      let r := run_completions arrived r in
      '(got, r) ← reap_loop (S (Z.to_nat (u32 (cq_tail_ r - cq_head_ r)))) r [];
      Some (true, got, r).

(** ** A run *)

Inductive ring_op :=
  | RQueue (o : OpCode) (ud : Z)
  | RFlush (outcomes : list enter_outcome) (wait_all : bool)
  | RReap (outcomes outcomes2 : list enter_outcome) (arrived : list (nat * Z)) (wait : bool).

(** The operations queued and the completions handed to the callers. *)
Fixpoint run (r : Ring) (ops : list ring_op) : option (list Sqe * list Cqe * Ring) :=
  match ops with
  | [] => Some ([], [], r)
  | RQueue o ud :: ops =>
      let '(okay, r) := queue o ud r in
      '(qs, cs, r) ← run r ops;
      Some (if (okay : bool) then mkSqe o ud :: qs else qs, cs, r)
  | RFlush outcomes wait_all :: ops => run (Flush outcomes wait_all r).2 ops
  | RReap o1 o2 arrived wait :: ops =>
      '(_, got, r) ← Reap o1 o2 arrived wait r;
      '(qs, cs, r) ← run r ops;
      Some (qs, got ++ cs, r)
  end.

(** ** Circular buffers *)

(** The elements [l] lie in [buf] from position [h] on, modulo its size. *)
Definition window {A} (buf : list (option A)) (n h : Z) (l : list A) : Prop :=
  len buf = n ∧ len l ≤ n ∧
  ∀ i x, l !! i = Some x → buf !! Z.to_nat ((h + Z.of_nat i) mod n) = Some (Some x).

Lemma slot_ne n h i j : 0 ≤ i < j → j < n → (h + i) mod n ≠ (h + j) mod n.
Proof.
  intros Hi Hj E. pose proof (Z.div_mod (h + i) n ltac:(lia)). pose proof (Z.div_mod (h + j) n ltac:(lia)).
  assert (j - i = n * ((h + j) / n - (h + i) / n)) as Hd by (rewrite Z.mul_sub_distr_l; lia).
  set (q := (h + j) / n - (h + i) / n) in *. clearbody q.
  destruct (Z.lt_trichotomy q 0) as [Hq|[->|Hq]]; nia.
Qed.

Lemma window_push {A} (buf : list (option A)) n h l x :
  0 < n → window buf n h l → len l < n →
  window (<[Z.to_nat ((h + len l) mod n) := Some x]> buf) n h (l ++ [x]).
Proof.
  intros Hn (H1 & H2 & H3) Hl. split_and!.
  - unfold len. by rewrite length_insert.
  - rewrite len_app. unfold len in *. simpl. lia.
  - intros i y Hi. pose proof (Z.mod_pos_bound (h + len l) n Hn). apply lookup_app_Some in Hi as [Hi|[Hge Hi]].
    + pose proof (lookup_lt_Some _ _ _ Hi). rewrite list_lookup_insert_ne; [by apply H3|].
      pose proof (Z.mod_pos_bound (h + Z.of_nat i) n Hn). unfold len in *.
      pose proof (slot_ne n h (Z.of_nat i) (Z.of_nat (length l)) ltac:(lia) ltac:(lia)). lia.
    + assert (i = length l) as ->.
      { apply lookup_lt_Some in Hi. simpl in Hi. lia. }
      rewrite Nat.sub_diag in Hi. injection Hi as <-. unfold len. apply list_lookup_insert_eq. unfold len in *. lia.
Qed.

Lemma window_pop {A} (buf : list (option A)) n h x l :
  window buf n h (x :: l) → buf !! Z.to_nat (h mod n) = Some (Some x) ∧ window buf n (h + 1) l.
Proof.
  intros (H1 & H2 & H3). split.
  - specialize (H3 0%nat x eq_refl). by rewrite Z.add_0_r in H3.
  - split_and!; [done|rewrite len_cons in H2; lia|]. intros i y Hi. specialize (H3 (S i) y Hi).
    by replace (h + 1 + Z.of_nat i) with (h + Z.of_nat (S i)) by lia.
Qed.

Lemma window_shift {A} (buf : list (option A)) k h l :
  0 ≤ k ≤ 32 → window buf (2 ^ k) h l → window buf (2 ^ k) (u32 h) l.
Proof.
  intros Hk (H1 & H2 & H3). split_and!; [done..|]. intros i x Hi. rewrite <- (H3 i x Hi). do 2 f_equal.
  unfold u32. assert (2 ^ 32 = 2 ^ k * 2 ^ (32 - k)) as E by (rewrite <- Z.pow_add_r by lia; f_equal; lia).
  assert (0 < 2 ^ k) by (apply Z.pow_pos_nonneg; lia).
  rewrite <- (Z.add_mod_idemp_l (h mod _)), <- (Z.add_mod_idemp_l h) by lia.
  rewrite Z.mod_mod_divide; [done|]. rewrite E. apply Z.divide_factor_l.
Qed.

(** ** The rings represent queues *)

(** [pend] is queued and not consumed, [cq] is completed and not reaped. *)
Record ring_rep (ks kc : Z) (r : Ring) (pend : list Sqe) (cq : list Cqe) : Prop := {
  rr_k : 0 ≤ ks < 32 ∧ 0 ≤ kc < 32;
  rr_mask : sq_mask_ r = Z.ones ks ∧ cq_mask_ r = Z.ones kc;
  rr_entries : entries_ r ≤ 2 ^ ks;
  rr_sq : window (sqes_ r) (2 ^ ks) (sq_head_ r) pend;
  rr_array : len (sq_array_ r) = 2 ^ ks ∧
    ∀ i, 0 ≤ i < len pend →
      sq_array_ r !! Z.to_nat ((sq_head_ r + i) mod 2 ^ ks) = Some ((sq_head_ r + i) mod 2 ^ ks);
  rr_head : 0 ≤ sq_head_ r < 2 ^ 32 ∧ sq_tail_ r = u32 (sq_head_ r + len pend);
  rr_pub : 0 ≤ sq_tail_pub_ r < 2 ^ 32 ∧ u32 (sq_tail_pub_ r - sq_head_ r) ≤ len pend;
  rr_cq : window (cqes r) (2 ^ kc) (cq_head_ r) cq;
  rr_cqhead : 0 ≤ cq_head_ r < 2 ^ 32 ∧ cq_tail_ r = u32 (cq_head_ r + len cq)
}.

Lemma pow32 k : 0 ≤ k < 32 → 0 < 2 ^ k < 2 ^ 32.
Proof. intros Hk. split; [apply Z.pow_pos_nonneg; lia|apply Z.pow_lt_mono_r; lia]. Qed.

Lemma index_distance h n : 0 ≤ h < 2 ^ 32 → 0 ≤ n < 2 ^ 32 → u32 (u32 (h + n) - h) = n.
Proof.
  intros Hh Hn. unfold u32. rewrite Zminus_mod_idemp_l. replace (h + n - h) with n by lia. by apply Z.mod_small.
Qed.

Lemma slot_u32 k h : 0 ≤ k < 32 → u32 h mod 2 ^ k = h mod 2 ^ k.
Proof.
  intros Hk. unfold u32. apply Z.mod_mod_divide. exists (2 ^ (32 - k)). rewrite <- Z.pow_add_r by lia. f_equal. lia.
Qed.

Definition tokens (r : Ring) (cq : list Cqe) : list Z := (cqe_user_data <$> cq) ++ (user_data <$> inflight r).

(** From one state to another: [qs] were queued and [cs] were reaped; what was
    queued is taken by the kernel in order, and every completion stands for
    one operation taken. *)
Record advance (r : Ring) (pend : list Sqe) (cq : list Cqe) (qs : list Sqe) (cs : list Cqe)
    (r' : Ring) (pend' : list Sqe) (cq' : list Cqe) : Prop := {
  ad_rep : ∃ ks kc, ring_rep ks kc r' pend' cq';
  ad_fifo : ∃ taken, pend ++ qs = taken ++ pend' ∧ accepted r' = accepted r ++ taken ∧
    Permutation (tokens r cq ++ (user_data <$> taken)) ((cqe_user_data <$> cs) ++ tokens r' cq')
}.

Lemma advance_refl ks kc r pend cq : ring_rep ks kc r pend cq → advance r pend cq [] [] r pend cq.
Proof.
  intros H. split; [by eexists _, _|]. exists []. split_and!; [by rewrite app_nil_r..|].
  change (user_data <$> []) with (@nil Z). by rewrite app_nil_r.
Qed.

Lemma advance_trans r1 p1 c1 qs1 cs1 r2 p2 c2 qs2 cs2 r3 p3 c3 :
  advance r1 p1 c1 qs1 cs1 r2 p2 c2 → advance r2 p2 c2 qs2 cs2 r3 p3 c3 →
  advance r1 p1 c1 (qs1 ++ qs2) (cs1 ++ cs2) r3 p3 c3.
Proof.
  intros [_ (t1 & E1 & A1 & P1)] [Hr (t2 & E2 & A2 & P2)]. split; [done|]. exists (t1 ++ t2). split_and!.
  - by rewrite app_assoc, E1, <- !app_assoc, E2.
  - by rewrite A2, A1, app_assoc.
  - rewrite !fmap_app, app_assoc, P1, <- !app_assoc. apply Permutation_app_head. by rewrite P2.
Qed.

Lemma queue_advance o ud ks kc r pend cq :
  ring_rep ks kc r pend cq →
  ∃ pend', advance r pend cq (if (queue o ud r).1 then [mkSqe o ud] else []) [] (queue o ud r).2 pend' cq.
Proof.
  intros Hr. pose proof Hr as [Hk [Hm1 Hm2] He Hsq [Ha1 Ha2] [Hh Ht] [Hp1 Hp2] Hcq [Hch Hct]].
  pose proof (pow32 ks ltac:(lia)) as H2. destruct Hsq as (W1 & W2 & W3). pose proof (len_nonneg pend).
  unfold queue. rewrite Ht, index_distance by lia. destruct (Z.leb_spec (entries_ r) (len pend)) as [Hf|Hf].
  { exists pend. by eapply advance_refl. }
  exists (pend ++ [mkSqe o ud]). cbn [fst snd]. rewrite Hm1, Z.land_ones, slot_u32 by lia. split.
  - exists ks, kc. split; cbn [sq_mask_ cq_mask_ entries_ sqes_ sq_head_ sq_tail_ sq_tail_pub_ sq_array_ cqes cq_head_ cq_tail_];
      try done.
    + apply window_push; [lia|done|lia].
    + split; [unfold len; by rewrite length_insert|]. intros i Hi. rewrite len_app in Hi. unfold len in Hi at 2. simpl in Hi.
      pose proof (Z.mod_pos_bound (sq_head_ r + i) (2 ^ ks) ltac:(lia)).
      pose proof (Z.mod_pos_bound (sq_head_ r + len pend) (2 ^ ks) ltac:(lia)).
      destruct (Z.eq_dec ((sq_head_ r + i) mod 2 ^ ks) ((sq_head_ r + len pend) mod 2 ^ ks)) as [E|E].
      * rewrite E. apply list_lookup_insert_eq. unfold len in *. lia.
      * rewrite list_lookup_insert_ne by lia. apply Ha2. destruct (Z.eq_dec i (len pend)) as [->|]; [done|]. lia.
    + split; [done|]. rewrite len_app. unfold u32. rewrite Z.add_mod_idemp_l by lia. f_equal. unfold len. simpl. lia.
    + split; [done|]. rewrite len_app. pose proof (len_nonneg [mkSqe o ud]). lia.
  - exists []. split_and!; [done|by rewrite app_nil_r|]. change (user_data <$> []) with (@nil Z). by rewrite app_nil_r.
Qed.

Lemma take_head_rep ks kc r e pend cq :
  ring_rep ks kc r (e :: pend) cq → u32 (sq_tail_pub_ r - sq_head_ r) ≠ 0 →
  head_sqe r = Some e ∧ ring_rep ks kc (take_head e r) pend cq.
Proof.
  intros [Hk [Hm1 Hm2] He Hsq [Ha1 Ha2] [Hh Ht] [Hp1 Hp2] Hcq [Hch Hct]] Hne. pose proof (len_nonneg pend).
  pose proof (pow32 ks ltac:(lia)) as H2. rewrite len_cons in *.
  assert (0 ≤ u32 (sq_tail_pub_ r - sq_head_ r)) by (apply Z.mod_pos_bound; lia).
  destruct (window_pop _ _ _ _ _ Hsq) as [Hs1 Hs2]. split.
  - unfold head_sqe. rewrite Hm1, Z.land_ones by lia. specialize (Ha2 0 ltac:(lia)). rewrite Z.add_0_r in Ha2.
    rewrite Ha2. cbn [mbind option_bind]. by rewrite Hs1.
  - assert (∀ i, (u32 (sq_head_ r + 1) + i) mod 2 ^ ks = (sq_head_ r + (1 + i)) mod 2 ^ ks) as Hslot.
    { intros i. rewrite <- Z.add_mod_idemp_l, slot_u32, Z.add_mod_idemp_l by lia. f_equal. lia. }
    split; cbn [take_head sq_mask_ cq_mask_ entries_ sqes_ sq_head_ sq_tail_ sq_tail_pub_ sq_array_ cqes cq_head_ cq_tail_];
      try done.
    + apply window_shift; [lia|done].
    + split; [done|]. intros i Hi. rewrite Hslot. apply Ha2. lia.
    + split; [apply Z.mod_pos_bound; lia|]. rewrite Ht. unfold u32. rewrite Z.add_mod_idemp_l by lia. f_equal. lia.
    + split; [done|]. unfold u32 in *. rewrite Zminus_mod_idemp_r.
      replace (sq_tail_pub_ r - (sq_head_ r + 1)) with ((sq_tail_pub_ r - sq_head_ r) - 1) by lia.
      rewrite <- Zminus_mod_idemp_l, Z.mod_small; [lia|].
      pose proof (Z.mod_pos_bound (sq_tail_pub_ r - sq_head_ r) (2 ^ 32) ltac:(lia)). lia.
Qed.

Lemma consume_advance n ks kc r pend cq :
  ring_rep ks kc r pend cq → ∃ pend', ring_rep ks kc (consume n r) pend' cq ∧ advance r pend cq [] [] (consume n r) pend' cq.
Proof.
  revert r pend. induction n as [|n IH]; intros r pend Hr; cbn [consume].
  { exists pend. split; [done|]. by eapply advance_refl. }
  destruct (Z.eqb_spec (u32 (sq_tail_pub_ r - sq_head_ r)) 0) as [|Hne]; [exists pend; split; [done|by eapply advance_refl]|].
  destruct pend as [|e pend].
  { destruct (rr_pub _ _ _ _ _ Hr) as [_ Hp]. unfold len in Hp. simpl in Hp.
    pose proof (Z.mod_pos_bound (sq_tail_pub_ r - sq_head_ r) (2 ^ 32) ltac:(lia)). unfold u32 in *. lia. }
  destruct (take_head_rep _ _ _ _ _ _ Hr Hne) as [-> Hr1]. destruct (IH _ _ Hr1) as (pend' & Hr' & Hadv).
  exists pend'. split; [done|]. apply (advance_trans _ _ _ [] [] _ _ _ [] [] _ _ _) with (2 := Hadv).
  split; [by eexists _, _|]. exists [e]. rewrite app_nil_r. split_and!; [done|done|].
  unfold tokens. cbn [take_head inflight]. rewrite fmap_app. simpl. by rewrite app_assoc.
Qed.

Lemma complete_advance i result ks kc r pend cq :
  ring_rep ks kc r pend cq →
  ∃ cq', ring_rep ks kc (complete i result r) pend cq' ∧ advance r pend cq [] [] (complete i result r) pend cq'.
Proof.
  intros Hr. pose proof Hr as [Hk [Hm1 Hm2] He Hsq Ha Hh Hp Hcq [Hch Hct]].
  pose proof (pow32 kc ltac:(lia)) as H2. pose proof (len_nonneg cq). destruct Hcq as (W1 & W2 & W3).
  unfold complete. rewrite Hct, index_distance by lia. rewrite Hm2.
  destruct (Z.leb_spec (len cq) (Z.ones kc)) as [Hl|Hl]; [|exists cq; split; [done|by eapply advance_refl]].
  destruct (inflight r !! i) as [e|] eqn:Ei; [|exists cq; split; [done|by eapply advance_refl]].
  rewrite Z.ones_equiv in Hl. exists (cq ++ [mkCqe (user_data e) result]).
  assert (ring_rep ks kc
    (mkRing (entries_ r) (outstanding_ r) (sq_tail_ r) (queued_ r) (sqes_ r) (sq_array_ r) (sq_mask_ r)
       (sq_head_ r) (sq_tail_pub_ r)
       (<[Z.to_nat (Z.land (u32 (cq_head_ r + len cq)) (Z.ones kc)) := Some (mkCqe (user_data e) result)]> (cqes r))
       (Z.ones kc) (cq_head_ r) (u32 (u32 (cq_head_ r + len cq) + 1)) (delete i (inflight r)) (accepted r))
    pend (cq ++ [mkCqe (user_data e) result])) as Hr'.
  { split; cbn [sq_mask_ cq_mask_ entries_ sqes_ sq_head_ sq_tail_ sq_tail_pub_ sq_array_ cqes cq_head_ cq_tail_]; try done.
    - rewrite Z.land_ones, slot_u32 by lia. apply window_push; [lia|done|lia].
    - split; [done|]. rewrite len_app. unfold u32. rewrite Z.add_mod_idemp_l by lia. f_equal. unfold len. simpl. lia. }
  split; [done|]. split; [by eexists _, _|]. exists []. cbn [accepted]. split_and!; [by rewrite app_nil_r..|].
  unfold tokens. cbn [inflight]. rewrite fmap_app. simpl. rewrite app_nil_r, <- app_assoc. apply Permutation_app_head. simpl.
  rewrite (delete_Permutation (inflight r) i e Ei) at 1. done.
Qed.

Lemma run_completions_advance cs ks kc r pend cq :
  ring_rep ks kc r pend cq →
  ∃ cq', ring_rep ks kc (run_completions cs r) pend cq' ∧ advance r pend cq [] [] (run_completions cs r) pend cq'.
Proof.
  unfold run_completions. revert r cq. induction cs as [|[i z] cs IH]; intros r cq Hr; cbn [foldl].
  { exists cq. split; [done|]. by eapply advance_refl. }
  destruct (complete_advance i z _ _ _ _ _ Hr) as (cq1 & Hr1 & A1). destruct (IH _ _ Hr1) as (cq2 & Hr2 & A2).
  exists cq2. split; [done|]. by apply (advance_trans _ _ _ [] [] _ _ _ [] [] _ _ _ A1).
Qed.

Lemma enter_loop_advance outcomes n ks kc r pend cq :
  ring_rep ks kc r pend cq →
  ∃ pend' cq', ring_rep ks kc (enter_loop outcomes n r).2 pend' cq' ∧
    advance r pend cq [] [] (enter_loop outcomes n r).2 pend' cq'.
Proof.
  revert r pend cq. induction outcomes as [|o outcomes IH]; intros r pend cq Hr; cbn [enter_loop].
  { destruct (consume_advance (Z.to_nat n) _ _ _ _ _ Hr) as (pend' & H1 & H2). by exists pend', cq. }
  destruct (consume_advance (Nat.min (consumed o) (Z.to_nat n)) _ _ _ _ _ Hr) as (p1 & Hr1 & A1).
  destruct (run_completions_advance (completions o) _ _ _ _ _ Hr1) as (c2 & Hr2 & A2).
  pose proof (advance_trans _ _ _ [] [] _ _ _ [] [] _ _ _ A1 A2) as A12.
  destruct (rc o) as [z|[e|]]; [by exists p1, c2|by exists p1, c2|].
  destruct (IH _ _ _ Hr2) as (p3 & c3 & Hr3 & A3). exists p3, c3. split; [done|].
  by apply (advance_trans _ _ _ [] [] _ _ _ [] [] _ _ _ A12).
Qed.

(** A ring that differs only in its counters represents the same queues. *)
Lemma rep_counters ks kc r pend cq outstanding queued pub :
  ring_rep ks kc r pend cq → 0 ≤ pub < 2 ^ 32 → u32 (pub - sq_head_ r) ≤ len pend →
  let r' := mkRing (entries_ r) outstanding (sq_tail_ r) queued (sqes_ r) (sq_array_ r) (sq_mask_ r) (sq_head_ r) pub
              (cqes r) (cq_mask_ r) (cq_head_ r) (cq_tail_ r) (inflight r) (accepted r) in
  ring_rep ks kc r' pend cq ∧ advance r pend cq [] [] r' pend cq.
Proof.
  intros [Hk Hm He Hsq Ha Hh Hp Hcq Hch] H1 H2 r'. assert (ring_rep ks kc r' pend cq) as Hr' by (split; done).
  split; [done|]. split; [by eexists _, _|]. exists []. split_and!; [by rewrite app_nil_r..|].
  change (user_data <$> []) with (@nil Z). by rewrite app_nil_r.
Qed.

Lemma Flush_advance outcomes w ks kc r pend cq :
  ring_rep ks kc r pend cq →
  ∃ pend' cq', ring_rep ks kc (Flush outcomes w r).2 pend' cq' ∧ advance r pend cq [] [] (Flush outcomes w r).2 pend' cq'.
Proof.
  intros Hr. unfold Flush. destruct (_ && _); [exists pend, cq; split; [done|by eapply advance_refl]|].
  set (r1 := if 0 <? queued_ r then _ else _).
  assert (ring_rep ks kc r1 pend cq ∧ advance r pend cq [] [] r1 pend cq) as [Hr1 A1].
  { unfold r1. destruct (0 <? queued_ r); [|split; [done|by eapply advance_refl]].
    pose proof Hr as [Hk Hm He Hsq Ha [Hh Ht] Hp Hcq Hch].
    pose proof (pow32 ks ltac:(lia)). destruct Hsq as (_ & Hw & _). pose proof (len_nonneg pend).
    apply (rep_counters _ _ r pend cq (outstanding_ r) (queued_ r) (sq_tail_ r) Hr).
    - rewrite Ht. apply Z.mod_pos_bound. lia.
    - rewrite Ht, index_distance by lia. lia. }
  clearbody r1. destruct (enter_loop_advance outcomes (queued_ r) _ _ _ _ _ Hr1) as (p2 & c2 & Hr2 & A2).
  destruct (enter_loop outcomes (queued_ r) r1) as [okay r2]. cbn [fst snd] in *.
  pose proof (advance_trans _ _ _ [] [] _ _ _ [] [] _ _ _ A1 A2) as A12.
  destruct okay; [|by exists p2, c2]. cbn [snd].
  destruct (rep_counters _ _ r2 p2 c2 (u64 (outstanding_ r2 + queued_ r)) 0 (sq_tail_pub_ r2) Hr2) as [Hr3 A3].
  { apply (rr_pub _ _ _ _ _ Hr2). } { apply (rr_pub _ _ _ _ _ Hr2). }
  exists p2, c2. split; [exact Hr3|]. by apply (advance_trans _ _ _ [] [] _ _ _ [] [] _ _ _ A12).
Qed.

Lemma reap_loop_advance fuel ks kc r pend cq acc :
  ring_rep ks kc r pend cq → len cq < Z.of_nat fuel →
  ∃ r', reap_loop fuel r acc = Some (acc ++ cq, r') ∧ ring_rep ks kc r' pend [] ∧ advance r pend cq [] cq r' pend [].
Proof.
  revert r cq acc. induction fuel as [|fuel IH]; intros r cq acc Hr Hf; [pose proof (len_nonneg cq); lia|].
  pose proof Hr as [Hk [Hm1 Hm2] He Hsq Ha Hh Hp Hcq [Hch Hct]]. pose proof (pow32 kc ltac:(lia)) as H2.
  cbn [reap_loop]. destruct cq as [|c cq].
  - unfold len in Hct. simpl in Hct. rewrite Z.add_0_r in Hct. unfold u32 in Hct. rewrite Z.mod_small in Hct by lia.
    rewrite Hct, Z.eqb_refl, app_nil_r. exists r. split_and!; [done|done|by eapply advance_refl].
  - pose proof (len_nonneg cq). destruct (window_pop _ _ _ _ _ Hcq) as [Hc1 Hc2].
    destruct Hcq as (_ & Hle & _). rewrite len_cons in *.
    assert (cq_head_ r ≠ cq_tail_ r) as Hne.
    { intros E. pose proof (index_distance (cq_head_ r) (1 + len cq) ltac:(lia) ltac:(lia)) as Hd.
      rewrite <- Hct, <- E, Z.sub_diag in Hd. unfold u32 in Hd. rewrite Z.mod_0_l in Hd by lia. lia. }
    rewrite (proj2 (Z.eqb_neq _ _)) by done. rewrite Hm2, Z.land_ones, Hc1 by lia. cbn [mjoin option_join mbind option_bind].
    assert (ring_rep ks kc (pop_cqe r) pend cq) as Hr1.
    { split; cbn [pop_cqe sq_mask_ cq_mask_ entries_ sqes_ sq_head_ sq_tail_ sq_tail_pub_ sq_array_ cqes cq_head_ cq_tail_]; try done.
      - apply window_shift; [lia|done].
      - split; [apply Z.mod_pos_bound; lia|]. rewrite Hct. unfold u32. rewrite Z.add_mod_idemp_l by lia. f_equal. lia. }
    destruct (IH (pop_cqe r) cq (acc ++ [c]) Hr1 ltac:(lia)) as (r' & -> & Hr' & A). exists r'.
    split_and!; [by rewrite <- app_assoc|done|]. apply (advance_trans _ _ _ [] [c] _ _ _ [] cq _ _ _) with (2 := A).
    split; [by eexists _, _|]. exists []. split_and!; [by rewrite app_nil_r..|].
    change (user_data <$> []) with (@nil Z). by rewrite app_nil_r.
Qed.

Lemma Reap_advance o1 o2 arrived w ks kc r pend cq :
  ring_rep ks kc r pend cq →
  ∃ b got r' pend' cq', Reap o1 o2 arrived w r = Some (b, got, r') ∧ ring_rep ks kc r' pend' cq' ∧
    advance r pend cq [] got r' pend' cq'.
Proof.
  intros Hr. unfold Reap.
  assert (∃ p1 c1 b r1, (if w && ((0 <? outstanding_ r) || (0 <? queued_ r)) then Flush o1 false r else (true, r)) = (b, r1) ∧
    ring_rep ks kc r1 p1 c1 ∧ advance r pend cq [] [] r1 p1 c1) as (p1 & c1 & b & r1 & -> & Hr1 & A1).
  { destruct (_ && _); [|exists pend, cq; eexists _, _; split_and!; [done|done|by eapply advance_refl]].
    destruct (Flush_advance o1 false _ _ _ _ _ Hr) as (p1 & c1 & H1 & H2). exists p1, c1.
    destruct (Flush o1 false r). by eexists _, _. }
  destruct b; cbn [negb]; [|by eexists _, _, _, _, _].
  assert (∃ p2 c2 b r2, (if w && (0 <? outstanding_ r1) then enter_loop o2 0 r1 else (true, r1)) = (b, r2) ∧
    ring_rep ks kc r2 p2 c2 ∧ advance r pend cq [] [] r2 p2 c2) as (p2 & c2 & b & r2 & -> & Hr2 & A2).
  { destruct (_ && _); [|by exists p1, c1; eexists _, _].
    destruct (enter_loop_advance o2 0 _ _ _ _ _ Hr1) as (p2 & c2 & H1 & H2). exists p2, c2.
    pose proof (advance_trans _ _ _ [] [] _ _ _ [] [] _ _ _ A1 H2). destruct (enter_loop o2 0 r1). by eexists _, _. }
  destruct b; cbn [negb]; [|by eexists _, _, _, _, _].
  destruct (run_completions_advance arrived _ _ _ _ _ Hr2) as (c3 & Hr3 & A3).
  pose proof (advance_trans _ _ _ [] [] _ _ _ [] [] _ _ _ A2 A3) as A23.
  set (r3 := run_completions arrived r2) in *. pose proof Hr3 as [Hk _ _ _ _ _ _ (_ & Hw & _) [Hch Hct]].
  pose proof (pow32 kc ltac:(lia)). pose proof (len_nonneg c3).
  destruct (reap_loop_advance (S (Z.to_nat (u32 (cq_tail_ r3 - cq_head_ r3)))) _ _ _ _ _ [] Hr3) as (r4 & -> & Hr4 & A4).
  { rewrite Hct, index_distance by lia. lia. }
  cbn [mbind option_bind app]. eexists _, _, _, _, _. split_and!; [done|done|].
  by apply (advance_trans _ _ _ [] [] _ _ _ [] c3 _ _ _ A23).
Qed.

Lemma run_advance ops ks kc r pend cq :
  ring_rep ks kc r pend cq →
  ∃ qs cs r' pend' cq', run r ops = Some (qs, cs, r') ∧ advance r pend cq qs cs r' pend' cq'.
Proof.
  revert ks kc r pend cq. induction ops as [|[o ud|oc w|o1 o2 ar w] ops IH]; intros ks kc r pend cq Hr; cbn [run].
  - eexists _, _, _, _, _. split; [done|]. by eapply advance_refl.
  - destruct (queue_advance o ud _ _ _ _ _ Hr) as (p1 & A1). pose proof A1 as [(ks' & kc' & Hr1) _].
    destruct (queue o ud r) as [b r1]. cbn [fst snd] in *.
    destruct (IH _ _ _ _ _ Hr1) as (qs & cs & r2 & p2 & c2 & -> & A2). cbn [mbind option_bind].
    eexists _, _, _, _, _. split; [done|]. pose proof (advance_trans _ _ _ _ _ _ _ _ _ _ _ _ _ A1 A2) as A.
    by destruct b.
  - destruct (Flush_advance oc w _ _ _ _ _ Hr) as (p1 & c1 & Hr1 & A1).
    destruct (IH _ _ _ _ _ Hr1) as (qs & cs & r2 & p2 & c2 & -> & A2). eexists _, _, _, _, _. split; [done|].
    by apply (advance_trans _ _ _ [] [] _ _ _ _ _ _ _ _ A1).
  - destruct (Reap_advance o1 o2 ar w _ _ _ _ _ Hr) as (b & got & r1 & p1 & c1 & -> & Hr1 & A1). cbn [mbind option_bind].
    destruct (IH _ _ _ _ _ Hr1) as (qs & cs & r2 & p2 & c2 & -> & A2). cbn [mbind option_bind].
    eexists _, _, _, _, _. split; [done|]. by apply (advance_trans _ _ _ [] got _ _ _ _ _ _ _ _ A1).
Qed.

(** *** For clients that only need the operations to be defined *)

Definition ring_wf (r : Ring) : Prop := ∃ ks kc pend cq, ring_rep ks kc r pend cq.

Lemma queue_wf o ud r : ring_wf r → ring_wf (queue o ud r).2.
Proof.
  intros (ks & kc & pend & cq & Hr). destruct (queue_advance o ud _ _ _ _ _ Hr) as (p & [(ks' & kc' & H) _]).
  by exists ks', kc', p, cq.
Qed.

Lemma Flush_wf outcomes w r : ring_wf r → ring_wf (Flush outcomes w r).2.
Proof.
  intros (ks & kc & pend & cq & Hr). destruct (Flush_advance outcomes w _ _ _ _ _ Hr) as (p & c & H & _).
  by exists ks, kc, p, c.
Qed.

Lemma Reap_wf o1 o2 arrived w r :
  ring_wf r → ∃ b got r', Reap o1 o2 arrived w r = Some (b, got, r') ∧ ring_wf r'.
Proof.
  intros (ks & kc & pend & cq & Hr).
  destruct (Reap_advance o1 o2 arrived w _ _ _ _ _ Hr) as (b & got & r' & p & c & E & H & _).
  exists b, got, r'. split; [done|]. by exists ks, kc, p, c.
Qed.

Lemma new_Ring_rep entries ks kc :
  0 ≤ ks < 32 → 0 ≤ kc < 32 → entries ≤ 2 ^ ks → ring_rep ks kc (new_Ring entries (2 ^ ks) (2 ^ kc)) [] [].
Proof.
  intros Hks Hkc He. pose proof (pow32 ks Hks). pose proof (pow32 kc Hkc).
  split; cbn [new_Ring sq_mask_ cq_mask_ entries_ sqes_ sq_head_ sq_tail_ sq_tail_pub_ sq_array_ cqes cq_head_ cq_tail_];
    try done.
  - rewrite !Z.ones_equiv. split; lia.
  - split_and!; [unfold len; rewrite length_replicate; lia|unfold len; simpl; lia|done].
  - split; [unfold len; rewrite length_replicate; lia|]. unfold len. simpl. lia.
  - split_and!; [unfold len; rewrite length_replicate; lia|unfold len; simpl; lia|done].
Qed.



End ring.
