(* ===== verification/Resp.v ===== *)
(** * RESP2: the request parser and the reply encoders

    Models include/bedrockkv/resp.h and src/resp.cpp.  [Next]'s loop runs with
    fuel; running out of it, and constructing a string from a position outside
    the buffer, are [None]. *)

From S2P Require Import Prelude Status.

Module resp.

Definition kMaxMultibulk : Z := 1024 * 1024.
Definition kMaxInlineLine : Z := 64 * 1024.
Definition kMaxBulkLen : Z := 512 * 2 ^ 20.

(** The status with what is assigned along with it. *)
Inductive NextStatus :=
  | kRequest (args : list bytes)
  | kNeedMore
  | kError (error : bytes).

Definition cr : byte := Init.Byte.x0d.
Definition lf : byte := Init.Byte.x0a.
Definition crlf : bytes := [cr; lf].

(** [None]: not a decimal number, or one that does not fit a [long long]. *)
Definition ParseDigits (s : bytes) : option Z :=
  if bool_decide (s = []) || negb (forallb is_digit s) then None
  else let v := decimal_value 0 s in if v <? 2 ^ 63 then Some v else None.

(** [s.find(sub, pos)] for the terminator, as a distance from [pos]. *)
Fixpoint find_crlf (s : bytes) : option Z :=
  match s with
  | c :: (d :: _) as tl =>
      if bool_decide (c = cr) && bool_decide (d = lf) then Some 0 else Z.succ <$> find_crlf tl
  | _ => None
  end.

Fixpoint find_char (c : byte) (s : bytes) : option Z :=
  match s with
  | [] => None
  | d :: s => if bool_decide (d = c) then Some 0 else Z.succ <$> find_char c s
  end.

(** The number of leading bytes that satisfy [f]: the [while] loops that
    advance a position over them. *)
Fixpoint run_length (f : byte → bool) (s : bytes) : Z :=
  match s with
  | c :: s => if f c then 1 + run_length f s else 0
  | [] => 0
  end.

Record Parser := mkParser {
  buf_ : bytes;
  multibulk_ : Z;
  parse_pos_ : Z;
  arg_spans_ : list (Z * Z)
}.

Definition new_Parser : Parser := mkParser [] (-1) 0 [].

Definition Feed (bs : bytes) (p : Parser) : Parser :=
  mkParser (buf_ p ++ bs) (multibulk_ p) (parse_pos_ p) (arg_spans_ p).

Definition pending (p : Parser) : Z := len (buf_ p).

Definition Reset (p : Parser) : Parser := new_Parser.

Definition is_blank (c : byte) : bool := bool_decide (c = Init.Byte.x20) || bool_decide (c = Init.Byte.x09).
Definition is_newline (c : byte) : bool := bool_decide (c = cr) || bool_decide (c = lf).

(** The token loop of [NextInline] over the line [buf_[0 .. end)]. *)
Fixpoint inline_args (fuel : nat) (line : bytes) (i : Z) (args : list bytes) : option (list bytes) :=
  match fuel with
  | O => None
  | S fuel =>
      if i <? len line then
        let start := i + run_length is_blank (at_off i line) in
        let i := start + run_length (λ c, negb (is_blank c)) (at_off start line) in
        inline_args fuel line i (if start <? i then args ++ [slice start (i - start) line] else args)
      else Some args
  end.

Definition NextInline (p : Parser) : option (NextStatus * Parser) :=
  match find_char lf (buf_ p) with
  | None =>
      if kMaxInlineLine <? len (buf_ p)
      then Some (kError (lit "Protocol error: too big inline request"), p)
      else Some (kNeedMore, p)
  | Some nl =>
      let e := if (0 <? nl) && bool_decide (at_ix (buf_ p) (nl - 1) = Some cr) then nl - 1 else nl in
      args ← inline_args (S (length (buf_ p))) (slice 0 e (buf_ p)) 0 [];
      let p := mkParser (at_off (nl + 1) (buf_ p)) (multibulk_ p) 0 (arg_spans_ p) in
      Some (if bool_decide (args = []) then kNeedMore else kRequest args, p)
  end.

(** [args->emplace_back(buf_, off, n)] for every span; the constructor throws
    for a position outside the string. *)
Definition materialize (buf : bytes) (spans : list (Z * Z)) : option (list bytes) :=
  mapM (λ s, if len buf <? s.1 then None else Some (slice s.1 s.2 buf)) spans.

Fixpoint next_loop (fuel : nat) (p : Parser) : option (NextStatus * Parser) :=
  match fuel with
  | O => None
  | S fuel =>
      if multibulk_ p <? 0 then
        let pos := parse_pos_ p + run_length is_newline (at_off (parse_pos_ p) (buf_ p)) in
        let p := if 0 <? pos then mkParser (at_off pos (buf_ p)) (multibulk_ p) 0 (arg_spans_ p)
                 else mkParser (buf_ p) (multibulk_ p) pos (arg_spans_ p) in
        match buf_ p with
        | [] => Some (kNeedMore, p)
        | c :: rest =>
            if bool_decide (c = Init.Byte.x2a) then
              match find_crlf rest with
              | None =>
                  if 32 <? len (buf_ p)
                  then Some (kError (lit "Protocol error: too big multibulk length"), p)
                  else Some (kNeedMore, p)
              | Some d =>
                  let nl := 1 + d in
                  match ParseDigits (slice 1 (nl - 1) (buf_ p)) with
                  | None => Some (kError (lit "Protocol error: invalid multibulk length"), p)
                  | Some n =>
                      if kMaxMultibulk <? n
                      then Some (kError (lit "Protocol error: invalid multibulk length"), p)
                      else if n <=? 0
                      then next_loop fuel (mkParser (at_off (nl + 2) (buf_ p)) (multibulk_ p) 0 (arg_spans_ p))
                      else next_loop fuel (mkParser (buf_ p) n (nl + 2) [])
                  end
              end
            else NextInline p
        end
      else if len (buf_ p) <=? parse_pos_ p then Some (kNeedMore, p)
      else
        c ← at_ix (buf_ p) (parse_pos_ p);
        if negb (bool_decide (c = Init.Byte.x24))
        then Some (kError (lit "Protocol error: expected '$', got '" ++ [c] ++ lit "'"), p)
        else
          match find_crlf (at_off (parse_pos_ p + 1) (buf_ p)) with
          | None =>
              if 32 <? len (buf_ p) - parse_pos_ p
              then Some (kError (lit "Protocol error: invalid bulk length"), p)
              else Some (kNeedMore, p)
          | Some d =>
              let nl := parse_pos_ p + 1 + d in
              match ParseDigits (slice (parse_pos_ p + 1) (nl - parse_pos_ p - 1) (buf_ p)) with
              | None => Some (kError (lit "Protocol error: invalid bulk length"), p)
              | Some n =>
                  if (n <? 0) || (kMaxBulkLen <? n)
                  then Some (kError (lit "Protocol error: invalid bulk length"), p)
                  else
                    let data_pos := nl + 2 in
                    if len (buf_ p) <? data_pos + n + 2 then Some (kNeedMore, p)
                    else
                      c1 ← at_ix (buf_ p) (data_pos + n);
                      c2 ← at_ix (buf_ p) (data_pos + n + 1);
                      if negb (bool_decide (c1 = cr)) || negb (bool_decide (c2 = lf))
                      then Some (kError (lit "Protocol error: bulk string missing terminator"), p)
                      else
                        let spans := arg_spans_ p ++ [(data_pos, n)] in
                        let pos := data_pos + n + 2 in
                        if multibulk_ p - 1 =? 0 then
                          args ← materialize (buf_ p) spans;
                          Some (kRequest args, mkParser (at_off pos (buf_ p)) (-1) 0 [])
                        else next_loop fuel (mkParser (buf_ p) (multibulk_ p - 1) pos spans)
              end
          end
  end.

(** Every iteration consumes bytes of the buffer. *)
Definition Next (p : Parser) : option (NextStatus * Parser) := next_loop (S (length (buf_ p))) p.

(** ** Reply encoders *)

Definition SimpleString (s : bytes) : bytes := lit "+" ++ s ++ crlf.

Definition Error (msg : bytes) : bytes :=
  lit "-" ++ ((λ c, if is_newline c then Init.Byte.x20 else c) <$> msg) ++ crlf.

Definition to_string_signed (n : Z) : bytes := if n <? 0 then lit "-" ++ to_string (- n) else to_string n.

Definition Integer (n : Z) : bytes := lit ":" ++ to_string_signed n ++ crlf.

Definition BulkString (s : bytes) : bytes := lit "$" ++ to_string (len s) ++ crlf ++ s ++ crlf.

Definition NullBulk : bytes := lit "$-1" ++ crlf.

Definition ArrayHeader (n : Z) : bytes := lit "*" ++ to_string n ++ crlf.

(** ** A connection's requests

    What the server does with every chunk it reads: feed it, then take requests
    until the parser asks for more or fails. *)

Fixpoint drain (fuel : nat) (p : Parser) : option (list (list bytes) * option bytes * Parser) :=
  match fuel with
  | O => None
  | S fuel =>
      '(st, p) ← Next p;
      match st with
      | kNeedMore => Some ([], None, p)
      | kError e => Some ([], Some e, p)
      | kRequest args => '(reqs, e, p) ← drain fuel p; Some (args :: reqs, e, p)
      end
  end.

Fixpoint session (p : Parser) (chunks : list bytes) : option (list (list bytes) * option bytes * Parser) :=
  match chunks with
  | [] => Some ([], None, p)
  | c :: chunks =>
      '(reqs, e, p) ← drain (S (length (buf_ (Feed c p)))) (Feed c p);
      match e with
      | Some e => Some (reqs, Some e, p)
      | None => '(reqs', e, p) ← session p chunks; Some (reqs ++ reqs', e, p)
      end
  end.

(** A request as clients send it. *)
Definition encode_request (args : list bytes) : bytes :=
  ArrayHeader (len args) ++ concat (BulkString <$> args).

(** ** The parser is total *)

Lemma find_crlf_cons2 c d s :
  find_crlf (c :: d :: s)
  = if bool_decide (c = cr) && bool_decide (d = lf) then Some 0 else Z.succ <$> find_crlf (d :: s).
Proof. reflexivity. Qed.

Lemma find_crlf_range s d : find_crlf s = Some d → 0 ≤ d ∧ d + 2 ≤ len s.
Proof.
  revert d. induction s as [|c s IH]; intros d; [done|]. destruct s as [|c' s]; [done|]. rewrite find_crlf_cons2.
  rewrite !len_cons in *. pose proof (len_nonneg s). destruct (_ && _).
  - intros [= <-]. lia.
  - intros (d' & Hd & ->)%fmap_Some. apply IH in Hd. lia.
Qed.

Lemma find_char_range c s d : find_char c s = Some d → 0 ≤ d < len s.
Proof.
  revert d. induction s as [|x s IH]; intros d; [done|]. cbn [find_char]. rewrite len_cons.
  pose proof (len_nonneg s). case_bool_decide.
  - intros [= <-]. lia.
  - intros (d' & Hd & ->)%fmap_Some. apply IH in Hd. lia.
Qed.

Lemma run_length_range f s : 0 ≤ run_length f s ≤ len s.
Proof.
  induction s as [|c s IH]; [unfold len; simpl; lia|]. simpl. rewrite len_cons. destruct (f c); lia.
Qed.

Lemma run_length_split f s : 0 < len s → 0 < run_length f s ∨ 0 < run_length (λ c, negb (f c)) s.
Proof.
  destruct s as [|c s]; [done|]. intros _. simpl.
  pose proof (run_length_range f s). pose proof (run_length_range (λ c, negb (f c)) s).
  destruct (f c); simpl; lia.
Qed.

Lemma inline_args_total fuel line i args :
  0 ≤ i ≤ len line → len line - i < Z.of_nat fuel → ∃ r, inline_args fuel line i args = Some r.
Proof.
  revert i args. induction fuel as [|fuel IH]; intros i args Hi Hf; [lia|]. cbn [inline_args].
  destruct (Z.ltb_spec i (len line)) as [Hlt|]; [|by eexists].
  pose proof (run_length_range is_blank (at_off i line)) as H1.
  set (start := i + _) in *. rewrite len_at_off in H1 by lia.
  pose proof (run_length_range (λ c, negb (is_blank c)) (at_off start line)) as H2.
  rewrite len_at_off in H2 by lia. apply IH; [lia|].
  destruct (run_length_split is_blank (at_off i line)) as [H|H]; [rewrite len_at_off; lia|lia|].
  destruct (Z.eq_dec start i) as [E|]; [|lia]. rewrite E in *. lia.
Qed.

Record valid (p : Parser) : Prop := {
  va_pos : 0 ≤ parse_pos_ p ≤ len (buf_ p);
  va_spans : Forall (λ s, s.1 ≤ len (buf_ p)) (arg_spans_ p) ∨ multibulk_ p < 0
}.

Lemma materialize_total buf spans :
  Forall (λ s : Z * Z, s.1 ≤ len buf) spans → ∃ args, materialize buf spans = Some args.
Proof.
  induction 1 as [|s l Hs _ [args IH]]; [by eexists|]. unfold materialize in *. simpl.
  rewrite (proj2 (Z.ltb_ge _ _)) by lia. simpl. rewrite IH. by eexists.
Qed.

(** What one call returns, and that it leaves the buffer no longer; a request
    consumes bytes. *)
Definition next_ok (p : Parser) (r : option (NextStatus * Parser)) : Prop :=
  ∃ st p', r = Some (st, p') ∧ valid p' ∧ len (buf_ p') ≤ len (buf_ p) ∧
           (∀ args, st = kRequest args → len (buf_ p') < len (buf_ p)).

Lemma next_ok_more p p' : valid p' → len (buf_ p') ≤ len (buf_ p) → next_ok p (Some (kNeedMore, p')).
Proof. intros Hv Hl. by exists kNeedMore, p'. Qed.

Lemma next_ok_error p p' e : valid p' → len (buf_ p') ≤ len (buf_ p) → next_ok p (Some (kError e, p')).
Proof. intros Hv Hl. by exists (kError e), p'. Qed.

Lemma next_ok_shrinks p p' st : valid p' → len (buf_ p') < len (buf_ p) → next_ok p (Some (st, p')).
Proof. intros Hv Hl. exists st, p'. split_and!; (done || lia). Qed.

Lemma next_ok_trans p q r : next_ok q r → len (buf_ q) ≤ len (buf_ p) → next_ok p r.
Proof.
  intros (st & p' & -> & Hv & Hl & Hs) Hq. exists st, p'. split_and!; [done|done|lia|].
  intros args E. specialize (Hs args E). lia.
Qed.

#[local] Hint Resolve next_ok_more next_ok_error : bedrock.

Lemma NextInline_ok p : multibulk_ p < 0 → valid p → next_ok p (NextInline p).
Proof.
  intros Hm Hv. unfold NextInline. destruct (find_char lf (buf_ p)) as [nl|] eqn:E.
  - apply find_char_range in E. set (e := if _ && _ then _ else _).
    assert (0 ≤ e ≤ nl) as He by (subst e; destruct (Z.ltb_spec 0 nl); destruct (bool_decide _); simpl; lia).
    destruct (inline_args_total (S (length (buf_ p))) (slice 0 e (buf_ p)) 0 []) as [args ->].
    { pose proof (len_nonneg (slice 0 e (buf_ p))). lia. }
    { rewrite len_slice by lia. unfold len in *. lia. }
    cbn [mbind option_bind]. apply next_ok_shrinks; cbn [buf_]; [|rewrite len_at_off; lia].
    split; cbn [buf_ parse_pos_ multibulk_]; [|by right]. rewrite len_at_off by lia. lia.
  - destruct (_ <? _); bauto.
Qed.

Lemma next_loop_ok fuel p :
  valid p → len (buf_ p) - parse_pos_ p < Z.of_nat fuel → next_ok p (next_loop fuel p).
Proof.
  revert p. induction fuel as [|fuel IH]; intros p Hv Hf; [destruct Hv; lia|]. cbn [next_loop].
  pose proof (va_pos _ Hv) as Hpos. destruct (Z.ltb_spec (multibulk_ p) 0) as [Hm|Hm].
  - pose proof (run_length_range is_newline (at_off (parse_pos_ p) (buf_ p))) as Hr.
    set (pos := parse_pos_ p + _) in *. rewrite len_at_off in Hr by lia.
    set (q := if 0 <? pos then _ else _).
    assert (multibulk_ q = multibulk_ p ∧ parse_pos_ q = 0 ∧ len (buf_ q) = len (buf_ p) - pos ∧
            arg_spans_ q = arg_spans_ p) as (Hq1 & Hq2 & Hq3 & Hq4).
    { unfold q. destruct (Z.ltb_spec 0 pos); simpl; rewrite ?len_at_off by lia; split_and!; (done || lia). }
    clearbody q. assert (valid q) as Hvq by (split; [lia|right; lia]).
    assert (len (buf_ q) ≤ len (buf_ p)) as Hle by lia.
    destruct (buf_ q) as [|c rest] eqn:Eq; rewrite <- Eq in Hle, Hq3; [bauto|].
    assert (len (buf_ q) = 1 + len rest) as Hb by (by rewrite Eq, len_cons).
    case_bool_decide; [|apply (next_ok_trans p q); [apply NextInline_ok; [lia|done]|done]].
    destruct (find_crlf rest) as [d|] eqn:Ed; [|destruct (_ <? _); bauto].
    apply find_crlf_range in Ed.
    destruct (ParseDigits _) as [n|]; [|bauto].
    destruct (_ <? n); [bauto|].
    assert (len (at_off (1 + d + 2) (c :: rest)) = len (buf_ q) - (1 + d + 2)) as Ha
      by (rewrite len_at_off; rewrite len_cons; lia).
    destruct (Z.leb_spec n 0).
    + eapply next_ok_trans; [apply IH|]; cbn [buf_ parse_pos_ multibulk_ arg_spans_]; [|lia|lia].
      split; cbn [buf_ parse_pos_ multibulk_ arg_spans_]; [lia|right; lia].
    + eapply next_ok_trans; [apply IH|]; cbn [buf_ parse_pos_ multibulk_ arg_spans_]; rewrite ?len_cons; [|lia|lia].
      split; cbn [buf_ parse_pos_ multibulk_ arg_spans_]; [rewrite len_cons; lia|by left].
  - destruct (Z.leb_spec (len (buf_ p)) (parse_pos_ p)); [bauto|].
    destruct (at_ix_is_Some (buf_ p) (parse_pos_ p)) as [c ->]; [lia|]. cbn [mbind option_bind].
    destruct (negb _); [bauto|].
    destruct (find_crlf _) as [d|] eqn:Ed; [|destruct (_ <? _); bauto].
    apply find_crlf_range in Ed. rewrite len_at_off in Ed by lia.
    destruct (ParseDigits _) as [n|]; [|bauto].
    destruct (Z.ltb_spec n 0) as [|Hn]; cbn [orb]; [bauto|].
    destruct (kMaxBulkLen <? n); [bauto|]. cbv zeta.
    destruct (Z.ltb_spec (len (buf_ p)) (parse_pos_ p + 1 + d + 2 + n + 2)); [bauto|].
    destruct (at_ix_is_Some (buf_ p) (parse_pos_ p + 1 + d + 2 + n)) as [c1 ->]; [lia|].
    destruct (at_ix_is_Some (buf_ p) (parse_pos_ p + 1 + d + 2 + n + 1)) as [c2 ->]; [lia|].
    cbn [mbind option_bind]. destruct (_ || _); [bauto|].
    assert (Forall (λ s : Z * Z, s.1 ≤ len (buf_ p)) (arg_spans_ p ++ [(parse_pos_ p + 1 + d + 2, n)])) as Hs.
    { destruct (va_spans _ Hv) as [Hs|]; [|lia]. apply Forall_app. split; [done|].
      constructor; [simpl; lia|constructor]. }
    destruct (_ =? 0).
    + destruct (materialize_total _ _ Hs) as [args ->]. cbn [mbind option_bind].
      apply next_ok_shrinks; cbn [buf_]; [|rewrite len_at_off; lia].
      split; cbn [buf_ parse_pos_ multibulk_ arg_spans_]; [|by left]. rewrite len_at_off; lia.
    + eapply next_ok_trans; [apply IH|]; cbn [buf_ parse_pos_ multibulk_ arg_spans_]; [|lia|lia].
      split; cbn [buf_ parse_pos_ multibulk_ arg_spans_]; [lia|by left].
Qed.

Lemma Next_ok p : valid p → next_ok p (Next p).
Proof. intros Hv. apply next_loop_ok; [done|]. pose proof (va_pos _ Hv). unfold len in *. lia. Qed.

Lemma Feed_valid c p : valid p → valid (Feed c p).
Proof.
  intros [Hp Hs]. pose proof (len_nonneg c). split; cbn [Feed buf_ parse_pos_ arg_spans_ multibulk_].
  - rewrite len_app. lia.
  - destruct Hs as [Hs|Hs]; [left|by right]. eapply Forall_impl; [exact Hs|]. simpl. intros s Hs'.
    rewrite len_app. lia.
Qed.

Lemma drain_ok fuel p :
  valid p → len (buf_ p) < Z.of_nat fuel → ∃ reqs e p', drain fuel p = Some (reqs, e, p') ∧ valid p'.
Proof.
  revert p. induction fuel as [|fuel IH]; intros p Hv Hf; [pose proof (len_nonneg (buf_ p)); lia|].
  cbn [drain]. destruct (Next_ok p Hv) as (st & p' & -> & Hv' & Hl & Hs). cbn [mbind option_bind].
  destruct st as [args| |e]; [|by eexists _, _, _..]. specialize (Hs args eq_refl).
  destruct (IH p' Hv' ltac:(lia)) as (reqs & e & p2 & -> & Hv2). cbn [mbind option_bind]. by eexists _, _, _.
Qed.

Lemma new_Parser_valid : valid new_Parser.
Proof. split; [done|by left]. Qed.

Lemma session_ok p chunks : valid p → ∃ reqs e p', session p chunks = Some (reqs, e, p') ∧ valid p'.
Proof.
  revert p. induction chunks as [|c chunks IH]; intros p Hv; cbn [session]; [by eexists _, _, _|].
  destruct (drain_ok (S (length (buf_ (Feed c p)))) (Feed c p)) as (reqs & e & p' & -> & Hv').
  { by apply Feed_valid. } { unfold len. lia. }
  cbn [mbind option_bind]. destruct e as [e|]; [by eexists _, _, _|].
  destruct (IH p' Hv') as (reqs' & e & p2 & -> & Hv2). cbn [mbind option_bind]. by eexists _, _, _.
Qed.

(** ** Requests in fragments *)

Lemma find_crlf_partial (ds w stream rest : bytes) :
  Forall (λ c, c ≠ cr) ds → w ++ stream = ds ++ crlf ++ rest →
  find_crlf w = if len ds + 2 <=? len w then Some (len ds) else None.
Proof.
  revert w. induction ds as [|x ds IH]; intros w Hd Hw.
  - destruct w as [|c [|d w]]; [done|done|]. injection Hw as -> -> _.
    rewrite !len_cons. pose proof (len_nonneg w). rewrite (proj2 (Z.leb_le _ _)) by (unfold len in *; simpl; lia). done.
  - inversion_clear Hd as [|? ? Hx Hds]. pose proof (len_nonneg ds). rewrite !len_cons.
    destruct w as [|y w]; [by rewrite (proj2 (Z.leb_gt _ _)) by (unfold len in *; simpl; lia)|].
    injection Hw as -> Hw. specialize (IH w Hds Hw). rewrite len_cons.
    assert (find_crlf (x :: w) = Z.succ <$> find_crlf w) as ->.
    { destruct w as [|d w]; [done|]. rewrite find_crlf_cons2. by rewrite bool_decide_eq_false_2. }
    rewrite IH. destruct (Z.leb_spec (len ds + 2) (len w)).
    + rewrite (proj2 (Z.leb_le _ _)) by lia. simpl. f_equal. lia.
    + by rewrite (proj2 (Z.leb_gt _ _)) by lia.
Qed.

Lemma digits_no_cr ds : Forall (λ c, is_digit c = true) ds → Forall (λ c, c ≠ cr) ds.
Proof. intros H. eapply Forall_impl; [exact H|]. intros c Hc ->. discriminate Hc. Qed.

Lemma ParseDigits_to_string n : 0 ≤ n < 2 ^ 63 → ParseDigits (to_string n) = Some n.
Proof.
  intros Hn. destruct (to_string_spec n ltac:(lia)) as (H1 & _ & H2 & H3). unfold ParseDigits.
  rewrite bool_decide_eq_false_2 by done.
  assert (forallb is_digit (to_string n) = true) as ->.
  { apply forallb_forall. intros c Hc. rewrite Forall_forall in H2. apply H2. by apply list_elem_of_In. }
  cbn [negb orb]. rewrite H3. by rewrite (proj2 (Z.ltb_lt _ _)) by lia.
Qed.

Definition wf_request (args : list bytes) : Prop :=
  args ≠ [] ∧ len args ≤ kMaxMultibulk ∧ Forall (λ a, len a ≤ kMaxBulkLen) args.

(** The parser's state while [cmds] are still to be delivered and [stream] is
    still to be fed. *)
Inductive inv : Parser → bytes → list (list bytes) → Prop :=
  | inv_idle buf stream cmds :
      buf ++ stream = concat (encode_request <$> cmds) → Forall wf_request cmds →
      inv (mkParser buf (-1) 0 []) stream cmds
  | inv_bulk buf stream pos spans dn rem cmds :
      0 ≤ pos ≤ len buf → rem ≠ [] →
      at_off pos buf ++ stream = concat (BulkString <$> rem) ++ concat (encode_request <$> cmds) →
      Forall (λ s, 0 ≤ s.1 ∧ 0 ≤ s.2 ∧ s.1 + s.2 ≤ len buf) spans → materialize buf spans = Some dn →
      Forall (λ a, len a ≤ kMaxBulkLen) rem → Forall wf_request cmds →
      inv (mkParser buf (len rem) pos spans) stream ((dn ++ rem) :: cmds).

Definition next_inv (stream : bytes) (cmds : list (list bytes)) (r : option (NextStatus * Parser)) : Prop :=
  ∃ st p, r = Some (st, p) ∧
    ((st = kNeedMore ∧ inv p stream cmds ∧ (stream = [] → cmds = [])) ∨
     (∃ cmd cmds', cmds = cmd :: cmds' ∧ st = kRequest cmd ∧ inv p stream cmds')).

Lemma materialize_app buf more spans :
  Forall (λ s, 0 ≤ s.1 ∧ 0 ≤ s.2 ∧ s.1 + s.2 ≤ len buf) spans →
  materialize (buf ++ more) spans = materialize buf spans.
Proof.
  unfold materialize. induction 1 as [|s l Hs _ IH]; [done|]. simpl. rewrite IH.
  pose proof (len_nonneg more). rewrite len_app, !(proj2 (Z.ltb_ge _ _)) by lia.
  by rewrite slice_app_l by lia.
Qed.

Lemma materialize_snoc buf spans dn off n :
  materialize buf spans = Some dn → off ≤ len buf →
  materialize buf (spans ++ [(off, n)]) = Some (dn ++ [slice off n buf]).
Proof.
  unfold materialize. revert dn. induction spans as [|s l IH]; intros dn H Hoff; simpl in *.
  - injection H as <-. by rewrite (proj2 (Z.ltb_ge _ _)) by lia.
  - destruct (if len buf <? s.1 then _ else _) as [x|]; [|done]. simpl in *.
    destruct (mapM _ l) as [xs|]; [|done]. simpl in *. injection H as <-. by rewrite (IH xs).
Qed.

Lemma Feed_inv p c stream cmds : inv p (c ++ stream) cmds → inv (Feed c p) stream cmds.
Proof.
  inversion 1 as [buf ? ? Hb Hw|buf ? pos spans dn rem cmds' Hp Hr Hb Hs Hm Ha Hw]; subst; unfold Feed; simpl.
  - constructor; [|done]. by rewrite <- app_assoc.
  - pose proof (len_nonneg c). constructor; try done.
    + rewrite len_app. lia.
    + unfold at_off in *. rewrite drop_app_le, <- app_assoc by (unfold len in *; lia). done.
    + eapply Forall_impl; [exact Hs|]. simpl. intros s Hs'. rewrite len_app. lia.
    + by rewrite materialize_app.
Qed.

Lemma len_crlf : len crlf = 2.
Proof. reflexivity. Qed.
#[local] Hint Rewrite len_crlf : len.

Lemma len_BulkString a : len (BulkString a) = 5 + len (to_string (len a)) + len a.
Proof. unfold BulkString. rewrite !len_app. unfold len. simpl. lia. Qed.

(** A line whose number is cut or complete in [w]: the terminator is found
    exactly when the line is complete. *)
Lemma number_line n (w stream rest : bytes) :
  0 ≤ n < 2 ^ 63 → w ++ stream = to_string n ++ crlf ++ rest →
  (len w < len (to_string n) + 2 ∧ find_crlf w = None) ∨
  (∃ w', w = to_string n ++ crlf ++ w' ∧ rest = w' ++ stream ∧ find_crlf w = Some (len (to_string n))).
Proof.
  intros Hn Hw. destruct (to_string_spec n ltac:(lia)) as (_ & _ & Hd & _).
  pose proof (find_crlf_partial _ _ _ _ (digits_no_cr _ Hd) Hw) as Hf.
  destruct (Z.leb_spec (len (to_string n) + 2) (len w)); [right|by left].
  rewrite app_assoc in Hw. destruct (app_split_le _ _ _ _ Hw) as (w' & -> & Hr).
  { rewrite len_app. unfold crlf. rewrite !len_cons, len_nil. lia. }
  exists w'. by rewrite <- app_assoc in *.
Qed.

(** One argument of a multibulk: it is in the buffer, or more is needed. *)
Lemma bulk_step fuel pre w mb spans a (stream tail : bytes) :
  0 ≤ mb → len a ≤ kMaxBulkLen → w ++ stream = BulkString a ++ tail →
  let pos := len pre in
  let off := pos + 3 + len (to_string (len a)) in
  (next_loop (S fuel) (mkParser (pre ++ w) mb pos spans) = Some (kNeedMore, mkParser (pre ++ w) mb pos spans)
   ∧ stream ≠ []) ∨
  (∃ w', w = BulkString a ++ w' ∧ tail = w' ++ stream ∧ slice off (len a) (pre ++ w) = a ∧
     off + len a ≤ len (pre ++ w) ∧
     next_loop (S fuel) (mkParser (pre ++ w) mb pos spans) =
       let pos' := len (pre ++ BulkString a) in
       if mb - 1 =? 0 then
         args ← materialize (pre ++ w) (spans ++ [(off, len a)]);
         Some (kRequest args, mkParser w' (-1) 0 [])
       else next_loop fuel (mkParser (pre ++ w) (mb - 1) pos' (spans ++ [(off, len a)]))).
Proof.
  intros Hmb Ha Hw pos off. subst pos. unfold kMaxBulkLen in Ha. pose proof (len_nonneg a) as Hna.
  destruct (to_string_spec (len a) ltac:(lia)) as (_ & Hdl & _ & _).
  pose proof (len_BulkString a) as HlB. pose proof (len_nonneg (to_string (len a))) as Hnd.
  unfold BulkString in Hw. pose proof (ParseDigits_to_string (len a) ltac:(lia)) as HP.
  set (ds := to_string (len a)) in *. rewrite <- !app_assoc in Hw.
  pose proof (len_nonneg pre). pose proof (len_nonneg w).
  cbn [next_loop multibulk_ parse_pos_ buf_ arg_spans_]. rewrite (proj2 (Z.ltb_ge mb 0)) by lia.
  destruct w as [|c w].
  { left. rewrite app_nil_r in *. rewrite Z.leb_refl. split; [done|]. simpl in Hw. by intros ->. }
  injection Hw as -> Hw. change (w ++ stream = ds ++ crlf ++ a ++ crlf ++ tail) in Hw.
  rewrite len_app, len_cons. pose proof (len_nonneg w).
  rewrite (proj2 (Z.leb_gt _ _)) by lia.
  rewrite at_ix_app_r by lia. replace (len pre - len pre) with 0 by lia.
  change (at_ix (Init.Byte.x24 :: w) 0) with (Some Init.Byte.x24). cbn [mbind option_bind].
  rewrite bool_decide_eq_true_2 by done. cbn [negb].
  replace (pre ++ Init.Byte.x24 :: w) with ((pre ++ lit "$") ++ w) by (by rewrite <- app_assoc).
  assert (len (pre ++ lit "$") = len pre + 1) as Hl1 by (rewrite len_app; done).
  rewrite at_off_app by lia.
  pose proof (number_line (len a) w stream (a ++ crlf ++ tail) ltac:(lia) Hw) as Hline. fold ds in Hline.
  destruct Hline as [[Hlt ->]|(w' & -> & Hw' & ->)].
  { left. rewrite (proj2 (Z.ltb_ge 32 _)) by lia. split; [done|]. intros ->.
    rewrite app_nil_r in Hw. rewrite Hw in Hlt. slia. }
  clear Hw. pose proof (len_nonneg w').
  assert (len (ds ++ crlf ++ w') = len ds + 2 + len w') as Hl2 by slia.
  rewrite (slice_app_exact (pre ++ lit "$") ds (crlf ++ w')) by lia. rewrite HP. cbv zeta.
  rewrite (proj2 (Z.ltb_ge (len a) 0)), (proj2 (Z.ltb_ge kMaxBulkLen _)) by (unfold kMaxBulkLen; lia). cbn [orb].
  rewrite Hl2.
  destruct (Z.ltb_spec (len pre + (1 + (len ds + 2 + len w'))) (len pre + 1 + len ds + 2 + len a + 2)) as [Hlt|Hge].
  { left. split; [done|]. intros ->. rewrite app_nil_r in Hw'. apply (f_equal len) in Hw'. slia. }
  right. rewrite app_assoc in Hw'. destruct (app_split_le w' stream (a ++ crlf) tail) as (w2 & -> & ->); [done|slia|].
  exists w2. replace ((pre ++ lit "$") ++ ds ++ crlf ++ (a ++ crlf) ++ w2)
    with ((pre ++ lit "$" ++ ds ++ crlf) ++ a ++ crlf ++ w2) by (by rewrite <- !app_assoc).
  assert (len (pre ++ lit "$" ++ ds ++ crlf) = off) as Ho.
  { rewrite !len_app, len_crlf. unfold off. change (len (lit "$")) with 1. lia. }
  replace (len pre + 1 + len ds + 2) with off by lia.
  rewrite (at_ix_app_r _ _ (off + len a)), (at_ix_app_r _ _ (off + len a + 1)) by lia. rewrite Ho.
  replace (off + len a - off) with (len a) by lia. replace (off + len a + 1 - off) with (len a + 1) by lia.
  rewrite (at_ix_app_r a _ (len a)), (at_ix_app_r a _ (len a + 1)) by lia. rewrite Z.sub_diag.
  replace (len a + 1 - len a) with 1 by lia. change (at_ix (crlf ++ w2) 0) with (Some cr).
  change (at_ix (crlf ++ w2) 1) with (Some lf). cbn [mbind option_bind].
  rewrite !bool_decide_eq_true_2 by done. cbn [negb orb]. split_and!.
  - unfold BulkString. fold ds. by rewrite <- !app_assoc.
  - done.
  - by rewrite slice_app_exact.
  - slia.
  - replace (len (pre ++ BulkString a)) with (off + len a + 2) by (rewrite len_app; lia).
    assert (at_off (off + len a + 2) ((pre ++ lit "$" ++ ds ++ crlf) ++ a ++ crlf ++ w2) = w2) as ->; [|done].
    rewrite !app_assoc. apply at_off_app. rewrite <- !app_assoc. slia.
Qed.


Lemma bulk_loop fuel pre w spans dn rem stream cmds :
  len w < Z.of_nat fuel → rem ≠ [] →
  w ++ stream = concat (BulkString <$> rem) ++ concat (encode_request <$> cmds) →
  Forall (λ s, 0 ≤ s.1 ∧ 0 ≤ s.2 ∧ s.1 + s.2 ≤ len (pre ++ w)) spans → materialize (pre ++ w) spans = Some dn →
  Forall (λ a, len a ≤ kMaxBulkLen) rem → Forall wf_request cmds →
  next_inv stream ((dn ++ rem) :: cmds) (next_loop fuel (mkParser (pre ++ w) (len rem) (len pre) spans)).
Proof.
  revert pre w spans dn rem. induction fuel as [|fuel IH]; intros pre w spans dn rem Hf Hne Hw Hs Hm Ha Hc.
  { pose proof (len_nonneg w). lia. }
  destruct rem as [|a rem]; [done|]. inversion_clear Ha as [|? ? Ha1 Ha2].
  pose proof Hw as Hw0. rewrite fmap_cons in Hw. cbn [concat] in Hw. rewrite <- app_assoc in Hw.
  destruct (bulk_step fuel pre w (len (a :: rem)) spans a stream _ ltac:(apply len_nonneg) Ha1 Hw)
    as [[-> Hst]|(w' & -> & Ht & Hsl & Hoff & ->)].
  - eexists _, _. split; [done|]. left. split_and!; [done| |done].
    constructor; try done; [|by rewrite at_off_app|by constructor].
    rewrite len_app. pose proof (len_nonneg pre). pose proof (len_nonneg w). lia.
  - cbv zeta. rewrite len_cons. pose proof (len_nonneg a). pose proof (len_nonneg (to_string (len a))).
    pose proof (len_nonneg pre). pose proof (len_BulkString a) as HlB.
    assert (off_ok : 0 ≤ len pre + 3 + len (to_string (len a)) ≤ len (pre ++ BulkString a ++ w')) by lia.
    pose proof (materialize_snoc _ _ _ (len pre + 3 + len (to_string (len a))) (len a) Hm ltac:(lia)) as Hm'.
    rewrite Hsl in Hm'. destruct (Z.eqb_spec (1 + len rem - 1) 0) as [E|E].
    + rewrite Hm'. cbn [mbind option_bind]. destruct rem; [|rewrite len_cons in E; pose proof (len_nonneg rem); lia].
      eexists _, _. split; [done|]. right. eexists _, _. split_and!; [done|done|]. by constructor.
    + rewrite app_assoc in Hm', Hs, off_ok, Hoff |- *. replace (1 + len rem - 1) with (len rem) by lia.
      replace (dn ++ a :: rem) with ((dn ++ [a]) ++ rem) by (by rewrite <- app_assoc).
      apply IH; try done.
      * rewrite len_app in Hf. lia.
      * by intros ->.
      * apply Forall_app. split; [done|]. constructor; [|constructor]. cbn [fst snd]. lia.
Qed.

(** The first request's line, cut or complete. *)
Lemma idle_step fuel buf stream cmds :
  len buf < Z.of_nat fuel → buf ++ stream = concat (encode_request <$> cmds) → Forall wf_request cmds →
  next_inv stream cmds (next_loop fuel (mkParser buf (-1) 0 [])).
Proof.
  intros Hf Hb Hc. destruct fuel as [|fuel]; [pose proof (len_nonneg buf); lia|].
  assert (∀ p, p = mkParser buf (-1) 0 [] → (stream = [] → cmds = []) → next_inv stream cmds (Some (kNeedMore, p))) as Hmore.
  { intros p -> Hs. eexists _, _. split; [done|]. left. split_and!; [done|by constructor|done]. }
  cbn [next_loop multibulk_ parse_pos_ buf_ arg_spans_]. change (-1 <? 0) with true. cbv iota.
  destruct buf as [|c buf].
  { apply Hmore; [done|]. intros ->. destruct cmds as [|c cmds]; [done|discriminate Hb]. }
  destruct cmds as [|args cmds]; [discriminate Hb|]. rewrite fmap_cons in Hb. cbn [concat] in Hb.
  inversion_clear Hc as [|? ? [Hne [Hn Ha]] Hc']. unfold kMaxMultibulk in Hn. pose proof (len_nonneg args).
  unfold encode_request, ArrayHeader in Hb. rewrite <- !app_assoc in Hb. injection Hb as -> Hb.
  change (run_length is_newline (at_off 0 (Init.Byte.x2a :: buf))) with 0. change (0 <? 0 + 0) with false.
  cbn [buf_]. rewrite bool_decide_eq_true_2 by done. change (0 + 0) with 0.
  change (buf ++ stream = to_string (len args) ++ crlf ++ concat (BulkString <$> args)
            ++ concat (encode_request <$> cmds)) in Hb.
  pose proof (to_string_spec (len args) ltac:(lia)) as (_ & Hdl & _ & _).
  destruct (number_line (len args) buf stream _ ltac:(lia) Hb) as [[Hlt ->]|(w & -> & Hw & ->)].
  - rewrite len_cons. rewrite (proj2 (Z.ltb_ge 32 _)) by lia. apply Hmore; [done|]. intros ->.
    rewrite app_nil_r in Hb. rewrite Hb in Hlt. slia.
  - change (Init.Byte.x2a :: to_string (len args) ++ crlf ++ w) with (lit "*" ++ to_string (len args) ++ crlf ++ w) in *.
    rewrite (slice_app_exact (lit "*") (to_string (len args)) (crlf ++ w)) by (change (len (lit "*")) with 1; lia).
    rewrite ParseDigits_to_string by lia. unfold kMaxMultibulk. rewrite (proj2 (Z.ltb_ge _ _)) by lia.
    destruct (Z.leb_spec (len args) 0) as [E|E].
    { destruct args; [done|]. rewrite len_cons in E. pose proof (len_nonneg args). lia. }
    replace (1 + len (to_string (len args)) + 2) with (len (lit "*" ++ to_string (len args) ++ crlf))
      by (rewrite !len_app, len_crlf; change (len (lit "*")) with 1; lia).
    rewrite !app_assoc, <- (app_assoc (lit "*")). apply (bulk_loop fuel _ w [] []); try done.
    rewrite !len_app, len_crlf in Hf. change (len (lit "*")) with 1 in Hf.
    pose proof (len_nonneg (to_string (len args))). lia.
Qed.

Lemma Next_inv p stream cmds : inv p stream cmds → next_inv stream cmds (Next p).
Proof.
  intros [buf stream' cmds' Hb Hc|buf stream' pos spans dn rem cmds' Hp Hr Hb Hs Hm Ha Hc]; unfold Next; cbn [buf_].
  - apply idle_step; [unfold len; lia|done|done].
  - assert (∃ pre w, buf = pre ++ w ∧ pos = len pre) as (pre & w & -> & ->).
    { exists (take (Z.to_nat pos) buf), (drop (Z.to_nat pos) buf). rewrite take_drop. split; [done|].
      unfold len in *. rewrite length_take. lia. }
    rewrite at_off_app in Hb by done. apply bulk_loop; try done. unfold len. rewrite length_app. lia.
Qed.

Lemma inv_valid p stream cmds : inv p stream cmds → valid p.
Proof.
  intros [buf stream' cmds' Hb Hc|buf stream' pos spans dn rem cmds' Hp Hr Hb Hs Hm Ha Hc].
  - split; simpl; [pose proof (len_nonneg buf); lia|by left].
  - split; simpl; [done|]. left. eapply Forall_impl; [exact Hs|]. simpl. lia.
Qed.

(** Draining delivers a prefix of the outstanding requests. *)
Lemma drain_inv fuel p stream cmds :
  len (buf_ p) < Z.of_nat fuel → inv p stream cmds →
  ∃ reqs cmds' p', drain fuel p = Some (reqs, None, p') ∧ cmds = reqs ++ cmds' ∧ inv p' stream cmds' ∧
                   (stream = [] → cmds' = []).
Proof.
  revert p cmds. induction fuel as [|fuel IH]; intros p cmds Hf Hi; [pose proof (len_nonneg (buf_ p)); lia|].
  cbn [drain]. destruct (Next_ok p (inv_valid _ _ _ Hi)) as (st' & q & E & _ & _ & Hsm).
  destruct (Next_inv p stream cmds Hi) as (st & p' & E2 & Hst). rewrite E2 in E |- *. injection E as <- <-. cbn [mbind option_bind].
  destruct Hst as [(-> & Hi' & Hs)|(cmd & cmds' & -> & -> & Hi')].
  - by exists [], cmds, p'.
  - specialize (Hsm cmd eq_refl). destruct (IH p' cmds' ltac:(lia) Hi') as (reqs & cmds2 & p2 & -> & -> & Hi2 & Hs).
    cbn [mbind option_bind]. by exists (cmd :: reqs), cmds2, p2.
Qed.

Lemma session_inv p chunks cmds :
  inv p (concat chunks) cmds → chunks ≠ [] →
  ∃ p', session p chunks = Some (cmds, None, p') ∧ inv p' [] [].
Proof.
  revert p cmds. induction chunks as [|c chunks IH]; intros p cmds Hi Hne; [done|]. cbn [session].
  cbn [concat] in Hi. apply Feed_inv in Hi.
  destruct (drain_inv (S (length (buf_ (Feed c p)))) (Feed c p) (concat chunks) cmds ltac:(unfold len; lia) Hi)
    as (reqs & cmds' & p' & -> & -> & Hi' & Hs). cbn [mbind option_bind].
  destruct chunks as [|c' chunks].
  - simpl in Hi', Hs. rewrite (Hs eq_refl) in *. exists p'. split; [done|done].
  - destruct (IH p' cmds' Hi' ltac:(done)) as (p2 & -> & Hi2). by exists p2.
Qed.

(** ** Properties *)

(** C33: any split of a pipelined stream of requests into chunks is parsed into
    exactly those requests, in order, with nothing left over. *)
Theorem resp_any_fragmentation (cmds : list (list bytes)) (chunks : list bytes) :
  Forall wf_request cmds → concat chunks = concat (encode_request <$> cmds) → chunks ≠ [] →
  ∃ p, session new_Parser chunks = Some (cmds, None, p) ∧ buf_ p = [].
Proof.
  intros Hc Hs Hne. destruct (session_inv new_Parser chunks cmds) as (p & Hp & Hi); [by constructor|done|].
  exists p. split; [done|]. inversion Hi as [buf ? ? Hb|]; subst. cbn [buf_]. by destruct buf.
Qed.

Lemma resp_any_fragmentation_witness :
  ∃ p, session new_Parser [lit "*2"; [cr]; lf :: lit "$3"; crlf ++ lit "GET" ++ crlf ++ lit "$1" ++ crlf ++ lit "k";
                           crlf ++ lit "*1" ++ crlf ++ lit "$4" ++ crlf ++ lit "PING" ++ crlf]
       = Some ([[lit "GET"; lit "k"]; [lit "PING"]], None, p) ∧ buf_ p = [].
Proof.
  apply resp_any_fragmentation; [|reflexivity|done].
  repeat constructor; vm_compute; done.
Defined.

(** C34: whatever bytes a peer sends and however they are cut, every call of
    the parser returns: its loops end and no position leaves the buffer. *)
Theorem resp_session_total (chunks : list bytes) : is_Some (session new_Parser chunks).
Proof. destruct (session_ok new_Parser chunks new_Parser_valid) as (r & e & p & -> & _). done. Qed.

(** A blank line in front of a complete request makes the parser ask for
    more bytes: the request stays in the buffer unanswered. *)
Example blank_line_stalls_request :
  session new_Parser [lit "  " ++ crlf ++ lit "PING" ++ crlf]
  = Some ([], None, mkParser (lit "PING" ++ crlf) (-1) 0 []).
Proof. vm_compute. reflexivity. Qed.

(** The same request bytes are accepted in one chunk and rejected in two:
    an argument length written with more than thirty digits. *)
Example long_length_depends_on_fragmentation :
  let zeros := replicate 31 (digit 0) in
  fst <$> session new_Parser [lit "*1" ++ crlf ++ lit "$" ++ zeros ++ lit "4" ++ crlf ++ lit "PING" ++ crlf]
  = Some ([[lit "PING"]], None) ∧
  fst <$> session new_Parser [lit "*1" ++ crlf ++ lit "$" ++ zeros ++ lit "4"; crlf ++ lit "PING" ++ crlf]
  = Some ([], Some (lit "Protocol error: invalid bulk length")).
Proof. vm_compute. split; reflexivity. Qed.

End resp.
