(* ===== verification/Ycsb.v ===== *)
(** * The benchmark's primitives

    Models bench/ycsb.h: the zipfian sampler, the latency histogram, the six
    workloads, and the keys and values they use.  Doubles are the binary64
    numbers of the standard library's [SpecFloat].  [std::pow] and the draws of
    the random number engine are not fixed by the language: they are arguments,
    with what the distributions promise as the class [RngLaws]. *)

From Stdlib Require Import Floats.SpecFloat.
From stdpp Require Import sorting.
From S2P Require Import Prelude Status.

Module ycsb.

(** ** Doubles *)

Abbreviation f64 := spec_float.

Definition fadd : f64 → f64 → f64 := SFadd 53 1024.
Definition fmul : f64 → f64 → f64 := SFmul 53 1024.
Definition fdiv : f64 → f64 → f64 := SFdiv 53 1024.

(** [static_cast<double>] of an integer: rounded to nearest, ties to even. *)
Definition f64_of_Z (n : Z) : f64 := binary_normalize 53 1024 n 0 false.

Definition f_zero : f64 := S754_zero false.
Definition f_one : f64 := f64_of_Z 1.

(** [static_cast<size_t>] of a double: truncation; [None] where the conversion
    is undefined. *)
Definition size_of_f64 (f : f64) : option Z :=
  match f with
  | S754_zero _ => Some 0
  | S754_finite s m e =>
      let t := Z.shiftl (Z.pos m) e in
      if s then (if t =? 0 then Some 0 else None) else if t <? 2 ^ 64 then Some t else None
  | _ => None
  end.

(** ** Random numbers *)

(** An engine: how it is seeded, the next draw of
    [uniform_real_distribution(0, 1)] and of [uniform_int_distribution(a, b)]. *)
Class Rng (Gen : Type) := {
  seeded : Z → Gen;
  uniform_real : Gen → f64 * Gen;
  uniform_int : Z → Z → Gen → Z * Gen
}.

Class RngLaws (Gen : Type) {R : Rng Gen} : Prop := {
  law_real g : SFltb f_one (uniform_real g).1 = false;
  law_int a b g : a ≤ b → a ≤ (uniform_int a b g).1 ≤ b
}.

(** ** ZipfianGenerator *)

Section zipfian.
Context {Gen : Type} {R : Rng Gen} (pow : f64 → f64 → f64).

Record ZipfianGenerator := mkZipfian { cdf_ : list f64; gen_ : Gen }.

(** The loop of the constructor from [i] on: the sums it stores and the last. *)
Fixpoint cdf_loop (n : nat) (i : Z) (theta sum : f64) : list f64 * f64 :=
  match n with
  | O => ([], sum)
  | S n =>
      let sum := fadd sum (fdiv f_one (pow (f64_of_Z (i + 1)) theta)) in
      let '(l, total) := cdf_loop n (i + 1) theta sum in (sum :: l, total)
  end.

(** [None]: [back] of an empty vector. *)
Definition new_Zipfian (num_items : Z) (theta : f64) (seed : Z) : option ZipfianGenerator :=
  let '(l, sum) := cdf_loop (Z.to_nat num_items) 0 theta f_zero in
  if num_items =? 0 then None
  else Some (mkZipfian (<[Nat.pred (length l) := f_one]> ((λ v, fdiv v sum) <$> l)) (seeded seed)).

Definition Next (z : ZipfianGenerator) : Z * ZipfianGenerator :=
  let '(u, g) := uniform_real (gen_ z) in
  (Z.of_nat (lower_bound (λ v, SFltb v u) (cdf_ z)), mkZipfian (cdf_ z) g).

End zipfian.

Arguments ZipfianGenerator : clear implicits.

(** ** LatencyHistogram *)

Record LatencyHistogram := mkHistogram { samples_ : list Z }.

Definition Record_ (ns : Z) (h : LatencyHistogram) : LatencyHistogram := mkHistogram (samples_ h ++ [ns]).
Definition count (h : LatencyHistogram) : Z := len (samples_ h).

(** [None]: the signed sum overflows. *)
Definition total_ns (h : LatencyHistogram) : option Z :=
  foldl (λ acc s, sum ← acc; if (- 2 ^ 63 <=? sum + s) && (sum + s <? 2 ^ 63) then Some (sum + s) else None)
    (Some 0) (samples_ h).

Definition percentile_index (p : f64) (n : Z) : option Z :=
  Z.min (n - 1) <$> size_of_f64 (fmul (fdiv p (f64_of_Z 100)) (f64_of_Z n)).

Definition Percentile (p : f64) (h : LatencyHistogram) : option Z :=
  match samples_ h with
  | [] => Some 0
  | _ =>
      idx ← percentile_index p (len (samples_ h));
      at_ix (merge_sort Z.le (samples_ h)) idx
  end.

Definition max (h : LatencyHistogram) : Z := foldl Z.max 0 (samples_ h).

(** ** Workloads *)

Inductive OpType := kRead | kUpdate | kInsert | kScan | kRmw.

#[export] Instance OpType_eq_dec : EqDecision OpType.
Proof. solve_decision. Defined.

Record WorkloadSpec := mkWorkload {
  name : bytes;
  read_pct : Z;
  update_pct : Z;
  insert_pct : Z;
  scan_pct : Z;
  rmw_pct : Z;
  latest_reads : bool;
  description : bytes
}.

Definition kWorkloads : list WorkloadSpec :=
  [mkWorkload (lit "A") 50 50 0 0 0 false (lit "50R/50U zipfian — session store");
   mkWorkload (lit "B") 95 5 0 0 0 false (lit "95R/5U zipfian — photo tagging");
   mkWorkload (lit "C") 100 0 0 0 0 false (lit "100R zipfian — profile cache");
   mkWorkload (lit "D") 95 0 5 0 0 true (lit "95R/5I latest — user status");
   mkWorkload (lit "E") 0 0 5 95 0 false (lit "95S/5I zipfian — thread lists");
   mkWorkload (lit "F") 0 0 0 0 100 false (lit "50R/50RMW zipfian — user records")].

Definition FindWorkload (n : bytes) : option WorkloadSpec := find (λ w, bytes_eqb n (name w)) kWorkloads.

(** ** Keys and values *)

(** [%019llu] *)
Definition zero_pad19 (n : Z) : bytes :=
  let s := to_string n in replicate (19 - length s)%nat (digit 0) ++ s.

(** At most 24 characters: [buf] holds them. *)
Definition MakeKey (i : Z) : bytes := lit "user" ++ zero_pad19 i.

Definition xorshift (x : Z) : Z :=
  let x := Z.lxor x (u64 (Z.shiftl x 13)) in
  let x := Z.lxor x (Z.shiftr x 7) in
  Z.lxor x (u64 (Z.shiftl x 17)).

Fixpoint value_loop (n : nat) (x : Z) : bytes :=
  match n with
  | O => []
  | S n => let x := xorshift x in to_char (Z.land x 255) :: value_loop n x
  end.

Definition MakeValue (i size : Z) : bytes :=
  value_loop (Z.to_nat size) (Z.lxor 0x9e3779b97f4a7c15 (u64 (i * 0xff51afd7ed558ccd))).

(** ** Keys are ordered as numbers *)

Lemma decimal_value_mono a b s t :
  a < b → length s = length t → Forall (λ c, is_digit c = true) s → Forall (λ c, is_digit c = true) t →
  decimal_value a s < decimal_value b t.
Proof.
  revert a b t. induction s as [|c s IH]; intros a b [|c' t] Hab Hl Hs Ht; try done.
  inversion_clear Hs as [|? ? Hc Hs']. inversion_clear Ht as [|? ? Hc' Ht']. cbn [decimal_value].
  unfold is_digit in Hc, Hc'. apply IH; [lia|by injection Hl|done..].
Qed.

Lemma digits_compare a s t :
  length s = length t → Forall (λ c, is_digit c = true) s → Forall (λ c, is_digit c = true) t →
  bytes_compare s t = (decimal_value a s ?= decimal_value a t).
Proof.
  revert a t. induction s as [|c s IH]; intros a [|c' t] Hl Hs Ht; try done.
  { cbn. by rewrite Z.compare_refl. }
  inversion_clear Hs as [|? ? Hc Hs']. inversion_clear Ht as [|? ? Hc' Ht']. injection Hl as Hl. cbn [decimal_value bytes_compare].
  destruct (Z.compare_spec (byte_val c) (byte_val c')) as [E|Hlt|Hlt].
  - rewrite <- E. by apply IH.
  - symmetry. apply Z.compare_lt_iff, decimal_value_mono; [lia|done..].
  - symmetry. apply Z.compare_gt_iff, decimal_value_mono; [lia|done..].
Qed.

(** Fuel beyond the number of digits changes nothing. *)
Lemma digits_fuel k fuel n acc :
  (0 < k ≤ fuel)%nat → 0 ≤ n < 10 ^ Z.of_nat k → digits fuel n acc = digits k n acc.
Proof.
  revert fuel n acc. induction k as [|k IH]; intros [|fuel] n acc Hk Hn; try lia. cbn [digits].
  destruct (Z.ltb_spec n 10); [done|]. rewrite Nat2Z.inj_succ, Z.pow_succ_r in Hn by lia.
  destruct k as [|k]; [cbn in Hn; lia|]. apply IH; [lia|].
  split; [apply Z.div_pos; lia|apply Z.div_lt_upper_bound; lia].
Qed.

Lemma zero_pad19_spec n :
  0 ≤ n < 10 ^ 19 →
  length (zero_pad19 n) = 19%nat ∧ Forall (λ c, is_digit c = true) (zero_pad19 n) ∧ decimal_value 0 (zero_pad19 n) = n.
Proof.
  intros Hn. unfold zero_pad19, to_string. rewrite (digits_fuel 19 20) by (cbn; lia).
  destruct (digits_spec 19 n [] ltac:(lia) Hn) as (ds & -> & _ & Hl & Hd & Hv). rewrite app_nil_r. split_and!.
  - rewrite length_app, length_replicate. unfold len in Hl. lia.
  - apply Forall_app. split; [|done]. by apply Forall_replicate, is_digit_digit.
  - by rewrite decimal_value_zeros.
Qed.

Lemma bytes_compare_prefix p s t : bytes_compare (p ++ s) (p ++ t) = bytes_compare s t.
Proof. induction p as [|c p IH]; [done|]. cbn [app bytes_compare]. by rewrite Z.compare_refl. Qed.

(** Keys below 10^19 are ordered as their numbers. *)
Lemma MakeKey_compare i j :
  0 ≤ i < 10 ^ 19 → 0 ≤ j < 10 ^ 19 → bytes_compare (MakeKey i) (MakeKey j) = (i ?= j).
Proof.
  intros Hi Hj. destruct (zero_pad19_spec i Hi) as (Li & Di & Vi), (zero_pad19_spec j Hj) as (Lj & Dj & Vj).
  unfold MakeKey. rewrite bytes_compare_prefix, (digits_compare 0) by congruence. by rewrite Vi, Vj.
Qed.

Lemma MakeKey_inj i j : 0 ≤ i < 10 ^ 19 → 0 ≤ j < 10 ^ 19 → MakeKey i = MakeKey j → i = j.
Proof.
  intros Hi Hj E. apply Z.compare_eq. rewrite <- MakeKey_compare by done. rewrite E. apply bytes_compare_refl.
Qed.

Lemma MakeKey_ltb i j : 0 ≤ i < 10 ^ 19 → 0 ≤ j < 10 ^ 19 → bytes_ltb (MakeKey i) (MakeKey j) = (i <? j).
Proof. intros Hi Hj. unfold bytes_ltb. rewrite MakeKey_compare by done. unfold Z.ltb. by destruct (i ?= j). Qed.

(** A number of twenty digits has no padding left, and its key comes too early. *)
Example MakeKey_twenty_digits : bytes_ltb (MakeKey (10 ^ 19)) (MakeKey (2 * 10 ^ 18)) = true.
Proof. vm_compute. reflexivity. Qed.

Lemma len_MakeKey i : 0 ≤ i < 10 ^ 19 → len (MakeKey i) = 23.
Proof. intros Hi. unfold MakeKey, len. rewrite length_app. by destruct (zero_pad19_spec i Hi) as (-> & _). Qed.

Lemma len_MakeValue i size : 0 ≤ size → len (MakeValue i size) = size.
Proof.
  intros Hs. unfold MakeValue, len. generalize (Z.lxor 0x9e3779b97f4a7c15 (u64 (i * 0xff51afd7ed558ccd))).
  assert (∀ n x, length (value_loop n x) = n) as H by (induction n as [|n IH]; intros x; cbn; [done|by rewrite IH]).
  intros x. rewrite H. lia.
Qed.

(** ** The sampler stays in its range *)

(** Whatever the list, the search ends below an element that is not less. *)
Lemma lower_bound_loop_below {A} (comp : A → bool) (l : list A) fuel first n k x :
  l !! k = Some x → comp x = false → (first ≤ k)%nat → (n ≤ fuel)%nat → (first + n ≤ S k)%nat →
  (lower_bound_loop comp l fuel first n ≤ k)%nat.
Proof.
  intros Hx Hc. revert first n. induction fuel as [|fuel IH]; intros first n Hf Hn Hk; cbn [lower_bound_loop]; [done|].
  destruct n as [|n]; [done|]. set (half := Nat.div (S n) 2).
  assert (half < S n)%nat by (apply Nat.div_lt; lia).
  destruct (l !! (first + half)%nat) as [y|] eqn:Ey; [|done]. destruct (comp y) eqn:Ec; [|apply IH; lia].
  apply IH; try lia. assert (first + half ≠ k)%nat; [|lia]. intros E. rewrite E in Ey. congruence.
Qed.

Section sampler.
Context {Gen : Type} {R : Rng Gen} {L : RngLaws Gen} (pow : f64 → f64 → f64).

Lemma length_cdf_loop n i theta sum : length (cdf_loop pow n i theta sum).1 = n.
Proof using.
  revert i sum. induction n as [|n IH]; intros i sum; cbn [cdf_loop]; [done|].
  specialize (IH (i + 1) (fadd sum (fdiv f_one (pow (f64_of_Z (i + 1)) theta)))). destruct (cdf_loop _ _ _ _ _). cbn in *. by rewrite IH.
Qed.

(** A generator for [n] items: its table ends in 1.0. *)
Definition zipf_ok (n : Z) (z : ZipfianGenerator Gen) : Prop :=
  0 < n ∧ len (cdf_ z) = n ∧ at_ix (cdf_ z) (n - 1) = Some f_one.

Lemma new_Zipfian_ok n theta seed :
  0 < n → ∃ z, new_Zipfian pow n theta seed = Some z ∧ zipf_ok n z.
Proof using.
  intros Hn. unfold new_Zipfian. pose proof (length_cdf_loop (Z.to_nat n) 0 theta f_zero) as Hl.
  destruct (cdf_loop _ _ _ _ _) as [l sum]. cbn [fst] in Hl. rewrite (proj2 (Z.eqb_neq _ _)) by lia.
  eexists. split; [done|]. unfold zipf_ok, len, at_ix. cbn [cdf_]. rewrite length_insert, length_fmap. split_and!; [done|lia|].
  rewrite (proj2 (Z.ltb_ge _ _)) by lia. replace (Z.to_nat (n - 1)) with (Nat.pred (length l)) by lia.
  apply list_lookup_insert_eq. rewrite length_fmap. lia.
Qed.

Lemma zipf_Next_ok n z : zipf_ok n z → 0 ≤ (Next z).1 < n ∧ zipf_ok n (Next z).2.
Proof using L.
  intros (Hn & Hl & Hlast). unfold Next. pose proof (law_real (gen_ z)) as Hu. destruct (uniform_real (gen_ z)) as [u g].
  cbn [fst snd] in *. split; [|by split_and!]. unfold at_ix in Hlast. destruct (_ <? _); [done|].
  assert (lower_bound (λ v, SFltb v u) (cdf_ z) ≤ Z.to_nat (n - 1))%nat; [|lia]. unfold len in Hl.
  eapply lower_bound_loop_below; [exact Hlast|exact Hu|lia..].
Qed.

End sampler.

(** ** Percentiles are order statistics *)

Lemma sorted_around (l1 l2 : list Z) x :
  StronglySorted Z.le (l1 ++ x :: l2) → Forall (λ y, y ≤ x) l1 ∧ Forall (λ y, x ≤ y) l2.
Proof.
  induction l1 as [|y l1 IH]; cbn [app]; intros Hs; inversion_clear Hs as [|? ? Hs' Hf]; [done|].
  destruct (IH Hs') as [H1 H2]. split; [|done]. constructor; [|done]. rewrite Forall_forall in Hf. apply Hf. set_solver.
Qed.

Lemma len_filter_le {A} (P : A → Prop) `{!∀ x, Decision (P x)} (l1 l2 : list A) :
  Forall P l1 → len l1 ≤ len (filter P (l1 ++ l2)).
Proof. intros Hf. rewrite filter_app, len_app, (filter_all _ l1) by done. pose_len_nonneg. lia. Qed.

Lemma merge_sort_at_ix (l : list Z) i x :
  at_ix (merge_sort Z.le l) i = Some x →
  x ∈ l ∧ i + 1 ≤ len (filter (λ y, y ≤ x) l) ∧ len l - i ≤ len (filter (λ y, x ≤ y) l).
Proof.
  unfold at_ix. destruct (Z.ltb_spec i 0); [done|]. intros E.
  pose proof (merge_sort_Permutation Z.le l) as Hp. pose proof (Sorted_merge_sort Z.le l) as Hs.
  apply Sorted_StronglySorted in Hs; [|intros ? ? ?; lia]. set (s := merge_sort Z.le l) in *.
  assert (∀ P `{!∀ y : Z, Decision (P y)}, len (filter P l) = len (filter P s)) as Hf.
  { intros P ?. unfold len. by rewrite Hp. }
  rewrite !Hf. assert (len l = len s) as -> by (unfold len; by rewrite Hp).
  rewrite <- (take_drop_middle s _ _ E) in Hs |- *. pose proof (lookup_lt_Some _ _ _ E).
  assert (len (take (Z.to_nat i) s) = i) as Hi by (rewrite len_take; unfold len; lia).
  destruct (sorted_around _ _ _ Hs) as [H1 H2]. split_and!.
  - rewrite <- Hp. by eapply list_elem_of_lookup_2.
  - change (?a ++ x :: ?b) with (a ++ [x] ++ b). rewrite app_assoc. etrans; [|apply len_filter_le].
    + rewrite len_app, Hi. done.
    + apply Forall_app. split; [done|]. by constructor.
  - rewrite len_app, Hi, filter_app, len_app. pose proof (len_nonneg (filter (λ y, x ≤ y) (take (Z.to_nat i) s))).
    pose proof (len_filter_le (λ y, x ≤ y) (x :: drop (S (Z.to_nat i)) s) []) as Hd. rewrite app_nil_r in Hd.
    specialize (Hd ltac:(by constructor)). lia.
Qed.

Lemma size_of_f64_nonneg f n : size_of_f64 f = Some n → 0 ≤ n.
Proof.
  unfold size_of_f64. destruct f as [s|s| |s m e]; try by intros [= <-]. pose proof (proj2 (Z.shiftl_nonneg (Z.pos m) e) ltac:(lia)).
  destruct s; [destruct (_ =? _); [by intros [= <-]|done]|]. destruct (_ <? _); [by intros [= <-]|done].
Qed.

(** [Percentile] returns a sample; at least [idx + 1] samples are not above it
    and at least [count - idx] not below. *)
Theorem Percentile_order_statistic (p : f64) (h : LatencyHistogram) (idx : Z) :
  samples_ h ≠ [] → percentile_index p (count h) = Some idx →
  ∃ x, Percentile p h = Some x ∧ x ∈ samples_ h ∧
    idx + 1 ≤ len (filter (λ y, y ≤ x) (samples_ h)) ∧ count h - idx ≤ len (filter (λ y, x ≤ y) (samples_ h)).
Proof.
  intros Hne Hi. unfold count in *. unfold Percentile. destruct (samples_ h) as [|s0 rest] eqn:E; [done|]. rewrite Hi. cbn [mbind option_bind].
  set (l := s0 :: rest) in *. assert (0 ≤ idx < len l) as Hb.
  { unfold percentile_index in Hi. destruct (size_of_f64 _) as [n|] eqn:En; [|done]. apply size_of_f64_nonneg in En.
    cbn in Hi. injection Hi as <-. unfold l. rewrite len_cons. pose proof (len_nonneg rest). lia. }
  destruct (at_ix_is_Some (merge_sort Z.le l) idx) as [x Hx].
  { assert (len (merge_sort Z.le l) = len l) as -> by (unfold len; by rewrite merge_sort_Permutation). done. }
  exists x. split; [done|]. by apply merge_sort_at_ix.
Qed.

End ycsb.
