(* ===== verification/Args.v ===== *)
(** * Numbers on a command line

    The conversions of the C++ library that tools/server_main.cpp and
    bench/ycsb_bench.cpp apply to their arguments: [std::stoi] and
    [std::strtoull] in base ten.  Both skip leading white space, take an
    optional sign and the digits that follow, and ignore the rest. *)

From S2P Require Import Prelude Status.

Module args.

Definition isspace (c : byte) : bool := ((9 <=? byte_val c) && (byte_val c <=? 13)) || (byte_val c =? 32).

Fixpoint skip_spaces (s : bytes) : bytes :=
  match s with
  | c :: rest => if isspace c then skip_spaces rest else s
  | [] => []
  end.

(** The sign: whether it is a minus, and what follows it. *)
Definition take_sign (s : bytes) : bool * bytes :=
  match s with
  | c :: rest => if byte_val c =? 45 then (true, rest) else if byte_val c =? 43 then (false, rest) else (false, s)
  | [] => (false, [])
  end.

Fixpoint take_digits (s : bytes) : bytes :=
  match s with
  | c :: rest => if is_digit c then c :: take_digits rest else []
  | [] => []
  end.

(** [strtoull(s, nullptr, 10)]: 0 without digits, the largest number on
    overflow, and a negated number modulo 2^64. *)
Definition strtoull (s : bytes) : Z :=
  let '(neg, rest) := take_sign (skip_spaces s) in
  let v := decimal_value 0 (take_digits rest) in
  if 2 ^ 64 <=? v then 2 ^ 64 - 1 else if neg then u64 (- v) else v.

(** [std::stoi(s)]; [None]: it throws [invalid_argument] or [out_of_range]. *)
Definition stoi (s : bytes) : option Z :=
  let '(neg, rest) := take_sign (skip_spaces s) in
  match take_digits rest with
  | [] => None
  | ds =>
      let v := if neg then - decimal_value 0 ds else decimal_value 0 ds in
      if (- 2 ^ 31 <=? v) && (v <? 2 ^ 31) then Some v else None
  end.

Lemma take_digits_all s : Forall (λ c, is_digit c = true) s → take_digits s = s.
Proof. induction 1 as [|c s Hc _ IH]; [done|]. cbn [take_digits]. by rewrite Hc, IH. Qed.

(** A digit string is neither skipped nor taken for a sign. *)
Lemma digits_unsigned s :
  s ≠ [] → Forall (λ c, is_digit c = true) s → take_sign (skip_spaces s) = (false, s).
Proof.
  intros Hne Hs. destruct Hs as [|c s Hc Hs]; [done|]. unfold is_digit in Hc. cbn [skip_spaces]. unfold isspace.
  replace (_ || _) with false by lia. cbn [take_sign].
  rewrite (proj2 (Z.eqb_neq (byte_val c) 45)), (proj2 (Z.eqb_neq (byte_val c) 43)) by lia. done.
Qed.

Lemma strtoull_to_string n : 0 ≤ n < 2 ^ 64 → strtoull (to_string n) = n.
Proof.
  intros Hn. destruct (to_string_spec n Hn) as (Hne & _ & Hd & Hv). unfold strtoull.
  rewrite digits_unsigned, take_digits_all, Hv by done. by rewrite (proj2 (Z.leb_gt _ _)) by lia.
Qed.

Lemma stoi_to_string n : 0 ≤ n < 2 ^ 31 → stoi (to_string n) = Some n.
Proof.
  intros Hn. destruct (to_string_spec n ltac:(lia)) as (Hne & _ & Hd & Hv). unfold stoi.
  rewrite digits_unsigned, take_digits_all by done. destruct (to_string n) as [|c s]; [done|]. rewrite Hv.
  replace (_ && _) with true by lia. done.
Qed.

(** What follows the digits is ignored. *)
Example trailing_garbage : stoi (lit "80abc") = Some 80 ∧ strtoull (lit "1e6") = 1 ∧ strtoull (lit "-1") = 2 ^ 64 - 1.
Proof. vm_compute. done. Qed.

End args.
