(* ===== verification/FsUtil.v ===== *)
(** * File helpers: the write and read loops over POSIX calls

    Models include/bedrockkv/fs_util.h and src/fs_util.cpp, and the loops over
    [::write] and [::read] that log.cpp, vlog.cpp and fs_util.cpp share.  The
    kernel is a parameter: every call takes the list of outcomes its system
    calls will have (a byte count, an interruption, an error), so a theorem
    that quantifies over the list holds for every short write, short read and
    interruption.  An exhausted list means that the remaining calls transfer
    everything they are asked to. *)

From S2P Require Import Prelude Status.

#[global] Instance byte_countable : Countable byte.
Proof.
  refine (inj_countable' byte_val to_char _). apply to_char_byte_val.
Defined.

(** What one [::read] or [::write] does; [IoError] carries
    [strerror(errno)]. *)
Inductive io_outcome := IoBytes (n : Z) | IoEintr | IoError (errno : bytes).

Definition is_io_error (o : io_outcome) : bool :=
  match o with IoError _ => true | _ => false end.

(** No call fails for good; interruptions and short transfers are allowed. *)
Definition error_free (sched : list io_outcome) : bool := forallb (λ o, negb (is_io_error o)) sched.

(** ** Writing

    [while (done < n) { w = ::write(fd, data + done, n - done); ... }]: the
    bytes that reach the file, and the error that ended the loop, if any. *)
Fixpoint write_loop (sched : list io_outcome) (data : bytes) : bytes * option bytes :=
  match data, sched with
  | [], _ => ([], None)
  | _, [] => (data, None)
  | _, IoEintr :: sched => write_loop sched data
  | _, IoError e :: _ => ([], Some e)
  | _, IoBytes n :: sched =>
      let w := Z.max 0 (Z.min n (len data)) in
      let '(out, err) := write_loop sched (at_off w data) in
      (slice 0 w data ++ out, err)
  end.

(** ** Reading

    A successful [::read] of [count] bytes from a regular file returns zero
    bytes only at the end of the file. *)
Definition read_amount (n count : Z) (rest : bytes) : Z :=
  Z.min (Z.min count (len rest)) (Z.max 1 n).

(** The loop that fills a buffer of [count] bytes: how it ended, what was
    read, the rest of the file, the outcomes left. *)
Inductive read_end := ReadFull | ReadEof | ReadError.

Record read_result := mkRead {
  rd_end : read_end; rd_data : bytes; rd_rest : bytes; rd_sched : list io_outcome
}.

Fixpoint read_fill (sched : list io_outcome) (count : Z) (rest acc : bytes) : read_result :=
  if count <=? 0 then mkRead ReadFull acc rest sched
  else
    match sched with
    | [] =>
        let got := Z.min count (len rest) in
        mkRead (if got <? count then ReadEof else ReadFull)
          (acc ++ slice 0 got rest) (at_off got rest) []
    | IoEintr :: sched => read_fill sched count rest acc
    | IoError _ :: sched => mkRead ReadError acc rest sched
    | IoBytes n :: sched =>
        let got := read_amount n count rest in
        if got =? 0 then mkRead ReadEof acc rest sched
        else read_fill sched (count - got) (at_off got rest) (acc ++ slice 0 got rest)
    end.

(** ** fs_util.cpp *)

(** The files of the database by path, and the calls that can fail. *)
Abbreviation files := (gmap bytes bytes).

Definition slash : byte := Init.Byte.x2f.

(** [path.rfind('/')] *)
Fixpoint rfind (c : byte) (s : bytes) : option nat :=
  match s with
  | [] => None
  | x :: s =>
      match rfind c s with
      | Some i => Some (S i)
      | None => if decide (x = c) then Some 0%nat else None
      end
  end.

Definition ParentDir (path : bytes) : bytes :=
  match rfind slash path with
  | None => lit "."
  | Some O => lit "/"
  | Some i => take i path
  end.

(** [dir_open] and [dir_sync] are the errors of [::open] and [::fsync] on the
    directory. *)
Definition SyncDir (dir_open dir_sync : option bytes) (dir : bytes) : Status :=
  match dir_open with
  | Some e => IOError (lit "cannot open directory " ++ dir ++ lit ": " ++ e)
  | None =>
      match dir_sync with
      | Some e => IOError (lit "cannot fsync directory " ++ dir ++ lit ": " ++ e)
      | None => Ok
      end
  end.

Record write_env := mkWriteEnv {
  we_open : option bytes;
  we_writes : list io_outcome;
  we_fsync : option bytes;
  we_dir_open : option bytes;
  we_dir_sync : option bytes
}.

(** [O_CREAT | O_TRUNC] empties the file before anything is written. *)
Definition WriteFileDurable (env : write_env) (fs : files) (path data : bytes) : Status * files :=
  match we_open env with
  | Some e => (IOError (lit "cannot create " ++ path ++ lit ": " ++ e), fs)
  | None =>
      let '(out, err) := write_loop (we_writes env) data in
      let fs := <[path := out]> fs in
      match err with
      | Some e => (IOError (lit "write to " ++ path ++ lit " failed: " ++ e), fs)
      | None =>
          match we_fsync env with
          | Some e => (IOError (lit "fsync " ++ path ++ lit " failed: " ++ e), fs)
          | None => (SyncDir (we_dir_open env) (we_dir_sync env) (ParentDir path), fs)
          end
      end
  end.

(** The loop of [ReadFileToString] with its 64 KiB buffer. *)
Fixpoint read_to_end (fuel : nat) (sched : list io_outcome) (rest out : bytes) : option (bytes * option bytes) :=
  match fuel with
  | O => None
  | S fuel =>
      match sched with
      | IoEintr :: sched => read_to_end fuel sched rest out
      | IoError e :: _ => Some (out, Some e)
      | _ =>
          let got := read_amount (match sched with IoBytes n :: _ => n | _ => 65536 end) 65536 rest in
          if got =? 0 then Some (out, None)
          else read_to_end fuel (tail sched) (at_off got rest) (out ++ slice 0 got rest)
      end
  end.

(** [*out] and the status; [None] only if the fuel is too small.  Every
    iteration uses up an outcome or a byte, except the last. *)
Definition ReadFileToString (sched : list io_outcome) (fs : files) (path open_err : bytes)
    (out : bytes) : option (bytes * Status) :=
  match fs !! path with
  | None => Some (out, IOError (lit "cannot open " ++ path ++ lit ": " ++ open_err))
  | Some data =>
      '(out, err) ← read_to_end (S (length sched + length data)) sched data [];
      Some (out, match err with
                 | None => Ok
                 | Some e => IOError (lit "read " ++ path ++ lit " failed: " ++ e)
                 end)
  end.

(** ** The loops do what the caller asked *)

(** A prefix of the data reaches the file, all of it exactly when no error
    ended the loop. *)
Lemma write_loop_spec sched data :
  ∃ rest, data = (write_loop sched data).1 ++ rest ∧
          ((write_loop sched data).2 = None → rest = []).
Proof.
  revert data. induction sched as [|o sched IH]; intros data; destruct data as [|x data];
    cbn [write_loop]; try (exists []; by rewrite ?app_nil_r).
  destruct o as [n| |e]; [|by apply IH|by exists (x :: data)].
  set (d := x :: data). set (w := Z.max 0 (Z.min n (len d))).
  destruct (IH (at_off w d)) as (rest & Hd & Hr).
  destruct (write_loop sched (at_off w d)) as [out err] eqn:E. simpl in *.
  exists rest. split; [|done]. rewrite <- app_assoc, <- Hd. apply slice_split.
  pose_len_nonneg. lia.
Qed.

Lemma write_loop_error_free sched data :
  error_free sched = true → write_loop sched data = (data, None).
Proof.
  revert data. induction sched as [|o sched IH]; intros data He; destruct data as [|x data]; try done.
  simpl in He. apply andb_true_iff in He as [Ho He].
  destruct o as [n| |e]; [|by apply IH|done]. cbn [write_loop].
  rewrite IH by done. rewrite <- slice_split; [done|]. pose_len_nonneg. lia.
Qed.

Lemma read_amount_range n count rest :
  0 ≤ count → 0 ≤ read_amount n count rest ≤ Z.min count (len rest) ∧
  (0 < count → rest ≠ [] → 0 < read_amount n count rest).
Proof.
  intros. unfold read_amount. split; [slia|]. intros. destruct rest; [done|]. slia.
Qed.

(** Without errors the fill loop reads as much as there is, however the
    kernel splits it. *)
Lemma read_fill_spec sched count rest acc :
  0 ≤ count → error_free sched = true →
  ∃ sched', read_fill sched count rest acc
    = mkRead (if len rest <? count then ReadEof else ReadFull) (acc ++ slice 0 count rest)
        (at_off (Z.min count (len rest)) rest) sched' ∧ error_free sched' = true.
Proof.
  revert count rest acc. induction sched as [|o sched IH]; intros count rest acc Hc He;
    cbn [read_fill]; destruct (Z.leb_spec count 0) as [Hz|Hz];
    try (assert (count = 0) as -> by lia; eexists; split; [|done];
         rewrite slice_empty, app_nil_r, (proj2 (Z.ltb_ge _ _)) by slia;
         by replace (Z.min 0 (len rest)) with 0 by slia).
  - exists []. split; [|done]. rewrite (slice_min 0 count). f_equal.
    destruct (Z.ltb_spec (len rest) count), (Z.ltb_spec (Z.min count (len rest)) count); lia || done.
  - simpl in He. apply andb_true_iff in He as [Ho He]. destruct o as [n| |e]; [|by apply IH|done].
    pose proof (read_amount_range n count rest Hc) as [Hg Hpos].
    destruct (Z.eqb_spec (read_amount n count rest) 0) as [E|E].
    + destruct rest as [|x rest]; [|specialize (Hpos Hz ltac:(done)); lia].
      exists sched. split; [|done]. unfold slice. rewrite drop_nil, take_nil, app_nil_r.
      rewrite (proj2 (Z.ltb_lt _ _)) by done. f_equal. by rewrite Z.min_r.
    + set (g := read_amount n count rest) in *.
      destruct (IH (count - g) (at_off g rest) (acc ++ slice 0 g rest)) as (sched' & -> & ?);
        [lia|done|]. exists sched'. split; [|done].
      rewrite len_at_off by lia. f_equal.
      * destruct (Z.ltb_spec (len rest - g) (count - g)), (Z.ltb_spec (len rest) count); lia || done.
      * rewrite <- app_assoc. f_equal. by apply slice_join; lia.
      * rewrite at_off_at_off by lia. f_equal. lia.
Qed.

Lemma read_to_end_spec fuel sched rest out :
  error_free sched = true → (length sched + length rest < fuel)%nat →
  read_to_end fuel sched rest out = Some (out ++ rest, None).
Proof.
  revert sched rest out. induction fuel as [|fuel IH]; intros sched rest out He Hf; [lia|].
  assert (∀ n sched', error_free sched' = true →
    (length sched' + length rest ≤ fuel)%nat →
    (if read_amount n 65536 rest =? 0 then Some (out, None)
     else read_to_end fuel sched' (at_off (read_amount n 65536 rest) rest)
            (out ++ slice 0 (read_amount n 65536 rest) rest)) = Some (out ++ rest, None)) as Hstep.
  { intros n sched' He' Hf'. destruct (read_amount_range n 65536 rest) as [Hg Hpos]; [lia|].
    destruct (Z.eqb_spec (read_amount n 65536 rest) 0) as [E|E].
    - destruct rest; [by rewrite app_nil_r|]. specialize (Hpos ltac:(lia) ltac:(done)). lia.
    - rewrite IH; [|done|].
      + rewrite <- app_assoc, <- slice_split by lia. done.
      + unfold at_off. rewrite length_drop. unfold len in Hg. lia. }
  destruct sched as [|[n| |e] sched]; cbn [read_to_end tail]; simpl in He, Hf.
  - apply Hstep; [done|simpl; lia].
  - apply Hstep; [done|lia].
  - apply IH; [done|lia].
  - done.
Qed.

Lemma WriteFileDurable_ok_aux env fs path data :
  ok (WriteFileDurable env fs path data).1 = true →
  (WriteFileDurable env fs path data).2 = <[path := data]> fs.
Proof.
  unfold WriteFileDurable. destruct (we_open env); [done|].
  destruct (write_loop_spec (we_writes env) data) as (rest & Hd & Hr).
  destruct (write_loop (we_writes env) data) as [out err]. simpl in *.
  destruct err; [done|]. rewrite Hr, app_nil_r in Hd by done. subst out.
  by destruct (we_fsync env).
Qed.

Lemma ReadFileToString_written sched fs path data open_err out :
  error_free sched = true → ReadFileToString sched (<[path := data]> fs) path open_err out = Some (data, Ok).
Proof.
  intros He. unfold ReadFileToString. rewrite lookup_insert_eq.
  by rewrite read_to_end_spec by (done || lia).
Qed.

(** With errors too: the loop ends, and what it returns without one is the
    whole file. *)
Lemma read_to_end_any fuel sched rest out :
  (length sched + length rest < fuel)%nat →
  ∃ o err, read_to_end fuel sched rest out = Some (o, err) ∧ (err = None → o = out ++ rest).
Proof.
  revert sched rest out. induction fuel as [|fuel IH]; intros sched rest out Hf; [lia|].
  assert (∀ n sched', (length sched' + length rest ≤ fuel)%nat →
    ∃ o err, (if read_amount n 65536 rest =? 0 then Some (out, None)
     else read_to_end fuel sched' (at_off (read_amount n 65536 rest) rest)
            (out ++ slice 0 (read_amount n 65536 rest) rest)) = Some (o, err) ∧ (err = None → o = out ++ rest)) as Hstep.
  { intros n sched' Hf'. destruct (read_amount_range n 65536 rest) as [Hg Hpos]; [lia|].
    destruct (Z.eqb_spec (read_amount n 65536 rest) 0) as [E|E].
    - exists out, None. split; [done|]. intros _. destruct rest; [by rewrite app_nil_r|].
      specialize (Hpos ltac:(lia) ltac:(done)). lia.
    - destruct (IH sched' (at_off (read_amount n 65536 rest) rest) (out ++ slice 0 (read_amount n 65536 rest) rest))
        as (o & err & -> & Ho).
      + unfold at_off. rewrite length_drop. unfold len in Hg. lia.
      + exists o, err. split; [done|]. intros He. rewrite (Ho He), <- app_assoc, <- slice_split by lia. done. }
  destruct sched as [|[n| |e] sched]; cbn [read_to_end tail]; simpl in Hf.
  - apply Hstep. simpl. lia.
  - apply Hstep. lia.
  - apply IH. lia.
  - by exists out, (Some e).
Qed.

Lemma ReadFileToString_any sched fs path data open_err out :
  fs !! path = Some data →
  ∃ o s, ReadFileToString sched fs path open_err out = Some (o, s) ∧ (ok s = true → o = data ∧ s = Ok).
Proof.
  intros Hp. unfold ReadFileToString. rewrite Hp.
  destruct (read_to_end_any (S (length sched + length data)) sched data []) as (o & err & -> & Ho); [lia|].
  cbn [mbind option_bind]. eexists _, _. split; [done|]. destruct err; [done|]. intros _. by rewrite Ho.
Qed.

(** C20: a durably written file reads back: when [WriteFileDurable] reports
    success, however its writes were split or interrupted, the file holds
    exactly the data, no other file changed, and [ReadFileToString] returns
    the data for every sequence of short or interrupted reads. *)
Theorem file_roundtrip (env : write_env) (fs : files) (path data : bytes)
    (sched : list io_outcome) (open_err out : bytes) :
  ok (WriteFileDurable env fs path data).1 = true → error_free sched = true →
  let fs' := (WriteFileDurable env fs path data).2 in
  ReadFileToString sched fs' path open_err out = Some (data, Ok) ∧
  (∀ other, other ≠ path → fs' !! other = fs !! other).
Proof.
  intros Hok He fs'. unfold fs'. rewrite WriteFileDurable_ok_aux by done. split.
  - by apply ReadFileToString_written.
  - intros other Hne. by rewrite lookup_insert_ne.
Qed.

Lemma file_roundtrip_witness :
  let env := mkWriteEnv None [IoBytes 1; IoEintr; IoBytes 0] None None None in
  let fs' := (WriteFileDurable env ∅ (lit "d/f") (lit "hello")).2 in
  ReadFileToString [IoEintr; IoBytes 2] fs' (lit "d/f") [] [] = Some (lit "hello", Ok) ∧
  (∀ other, other ≠ lit "d/f" → fs' !! other = (∅ : files) !! other).
Proof.
  apply (file_roundtrip (mkWriteEnv None [IoBytes 1; IoEintr; IoBytes 0] None None None) ∅
           (lit "d/f") (lit "hello") [IoEintr; IoBytes 2] [] []); vm_compute; reflexivity.
Defined.
