(* ===== verification/Encoding.v ===== *)
(** * Little-endian fixed-width integers

    Models include/bedrockkv/encoding.h.  A [const char*] argument is the
    byte string it points into; reading past its end is [None]. *)

From S2P Require Import Prelude.

Definition PutFixed32 (v : Z) : bytes :=
  [ to_char (Z.land v 0xff);
    to_char (Z.land (Z.shiftr v 8) 0xff);
    to_char (Z.land (Z.shiftr v 16) 0xff);
    to_char (Z.land (Z.shiftr v 24) 0xff) ].

(** The loop of [PutFixed64] over i = 0..7. *)
Definition PutFixed64 (v : Z) : bytes :=
  (λ i, to_char (Z.land (Z.shiftr v (8 * i)) 0xff)) <$> [0;1;2;3;4;5;6;7].

Definition GetFixed32 (src : bytes) : option Z :=
  match src with
  | b0 :: b1 :: b2 :: b3 :: _ =>
      Some (Z.lor (Z.lor (Z.lor (byte_val b0)
                                (u32 (Z.shiftl (byte_val b1) 8)))
                         (u32 (Z.shiftl (byte_val b2) 16)))
                  (u32 (Z.shiftl (byte_val b3) 24)))
  | _ => None
  end.

(** The loop [v = (v << 8) | src[i]] for i = 7 down to 0. *)
Definition GetFixed64 (src : bytes) : option Z :=
  match src with
  | b0 :: b1 :: b2 :: b3 :: b4 :: b5 :: b6 :: b7 :: _ =>
      Some (foldl (λ v b, Z.lor (u64 (Z.shiftl v 8)) (byte_val b)) 0
                  [b7; b6; b5; b4; b3; b2; b1; b0])
  | _ => None
  end.

(** ** Arithmetic reading of the codecs *)

Lemma lor_shiftl_add a b k :
  0 ≤ k → 0 ≤ a < 2 ^ k → Z.lor a (Z.shiftl b k) = a + 2 ^ k * b.
Proof.
  intros Hk Ha. rewrite Z.shiftl_mul_pow2 by done. rewrite (Z.mul_comm b).
  apply Z.bits_inj'. intros n Hn. rewrite Z.lor_spec.
  rewrite (Z.mul_comm (2 ^ k)), <- Z.shiftl_mul_pow2 by done.
  destruct (Z.lt_ge_cases n k).
  - rewrite Z.shiftl_spec_low by done. rewrite orb_false_r.
    rewrite <- (Z.mod_pow2_bits_low (a + _) k n) by done.
    rewrite Z.shiftl_mul_pow2, Z_mod_plus_full, Z.mod_small by done. done.
  - rewrite Z.shiftl_spec by done.
    replace (Z.testbit a n) with false.
    2:{ symmetry. rewrite <- (Z.mod_small a (2 ^ k)) by done.
        apply Z.mod_pow2_bits_high. lia. }
    simpl. replace n with ((n - k) + k) at 2 by lia.
    rewrite <- Z.div_pow2_bits by lia.
    rewrite Z.shiftl_mul_pow2, Z_div_plus_full, Z.div_small by lia. done.
Qed.

Lemma land_255 v : Z.land v 0xff = v mod 256.
Proof. exact (Z.land_ones v 8 ltac:(lia)). Qed.

Definition le_val (bs : bytes) : Z := foldr (λ b v, byte_val b + 256 * v) 0 bs.

Lemma byte_val_char v k :
  0 ≤ k → byte_val (to_char (Z.land (Z.shiftr v k) 0xff)) = (v / 2 ^ k) mod 256.
Proof.
  intros. rewrite byte_val_to_char, land_255, Z.mod_mod by lia.
  by rewrite Z.shiftr_div_pow2.
Qed.

Lemma GetFixed32_le b0 b1 b2 b3 rest :
  GetFixed32 (b0 :: b1 :: b2 :: b3 :: rest) = Some (le_val [b0; b1; b2; b3]).
Proof.
  simpl. f_equal. unfold u32.
  pose proof (byte_val_range b0). pose proof (byte_val_range b1).
  pose proof (byte_val_range b2). pose proof (byte_val_range b3).
  rewrite !(Z.mod_small (Z.shiftl _ _)) by (rewrite Z.shiftl_mul_pow2 by lia; lia).
  rewrite (lor_shiftl_add (byte_val b0)) by lia.
  rewrite (lor_shiftl_add _ (byte_val b2)) by lia.
  rewrite (lor_shiftl_add _ (byte_val b3)) by lia. lia.
Qed.

Lemma GetFixed64_le b0 b1 b2 b3 b4 b5 b6 b7 rest :
  GetFixed64 (b0 :: b1 :: b2 :: b3 :: b4 :: b5 :: b6 :: b7 :: rest)
  = Some (le_val [b0; b1; b2; b3; b4; b5; b6; b7]).
Proof.
  assert (∀ v b, 0 ≤ v < 2 ^ 56 →
    Z.lor (u64 (Z.shiftl v 8)) (byte_val b) = byte_val b + 256 * v) as step.
  { intros v b Hv. pose proof (byte_val_range b). unfold u64.
    rewrite Z.mod_small by (rewrite Z.shiftl_mul_pow2 by lia; lia).
    rewrite Z.lor_comm, lor_shiftl_add by lia. lia. }
  cbn [GetFixed64 foldl]. f_equal.
  pose proof (byte_val_range b0). pose proof (byte_val_range b1).
  pose proof (byte_val_range b2). pose proof (byte_val_range b3).
  pose proof (byte_val_range b4). pose proof (byte_val_range b5).
  pose proof (byte_val_range b6). pose proof (byte_val_range b7).
  repeat match goal with
  | |- context [Z.lor (u64 (Z.shiftl ?v 8)) (byte_val ?b)] =>
      lazymatch v with context [u64] => fail | _ => rewrite (step v b) by lia end
  end.
  cbn [le_val foldr]. lia.
Qed.

Lemma le_val_PutFixed32 v : le_val (PutFixed32 v) = u32 v.
Proof.
  cbn [PutFixed32 le_val foldr]. rewrite !byte_val_char by lia.
  rewrite byte_val_to_char, land_255. unfold u32.
  Z.div_mod_to_equations. lia.
Qed.

Lemma le_val_PutFixed64 v : le_val (PutFixed64 v) = u64 v.
Proof.
  unfold PutFixed64. cbn -[byte_val to_char Z.land Z.shiftr Z.mul].
  rewrite !byte_val_char by lia. unfold u64.
  Z.div_mod_to_equations. lia.
Qed.

Lemma le_val_range bs : 0 ≤ le_val bs < 256 ^ len bs.
Proof.
  induction bs as [|b bs IH]; [cbv; by split|]. rewrite len_cons.
  pose proof (byte_val_range b). rewrite Z.pow_add_r by (pose_len_nonneg; lia).
  cbn [le_val foldr]. fold (le_val bs). lia.
Qed.

Lemma le_val_inj bs cs : length bs = length cs → le_val bs = le_val cs → bs = cs.
Proof.
  revert cs. induction bs as [|b bs IH]; intros [|c cs]; simpl; try done.
  intros [= E] H. fold (le_val bs) (le_val cs) in H.
  pose proof (byte_val_range b). pose proof (byte_val_range c).
  assert (byte_val b = byte_val c) as Eb%(inj byte_val) by lia.
  f_equal; [done|]. apply IH; [done|lia].
Qed.

(** ** Round trips *)

Lemma length_PutFixed32 v : length (PutFixed32 v) = 4%nat.
Proof. reflexivity. Qed.
Lemma length_PutFixed64 v : length (PutFixed64 v) = 8%nat.
Proof. reflexivity. Qed.
Lemma len_PutFixed32 v : len (PutFixed32 v) = 4.
Proof. reflexivity. Qed.
Lemma len_PutFixed64 v : len (PutFixed64 v) = 8.
Proof. reflexivity. Qed.
#[export] Hint Rewrite len_PutFixed32 len_PutFixed64 : len.

Lemma GetFixed32_Put v rest : GetFixed32 (PutFixed32 v ++ rest) = Some (u32 v).
Proof.
  rewrite <- le_val_PutFixed32. unfold PutFixed32. cbn [app]. apply GetFixed32_le.
Qed.

Lemma GetFixed64_Put v rest : GetFixed64 (PutFixed64 v ++ rest) = Some (u64 v).
Proof.
  rewrite <- le_val_PutFixed64. unfold PutFixed64. cbn [app fmap list_fmap].
  apply GetFixed64_le.
Qed.

(** A read depends on its four or eight bytes only. *)
Lemma GetFixed32_take src : GetFixed32 src = GetFixed32 (slice 0 4 src).
Proof. by destruct src as [|? [|? [|? [|? ?]]]]. Qed.
Lemma GetFixed64_take src : GetFixed64 src = GetFixed64 (slice 0 8 src).
Proof. by destruct src as [|? [|? [|? [|? [|? [|? [|? [|? ?]]]]]]]]. Qed.

Lemma GetFixed32_slice off n p (l : bytes) :
  0 ≤ off → 0 ≤ p → p + 4 ≤ n →
  GetFixed32 (at_off p (slice off n l)) = GetFixed32 (at_off (off + p) l).
Proof.
  intros. rewrite GetFixed32_take, (GetFixed32_take (at_off (off + p) l)). f_equal.
  rewrite !slice_at_off by lia. rewrite slice_slice by lia. f_equal; lia.
Qed.

Lemma GetFixed32_app off (l tail : bytes) v :
  GetFixed32 (at_off off l) = Some v → GetFixed32 (at_off off (l ++ tail)) = Some v.
Proof.
  unfold at_off. destruct (le_lt_dec (Z.to_nat off) (length l)).
  - rewrite drop_app_le by lia. by destruct (drop (Z.to_nat off) l) as [|? [|? [|? [|? ?]]]].
  - by rewrite (drop_ge l) by lia.
Qed.

(** Reading element [i] of an array of fixed32 values. *)
Lemma GetFixed32_array (pre : bytes) (xs : list Z) (i : nat) x rest :
  xs !! i = Some x →
  GetFixed32 (at_off (len pre + Z.of_nat i * 4) (pre ++ concat (PutFixed32 <$> xs) ++ rest))
  = Some (u32 x).
Proof.
  intros H. rewrite at_off_app_r by lia.
  replace (len pre + Z.of_nat i * 4 - len pre) with (Z.of_nat i * 4) by lia.
  revert i H. induction xs as [|y xs IH]; intros [|i] H; try done; rewrite fmap_cons; cbn [concat];
    rewrite <- app_assoc.
  - injection H as ->. rewrite at_off_0. apply GetFixed32_Put.
  - rewrite at_off_app_r by slia. rewrite <- (IH i H). do 2 f_equal. slia.
Qed.

Lemma len_fixed32_array (xs : list Z) : len (concat (PutFixed32 <$> xs)) = len xs * 4.
Proof.
  induction xs as [|x xs IH]; [done|]. rewrite fmap_cons. cbn [concat].
  rewrite len_app, IH. slia.
Qed.

Lemma GetFixed32_is_Some src : is_Some (GetFixed32 src) ↔ 4 ≤ len src.
Proof.
  unfold len. destruct src as [|? [|? [|? [|? ?]]]]; simpl; split; intros; try lia;
    try (by eexists); by destruct H.
Qed.

Lemma GetFixed64_is_Some src : is_Some (GetFixed64 src) ↔ 8 ≤ len src.
Proof.
  unfold len. destruct src as [|? [|? [|? [|? [|? [|? [|? [|? ?]]]]]]]]; cbn [GetFixed64 length];
    split; intros; try lia; try (by eexists); by destruct H.
Qed.

(** Whatever is read re-encodes to the bytes it was read from. *)
Lemma GetFixed32_inv src v :
  GetFixed32 src = Some v → 0 ≤ v < 2 ^ 32 ∧ take 4 src = PutFixed32 v.
Proof.
  intros H. assert (4 ≤ len src) as L by (apply GetFixed32_is_Some; by eexists).
  destruct src as [|b0 [|b1 [|b2 [|b3 rest]]]]; try (unfold len in L; simpl in L; lia).
  rewrite GetFixed32_le in H; injection H as <-. clear L.
  split; [exact (le_val_range [b0;b1;b2;b3])|].
  cbn [take]. apply le_val_inj; [reflexivity|]. rewrite le_val_PutFixed32.
  symmetry; apply Z.mod_small, (le_val_range [b0;b1;b2;b3]).
Qed.

Lemma GetFixed64_inv src v :
  GetFixed64 src = Some v → 0 ≤ v < 2 ^ 64 ∧ take 8 src = PutFixed64 v.
Proof.
  intros H. assert (8 ≤ len src) as L by (apply GetFixed64_is_Some; by eexists).
  destruct src as [|b0 [|b1 [|b2 [|b3 [|b4 [|b5 [|b6 [|b7 rest]]]]]]]];
    try (unfold len in L; simpl in L; lia).
  rewrite GetFixed64_le in H; injection H as <-. clear L.
  split; [exact (le_val_range [b0;b1;b2;b3;b4;b5;b6;b7])|].
  cbn [take]. apply le_val_inj; [reflexivity|]. rewrite le_val_PutFixed64.
  symmetry; apply Z.mod_small, (le_val_range [b0;b1;b2;b3;b4;b5;b6;b7]).
Qed.
