(* ===== verification/Crc32.v ===== *)
(** * CRC-32 (reflected IEEE polynomial)

    Models src/crc32.cpp: the lookup table built at compile time and the
    streaming byte loop.  [Crc32_bitwise] is the polynomial division the table
    implements, one bit at a time; the two are proved equal.  The last part
    shows which damage the checksum is guaranteed to detect. *)

From S2P Require Import Prelude.

(** One iteration of the inner loop of the [Crc32Table] constructor. *)
Definition crc_bit (c : Z) : Z :=
  if Z.land c 1 =? 1 then Z.lxor 0xEDB88320 (Z.shiftr c 1) else Z.shiftr c 1.

(** [values[i]] after the eight iterations for [bit]. *)
Definition crc_entry (i : Z) : Z := Nat.iter 8 crc_bit i.

Definition Crc32Table : list Z := crc_entry <$> seqZ 0 256.

(** [constexpr Crc32Table kTable{}] *)
Definition kTable : list Z := Eval vm_compute in Crc32Table.

(** One iteration of the byte loop. *)
Definition crc_step (c : Z) (p : byte) : Z :=
  Z.lxor (nth (Z.to_nat (Z.land (Z.lxor c (byte_val p)) 0xff)) kTable 0) (Z.shiftr c 8).

Definition Crc32 (data : bytes) (crc : Z) : Z :=
  Z.lxor (foldl crc_step (Z.lxor crc 0xFFFFFFFF) data) 0xFFFFFFFF.

(** Reference: the same register advanced one bit at a time. *)
Definition Crc32_bitwise (data : bytes) (crc : Z) : Z :=
  Z.lxor (foldl (λ c p, Nat.iter 8 crc_bit (Z.lxor c (byte_val p)))
                (Z.lxor crc 0xFFFFFFFF) data) 0xFFFFFFFF.

(** ** Bits *)

Lemma lxor_range n a b :
  0 ≤ n → 0 ≤ a < 2 ^ n → 0 ≤ b < 2 ^ n → 0 ≤ Z.lxor a b < 2 ^ n.
Proof.
  intros Hn Ha Hb. replace (Z.lxor a b) with (Z.lxor a b mod 2 ^ n).
  { apply Z.mod_pos_bound. lia. }
  rewrite <- (Z.mod_small a (2 ^ n)), <- (Z.mod_small b (2 ^ n)) by done.
  apply Z.bits_inj'. intros k Hk. destruct (Z.lt_ge_cases k n).
  - by rewrite Z.mod_pow2_bits_low.
  - rewrite Z.mod_pow2_bits_high by lia. rewrite Z.lxor_spec, !Z.mod_pow2_bits_high by lia. done.
Qed.

Lemma shiftr_range n a k : 0 ≤ k → 0 ≤ a < 2 ^ n → 0 ≤ Z.shiftr a k < 2 ^ n.
Proof.
  intros Hk Ha. rewrite Z.shiftr_div_pow2 by done.
  assert (0 < 2 ^ k) by lia. split; [apply Z.div_pos; lia|].
  apply Z.le_lt_trans with a; [|lia]. apply Z.div_le_upper_bound; nia.
Qed.

Lemma lxor_lxor_r a b : Z.lxor (Z.lxor a b) b = a.
Proof. by rewrite Z.lxor_assoc, Z.lxor_nilpotent, Z.lxor_0_r. Qed.

Lemma land_1_odd c : (Z.land c 1 =? 1) = Z.odd c.
Proof.
  change 1 with (Z.ones 1). rewrite Z.land_ones by lia. change (2 ^ 1) with 2.
  rewrite Zmod_odd. by destruct (Z.odd c).
Qed.

Lemma odd_lxor x y : Z.odd (Z.lxor x y) = xorb (Z.odd x) (Z.odd y).
Proof. rewrite <- !Z.bit0_odd. apply Z.lxor_spec. Qed.

(** ** The table computes eight steps of the division *)

Lemma crc_bit_lxor x y : crc_bit (Z.lxor x y) = Z.lxor (crc_bit x) (crc_bit y).
Proof.
  unfold crc_bit. rewrite !land_1_odd, odd_lxor, Z.shiftr_lxor.
  set (P := 0xEDB88320). destruct (Z.odd x), (Z.odd y); simpl xorb; cbv iota.
  - rewrite Z.lxor_assoc, (Z.lxor_comm _ (Z.lxor P _)), !Z.lxor_assoc.
    rewrite (Z.lxor_comm (Z.shiftr y 1)), <- !Z.lxor_assoc, Z.lxor_nilpotent, Z.lxor_0_l. done.
  - by rewrite Z.lxor_assoc.
  - by rewrite <- !Z.lxor_assoc, (Z.lxor_comm P).
  - done.
Qed.

Lemma crc_bits_lxor n x y :
  Nat.iter n crc_bit (Z.lxor x y) = Z.lxor (Nat.iter n crc_bit x) (Nat.iter n crc_bit y).
Proof. induction n as [|n IH]; [done|]. rewrite !Nat.iter_succ, IH. apply crc_bit_lxor. Qed.

Lemma crc_bits_shiftl n y : Nat.iter n crc_bit (Z.shiftl y (Z.of_nat n)) = y.
Proof.
  revert y. induction n as [|n IH]; intros y; [simpl; apply Z.shiftl_0_r|].
  rewrite Nat.iter_succ_r. rewrite <- (IH y) at 2. f_equal.
  unfold crc_bit. rewrite land_1_odd, <- Z.bit0_odd, Z.shiftl_spec_low by lia.
  rewrite Z.shiftr_shiftl_l by lia. f_equal. lia.
Qed.

Lemma split_low_byte x : x = Z.lxor (Z.land x 0xff) (Z.shiftl (Z.shiftr x 8) 8).
Proof.
  apply Z.bits_inj'. intros n Hn. change 0xff with (Z.ones 8).
  rewrite Z.lxor_spec, Z.land_spec.
  destruct (Z.lt_ge_cases n 8).
  - rewrite Z.ones_spec_low, Z.shiftl_spec_low by lia. btauto.
  - rewrite Z.ones_spec_high, Z.shiftl_spec, Z.shiftr_spec by lia.
    rewrite Z.sub_add. btauto.
Qed.

Lemma kTable_spec i : 0 ≤ i < 256 → nth (Z.to_nat i) kTable 0 = crc_entry i.
Proof.
  intros Hi.
  replace i with (Z.of_nat (Z.to_nat i)) at 2 by lia.
  assert (Z.to_nat i < 256)%nat as Hn by lia. revert Hn. generalize (Z.to_nat i). clear.
  assert (forallb (λ n, nth n kTable 0 =? crc_entry (Z.of_nat n)) (seq 0 256) = true) as H
    by (vm_compute; reflexivity).
  intros n Hn. rewrite forallb_forall in H. apply Z.eqb_eq, H, in_seq. lia.
Qed.

Lemma land_255_range x : 0 ≤ Z.land x 0xff < 256.
Proof. change 0xff with (Z.ones 8). rewrite Z.land_ones by lia. by apply Z.mod_pos_bound. Qed.

Lemma shiftr_byte_val b : Z.shiftr (byte_val b) 8 = 0.
Proof. rewrite Z.shiftr_div_pow2 by lia. apply Z.div_small, byte_val_range. Qed.

Lemma crc_step_bits c p : crc_step c p = Nat.iter 8 crc_bit (Z.lxor c (byte_val p)).
Proof.
  unfold crc_step. rewrite kTable_spec by apply land_255_range.
  rewrite (split_low_byte (Z.lxor c (byte_val p))) at 2.
  rewrite crc_bits_lxor. unfold crc_entry. f_equal.
  rewrite (crc_bits_shiftl 8), Z.shiftr_lxor, shiftr_byte_val. by rewrite Z.lxor_0_r.
Qed.

(** ** Range *)

Lemma crc_bit_range c : 0 ≤ c < 2 ^ 32 → 0 ≤ crc_bit c < 2 ^ 32.
Proof.
  intros Hc. pose proof (shiftr_range 32 c 1 ltac:(lia) Hc). unfold crc_bit.
  case_match; [apply lxor_range|]; lia.
Qed.

Lemma crc_step_range c p : 0 ≤ c < 2 ^ 32 → 0 ≤ crc_step c p < 2 ^ 32.
Proof.
  intros Hc. rewrite crc_step_bits. pose proof (byte_val_range p).
  assert (∀ n x, 0 ≤ x < 2 ^ 32 → 0 ≤ Nat.iter n crc_bit x < 2 ^ 32) as H'.
  { intros n x Hx. induction n; [done|]. rewrite Nat.iter_succ. by apply crc_bit_range. }
  apply H', lxor_range; lia.
Qed.

Lemma crc_fold_range data c :
  0 ≤ c < 2 ^ 32 → 0 ≤ foldl crc_step c data < 2 ^ 32.
Proof.
  revert c. induction data as [|b data IH]; intros c Hc; simpl; [done|].
  by apply IH, crc_step_range.
Qed.

Lemma Crc32_range_aux data crc : 0 ≤ crc < 2 ^ 32 → 0 ≤ Crc32 data crc < 2 ^ 32.
Proof.
  intros Hc. unfold Crc32. apply lxor_range; [lia| |lia].
  apply crc_fold_range, lxor_range; lia.
Qed.

(** ** Streaming *)

Lemma Crc32_app a b crc : Crc32 (a ++ b) crc = Crc32 b (Crc32 a crc).
Proof. unfold Crc32. by rewrite foldl_app, lxor_lxor_r. Qed.

(** ** Error detection *)

Lemma kTable_top_nodup : NoDup ((λ v, Z.shiftr v 24) <$> kTable).
Proof. apply (bool_decide_unpack _). vm_compute. exact I. Qed.

Lemma kTable_top_inj i j :
  0 ≤ i < 256 → 0 ≤ j < 256 →
  Z.shiftr (nth (Z.to_nat i) kTable 0) 24 = Z.shiftr (nth (Z.to_nat j) kTable 0) 24 → i = j.
Proof.
  intros Hi Hj E. pose proof kTable_top_nodup as ND.
  assert (length kTable = 256%nat) as HL by reflexivity.
  assert (∀ k, 0 ≤ k < 256 → ((λ v, Z.shiftr v 24) <$> kTable) !! Z.to_nat k
            = Some (Z.shiftr (nth (Z.to_nat k) kTable 0) 24)) as HK.
  { intros k Hk. rewrite list_lookup_fmap.
    destruct (lookup_lt_is_Some_2 kTable (Z.to_nat k)) as [x Hx]; [lia|].
    rewrite Hx. cbn [fmap option_fmap option_map]. do 2 f_equal.
    symmetry. by apply nth_lookup_Some. }
  pose proof (HK i Hi) as Ki. pose proof (HK j Hj) as Kj. rewrite E in Ki.
  pose proof (NoDup_lookup _ _ _ _ ND Ki Kj). lia.
Qed.

(** The register update determines both the register and the byte it
    started from, one given the other. *)
Lemma crc_step_index c p d q :
  0 ≤ c < 2 ^ 32 → 0 ≤ d < 2 ^ 32 → crc_step c p = crc_step d q →
  Z.land (Z.lxor c (byte_val p)) 0xff = Z.land (Z.lxor d (byte_val q)) 0xff
  ∧ Z.shiftr c 8 = Z.shiftr d 8.
Proof.
  intros Hc Hd E. unfold crc_step in E.
  set (i := Z.land (Z.lxor c (byte_val p)) 0xff) in *.
  set (j := Z.land (Z.lxor d (byte_val q)) 0xff) in *.
  assert (i = j) as Hij.
  { apply kTable_top_inj; [apply land_255_range..|].
    apply (f_equal (λ x, Z.shiftr x 24)) in E. rewrite !Z.shiftr_lxor in E.
    rewrite !Z.shiftr_shiftr in E by lia. change (8 + 24) with 32 in E.
    rewrite (Z.shiftr_div_pow2 c), (Z.shiftr_div_pow2 d), (Z.div_small c), (Z.div_small d) in E by lia.
    by rewrite !Z.lxor_0_r in E. }
  split; [done|]. rewrite Hij in E.
  apply (f_equal (Z.lxor (nth (Z.to_nat j) kTable 0))) in E.
  by rewrite <- !Z.lxor_assoc, !Z.lxor_nilpotent, !Z.lxor_0_l in E.
Qed.

Lemma land_lxor_byte_inj c p d q :
  Z.shiftr c 8 = Z.shiftr d 8 →
  Z.land (Z.lxor c (byte_val p)) 0xff = Z.land (Z.lxor d (byte_val q)) 0xff →
  Z.lxor c (byte_val p) = Z.lxor d (byte_val q).
Proof.
  intros Hs Hl. rewrite (split_low_byte (Z.lxor c _)), (split_low_byte (Z.lxor d _)), Hl.
  by rewrite !Z.shiftr_lxor, Hs, !shiftr_byte_val.
Qed.

Lemma crc_step_inj_register c d p :
  0 ≤ c < 2 ^ 32 → 0 ≤ d < 2 ^ 32 → crc_step c p = crc_step d p → c = d.
Proof.
  intros Hc Hd E. destruct (crc_step_index _ _ _ _ Hc Hd E) as [Hl Hs].
  pose proof (land_lxor_byte_inj _ _ _ _ Hs Hl) as H.
  by rewrite <- (lxor_lxor_r c (byte_val p)), H, lxor_lxor_r.
Qed.

Lemma crc_step_inj_byte c p q :
  0 ≤ c < 2 ^ 32 → crc_step c p = crc_step c q → p = q.
Proof.
  intros Hc E. destruct (crc_step_index _ _ _ _ Hc Hc E) as [Hl Hs].
  pose proof (land_lxor_byte_inj _ _ _ _ Hs Hl) as H.
  apply (inj byte_val). apply (f_equal (Z.lxor c)) in H.
  by rewrite <- !Z.lxor_assoc, Z.lxor_nilpotent, !Z.lxor_0_l in H.
Qed.

Lemma crc_fold_inj data c d :
  0 ≤ c < 2 ^ 32 → 0 ≤ d < 2 ^ 32 →
  foldl crc_step c data = foldl crc_step d data → c = d.
Proof.
  revert c d. induction data as [|b data IH]; intros c d Hc Hd; simpl; [done|].
  intros E. apply IH in E; [|by apply crc_step_range..].
  by apply crc_step_inj_register in E.
Qed.

Lemma Crc32_detects_aux pre x y post crc :
  0 ≤ crc < 2 ^ 32 → x ≠ y →
  Crc32 (pre ++ x :: post) crc ≠ Crc32 (pre ++ y :: post) crc.
Proof.
  intros Hc Hxy E. unfold Crc32 in E.
  apply (f_equal (λ z, Z.lxor z 0xFFFFFFFF)) in E. rewrite !lxor_lxor_r, !foldl_app in E.
  assert (0 ≤ Z.lxor crc 0xFFFFFFFF < 2 ^ 32) as H by (apply lxor_range; lia).
  pose proof (crc_fold_range pre _ H) as Hr. cbn [foldl] in E.
  apply crc_fold_inj in E; [|by apply crc_step_range..].
  by apply crc_step_inj_byte in E.
Qed.

(** ** Properties *)

(** C17: the table-driven loop of [Crc32] computes the CRC-32 polynomial
    division one bit at a time would compute, for every input and every seed. *)
Theorem Crc32_is_bitwise data crc : Crc32 data crc = Crc32_bitwise data crc.
Proof.
  unfold Crc32, Crc32_bitwise. f_equal. generalize (Z.lxor crc 0xFFFFFFFF).
  induction data as [|b data IH]; intros c; cbn [foldl]; [done|].
  by rewrite crc_step_bits, IH.
Qed.

(** Changing any one byte of the data, whatever its position and its new
    value, changes the checksum. *)
Theorem Crc32_detects_byte_change pre x y post crc :
  0 ≤ crc < 2 ^ 32 → x ≠ y →
  Crc32 (pre ++ x :: post) crc ≠ Crc32 (pre ++ y :: post) crc.
Proof. apply Crc32_detects_aux. Qed.

Lemma Crc32_detects_byte_change_witness :
  Crc32 ([Init.Byte.x61] ++ Init.Byte.x62 :: [Init.Byte.x63]) 0
  ≠ Crc32 ([Init.Byte.x61] ++ Init.Byte.x00 :: [Init.Byte.x63]) 0.
Proof. apply Crc32_detects_byte_change; [lia|discriminate]. Defined.

(** The check value of the IEEE CRC-32: "123456789". *)
Example Crc32_check_value :
  Crc32 (to_char <$> [49; 50; 51; 52; 53; 54; 55; 56; 57]) 0 = 0xCBF43926.
Proof. vm_compute. reflexivity. Qed.
