(* ===== verification/Log.v ===== *)
(** * The write-ahead log

    Models include/bedrockkv/log.h and src/log.cpp: [Writer] (EncodeRecord,
    WriteAll, AddRecord) and [Reader] (ReadPhysicalRecord, ReadRecord).  The
    reader works on one block at a time; it is shown to implement the relations
    [phys_rel] and [rec_rel], which read at an absolute offset of the whole
    file, for every way the kernel may split its reads.  The theorems about
    records, torn tails and repair are then about these relations. *)

From S2P Require Import Prelude Status FsUtil Encoding Crc32.

Module log.

Definition kBlockSize : Z := 32768.
Definition kHeaderSize : Z := 9.

Definition kZeroType : Z := 0.
Definition kFullType : Z := 1.
Definition kFirstType : Z := 2.
Definition kMiddleType : Z := 3.
Definition kLastType : Z := 4.

(** ** Writer *)

(** [Crc32(&type, 1)] continued over the fragment. *)
Definition record_crc (type : byte) (fragment : bytes) : Z :=
  Crc32 fragment (Crc32 [type] 0).

(** One iteration of the [do] loop appends the zero padding, if the block has
    no room for a header, and one physical record. *)
Fixpoint encode_loop (fuel : nat) (block_off : Z) (p : bytes) (begin : bool) : option bytes :=
  match fuel with
  | O => None
  | S fuel =>
      let leftover := kBlockSize - block_off in
      let '(pad, block_off) :=
        if leftover <? kHeaderSize then (replicate (Z.to_nat leftover) Init.Byte.x00, 0)
        else ([], block_off) in
      let avail := kBlockSize - block_off - kHeaderSize in
      let left := len p in
      let frag := if left <? avail then left else avail in
      let type :=
        if begin && (frag =? left) then kFullType
        else if begin then kFirstType
        else if frag =? left then kLastType
        else kMiddleType in
      let fragment := slice 0 frag p in
      let header := PutFixed32 (u32 frag) ++ PutFixed32 (record_crc (to_char type) fragment)
                      ++ [to_char type] in
      let left := left - frag in
      if 0 <? left then
        rest ← encode_loop fuel (block_off + kHeaderSize + frag) (at_off frag p) false;
        Some (pad ++ header ++ fragment ++ rest)
      else Some (pad ++ header ++ fragment)
  end.

(** Only the first record can carry an empty fragment of a non-empty payload,
    so the payload length plus two iterations are enough. *)
Definition EncodeRecord (payload : bytes) (absolute_offset : Z) : bytes :=
  default [] (encode_loop (length payload + 2) (absolute_offset mod kBlockSize) payload true).

(** [w_file] is the file behind [fd_], which is written at its end. *)
Record Writer := mkWriter { w_file : bytes; file_offset_ : Z }.

Definition WriteAll (sched : list io_outcome) (w : Writer) (data : bytes) : Status * Writer :=
  let '(out, err) := write_loop sched data in
  (match err with
   | None => Ok
   | Some e => IOError (lit "WAL write failed: " ++ e)
   end, mkWriter (w_file w ++ out) (file_offset_ w)).

Definition AddRecord (sched : list io_outcome) (w : Writer) (payload : bytes) : Status * Writer :=
  let buf := EncodeRecord payload (file_offset_ w) in
  let '(s, w) := WriteAll sched w buf in
  if ok s then (s, mkWriter (w_file w) (u64 (file_offset_ w + len buf))) else (s, w).

(** ** Reader *)

Record Reader := mkReader {
  fd_rest : bytes;                 (* what the next ::read returns *)
  fd_sched : list io_outcome;      (* how its reads will be split *)
  buffer_ : bytes;
  pos_ : Z;
  eof_ : bool;
  bytes_read_ : Z;
  last_good_end_ : Z;
  scratch_ : bytes
}.

Definition new_Reader (file : bytes) (sched : list io_outcome) : Reader :=
  mkReader file sched [] 0 false 0 0 [].

(** [Result] of the two reading functions, with what they return through
    their pointers. *)
Inductive PhysResult :=
  | PhysOk (fragment : bytes) (type end_offset : Z)
  | PhysEof
  | PhysCorruption.

Inductive Result :=
  | RecOk (payload : bytes)
  | RecEof
  | RecCorruption (corruption_offset : Z).

Definition set_pos (pos : Z) (r : Reader) : Reader :=
  mkReader (fd_rest r) (fd_sched r) (buffer_ r) pos (eof_ r) (bytes_read_ r)
    (last_good_end_ r) (scratch_ r).

Definition set_fd (rest : bytes) (sched : list io_outcome) (eof : bool) (r : Reader) : Reader :=
  mkReader rest sched (buffer_ r) (pos_ r) eof (bytes_read_ r) (last_good_end_ r) (scratch_ r).

Definition set_block (block : bytes) (r : Reader) : Reader :=
  mkReader (fd_rest r) (fd_sched r) block 0 (eof_ r) (bytes_read_ r + len block)
    (last_good_end_ r) (scratch_ r).

Definition set_good (good : Z) (r : Reader) : Reader :=
  mkReader (fd_rest r) (fd_sched r) (buffer_ r) (pos_ r) (eof_ r) (bytes_read_ r) good (scratch_ r).

Definition set_scratch (scratch : bytes) (r : Reader) : Reader :=
  mkReader (fd_rest r) (fd_sched r) (buffer_ r) (pos_ r) (eof_ r) (bytes_read_ r)
    (last_good_end_ r) scratch.

(** The [for (;;)] loop; [None] is a read outside the buffer or exhausted
    fuel. *)
Fixpoint phys_loop (fuel : nat) (r : Reader) : option (PhysResult * Reader) :=
  match fuel with
  | O => None
  | S fuel =>
      if len (buffer_ r) <? pos_ r + kHeaderSize then
        if eof_ r then Some (PhysEof, r)
        else
          let r := set_pos (len (buffer_ r)) r in
          let rd := read_fill (fd_sched r) kBlockSize (fd_rest r) [] in
          match rd_end rd with
          | ReadError => Some (PhysCorruption, set_fd (rd_rest rd) (rd_sched rd) (eof_ r) r)
          | e =>
              let r := set_fd (rd_rest rd) (rd_sched rd)
                         (match e with ReadEof => true | _ => eof_ r end) r in
              if len (rd_data rd) =? 0 then Some (PhysEof, r)
              else phys_loop fuel (set_block (rd_data rd) r)
          end
      else
        length ← GetFixed32 (at_off (pos_ r) (buffer_ r));
        stored_crc ← GetFixed32 (at_off (pos_ r + 4) (buffer_ r));
        b ← at_ix (buffer_ r) (pos_ r + 8);
        let t := byte_val b in
        let r := set_pos (pos_ r + kHeaderSize) r in
        if (t =? kZeroType) && (length =? 0) && (stored_crc =? 0) then
          phys_loop fuel (set_pos (len (buffer_ r)) r)
        else if (kBlockSize - kHeaderSize <? length) || (len (buffer_ r) <? pos_ r + length) then
          Some (PhysCorruption, r)
        else
          let fragment := slice (pos_ r) length (buffer_ r) in
          let r := set_pos (pos_ r + length) r in
          let end_offset := bytes_read_ r - len (buffer_ r) + pos_ r in
          if negb (record_crc b fragment =? stored_crc) then Some (PhysCorruption, r)
          else Some (PhysOk fragment t end_offset, r)
  end.

(** A block is read at most once per byte of the file, and between two reads
    at most one zero header is skipped. *)
Definition ReadPhysicalRecord (r : Reader) : option (PhysResult * Reader) :=
  phys_loop (2 * length (fd_rest r) + 3) r.

(** The loop of [ReadRecord] over fragments. *)
Fixpoint rec_loop (fuel : nat) (in_fragmented : bool) (r : Reader) : option (Result * Reader) :=
  match fuel with
  | O => None
  | S fuel =>
      '(res, r) ← ReadPhysicalRecord r;
      let fail := Some (RecCorruption (last_good_end_ r), r) in
      match res with
      | PhysEof => if in_fragmented then fail else Some (RecEof, r)
      | PhysCorruption => fail
      | PhysOk fragment type end_offset =>
          if type =? kFullType then
            if in_fragmented then fail
            else Some (RecOk fragment, set_good end_offset r)
          else if type =? kFirstType then
            if in_fragmented then fail
            else rec_loop fuel true (set_scratch fragment r)
          else if type =? kMiddleType then
            if negb in_fragmented then fail
            else rec_loop fuel true (set_scratch (scratch_ r ++ fragment) r)
          else if type =? kLastType then
            if negb in_fragmented then fail
            else Some (RecOk (scratch_ r ++ fragment), set_scratch [] (set_good end_offset r))
          else fail
      end
  end.

Definition ReadRecord (r : Reader) : option (Result * Reader) :=
  rec_loop (S (length (buffer_ r) + length (fd_rest r))) false (set_scratch [] r).

(** A client's loop: the records up to the first result that is not
    [kOk], that result, and [last_good_end()]. *)
Fixpoint read_all (fuel : nat) (r : Reader) : option (list bytes * Result * Z) :=
  match fuel with
  | O => None
  | S fuel =>
      '(res, r) ← ReadRecord r;
      match res with
      | RecOk payload =>
          '(ps, fin, good) ← read_all fuel r;
          Some (payload :: ps, fin, good)
      | _ => Some ([], res, last_good_end_ r)
      end
  end.

Definition ReadLog (file : bytes) (sched : list io_outcome) : option (list bytes * Result * Z) :=
  read_all (S (length file)) (new_Reader file sched).

(** A client's loop that processes the records one by one: [step] returns the
    new state and whether it goes on.  [applied_end] is the end of the last
    record it went on after. *)
Inductive stop := StopEof | StopCorruption (offset : Z) | StopStep (applied_end : Z).

Fixpoint for_records {St} (step : St → bytes → St * bool) (fuel : nat) (r : Reader) (st : St) (applied_end : Z)
    : option (St * stop) :=
  match fuel with
  | O => None
  | S fuel =>
      '(res, r) ← ReadRecord r;
      match res with
      | RecEof => Some (st, StopEof)
      | RecCorruption offset => Some (st, StopCorruption offset)
      | RecOk payload =>
          let '(st, continue) := step st payload in
          if (continue : bool) then for_records step fuel r st (last_good_end_ r)
          else Some (st, StopStep applied_end)
      end
  end.

Definition ForEachRecord {St} (step : St → bytes → St * bool) (file : bytes) (sched : list io_outcome) (st : St)
    : option (St * stop) :=
  for_records step (S (length file)) (new_Reader file sched) st 0.

Lemma kBlockSize_eq : kBlockSize = 32768.
Proof. reflexivity. Qed.
#[local] Opaque kBlockSize.

(** ** Reading at an absolute offset

    The specification of the reader: where the block of offset [o] ends, and
    what a physical and a logical read at [o] return.  It does not mention
    buffers. *)

Definition block_end (f : bytes) (o : Z) : Z := Z.min (len f) ((o / kBlockSize + 1) * kBlockSize).

(** The header at [o]. *)
Definition header_at (f : bytes) (o length crc : Z) (b : byte) : Prop :=
  GetFixed32 (at_off o f) = Some length ∧ GetFixed32 (at_off (o + 4) f) = Some crc ∧
  at_ix f (o + 8) = Some b.

Definition zero_header (length crc : Z) (b : byte) : bool :=
  (byte_val b =? kZeroType) && (length =? 0) && (crc =? 0).

Definition fits (f : bytes) (o length : Z) : bool :=
  negb ((kBlockSize - kHeaderSize <? length) || (block_end f o <? o + kHeaderSize + length)).

Inductive phys_rel (f : bytes) : Z → PhysResult → Prop :=
  | phys_eof o :
      block_end f o < o + kHeaderSize → block_end f o = len f → phys_rel f o PhysEof
  | phys_next o r :
      block_end f o < o + kHeaderSize → block_end f o < len f →
      phys_rel f (block_end f o) r → phys_rel f o r
  | phys_zero o length crc b r :
      o + kHeaderSize ≤ block_end f o → header_at f o length crc b →
      zero_header length crc b = true →
      phys_rel f (block_end f o) r → phys_rel f o r
  | phys_torn o length crc b :
      o + kHeaderSize ≤ block_end f o → header_at f o length crc b →
      zero_header length crc b = false → fits f o length = false →
      phys_rel f o PhysCorruption
  | phys_crc o length crc b :
      o + kHeaderSize ≤ block_end f o → header_at f o length crc b →
      zero_header length crc b = false → fits f o length = true →
      record_crc b (slice (o + kHeaderSize) length f) ≠ crc →
      phys_rel f o PhysCorruption
  | phys_ok o length crc b :
      o + kHeaderSize ≤ block_end f o → header_at f o length crc b →
      zero_header length crc b = false → fits f o length = true →
      record_crc b (slice (o + kHeaderSize) length f) = crc →
      phys_rel f o (PhysOk (slice (o + kHeaderSize) length f) (byte_val b)
                      (o + kHeaderSize + length)).

(** The reader's state after reading [f] up to [o]. *)
Record at_offset (r : Reader) (f : bytes) (o : Z) : Prop := {
  ao_rest : fd_rest r = at_off (bytes_read_ r) f;
  ao_start : 0 ≤ bytes_read_ r - len (buffer_ r);
  ao_read : bytes_read_ r ≤ len f;
  ao_buffer : buffer_ r = slice (bytes_read_ r - len (buffer_ r)) (len (buffer_ r)) f;
  ao_pos : 0 ≤ pos_ r ≤ len (buffer_ r);
  ao_o : o = bytes_read_ r - len (buffer_ r) + pos_ r;
  ao_block : (bytes_read_ r - len (buffer_ r)) mod kBlockSize = 0;
  ao_size : len (buffer_ r) ≤ kBlockSize;
  ao_eof : eof_ r = true → bytes_read_ r = len f;
  ao_more : eof_ r = false → bytes_read_ r mod kBlockSize = 0;
  ao_sched : error_free (fd_sched r) = true
}.

Lemma new_Reader_at f sched : error_free sched = true → at_offset (new_Reader f sched) f 0.
Proof. intros. split; try done. simpl. slia. Qed.

(** The buffer holds the whole block of the current offset. *)
Lemma ao_block_end r f o : at_offset r f o → o < bytes_read_ r → block_end f o = bytes_read_ r.
Proof.
  intros [Hrest Hst Hrd Hbuf Hpos Ho Hblk Hsz Heof Hmore Hs] Hlt.
  set (s := bytes_read_ r - len (buffer_ r)) in *. unfold block_end in *. rewrite kBlockSize_eq in *.
  assert (o / 32768 = s / 32768) as ->.
  { symmetry. apply Z.div_unique with (o - s). lia. Z.div_mod_to_equations. lia. }
  destruct (eof_ r).
  - rewrite Heof in * by done. Z.div_mod_to_equations. lia.
  - specialize (Hmore eq_refl). Z.div_mod_to_equations. lia.
Qed.

Lemma ao_exhausted r f o : at_offset r f o → bytes_read_ r ≤ o → o = bytes_read_ r.
Proof. intros [? ? ? ? ? ? ? ? ? ? ?]. lia. Qed.

Lemma block_end_bounds f o :
  0 ≤ o → 0 ≤ block_end f o ≤ len f ∧ (o < len f ∨ block_end f o < len f → o < block_end f o).
Proof.
  pose proof (len_nonneg f).
  intros. unfold block_end. rewrite kBlockSize_eq. Z.div_mod_to_equations. lia.
Qed.

(** Reads inside the buffer are reads inside the file. *)
Lemma ao_get32 r f o k :
  at_offset r f o → 0 ≤ k → pos_ r + k + 4 ≤ len (buffer_ r) →
  GetFixed32 (at_off (pos_ r + k) (buffer_ r)) = GetFixed32 (at_off (o + k) f).
Proof.
  intros [Hrest Hst Hrd Hbuf Hpos Ho _ _ _ _ _] Hk Hb.
  rewrite Hbuf, GetFixed32_slice by lia. do 2 f_equal. lia.
Qed.

Lemma ao_get8 r f o k :
  at_offset r f o → 0 ≤ k → pos_ r + k < len (buffer_ r) →
  at_ix (buffer_ r) (pos_ r + k) = at_ix f (o + k).
Proof.
  intros [Hrest Hst Hrd Hbuf Hpos Ho _ _ _ _ _] Hk Hb.
  rewrite Hbuf, at_ix_slice by lia. f_equal. lia.
Qed.

Lemma ao_slice r f o k n :
  at_offset r f o → 0 ≤ k → 0 ≤ n → pos_ r + k + n ≤ len (buffer_ r) →
  slice (pos_ r + k) n (buffer_ r) = slice (o + k) n f.
Proof.
  intros [Hrest Hst Hrd Hbuf Hpos Ho _ _ _ _ _] Hk Hn Hb.
  rewrite Hbuf, slice_slice by lia. f_equal. lia.
Qed.

Lemma header_exists f o :
  0 ≤ o → o + kHeaderSize ≤ len f → ∃ length crc b, header_at f o length crc b.
Proof.
  unfold kHeaderSize. intros Ho Hf.
  destruct (proj2 (GetFixed32_is_Some (at_off o f))) as [l Hl]; [rewrite len_at_off; lia|].
  destruct (proj2 (GetFixed32_is_Some (at_off (o + 4) f))) as [c Hc]; [rewrite len_at_off; lia|].
  destruct (at_ix_is_Some f (o + 8)) as [b Hb]; [lia|]. by exists l, c, b.
Qed.

Lemma set_pos_at r f o p :
  at_offset r f o → 0 ≤ p ≤ len (buffer_ r) → at_offset (set_pos p r) f (o - pos_ r + p).
Proof. intros [] Hp. split; simpl; try done; lia. Qed.

(** The state after the fill loop, before the new block is installed. *)
Definition refilled (r : Reader) : Reader :=
  let rd := read_fill (fd_sched r) kBlockSize (fd_rest r) [] in
  set_fd (rd_rest rd) (rd_sched rd) (match rd_end rd with ReadEof => true | _ => eof_ r end) r.

Definition next_data (r : Reader) : bytes :=
  rd_data (read_fill (fd_sched r) kBlockSize (fd_rest r) []).

(** Pulling in the next block does not move the offset. *)
Lemma next_block_at r f o :
  at_offset r f o → eof_ r = false → o = bytes_read_ r →
  rd_end (read_fill (fd_sched r) kBlockSize (fd_rest r) []) ≠ ReadError ∧
  if len (next_data r) =? 0 then o = len f
  else at_offset (set_block (next_data r) (refilled r)) f o ∧
       (length (fd_rest (refilled r)) < length (fd_rest r))%nat.
Proof.
  intros [Hrest Hst Hrd Hbuf Hpos Ho0 Hblk Hsz Heof Hmore Hs] He Ho.
  unfold refilled, next_data.
  destruct (read_fill_spec (fd_sched r) kBlockSize (fd_rest r) []) as (sched' & -> & Hs');
    [done|done|]. simpl app. cbn [rd_end rd_data rd_rest rd_sched].
  split; [by case_match|]. pose proof (len_nonneg (buffer_ r)).
  assert (len (fd_rest r) = len f - o) as Hlr by (rewrite Hrest, len_at_off; lia).
  assert (len (slice 0 kBlockSize (fd_rest r)) = Z.min kBlockSize (len f - o)) as Hld.
  { rewrite slice_min, len_slice; pose proof kBlockSize_eq; lia. }
  rewrite Hld. destruct (Z.eqb_spec (Z.min kBlockSize (len f - o)) 0); pose proof kBlockSize_eq as HkB; [lia|].
  specialize (Hmore He). split.
  - split; cbn [set_block set_fd fd_rest fd_sched buffer_ pos_ eof_ bytes_read_];
      rewrite ?Hld; try lia; try done.
    + rewrite Hlr, Hrest, at_off_at_off by lia. done.
    + rewrite slice_min, Hlr, Hrest, slice_at_off by lia. f_equal; lia.
    + replace (bytes_read_ r + _ - _) with (bytes_read_ r) by lia. done.
    + rewrite Hlr, He. destruct (Z.ltb_spec (len f - o) kBlockSize); [lia|done].
    + rewrite Hlr. destruct (Z.ltb_spec (len f - o) kBlockSize); [done|]. intros _.
      rewrite Z.min_l by lia. rewrite Z.add_mod, Hmore, Z.mod_same by lia. done.
  - cbn [set_fd fd_rest]. unfold at_off. rewrite length_drop. unfold len in *. lia.
Qed.

Definition phys_fuel (r : Reader) : nat :=
  2 * length (fd_rest r) + (if len (buffer_ r) <? pos_ r + kHeaderSize then 1 else 2).

(** What a physical read leaves unchanged, and where it leaves the reader. *)
Definition phys_post (f : bytes) (r : Reader) (res : PhysResult) (r' : Reader) : Prop :=
  last_good_end_ r' = last_good_end_ r ∧ scratch_ r' = scratch_ r ∧
  match res with PhysOk _ _ e => at_offset r' f e | _ => True end.

(** The header at the current position, read from the buffer. *)
Lemma buffer_header r f o length crc b :
  at_offset r f o → pos_ r + kHeaderSize ≤ len (buffer_ r) → header_at f o length crc b →
  GetFixed32 (at_off (pos_ r) (buffer_ r)) = Some length ∧
  GetFixed32 (at_off (pos_ r + 4) (buffer_ r)) = Some crc ∧
  at_ix (buffer_ r) (pos_ r + 8) = Some b.
Proof.
  unfold kHeaderSize. intros Hr Hp (H1 & H2 & H3).
  pose proof (ao_pos _ _ _ Hr). pose proof (ao_get32 r f o 0 Hr) as G0.
  rewrite !Z.add_0_r in G0. rewrite G0, (ao_get32 r f o 4 Hr), (ao_get8 r f o 8 Hr) by lia. done.
Qed.

(** The branch that parses a header. *)
Lemma phys_parse_spec f r o length crc b :
  at_offset r f o → pos_ r + kHeaderSize ≤ len (buffer_ r) → header_at f o length crc b →
  zero_header length crc b = false →
  let r1 := set_pos (pos_ r + kHeaderSize) r in
  let r2 := set_pos (pos_ r1 + length) r1 in
  let fragment := slice (pos_ r1) length (buffer_ r) in
  let bad := (kBlockSize - kHeaderSize <? length) || (len (buffer_ r) <? pos_ r1 + length) in
  phys_rel f o
    (if bad || negb (record_crc b fragment =? crc) then PhysCorruption
     else PhysOk fragment (byte_val b) (bytes_read_ r2 - len (buffer_ r2) + pos_ r2)) ∧
  (bad = false → at_offset r2 f (o + kHeaderSize + length)).
Proof.
  intros Hr Hroom Hh Hz r1 r2 fragment bad.
  pose proof (ao_o _ _ _ Hr) as Ho. pose proof (ao_pos _ _ _ Hr) as Hpos.
  pose proof (ao_start _ _ _ Hr) as Hst. pose proof (ao_read _ _ _ Hr) as Hrd.
  assert (block_end f o = bytes_read_ r) as Hbe.
  { apply (ao_block_end r); [done|]. unfold kHeaderSize in *. lia. }
  assert (0 ≤ length) as Hl0 by (destruct Hh as [[? _]%GetFixed32_inv _]; lia).
  assert (bad = negb (fits f o length)) as Hbad.
  { unfold bad, fits, r1. rewrite negb_involutive, Hbe. cbn [set_pos pos_].
    f_equal. unfold kHeaderSize. lia. }
  assert (o + kHeaderSize ≤ block_end f o) as Hroom' by (unfold kHeaderSize in *; lia).
  destruct bad eqn:E; cbn [orb].
  { split; [|done]. apply (phys_torn f o length crc b); try done.
    by destruct (fits f o length). }
  assert (fits f o length = true) as Hfits by (by destruct (fits f o length)).
  assert (pos_ r + kHeaderSize + length ≤ len (buffer_ r)) as Hin.
  { unfold bad, r1 in E. apply orb_false_iff in E as [_ E]. cbn [set_pos pos_] in E. lia. }
  assert (fragment = slice (o + kHeaderSize) length f) as Hfr.
  { unfold fragment, r1. cbn [set_pos pos_]. apply ao_slice; unfold kHeaderSize in *; try done; lia. }
  split.
  - rewrite Hfr. destruct (Z.eqb_spec (record_crc b (slice (o + kHeaderSize) length f)) crc) as [Ec|Ec];
      cbn [negb]; [|by apply (phys_crc f o length crc b)].
    replace (_ - _ + _) with (o + kHeaderSize + length) by (unfold r2, r1; cbn; lia).
    by apply (phys_ok f o length crc b).
  - intros _. unfold r2, r1. replace (o + kHeaderSize + length) with
      (o - pos_ r + (pos_ r + kHeaderSize + length)) by lia.
    apply (set_pos_at r); [done|]. unfold kHeaderSize in *. lia.
Qed.

(** The branch that needs another block. *)
Lemma phys_refill_spec f r o :
  at_offset r f o → eof_ r = false → len (buffer_ r) < pos_ r + kHeaderSize →
  let r1 := set_pos (len (buffer_ r)) r in
  at_offset r1 f (bytes_read_ r) ∧
  (bytes_read_ r = len f → phys_rel f o PhysEof) ∧
  (∀ res, bytes_read_ r < len f → phys_rel f (bytes_read_ r) res → phys_rel f o res).
Proof.
  intros Hr He Hshort r1. pose proof (ao_o _ _ _ Hr) as Ho. pose proof (ao_pos _ _ _ Hr) as Hpos.
  pose proof (ao_start _ _ _ Hr) as Hst.
  split; [|destruct (Z.lt_ge_cases o (bytes_read_ r)) as [Hlt|Hge]].
  - replace (bytes_read_ r) with (o - pos_ r + len (buffer_ r)) by lia.
    apply set_pos_at; [done|lia].
  - pose proof (ao_block_end r f o Hr Hlt) as Hbe. split.
    + intros E. apply phys_eof; lia.
    + intros res Hne Hrel. apply phys_next; [lia|lia|]. by rewrite Hbe.
  - apply (ao_exhausted r f o Hr) in Hge. rewrite <- Hge. split; [|done].
    intros E. pose proof (block_end_bounds f o). unfold block_end, kHeaderSize in *.
    rewrite kBlockSize_eq in *. apply phys_eof; unfold block_end, kHeaderSize;
      rewrite kBlockSize_eq; Z.div_mod_to_equations; lia.
Qed.

Lemma phys_eof_spec f r o :
  at_offset r f o → eof_ r = true → len (buffer_ r) < pos_ r + kHeaderSize → phys_rel f o PhysEof.
Proof.
  intros Hr He Hshort. pose proof (ao_o _ _ _ Hr). pose proof (ao_pos _ _ _ Hr).
  pose proof (ao_eof _ _ _ Hr He). pose proof (ao_start _ _ _ Hr).
  destruct (Z.lt_ge_cases o (bytes_read_ r)) as [Hlt|Hge].
  - pose proof (ao_block_end r f o Hr Hlt). apply phys_eof; lia.
  - assert (block_end f o = len f) as Hbe.
    { unfold block_end. rewrite kBlockSize_eq. Z.div_mod_to_equations. lia. }
    apply phys_eof; [|done]. rewrite Hbe. unfold kHeaderSize. lia.
Qed.

Lemma phys_loop_spec f fuel r o :
  at_offset r f o → (phys_fuel r ≤ fuel)%nat →
  ∃ res r', phys_loop fuel r = Some (res, r') ∧ phys_rel f o res ∧ phys_post f r res r'.
Proof.
  revert r o. induction fuel as [|fuel IH]; intros r o Hr Hf.
  { unfold phys_fuel in Hf. case_match; lia. }
  cbn [phys_loop]. pose proof (ao_o _ _ _ Hr) as Ho. pose proof (ao_pos _ _ _ Hr) as Hpos.
  pose proof (ao_start _ _ _ Hr) as Hst. pose proof (ao_read _ _ _ Hr) as Hrd.
  unfold phys_fuel in Hf. revert Hf.
  destruct (Z.ltb_spec (len (buffer_ r)) (pos_ r + kHeaderSize)) as [Hshort|Hroom]; intros Hf.
  - destruct (eof_ r) eqn:He.
    { do 2 eexists. split_and!; [done|by eapply phys_eof_spec|done..]. }
    destruct (phys_refill_spec f r o Hr He Hshort) as (Hr1 & Heof & Hnext).
    destruct (next_block_at _ f _ Hr1) as [Hne Hblk]; [done|done|].
    unfold next_data, refilled in Hblk. set (r1 := set_pos _ r) in *.
    change (eof_ r) with (eof_ r1) in He. rewrite He in Hblk.
    destruct (read_fill (fd_sched r1) kBlockSize (fd_rest r1) []) as [e data rest sched].
    cbn [rd_end rd_data rd_rest rd_sched] in *.
    change (fd_rest r) with (fd_rest r1) in Hf.
    assert (∀ eof, (if len data =? 0 then bytes_read_ r = len f
              else at_offset (set_block data (set_fd rest sched eof r1)) f (bytes_read_ r) ∧
                   (length rest < length (fd_rest r1))%nat) →
      ∃ res r', (if len data =? 0 then Some (PhysEof, set_fd rest sched eof r1)
                 else phys_loop fuel (set_block data (set_fd rest sched eof r1))) = Some (res, r') ∧
                phys_rel f o res ∧ phys_post f r res r') as Hgo.
    { intros eof Hb. destruct (Z.eqb_spec (len data) 0) as [Hd|Hd].
      - do 2 eexists. split_and!; [done|by apply Heof|done..].
      - destruct Hb as [Hb Hlt].
        destruct (IH _ _ Hb) as (res & r' & E & Hrel & Hpost).
        { unfold phys_fuel. cbn [set_block set_fd fd_rest]. destruct (_ <? _); lia. }
        exists res, r'. split_and!; [done| |done].
        apply Hnext; [|done]. pose proof (ao_read _ _ _ Hb) as Hle.
        change (bytes_read_ r + len data ≤ len f) in Hle. pose_len_nonneg. lia. }
    rewrite He. destruct e; [exact (Hgo _ Hblk)|exact (Hgo _ Hblk)|done].
  - destruct (header_exists f o) as (l & c & b & Hh); [lia|unfold kHeaderSize in *; lia|].
    destruct (buffer_header r f o l c b Hr Hroom Hh) as (-> & -> & ->). cbn [mbind option_bind].
    fold (zero_header l c b). destruct (zero_header l c b) eqn:Hz.
    + assert (block_end f o = bytes_read_ r) as Hbe.
      { apply (ao_block_end r); [done|]. unfold kHeaderSize in *. lia. }
      match goal with |- context [phys_loop fuel ?x] => change x with (set_pos (len (buffer_ r)) r) end.
      destruct (IH (set_pos (len (buffer_ r)) r) (bytes_read_ r)) as (res & r' & -> & Hrel & Hpost).
      { replace (bytes_read_ r) with (o - pos_ r + len (buffer_ r)) by lia.
        apply set_pos_at; [done|lia]. }
      { unfold phys_fuel. cbn [set_pos fd_rest buffer_ pos_].
        rewrite (proj2 (Z.ltb_lt _ _)) by (unfold kHeaderSize; lia). lia. }
      exists res, r'. split_and!; [done| |done]. rewrite <- Hbe in Hrel.
      apply (phys_zero f o l c b); try done. unfold kHeaderSize in *. lia.
    + destruct (phys_parse_spec f r o l c b Hr Hroom Hh Hz) as [Hrel Hat].
      cbn [set_pos buffer_ pos_ bytes_read_] in Hrel, Hat |- *. revert Hrel Hat.
      destruct ((_ <? l) || _) eqn:Ebad; intros Hrel Hat; cbn [orb] in Hrel.
      { do 2 eexists. split_and!; [done|done|done..]. }
      revert Hrel. destruct (negb _); intros Hrel; do 2 eexists; split_and!; try done.
      split_and!; [done|done|]. specialize (Hat eq_refl).
      by replace (o + kHeaderSize + l)
        with (bytes_read_ r - len (buffer_ r) + (pos_ r + kHeaderSize + l)) in Hat by lia.
Qed.

(** ** Logical records *)

Inductive rec_spec := SpOk (payload : bytes) (end_offset : Z) | SpEof | SpTorn.

(** The type byte is not one a record can continue with; [acc] holds the
    fragments read so far, inside a fragmented record. *)
Definition bad_type (acc : option bytes) (t : Z) : bool :=
  match acc with
  | None => negb ((t =? kFullType) || (t =? kFirstType))
  | Some _ => negb ((t =? kMiddleType) || (t =? kLastType))
  end.

Inductive rec_rel (f : bytes) : Z → option bytes → rec_spec → Prop :=
  | rec_eof o : phys_rel f o PhysEof → rec_rel f o None SpEof
  | rec_eof_inside o s : phys_rel f o PhysEof → rec_rel f o (Some s) SpTorn
  | rec_corrupt o acc : phys_rel f o PhysCorruption → rec_rel f o acc SpTorn
  | rec_bad o acc fr t e :
      phys_rel f o (PhysOk fr t e) → bad_type acc t = true → rec_rel f o acc SpTorn
  | rec_full o fr e : phys_rel f o (PhysOk fr kFullType e) → rec_rel f o None (SpOk fr e)
  | rec_first o fr e r :
      phys_rel f o (PhysOk fr kFirstType e) → rec_rel f e (Some fr) r → rec_rel f o None r
  | rec_middle o s fr e r :
      phys_rel f o (PhysOk fr kMiddleType e) → rec_rel f e (Some (s ++ fr)) r →
      rec_rel f o (Some s) r
  | rec_last o s fr e :
      phys_rel f o (PhysOk fr kLastType e) → rec_rel f o (Some s) (SpOk (s ++ fr) e).

(** All the records from [o]: the payloads, whether the log ends torn, and
    the end of the last complete record. *)
Inductive log_rel (f : bytes) : Z → list bytes → bool → Z → Prop :=
  | log_eof o : rec_rel f o None SpEof → log_rel f o [] false o
  | log_torn o : rec_rel f o None SpTorn → log_rel f o [] true o
  | log_cons o p e ps torn g :
      rec_rel f o None (SpOk p e) → log_rel f e ps torn g → log_rel f o (p :: ps) torn g.

Lemma phys_rel_end f o fr t e :
  phys_rel f o (PhysOk fr t e) → 0 ≤ o → o + kHeaderSize ≤ e ≤ len f.
Proof.
  intros H. remember (PhysOk fr t e) as res eqn:E. revert E.
  induction H as [|o r Hs Hl H IH|o l c b r Hs Hh Hz H IH| | |o l c b Hs Hh Hz Hf Hc];
    intros E Ho; try done.
  - pose proof (block_end_bounds f o Ho). specialize (IH E ltac:(lia)). lia.
  - unfold kHeaderSize in *. pose proof (block_end_bounds f o Ho). specialize (IH E ltac:(lia)). lia.
  - injection E as <- <- <-. pose proof (block_end_bounds f o Ho).
    destruct Hh as [[? _]%GetFixed32_inv _].
    unfold fits in Hf. apply negb_true_iff, orb_false_iff in Hf as [_ Hf]. lia.
Qed.

(** What a logical read returns and where it leaves the reader. *)
Definition rec_post (f : bytes) (o : Z) (acc : option bytes) (good : Z)
    (res : Result) (r' : Reader) : Prop :=
  match res with
  | RecOk p => rec_rel f o acc (SpOk p (last_good_end_ r')) ∧ at_offset r' f (last_good_end_ r')
  | RecEof => rec_rel f o acc SpEof ∧ last_good_end_ r' = good
  | RecCorruption g => rec_rel f o acc SpTorn ∧ g = good ∧ last_good_end_ r' = good
  end.

Definition frag_acc (in_fragmented : bool) (r : Reader) : option bytes :=
  if in_fragmented then Some (scratch_ r) else None.

Lemma rec_post_step f o e acc acc' good res r' :
  (∀ s, rec_rel f e acc' s → rec_rel f o acc s) →
  rec_post f e acc' good res r' → rec_post f o acc good res r'.
Proof. intros H. destruct res; intros [H1 H2]; split; auto. Qed.

Lemma at_offset_set_scratch r f o s : at_offset r f o → at_offset (set_scratch s r) f o.
Proof. by intros []; split. Qed.

Lemma at_offset_set_good r f o g : at_offset r f o → at_offset (set_good g r) f o.
Proof. by intros []; split. Qed.

Lemma rec_loop_spec f fuel r o (in_frag : bool) :
  at_offset r f o → 0 ≤ o → len f - o < Z.of_nat fuel →
  ∃ res r', rec_loop fuel in_frag r = Some (res, r') ∧
    rec_post f o (frag_acc in_frag r) (last_good_end_ r) res r'.
Proof.
  revert r o in_frag. induction fuel as [|fuel IH]; intros r o in_frag Hr Ho Hf.
  { pose proof (ao_o _ _ _ Hr). pose proof (ao_pos _ _ _ Hr). pose proof (ao_read _ _ _ Hr). lia. }
  cbn [rec_loop]. unfold ReadPhysicalRecord.
  destruct (phys_loop_spec f (2 * length (fd_rest r) + 3) r o Hr) as (res & r' & -> & Hrel & Hg & Hs & Hat).
  { unfold phys_fuel. destruct (_ <? _); lia. }
  cbn [mbind option_bind]. destruct res as [fr t e| |].
  2:{ destruct in_frag; do 2 eexists; split; try done; split_and!; try done; by constructor. }
  2:{ do 2 eexists; split; [done|]. split_and!; try done. by apply rec_corrupt. }
  pose proof (phys_rel_end _ _ _ _ _ Hrel Ho) as He. unfold kHeaderSize in He.
  assert (bad_type (frag_acc in_frag r) t = true →
    ∃ res r'', Some (RecCorruption (last_good_end_ r'), r') = Some (res, r'') ∧
      rec_post f o (frag_acc in_frag r) (last_good_end_ r) res r'') as Hbad.
  { intros Hb. do 2 eexists; split; [done|]. split_and!; [|done..]. by eapply rec_bad. }
  assert (∀ s, (∀ sp, rec_rel f e (Some s) sp → rec_rel f o (frag_acc in_frag r) sp) →
    ∃ res r'', rec_loop fuel true (set_scratch s r') = Some (res, r'') ∧
      rec_post f o (frag_acc in_frag r) (last_good_end_ r) res r'') as Hmore.
  { intros s Hstep. destruct (IH (set_scratch s r') e true) as (res & r'' & -> & Hpost);
      [by apply at_offset_set_scratch|lia|lia|].
    do 2 eexists; split; [done|]. rewrite <- Hg. by eapply rec_post_step. }
  destruct (Z.eqb_spec t kFullType) as [->|N1].
  { destruct in_frag; [by apply Hbad|]. do 2 eexists; split; [done|].
    split; [by apply rec_full|by apply at_offset_set_good]. }
  destruct (Z.eqb_spec t kFirstType) as [->|N2].
  { destruct in_frag; [by apply Hbad|]. apply Hmore. intros sp. by apply rec_first. }
  destruct (Z.eqb_spec t kMiddleType) as [->|N3].
  { destruct in_frag; cbn [negb]; [|by apply Hbad].
    apply Hmore. intros sp. rewrite Hs. by apply rec_middle. }
  destruct (Z.eqb_spec t kLastType) as [->|N4].
  { destruct in_frag; cbn [negb]; [|by apply Hbad]. do 2 eexists; split; [done|].
    rewrite Hs. split; [by apply rec_last|by apply at_offset_set_scratch, at_offset_set_good]. }
  apply Hbad. destruct in_frag; apply negb_true_iff, orb_false_iff; split; by apply Z.eqb_neq.
Qed.

Lemma rec_rel_end f o acc p e : rec_rel f o acc (SpOk p e) → 0 ≤ o → o + kHeaderSize ≤ e ≤ len f.
Proof.
  intros H. remember (SpOk p e) as sp eqn:E. revert E. unfold kHeaderSize.
  induction H as [| | | |o fr e' H|o fr e' r H _ IH|o s fr e' r H _ IH|o s fr e' H];
    intros E Ho; try done; pose proof (phys_rel_end _ _ _ _ _ H Ho) as He; unfold kHeaderSize in He;
    try (by injection E as <- <-); specialize (IH E ltac:(lia)); lia.
Qed.

(** The result [ReadLog] ends with. *)
Definition log_result (torn : bool) (good : Z) : Result :=
  if torn then RecCorruption good else RecEof.

Lemma read_all_spec f fuel r o :
  at_offset r f o → last_good_end_ r = o → len f - o < Z.of_nat fuel →
  ∃ ps torn good, read_all fuel r = Some (ps, log_result torn good, good) ∧ log_rel f o ps torn good.
Proof.
  revert r o. induction fuel as [|fuel IH]; intros r o Hr Hg Hf.
  { pose proof (ao_o _ _ _ Hr). pose proof (ao_pos _ _ _ Hr). pose proof (ao_read _ _ _ Hr). lia. }
  pose proof (ao_o _ _ _ Hr) as Ho. pose proof (ao_pos _ _ _ Hr). pose proof (ao_start _ _ _ Hr).
  cbn [read_all]. unfold ReadRecord.
  destruct (rec_loop_spec f (S (length (buffer_ r) + length (fd_rest r))) (set_scratch [] r) o false)
    as (res & r' & -> & Hpost); [by apply at_offset_set_scratch|lia| |].
  { rewrite (ao_rest _ _ _ Hr). unfold at_off. rewrite length_drop. unfold len in *. lia. }
  cbn [mbind option_bind]. cbn [frag_acc set_scratch last_good_end_] in Hpost. rewrite Hg in Hpost.
  destruct res as [p| |g]; cbn [rec_post] in Hpost.
  - destruct Hpost as [Hrel Hat]. pose proof (rec_rel_end _ _ _ _ _ Hrel ltac:(lia)) as He.
    unfold kHeaderSize in He.
    destruct (IH r' _ Hat eq_refl) as (ps & torn & good & -> & Hlog); [lia|].
    cbn [mbind option_bind]. exists (p :: ps), torn, good. split; [done|]. by eapply log_cons.
  - destruct Hpost as [Hrel ->]. exists [], false, o. split; [done|]. by apply log_eof.
  - destruct Hpost as [Hrel [-> ->]]. exists [], true, o. split; [done|]. by apply log_torn.
Qed.

Lemma ReadLog_spec f sched :
  error_free sched = true →
  ∃ ps torn good, ReadLog f sched = Some (ps, log_result torn good, good) ∧ log_rel f 0 ps torn good.
Proof.
  intros Hs. apply read_all_spec; [by apply new_Reader_at|done|unfold len; lia].
Qed.

(** *** The relations are functional *)

Lemma header_at_fun f o l c b l' c' b' :
  header_at f o l c b → header_at f o l' c' b' → l = l' ∧ c = c' ∧ b = b'.
Proof. intros (?&?&?) (?&?&?). split_and!; congruence. Qed.

Lemma phys_rel_fun f o r1 r2 : phys_rel f o r1 → phys_rel f o r2 → r1 = r2.
Proof.
  intros H. revert r2. induction H; intros r2 Hr2; inversion Hr2; subst; try lia; auto;
    match goal with
    | Ha : header_at f ?o _ _ _, Hb : header_at f ?o _ _ _ |- _ =>
        destruct (header_at_fun _ _ _ _ _ _ _ _ Ha Hb) as (? & ? & ?)
    end; subst; try congruence; auto.
Qed.

Lemma rec_rel_fun f o acc r1 r2 : rec_rel f o acc r1 → rec_rel f o acc r2 → r1 = r2.
Proof.
  intros H. revert r2. induction H; intros r2 Hr2; inversion Hr2; subst;
    match goal with
    | Ha : phys_rel f ?o _, Hb : phys_rel f ?o _ |- _ => pose proof (phys_rel_fun _ _ _ _ Ha Hb)
    end; simplify_eq; auto.
Qed.

Lemma log_rel_fun f o ps1 t1 g1 ps2 t2 g2 :
  log_rel f o ps1 t1 g1 → log_rel f o ps2 t2 g2 → ps1 = ps2 ∧ t1 = t2 ∧ g1 = g2.
Proof.
  intros H. revert ps2 t2 g2. induction H as [o H|o H|o p e ps t g H _ IH]; intros ps2 t2 g2 H2;
    inversion H2 as [? H'|? H'|? ? ? ? ? ? H' H'']; subst;
    pose proof (rec_rel_fun _ _ _ _ _ H H'); simplify_eq; auto.
  destruct (IH _ _ _ H'') as (-> & -> & ->). done.
Qed.

Lemma ReadLog_of_rel f sched ps torn good :
  error_free sched = true → log_rel f 0 ps torn good →
  ReadLog f sched = Some (ps, log_result torn good, good).
Proof.
  intros Hs H. destruct (ReadLog_spec f sched Hs) as (ps' & t' & g' & -> & H').
  by destruct (log_rel_fun _ _ _ _ _ _ _ _ H H') as (-> & -> & ->).
Qed.

(** The same for a client's loop, on a file with a given reading. *)
Lemma for_records_spec {St} (step : St → bytes → St * bool) f fuel r o st a :
  at_offset r f o → last_good_end_ r = o → len f - o < Z.of_nat fuel →
  ∃ st' sp, for_records step fuel r st a = Some (st', sp) ∧
    ∀ ps torn good, log_rel f o ps torn good →
      (∀ pre p post, ps = pre ++ p :: post → (step (foldl (λ s q, (step s q).1) st pre) p).2 = true) →
      st' = foldl (λ s q, (step s q).1) st ps ∧ sp = (if torn then StopCorruption good else StopEof).
Proof.
  revert r o st a. induction fuel as [|fuel IH]; intros r o st a Hr Hg Hf.
  { pose proof (ao_o _ _ _ Hr). pose proof (ao_pos _ _ _ Hr). pose proof (ao_read _ _ _ Hr). lia. }
  pose proof (ao_o _ _ _ Hr) as Ho. pose proof (ao_pos _ _ _ Hr). pose proof (ao_start _ _ _ Hr).
  cbn [for_records]. unfold ReadRecord.
  destruct (rec_loop_spec f (S (length (buffer_ r) + length (fd_rest r))) (set_scratch [] r) o false)
    as (res & r' & -> & Hpost); [by apply at_offset_set_scratch|lia| |].
  { rewrite (ao_rest _ _ _ Hr). unfold at_off. rewrite length_drop. unfold len in *. lia. }
  cbn [mbind option_bind]. cbn [frag_acc set_scratch last_good_end_] in Hpost. rewrite Hg in Hpost.
  destruct res as [p| |g]; cbn [rec_post] in Hpost.
  - destruct Hpost as [Hrel Hat]. pose proof (rec_rel_end _ _ _ _ _ Hrel ltac:(lia)) as He.
    unfold kHeaderSize in He. destruct (step st p) as [st1 go] eqn:Es. destruct go.
    + destruct (IH r' _ st1 (last_good_end_ r') Hat eq_refl) as (st' & sp & -> & Hall); [lia|].
      exists st', sp. split; [done|]. intros ps torn good Hlog Hgo.
      inversion Hlog as [? H'|? H'|? q e ps' ? ? H' H'']; subst; pose proof (rec_rel_fun _ _ _ _ _ Hrel H'); simplify_eq.
      destruct (Hall ps' torn good H'') as [-> ->].
      * intros pre q' post ->. specialize (Hgo (_ :: pre) q' post eq_refl). simpl in Hgo. by rewrite Es in Hgo.
      * simpl. by rewrite Es.
    + eexists _, _. split; [done|]. intros ps torn good Hlog Hgo.
      inversion Hlog as [? H'|? H'|? q e ps' ? ? H' H'']; subst; pose proof (rec_rel_fun _ _ _ _ _ Hrel H'); simplify_eq.
      specialize (Hgo [] _ ps' eq_refl). simpl in Hgo. by rewrite Es in Hgo.
  - destruct Hpost as [Hrel _]. eexists _, _. split; [done|]. intros ps torn good Hlog _.
    inversion Hlog as [? H'|? H'|? q e ps' ? ? H' H'']; subst; pose proof (rec_rel_fun _ _ _ _ _ Hrel H'); simplify_eq. done.
  - destruct Hpost as [Hrel [-> _]]. eexists _, _. split; [done|]. intros ps torn good Hlog _.
    inversion Hlog as [? H'|? H'|? q e ps' ? ? H' H'']; subst; pose proof (rec_rel_fun _ _ _ _ _ Hrel H'); simplify_eq. done.
Qed.

Lemma ForEachRecord_rel {St} (step : St → bytes → St * bool) f sched st ps torn good :
  error_free sched = true → log_rel f 0 ps torn good →
  (∀ pre p post, ps = pre ++ p :: post → (step (foldl (λ s q, (step s q).1) st pre) p).2 = true) →
  ForEachRecord step f sched st
  = Some (foldl (λ s q, (step s q).1) st ps, if torn then StopCorruption good else StopEof).
Proof.
  intros Hs Hlog Hgo. unfold ForEachRecord.
  destruct (for_records_spec step f (S (length f)) (new_Reader f sched) 0 st 0) as (st' & sp & -> & Hall).
  { by apply new_Reader_at. } { done. } { unfold len. lia. }
  by destruct (Hall ps torn good Hlog Hgo) as [-> ->].
Qed.

Lemma ForEachRecord_total {St} (step : St → bytes → St * bool) f sched st :
  error_free sched = true → is_Some (ForEachRecord step f sched st).
Proof.
  intros Hs. destruct (for_records_spec step f (S (length f)) (new_Reader f sched) 0 st 0) as (st' & sp & E & _).
  { by apply new_Reader_at. } { done. } { unfold len. lia. }
  by exists (st', sp).
Qed.


(** ** What the writer encodes, the reader reads *)

(** One physical record. *)
Definition phys_bytes (type : Z) (fragment : bytes) : bytes :=
  PutFixed32 (u32 (len fragment)) ++ PutFixed32 (record_crc (to_char type) fragment)
    ++ [to_char type] ++ fragment.

Definition frag_len (block_off : Z) (p : bytes) : Z :=
  if len p <? kBlockSize - block_off - kHeaderSize then len p else kBlockSize - block_off - kHeaderSize.

Definition frag_type (begin last : bool) : Z :=
  if begin && last then kFullType
  else if begin then kFirstType else if last then kLastType else kMiddleType.

Lemma len_phys_bytes t fr : len (phys_bytes t fr) = kHeaderSize + len fr.
Proof. unfold phys_bytes, kHeaderSize. slia. Qed.

Lemma encode_pad fuel block_off p begin :
  kBlockSize - block_off < kHeaderSize →
  encode_loop (S fuel) block_off p begin
  = (λ e, replicate (Z.to_nat (kBlockSize - block_off)) Init.Byte.x00 ++ e)
      <$> encode_loop (S fuel) 0 p begin.
Proof.
  intros H. cbn [encode_loop]. rewrite (proj2 (Z.ltb_lt _ _)) by done.
  rewrite (proj2 (Z.ltb_ge (kBlockSize - 0) kHeaderSize)) by (rewrite kBlockSize_eq; done).
  destruct (0 <? _); [|done]. by destruct (encode_loop fuel _ _ _).
Qed.

Lemma frag_len_range block_off p :
  0 ≤ block_off → block_off + kHeaderSize ≤ kBlockSize →
  0 ≤ frag_len block_off p ≤ len p ∧ block_off + kHeaderSize + frag_len block_off p ≤ kBlockSize ∧
  (frag_len block_off p < len p → block_off + kHeaderSize + frag_len block_off p = kBlockSize).
Proof.
  intros. unfold frag_len. pose proof (len_nonneg p).
  destruct (Z.ltb_spec (len p) (kBlockSize - block_off - kHeaderSize)); lia.
Qed.

Lemma encode_step fuel block_off p begin :
  0 ≤ block_off → block_off + kHeaderSize ≤ kBlockSize →
  encode_loop (S fuel) block_off p begin
  = let fl := frag_len block_off p in
    if fl <? len p
    then (λ e, phys_bytes (frag_type begin false) (slice 0 fl p) ++ e)
           <$> encode_loop fuel kBlockSize (at_off fl p) false
    else Some (phys_bytes (frag_type begin true) p).
Proof.
  intros H1 H2. pose proof (frag_len_range block_off p H1 H2) as (F1 & F2 & F3).
  cbn [encode_loop]. rewrite (proj2 (Z.ltb_ge _ _)) by lia. cbv zeta. fold (frag_len block_off p).
  assert (len (slice 0 (frag_len block_off p) p) = frag_len block_off p) as Hfl
    by (apply len_slice; lia).
  unfold phys_bytes. destruct (Z.ltb_spec (frag_len block_off p) (len p)) as [Hlt|Hge].
  - rewrite (proj2 (Z.eqb_neq _ _)), andb_false_r by lia.
    rewrite (proj2 (Z.ltb_lt 0 _)) by lia. rewrite F3, Hfl by lia.
    destruct (encode_loop fuel _ _ _) as [e|]; [|done].
    cbn [mbind option_bind fmap option_fmap option_map]. f_equal.
    rewrite !app_nil_l, <- !app_assoc. unfold frag_type. by rewrite andb_false_r.
  - assert (frag_len block_off p = len p) as E by lia. rewrite E in *.
    rewrite Z.eqb_refl, andb_true_r, Z.sub_diag, slice_full. cbn [Z.ltb Z.compare]. f_equal.
    rewrite !app_nil_l, <- !app_assoc. unfold frag_type. by rewrite andb_true_r.
Qed.

Lemma frag_type_range begin last : 1 ≤ frag_type begin last ≤ 4.
Proof. by destruct begin, last. Qed.

Lemma byte_val_type begin last : byte_val (to_char (frag_type begin last)) = frag_type begin last.
Proof. by destruct begin, last. Qed.

Lemma block_end_room g o n :
  0 ≤ o → o mod kBlockSize + n ≤ kBlockSize → block_end g o < o + n → block_end g o = len g.
Proof.
  intros Ho Hn. unfold block_end. rewrite kBlockSize_eq in *. Z.div_mod_to_equations. lia.
Qed.

(** A header that lies inside [f] is read whatever follows. *)
Lemma header_at_app f tail o l c b : header_at f o l c b → header_at (f ++ tail) o l c b.
Proof.
  intros (H1 & H2 & H3). split_and!; [by apply GetFixed32_app|by apply GetFixed32_app|].
  unfold at_ix in *. destruct (o + 8 <? 0); [done|]. by apply lookup_app_l_Some.
Qed.

(** The header of a physical record that follows [f]. *)
Lemma phys_bytes_header f t fr tail :
  0 ≤ len fr < 2 ^ 32 →
  header_at (f ++ phys_bytes t fr ++ tail) (len f) (len fr) (record_crc (to_char t) fr) (to_char t).
Proof.
  intros Hl. unfold phys_bytes. rewrite <- !app_assoc. split_and!.
  - rewrite at_off_app, GetFixed32_Put by done. f_equal. unfold u32. rewrite Zmod_mod.
    by apply Z.mod_small.
  - rewrite app_assoc, at_off_app, GetFixed32_Put by slia. f_equal.
    apply Z.mod_small. by do 2 apply Crc32_range_aux.
  - do 2 rewrite app_assoc. rewrite at_ix_app_r by slia.
    replace (_ - _) with 0 by slia. done.
Qed.

Lemma phys_bytes_reads f t fr tail :
  1 ≤ t ≤ 4 → len f mod kBlockSize + kHeaderSize + len fr ≤ kBlockSize →
  phys_rel (f ++ phys_bytes t fr ++ tail) (len f) (PhysOk fr t (len f + kHeaderSize + len fr)).
Proof.
  intros Ht Hroom. pose proof (len_nonneg f). pose proof (len_nonneg fr). pose proof (len_nonneg tail).
  assert (len fr < 2 ^ 32) as Hfr.
  { pose proof (Z.mod_pos_bound (len f) kBlockSize eq_refl). rewrite kBlockSize_eq in *.
    unfold kHeaderSize in *. lia. }
  set (g := f ++ phys_bytes t fr ++ tail).
  assert (len g = len f + kHeaderSize + len fr + len tail) as Hg.
  { unfold g. rewrite !len_app, len_phys_bytes. lia. }
  assert (len f + kHeaderSize + len fr ≤ block_end g (len f)) as Hbe.
  { destruct (Z.le_gt_cases (len f + kHeaderSize + len fr) (block_end g (len f))) as [|Hlt]; [done|].
    rewrite (block_end_room g (len f) (kHeaderSize + len fr)) in * by lia. lia. }
  assert (slice (len f + kHeaderSize) (len fr) g = fr) as Hsl.
  { unfold g, phys_bytes. rewrite <- !app_assoc. do 3 rewrite app_assoc.
    apply slice_app_exact; [unfold kHeaderSize; slia|done]. }
  assert (byte_val (to_char t) = t) as Ebt by (rewrite byte_val_to_char; apply Z.mod_small; lia).
  assert (PhysOk fr t (len f + kHeaderSize + len fr)
    = PhysOk (slice (len f + kHeaderSize) (len fr) g) (byte_val (to_char t))
        (len f + kHeaderSize + len fr)) as -> by congruence.
  apply (phys_ok g (len f) (len fr) (record_crc (to_char t) fr)).
  - unfold kHeaderSize in *. lia.
  - by apply phys_bytes_header.
  - unfold zero_header. rewrite byte_val_to_char, Z.mod_small by lia.
    by rewrite (proj2 (Z.eqb_neq t kZeroType)) by (unfold kZeroType; lia).
  - unfold fits. apply negb_true_iff, orb_false_iff. split; apply Z.ltb_ge; [|lia].
    pose proof (Z.mod_pos_bound (len f) kBlockSize eq_refl). lia.
  - by rewrite Hsl.
Qed.

(** A record that is cut before its last byte. *)
Lemma phys_bytes_cut f t fr x y :
  1 ≤ t ≤ 4 → len f mod kBlockSize + kHeaderSize + len fr ≤ kBlockSize →
  phys_bytes t fr = x ++ y → y ≠ [] →
  phys_rel (f ++ x) (len f) PhysEof ∨ phys_rel (f ++ x) (len f) PhysCorruption.
Proof.
  intros Ht Hroom Hxy Hy. pose proof (len_nonneg f). pose proof (len_nonneg x).
  assert (0 < len y) as Hy0 by (destruct y; [done|slia]).
  assert (len x + len y = kHeaderSize + len fr) as Hl by (rewrite <- len_app, <- Hxy; apply len_phys_bytes).
  assert (block_end (f ++ x) (len f) = len (f ++ x)) as Hbe.
  { apply (block_end_room _ _ (kHeaderSize + len fr)); [lia|lia|].
    pose proof (block_end_bounds (f ++ x) (len f)). rewrite len_app in *. lia. }
  destruct (Z.lt_ge_cases (len x) kHeaderSize) as [Hs|Hb].
  { left. apply phys_eof; rewrite Hbe; [rewrite len_app; lia|done]. }
  right. destruct (header_exists (f ++ x) (len f)) as (l & c & b & Hh); [lia|rewrite len_app; lia|].
  assert (len fr < 2 ^ 32) as Hfr.
  { pose proof (Z.mod_pos_bound (len f) kBlockSize eq_refl). rewrite kBlockSize_eq in *.
    unfold kHeaderSize in *. lia. }
  pose proof (phys_bytes_header f t fr [] ltac:(slia)) as Hh'. rewrite app_nil_r, Hxy in Hh'.
  assert (header_at (f ++ x ++ y) (len f) l c b) as Hh2 by (rewrite app_assoc; by apply header_at_app).
  destruct (header_at_fun _ _ _ _ _ _ _ _ Hh2 Hh') as (-> & -> & ->).
  eapply phys_torn; [rewrite Hbe, len_app; lia|exact Hh| |].
  - unfold zero_header. rewrite byte_val_to_char, Z.mod_small by lia.
    by rewrite (proj2 (Z.eqb_neq t kZeroType)) by (unfold kZeroType; lia).
  - unfold fits. rewrite Hbe, len_app. apply negb_false_iff, orb_true_iff. right. apply Z.ltb_lt. lia.
Qed.

(** [acc] when the loop is about to write its first or a later fragment. *)
Definition acc_of (begin : bool) (s : bytes) : option bytes := if begin then None else Some s.

Lemma rec_rel_skip g o o' acc sp :
  (∀ r, phys_rel g o' r → phys_rel g o r) → rec_rel g o' acc sp → rec_rel g o acc sp.
Proof.
  intros H Hr. inversion Hr; subst; eauto using rec_rel.
Qed.

(** A tail too short for a header is skipped when the log goes on after it. *)
Lemma pad_skip f g rest block_off r :
  0 ≤ block_off ≤ kBlockSize → len f mod kBlockSize = block_off mod kBlockSize →
  kBlockSize - block_off < kHeaderSize →
  g = f ++ replicate (Z.to_nat (kBlockSize - block_off)) Init.Byte.x00 ++ rest → rest ≠ [] →
  phys_rel g (len f + (kBlockSize - block_off)) r → phys_rel g (len f) r.
Proof.
  intros Hb Hm Hs Hg Hne Hr. pose proof (len_nonneg f).
  destruct (Z.eq_dec block_off kBlockSize) as [->|Hn].
  { by replace (len f + (kBlockSize - kBlockSize)) with (len f) in Hr by lia. }
  assert (0 < len rest) as Hrest by (destruct rest; [done|slia]).
  assert (len g = len f + (kBlockSize - block_off) + len rest) as Hlg by (subst g; slia).
  assert (block_end g (len f) = len f + (kBlockSize - block_off)) as Hbe.
  { unfold block_end. rewrite kBlockSize_eq, (Z.mod_small block_off) in * by lia.
    Z.div_mod_to_equations. lia. }
  apply phys_next; [lia|lia|]. by rewrite Hbe.
Qed.

Lemma pad_aligned f block_off :
  0 ≤ block_off ≤ kBlockSize → len f mod kBlockSize = block_off mod kBlockSize →
  len (f ++ replicate (Z.to_nat (kBlockSize - block_off)) Init.Byte.x00)
    = len f + (kBlockSize - block_off) ∧
  (len f + (kBlockSize - block_off)) mod kBlockSize = 0.
Proof.
  intros Hb Hm. split; [slia|]. rewrite kBlockSize_eq in *. Z.div_mod_to_equations. lia.
Qed.

Lemma block_filled o n : o mod kBlockSize + n = kBlockSize → (o + n) mod kBlockSize = kBlockSize mod kBlockSize.
Proof.
  intros H. assert (o + n = (o / kBlockSize + 1) * kBlockSize) as ->.
  { pose proof (Z.div_mod o kBlockSize ltac:(by rewrite kBlockSize_eq)). lia. }
  by rewrite Z.mod_mul, Z.mod_same by (by rewrite kBlockSize_eq).
Qed.

Lemma encode_loop_nonempty fuel block_off p begin e :
  0 ≤ block_off ≤ kBlockSize → encode_loop fuel block_off p begin = Some e → e ≠ [].
Proof.
  destruct fuel as [|fuel]; [done|]. intros Hb He ->.
  destruct (Z.lt_ge_cases (kBlockSize - block_off) kHeaderSize).
  - rewrite encode_pad in He by done. apply fmap_Some in He as (e' & He' & E).
    symmetry in E. apply app_nil in E as [_ ->]. 
    rewrite encode_step in He' by (rewrite ?kBlockSize_eq; done). cbv zeta in He'.
    destruct (_ <? _); [|by inversion He']. apply fmap_Some in He' as (? & _ & E). done.
  - rewrite encode_step in He by lia. cbv zeta in He.
    destruct (_ <? _); [|by inversion He]. apply fmap_Some in He as (? & _ & E). done.
Qed.

Lemma acc_step g o fr e begin s sp :
  phys_rel g o (PhysOk fr (frag_type begin false) e) →
  rec_rel g e (Some (default [] (acc_of begin s) ++ fr)) sp → rec_rel g o (acc_of begin s) sp.
Proof. destruct begin; simpl; intros H Hr; [by eapply rec_first|by eapply rec_middle]. Qed.

Lemma acc_last g o fr e begin s :
  phys_rel g o (PhysOk fr (frag_type begin true) e) →
  rec_rel g o (acc_of begin s) (SpOk (default [] (acc_of begin s) ++ fr) e).
Proof. destruct begin; simpl; intros H; [by apply rec_full|by apply rec_last]. Qed.

(** An encoded record is read back, whatever follows it. *)
Lemma encode_loop_reads fuel f block_off p begin s e tail :
  encode_loop fuel block_off p begin = Some e →
  0 ≤ block_off ≤ kBlockSize → len f mod kBlockSize = block_off mod kBlockSize →
  rec_rel (f ++ e ++ tail) (len f) (acc_of begin s)
    (SpOk (default [] (acc_of begin s) ++ p) (len f + len e)).
Proof.
  revert f block_off p begin s e. induction fuel as [|fuel IH]; [done|].
  intros f block_off p begin s e He Hb Hm.
  assert (∀ f block_off e, encode_loop (S fuel) block_off p begin = Some e →
    0 ≤ block_off → block_off + kHeaderSize ≤ kBlockSize → len f mod kBlockSize = block_off →
    rec_rel (f ++ e ++ tail) (len f) (acc_of begin s)
      (SpOk (default [] (acc_of begin s) ++ p) (len f + len e))) as Hroom.
  { clear f block_off e He Hb Hm. intros f block_off e He H0 Hr Hm.
    rewrite encode_step in He by done. pose proof (frag_len_range block_off p H0 Hr) as (F1 & F2 & F3).
    set (fl := frag_len block_off p) in *. cbv zeta in He.
    destruct (Z.ltb_spec fl (len p)) as [Hlt|Hge].
    - apply fmap_Some in He as (e' & He' & ->).
      assert (len (slice 0 fl p) = fl) as Hfl by (apply len_slice; lia).
      set (b := phys_bytes (frag_type begin false) (slice 0 fl p)) in *.
      assert (len b = kHeaderSize + fl) as Hlb by (unfold b; rewrite len_phys_bytes; lia).
      eapply acc_step.
      + rewrite <- (app_assoc b). apply phys_bytes_reads; [apply frag_type_range|lia].
      + specialize (IH (f ++ b) kBlockSize (at_off fl p) false
                      (default [] (acc_of begin s) ++ slice 0 fl p) e' He').
        rewrite <- !app_assoc in *. rewrite !len_app, Hlb, Hfl in *.
        replace (len f + (kHeaderSize + fl)) with (len f + kHeaderSize + fl) in IH by lia.
        replace (len f + (kHeaderSize + fl + len e')) with (len f + kHeaderSize + fl + len e') by lia.
        change (acc_of false ?x) with (Some x) in IH. cbn [from_option id] in IH.
        rewrite <- app_assoc, <- (slice_split p fl) in IH by lia. apply IH; [rewrite kBlockSize_eq; done|].
        rewrite <- Z.add_assoc. apply block_filled. rewrite Hm. lia.
    - injection He as <-. rewrite len_phys_bytes. rewrite Z.add_assoc.
      apply acc_last, phys_bytes_reads; [apply frag_type_range|]. lia. }
  destruct (Z.lt_ge_cases (kBlockSize - block_off) kHeaderSize) as [Hs|Hs].
  - rewrite encode_pad in He by done. apply fmap_Some in He as (e' & He' & ->).
    destruct (pad_aligned f block_off Hb Hm) as [Hl H0].
    set (pad := replicate _ _) in *.
    assert (e' ++ tail ≠ []) as Hne.
    { intros [-> _]%app_nil. by apply encode_loop_nonempty in He'; [|rewrite kBlockSize_eq]. }
    apply (rec_rel_skip _ (len f) (len f + (kBlockSize - block_off))).
    { intros r Hr. eapply (pad_skip f _ (e' ++ tail)); try done. by rewrite <- app_assoc. }
    rewrite <- Hl in *. specialize (Hroom (f ++ pad) 0 e' He' ltac:(done) ltac:(by rewrite kBlockSize_eq) H0).
    rewrite <- !app_assoc in *. rewrite !len_app in *. rewrite Z.add_assoc. done.
  - apply Hroom with block_off; [done|lia|lia|].
    rewrite Hm. apply Z.mod_small. unfold kHeaderSize in *. lia.
Qed.

(** The writer never runs out of fuel. *)
Lemma encode_loop_total_full fuel p begin :
  (length p < fuel)%nat → is_Some (encode_loop fuel kBlockSize p begin).
Proof.
  revert p begin. induction fuel as [|fuel IH]; intros p begin Hf; [lia|].
  rewrite encode_pad by (rewrite Z.sub_diag; done). apply fmap_is_Some.
  rewrite encode_step by (rewrite ?kBlockSize_eq; done). cbv zeta.
  destruct (Z.ltb_spec (frag_len 0 p) (len p)) as [Hlt|]; [|by eexists].
  apply fmap_is_Some, IH. unfold at_off. rewrite length_drop.
  destruct (frag_len_range 0 p) as (F1 & F2 & F3); [done|rewrite kBlockSize_eq; done|].
  specialize (F3 Hlt). rewrite kBlockSize_eq in F3. unfold kHeaderSize, len in *. lia.
Qed.

Lemma encode_loop_total fuel block_off p begin :
  0 ≤ block_off ≤ kBlockSize → (length p + 1 < fuel)%nat →
  is_Some (encode_loop fuel block_off p begin).
Proof.
  intros Hb Hf. destruct fuel as [|fuel]; [lia|].
  assert (∀ bo, 0 ≤ bo → bo + kHeaderSize ≤ kBlockSize → is_Some (encode_loop (S fuel) bo p begin)) as Hgo.
  { intros bo H0 H1. rewrite encode_step by done. cbv zeta. destruct (_ <? _); [|by eexists].
    apply fmap_is_Some, encode_loop_total_full. unfold at_off. rewrite length_drop. lia. }
  destruct (Z.lt_ge_cases (kBlockSize - block_off) kHeaderSize) as [Hs|Hs].
  - rewrite encode_pad by done. apply fmap_is_Some, Hgo; [done|]. by rewrite kBlockSize_eq.
  - apply Hgo; lia.
Qed.

Lemma EncodeRecord_loop p o :
  encode_loop (length p + 2) (o mod kBlockSize) p true = Some (EncodeRecord p o) ∧
  0 ≤ o mod kBlockSize ≤ kBlockSize.
Proof.
  pose proof (Z.mod_pos_bound o kBlockSize eq_refl).
  destruct (encode_loop_total (length p + 2) (o mod kBlockSize) p true) as [e He]; [lia..|].
  unfold EncodeRecord. rewrite He. split; [done|lia].
Qed.

Lemma EncodeRecord_nonempty p o : EncodeRecord p o ≠ [].
Proof. destruct (EncodeRecord_loop p o) as [He Hb]. eapply encode_loop_nonempty; [|exact He]. lia. Qed.

Lemma EncodeRecord_reads f p tail :
  rec_rel (f ++ EncodeRecord p (len f) ++ tail) (len f) None
    (SpOk p (len f + len (EncodeRecord p (len f)))).
Proof.
  destruct (EncodeRecord_loop p (len f)) as [He Hb].
  apply (encode_loop_reads _ f _ p true [] _ tail He Hb). by rewrite Z.mod_mod by (by rewrite kBlockSize_eq).
Qed.

Definition not_ok (sp : rec_spec) : Prop := sp = SpEof ∨ sp = SpTorn.

Lemma acc_fails g o begin s :
  phys_rel g o PhysEof ∨ phys_rel g o PhysCorruption →
  ∃ sp, rec_rel g o (acc_of begin s) sp ∧ not_ok sp.
Proof.
  intros [H|H]; [destruct begin; simpl|].
  - exists SpEof. split; [by apply rec_eof|by left].
  - exists SpTorn. split; [by apply rec_eof_inside|by right].
  - exists SpTorn. split; [by apply rec_corrupt|by right].
Qed.

Lemma app_eq_cut {A} (a b x y : list A) :
  a ++ b = x ++ y → len x < len a → ∃ z, a = x ++ z ∧ y = z ++ b ∧ z ≠ [].
Proof.
  intros H Hl. apply app_eq_app in H as (z & [[-> ->]|[-> ->]]); [|slia].
  exists z. split_and!; [done|done|]. intros ->. slia.
Qed.

Lemma app_eq_past {A} (a b x y : list A) :
  a ++ b = x ++ y → len a ≤ len x → ∃ z, x = a ++ z ∧ b = z ++ y.
Proof.
  intros H Hl. apply app_eq_app in H as (z & [[-> ->]|[-> ->]]); [|by exists z].
  assert (z = []) as -> by (apply nil_length_inv; unfold len in Hl; rewrite length_app in Hl; lia).
  exists []. by rewrite !app_nil_r.
Qed.

(** A record cut before its last byte is not read: nothing invented. *)
Lemma encode_loop_torn fuel f block_off p begin s x y :
  encode_loop fuel block_off p begin = Some (x ++ y) → y ≠ [] →
  0 ≤ block_off ≤ kBlockSize → len f mod kBlockSize = block_off mod kBlockSize →
  ∃ sp, rec_rel (f ++ x) (len f) (acc_of begin s) sp ∧ not_ok sp.
Proof.
  revert f block_off p begin s x. induction fuel as [|fuel IH]; [done|].
  intros f block_off p begin s x He Hy Hb Hm.
  assert (∀ f block_off x, encode_loop (S fuel) block_off p begin = Some (x ++ y) →
    0 ≤ block_off → block_off + kHeaderSize ≤ kBlockSize → len f mod kBlockSize = block_off →
    ∃ sp, rec_rel (f ++ x) (len f) (acc_of begin s) sp ∧ not_ok sp) as Hroom.
  { clear f block_off x He Hb Hm. intros f block_off x He H0 Hr Hm.
    rewrite encode_step in He by done. pose proof (frag_len_range block_off p H0 Hr) as (F1 & F2 & F3).
    set (fl := frag_len block_off p) in *. cbv zeta in He.
    destruct (Z.ltb_spec fl (len p)) as [Hlt|Hge].
    2:{ injection He as He. apply acc_fails.
        eapply phys_bytes_cut; [apply frag_type_range| |exact He|done]. lia. }
    apply fmap_Some in He as (e' & He' & He).
    assert (len (slice 0 fl p) = fl) as Hfl by (apply len_slice; lia).
    set (b := phys_bytes (frag_type begin false) (slice 0 fl p)) in *.
    assert (len b = kHeaderSize + fl) as Hlb by (unfold b; rewrite len_phys_bytes; lia).
    destruct (Z.lt_ge_cases (len x) (len b)) as [Hc|Hc].
    { symmetry in He. apply app_eq_cut in He as (z & Hz & _ & Hne); [|done].
      apply acc_fails. eapply phys_bytes_cut; [apply frag_type_range| |exact Hz|done]. lia. }
    symmetry in He. apply app_eq_past in He as (z & -> & ->); [|done].
    destruct (IH (f ++ b) kBlockSize (at_off fl p) false
        (default [] (acc_of begin s) ++ slice 0 fl p) z) as (sp & Hsp & Hno); try done.
    { rewrite len_app, Hlb. apply block_filled. rewrite Hm. lia. }
    exists sp. split; [|done]. rewrite len_app, Hlb, <- app_assoc in Hsp. eapply acc_step.
    - apply phys_bytes_reads; [apply frag_type_range|lia].
    - rewrite Hfl, <- Z.add_assoc. exact Hsp. }
  destruct (Z.lt_ge_cases (kBlockSize - block_off) kHeaderSize) as [Hs|Hs].
  2:{ apply Hroom with block_off; [done|lia|lia|].
      rewrite Hm. apply Z.mod_small. unfold kHeaderSize in *. lia. }
  rewrite encode_pad in He by done. apply fmap_Some in He as (e' & He' & He).
  destruct (pad_aligned f block_off Hb Hm) as [Hl H0].
  set (pad := replicate _ _) in *. symmetry in He.
  destruct (Z.le_gt_cases (len x) (len pad)) as [Hc|Hc].
  - apply acc_fails. left. assert (len pad = kBlockSize - block_off) as Hlp by (unfold pad; slia).
    pose proof (len_nonneg f). pose proof (len_nonneg x).
    assert (block_end (f ++ x) (len f) = len (f ++ x)) as Hbe.
    { unfold block_end. rewrite len_app. rewrite kBlockSize_eq in *. Z.div_mod_to_equations. lia. }
    apply phys_eof; [|done]. rewrite Hbe, len_app. lia.
  - apply app_eq_past in He as (z & -> & ->); [|lia].
    assert (z ≠ []) as Hz by (intros ->; rewrite app_nil_r in Hc; lia).
    destruct (Hroom (f ++ pad) 0 z He') as (sp & Hsp & Hno); [done|by rewrite kBlockSize_eq|by rewrite Hl|].
    exists sp. split; [|done]. rewrite Hl, <- app_assoc in Hsp.
    eapply rec_rel_skip; [|exact Hsp]. intros r Hr. by eapply (pad_skip f _ z).
Qed.

Lemma EncodeRecord_torn f p x y :
  EncodeRecord p (len f) = x ++ y → y ≠ [] →
  ∃ sp, rec_rel (f ++ x) (len f) None sp ∧ not_ok sp.
Proof.
  intros Hxy Hy. destruct (EncodeRecord_loop p (len f)) as [He Hb]. rewrite Hxy in He.
  apply (encode_loop_torn _ f _ p true [] x y He Hy Hb).
  by rewrite Z.mod_mod by (by rewrite kBlockSize_eq).
Qed.

(** ** Locality: a record depends on the bytes up to its end *)

Lemma GetFixed32_local g1 g2 n o :
  0 ≤ o → o + 4 ≤ n → slice 0 n g1 = slice 0 n g2 →
  GetFixed32 (at_off o g1) = GetFixed32 (at_off o g2).
Proof.
  intros Ho Hn E. rewrite <- (Z.add_0_l o).
  by rewrite <- (GetFixed32_slice 0 n o g1), <- (GetFixed32_slice 0 n o g2), E by lia.
Qed.

Lemma header_at_local g1 g2 n o l c b :
  0 ≤ o → o + kHeaderSize ≤ n → slice 0 n g1 = slice 0 n g2 →
  header_at g1 o l c b → header_at g2 o l c b.
Proof.
  unfold kHeaderSize. intros Ho Hn E (H1 & H2 & H3). split_and!.
  - rewrite <- H1. symmetry. apply (GetFixed32_local _ _ n); [lia|lia|done].
  - rewrite <- H2. symmetry. apply (GetFixed32_local _ _ n); [lia|lia|done].
  - rewrite <- H3, <- (Z.add_0_l (o + 8)).
    by rewrite <- (at_ix_slice g1 0 n), <- (at_ix_slice g2 0 n), E by lia.
Qed.

Section Local.
Context (g1 g2 : bytes) (n : Z).
Context (Hn1 : n ≤ len g1) (Hn2 : n ≤ len g2) (Hagree : slice 0 n g1 = slice 0 n g2).

Lemma block_end_local o :
  0 ≤ o → block_end g1 o < n → block_end g2 o = block_end g1 o.
Proof using Hn1 Hn2. intros Ho. unfold block_end. lia. Qed.

Lemma phys_rel_local o fr t e :
  phys_rel g1 o (PhysOk fr t e) → 0 ≤ o → e ≤ n → phys_rel g2 o (PhysOk fr t e).
Proof using Hn1 Hn2 Hagree.
  intros H. remember (PhysOk fr t e) as res eqn:E. revert E.
  induction H as [|o r Hs Hl H IH|o l c b r Hs Hh Hz H IH| | |o l c b Hs Hh Hz Hf Hc];
    intros E Ho He; try done; pose proof (block_end_bounds g1 o Ho) as [Hbb _].
  - subst r. pose proof (phys_rel_end _ _ _ _ _ H ltac:(lia)) as Hend. unfold kHeaderSize in *.
    pose proof (block_end_local o Ho ltac:(lia)) as Hb. apply phys_next; rewrite Hb;
      unfold kHeaderSize; [lia|lia|]. apply IH; [done|lia|done].
  - subst r. pose proof (phys_rel_end _ _ _ _ _ H ltac:(lia)) as Hend. unfold kHeaderSize in *.
    pose proof (block_end_local o Ho ltac:(lia)) as Hb.
    apply (phys_zero g2 o l c b); [by rewrite Hb| |done|rewrite Hb; apply IH; [done|lia|done]].
    apply (header_at_local g1 _ n); unfold kHeaderSize; try done. lia.
  - injection E as <- <- <-. pose proof (GetFixed32_inv _ _ (proj1 Hh)) as [Hl0 _].
    assert (slice (o + kHeaderSize) l g1 = slice (o + kHeaderSize) l g2) as Hsl.
    { rewrite <- (Z.add_0_l (o + kHeaderSize)). unfold kHeaderSize in *.
      by rewrite <- (slice_slice g1 0 n), <- (slice_slice g2 0 n), Hagree by lia. }
    rewrite Hsl in *. unfold fits in Hf. apply negb_true_iff, orb_false_iff in Hf as [Hf1 Hf2].
    assert (o + kHeaderSize + l ≤ block_end g2 o) as Hbe by (unfold block_end in *; lia).
    eapply phys_ok; [unfold kHeaderSize in *; lia| |exact Hz| |exact Hc].
    + eapply (header_at_local g1 _ n); try done. lia.
    + unfold fits. apply negb_true_iff, orb_false_iff. split; [done|]. apply Z.ltb_ge. lia.
Qed.

Lemma rec_rel_local o acc p e :
  rec_rel g1 o acc (SpOk p e) → 0 ≤ o → e ≤ n → rec_rel g2 o acc (SpOk p e).
Proof using Hn1 Hn2 Hagree.
  intros H. remember (SpOk p e) as sp eqn:E. revert E.
  induction H as [| | | |o fr e' H|o fr e' r H H' IH|o s fr e' r H H' IH|o s fr e' H];
    intros E Ho He; try done; pose proof (phys_rel_end _ _ _ _ _ H Ho) as Hend;
    unfold kHeaderSize in Hend.
  - injection E as <- <-. apply rec_full. by apply phys_rel_local.
  - subst r. pose proof (rec_rel_end _ _ _ _ _ H' ltac:(lia)) as He'. unfold kHeaderSize in He'.
    eapply rec_first; [apply phys_rel_local; [done|done|lia]|]. apply IH; [done|lia|done].
  - subst r. pose proof (rec_rel_end _ _ _ _ _ H' ltac:(lia)) as He'. unfold kHeaderSize in He'.
    eapply rec_middle; [apply phys_rel_local; [done|done|lia]|]. apply IH; [done|lia|done].
  - injection E as <- <-. apply rec_last. by apply phys_rel_local.
Qed.
End Local.

Lemma log_rel_good f o ps torn g : log_rel f o ps torn g → 0 ≤ o → o ≤ len f → o ≤ g ≤ len f.
Proof.
  induction 1 as [| |o p e ps torn g H _ IH]; intros Ho Hf; [lia|lia|].
  pose proof (rec_rel_end _ _ _ _ _ H Ho) as He. unfold kHeaderSize in He. lia.
Qed.

(** Nothing follows the last byte. *)
Lemma rec_rel_at_end f : rec_rel f (len f) None SpEof.
Proof.
  apply rec_eof, phys_eof; pose proof (len_nonneg f); unfold block_end, kHeaderSize;
    rewrite kBlockSize_eq; Z.div_mod_to_equations; lia.
Qed.

(** The complete records of [f] followed by what is read at their end in any
    file that starts with the same bytes. *)
Lemma log_rel_splice f f' o ps torn g qs torn' g' :
  log_rel f o ps torn g → 0 ≤ o ≤ len f → g ≤ len f' → slice 0 g f = slice 0 g f' →
  log_rel f' g qs torn' g' → log_rel f' o (ps ++ qs) torn' g'.
Proof.
  induction 1 as [| |o p e ps torn g H Hl IH]; intros Ho Hg Hag Hq; [done|done|].
  pose proof (rec_rel_end _ _ _ _ _ H ltac:(lia)) as He. unfold kHeaderSize in He.
  pose proof (log_rel_good _ _ _ _ _ Hl ltac:(lia) ltac:(lia)).
  simpl. eapply log_cons; [|apply IH; [lia|done|done|done]].
  apply (rec_rel_local f f' g); [lia|done|done|done|lia|lia].
Qed.

Lemma log_rel_repair f ps torn g :
  log_rel f 0 ps torn g → log_rel (slice 0 g f) 0 ps false g.
Proof.
  intros H. pose proof (log_rel_good _ _ _ _ _ H ltac:(lia) (len_nonneg f)) as Hg.
  assert (len (slice 0 g f) = g) as Hl by (apply len_slice; lia).
  rewrite <- (app_nil_r ps). eapply (log_rel_splice f); [done|slia|lia| |].
  - by rewrite slice_slice by lia.
  - apply log_eof. rewrite <- Hl at 2. apply rec_rel_at_end.
Qed.

Lemma slice_app_prefix {A} (l k : list A) : slice 0 (len l) l = slice 0 (len l) (l ++ k).
Proof. rewrite slice_app_l; [done|lia|slia|lia]. Qed.

Lemma log_rel_append f ps p :
  log_rel f 0 ps false (len f) →
  log_rel (f ++ EncodeRecord p (len f)) 0 (ps ++ [p]) false (len (f ++ EncodeRecord p (len f))).
Proof.
  intros H. eapply (log_rel_splice f); [done|slia|slia|apply slice_app_prefix|].
  eapply log_cons.
  - pose proof (EncodeRecord_reads f p []) as Hr. rewrite app_nil_r, <- len_app in Hr. exact Hr.
  - apply log_eof, rec_rel_at_end.
Qed.

Lemma log_rel_crash f ps p x y :
  log_rel f 0 ps false (len f) → EncodeRecord p (len f) = x ++ y → y ≠ [] →
  ∃ torn, log_rel (f ++ x) 0 ps torn (len f).
Proof.
  intros H Hxy Hy. destruct (EncodeRecord_torn f p x y Hxy Hy) as (sp & Hsp & Hno).
  assert (∃ torn, log_rel (f ++ x) (len f) [] torn (len f)) as [torn Ht].
  { destruct Hno as [-> | ->]; [exists false|exists true]; by constructor. }
  exists torn. rewrite <- (app_nil_r ps).
  eapply (log_rel_splice f); [done|slia|slia|apply slice_app_prefix|done].
Qed.

(** ** The writer appends such records *)

(** The invariant the constructor's comment demands of [file_offset_]. *)
Definition writer_ok (w : Writer) : Prop :=
  file_offset_ w = len (w_file w).

Lemma AddRecord_spec sched w p :
  writer_ok w → ok (AddRecord sched w p).1 = true →
  len (w_file w ++ EncodeRecord p (len (w_file w))) < 2 ^ 64 →
  (AddRecord sched w p).2
  = mkWriter (w_file w ++ EncodeRecord p (len (w_file w)))
      (len (w_file w ++ EncodeRecord p (len (w_file w)))).
Proof.
  unfold writer_ok, AddRecord, WriteAll. intros Hw. rewrite Hw.
  destruct (write_loop_spec sched (EncodeRecord p (len (w_file w)))) as (rest & Hd & Hr).
  destruct (write_loop sched _) as [out err]. simpl in Hd, Hr.
  destruct err as [m|]; [done|]. rewrite Hr, app_nil_r in Hd by done. rewrite <- Hd.
  intros _ Hlt. cbn [ok]. simpl snd. f_equal. rewrite len_app in *. unfold u64.
  apply Z.mod_small. pose_len_nonneg. lia.
Qed.

(** A run of the writer: the payloads, each with the outcomes of its write
    calls; it stops at the first failure. *)
Fixpoint add_records (w : Writer) (rs : list (list io_outcome * bytes)) : Status * Writer :=
  match rs with
  | [] => (Ok, w)
  | (sched, p) :: rs =>
      let '(s, w) := AddRecord sched w p in
      if ok s then add_records w rs else (s, w)
  end.

(** The file after appending the payloads to [f]. *)
Definition wal_image (f : bytes) (ps : list bytes) : bytes :=
  foldl (λ f p, f ++ EncodeRecord p (len f)) f ps.

Lemma wal_image_grows f ps : len f ≤ len (wal_image f ps).
Proof.
  revert f. induction ps as [|p ps IH]; intros f; [done|]. specialize (IH (f ++ EncodeRecord p (len f))).
  simpl. rewrite len_app in IH. pose_len_nonneg. lia.
Qed.

Lemma add_records_image w rs :
  writer_ok w → ok (add_records w rs).1 = true → len (wal_image (w_file w) rs.*2) < 2 ^ 64 →
  w_file (add_records w rs).2 = wal_image (w_file w) rs.*2.
Proof.
  revert w. induction rs as [|[sched p] rs IH]; intros w Hw Hok Hlt; [done|].
  cbn [add_records] in *.
  change (len (wal_image (w_file w ++ EncodeRecord p (len (w_file w))) rs.*2) < 2 ^ 64) in Hlt.
  pose proof (wal_image_grows (w_file w ++ EncodeRecord p (len (w_file w))) rs.*2) as Hgr.
  pose proof (AddRecord_spec sched w p Hw) as Hadd.
  revert Hok Hadd. destruct (AddRecord sched w p) as [s w']. cbn [fst snd].
  destruct (ok s) eqn:Es; [|cbn [fst]; congruence].
  intros Hok Hadd. specialize (Hadd eq_refl ltac:(lia)). subst w'. by apply IH.
Qed.

Lemma wal_image_log f ps qs :
  log_rel f 0 ps false (len f) →
  log_rel (wal_image f qs) 0 (ps ++ qs) false (len (wal_image f qs)).
Proof.
  revert f ps. induction qs as [|q qs IH]; intros f ps H; [by rewrite app_nil_r|].
  rewrite (cons_middle q ps qs), app_assoc. simpl. apply IH. by apply log_rel_append.
Qed.

Lemma log_rel_nil : log_rel [] 0 [] false (len (@nil byte)).
Proof. apply log_eof, (rec_rel_at_end []). Qed.

Lemma wal_image_snoc f ps p :
  wal_image f (ps ++ [p]) = wal_image f ps ++ EncodeRecord p (len (wal_image f ps)).
Proof. unfold wal_image. by rewrite foldl_app. Qed.

(** A prefix of an image ends inside exactly one record. *)
Lemma wal_image_prefix ps n :
  0 ≤ n ≤ len (wal_image [] ps) →
  ∃ k torn, (k ≤ length ps)%nat ∧ len (wal_image [] (take k ps)) ≤ n ∧
    (n < len (wal_image [] ps) → n < len (wal_image [] (take (S k) ps))) ∧
    log_rel (slice 0 n (wal_image [] ps)) 0 (take k ps) torn (len (wal_image [] (take k ps))).
Proof.
  induction ps as [|p ps IH] using rev_ind; intros Hn.
  { exists 0%nat, false. simpl in *. assert (n = 0) as -> by (unfold len in Hn; simpl in Hn; lia).
    split_and!; [lia|done|done|]. apply log_rel_nil. }
  rewrite wal_image_snoc in *. set (f := wal_image [] ps) in *.
  pose proof (wal_image_log [] [] ps log_rel_nil) as Hlog. fold f in Hlog. simpl app in Hlog.
  assert (take (length ps) (ps ++ [p]) = ps) as Htk by (by rewrite take_app_length).
  destruct (Z.lt_ge_cases n (len f)) as [Hlt|Hge].
  - destruct IH as (k & torn & Hk & H1 & H2 & H3); [lia|]. exists k, torn.
    assert (k < length ps)%nat as Hk'.
    { destruct (decide (k = length ps)) as [->|]; [|lia]. rewrite take_ge in H1 by done. fold f in H1. lia. }
    rewrite !take_app_le by lia. rewrite slice_app_l by lia.
    split_and!; [rewrite length_app; lia|done|auto|done].
  - destruct (Z.eq_dec n (len (f ++ EncodeRecord p (len f)))) as [->|Hne].
    + exists (length (ps ++ [p])), false. rewrite !take_ge by (try rewrite length_app; lia).
      rewrite slice_full, wal_image_snoc. fold f. split_and!; [lia|lia|lia|by apply log_rel_append].
    + set (e := EncodeRecord p (len f)) in *. rewrite len_app in Hn, Hne.
      destruct (log_rel_crash f ps p (slice 0 (n - len f) e) (at_off (n - len f) e) Hlog) as [torn Ht].
      { apply slice_split. lia. }
      { intros E. apply (f_equal len) in E. rewrite len_at_off, len_nil in E by lia. lia. }
      exists (length ps), torn. rewrite Htk. rewrite (take_ge (ps ++ [p])) by (rewrite length_app; simpl; lia).
      rewrite wal_image_snoc. fold f e. split_and!; [rewrite length_app; lia|lia|done|].
      rewrite slice_app by lia. exact Ht.
Qed.

(** ** Main theorems *)

(** C13: log round trip: the payloads of a run of AddRecord calls that all
    report success, however their writes were split or interrupted, are
    exactly what a reader returns before a clean end of file, for every way
    its reads are split; the last good end is the size of the file. *)
Theorem wal_roundtrip (rs : list (list io_outcome * bytes)) (sched : list io_outcome) :
  ok (add_records (mkWriter [] 0) rs).1 = true →
  len (wal_image [] rs.*2) < 2 ^ 64 → error_free sched = true →
  let file := w_file (add_records (mkWriter [] 0) rs).2 in
  ReadLog file sched = Some (rs.*2, RecEof, len file).
Proof.
  intros Hok Hlt Hs file. unfold file. rewrite add_records_image by done.
  apply (ReadLog_of_rel _ _ _ false); [done|].
  exact (wal_image_log [] [] rs.*2 log_rel_nil).
Qed.

Lemma wal_roundtrip_witness :
  let rs := [([IoBytes 3; IoEintr], lit "put a"); ([], []); ([IoBytes 0], lit "del b")] in
  let file := w_file (add_records (mkWriter [] 0) rs).2 in
  ReadLog file [IoBytes 5; IoEintr; IoBytes 1] = Some (rs.*2, RecEof, len file).
Proof.
  apply (wal_roundtrip [([IoBytes 3; IoEintr], lit "put a"); ([], []); ([IoBytes 0], lit "del b")]
           [IoBytes 5; IoEintr; IoBytes 1]); vm_compute; reflexivity.
Defined.

(** C11: crash safety of the log: reading any prefix of a log returns exactly
    the records that lie wholly inside the prefix: none is lost, none is
    invented, and the reported truncation point is the end of the last of
    them. *)
Theorem wal_crash_prefix (ps : list bytes) (n : Z) (sched : list io_outcome) :
  0 ≤ n ≤ len (wal_image [] ps) → error_free sched = true →
  ∃ k torn, let good := len (wal_image [] (take k ps)) in
    ReadLog (slice 0 n (wal_image [] ps)) sched = Some (take k ps, log_result torn good, good) ∧
    good ≤ n ∧ (n < len (wal_image [] ps) → n < len (wal_image [] (take (S k) ps))).
Proof.
  intros Hn Hs. destruct (wal_image_prefix ps n Hn) as (k & torn & Hk & H1 & H2 & H3).
  exists k, torn. split_and!; [by apply ReadLog_of_rel|done|done].
Qed.

Lemma wal_crash_prefix_witness :
  ∃ k torn, let good := len (wal_image [] (take k [lit "a"; lit "bc"; lit "d"])) in
    ReadLog (slice 0 15 (wal_image [] [lit "a"; lit "bc"; lit "d"])) [IoBytes 4]
      = Some (take k [lit "a"; lit "bc"; lit "d"], log_result torn good, good) ∧
    good ≤ 15 ∧ (15 < len (wal_image [] [lit "a"; lit "bc"; lit "d"]) →
                 15 < len (wal_image [] (take (S k) [lit "a"; lit "bc"; lit "d"]))).
Proof.
  apply (wal_crash_prefix [lit "a"; lit "bc"; lit "d"] 15 [IoBytes 4]); [|vm_compute; reflexivity].
  split; vm_compute; discriminate.
Defined.

(** C12: repair of an arbitrary file: whatever bytes the log holds, reading it
    terminates inside its buffer and reports a truncation point within the
    file; the file truncated there replays to the same records with a clean
    end, and records appended after the truncation are all read back. *)
Theorem wal_repair (file : bytes) (sched sched' : list io_outcome)
    (rs : list (list io_outcome * bytes)) :
  error_free sched = true → error_free sched' = true →
  ∃ ps torn good, ReadLog file sched = Some (ps, log_result torn good, good) ∧
    0 ≤ good ≤ len file ∧
    let repaired := slice 0 good file in
    ReadLog repaired sched' = Some (ps, RecEof, good) ∧
    (ok (add_records (mkWriter repaired good) rs).1 = true →
     len (wal_image repaired rs.*2) < 2 ^ 64 →
     let file' := w_file (add_records (mkWriter repaired good) rs).2 in
     ReadLog file' sched' = Some (ps ++ rs.*2, RecEof, len file')).
Proof.
  intros Hs Hs'. destruct (ReadLog_spec file sched Hs) as (ps & torn & good & E & Hlog).
  exists ps, torn, good. split; [done|].
  pose proof (log_rel_good _ _ _ _ _ Hlog ltac:(lia) (len_nonneg file)) as Hg. split; [done|].
  pose proof (log_rel_repair _ _ _ _ Hlog) as Hrep.
  assert (len (slice 0 good file) = good) as Hl by (apply len_slice; lia).
  split; [by apply (ReadLog_of_rel _ _ _ false)|].
  intros Hok Hlt. rewrite add_records_image by done.
  apply (ReadLog_of_rel _ _ _ false); [done|]. apply wal_image_log. cbn [w_file]. by rewrite Hl.
Qed.

Lemma wal_repair_witness :
  ∃ ps torn good, ReadLog (EncodeRecord (lit "a") 0 ++ lit "garbage!!") [] = Some (ps, log_result torn good, good) ∧
    0 ≤ good ≤ len (EncodeRecord (lit "a") 0 ++ lit "garbage!!") ∧
    let repaired := slice 0 good (EncodeRecord (lit "a") 0 ++ lit "garbage!!") in
    ReadLog repaired [] = Some (ps, RecEof, good) ∧
    (ok (add_records (mkWriter repaired good) [([], lit "b")]).1 = true →
     len (wal_image repaired [lit "b"]) < 2 ^ 64 →
     let file' := w_file (add_records (mkWriter repaired good) [([], lit "b")]).2 in
     ReadLog file' [] = Some (ps ++ [lit "b"], RecEof, len file')).
Proof.
  apply (wal_repair (EncodeRecord (lit "a") 0 ++ lit "garbage!!") [] [] [([], lit "b")]); reflexivity.
Defined.

(** ** Two behaviours a caller must know *)

(** A torn header, one to eight bytes after the last record, is reported
    as a clean end of file and not as corruption, so a caller that truncates
    only on corruption leaves it in place; a record whose AddRecord then
    reports success is not read back. *)
Example torn_header_hides_later_records :
  let f := EncodeRecord (lit "a") 0 ++ take 3 (EncodeRecord (lit "lost in the crash") 10) in
  ReadLog f [] = Some ([lit "a"], RecEof, 10) ∧ len f = 13 ∧
  let w := AddRecord [] (mkWriter f (len f)) (lit "acknowledged") in
  w.1 = Ok ∧ ReadLog (w_file w.2) [] = Some ([lit "a"], RecCorruption 10, 10).
Proof. vm_compute. done. Qed.


End log.
