(* ===== verification/VLog.v ===== *)
(** * The value log

    Models include/bedrockkv/vlog.h and src/vlog.cpp: value pointers, [Append],
    [ReadValue], [Sync] and [ScanEntries].  [v_file] is the file behind the
    descriptor, which is opened [O_APPEND]: every write lands at its end.  The
    outcomes of [::write], [::pread], [::lseek] and [::fsync] are arguments. *)

From S2P Require Import Prelude Status FsUtil Encoding Crc32.

(** ** Value pointers *)

Record ValuePointer := mkValuePointer { vlog_number : Z; offset : Z; value_size : Z }.

Definition kValuePointerSize : Z := 21.
Definition kValuePointerTag : byte := Init.Byte.xff.

Definition EncodeValuePointer (p : ValuePointer) : bytes :=
  [kValuePointerTag] ++ PutFixed64 (vlog_number p) ++ PutFixed64 (offset p) ++ PutFixed32 (value_size p).

(** [None]: the function returns false. *)
Definition DecodeValuePointer (stored : bytes) : option ValuePointer :=
  if negb (len stored =? kValuePointerSize) || negb (bool_decide (at_ix stored 0 = Some kValuePointerTag))
  then None
  else
    let d := at_off 1 stored in
    n ← GetFixed64 d;
    off ← GetFixed64 (at_off 8 d);
    size ← GetFixed32 (at_off 16 d);
    Some (mkValuePointer n off size).

Lemma DecodeValuePointer_fields (a b c : bytes) :
  len a = 8 → len b = 8 → len c = 4 →
  DecodeValuePointer (kValuePointerTag :: a ++ b ++ c) =
    (n ← GetFixed64 (a ++ b ++ c); off ← GetFixed64 (b ++ c); size ← GetFixed32 c; Some (mkValuePointer n off size)).
Proof.
  intros Ha Hb Hc. unfold DecodeValuePointer.
  assert (len (kValuePointerTag :: a ++ b ++ c) = kValuePointerSize) as -> by (unfold kValuePointerSize; slia).
  rewrite Z.eqb_refl. cbn [negb orb].
  assert (at_ix (kValuePointerTag :: a ++ b ++ c) 0 = Some kValuePointerTag) as -> by done.
  rewrite bool_decide_eq_true_2 by done. cbn [negb]. cbv zeta.
  change (kValuePointerTag :: a ++ b ++ c) with ([kValuePointerTag] ++ a ++ b ++ c).
  rewrite (at_off_app [kValuePointerTag]) by done.
  rewrite (at_off_app a _ 8) by done. rewrite (app_assoc a b c), (at_off_app (a ++ b) c 16) by slia. done.
Qed.

Lemma DecodeValuePointer_Encode p :
  0 ≤ vlog_number p < 2 ^ 64 → 0 ≤ offset p < 2 ^ 64 → 0 ≤ value_size p < 2 ^ 32 →
  DecodeValuePointer (EncodeValuePointer p) = Some p.
Proof.
  intros Hn Ho Hs. unfold EncodeValuePointer. cbn [app].
  rewrite DecodeValuePointer_fields by apply len_PutFixed64 || apply len_PutFixed32.
  rewrite GetFixed64_Put. cbn [mbind option_bind]. rewrite GetFixed64_Put. cbn [mbind option_bind].
  pose proof (GetFixed32_Put (value_size p) []) as E. rewrite app_nil_r in E. rewrite E. cbn [mbind option_bind].
  rewrite (u64_small _ Hn), (u64_small _ Ho), (u32_small _ Hs). by destruct p.
Qed.

(** ** The log *)

Module vlog.

Definition kEntryHeaderSize : Z := 12.

Record VLog := mkVLog { v_file : bytes; number_ : Z; end_ : Z }.

Definition FileName (number : Z) : bytes := zero_pad6 number ++ lit ".vlog".

(** [O_CREAT]: a missing file is created empty. *)
Definition Open (open_err : option bytes) (fs : files) (dir : bytes) (number : Z) : Status * option VLog :=
  let path := dir ++ lit "/" ++ FileName number in
  match open_err with
  | Some e => (IOError (lit "cannot open " ++ path ++ lit ": " ++ e), None)
  | None =>
      let file := default [] (fs !! path) in
      (Ok, Some (mkVLog file number (len file)))
  end.

Definition entry_image (key value : bytes) : bytes :=
  let body := PutFixed32 (u32 (len key)) ++ PutFixed32 (u32 (len value)) ++ key ++ value in
  PutFixed32 (Crc32 body 0) ++ body.

(** The status, the log, [*offset] and, on success, [*entry_bytes].
    [lseek_ok] is whether the [lseek] after a failed write succeeds. *)
Definition Append (writes : list io_outcome) (lseek_ok : bool) (v : VLog) (key value : bytes)
    : Status * VLog * Z * option Z :=
  let offset := end_ v in
  let buf := entry_image key value in
  let '(out, err) := write_loop writes buf in
  let file := v_file v ++ out in
  match err with
  | Some e =>
      (IOError (lit "vlog append failed: " ++ e),
       mkVLog file (number_ v) (if lseek_ok then len file else end_ v), offset, None)
  | None => (Ok, mkVLog file (number_ v) (u64 (end_ v + len buf)), offset, Some (len buf))
  end.

(** One [::pread]: an error or the bytes it returns. *)
Definition pread (o : io_outcome) (file : bytes) (count off : Z) : bytes + bytes :=
  match o with
  | IoBytes n => inr (slice off (read_amount n count (at_off off file)) file)
  | IoEintr => inl (lit "Interrupted system call")
  | IoError e => inl e
  end.

(** An outcome that transfers everything. *)
Definition io_full : io_outcome := IoBytes (2 ^ 63).

(** The status and, when it is assigned, [*value]. *)
Definition ReadValue (o1 o2 : io_outcome) (v : VLog) (off expected_size : Z)
    : option (Status * option bytes) :=
  let torn := Some (NotFound (lit "torn vlog tail in " ++ FileName (number_ v)), None) in
  let e := end_ v in
  if (e <? off) || (e - off <? kEntryHeaderSize)
  then Some (NotFound (lit "value pointer past end of vlog " ++ FileName (number_ v)), None)
  else
    match pread o1 (v_file v) kEntryHeaderSize off with
    | inl err => Some (IOError (lit "vlog pread header failed: " ++ err), None)
    | inr header =>
        if len header <? kEntryHeaderSize then torn
        else
          klen ← GetFixed32 (at_off 4 header);
          vsize ← GetFixed32 (at_off 8 header);
          let payload_size := klen + vsize in
          if (e <? klen) || (e <? vsize) || (e - off - kEntryHeaderSize <? payload_size) then torn
          else if negb (vsize =? expected_size)
          then Some (Corruption (lit "vlog entry size " ++ to_string vsize ++ lit " != pointer size "
                                   ++ to_string expected_size), None)
          else
            match pread o2 (v_file v) payload_size (off + kEntryHeaderSize) with
            | inl _ => torn
            | inr payload =>
                if len payload <? payload_size then torn
                else
                  stored_crc ← GetFixed32 header;
                  if negb (Crc32 payload (Crc32 (slice 4 8 header) 0) =? stored_crc)
                  then Some (Corruption (lit "vlog entry CRC mismatch in " ++ FileName (number_ v)), None)
                  else Some (Ok, Some (slice klen vsize payload))
            end
    end.

Definition Sync (fsync : option bytes) (v : VLog) : Status :=
  match fsync with
  | Some e => IOError (lit "vlog fsync failed: " ++ e)
  | None => Ok
  end.

(** The [while] loop: the entries [fn] was called with, and how it ended
    ([inl]: an I/O error).  The payload buffer is sized on 32 bits; the views
    of the key and the value must lie inside it. *)
Fixpoint scan_loop (fuel : nat) (preads : list io_outcome) (v : VLog) (file_end off : Z)
    (acc : list (bytes * bytes * Z)) : option (Status * list (bytes * bytes * Z)) :=
  match fuel with
  | O => None
  | S fuel =>
      if off + kEntryHeaderSize <=? file_end then
        match pread (default io_full (head preads)) (v_file v) kEntryHeaderSize off with
        | inl err => Some (IOError (lit "vlog scan pread failed: " ++ err), acc)
        | inr header =>
            if len header <? kEntryHeaderSize then Some (Ok, acc)
            else
              klen ← GetFixed32 (at_off 4 header);
              vsize ← GetFixed32 (at_off 8 header);
              let total := kEntryHeaderSize + klen + vsize in
              if file_end <? off + total then Some (Ok, acc)
              else
                let payload_size := u32 (klen + vsize) in
                match pread (default io_full (head (tail preads))) (v_file v) payload_size
                        (off + kEntryHeaderSize) with
                | inl _ => Some (Ok, acc)
                | inr payload =>
                    if len payload <? payload_size then Some (Ok, acc)
                    else
                      stored_crc ← GetFixed32 header;
                      if negb (Crc32 payload (Crc32 (slice 4 8 header) 0) =? stored_crc)
                      then Some (Ok, acc)
                      else if payload_size <? klen + vsize then None
                      else scan_loop fuel (tail (tail preads)) v file_end (off + total)
                             (acc ++ [(slice 0 klen payload, slice klen vsize payload, off)])
                end
        end
      else Some (Ok, acc)
  end.

(** Every iteration advances by a header, so the file's length is enough
    fuel. *)
Definition ScanEntries (preads : list io_outcome) (v : VLog) (limit : Z)
    : option (Status * list (bytes * bytes * Z)) :=
  let file_end := if limit <? end_ v then limit else end_ v in
  scan_loop (S (length (v_file v))) preads v file_end 0 [].

(** ** Reading an entry *)

(** The call transfers all [c] bytes, if the file has them. *)
Definition transfers (o : io_outcome) (c : Z) : bool :=
  match o with IoBytes n => c <=? n | _ => false end.

Lemma pread_full o file c off :
  transfers o c = true → 0 ≤ off → 0 ≤ c → off + c ≤ len file →
  pread o file c off = inr (slice off c file).
Proof.
  destruct o as [n| |e]; simpl; [|done..]. intros Hn%Z.leb_le Ho Hc Hl.
  unfold read_amount. rewrite len_at_off by lia.
  destruct (Z.eq_dec c 0) as [->|]; [|do 2 f_equal; lia].
  rewrite Z.min_l by lia. rewrite Z.min_l by lia. done.
Qed.

Lemma pread_len o file c off data : 0 ≤ c → 0 ≤ off → pread o file c off = inr data → len data ≤ c.
Proof.
  destruct o as [n| |e]; simpl; [|done..]. intros Hc Ho [= <-].
  unfold slice, read_amount, len. rewrite length_take. lia.
Qed.

Record vlog_ok (v : VLog) : Prop := {
  vo_end : end_ v = len (v_file v);
  vo_size : len (v_file v) < 2 ^ 63
}.

Definition body_image (key value : bytes) : bytes :=
  PutFixed32 (u32 (len key)) ++ PutFixed32 (u32 (len value)) ++ key ++ value.

Lemma entry_image_eq key value :
  entry_image key value = PutFixed32 (Crc32 (body_image key value) 0) ++ body_image key value.
Proof. done. Qed.

Lemma len_entry_image key value : len (entry_image key value) = 12 + len key + len value.
Proof. rewrite entry_image_eq. unfold body_image. autorewrite with len. lia. Qed.

(** The entry of [key] and [value] is stored at [off]. *)
Definition stored_at (v : VLog) (off : Z) (key value : bytes) : Prop :=
  ∃ pre post, v_file v = pre ++ entry_image key value ++ post ∧ off = len pre.

(** The fields of a stored entry, wherever its payload came from. *)
Lemma entry_fields (pre : bytes) crc (key value payload post : bytes) :
  len key < 2 ^ 32 → len value < 2 ^ 32 →
  let file := pre ++ (PutFixed32 crc ++ PutFixed32 (u32 (len key)) ++ PutFixed32 (u32 (len value)) ++ payload)
                ++ post in
  let header := slice (len pre) 12 file in
  len header = 12 ∧ GetFixed32 header = Some (u32 crc) ∧
  GetFixed32 (at_off 4 header) = Some (len key) ∧ GetFixed32 (at_off 8 header) = Some (len value) ∧
  slice 4 8 header = PutFixed32 (u32 (len key)) ++ PutFixed32 (u32 (len value)) ∧
  slice (len pre + 12) (len payload) file = payload.
Proof.
  intros Hk Hv file header.
  assert (header = PutFixed32 crc ++ PutFixed32 (u32 (len key)) ++ PutFixed32 (u32 (len value))) as ->.
  { unfold header, file. rewrite <- (slice_app_exact pre
      (PutFixed32 crc ++ PutFixed32 (u32 (len key)) ++ PutFixed32 (u32 (len value)))
      (payload ++ post) (len pre) 12); [|done|slia]. by rewrite <- !app_assoc. }
  pose_len_nonneg. assert (∀ n : Z, 0 ≤ n < 2 ^ 32 → u32 (u32 n) = n) as Hu.
  { intros n Hn. unfold u32. by rewrite !(Z.mod_small n) by lia. }
  split_and!.
  - slia.
  - apply GetFixed32_Put.
  - rewrite at_off_app by slia. rewrite GetFixed32_Put. f_equal. apply Hu. lia.
  - rewrite app_assoc, at_off_app by slia.
    pose proof (GetFixed32_Put (u32 (len value)) []) as E. rewrite app_nil_r in E. rewrite E.
    f_equal. apply Hu. lia.
  - rewrite slice_app_r by slia. autorewrite with len.
    rewrite <- (slice_full (PutFixed32 (u32 (len key)) ++ PutFixed32 (u32 (len value)))) at 2.
    f_equal.
  - unfold file.
    replace (pre ++ (PutFixed32 crc ++ PutFixed32 (u32 (len key)) ++ PutFixed32 (u32 (len value)) ++ payload) ++ post)
      with ((pre ++ PutFixed32 crc ++ PutFixed32 (u32 (len key)) ++ PutFixed32 (u32 (len value))) ++ payload ++ post)
      by (by rewrite <- !app_assoc).
    apply slice_app_exact; slia.
Qed.

(** [ReadValue] on a file that holds an entry with this header: the answer
    depends only on the checksum. *)
Lemma ReadValue_entry o1 o2 v (pre : bytes) crc (key value payload post : bytes) :
  vlog_ok v → len key < 2 ^ 32 → len value < 2 ^ 32 → len payload = len key + len value →
  v_file v = pre ++ (PutFixed32 crc ++ PutFixed32 (u32 (len key)) ++ PutFixed32 (u32 (len value)) ++ payload)
               ++ post →
  transfers o1 12 = true → transfers o2 (len key + len value) = true →
  ReadValue o1 o2 v (len pre) (len value)
  = if Crc32 (PutFixed32 (u32 (len key)) ++ PutFixed32 (u32 (len value)) ++ payload) 0 =? u32 crc
    then Some (Ok, Some (slice (len key) (len value) payload))
    else Some (Corruption (lit "vlog entry CRC mismatch in " ++ FileName (number_ v)), None).
Proof.
  intros [He Hsz] Hk Hv Hp Hf Ho1 Ho2. unfold ReadValue, kEntryHeaderSize. rewrite He.
  pose proof (entry_fields pre crc key value payload post Hk Hv) as Hfields. cbv zeta in Hfields.
  rewrite <- Hf in Hfields. destruct Hfields as (H1 & H2 & H3 & H4 & H5 & H6).
  assert (len pre + 12 + len key + len value ≤ len (v_file v)) as Hl.
  { rewrite Hf. rewrite !len_app. autorewrite with len. pose_len_nonneg. lia. }
  pose proof (len_nonneg pre). pose proof (len_nonneg key). pose proof (len_nonneg value).
  rewrite !(proj2 (Z.ltb_ge _ _)) by lia. cbn [orb].
  rewrite pread_full by (done || lia). rewrite H1. change (12 <? 12) with false. cbv iota.
  rewrite H3, H4. cbn [mbind option_bind].
  rewrite !(proj2 (Z.ltb_ge _ _)) by lia. cbn [orb]. rewrite Z.eqb_refl. cbn [negb].
  rewrite pread_full by (done || lia). rewrite <- Hp, H6.
  rewrite (proj2 (Z.ltb_ge (len payload) _)) by lia. rewrite H2. cbn [mbind option_bind].
  rewrite H5, <- Crc32_app, <- app_assoc. by destruct (_ =? _).
Qed.

Lemma ReadValue_stored o1 o2 v off key value :
  vlog_ok v → len key < 2 ^ 32 → len value < 2 ^ 32 → stored_at v off key value →
  transfers o1 12 = true → transfers o2 (len key + len value) = true →
  ReadValue o1 o2 v off (len value) = Some (Ok, Some value).
Proof.
  intros Hok Hk Hv (pre & post & Hf & ->) Ho1 Ho2.
  rewrite (ReadValue_entry o1 o2 v pre (Crc32 (body_image key value) 0) key value (key ++ value) post);
    [|done|done|done|slia|exact Hf|done|done].
  fold (body_image key value).
  pose proof (Crc32_range_aux (body_image key value) 0 ltac:(lia)) as Hr.
  unfold u32 at 1. rewrite (Z.mod_small (Crc32 _ _)) by lia. rewrite Z.eqb_refl. do 3 f_equal.
  rewrite slice_app_r by lia. rewrite Z.sub_diag. apply slice_full.
Qed.

(** A read that returns as many bytes as asked for returns the right ones. *)
Lemma pread_enough o file c off data :
  0 ≤ c → 0 ≤ off → pread o file c off = inr data → c ≤ len data → data = slice off c file.
Proof.
  destruct o as [n| |e]; simpl; [|done..]. intros Hc Ho [= <-] Hl.
  destruct (read_amount_range n c (at_off off file) Hc) as [Hr _].
  assert (read_amount n c (at_off off file) = c) as ->; [|done].
  unfold slice in Hl. unfold len in Hl at 1. rewrite length_take in Hl. lia.
Qed.

(** Whatever the two reads transfer, a value that comes back is the stored
    one. *)
Lemma ReadValue_any o1 o2 v off key value :
  vlog_ok v → len key < 2 ^ 32 → len value < 2 ^ 32 → stored_at v off key value →
  ∃ s r, ReadValue o1 o2 v off (len value) = Some (s, r) ∧ (ok s = true → r = Some value).
Proof.
  intros Hok Hk Hv Hst. pose proof (ReadValue_stored (IoBytes (2 ^ 63)) (IoBytes (2 ^ 63)) v off key value Hok Hk Hv Hst) as Hfull.
  destruct Hst as (pre & post & Hf & ->). destruct Hok as [He Hsz].
  pose proof (entry_fields pre (Crc32 (body_image key value) 0) key value (key ++ value) post Hk Hv) as Hfields. cbv zeta in Hfields.
  rewrite entry_image_eq in Hf. unfold body_image in Hf at 2. rewrite <- Hf in Hfields.
  destruct Hfields as (H1 & H2 & H3 & H4 & _ & H6). rewrite len_app in H6.
  assert (len pre + 12 + (len key + len value) ≤ len (v_file v)) as Hl.
  { rewrite Hf. autorewrite with len. pose_len_nonneg. lia. }
  pose proof (len_nonneg pre). pose proof (len_nonneg key). pose proof (len_nonneg value).
  unfold ReadValue, kEntryHeaderSize in *. destruct (_ || _); [by eexists _, _|].
  destruct (pread o1 (v_file v) 12 (len pre)) as [e|h] eqn:E1; [by eexists _, _|].
  destruct (Z.ltb_spec (len h) 12) as [|Hh]; [by eexists _, _|].
  pose proof (pread_enough o1 (v_file v) 12 (len pre) h ltac:(lia) ltac:(lia) E1 Hh) as Eh. subst h.
  rewrite pread_full in Hfull by (done || lia). rewrite H1 in Hfull. change (12 <? 12) with false in Hfull. cbv iota in Hfull.
  rewrite H3, H4 in *. cbn [mbind option_bind] in *.
  destruct (_ || _ || _); [by eexists _, _|]. destruct (negb (len value =? len value)); [by eexists _, _|].
  destruct (pread o2 _ _ _) as [e|payload] eqn:E2; [by eexists _, _|].
  destruct (Z.ltb_spec (len payload) (len key + len value)) as [|Hp]; [by eexists _, _|].
  pose proof (pread_enough o2 (v_file v) (len key + len value) (len pre + 12) payload ltac:(lia) ltac:(lia) E2 Hp) as Ep.
  subst payload.
  rewrite pread_full in Hfull; [|apply Z.leb_le; lia|lia|lia|lia]. rewrite H6 in *.
  rewrite len_app in Hfull. rewrite (proj2 (Z.ltb_ge _ _)) in Hfull by lia.
  eexists _, _. split; [apply Hfull; [done|apply Z.leb_le; lia]|done].
Qed.

Lemma stored_at_mono v v' off key value out :
  v_file v' = v_file v ++ out → stored_at v off key value → stored_at v' off key value.
Proof.
  intros Hf (pre & post & E & ->). exists pre, (post ++ out). split; [|done]. by rewrite Hf, E, <- !app_assoc.
Qed.

(** ** Appending *)

Lemma Append_file w l v k x :
  ∃ out, v_file (Append w l v k x).1.1.2 = v_file v ++ out ∧ number_ (Append w l v k x).1.1.2 = number_ v.
Proof.
  unfold Append. destruct (write_loop w (entry_image k x)) as [out [e|]]; by exists out.
Qed.

Lemma Append_ok w v k x :
  vlog_ok v → len (v_file v) + 12 + len k + len x < 2 ^ 63 →
  let '(s, v', off, bytes) := Append w true v k x in
  vlog_ok v' ∧ off = len (v_file v) ∧
  (ok s = true → stored_at v' off k x ∧ v_file v' = v_file v ++ entry_image k x ∧
                 bytes = Some (12 + len k + len x)).
Proof.
  intros [He Hs] Hl. unfold Append.
  destruct (write_loop_spec w (entry_image k x)) as (rest & Hd & Hr).
  destruct (write_loop w (entry_image k x)) as [out err]. cbn [fst snd] in *.
  pose proof (len_entry_image k x) as Hi. rewrite Hd, len_app in Hi. pose_len_nonneg.
  destruct err as [e|].
  - split_and!; [|done..]. split; cbn [end_ v_file]; [done|]. rewrite len_app. lia.
  - rewrite (Hr eq_refl), app_nil_r in Hd. subst out. rewrite len_entry_image in *.
    split_and!; [|done|].
    + split; cbn [end_ v_file]; rewrite ?len_app, ?len_entry_image; [|lia].
      rewrite He. unfold u64. rewrite Z.mod_small; lia.
    + intros _. split_and!; [|done..]. exists (v_file v), []. by rewrite app_nil_r.
Qed.

(** A run of appends: the log and the pointers handed out by the ones that
    succeeded. *)
Fixpoint append_run (v : VLog) (ops : list (list io_outcome * bytes * bytes))
    : VLog * list (Z * bytes * bytes) :=
  match ops with
  | [] => (v, [])
  | (w, k, x) :: ops =>
      let '(s, v, off, _) := Append w true v k x in
      let '(v, res) := append_run v ops in
      (v, (if ok s then [(off, k, x)] else []) ++ res)
  end.

Definition run_bytes (ops : list (list io_outcome * bytes * bytes)) : Z :=
  foldr (λ o n, 12 + len o.1.2 + len o.2 + n) 0 ops.

Lemma run_bytes_nonneg ops : 0 ≤ run_bytes ops.
Proof. induction ops as [|o ops IH]; simpl; [lia|]. pose_len_nonneg. lia. Qed.

Lemma append_run_file v ops : ∃ out, v_file (append_run v ops).1 = v_file v ++ out.
Proof.
  revert v. induction ops as [|[[w k] x] ops IH]; intros v; simpl; [exists []; by rewrite app_nil_r|].
  destruct (Append_file w true v k x) as (out & Ho & _).
  destruct (Append w true v k x) as [[[s v1] off] b]. cbn [fst snd] in Ho.
  destruct (IH v1) as [out' Hi]. destruct (append_run v1 ops) as [v2 res]. cbn [fst] in *.
  exists (out ++ out'). by rewrite Hi, Ho, app_assoc.
Qed.

Lemma append_run_ok v ops :
  vlog_ok v → len (v_file v) + run_bytes ops < 2 ^ 63 →
  vlog_ok (append_run v ops).1 ∧
  ∀ off k x, (off, k, x) ∈ (append_run v ops).2 → stored_at (append_run v ops).1 off k x.
Proof.
  revert v. induction ops as [|[[w k] x] ops IH]; intros v Hok Hl; cbn [append_run].
  { split; [done|]. intros ??? ?%not_elem_of_nil. done. }
  cbn [run_bytes foldr fst snd] in Hl. fold (run_bytes ops) in Hl. pose proof (run_bytes_nonneg ops).
  pose proof (Append_ok w v k x Hok ltac:(lia)) as Ha.
  pose proof (Append_file w true v k x) as Hfile.
  assert (len (v_file (Append w true v k x).1.1.2) ≤ len (v_file v) + 12 + len k + len x) as Hgrow.
  { unfold Append. destruct (write_loop_spec w (entry_image k x)) as (rest & Hd & _).
    destruct (write_loop w (entry_image k x)) as [out err]. cbn [fst snd] in *.
    pose proof (len_entry_image k x) as Hi. rewrite Hd, len_app in Hi. pose_len_nonneg.
    destruct err; cbn [fst snd v_file]; rewrite len_app; lia. }
  destruct (Append w true v k x) as [[[s v1] off] b]. cbn [fst snd] in *. destruct Ha as (Hok1 & _ & Hst).
  destruct (IH v1 Hok1 ltac:(lia)) as [Hok2 Hres]. destruct (append_run_file v1 ops) as [out Hout].
  destruct (append_run v1 ops) as [v2 res]. cbn [fst snd] in *. split; [done|].
  intros off' k' x' [Hin|Hin]%elem_of_app; [|by apply Hres].
  destruct (ok s) eqn:Es; [|by apply not_elem_of_nil in Hin].
  apply list_elem_of_singleton in Hin as [= -> -> ->].
  destruct (Hst eq_refl) as ((pre & post & Hf & ->) & _). exists pre, (post ++ out).
  split; [|done]. by rewrite Hout, Hf, <- !app_assoc.
Qed.

(** ** Scanning *)

Definition images (es : list (bytes * bytes)) : bytes := concat ((λ e, entry_image e.1 e.2) <$> es).

Fixpoint located (off : Z) (es : list (bytes * bytes)) : list (bytes * bytes * Z) :=
  match es with
  | [] => []
  | (k, x) :: es => (k, x, off) :: located (off + (12 + len k + len x)) es
  end.

Definition full_reads (preads : list io_outcome) : Prop := Forall (λ o, transfers o (2 ^ 32) = true) preads.

Lemma full_reads_head preads c :
  full_reads preads → c ≤ 2 ^ 32 → transfers (default io_full (head preads)) c = true.
Proof.
  intros H Hc. destruct H as [|o l Ho _]; cbn [head default].
  - apply Z.leb_le. lia.
  - destruct o; [|done..]. simpl in *. apply Z.leb_le in Ho. apply Z.leb_le. lia.
Qed.

Lemma full_reads_tail preads : full_reads preads → full_reads (tail preads).
Proof. destruct 1; [constructor|done]. Qed.

(** One iteration on an intact entry. *)
Lemma scan_step fuel preads v file_end pre key value post acc :
  full_reads preads → len key + len value < 2 ^ 32 →
  v_file v = pre ++ entry_image key value ++ post →
  len pre + 12 + len key + len value ≤ file_end →
  scan_loop (S fuel) preads v file_end (len pre) acc
  = scan_loop fuel (tail (tail preads)) v file_end (len pre + (12 + len key + len value))
      (acc ++ [(key, value, len pre)]).
Proof.
  intros Hp Hkv Hf Hend. cbn [scan_loop]. unfold kEntryHeaderSize.
  pose proof (len_nonneg pre) as Np. pose proof (len_nonneg key) as Nk. pose proof (len_nonneg value) as Nv.
  pose proof (entry_fields pre (Crc32 (body_image key value) 0) key value (key ++ value) post
                ltac:(lia) ltac:(lia)) as Hfields. cbv zeta in Hfields.
  rewrite entry_image_eq in Hf. unfold body_image at 2 in Hf. rewrite <- Hf in Hfields.
  destruct Hfields as (H1 & H2 & H3 & H4 & H5 & H6). rewrite len_app in H6.
  assert (len pre + 12 + len key + len value ≤ len (v_file v)) as Hl.
  { rewrite Hf. rewrite !len_app. autorewrite with len. pose_len_nonneg. lia. }
  rewrite (proj2 (Z.leb_le (len pre + 12) _)) by lia.
  rewrite pread_full by (try apply full_reads_head; (done || lia)).
  rewrite H1. change (12 <? 12) with false. cbv iota. rewrite H3, H4. cbn [mbind option_bind].
  rewrite (proj2 (Z.ltb_ge file_end _)) by lia.
  unfold u32 at 1 2 3. rewrite !(Z.mod_small (len key + len value)) by lia.
  rewrite pread_full by (try (apply full_reads_head; [by apply full_reads_tail|]); (done || lia)).
  rewrite H6. rewrite len_app, (proj2 (Z.ltb_ge _ (len key + len value))) by lia.
  rewrite H2. cbn [mbind option_bind]. rewrite H5, <- Crc32_app, <- app_assoc. fold (body_image key value).
  pose proof (Crc32_range_aux (body_image key value) 0 ltac:(lia)) as Hr.
  unfold u32 at 1. rewrite (Z.mod_small (Crc32 _ _)) by lia. rewrite Z.eqb_refl. cbn [negb].
  rewrite slice_app_l, slice_full, slice_app_r, Z.sub_diag, slice_full by lia.
  reflexivity.
Qed.

Lemma scan_loop_images fuel preads v es pre acc :
  full_reads preads → Forall (λ e, len e.1 + len e.2 < 2 ^ 32) es →
  v_file v = pre ++ images es → (length es < fuel)%nat →
  scan_loop fuel preads v (len pre + len (images es)) (len pre) acc
  = Some (Ok, acc ++ located (len pre) es).
Proof.
  revert fuel preads pre acc. induction es as [|[k x] es IH]; intros fuel preads pre acc Hp Hs Hf Hfu.
  - destruct fuel as [|fuel]; [simpl in *; lia|]. cbn [scan_loop located]. unfold kEntryHeaderSize.
    change (len (images [])) with 0. rewrite (proj2 (Z.leb_gt _ _)) by lia. by rewrite app_nil_r.
  - destruct fuel as [|fuel]; [simpl in *; lia|]. inversion_clear Hs as [|? ? H1 H2].
    assert (images ((k, x) :: es) = entry_image k x ++ images es) as Hi by done.
    rewrite Hi in Hf |- *. rewrite len_app, len_entry_image. cbn [fst snd] in H1. pose_len_nonneg.
    rewrite (scan_step fuel preads v _ pre k x (images es) acc) by (done || lia).
    assert (len pre + (12 + len k + len x) = len (pre ++ entry_image k x)) as Hpre.
    { rewrite len_app, len_entry_image. lia. }
    replace (len pre + (12 + len k + len x + len (images es)))
      with (len (pre ++ entry_image k x) + len (images es)) by lia.
    rewrite Hpre, IH; [| |done|by rewrite Hf, <- app_assoc|simpl in Hfu; lia].
    + cbn [located]. by rewrite <- Hpre, <- app_assoc.
    + by do 2 apply full_reads_tail.
Qed.

Lemma append_run_length v ops : (length (append_run v ops).2 ≤ length ops)%nat.
Proof.
  revert v. induction ops as [|[[w k] x] ops IH]; intros v; cbn [append_run]; [done|].
  destruct (Append w true v k x) as [[[s v1] off] b]. specialize (IH v1).
  destruct (append_run v1 ops) as [v2 res]. cbn [snd] in *. rewrite length_app.
  destruct (ok s); simpl; lia.
Qed.

(** When no append failed, the file is exactly the entries. *)
Lemma append_run_all_ok v ops :
  vlog_ok v → len (v_file v) + run_bytes ops < 2 ^ 63 →
  length (append_run v ops).2 = length ops →
  v_file (append_run v ops).1 = v_file v ++ images ((λ o, (o.1.2, o.2)) <$> ops) ∧
  (λ r, (r.1.2, r.2, r.1.1)) <$> (append_run v ops).2
  = located (len (v_file v)) ((λ o, (o.1.2, o.2)) <$> ops).
Proof.
  revert v. induction ops as [|[[w k] x] ops IH]; intros v Hok Hl Hlen; cbn [append_run].
  { split; [by rewrite app_nil_r|done]. }
  cbn [append_run] in Hlen. cbn [run_bytes foldr fst snd] in Hl. fold (run_bytes ops) in Hl.
  pose proof (run_bytes_nonneg ops). pose proof (Append_ok w v k x Hok ltac:(lia)) as Ha.
  destruct (Append w true v k x) as [[[s v1] off] b]. destruct Ha as (Hok1 & -> & Hst).
  pose proof (append_run_length v1 ops) as Hle. specialize (IH v1 Hok1).
  destruct (append_run v1 ops) as [v2 res]. cbn [fst snd] in *. rewrite length_app in Hlen.
  destruct (ok s); simpl in Hlen; [|lia]. destruct (Hst eq_refl) as (_ & Hf & _).
  pose proof (len_entry_image k x) as Hi.
  assert (len (v_file v1) = len (v_file v) + (12 + len k + len x)) as Hl1 by (rewrite Hf, len_app; lia).
  destruct IH as [IH1 IH2]; [lia..|]. rewrite fmap_app, IH2, IH1, Hl1, Hf. split; [|done].
  by rewrite <- app_assoc.
Qed.

(** ** Properties *)

(** C30: a value pointer resolves for good: whatever appends, failed ones that
    left part of an entry behind included, come before and after a successful
    one, [ReadValue] at the offset it returned gives its value back. *)
Theorem vlog_pointer_resolves (v : VLog) (ops : list (list io_outcome * bytes * bytes))
    (off : Z) (key value : bytes) (o1 o2 : io_outcome) :
  vlog_ok v → len (v_file v) + run_bytes ops < 2 ^ 63 → len key < 2 ^ 32 → len value < 2 ^ 32 →
  (off, key, value) ∈ (append_run v ops).2 →
  transfers o1 12 = true → transfers o2 (len key + len value) = true →
  ReadValue o1 o2 (append_run v ops).1 off (len value) = Some (Ok, Some value).
Proof.
  intros Hok Hl Hk Hv Hin Ho1 Ho2. destruct (append_run_ok v ops Hok Hl) as [Hok' Hst].
  by apply (ReadValue_stored o1 o2 _ off key); [| | |apply Hst| |].
Qed.

(** Three appends; the second is cut short by a full disk. *)
Definition sample_appends : list (list io_outcome * bytes * bytes) :=
  [([], lit "k1", lit "one"); ([IoBytes 5; IoError (lit "ENOSPC")], lit "k2", lit "two");
   ([IoBytes 3; IoEintr], lit "k3", lit "three")].

Lemma vlog_pointer_resolves_witness :
  ReadValue io_full io_full (append_run (mkVLog [] 1 0) sample_appends).1 22 5
  = Some (Ok, Some (lit "three")).
Proof.
  apply (vlog_pointer_resolves (mkVLog [] 1 0) sample_appends 22 (lit "k3") (lit "three") io_full io_full);
    try (vm_compute; reflexivity).
  - by split.
  - apply list_elem_of_lookup. exists 1%nat. vm_compute. reflexivity.
Defined.

(** C31: the scan of a log all of whose appends succeeded visits every entry,
    in order, with the offset its pointer carries. *)
Theorem vlog_scan_complete (number : Z) (ops : list (list io_outcome * bytes * bytes))
    (preads : list io_outcome) :
  let '(v, res) := append_run (mkVLog [] number 0) ops in
  length res = length ops → run_bytes ops < 2 ^ 63 →
  Forall (λ o, len o.1.2 + len o.2 < 2 ^ 32) ops → full_reads preads →
  ScanEntries preads v (end_ v) = Some (Ok, (λ r, (r.1.2, r.2, r.1.1)) <$> res).
Proof.
  assert (vlog_ok (mkVLog [] number 0)) as Hok by (by split).
  pose proof (append_run_all_ok (mkVLog [] number 0) ops Hok) as Hall.
  pose proof (append_run_ok (mkVLog [] number 0) ops Hok) as Hrun.
  destruct (append_run (mkVLog [] number 0) ops) as [v res]. cbn [fst snd v_file] in *.
  change (len (@nil byte)) with 0 in *. intros Hlen Hl Hs Hp.
  destruct Hall as [Hf Hr]; [lia|done|]. destruct Hrun as [[Hend _] _]; [lia|].
  unfold ScanEntries. rewrite Z.ltb_irrefl, Hend, Hf.
  pose proof (scan_loop_images (S (length (images ((λ o, (o.1.2, o.2)) <$> ops)))) preads v
    ((λ o, (o.1.2, o.2)) <$> ops) [] []) as Hscan.
  rewrite Hr. apply Hscan; [done| |done|].
  - apply Forall_fmap. exact Hs.
  - apply Nat.lt_succ_r. rewrite length_fmap. clear. unfold images.
    induction ops as [|[[w k] x] ops IH]; [done|]. rewrite fmap_cons. cbn [concat fmap list_fmap fst snd].
    rewrite length_app. pose proof (len_entry_image k x) as Hi. unfold len in Hi. simpl. lia.
Qed.

Lemma vlog_scan_complete_witness :
  let '(v, res) := append_run (mkVLog [] 1 0) [([], lit "k1", lit "one"); ([IoBytes 3; IoEintr], lit "k3", lit "three")] in
  length res = 2%nat ∧ ScanEntries [] v (end_ v) = Some (Ok, (λ r, (r.1.2, r.2, r.1.1)) <$> res).
Proof.
  pose proof (vlog_scan_complete 1 [([], lit "k1", lit "one"); ([IoBytes 3; IoEintr], lit "k3", lit "three")] []) as H.
  destruct (append_run _ _) as [v res] eqn:E. split; [by vm_compute in E; injection E as <- <-|].
  apply H.
  - by vm_compute in E; injection E as <- <-.
  - vm_compute. reflexivity.
  - by repeat constructor.
  - constructor.
Defined.

(** A damaged value is never returned: with one byte of the stored key or
    value changed, [ReadValue] reports the checksum mismatch. *)
Theorem vlog_damage_detected (v : VLog) (pre post key value a b : bytes) (x y : byte) (o1 o2 : io_outcome) :
  vlog_ok v → len key < 2 ^ 32 → len value < 2 ^ 32 → key ++ value = a ++ x :: b → x ≠ y →
  v_file v = pre ++ (PutFixed32 (Crc32 (body_image key value) 0) ++ PutFixed32 (u32 (len key))
                       ++ PutFixed32 (u32 (len value)) ++ a ++ y :: b) ++ post →
  transfers o1 12 = true → transfers o2 (len key + len value) = true →
  ReadValue o1 o2 v (len pre) (len value)
  = Some (Corruption (lit "vlog entry CRC mismatch in " ++ FileName (number_ v)), None).
Proof.
  intros Hok Hk Hv Hab Hxy Hf Ho1 Ho2.
  rewrite (ReadValue_entry o1 o2 v pre (Crc32 (body_image key value) 0) key value (a ++ y :: b) post);
    [|done|done|done| |exact Hf|done|done].
  2:{ apply (f_equal len) in Hab. rewrite !len_app, !len_cons in *. lia. }
  pose proof (Crc32_range_aux (body_image key value) 0 ltac:(lia)) as Hr.
  unfold u32 at 3. rewrite (Z.mod_small (Crc32 (body_image key value) 0)) by lia.
  destruct (Z.eqb_spec (Crc32 (PutFixed32 (u32 (len key)) ++ PutFixed32 (u32 (len value)) ++ a ++ y :: b) 0)
              (Crc32 (body_image key value) 0)) as [E|E]; [|done].
  unfold body_image in E. rewrite Hab, !app_assoc in E. by apply Crc32_detects_aux in E.
Qed.

Lemma vlog_damage_detected_witness :
  let file := PutFixed32 (Crc32 (body_image (lit "k") (lit "abc")) 0) ++ PutFixed32 1 ++ PutFixed32 3 ++ lit "kaBc" in
  ReadValue io_full io_full (mkVLog file 1 (len file)) 0 3
  = Some (Corruption (lit "vlog entry CRC mismatch in " ++ FileName 1), None).
Proof.
  set (file := _ ++ _).
  apply (vlog_damage_detected (mkVLog file 1 (len file)) [] [] (lit "k") (lit "abc") (lit "ka") (lit "c")
           (to_char 98) (to_char 66) io_full io_full); try (vm_compute; reflexivity).
  - split; [done|vm_compute; reflexivity].
  - discriminate.
Defined.

(** [ScanEntries] stops at the first torn entry although [Append] goes on
    behind it: after an append that failed halfway, the next one succeeds and
    its pointer resolves, but the scan does not visit it. *)
Example torn_append_hides_later_entries :
  let '(v, res) := append_run (mkVLog [] 1 0) sample_appends in
  res = [(0, lit "k1", lit "one"); (22, lit "k3", lit "three")] ∧
  ReadValue io_full io_full v 22 5 = Some (Ok, Some (lit "three")) ∧
  ScanEntries [] v (end_ v) = Some (Ok, [(lit "k1", lit "one", 0)]).
Proof. vm_compute. split_and!; reflexivity. Qed.

End vlog.
