(* ===== verification/LruCache.v ===== *)
(** * The sharded LRU cache

    Models include/bedrockkv/lru_cache.h.  A shard is a [std::list] of nodes in
    recency order and an [unordered_map] from keys to list iterators; a node has
    an identity so that an iterator is a node's identity, and following one
    that is no longer in the list is [None].  The key's hash and the weight of a
    value are arguments, as they are template and constructor arguments of the
    class. *)

From S2P Require Import Prelude.

Section lru_cache.
Context {Key Value : Type} `{Countable Key}.
Variable hash : Key → Z.
Variable weight_ : Value → Z.

(** [lru]'s first element is the most recently used one; [fresh] is the
    identity of the next node. *)
Record Shard := mkShard {
  lru : list (nat * (Key * Value));
  smap : gmap Key nat;
  weight : Z;
  fresh : nat
}.

Record ShardedLruCache := mkCache {
  shard_ : list Shard;
  shards_ : Z;
  max_total_weight_ : Z;
  shard_weight_cap_ : Z
}.

Definition new_Shard : Shard := mkShard [] ∅ 0 0.

Definition new_cache (shards max_total_weight : Z) : ShardedLruCache :=
  let cap := max_total_weight / shards in
  mkCache (replicate (Z.to_nat shards) new_Shard) shards max_total_weight (if cap =? 0 then 1 else cap).

Definition ShardOf (c : ShardedLruCache) (key : Key) : Z := hash key mod shards_ c.

(** The node an iterator refers to, and the list without it. *)
Fixpoint unlink (id : nat) (l : list (nat * (Key * Value))) : option ((Key * Value) * list (nat * (Key * Value))) :=
  match l with
  | [] => None
  | n :: l =>
      if decide (n.1 = id) then Some (n.2, l)
      else '(kv, rest) ← unlink id l; Some (kv, n :: rest)
  end.

Definition set_shard (c : ShardedLruCache) (i : Z) (s : Shard) : ShardedLruCache :=
  mkCache (<[Z.to_nat i := s]> (shard_ c)) (shards_ c) (max_total_weight_ c) (shard_weight_cap_ c).

(** [splice] moves the node to the front. *)
Definition Get (c : ShardedLruCache) (key : Key) : option (option Value * ShardedLruCache) :=
  s ← shard_ c !! Z.to_nat (ShardOf c key);
  match smap s !! key with
  | None => Some (None, c)
  | Some it =>
      '(kv, rest) ← unlink it (lru s);
      Some (Some kv.2, set_shard c (ShardOf c key) (mkShard ((it, kv) :: rest) (smap s) (weight s) (fresh s)))
  end.

(** The eviction loop; every iteration drops a node, so the number of nodes is
    enough fuel. *)
Fixpoint evict (fuel : nat) (cap : Z) (s : Shard) : option Shard :=
  if cap <? weight s then
    match last (lru s) with
    | None => Some s
    | Some victim =>
        match fuel with
        | O => None
        | S fuel =>
            evict fuel cap
              (mkShard (take (length (lru s) - 1) (lru s)) (delete victim.2.1 (smap s))
                 (u64 (weight s - weight_ victim.2.2)) (fresh s))
        end
    end
  else Some s.

Definition Put (c : ShardedLruCache) (key : Key) (value : Value) : option ShardedLruCache :=
  let w := weight_ value in
  if max_total_weight_ c <? w then Some c
  else
    s ← shard_ c !! Z.to_nat (ShardOf c key);
    s ← match smap s !! key with
        | Some it =>
            '(kv, rest) ← unlink it (lru s);
            Some (mkShard ((it, (kv.1, value)) :: rest) (smap s)
                    (u64 (u64 (weight s - weight_ kv.2) + w)) (fresh s))
        | None =>
            Some (mkShard ((fresh s, (key, value)) :: lru s) (<[key := fresh s]> (smap s))
                    (u64 (weight s + w)) (S (fresh s)))
        end;
    s ← evict (length (lru s)) (shard_weight_cap_ c) s;
    Some (set_shard c (ShardOf c key) s).

Definition Clear (c : ShardedLruCache) : ShardedLruCache :=
  mkCache ((λ s, mkShard [] ∅ 0 (fresh s)) <$> shard_ c) (shards_ c) (max_total_weight_ c) (shard_weight_cap_ c).

(** ** Specification: recency lists *)

Fixpoint total (l : list (Key * Value)) : Z :=
  match l with [] => 0 | p :: l => weight_ p.2 + total l end.

(** The longest prefix within the budget. *)
Fixpoint fitting (budget : Z) (l : list (Key * Value)) : list (Key * Value) :=
  match l with
  | [] => []
  | p :: l => if weight_ p.2 <=? budget then p :: fitting (budget - weight_ p.2) l else []
  end.

Definition assoc (l : list (Key * Value)) (key : Key) : option Value :=
  snd <$> find (λ p, bool_decide (p.1 = key)) l.

Definition others (l : list (Key * Value)) (key : Key) : list (Key * Value) := filter (λ p, p.1 ≠ key) l.

Definition spec_get (l : list (Key * Value)) (key : Key) : list (Key * Value) :=
  match assoc l key with Some v => (key, v) :: others l key | None => l end.

Definition spec_put (max cap : Z) (l : list (Key * Value)) (key : Key) (value : Value) : list (Key * Value) :=
  if max <? weight_ value then l else fitting cap ((key, value) :: others l key).

Inductive cache_op := OpGet (key : Key) | OpPut (key : Key) (value : Value) | OpClear.

(** The answers of the lookups of a run. *)
Fixpoint run (c : ShardedLruCache) (ops : list cache_op) : option (list (option Value) * ShardedLruCache) :=
  match ops with
  | [] => Some ([], c)
  | OpGet k :: ops => '(r, c) ← Get c k; '(rs, c) ← run c ops; Some (r :: rs, c)
  | OpPut k v :: ops => c ← Put c k v; run c ops
  | OpClear :: ops => run (Clear c) ops
  end.

(** One recency list per shard. *)
Fixpoint spec_run (shards max cap : Z) (ls : Z → list (Key * Value)) (ops : list cache_op)
    : list (option Value) * (Z → list (Key * Value)) :=
  let upd i l := λ j, if j =? i then l else ls j in
  match ops with
  | [] => ([], ls)
  | OpGet k :: ops =>
      let i := hash k mod shards in
      let '(rs, ls') := spec_run shards max cap (upd i (spec_get (ls i) k)) ops in
      (assoc (ls i) k :: rs, ls')
  | OpPut k v :: ops =>
      let i := hash k mod shards in
      spec_run shards max cap (upd i (spec_put max cap (ls i) k v)) ops
  | OpClear :: ops => spec_run shards max cap (λ _, []) ops
  end.

(** ** Shards represent recency lists *)

Record repr (s : Shard) (l : list (Key * Value)) : Prop := {
  rp_list : (lru s).*2 = l;
  rp_ids : NoDup (lru s).*1;
  rp_fresh : ∀ id kv, (id, kv) ∈ lru s → (id < fresh s)%nat;
  rp_keys : NoDup l.*1;
  rp_map : ∀ k id, smap s !! k = Some id ↔ ∃ v, (id, (k, v)) ∈ lru s;
  rp_weight : weight s = total l
}.

Hypothesis weight_range : ∀ v, 0 ≤ weight_ v.

Lemma total_nonneg l : 0 ≤ total l.
Proof. induction l as [|p l IH]; simpl; [lia|]. pose proof (weight_range p.2). lia. Qed.

Lemma total_app l k : total (l ++ k) = total l + total k.
Proof. induction l as [|p l IH]; simpl; lia. Qed.

#[local] Instance total_perm : Proper (Permutation ==> eq) total.
Proof. induction 1; simpl; lia. Qed.

Lemma fitting_all budget l : total l ≤ budget → fitting budget l = l.
Proof.
  revert budget. induction l as [|p l IH]; intros budget Hb; [done|]. simpl in *.
  pose proof (total_nonneg l). rewrite (proj2 (Z.leb_le _ _)) by lia. f_equal. apply IH. lia.
Qed.

Lemma fitting_snoc budget l p : budget < total (l ++ [p]) → fitting budget (l ++ [p]) = fitting budget l.
Proof.
  revert budget. induction l as [|q l IH]; intros budget Hb; simpl in *.
  - by rewrite (proj2 (Z.leb_gt _ _)) by lia.
  - destruct (weight_ q.2 <=? budget); [|done]. f_equal. apply IH. lia.
Qed.

Lemma fitting_total budget l : 0 ≤ budget → total (fitting budget l) ≤ budget.
Proof.
  revert budget. induction l as [|p l IH]; intros budget Hb; simpl; [lia|].
  destruct (Z.leb_spec (weight_ p.2) budget); simpl; [|lia].
  specialize (IH (budget - weight_ p.2)). lia.
Qed.

Lemma others_notin l k : k ∉ l.*1 → others l k = l.
Proof.
  induction l as [|[k' v] l IH]; intros Hk; [done|]. simpl in Hk. rewrite elem_of_cons in Hk.
  unfold others in *. rewrite filter_cons_True by (simpl; naive_solver). f_equal. apply IH. naive_solver.
Qed.

Lemma others_keys l k : k ∉ (others l k).*1.
Proof.
  rewrite list_elem_of_fmap. intros ([k' v] & -> & Hin). unfold others in Hin.
  by apply list_elem_of_filter in Hin as [? _].
Qed.

Lemma assoc_Some l k v : NoDup l.*1 → assoc l k = Some v ↔ (k, v) ∈ l.
Proof.
  unfold assoc. induction l as [|[k' v'] l IH]; intros Hn; simpl.
  { split; [done|inversion 1]. }
  rewrite elem_of_cons. inversion_clear Hn as [|? ? Hk Hl]. case_bool_decide as E; simpl.
  - subst k'. split; [intros [= ->]; by left|]. intros [[= <-]|Hin]; [done|].
    destruct Hk. apply list_elem_of_fmap. by exists (k, v).
  - rewrite IH by done. split; [by right|]. intros [[= <- _]|?]; done.
Qed.

Lemma unlink_spec (L : list (nat * (Key * Value))) id k v :
  NoDup L.*1 → NoDup L.*2.*1 → (id, (k, v)) ∈ L →
  ∃ rest, unlink id L = Some ((k, v), rest) ∧ rest.*2 = others L.*2 k ∧
          Permutation L ((id, (k, v)) :: rest).
Proof.
  induction L as [|[i [k' v']] L IH]; intros Hi Hk Hin; [inversion Hin|].
  inversion_clear Hi as [|? ? Hi1 Hi2]. inversion_clear Hk as [|? ? Hk1 Hk2]. simpl in *.
  apply elem_of_cons in Hin. case_decide as E.
  - subst i. destruct Hin as [[= <- <-]|Hin].
    + exists L. split_and!; [done| |done]. unfold others. rewrite filter_cons_False by (simpl; naive_solver).
      symmetry. by apply others_notin.
    + destruct Hi1. apply list_elem_of_fmap. by exists (id, (k, v)).
  - destruct Hin as [[= -> _ _]|Hin]; [done|].
    destruct (IH Hi2 Hk2 Hin) as (rest & -> & Hr & Hp). simpl. eexists. split_and!; [done| |].
    + rewrite fmap_cons, Hr. unfold others. rewrite filter_cons_True; [done|]. simpl. intros ->.
      destruct Hk1. apply list_elem_of_fmap. exists (k, v). split; [done|].
      apply list_elem_of_fmap. by exists (id, (k, v)).
    + rewrite Hp. apply Permutation_swap.
Qed.

(** Moving a node to the front, its value possibly replaced. *)
Lemma repr_front s l id k v w rest :
  repr s l → Permutation (lru s) ((id, (k, v)) :: rest) → rest.*2 = others l k →
  repr (mkShard ((id, (k, w)) :: rest) (smap s) (weight_ w + (total l - weight_ v)) (fresh s))
       ((k, w) :: others l k).
Proof.
  intros [Hl Hi Hf Hk Hm Hw] Hp Hr. pose proof (fmap_Permutation snd _ _ Hp) as Hp2.
  rewrite Hl, fmap_cons, Hr in Hp2. simpl in Hp2. split; simpl.
  - by f_equal.
  - by rewrite Hp in Hi.
  - intros i kv Hin. apply elem_of_cons in Hin as [[= -> ->]|Hin].
    + apply (Hf id (k, v)). rewrite Hp. by left.
    + apply (Hf i kv). rewrite Hp. by right.
  - constructor; [apply others_keys|]. rewrite (fmap_Permutation fst _ _ Hp2) in Hk. simpl in Hk.
    by inversion Hk.
  - intros k' id'. rewrite Hm. setoid_rewrite Hp. setoid_rewrite elem_of_cons. clear. naive_solver.
  - rewrite (total_perm _ _ Hp2). simpl. lia.
Qed.

Lemma repr_push s l k v :
  repr s l → k ∉ l.*1 →
  repr (mkShard ((fresh s, (k, v)) :: lru s) (<[k := fresh s]> (smap s)) (weight_ v + total l) (S (fresh s)))
       ((k, v) :: l).
Proof.
  intros [Hl Hi Hf Hk Hm Hw] Hn. split; simpl.
  - by f_equal.
  - constructor; [|done]. intros ([i kv] & Hi' & Hin)%list_elem_of_fmap. simpl in Hi'. subst i.
    apply Hf in Hin. lia.
  - intros i kv [[= -> _]|Hin]%elem_of_cons; [lia|]. apply Hf in Hin. lia.
  - by constructor.
  - intros k' id'. destruct (decide (k = k')) as [<-|Hne].
    + rewrite lookup_insert_eq. split.
      * intros [= <-]. exists v. by left.
      * intros (w & [[= -> _]|Hin]%elem_of_cons); [done|]. destruct Hn. rewrite <- Hl.
        apply list_elem_of_fmap. exists (k, w). split; [done|]. apply list_elem_of_fmap. by exists (id', (k, w)).
    + rewrite lookup_insert_ne by done. rewrite Hm. setoid_rewrite elem_of_cons. clear -Hne. naive_solver.
  - done.
Qed.

Lemma repr_pop s l p id :
  repr s (l ++ [p]) → last (lru s) = Some (id, p) →
  repr (mkShard (take (length (lru s) - 1) (lru s)) (delete p.1 (smap s)) (total l) (fresh s)) l.
Proof.
  intros [Hl Hi Hf Hk Hm Hw] Hlast. destruct p as [k v]. apply last_Some in Hlast as [L HL].
  destruct s as [L0 m ws f]. cbn [lru smap weight fresh] in *. subst L0. rewrite length_app, Nat.add_sub, take_app_length.
  rewrite fmap_app in Hl. apply app_inj_tail in Hl as [Hl _].
  rewrite fmap_app in Hk. rewrite fmap_app in Hi. apply NoDup_app in Hk as (Hk & Hkd & _). apply NoDup_app in Hi as (Hi & _ & _).
  simpl. split; simpl; [done|done| |done| |done].
  - intros i kv Hin. apply (Hf i kv). apply elem_of_app. by left.
  - intros k' id'. destruct (decide (k = k')) as [<-|Hne].
    + rewrite lookup_delete_eq. split; [done|]. intros (w & Hin). destruct (Hkd k); [|by left].
      apply list_elem_of_fmap. exists (k, w). split; [done|]. rewrite <- Hl.
      apply list_elem_of_fmap. by exists (id', (k, w)).
    + rewrite lookup_delete_ne by done. rewrite Hm. setoid_rewrite elem_of_app.
      setoid_rewrite list_elem_of_singleton. clear -Hne. naive_solver.
Qed.

Lemma evict_spec n cap s l :
  repr s l → length l = n → total l < 2 ^ 64 →
  ∃ s', evict n cap s = Some s' ∧ repr s' (fitting cap l).
Proof.
  revert s l. induction n as [|n IH]; intros s l Hr Hn Hb; cbn [evict].
  - destruct l; [|done]. exists s. split; [|done]. rewrite (rp_weight _ _ Hr).
    pose proof (rp_list _ _ Hr) as E. destruct (lru s) eqn:EL; [|done]. simpl. by destruct (cap <? 0).
  - destruct l as [|p l _] using rev_ind; [done|]. rewrite length_app in Hn. simpl in Hn.
    rewrite (rp_weight _ _ Hr). destruct (Z.ltb_spec cap (total (l ++ [p]))) as [Hc|Hc].
    + pose proof (rp_list _ _ Hr) as Hl. destruct (last (lru s)) as [[id q]|] eqn:Elast.
      * assert (q = p) as ->.
        { apply last_Some in Elast as [L HL]. rewrite HL, fmap_app in Hl. by apply app_inj_tail in Hl as [_ ?]. }
        rewrite fitting_snoc by done. rewrite total_app in Hb |- *. simpl in Hb |- *.
        pose proof (weight_range p.2). pose proof (total_nonneg l).
        unfold u64. rewrite Z.mod_small by lia.
        replace (total l + (weight_ p.2 + 0) - weight_ p.2) with (total l) by lia.
        apply IH; [by eapply repr_pop|lia|lia].
      * apply last_None in Elast. rewrite Elast in Hl. by destruct l.
    + exists s. by rewrite fitting_all.
Qed.

(** ** The cache *)

Record cache_repr (n max cap : Z) (c : ShardedLruCache) (ls : Z → list (Key * Value)) : Prop := {
  cr_shards : shards_ c = n;
  cr_max : max_total_weight_ c = max;
  cr_cap : shard_weight_cap_ c = cap;
  cr_len : len (shard_ c) = n;
  cr_repr : ∀ i s, shard_ c !! i = Some s → repr s (ls (Z.of_nat i)) ∧ total (ls (Z.of_nat i)) ≤ cap
}.

Lemma shard_lookup n max cap c ls k :
  0 < n → cache_repr n max cap c ls →
  0 ≤ ShardOf c k < n ∧ ∃ s, shard_ c !! Z.to_nat (ShardOf c k) = Some s ∧
    repr s (ls (ShardOf c k)) ∧ total (ls (ShardOf c k)) ≤ cap.
Proof.
  intros Hn [H1 _ _ H2 H3]. pose proof (Z.mod_pos_bound (hash k) n Hn) as Hm.
  unfold ShardOf in *. rewrite H1 in *. split; [done|].
  destruct (lookup_lt_is_Some_2 (shard_ c) (Z.to_nat (hash k mod n))) as [s Hs].
  { unfold len in H2. lia. }
  exists s. split; [done|]. specialize (H3 _ _ Hs). by rewrite Z2Nat.id in H3 by lia.
Qed.

Lemma set_shard_repr n max cap c ls i s l :
  cache_repr n max cap c ls → 0 ≤ i < n → repr s l → total l ≤ cap →
  cache_repr n max cap (set_shard c i s) (λ j, if j =? i then l else ls j).
Proof.
  intros [H1 H2 H3 H4 H5] Hi Hr Ht. split; simpl; [done..| |].
  - unfold len in *. by rewrite length_insert.
  - intros j t Hj. apply list_lookup_insert_Some in Hj as [(<- & <- & _)|[Hne Hj]].
    + by rewrite Z2Nat.id, Z.eqb_refl by lia.
    + rewrite (proj2 (Z.eqb_neq _ _)) by lia. by apply H5.
Qed.

Lemma assoc_map s l k :
  repr s l →
  match smap s !! k with
  | Some id => ∃ v, (id, (k, v)) ∈ lru s ∧ assoc l k = Some v
  | None => (k ∉ l.*1) ∧ assoc l k = None
  end.
Proof.
  intros [Hl Hi Hf Hk Hm Hw]. destruct (smap s !! k) as [id|] eqn:E.
  - apply Hm in E as [v Hin]. exists v. split; [done|]. apply assoc_Some; [done|]. rewrite <- Hl.
    apply list_elem_of_fmap. by exists (id, (k, v)).
  - assert (k ∉ l.*1) as Hn.
    { intros ([k' v] & -> & Hin)%list_elem_of_fmap. rewrite <- Hl in Hin.
      apply list_elem_of_fmap in Hin as ([id kv] & E' & Hin). simpl in *. subst kv.
      assert (smap s !! k' = Some id) as E2 by (apply Hm; by exists v). congruence. }
    split; [done|]. destruct (assoc l k) as [v|] eqn:Ea; [|done]. apply assoc_Some in Ea; [|done].
    destruct Hn. apply list_elem_of_fmap. by exists (k, v).
Qed.

Lemma Get_refines n max cap c ls k :
  0 < n → cache_repr n max cap c ls →
  let i := hash k mod n in
  ∃ c', Get c k = Some (assoc (ls i) k, c') ∧
    cache_repr n max cap c' (λ j, if j =? i then spec_get (ls i) k else ls j).
Proof.
  intros Hn Hc i. destruct (shard_lookup n max cap c ls k Hn Hc) as (Hi & s & Hs & Hr & Ht).
  assert (ShardOf c k = i) as Hi' by (unfold ShardOf; by rewrite (cr_shards _ _ _ _ _ Hc)).
  unfold Get. rewrite Hs. cbn [mbind option_bind]. rewrite Hi' in *.
  pose proof (assoc_map s (ls i) k Hr) as Ha. unfold spec_get. destruct (smap s !! k) as [id|].
  - destruct Ha as (v & Hin & ->). pose proof Hr as [Hl Hids _ Hk _ Hw].
    destruct (unlink_spec (lru s) id k v Hids ltac:(by rewrite Hl) Hin) as (rest & -> & Hrest & Hp).
    rewrite Hl in Hrest. cbn [mbind option_bind snd]. eexists. split; [done|].
    pose proof (repr_front s (ls i) id k v v rest Hr Hp Hrest) as Hf.
    apply set_shard_repr; [done|done| |].
    + by replace (weight s) with (weight_ v + (total (ls i) - weight_ v)) by lia.
    + pose proof (rp_weight _ _ Hf) as E. simpl in E |- *. lia.
  - destruct Ha as [_ ->]. exists c. split; [done|]. destruct Hc as [H1 H2 H3 H4 H5]. split; [done..|].
    intros j t Hj. destruct (Z.eqb_spec (Z.of_nat j) i) as [<-|]; by apply H5.
Qed.

Lemma Put_refines n max cap c ls k v :
  0 < n → 0 ≤ cap → cap + max < 2 ^ 64 → cache_repr n max cap c ls →
  let i := hash k mod n in
  ∃ c', Put c k v = Some c' ∧
    cache_repr n max cap c' (λ j, if j =? i then spec_put max cap (ls i) k v else ls j).
Proof.
  intros Hn Hcap Hmax Hc i. destruct (shard_lookup n max cap c ls k Hn Hc) as (Hi & s & Hs & Hr & Ht).
  assert (ShardOf c k = i) as Hi' by (unfold ShardOf; by rewrite (cr_shards _ _ _ _ _ Hc)).
  unfold Put, spec_put. rewrite (cr_max _ _ _ _ _ Hc), (cr_cap _ _ _ _ _ Hc).
  destruct (Z.ltb_spec max (weight_ v)) as [Hw|Hw].
  { exists c. split; [done|]. destruct Hc as [H1 H2 H3 H4 H5]. split; [done..|].
    intros j t Hj. destruct (Z.eqb_spec (Z.of_nat j) i) as [<-|]; by apply H5. }
  rewrite Hs. cbn [mbind option_bind]. rewrite Hi' in *. pose proof (weight_range v).
  pose proof (assoc_map s (ls i) k Hr) as Ha. pose proof (total_nonneg (ls i)).
  set (l := (k, v) :: others (ls i) k).
  assert (∃ s', match smap s !! k with
    | Some it => '(kv, rest) ← unlink it (lru s);
        Some (mkShard ((it, (kv.1, v)) :: rest) (smap s) (u64 (u64 (weight s - weight_ kv.2) + weight_ v)) (fresh s))
    | None => Some (mkShard ((fresh s, (k, v)) :: lru s) (<[k := fresh s]> (smap s)) (u64 (weight s + weight_ v)) (S (fresh s)))
    end = Some s' ∧ repr s' l ∧ total l < 2 ^ 64) as (s' & -> & Hr' & Hl').
  { rewrite (rp_weight _ _ Hr). destruct (smap s !! k) as [id|].
    - destruct Ha as (x & Hin & _). pose proof Hr as [Hl Hids _ Hk _ _].
      destruct (unlink_spec (lru s) id k x Hids ltac:(by rewrite Hl) Hin) as (rest & -> & Hrest & Hp).
      rewrite Hl in Hrest. pose proof (repr_front s (ls i) id k x v rest Hr Hp Hrest) as Hf.
      pose proof (rp_weight _ _ Hf) as E. simpl in E. pose proof (total_nonneg (others (ls i) k)).
      pose proof (weight_range x). cbn [mbind option_bind fst snd]. unfold u64.
      rewrite (Z.mod_small (total (ls i) - weight_ x)), Z.mod_small, Z.add_comm by lia.
      eexists. split_and!; [done|done|]. simpl. lia.
    - destruct Ha as [Hn' _]. pose proof (repr_push s (ls i) k v Hr Hn') as Hf.
      unfold l. rewrite (others_notin _ _ Hn'). unfold u64. rewrite Z.mod_small, Z.add_comm by lia.
      eexists. split_and!; [done|done|]. simpl. lia. }
  cbn [mbind option_bind].
  assert (length (lru s') = length l) as El by (rewrite <- (rp_list _ _ Hr'); by rewrite length_fmap).
  destruct (evict_spec (length (lru s')) cap s' l Hr' ltac:(done) Hl') as (s2 & -> & Hr2).
  eexists. split; [done|]. apply set_shard_repr; [done|done|done|]. by apply fitting_total.
Qed.

Lemma Clear_refines n max cap c ls :
  0 ≤ cap → cache_repr n max cap c ls → cache_repr n max cap (Clear c) (λ _, []).
Proof.
  intros Hcap [H1 H2 H3 H4 H5]. split; simpl; [done..| |].
  - unfold len in *. by rewrite length_fmap.
  - intros i s Hs. apply list_lookup_fmap_Some in Hs as (t & -> & Ht). split; [|done].
    split; simpl; try done; [constructor|intros ? ? Hin; inversion Hin|constructor|].
    intros k id. rewrite lookup_empty. split; [done|]. intros [v Hin]. inversion Hin.
Qed.

Lemma new_cache_repr n max :
  0 < n → 0 ≤ max → cache_repr n max (shard_weight_cap_ (new_cache n max)) (new_cache n max) (λ _, []).
Proof.
  intros Hn Hm. split; simpl; [done..| |].
  - unfold len. rewrite length_replicate. lia.
  - intros i s [-> _]%lookup_replicate. split; [|simpl].
    + split; simpl; try done; [constructor|intros ? ? Hin; inversion Hin|constructor|].
      intros k id. rewrite lookup_empty. split; [done|]. intros [v Hin]. inversion Hin.
    + pose proof (Z.div_pos max n Hm Hn). destruct (_ =? _); lia.
Qed.

Lemma run_refines n max cap ops c ls :
  0 < n → 0 ≤ cap → cap + max < 2 ^ 64 → cache_repr n max cap c ls →
  ∃ c', run c ops = Some ((spec_run n max cap ls ops).1, c') ∧
        cache_repr n max cap c' (spec_run n max cap ls ops).2.
Proof.
  intros Hn Hcap Hmax. revert c ls. induction ops as [|[k|k v|] ops IH]; intros c ls Hc; cbn [run spec_run].
  - by exists c.
  - destruct (Get_refines n max cap c ls k Hn Hc) as (c1 & -> & Hc1). cbn [mbind option_bind].
    destruct (IH _ _ Hc1) as (c2 & -> & Hc2). cbn [mbind option_bind].
    destruct (spec_run _ _ _ _ ops) as [rs ls']. by exists c2.
  - destruct (Put_refines n max cap c ls k v Hn Hcap Hmax Hc) as (c1 & -> & Hc1). cbn [mbind option_bind].
    by apply IH.
  - apply IH. by eapply Clear_refines.
Qed.

(** The total weight held, over all shards. *)
Definition held (c : ShardedLruCache) : Z := foldr Z.add 0 (weight <$> shard_ c).

Lemma held_bound n max cap c ls : cache_repr n max cap c ls → held c ≤ n * cap.
Proof.
  intros [_ _ _ <- Hr]. unfold held.
  assert (∀ s, s ∈ shard_ c → weight s ≤ cap) as Hw.
  { intros s [i Hi]%list_elem_of_lookup. destruct (Hr _ _ Hi) as [H1 H2]. by rewrite (rp_weight _ _ H1). }
  clear Hr. induction (shard_ c) as [|s l IH]; [unfold len; simpl; lia|]. rewrite len_cons, fmap_cons. simpl.
  pose proof (Hw s ltac:(by left)). specialize (IH ltac:(intros; apply Hw; by right)). lia.
Qed.

(** ** Properties *)

(** C32: the cache is a set of independent least-recently-used lists: after any
    sequence of operations the answers are those of one recency list per
    shard, where an insertion keeps the longest prefix that fits the shard's
    share, no iterator of the map dangles, every eviction loop ends, and the
    weight held stays within the budget (one unit per shard when the budget is
    smaller than that). *)
Theorem lru_refines_recency_lists (shards max_total : Z) (ops : list cache_op) :
  0 < shards → 0 ≤ max_total < 2 ^ 63 →
  let c := new_cache shards max_total in
  ∃ c', run c ops = Some ((spec_run shards max_total (shard_weight_cap_ c) (λ _, []) ops).1, c') ∧
        held c' ≤ Z.max max_total shards.
Proof.
  intros Hn Hm c. pose proof (new_cache_repr shards max_total Hn ltac:(lia)) as Hc. fold c in Hc.
  assert (0 < shard_weight_cap_ c ≤ Z.max 1 max_total ∧ shards * shard_weight_cap_ c ≤ Z.max max_total shards) as [Hcap Hs].
  { unfold c, new_cache. cbn [shard_weight_cap_]. cbv zeta. pose proof (Z.div_pos max_total shards ltac:(lia) Hn).
    pose proof (Z.mul_div_le max_total shards Hn).
    pose proof (Z.div_le_upper_bound max_total shards max_total Hn ltac:(nia)).
    destruct (Z.eqb_spec (max_total / shards) 0); lia. }
  destruct (run_refines shards max_total (shard_weight_cap_ c) ops c (λ _, []) Hn ltac:(lia) ltac:(lia) Hc) as (c' & -> & Hc').
  exists c'. split; [done|]. pose proof (held_bound _ _ _ _ _ Hc'). lia.
Qed.

End lru_cache.

(** Keys are numbers hashed to themselves, a value's weight is its size. *)
Definition sample_ops : list cache_op :=
  [OpPut 1 10; OpPut 3 20; OpGet 1; OpPut 5 20; OpGet 3; OpGet 1; OpGet 5].

Lemma lru_refines_recency_lists_witness :
  ∃ c', run (λ k, k) Z.abs (new_cache 2 80) sample_ops = Some ([Some 10; None; Some 10; Some 20], c') ∧
        held c' ≤ 80.
Proof.
  exact (lru_refines_recency_lists (λ k, k) Z.abs Z.abs_nonneg 2 80 sample_ops
           ltac:(lia) ltac:(lia)).
Defined.

(** A value heavier than the whole cache is not stored, and the value the
    key had before stays: the next lookup answers the old one. *)
Example oversized_put_keeps_stale_value :
  fst <$> run (λ k : Z, k) Z.abs (new_cache 2 80) [OpPut 1 10; OpPut 1 100; OpGet 1] = Some [Some 10].
Proof. vm_compute. reflexivity. Qed.
