(* ===== verification/Bloom.v ===== *)
(** * Bloom filters

    Models include/bedrockkv/bloom.h: the hash, the construction of a filter
    over the user keys of a block, and the membership test the read path uses
    to skip a block. *)

From S2P Require Import Prelude Crc32.

Definition Hash (key : bytes) : Z := Crc32 key 0xbc9f1d34.

(** [(h >> 17) | (h << 15)] on 32 bits. *)
Definition bloom_delta (h : Z) : Z := Z.lor (Z.shiftr h 17) (u32 (Z.shiftl h 15)).

(** [filter[bitpos / 8] |= static_cast<char>(1 << (bitpos % 8))] *)
Definition set_bit (filter : bytes) (bitpos : Z) : bytes :=
  alter (λ b, to_char (Z.lor (byte_val b) (Z.shiftl 1 (bitpos mod 8))))
        (Z.to_nat (bitpos / 8)) filter.

(** The probe loop of [BuildFilter] for one key: [k] probes from [h]. *)
Fixpoint add_probes (k : nat) (bits h delta : Z) (filter : bytes) : bytes :=
  match k with
  | O => filter
  | S k => add_probes k bits (u32 (h + delta)) delta (set_bit filter (h mod bits))
  end.

(** [static_cast<int>(bits_per_key * 0.69)], clamped to 1..30.  The product is
    computed in double precision in the source; it is within 1e-13 of the
    exact value, whose distance to the nearest integer above is at least 0.01
    unless [bits_per_key] is a multiple of 100, where both are clamped. *)
Definition num_probes (bits_per_key : Z) : Z :=
  let k := bits_per_key * 69 / 100 in
  let k := if k <? 1 then 1 else k in
  if 30 <? k then 30 else k.

(** The number of bytes of the bit array over [n > 0] keys. *)
Definition filter_bytes (n bits_per_key : Z) : Z :=
  let bits := u64 (n * bits_per_key) in
  let bits := if bits <? 64 then 64 else bits in
  u64 (bits + 7) / 8.

Definition BuildFilter (keys : list bytes) (bits_per_key : Z) : bytes :=
  let n := len keys in
  if n =? 0 then []
  else
    let nbytes := filter_bytes n bits_per_key in
    let bits := nbytes * 8 in
    let k := num_probes bits_per_key in
    let filter :=
      foldl (λ f key, let h := Hash key in
                      add_probes (Z.to_nat k) bits h (bloom_delta h) f)
            (replicate (Z.to_nat nbytes) Init.Byte.x00) keys in
    filter ++ [to_char k].

(** The probe loop of [KeyMayMatch]; [None] is an access outside the filter. *)
Fixpoint check_probes (k : nat) (bits h delta : Z) (filter : bytes) : option bool :=
  match k with
  | O => Some true
  | S k =>
      let bitpos := h mod bits in
      b ← at_ix filter (bitpos / 8);
      if Z.land (byte_val b) (Z.shiftl 1 (bitpos mod 8)) =? 0 then Some false
      else check_probes k bits (u32 (h + delta)) delta filter
  end.

Definition KeyMayMatch (filter : bytes) (key : bytes) : option bool :=
  if len filter <? 2 then Some true
  else
    c ← list.last filter;
    let k := byte_val c in
    let bits := (len filter - 1) * 8 in
    let h := Hash key in
    check_probes (Z.to_nat k) bits h (bloom_delta h) filter.

(** ** Bits of the array *)

Definition bit_of (filter : bytes) (bitpos : Z) : bool :=
  match at_ix filter (bitpos / 8) with
  | Some b => Z.testbit (byte_val b) (bitpos mod 8)
  | None => false
  end.

Lemma land_pow2_testbit a n : 0 ≤ n → (Z.land a (Z.shiftl 1 n) =? 0) = negb (Z.testbit a n).
Proof.
  intros Hn. rewrite Z.shiftl_1_l. destruct (Z.testbit a n) eqn:E; simpl.
  - apply Z.eqb_neq. intros H. apply (f_equal (λ x, Z.testbit x n)) in H.
    rewrite Z.land_spec, E, Z.pow2_bits_true, Z.testbit_0_l in H by done. done.
  - apply Z.eqb_eq, Z.bits_inj'. intros m Hm. rewrite Z.land_spec, Z.testbit_0_l.
    rewrite Z.pow2_bits_eqb by done. destruct (Z.eqb_spec n m) as [->|]; [by rewrite E|btauto].
Qed.

Lemma byte_or_bit b m n :
  0 ≤ m < 8 → 0 ≤ n < 8 →
  Z.testbit (byte_val (to_char (Z.lor (byte_val b) (Z.shiftl 1 m)))) n
  = Z.testbit (byte_val b) n || (m =? n).
Proof.
  intros Hm Hn. rewrite byte_val_to_char. change 256 with (2 ^ 8).
  rewrite Z.mod_pow2_bits_low, Z.lor_spec, Z.shiftl_1_l by lia.
  by rewrite Z.pow2_bits_eqb by lia.
Qed.

Lemma length_set_bit f p : length (set_bit f p) = length f.
Proof. apply length_alter. Qed.

Lemma len_set_bit f p : len (set_bit f p) = len f.
Proof. unfold len. by rewrite length_set_bit. Qed.

Lemma bit_of_set_bit f p q :
  0 ≤ p < len f * 8 → 0 ≤ q →
  bit_of (set_bit f p) q = bit_of f q || (p =? q).
Proof.
  intros Hp Hq. unfold bit_of, at_ix, set_bit, len in *.
  assert (0 ≤ q / 8 ∧ 0 ≤ p / 8) as [Hq8 Hp8] by (split; apply Z.div_pos; lia).
  rewrite !(proj2 (Z.ltb_ge (q / 8) 0)) by done.
  pose proof (Z.mod_pos_bound p 8 eq_refl). pose proof (Z.mod_pos_bound q 8 eq_refl).
  destruct (decide (p / 8 = q / 8)) as [E|E].
  - rewrite <- E. rewrite list_lookup_alter_eq || rewrite list_lookup_alter.
    destruct (lookup_lt_is_Some_2 f (Z.to_nat (p / 8))) as [b Hb].
    { apply Nat2Z.inj_lt. rewrite Z2Nat.id by lia.
      apply Z.div_lt_upper_bound; lia. }
    rewrite Hb. cbn [fmap option_fmap option_map]. rewrite byte_or_bit by lia.
    f_equal. apply eq_true_iff_eq. rewrite !Z.eqb_eq.
    pose proof (Z.div_mod p 8 ltac:(lia)). pose proof (Z.div_mod q 8 ltac:(lia)). lia.
  - rewrite list_lookup_alter_ne by lia.
    rewrite (proj2 (Z.eqb_neq p q)) by congruence. by rewrite orb_false_r.
Qed.

(** The [k] probe positions of a key. *)
Fixpoint probes (k : nat) (bits h delta : Z) : list Z :=
  match k with
  | O => []
  | S k => h mod bits :: probes k bits (u32 (h + delta)) delta
  end.

Lemma probes_range k bits h delta :
  0 < bits → Forall (λ p, 0 ≤ p < bits) (probes k bits h delta).
Proof.
  intros Hb. revert h. induction k; intros h; simpl; constructor; [|done].
  by apply Z.mod_pos_bound.
Qed.

Lemma length_add_probes k bits h delta f :
  length (add_probes k bits h delta f) = length f.
Proof. revert h f. induction k; intros; simpl; [done|]. by rewrite IHk, length_set_bit. Qed.

Lemma bit_of_add_probes k bits h delta f q :
  0 < bits → bits = len f * 8 → 0 ≤ q →
  bit_of (add_probes k bits h delta f) q
  = bit_of f q || bool_decide (q ∈ probes k bits h delta).
Proof.
  intros Hb Hf Hq. revert h f Hf. induction k as [|k IH]; intros h f Hf; cbn [add_probes probes].
  - by rewrite orb_false_r.
  - pose proof (Z.mod_pos_bound h bits Hb).
    rewrite IH by (by rewrite len_set_bit). rewrite bit_of_set_bit by lia.
    rewrite <- orb_assoc. f_equal. apply eq_true_iff_eq.
    rewrite orb_true_iff, Z.eqb_eq, !bool_decide_eq_true, elem_of_cons. intuition auto.
Qed.

Lemma check_probes_true k bits h delta f :
  0 < bits → bits ≤ len f * 8 →
  Forall (λ p, bit_of f p = true) (probes k bits h delta) →
  check_probes k bits h delta f = Some true.
Proof.
  intros Hb Hf. revert h. induction k as [|k IH]; intros h; cbn [check_probes probes]; [done|].
  inversion_clear 1 as [|? ? Hh Ht]. unfold bit_of in Hh.
  destruct (at_ix f (h mod bits / 8)) as [b|]; [|done]. cbn [mbind option_bind].
  rewrite land_pow2_testbit by apply Z.mod_pos_bound, eq_refl. rewrite Hh. simpl. by apply IH.
Qed.

Lemma check_probes_safe k bits h delta f :
  0 < bits → bits ≤ len f * 8 → is_Some (check_probes k bits h delta f).
Proof.
  intros Hb Hf. revert h. induction k as [|k IH]; intros h; cbn [check_probes]; [by eexists|].
  pose proof (Z.mod_pos_bound h bits Hb).
  assert (0 ≤ h mod bits / 8 < len f) as Hix.
  { split; [apply Z.div_pos; lia|apply Z.div_lt_upper_bound; lia]. }
  unfold at_ix. rewrite (proj2 (Z.ltb_ge _ 0)) by lia.
  destruct (lookup_lt_is_Some_2 f (Z.to_nat (h mod bits / 8))) as [b Hb'];
    [unfold len in *; lia|].
  rewrite Hb'. cbn [mbind option_bind]. case_match; [by eexists|apply IH].
Qed.

(** ** The filter under construction *)

Section Build.
Context (bits : Z) (k : nat).
Hypothesis bits_pos : 0 < bits.

Definition add_key (f : bytes) (key : bytes) : bytes :=
  let h := Hash key in add_probes k bits h (bloom_delta h) f.

Definition key_probes (key : bytes) : list Z :=
  probes k bits (Hash key) (bloom_delta (Hash key)).

Lemma length_add_keys keys f : length (foldl add_key f keys) = length f.
Proof.
  revert f. induction keys; intros f; simpl; [done|].
  rewrite IHkeys. apply length_add_probes.
Qed.

Lemma len_add_key f key : len (add_key f key) = len f.
Proof. unfold len, add_key. by rewrite length_add_probes. Qed.

Lemma add_key_mono key f q :
  bits = len f * 8 → 0 ≤ q → bit_of f q = true → bit_of (add_key f key) q = true.
Proof. intros. unfold add_key. rewrite bit_of_add_probes by done. by rewrite H1. Qed.

Lemma add_keys_mono keys f q :
  bits = len f * 8 → 0 ≤ q → bit_of f q = true → bit_of (foldl add_key f keys) q = true.
Proof.
  revert f. induction keys as [|x keys IH]; intros f Hf Hq Hb; simpl; [done|].
  apply IH; [by rewrite len_add_key|done|by apply add_key_mono].
Qed.

Lemma add_keys_sets keys f key q :
  bits = len f * 8 → key ∈ keys → q ∈ key_probes key →
  bit_of (foldl add_key f keys) q = true.
Proof.
  revert f. induction keys as [|x keys IH]; intros f Hf Hk Hq; [by apply elem_of_nil in Hk|].
  simpl. pose proof (probes_range k bits (Hash key) (bloom_delta (Hash key)) bits_pos) as Hr.
  rewrite Forall_forall in Hr. specialize (Hr q Hq).
  assert (bits = len (add_key f x) * 8) by (by rewrite len_add_key).
  apply elem_of_cons in Hk as [<-|Hk]; [|by apply IH].
  apply add_keys_mono; [done|lia|]. unfold add_key.
  rewrite bit_of_add_probes by (done || lia). rewrite orb_true_iff. right.
  by apply bool_decide_eq_true.
Qed.

End Build.

Lemma num_probes_range b : 1 ≤ num_probes b ≤ 30.
Proof. unfold num_probes. repeat case_match; lia. Qed.

Lemma filter_bytes_pos n b :
  0 ≤ n * b < 2 ^ 64 - 7 → 8 ≤ filter_bytes n b.
Proof.
  intros H. unfold filter_bytes, u64. rewrite (Z.mod_small (n * b)) by lia.
  case_match; [by vm_compute|]. rewrite Z.mod_small by lia.
  apply Z.div_le_lower_bound; lia.
Qed.

Lemma bit_of_app_l f g q : 0 ≤ q < len f * 8 → bit_of (f ++ g) q = bit_of f q.
Proof.
  intros Hq. unfold bit_of, at_ix, len in *.
  assert (0 ≤ q / 8 < Z.of_nat (length f)).
  { split; [apply Z.div_pos; lia|apply Z.div_lt_upper_bound; lia]. }
  rewrite !(proj2 (Z.ltb_ge _ 0)) by lia. by rewrite lookup_app_l by lia.
Qed.

Lemma BuildFilter_match_aux keys bpk key :
  0 ≤ len keys * bpk < 2 ^ 64 - 7 → key ∈ keys →
  KeyMayMatch (BuildFilter keys bpk) key = Some true.
Proof.
  intros Hr Hk. unfold BuildFilter.
  destruct (Z.eqb_spec (len keys) 0) as [E|E].
  { destruct keys; [by apply elem_of_nil in Hk|]. rewrite len_cons in E. slia. }
  pose proof (filter_bytes_pos _ _ Hr) as Hb. set (nb := filter_bytes (len keys) bpk) in *.
  pose proof (num_probes_range bpk) as Hn. set (k := num_probes bpk) in *.
  fold (add_key (nb * 8) (Z.to_nat k)).
  set (z := replicate (Z.to_nat nb) Init.Byte.x00).
  assert (len z = nb) as Hz by (unfold z; rewrite len_replicate; lia).
  pose proof (length_add_keys (nb * 8) (Z.to_nat k) keys z) as Hl.
  set (f := foldl _ z keys) in *.
  assert (len f = nb) as Hf by (unfold len in *; lia).
  unfold KeyMayMatch. rewrite len_app, Hf, len_cons, len_nil.
  rewrite (proj2 (Z.ltb_ge _ 2)) by lia.
  rewrite last_snoc. cbn [fmap option_fmap option_map mbind option_bind].
  rewrite byte_val_to_char, Z.mod_small by lia.
  replace ((nb + (1 + 0) - 1) * 8) with (nb * 8) by lia.
  apply check_probes_true; [lia|slia|].
  pose proof (probes_range (Z.to_nat k) (nb * 8) (Hash key) (bloom_delta (Hash key))
    ltac:(lia)) as Hp.
  apply Forall_forall. intros q Hq. rewrite Forall_forall in Hp. specialize (Hp q Hq).
  rewrite bit_of_app_l by lia.
  apply (add_keys_sets (nb * 8) (Z.to_nat k)) with key; [lia|lia|done|done].
Qed.

(** ** Properties *)

Lemma KeyMayMatch_safe_aux filter key : is_Some (KeyMayMatch filter key).
Proof.
  unfold KeyMayMatch. destruct (Z.ltb_spec (len filter) 2); [by eexists|].
  destruct (list.last filter) as [b|] eqn:E.
  - cbn [fmap option_fmap option_map mbind option_bind]. apply check_probes_safe; slia.
  - apply last_None in E as ->. slia.
Qed.

(** C18: a filter has no false negatives: every key it was built over is
    reported as possibly present.  The hypothesis bounds the requested number
    of bits by what [size_t] holds. *)
Theorem BuildFilter_no_false_negative keys bits_per_key key :
  0 ≤ len keys * bits_per_key < 2 ^ 64 - 7 → key ∈ keys →
  KeyMayMatch (BuildFilter keys bits_per_key) key = Some true.
Proof. apply BuildFilter_match_aux. Qed.

Lemma BuildFilter_no_false_negative_witness :
  KeyMayMatch (BuildFilter [[Init.Byte.x61]; [Init.Byte.x62]] 10) [Init.Byte.x62] = Some true.
Proof.
  apply BuildFilter_no_false_negative; [split; [discriminate|reflexivity]|].
  apply elem_of_cons; right; apply elem_of_cons; left; reflexivity.
Defined.

(** The membership test is safe on any bytes: it never indexes outside
    the filter it is given, however the filter was damaged. *)
Theorem KeyMayMatch_safe filter key : is_Some (KeyMayMatch filter key).
Proof. apply KeyMayMatch_safe_aux. Qed.

(** A filter over two keys rejects a third one. *)
Example KeyMayMatch_rejects :
  KeyMayMatch (BuildFilter [[Init.Byte.x61]; [Init.Byte.x62]] 10) [Init.Byte.x63] = Some false.
Proof. vm_compute. reflexivity. Qed.
