(* ===== verification/InternalKey.v ===== *)
(** * Internal keys

    An internal key is [user_key ++ tag], the tag a little-endian u64 holding
    [(seq << 8) | type].  Models the key helpers of include/bedrockkv/block.h,
    src/block.cpp, include/bedrockkv/memtable.h and src/sstable.cpp: splitting,
    encoding, the comparator (user key ascending, tag descending) and the seek
    target of a read at a sequence number. *)

From S2P Require Import Prelude Encoding.

Definition kTypeDeletion : Z := 0.
Definition kTypeValue : Z := 1.
Definition kTagSize : Z := 8.
Definition kMaxSeq : Z := 2 ^ 64 - 1.

(** [(seq << 8) | type] on 64 bits. *)
Definition pack_tag (seq type : Z) : Z := Z.lor (u64 (Z.shiftl seq 8)) type.

Definition ExtractUserKey (internal_key : bytes) : bytes :=
  if 8 <=? len internal_key then slice 0 (len internal_key - 8) internal_key
  else internal_key.

Definition ExtractTag (internal_key : bytes) : Z :=
  if 8 <=? len internal_key
  then default 0 (GetFixed64 (at_off (len internal_key - 8) internal_key))
  else 0.

Definition EncodeInternalKey (user_key : bytes) (seq type : Z) : bytes :=
  user_key ++ PutFixed64 (pack_tag seq type).

Definition InternalKeyComparator (a b : bytes) : bool :=
  let a_user := if 8 <=? len a then len a - 8 else len a in
  let b_user := if 8 <=? len b then len b - 8 else len b in
  let a_key := slice 0 a_user a in
  let b_key := slice 0 b_user b in
  if negb (bytes_eqb a_key b_key) then bytes_ltb a_key b_key
  else
    let a_tag := if a_user =? len a then 0 else default 0 (GetFixed64 (at_off a_user a)) in
    let b_tag := if b_user =? len b then 0 else default 0 (GetFixed64 (at_off b_user b)) in
    b_tag <? a_tag.

(** The tag every read at [max_seq] seeks to. *)
Definition target_tag (max_seq : Z) : Z :=
  if kMaxSeq <=? max_seq then 2 ^ 64 - 1 else Z.lor (u64 (Z.shiftl max_seq 8)) 0xff.

(** The seek target of a point lookup or a scan. *)
Definition seek_target (user_key : bytes) (max_seq : Z) : bytes :=
  user_key ++ PutFixed64 (target_tag max_seq).

(** ** The comparator on (user key, tag) pairs *)

Definition ik_pair (ik : bytes) : bytes * Z := (ExtractUserKey ik, ExtractTag ik).

Definition pair_less (p q : bytes * Z) : bool :=
  bytes_ltb p.1 q.1 || (bytes_eqb p.1 q.1 && (q.2 <? p.2)).

#[export] Instance pair_less_strict_weak : StrictWeak pair_less.
Proof.
  split.
  - intros [k t]. unfold pair_less; simpl. by rewrite sw_irrefl, Z.ltb_irrefl, andb_false_r.
  - intros [k1 t1] [k2 t2] [k3 t3]. unfold pair_less; simpl.
    rewrite !orb_true_iff, !andb_true_iff, !bytes_eqb_eq, !Z.ltb_lt.
    intros [H1|[-> H1]] [H2|[-> H2]]; [left; eapply sw_trans; eauto|auto|auto|].
    right. split; [done|lia].
  - intros [k1 t1] [k2 t2] [k3 t3]. unfold pair_less; simpl.
    rewrite !orb_true_iff, !andb_true_iff, !bytes_eqb_eq, !Z.ltb_lt.
    intros [H|[-> H]].
    + destruct (sw_cotrans k1 k2 k3 H); auto.
    + destruct (bytes_ltb k3 k2) eqn:E1; [auto|]. destruct (bytes_ltb k2 k3) eqn:E2; [auto|].
      pose proof (bytes_ltb_total _ _ E1 E2) as ->.
      destruct (Z.lt_ge_cases t2 t1); [left; right; auto|right; right; split; [done|lia]].
Qed.

Lemma pair_less_total p q : pair_less p q = false → pair_less q p = false → p = q.
Proof.
  destruct p as [k t], q as [k' t']. unfold pair_less; cbn [fst snd].
  rewrite !orb_false_iff. intros [H1 H2] [H3 H4].
  pose proof (bytes_ltb_total _ _ H1 H3) as ->. rewrite (proj2 (bytes_eqb_eq k' k')) in * by done.
  simpl in *. f_equal. lia.
Qed.

Lemma InternalKeyComparator_pair a b :
  InternalKeyComparator a b = pair_less (ik_pair a) (ik_pair b).
Proof.
  assert (∀ x, slice 0 (if 8 <=? len x then len x - 8 else len x) x = ExtractUserKey x) as Hu.
  { intros x. unfold ExtractUserKey. case_match; [done|apply slice_full]. }
  assert (∀ x, (if (if 8 <=? len x then len x - 8 else len x) =? len x then 0
     else default 0 (GetFixed64 (at_off (if 8 <=? len x then len x - 8 else len x) x)))
     = ExtractTag x) as Ht.
  { intros x. unfold ExtractTag. destruct (8 <=? len x).
    - by rewrite (proj2 (Z.eqb_neq _ _)) by lia.
    - by rewrite Z.eqb_refl. }
  unfold InternalKeyComparator. rewrite !Hu, !Ht. unfold pair_less; simpl.
  destruct (bytes_eqb (ExtractUserKey a) (ExtractUserKey b)) eqn:E; simpl.
  - apply bytes_eqb_eq in E as ->. by rewrite sw_irrefl.
  - by rewrite orb_false_r.
Qed.

#[export] Instance InternalKeyComparator_strict_weak : StrictWeak InternalKeyComparator.
Proof.
  split; intros *; rewrite !InternalKeyComparator_pair;
    [apply sw_irrefl|apply sw_trans|apply sw_cotrans].
Qed.

(** ** Encoded keys *)

Lemma ExtractUserKey_app k t : ExtractUserKey (k ++ PutFixed64 t) = k.
Proof.
  unfold ExtractUserKey. rewrite len_app, len_PutFixed64.
  rewrite (proj2 (Z.leb_le _ _)) by slia. rewrite Z.add_simpl_r.
  rewrite slice_app_l by slia. apply slice_full.
Qed.

Lemma ExtractTag_app k t : ExtractTag (k ++ PutFixed64 t) = u64 t.
Proof.
  unfold ExtractTag. rewrite len_app, len_PutFixed64.
  rewrite (proj2 (Z.leb_le _ _)) by slia. rewrite Z.add_simpl_r.
  rewrite at_off_app by done. rewrite <- (app_nil_r (PutFixed64 t)).
  by rewrite GetFixed64_Put.
Qed.

Lemma ik_pair_app k t : ik_pair (k ++ PutFixed64 t) = (k, u64 t).
Proof. unfold ik_pair. by rewrite ExtractUserKey_app, ExtractTag_app. Qed.

(** A key of at least eight bytes is determined by its pair. *)
Lemma ik_pair_split a : 8 ≤ len a → a = ExtractUserKey a ++ PutFixed64 (ExtractTag a).
Proof.
  intros Ha. unfold ExtractUserKey, ExtractTag. rewrite (proj2 (Z.leb_le _ _)) by done.
  rewrite (slice_split a (len a - 8)) at 1 by lia. f_equal.
  destruct (proj2 (GetFixed64_is_Some (at_off (len a - 8) a))) as [v Hv].
  { rewrite len_at_off; lia. }
  rewrite Hv. simpl. apply GetFixed64_inv in Hv as [_ <-].
  rewrite take_ge; [done|]. unfold at_off. rewrite length_drop. unfold len in *. lia.
Qed.

Lemma ik_pair_inj a b : 8 ≤ len a → 8 ≤ len b → ik_pair a = ik_pair b → a = b.
Proof.
  intros Ha Hb [= E1 E2]. by rewrite (ik_pair_split a), (ik_pair_split b), E1, E2 by done.
Qed.

Lemma pack_tag_add seq type :
  0 ≤ seq < 2 ^ 56 → 0 ≤ type < 256 → pack_tag seq type = type + 256 * seq.
Proof.
  intros Hs Ht. unfold pack_tag, u64.
  rewrite Z.mod_small by (rewrite Z.shiftl_mul_pow2 by lia; lia).
  rewrite Z.lor_comm, lor_shiftl_add by lia. lia.
Qed.

Lemma pack_tag_range seq type :
  0 ≤ seq < 2 ^ 56 → 0 ≤ type < 256 → 0 ≤ pack_tag seq type < 2 ^ 64.
Proof. intros. rewrite pack_tag_add by done. lia. Qed.

Lemma pack_tag_seq seq type :
  0 ≤ seq < 2 ^ 56 → 0 ≤ type < 256 → Z.shiftr (pack_tag seq type) 8 = seq.
Proof.
  intros. rewrite pack_tag_add, Z.shiftr_div_pow2 by done. change (2 ^ 8) with 256.
  rewrite Z.mul_comm, Z.div_add, Z.div_small by lia. lia.
Qed.

Lemma pack_tag_type seq type :
  0 ≤ seq < 2 ^ 56 → 0 ≤ type < 256 → Z.land (pack_tag seq type) 0xff = type.
Proof.
  intros. rewrite pack_tag_add, land_255 by done.
  rewrite Z.mul_comm, Z_mod_plus_full, Z.mod_small by lia. lia.
Qed.

Lemma ik_pair_Encode k seq type :
  0 ≤ seq < 2 ^ 56 → 0 ≤ type < 256 →
  ik_pair (EncodeInternalKey k seq type) = (k, type + 256 * seq).
Proof.
  intros. unfold EncodeInternalKey. rewrite ik_pair_app, pack_tag_add by done.
  by rewrite u64_small by lia.
Qed.

Lemma target_tag_range max_seq : 0 ≤ max_seq → 0 ≤ target_tag max_seq < 2 ^ 64.
Proof.
  intros H. unfold target_tag. case_match; [lia|].
  pose proof (Z.mod_pos_bound (Z.shiftl max_seq 8) (2 ^ 64) ltac:(lia)) as Hr. fold (u64 (Z.shiftl max_seq 8)) in Hr.
  assert (0 ≤ Z.lor (u64 (Z.shiftl max_seq 8)) 0xff) by (apply Z.lor_nonneg; lia).
  split; [done|].
  destruct (Z.eq_dec (Z.lor (u64 (Z.shiftl max_seq 8)) 0xff) 0) as [->|]; [lia|].
  apply Z.log2_lt_pow2; [lia|]. rewrite Z.log2_lor by lia. apply Z.max_lub_lt; [|by vm_compute].
  destruct (Z.eq_dec (u64 (Z.shiftl max_seq 8)) 0) as [->|]; [by vm_compute|].
  apply Z.log2_lt_pow2; lia.
Qed.

Lemma target_tag_small max_seq :
  0 ≤ max_seq < 2 ^ 56 → target_tag max_seq = 255 + 256 * max_seq.
Proof.
  intros H. unfold target_tag, kMaxSeq. rewrite (proj2 (Z.leb_gt _ _)) by lia.
  unfold u64. rewrite Z.mod_small by (rewrite Z.shiftl_mul_pow2 by lia; lia).
  rewrite Z.lor_comm, lor_shiftl_add by lia. lia.
Qed.

Lemma ik_pair_seek k max_seq :
  0 ≤ max_seq → ik_pair (seek_target k max_seq) = (k, target_tag max_seq).
Proof.
  intros. unfold seek_target. rewrite ik_pair_app, u64_small; [done|].
  by apply target_tag_range.
Qed.

(** What the seek target of a read at [max_seq] separates: an encoded version
    sorts before it exactly when its user key is smaller, or it is a version
    of the same key that [max_seq] does not see. *)
Lemma less_seek_target k seq type key max_seq :
  0 ≤ seq < 2 ^ 56 → 0 ≤ type < 256 →
  0 ≤ max_seq → (max_seq < 2 ^ 56 ∨ kMaxSeq ≤ max_seq) →
  InternalKeyComparator (EncodeInternalKey k seq type) (seek_target key max_seq)
  = bytes_ltb k key || (bytes_eqb k key && (max_seq <? seq)).
Proof.
  intros Hs Ht Hm Hm'.
  rewrite InternalKeyComparator_pair, ik_pair_Encode, ik_pair_seek by done.
  unfold pair_less; simpl. do 2 f_equal. apply eq_true_iff_eq. rewrite !Z.ltb_lt.
  destruct Hm' as [Hm'|Hm'].
  - rewrite target_tag_small by lia. lia.
  - unfold target_tag. rewrite (proj2 (Z.leb_le _ _)) by done. unfold kMaxSeq in *. lia.
Qed.

(** ** Sorted runs of entries

    An entry is an internal key with its value; every sorted source of the
    engine (memtable, block, table, merge) is a list of them. *)

Definition entry_less (p q : bytes * bytes) : bool := InternalKeyComparator p.1 q.1.

Definition keys_sorted (es : list (bytes * bytes)) : Prop := sorted_by entry_less es.

(** Reference: the index of the first entry whose key is not below [target]. *)
Fixpoint first_ge (target : bytes) (es : list (bytes * bytes)) : nat :=
  match es with
  | [] => 0
  | (k, _) :: es => if InternalKeyComparator k target then S (first_ge target es) else 0
  end.

Lemma first_ge_le target es : (first_ge target es ≤ length es)%nat.
Proof. induction es as [|[k v] es IH]; simpl; [lia|]. case_match; lia. Qed.

Lemma first_ge_lt target es i p :
  (i < first_ge target es)%nat → es !! i = Some p → InternalKeyComparator p.1 target = true.
Proof.
  revert i. induction es as [|[k v] es IH]; intros i; simpl; [lia|].
  destruct (InternalKeyComparator k target) eqn:E; [|lia].
  destruct i as [|i]; simpl; [by intros _ [= <-]|]. intros. apply (IH i); [lia|done].
Qed.

Lemma first_ge_ge target es p :
  es !! first_ge target es = Some p → InternalKeyComparator p.1 target = false.
Proof.
  induction es as [|[k v] es IH]; simpl; [done|].
  destruct (InternalKeyComparator k target) eqn:E; simpl; [done|]. by intros [= <-].
Qed.

Lemma first_ge_skip target es j :
  (∀ i p, (i < j)%nat → es !! i = Some p → InternalKeyComparator p.1 target = true) →
  (j ≤ length es)%nat → (j ≤ first_ge target es)%nat.
Proof.
  revert j. induction es as [|[k v] es IH]; intros j Hlt Hl; simpl in *; [lia|].
  destruct j as [|j]; [lia|]. pose proof (Hlt 0%nat (k, v)) as H0. simpl in H0.
  rewrite H0 by (lia || done). apply le_n_S, IH; [|lia].
  intros i p Hi Hp. apply (Hlt (S i)); [lia|done].
Qed.

Lemma first_ge_filter target es :
  keys_sorted es →
  drop (first_ge target es) es = filter (λ p, InternalKeyComparator p.1 target = false) es.
Proof.
  induction es as [|[k v] es IH]; intros Hs; [done|]. destruct Hs as [Hf Hs]. cbn [first_ge].
  destruct (InternalKeyComparator k target) eqn:E.
  - rewrite filter_cons_False by (simpl; congruence). by apply IH.
  - rewrite filter_cons_True by done. rewrite drop_0. f_equal. symmetry. apply filter_all.
    eapply Forall_impl; [exact Hf|]. unfold entry_less. simpl. intros q Hq.
    destruct (InternalKeyComparator q.1 target) eqn:E2; [|done].
    pose proof (sw_trans _ _ _ Hq E2). congruence.
Qed.

(** A boolean test of [keys_sorted] on neighbours. *)
Fixpoint sorted_adjacent (es : list (bytes * bytes)) : bool :=
  match es with
  | p :: (q :: _) as es' => entry_less p q && sorted_adjacent es'
  | _ => true
  end.

Lemma keys_sorted_adjacent es : sorted_adjacent es = true → keys_sorted es.
Proof.
  induction es as [|p es IH]; intros H; [done|]. destruct es as [|q es]; [by split|].
  simpl in H. apply andb_true_iff in H as [Hpq H]. specialize (IH H). split; [|done].
  constructor; [done|]. destruct IH as [Hq _]. eapply Forall_impl; [exact Hq|]. simpl.
  intros r Hr. unfold entry_less in *. by eapply sw_trans.
Qed.
