(* ===== verification/Mvcc.v ===== *)
(** * Versions and visibility: the abstract specification of reads

    A key has versions, each written under a sequence number; a read at
    sequence [S] returns the newest version not newer than [S], a deletion
    hiding the older ones (docs/design notes of the engine; memtable.h,
    sstable.h and db.h state it for their [Get]).  [read] is that definition
    on an unordered collection of versions.  The memtable, the tables and the
    database are each proved to implement it. *)

From S2P Require Import Prelude Encoding InternalKey.

Record version := mkVersion { v_key : bytes; v_seq : Z; v_type : Z; v_value : bytes }.

(** [MemTable::Lookup], with the value that [kFound] returns. *)
Inductive Lookup := kFound (value : bytes) | kDeleted | kMissing.

#[global] Instance Lookup_eq_dec : EqDecision Lookup.
Proof. solve_decision. Defined.

#[global] Instance version_eq_dec : EqDecision version.
Proof. solve_decision. Defined.

(** [v] is a version of [key] that a read at [max_seq] may return. *)
Definition sees (key : bytes) (max_seq : Z) (v : version) : bool :=
  bytes_eqb (v_key v) key && (v_seq v <=? max_seq).

Fixpoint newest (key : bytes) (max_seq : Z) (vs : list version) : option version :=
  match vs with
  | [] => None
  | v :: vs =>
      if sees key max_seq v then
        match newest key max_seq vs with
        | Some w => if v_seq v <? v_seq w then Some w else Some v
        | None => Some v
        end
      else newest key max_seq vs
  end.

Definition lookup_of (v : option version) : Lookup :=
  match v with
  | None => kMissing
  | Some v => if v_type v =? kTypeValue then kFound (v_value v) else kDeleted
  end.

Definition read (vs : list version) (key : bytes) (max_seq : Z) : Lookup :=
  lookup_of (newest key max_seq vs).

(** ** Entries as versions *)

Definition version_of (p : bytes * bytes) : version :=
  mkVersion (ExtractUserKey p.1) (Z.shiftr (ExtractTag p.1) 8) (Z.land (ExtractTag p.1) 0xff) p.2.

Definition entry_of (v : version) : bytes * bytes :=
  (EncodeInternalKey (v_key v) (v_seq v) (v_type v), v_value v).

(** Sequence numbers use the 56 bits the tag leaves them, and the type is one
    of the two the engine writes. *)
Definition wf_version (v : version) : Prop :=
  0 ≤ v_seq v < 2 ^ 56 ∧ (v_type v = kTypeDeletion ∨ v_type v = kTypeValue).

Definition wf_entry (p : bytes * bytes) : Prop := ∃ v, wf_version v ∧ p = entry_of v.

(** No key has two versions with the same sequence number. *)
Definition unique_seqs (vs : list version) : Prop := NoDup ((λ v, (v_key v, v_seq v)) <$> vs).

Lemma wf_type v : wf_version v → 0 ≤ v_type v < 256.
Proof. intros [_ [-> | ->]]; unfold kTypeDeletion, kTypeValue; lia. Qed.

Lemma version_of_entry_of v : wf_version v → version_of (entry_of v) = v.
Proof.
  intros Hv. pose proof (wf_type v Hv) as Ht. destruct Hv as [Hs _]. unfold version_of, entry_of.
  cbn [fst snd]. unfold EncodeInternalKey. rewrite ExtractUserKey_app, ExtractTag_app.
  rewrite u64_small by (by apply pack_tag_range). rewrite pack_tag_seq, pack_tag_type by done.
  by destruct v.
Qed.

Lemma entry_of_version_of p : wf_entry p → entry_of (version_of p) = p ∧ wf_version (version_of p).
Proof. intros (v & Hv & ->). by rewrite version_of_entry_of. Qed.

(** ** What [newest] is *)

Lemma sees_spec key s v : sees key s v = true ↔ v_key v = key ∧ v_seq v ≤ s.
Proof. unfold sees. by rewrite andb_true_iff, bytes_eqb_eq, Z.leb_le. Qed.

Lemma newest_None key s vs : newest key s vs = None ↔ ∀ w, w ∈ vs → sees key s w = false.
Proof.
  induction vs as [|x vs IH]; simpl.
  { split; [|done]. intros _ w Hw. by apply not_elem_of_nil in Hw. }
  destruct (sees key s x) eqn:Ex.
  - split; [by case_match; [case_match|]|]. intros H.
    specialize (H x (list_elem_of_here _ _)). congruence.
  - rewrite IH. split; [|intros H w Hw; apply H; by apply list_elem_of_further].
    by intros H w [->|Hw]%elem_of_cons; [|apply H].
Qed.

Lemma newest_Some key s vs v :
  newest key s vs = Some v →
  v ∈ vs ∧ sees key s v = true ∧ ∀ w, w ∈ vs → sees key s w = true → v_seq w ≤ v_seq v.
Proof.
  revert v. induction vs as [|x vs IH]; intros v; simpl; [done|]. rewrite elem_of_cons.
  setoid_rewrite elem_of_cons. destruct (sees key s x) eqn:Ex.
  - destruct (newest key s vs) as [w|] eqn:En.
    + destruct (IH w eq_refl) as (H1 & H2 & H3).
      destruct (Z.ltb_spec (v_seq x) (v_seq w)); intros [= <-];
        (split_and!; [tauto|done|]; intros y [->|Hy] Hs; [lia|specialize (H3 y Hy Hs); lia]).
    + intros [= <-]. split_and!; [tauto|done|]. intros y [->|Hy] Hs; [lia|].
      rewrite newest_None in En. rewrite (En y Hy) in Hs. done.
  - intros E. destruct (IH v E) as (H1 & H2 & H3). split_and!; [tauto|done|].
    intros y [->|Hy] Hs; [congruence|auto].
Qed.

Lemma unique_seqs_eq vs v w :
  unique_seqs vs → v ∈ vs → w ∈ vs → v_key v = v_key w → v_seq v = v_seq w → v = w.
Proof.
  intros Hu [i Hi]%list_elem_of_lookup [j Hj]%list_elem_of_lookup Hk Hs.
  assert (i = j) as ->; [|congruence].
  apply (NoDup_lookup _ i j (v_key v, v_seq v) Hu); rewrite list_lookup_fmap; [by rewrite Hi|].
  rewrite Hj. simpl. congruence.
Qed.

#[global] Instance unique_seqs_proper : Proper ((≡ₚ) ==> iff) unique_seqs.
Proof. intros vs ws H. unfold unique_seqs. by rewrite H. Qed.

(** The newest visible version, characterised without an order. *)
Lemma newest_iff key s vs v :
  unique_seqs vs →
  newest key s vs = Some v ↔
  v ∈ vs ∧ sees key s v = true ∧ ∀ w, w ∈ vs → sees key s w = true → v_seq w ≤ v_seq v.
Proof.
  intros Hu. split; [apply newest_Some|]. intros (Hin & Hs & Hmax).
  destruct (newest key s vs) as [w|] eqn:E.
  - apply newest_Some in E as (Hw & Hsw & Hmw). f_equal.
    specialize (Hmax w Hw Hsw). specialize (Hmw v Hin Hs).
    apply (unique_seqs_eq vs); try done; [|lia]. apply sees_spec in Hs as [-> _].
    by apply sees_spec in Hsw as [-> _].
  - rewrite newest_None in E. rewrite E in Hs; done.
Qed.

Lemma read_ext vs ws key s :
  unique_seqs vs → unique_seqs ws → (∀ v, sees key s v = true → v ∈ vs ↔ v ∈ ws) →
  read vs key s = read ws key s.
Proof.
  intros Hv Hw Heq. unfold read. f_equal. destruct (newest key s vs) as [v|] eqn:E; symmetry.
  - apply newest_Some in E as (Hin & Hs & Hmax). apply newest_iff; [done|].
    split_and!; [by apply Heq|done|]. intros w Hw' Hsw. apply Hmax; [by apply Heq|done].
  - rewrite newest_None in E |- *. intros w Hin. destruct (sees key s w) eqn:Es; [|done].
    rewrite <- Es. apply E. by apply Heq.
Qed.

Lemma read_perm vs ws key s : unique_seqs vs → vs ≡ₚ ws → read vs key s = read ws key s.
Proof.
  intros Hu Hp. apply read_ext; [done|by rewrite <- Hp|]. intros v _. by rewrite Hp.
Qed.

(** A collection whose first part is newer for every key it holds: the first
    part answers if it can. *)
Lemma newest_app key s vs ws :
  (∀ v w, v ∈ vs → w ∈ ws → v_key v = v_key w → v_seq w ≤ v_seq v) →
  newest key s (vs ++ ws)
  = match newest key s vs with Some v => Some v | None => newest key s ws end.
Proof.
  induction vs as [|x vs IH]; intros Hnew; [done|]. simpl.
  rewrite IH by (intros v w Hv Hw; apply Hnew; [by apply list_elem_of_further|done]).
  destruct (sees key s x) eqn:Ex; [|done].
  destruct (newest key s vs) as [v|] eqn:Ev; [by case_match|].
  destruct (newest key s ws) as [w|] eqn:Ew; [|done].
  apply newest_Some in Ew as (Hw & Hsw & _).
  rewrite (proj2 (Z.ltb_ge _ _)); [done|]. apply Hnew; [apply list_elem_of_here|done|].
  apply sees_spec in Ex as [-> _]. by apply sees_spec in Hsw as [-> _].
Qed.

Lemma read_app key s vs ws :
  (∀ v w, v ∈ vs → w ∈ ws → v_key v = v_key w → v_seq w ≤ v_seq v) →
  read (vs ++ ws) key s
  = match read vs key s with kMissing => read ws key s | r => r end.
Proof.
  intros H. unfold read. rewrite newest_app by done.
  destruct (newest key s vs) as [v|]; simpl; [by case_match|done].
Qed.

(** ** A seek in a sorted run answers a read *)

(** The sequence numbers a read may use: those a version can have, or the
    "latest" constant. *)
Definition read_seq (max_seq : Z) : Prop :=
  0 ≤ max_seq ∧ (max_seq < 2 ^ 56 ∨ kMaxSeq ≤ max_seq).

Lemma entry_less_seek p key s :
  wf_entry p → read_seq s →
  InternalKeyComparator p.1 (seek_target key s)
  = bytes_ltb (v_key (version_of p)) key
    || (bytes_eqb (v_key (version_of p)) key && (s <? v_seq (version_of p))).
Proof.
  intros (v & Hv & ->) [Hs Hs']. rewrite version_of_entry_of by done.
  apply less_seek_target; [apply Hv|by apply wf_type|done|done].
Qed.

Lemma entry_less_versions p q :
  wf_entry p → wf_entry q → entry_less p q = true →
  bytes_ltb (v_key (version_of p)) (v_key (version_of q)) = true ∨
  (v_key (version_of p) = v_key (version_of q) ∧ v_seq (version_of q) ≤ v_seq (version_of p)).
Proof.
  intros (v & Hv & ->) (w & Hw & ->). rewrite !version_of_entry_of by done.
  unfold entry_less, entry_of. cbn [fst].
  pose proof (wf_type v Hv). pose proof (wf_type w Hw). destruct Hv as [Hv _], Hw as [Hw _].
  rewrite InternalKeyComparator_pair, !ik_pair_Encode by done. unfold pair_less; cbn [fst snd].
  rewrite orb_true_iff, andb_true_iff, bytes_eqb_eq, Z.ltb_lt. intros [?|[-> ?]]; [by left|right].
  split; [done|lia].
Qed.

Lemma entry_not_less_versions p q :
  wf_entry p → wf_entry q → entry_less q p = false →
  bytes_ltb (v_key (version_of p)) (v_key (version_of q)) = true ∨
  (v_key (version_of p) = v_key (version_of q) ∧ v_seq (version_of q) ≤ v_seq (version_of p)).
Proof.
  intros (v & Hv & ->) (w & Hw & ->). rewrite !version_of_entry_of by done.
  unfold entry_less, entry_of. cbn [fst].
  pose proof (wf_type v Hv). pose proof (wf_type w Hw). destruct Hv as [Hv _], Hw as [Hw _].
  rewrite InternalKeyComparator_pair, !ik_pair_Encode by done. unfold pair_less; cbn [fst snd].
  rewrite orb_false_iff, andb_false_iff, Z.ltb_ge. intros [H1 H2].
  destruct (bytes_ltb (v_key v) (v_key w)) eqn:E; [by left|right].
  assert (v_key v = v_key w) as Ek by (by apply bytes_ltb_total).
  split; [done|]. destruct H2 as [H2|H2]; [|lia]. by rewrite Ek, (proj2 (bytes_eqb_eq _ _) eq_refl) in H2.
Qed.

(** The answer a seek to [seek_target key max_seq] leads to. *)
Definition seek_answer (key : bytes) (p : option (bytes * bytes)) : Lookup :=
  match p with
  | None => kMissing
  | Some p => if bytes_eqb (ExtractUserKey p.1) key then lookup_of (Some (version_of p)) else kMissing
  end.

Lemma read_seek es key s :
  keys_sorted es → Forall wf_entry es → read_seq s →
  read (version_of <$> es) key s = seek_answer key (es !! first_ge (seek_target key s) es).
Proof.
  intros Hs Hwf Hrs. induction es as [|p es IH]; [done|].
  destruct Hs as [Hp Hs]. inversion Hwf as [|? ? Hwp Hwe]; subst. specialize (IH Hs Hwe).
  rewrite fmap_cons. unfold read in *. cbn [newest].
  pose proof (entry_less_seek p key s Hwp Hrs) as Hless.
  destruct p as [ik val]. cbn [first_ge]. cbn [fst] in Hless. rewrite Hless.
  set (v := version_of (ik, val)) in *.
  destruct (bytes_ltb (v_key v) key) eqn:Elt; cbn [orb].
  { assert (sees key s v = false) as ->.
    { apply not_true_is_false. intros [E _]%sees_spec. rewrite E, sw_irrefl in Elt. done. }
    exact IH. }
  destruct (bytes_eqb (v_key v) key) eqn:Eeq; cbn [andb].
  - destruct (Z.ltb_spec s (v_seq v)) as [Hgt|Hle].
    { assert (sees key s v = false) as ->; [|exact IH].
      apply not_true_is_false. intros [_ ?]%sees_spec. lia. }
    assert (sees key s v = true) as ->.
    { apply sees_spec. split; [by apply bytes_eqb_eq|lia]. }
    simpl lookup. unfold seek_answer. cbn [fst]. change (ExtractUserKey ik) with (v_key v). rewrite Eeq.
    destruct (newest key s (version_of <$> es)) as [w|] eqn:Ew; [|done].
    apply newest_Some in Ew as (Hw & Hsw & _). apply list_elem_of_fmap in Hw as (q & -> & Hq).
    rewrite Forall_forall in Hp, Hwe.
    destruct (entry_less_versions _ q Hwp (Hwe q Hq) (Hp q Hq)) as [Hl|[_ Hl]].
    + apply sees_spec in Hsw as [Hk _]. apply bytes_eqb_eq in Eeq. fold v in Hl.
      rewrite Hk, Eeq, sw_irrefl in Hl. done.
    + by rewrite (proj2 (Z.ltb_ge _ _)) by exact Hl.
  - simpl lookup. unfold seek_answer. cbn [fst]. change (ExtractUserKey ik) with (v_key v). rewrite Eeq.
    assert (sees key s v = false) as ->.
    { unfold sees. by rewrite Eeq. }
    rewrite (proj2 (newest_None key s (version_of <$> es))); [done|].
    intros w (q & -> & Hq)%list_elem_of_fmap. apply not_true_is_false. intros [Hk _]%sees_spec.
    rewrite Forall_forall in Hp, Hwe.
    destruct (entry_less_versions _ q Hwp (Hwe q Hq) (Hp q Hq)) as [Hl|[Hl _]]; fold v in Hl.
    + rewrite Hk in Hl. congruence.
    + rewrite Hl, Hk in Eeq. unfold bytes_eqb in Eeq. by rewrite bool_decide_eq_true_2 in Eeq.
Qed.
