(* ===== verification/Layers.v ===== *)
(** * Layers of versions

    The database keeps the versions of a key in layers (the memtables, the
    files of level 0, the deeper levels) and a lookup stops at the first layer
    that has the key.  This file has the abstract side of that design: when a
    layered read is a read of the union ([layered_read]), what a compaction may
    drop ([retains_reads]), and how a write extends both ([same_reads_write]).
    A version may be in two layers at once: a flushed memtable and its table
    are both visible until the memtable is released. *)

From S2P Require Import Prelude InternalKey Mvcc.

(** What the user of the database sees: a deleted key is a missing key. *)
Definition answer (r : Lookup) : option bytes :=
  match r with kFound value => Some value | _ => None end.

(** A key and a sequence number determine the version. *)
Definition coherent (vs : list version) : Prop :=
  ∀ v w, v ∈ vs → w ∈ vs → v_key v = v_key w → v_seq v = v_seq w → v = w.

(** [us] decides every key it has a version of. *)
Definition newer (us ws : list version) : Prop :=
  ∀ u w, u ∈ us → w ∈ ws → v_key u = v_key w → v_seq w ≤ v_seq u ∨ w ∈ us.

Fixpoint stacked (ls : list (list version)) : Prop :=
  match ls with
  | [] => True
  | l :: ls => newer l (concat ls) ∧ stacked ls
  end.

(** The first layer that has the key answers. *)
Fixpoint layered (ls : list (list version)) (key : bytes) (s : Z) : Lookup :=
  match ls with
  | [] => kMissing
  | l :: ls => match read l key s with kMissing => layered ls key s | r => r end
  end.

(** The two collections answer alike from sequence number [lo] on. *)
Definition same_reads (lo : Z) (vs ws : list version) : Prop :=
  ∀ key s, lo ≤ s → answer (read vs key s) = answer (read ws key s).

(** What a compaction with snapshot floor [F] keeps of [ins]. *)
Record retains (F : Z) (bottom : bool) (ins outs : list version) : Prop := {
  rt_sub : ∀ v, v ∈ outs → v ∈ ins;
  rt_above : ∀ v, v ∈ ins → F < v_seq v → v ∈ outs;
  rt_floor : ∀ v, v ∈ ins → v_seq v ≤ F →
    (∀ w, w ∈ ins → v_key w = v_key v → v_seq w ≤ F → v_seq w ≤ v_seq v) →
    v ∈ outs ∨ (bottom = true ∧ v_type v ≠ kTypeValue);
  rt_only : ∀ v, v ∈ outs → v_seq v ≤ F →
    ∀ w, w ∈ ins → v_key w = v_key v → v_seq w ≤ F → v_seq w ≤ v_seq v
}.

(** ** Coherence *)

Lemma coherent_sub vs ws : coherent ws → (∀ v, v ∈ vs → v ∈ ws) → coherent vs.
Proof. intros H Hs v w Hv Hw. apply H; auto. Qed.

Lemma unique_coherent vs : unique_seqs vs → coherent vs.
Proof. intros H v w. by apply unique_seqs_eq. Qed.

Lemma newest_coherent key s vs v :
  coherent vs →
  newest key s vs = Some v ↔
  v ∈ vs ∧ sees key s v = true ∧ ∀ w, w ∈ vs → sees key s w = true → v_seq w ≤ v_seq v.
Proof.
  intros Hu. split; [apply newest_Some|]. intros (Hin & Hs & Hmax).
  destruct (newest key s vs) as [w|] eqn:E.
  - apply newest_Some in E as (Hw & Hsw & Hmw). f_equal.
    specialize (Hmax w Hw Hsw). specialize (Hmw v Hin Hs).
    apply Hu; try done; [|lia]. apply sees_spec in Hs as [-> _]. by apply sees_spec in Hsw as [-> _].
  - rewrite newest_None in E. rewrite E in Hs; done.
Qed.

Lemma newest_ext vs ws key s :
  coherent ws → (∀ v, sees key s v = true → v ∈ vs ↔ v ∈ ws) → newest key s vs = newest key s ws.
Proof.
  intros Hw Heq. destruct (newest key s vs) as [v|] eqn:E; symmetry.
  - apply newest_Some in E as (Hin & Hs & Hmax). apply newest_coherent; [done|].
    split_and!; [by apply Heq|done|]. intros w Hw' Hsw. apply Hmax; [by apply Heq|done].
  - rewrite newest_None in E |- *. intros w Hin. destruct (sees key s w) eqn:Es; [|done].
    rewrite <- Es. apply E. by apply Heq.
Qed.

Lemma read_ext_coherent vs ws key s :
  coherent ws → (∀ v, sees key s v = true → v ∈ vs ↔ v ∈ ws) → read vs key s = read ws key s.
Proof. intros Hw Heq. unfold read. by rewrite (newest_ext vs ws). Qed.

Lemma same_reads_ext lo vs ws : coherent ws → (∀ v, v ∈ vs ↔ v ∈ ws) → same_reads lo vs ws.
Proof. intros Hw Heq key s _. rewrite (read_ext_coherent vs ws); auto. Qed.

Lemma same_reads_trans lo us vs ws : same_reads lo us vs → same_reads lo vs ws → same_reads lo us ws.
Proof. intros H1 H2 key s Hs. rewrite H1, H2 by done. done. Qed.

Lemma same_reads_sym lo vs ws : same_reads lo vs ws → same_reads lo ws vs.
Proof. intros H key s Hs. by rewrite H. Qed.

Lemma same_reads_weaken lo lo' vs ws : lo ≤ lo' → same_reads lo vs ws → same_reads lo' vs ws.
Proof. intros Hl H key s Hs. apply H. lia. Qed.

(** ** Layered reads *)

Lemma read_missing vs key s : read vs key s = kMissing ↔ newest key s vs = None.
Proof. unfold read. destruct (newest key s vs) as [v|]; simpl; [by case_match|done]. Qed.

Lemma read_app_newer key s vs ws :
  coherent (vs ++ ws) → newer vs ws →
  read (vs ++ ws) key s = match read vs key s with kMissing => read ws key s | r => r end.
Proof.
  intros Hc Hn. destruct (newest key s vs) as [v|] eqn:E.
  - assert (newest key s (vs ++ ws) = Some v) as E2.
    { apply newest_Some in E as (Hin & Hs & Hmax). apply newest_coherent; [done|].
      split_and!; [apply elem_of_app; by left|done|]. intros w [Hw|Hw]%elem_of_app Hsw; [auto|].
      destruct (Hn v w Hin Hw) as [?|Hw2]; [|done|auto].
      apply sees_spec in Hs as [-> _]. by apply sees_spec in Hsw as [-> _]. }
    unfold read. rewrite E, E2. simpl. by case_match.
  - rewrite (proj2 (read_missing vs key s) E).
    apply read_ext_coherent; [eapply coherent_sub; [exact Hc|]; intros v Hv; apply elem_of_app; by right|].
    intros v Hv. rewrite elem_of_app. split; [|by right]. intros [Hin|]; [|done].
    rewrite newest_None in E. by rewrite E in Hv.
Qed.

Lemma layered_read ls key s : coherent (concat ls) → stacked ls → layered ls key s = read (concat ls) key s.
Proof.
  induction ls as [|l ls IH]; [done|]. intros Hc [Hn Hs]. cbn [layered concat]. rewrite read_app_newer by done.
  rewrite IH; [done| |done]. eapply coherent_sub; [exact Hc|]. intros v Hv. apply elem_of_app. by right.
Qed.

Lemma newer_sub us us' ws ws' :
  newer us ws → (∀ v, v ∈ us ↔ v ∈ us') → (∀ v, v ∈ ws' → v ∈ ws) → newer us' ws'.
Proof.
  intros Hn Hu Hw u w Hin Hw' Hk. destruct (Hn u w) as [|?]; [by apply Hu|by apply Hw|done|by left|right; by apply Hu].
Qed.

(** ** Writing *)

Lemma newest_cons_top key s v vs :
  (∀ w, w ∈ vs → v_seq w < v_seq v) →
  newest key s (v :: vs) = if sees key s v then Some v else newest key s vs.
Proof.
  intros Hlt. cbn [newest]. destruct (sees key s v); [|done].
  destruct (newest key s vs) as [w|] eqn:E; [|done]. apply newest_Some in E as (Hw & _ & _).
  specialize (Hlt w Hw). by rewrite (proj2 (Z.ltb_ge _ _)) by lia.
Qed.

(** A version newer than everything is added on both sides. *)
Lemma same_reads_write lo v vs ws :
  (∀ w, w ∈ vs → v_seq w < v_seq v) → (∀ w, w ∈ ws → v_seq w < v_seq v) →
  same_reads lo vs ws → same_reads lo (v :: vs) (v :: ws).
Proof.
  intros Hv Hw Hsame key s Hs. unfold read. rewrite !newest_cons_top by done.
  destruct (sees key s v); [done|]. by apply Hsame.
Qed.

(** ** Compaction *)

Lemma retains_perm F bottom ins ins' outs : ins ≡ₚ ins' → retains F bottom ins outs → retains F bottom ins' outs.
Proof.
  intros Hp [H1 H2 H3 H4]. split; setoid_rewrite <- Hp; done.
Qed.

Section compaction.
Context (F : Z) (bottom : bool) (rest ins outs : list version) (lo : Z).
Hypothesis Hco : coherent (rest ++ ins).
Hypothesis Hrt : retains F bottom ins outs.
(** Readers are at or above the floor, or above everything merged. *)
Hypothesis Hlo : F ≤ lo ∨ ∀ v, v ∈ ins → v_seq v ≤ lo.
(** Nothing below a bottom level. *)
Hypothesis Hbot : bottom = true → newer rest ins.

Lemma outs_coherent : coherent (rest ++ outs).
Proof using Hco Hrt.
  apply (coherent_sub _ _ Hco). intros v. rewrite !elem_of_app. intros [|Hv]; [by left|right].
  by apply (rt_sub _ _ _ _ Hrt).
Qed.

Lemma newest_in_outs key s n :
  lo ≤ s → newest key s (rest ++ ins) = Some n → n ∈ rest ++ outs →
  newest key s (rest ++ outs) = Some n.
Proof using Hco Hrt.
  intros Hs Hn Hin. apply newest_Some in Hn as (_ & Hsee & Hmax).
  apply newest_coherent; [apply outs_coherent|]. split_and!; [done..|].
  intros w Hw. apply Hmax. rewrite elem_of_app in Hw |- *. destruct Hw as [|Hw]; [by left|right].
  by apply (rt_sub _ _ _ _ Hrt).
Qed.

(** The newest visible version of the inputs is retained, unless it is a
    tombstone at the bottom. *)
Lemma newest_retained key s n :
  lo ≤ s → newest key s (rest ++ ins) = Some n → n ∈ ins →
  n ∈ outs ∨ (bottom = true ∧ v_type n ≠ kTypeValue ∧ v_seq n ≤ F).
Proof using Hrt Hlo.
  intros Hs Hn Hin. apply newest_Some in Hn as (_ & [Hk Hseq]%sees_spec & Hmax).
  destruct (Z.lt_ge_cases F (v_seq n)) as [|Hle]; [left; by apply (rt_above _ _ _ _ Hrt)|].
  destruct (rt_floor _ _ _ _ Hrt n Hin Hle) as [?|[? ?]]; [|by left|by right].
  intros w Hw Hkw HwF. apply Hmax; [apply elem_of_app; by right|]. apply sees_spec.
  split; [congruence|]. destruct Hlo as [?|Hall]; [lia|]. specialize (Hall w Hw). lia.
Qed.

Lemma dropped_tombstone key s n :
  lo ≤ s → newest key s (rest ++ ins) = Some n → n ∈ ins → n ∉ rest → bottom = true →
  n ∉ outs → v_seq n ≤ F → newest key s (rest ++ outs) = None.
Proof using Hco Hrt Hbot.
  intros Hs Hn Hin Hnr Hb Hno Hle. apply newest_Some in Hn as (_ & Hsee & Hmax).
  pose proof (proj1 (sees_spec _ _ _) Hsee) as [Hk Hseq].
  apply newest_None. intros w Hw. apply not_true_is_false. intros Hsw.
  pose proof (proj1 (sees_spec _ _ _) Hsw) as [Hkw Hsqw].
  apply elem_of_app in Hw as [Hw|Hw].
  - specialize (Hmax w ltac:(apply elem_of_app; by left) Hsw).
    destruct (Hbot Hb w n Hw Hin) as [Hge|]; [congruence| |done].
    assert (w = n) as ->; [|done].
    apply Hco; [apply elem_of_app; by left|apply elem_of_app; by right|congruence|lia].
  - pose proof (rt_sub _ _ _ _ Hrt w Hw) as Hwi.
    specialize (Hmax w ltac:(apply elem_of_app; by right) Hsw).
    pose proof (rt_only _ _ _ _ Hrt w Hw ltac:(lia) n Hin ltac:(congruence) Hle) as Hge.
    apply Hno. assert (w = n) as <-; [|done].
    apply Hco; [apply elem_of_app; by right|apply elem_of_app; by right|congruence|lia].
Qed.

(** A compaction that retains what it must changes no read. *)
Lemma retains_reads : same_reads lo (rest ++ ins) (rest ++ outs).
Proof using All.
  intros key s Hs. destruct (newest key s (rest ++ ins)) as [n|] eqn:E.
  - destruct (decide (n ∈ rest ++ outs)) as [Hin|Hnin].
    { unfold read. by rewrite E, (newest_in_outs key s n Hs E Hin). }
    assert ((n ∉ rest) ∧ n ∉ outs) as [Hnr Hno] by (rewrite elem_of_app in Hnin; tauto).
    pose proof (newest_Some _ _ _ _ E) as (Hin & _ & _). apply elem_of_app in Hin as [|Hin]; [done|].
    destruct (newest_retained key s n Hs E Hin) as [|(Hb & Ht & Hle)]; [done|].
    unfold read. rewrite E, (dropped_tombstone key s n) by done. simpl.
    by rewrite (proj2 (Z.eqb_neq _ _) Ht).
  - unfold read. rewrite E. assert (newest key s (rest ++ outs) = None) as ->; [|done].
    rewrite newest_None in E |- *. intros w Hw. apply E. rewrite elem_of_app in Hw |- *.
    destruct Hw as [|Hw]; [by left|right]. by apply (rt_sub _ _ _ _ Hrt).
Qed.

End compaction.

(** ** Moving versions down *)

Lemma stacked_app ls ks :
  stacked (ls ++ ks) ↔ stacked ls ∧ stacked ks ∧ Forall (λ l, newer l (concat ks)) ls.
Proof.
  induction ls as [|l ls IH]; cbn [app stacked].
  - split; [intros H; split_and!; [done|done|constructor]|by intros (_ & ? & _)].
  - rewrite IH, concat_app, Forall_cons. split.
    + intros (Hn & H1 & H2 & H3). split_and!; try done.
      * eapply newer_sub; [exact Hn|done|]. intros v. rewrite elem_of_app. by left.
      * eapply newer_sub; [exact Hn|done|]. intros v. rewrite elem_of_app. by right.
    + intros ([Hn1 H1] & H2 & Hn2 & H3). split_and!; try done. intros u w Hu [Hw|Hw]%elem_of_app Hk; eauto.
Qed.

(** Layers with the same members. *)
Definition same_set (vs ws : list version) : Prop := ∀ v, v ∈ vs ↔ v ∈ ws.

Lemma same_set_concat ls ks : Forall2 same_set ls ks → same_set (concat ls) (concat ks).
Proof. induction 1 as [|l k ls ks H _ IH]; intros v; [done|]. cbn [concat]. by rewrite !elem_of_app, (H v), (IH v). Qed.

Lemma stacked_same ls ks : Forall2 same_set ls ks → stacked ls → stacked ks.
Proof.
  induction 1 as [|l k ls ks H Hall IH]; [done|]. intros [Hn Hs]. split; [|by apply IH].
  eapply newer_sub; [exact Hn|exact H|]. intros v. by apply (same_set_concat _ _ Hall).
Qed.

Lemma stacked_drop_empty pre es post :
  Forall (λ e, e = []) es → stacked (pre ++ es ++ post) → stacked (pre ++ post).
Proof.
  intros He. rewrite !stacked_app. intros (H1 & (_ & H2 & _) & H3). split_and!; try done.
  assert (concat es = []) as E by (clear -He; induction He as [|? ? -> _ IH]; [done|exact IH]).
  by rewrite concat_app, E in H3.
Qed.

Definition keys_disjoint (vs ws : list version) : Prop := ∀ v w, v ∈ vs → w ∈ ws → v_key v ≠ v_key w.

Lemma mids_elem (mids : list (list version * list version)) v : v ∈ concat (fst <$> mids) ↔ ∃ p, p ∈ mids ∧ v ∈ p.1.
Proof.
  rewrite elem_of_concat. setoid_rewrite list_elem_of_fmap. naive_solver.
Qed.

Lemma rests_elem (mids : list (list version * list version)) v : v ∈ concat (snd <$> mids) ↔ ∃ p, p ∈ mids ∧ v ∈ p.2.
Proof.
  rewrite elem_of_concat. setoid_rewrite list_elem_of_fmap. naive_solver.
Qed.

Lemma layers_elem (mids : list (list version * list version)) v : v ∈ concat ((λ p, p.1 ++ p.2) <$> mids) ↔ ∃ p, p ∈ mids ∧ (v ∈ p.1 ∨ v ∈ p.2).
Proof.
  rewrite elem_of_concat. setoid_rewrite list_elem_of_fmap. setoid_rewrite <- elem_of_app. naive_solver.
Qed.

(** A part of some adjacent layers and of the layer below them is merged, and
    what is retained of it goes to the layer below.  A source layer is a pair:
    what is merged of it, and the rest. *)
Section move.
Context (F : Z) (bottom : bool).
Context (pre : list (list version)) (mids : list (list version * list version)).
Context (tb tr : list version) (post : list (list version)) (outs : list version).

Let ins : list version := concat (fst <$> mids) ++ tb.
Let old : list (list version) := pre ++ ((λ p, p.1 ++ p.2) <$> mids) ++ (tb ++ tr) :: post.
Let new : list (list version) := pre ++ (snd <$> mids) ++ (tr ++ outs) :: post.
Let rest : list version := concat pre ++ concat (snd <$> mids) ++ tr ++ concat post.

Hypothesis Hst : stacked old.
Hypothesis Hco : coherent (concat old).
Hypothesis Hrt : retains F bottom ins outs.
Hypothesis Hbot : bottom = true → post = [].
Hypothesis Hmid : ∀ p, p ∈ mids → keys_disjoint p.2 (concat (fst <$> mids)).
Hypothesis Htr : keys_disjoint tr ins.

(** Among the merged versions, what is kept decides. *)
Lemma outs_newer : newer outs ins.
Proof using Hrt.
  intros u w Hu Hw Hk. destruct (Z.le_gt_cases (v_seq w) (v_seq u)) as [?|Hgt]; [by left|right].
  destruct (Z.lt_ge_cases F (v_seq w)) as [HF|HF]; [by apply (rt_above _ _ _ _ Hrt)|].
  pose proof (rt_only _ _ _ _ Hrt u Hu ltac:(lia) w Hw ltac:(congruence) HF). lia.
Qed.

Lemma ins_elem v : v ∈ ins ↔ (∃ p, p ∈ mids ∧ v ∈ p.1) ∨ v ∈ tb.
Proof using. unfold ins. by rewrite elem_of_app, mids_elem. Qed.

Lemma old_elem v : v ∈ concat old ↔ v ∈ rest ++ ins.
Proof using.
  unfold old, rest. rewrite !concat_app. cbn [concat]. rewrite !elem_of_app, layers_elem, rests_elem, ins_elem. naive_solver.
Qed.

Lemma new_elem v : v ∈ concat new ↔ v ∈ rest ++ outs.
Proof using.
  unfold new, rest. rewrite !concat_app. cbn [concat]. rewrite !elem_of_app. tauto.
Qed.

Lemma outs_ins v : v ∈ outs → v ∈ ins.
Proof using Hrt. apply (rt_sub _ _ _ _ Hrt). Qed.

(** A layer of the sources is newer than everything below the sources. *)
Lemma mid_newer p : p ∈ mids → newer (p.1 ++ p.2) (concat ((tb ++ tr) :: post)).
Proof using Hst.
  intros Hp. unfold old in Hst. apply stacked_app in Hst as (_ & Hm & _). apply stacked_app in Hm as (_ & _ & Hf).
  rewrite Forall_forall in Hf. apply (Hf (p.1 ++ p.2)). apply list_elem_of_fmap. by exists p.
Qed.

(** What remains of a source layer, against everything below it now. *)
Lemma mid_rest_newer p :
  p ∈ mids → newer p.2 (concat ((tr ++ outs) :: post)).
Proof using Hst Hrt Hmid.
  intros Hp u w Hu Hw Hk.
  assert (w ∈ concat (fst <$> mids) ∨ w ∈ concat ((tb ++ tr) :: post)) as [Hc|Hb].
  { cbn [concat] in *. rewrite !elem_of_app in *. destruct Hw as [[|Ho]|]; [tauto| |tauto].
    apply outs_ins in Ho. unfold ins in Ho. rewrite elem_of_app in Ho. tauto. }
  { by destruct (Hmid p Hp u w Hu Hc). }
  destruct (mid_newer p Hp u w) as [|Hin]; [apply elem_of_app; by right|done|done|by left|].
  apply elem_of_app in Hin as [Hin|]; [|by right].
  destruct (Hmid p Hp u w Hu); [|done]. apply mids_elem. by exists p.
Qed.

Lemma target_newer : newer (tr ++ outs) (concat post).
Proof using Hst Hrt Hmid Htr.
  assert (newer (tb ++ tr) (concat post)) as Ht.
  { unfold old in Hst. apply stacked_app in Hst as (_ & Hm & _). apply stacked_app in Hm as (_ & Hm & _). apply Hm. }
  intros u w [Hu|Hu]%elem_of_app Hw Hk.
  - destruct (Ht u w) as [|Hin]; [apply elem_of_app; by right|done|done|by left|].
    apply elem_of_app in Hin as [Hin|]; [|right; apply elem_of_app; by left].
    destruct (Htr u w Hu); [|done]. apply ins_elem. by right.
  - pose proof (outs_ins u Hu) as Hui. assert (v_seq w ≤ v_seq u ∨ w ∈ ins) as [|Hwi]; [|by left|].
    + apply ins_elem in Hui as [(p & Hp & Hup)|Hub].
      * destruct (mid_newer p Hp u w) as [|Hin]; [apply elem_of_app; by left|cbn; apply elem_of_app; by right|done|by left|].
        apply elem_of_app in Hin as [Hin|Hin]; [right; apply ins_elem; left; by exists p|].
        destruct (Hmid p Hp w u Hin); [|done]. apply mids_elem. by exists p.
      * destruct (Ht u w) as [|Hin]; [apply elem_of_app; by left|done|done|by left|].
        apply elem_of_app in Hin as [Hin|Hin]; [right; apply ins_elem; by right|].
        destruct (Htr w u Hin); [|done]. apply ins_elem. by right.
    + destruct (outs_newer u w Hu Hwi Hk); [by left|right; apply elem_of_app; by right].
Qed.

Lemma mids_stacked : stacked (snd <$> mids).
Proof using Hst Hmid.
  assert (stacked ((λ p, p.1 ++ p.2) <$> mids)) as Hs.
  { unfold old in Hst. apply stacked_app in Hst as (_ & Hm & _). by apply stacked_app in Hm as (Hm & _). }
  assert (∀ l, (∀ p, p ∈ l → p ∈ mids) → stacked ((λ p, p.1 ++ p.2) <$> l) → stacked (snd <$> l)) as Hgen; [|by apply Hgen].
  clear Hs. induction l as [|p l IH]; intros Hl; [done|]. rewrite !fmap_cons. intros [Hn Hs].
  split; [|apply IH; [|done]; intros q Hq; apply Hl; by apply list_elem_of_further].
  pose proof (Hl p (list_elem_of_here _ _)) as Hp. intros u w Hu Hw Hk.
  destruct (Hn u w) as [|Hin]; [apply elem_of_app; by right| |done|by left|].
  - rewrite elem_of_concat in Hw |- *. destruct Hw as (? & (q & -> & Hq)%list_elem_of_fmap & Hw).
    exists (q.1 ++ q.2). split; [apply list_elem_of_fmap; by exists q|apply elem_of_app; by right].
  - apply elem_of_app in Hin as [Hin|]; [|by right].
    destruct (Hmid p Hp u w Hu); [|done]. apply mids_elem. by exists p.
Qed.

Lemma move_stacked : stacked new.
Proof using Hst Hrt Hmid Htr.
  pose proof Hst as Hs. unfold old in Hs. apply stacked_app in Hs as (H1 & Hs2 & H3).
  apply stacked_app in Hs2 as (H4 & (_ & H5) & H6).
  apply stacked_app. split_and!; [done| |].
  - apply stacked_app. split_and!; [apply mids_stacked|split; [apply target_newer|done]|].
    apply Forall_forall. intros l (p & -> & Hp)%list_elem_of_fmap. by apply mid_rest_newer.
  - eapply Forall_impl; [exact H3|]. intros l Hn. eapply newer_sub; [exact Hn|done|].
    intros v. rewrite !concat_app. cbn [concat]. rewrite !elem_of_app, layers_elem, rests_elem.
    intros [(p & Hp & Hv)|[[Hv|Hv]|Hv]]; [left; by exists p; auto|tauto| |tauto].
    apply outs_ins, ins_elem in Hv as [(p & Hp & Hv)|Hv]; [left; by exists p; auto|tauto].
Qed.

Lemma rest_newer : bottom = true → newer rest ins.
Proof using Hst Hmid Htr Hbot.
  intros Hb u w Hu Hw Hk. specialize (Hbot Hb).
  unfold rest in Hu. rewrite !elem_of_app, Hbot in Hu. cbn [concat] in Hu. destruct Hu as [Hu|[Hu|[Hu|Hu]]].
  - apply elem_of_concat in Hu as (l & Hl & Hu). pose proof Hst as Hs. unfold old in Hs. apply stacked_app in Hs as (_ & _ & Hs).
    rewrite Forall_forall in Hs. destruct (Hs l Hl u w Hu) as [|Hin]; [|done|by left|].
    + rewrite concat_app. cbn [concat]. rewrite !elem_of_app, layers_elem. apply ins_elem in Hw as [(p & Hp & Hw)|Hw]; [|tauto].
      left. exists p. tauto.
    + right. unfold rest. apply elem_of_app. left. apply elem_of_concat. by exists l.
  - pose proof Hu as Hu'. apply rests_elem in Hu as (p & Hp & Hu). apply elem_of_app in Hw as [Hw|Hw].
    { by destruct (Hmid p Hp u w Hu Hw). }
    destruct (mid_newer p Hp u w) as [|Hin]; [apply elem_of_app; by right| |done|by left|].
    + cbn [concat]. rewrite !elem_of_app. tauto.
    + apply elem_of_app in Hin as [Hin|Hin].
      * destruct (Hmid p Hp u w Hu); [|done]. apply mids_elem. by exists p.
      * right. unfold rest. rewrite !elem_of_app. right. left. apply rests_elem. by exists p.
  - by destruct (Htr u w Hu Hw).
  - by apply not_elem_of_nil in Hu.
Qed.

Lemma move_sub v : v ∈ concat new → v ∈ concat old.
Proof using Hrt.
  rewrite new_elem, old_elem, !elem_of_app. intros [?|Hv]; [by left|right; by apply outs_ins].
Qed.

Lemma move_reads lo :
  F ≤ lo ∨ (∀ v, v ∈ ins → v_seq v ≤ lo) → same_reads lo (concat new) (concat old).
Proof using All.
  intros Hlo.
  assert (coherent (rest ++ ins)) as Hc.
  { eapply coherent_sub; [exact Hco|]. intros v. by rewrite old_elem. }
  intros key s Hs. rewrite (same_reads_ext lo _ _ (outs_coherent F bottom rest ins outs Hc Hrt) new_elem key s Hs).
  rewrite (same_reads_ext lo _ _ Hc old_elem key s Hs). symmetry.
  by apply (retains_reads F bottom rest ins outs lo Hc Hrt Hlo rest_newer).
Qed.

End move.

(** ** Parts that do not have the key *)

Definition lacks (key : bytes) (vs : list version) : Prop := ∀ v, v ∈ vs → v_key v ≠ key.

Lemma lacks_newest key s vs : lacks key vs → newest key s vs = None.
Proof.
  intros H. apply newest_None. intros w Hw. apply not_true_is_false. intros [Hk _]%sees_spec. by apply (H w).
Qed.

Lemma newest_lacks_l key s vs ws : lacks key vs → newest key s (vs ++ ws) = newest key s ws.
Proof.
  induction vs as [|v vs IH]; intros H; [done|]. cbn [newest app].
  assert (sees key s v = false) as ->.
  { apply not_true_is_false. intros [Hk _]%sees_spec. apply (H v); [apply list_elem_of_here|done]. }
  apply IH. intros w Hw. apply H. by apply list_elem_of_further.
Qed.

Lemma newest_lacks_r key s vs ws : lacks key ws → newest key s (vs ++ ws) = newest key s vs.
Proof.
  intros H. induction vs as [|v vs IH]; [by apply lacks_newest|]. cbn [newest app]. by rewrite IH.
Qed.

(** Only one part of a concatenation has the key. *)
Lemma newest_concat_only key s (ls : list (list version)) i l :
  ls !! i = Some l → (∀ j l', j ≠ i → ls !! j = Some l' → lacks key l') →
  newest key s (concat ls) = newest key s l.
Proof.
  intros Hi Hl. rewrite <- (take_drop_middle ls i l Hi), concat_app. cbn [concat].
  rewrite newest_lacks_l, newest_lacks_r; [done| |].
  - intros v (l' & [j Hj]%list_elem_of_lookup & Hv)%elem_of_concat. rewrite lookup_drop in Hj.
    apply (Hl (S i + j)%nat l'); [lia|done|done].
  - intros v (l' & [j Hj]%list_elem_of_lookup & Hv)%elem_of_concat.
    apply lookup_take_Some in Hj as [Hj Hlt]. apply (Hl j l'); [lia|done|done].
Qed.
