(* ===== verification/Iterator.v ===== *)
(** * The traversal interface

    Models [class Iterator] of include/bedrockkv/iterator.h.  [SortedIter] has
    the source's virtual functions; an operation is [None] where the code would
    follow a bad pointer or read outside a buffer.  [IterLaws] is the contract
    the header states: an iterator open on a sorted run of entries can be
    positioned, and then walks it.  Clients (the merging iterator, scans,
    compactions) are proved against the laws; the memtable's and the table's
    iterators discharge them. *)

From S2P Require Import Prelude InternalKey.

Class SortedIter (I : Type) := {
  iter_Valid : I → bool;
  iter_SeekToFirst : I → option I;
  iter_Seek : I → bytes → option I;
  iter_Next : I → option I;
  iter_key : I → bytes;
  iter_value : I → bytes
}.

(** [iter_open i es]: [i] is an iterator over the entries [es];
    [iter_at i es j]: it is positioned on entry [j], or past the end. *)
Class IterLaws (I : Type) `{SortedIter I} := {
  iter_open : I → list (bytes * bytes) → Prop;
  iter_at : I → list (bytes * bytes) → nat → Prop;
  iter_at_first : ∀ i es, iter_open i es → ∃ i', iter_SeekToFirst i = Some i' ∧ iter_at i' es 0;
  iter_at_seek : ∀ i es target, iter_open i es → 8 ≤ len target < 2 ^ 32 →
    ∃ i', iter_Seek i target = Some i' ∧ iter_at i' es (first_ge target es);
  iter_at_next : ∀ i es j, iter_at i es j → (j < length es)%nat →
    ∃ i', iter_Next i = Some i' ∧ iter_at i' es (S j);
  iter_at_entry : ∀ i es j p, iter_at i es j → es !! j = Some p →
    iter_Valid i = true ∧ (iter_key i, iter_value i) = p;
  iter_at_end : ∀ i es j, iter_at i es j → (length es ≤ j)%nat → iter_Valid i = false;
  iter_at_open : ∀ i es j, iter_at i es j → iter_open i es;
  iter_open_sorted : ∀ i es, iter_open i es → keys_sorted es
}.

(** A client's walk: the entries from the current position on. *)
Fixpoint iter_collect {I} `{SortedIter I} (fuel : nat) (i : I) : option (list (bytes * bytes)) :=
  match fuel with
  | O => None
  | S fuel =>
      if iter_Valid i then
        i' ← iter_Next i;
        es ← iter_collect fuel i';
        Some ((iter_key i, iter_value i) :: es)
      else Some []
  end.

(** The iterator yields exactly [es] from its current position on. *)
Fixpoint walks {I} `{SortedIter I} (i : I) (es : list (bytes * bytes)) : Prop :=
  match es with
  | [] => iter_Valid i = false
  | p :: es => iter_Valid i = true ∧ (iter_key i, iter_value i) = p ∧ ∃ i', iter_Next i = Some i' ∧ walks i' es
  end.

(** In order, with repetitions. *)
Fixpoint weakly_sorted (es : list (bytes * bytes)) : Prop :=
  match es with
  | [] => True
  | p :: es => Forall (λ q, entry_less q p = false) es ∧ weakly_sorted es
  end.

Lemma iter_at_walks {I} `{IterLaws I} (i : I) es j : iter_at i es j → walks i (drop j es).
Proof.
  remember (length es - j)%nat as n eqn:En. revert i j En. induction n as [|n IH]; intros i j En Hi.
  - rewrite drop_ge by lia. apply (iter_at_end _ _ _ Hi). lia.
  - destruct (lookup_lt_is_Some_2 es j ltac:(lia)) as [p Hp]. rewrite (drop_S _ _ _ Hp).
    destruct (iter_at_entry _ _ _ _ Hi Hp) as [Hv Hkv]. destruct (iter_at_next _ _ _ Hi) as (i' & E & Hi'); [lia|].
    split_and!; [done..|]. exists i'. split; [done|]. apply IH; [lia|done].
Qed.

Lemma keys_sorted_weakly es : keys_sorted es → weakly_sorted es.
Proof.
  induction es as [|p es IH]; [done|]. intros [Hp Hs]. split; [|by apply IH].
  eapply Forall_impl; [exact Hp|]. intros q Hq. exact (sw_asym InternalKeyComparator _ _ Hq).
Qed.

Lemma iter_collect_at {I} `{IterLaws I} (i : I) es j fuel :
  iter_at i es j → (length es - j < fuel)%nat → iter_collect fuel i = Some (drop j es).
Proof.
  revert i j. induction fuel as [|fuel IH]; intros i j Hi Hf; [lia|]. cbn [iter_collect].
  destruct (decide (j < length es)%nat) as [Hj|Hj].
  - destruct (lookup_lt_is_Some_2 es j Hj) as [p Hp].
    destruct (iter_at_entry _ _ _ _ Hi Hp) as [-> <-].
    destruct (iter_at_next _ _ _ Hi Hj) as (i' & -> & Hi').
    cbn [mbind option_bind]. rewrite (IH i' (S j) Hi') by lia. cbn [mbind option_bind].
    f_equal. symmetry. by apply drop_S.
  - rewrite (iter_at_end _ _ _ Hi) by lia. by rewrite drop_ge by lia.
Qed.

(** ** A choice of two kinds of iterator

    The children of a merge are pointers to the base class; a sum of
    iterator types stands for the dynamic dispatch. *)

#[global] Instance sum_iter {I J} `{SortedIter I, SortedIter J} : SortedIter (I + J) := {|
  iter_Valid i := match i with inl i => iter_Valid i | inr j => iter_Valid j end;
  iter_SeekToFirst i :=
    match i with inl i => inl <$> iter_SeekToFirst i | inr j => inr <$> iter_SeekToFirst j end;
  iter_Seek i t :=
    match i with inl i => inl <$> iter_Seek i t | inr j => inr <$> iter_Seek j t end;
  iter_Next i := match i with inl i => inl <$> iter_Next i | inr j => inr <$> iter_Next j end;
  iter_key i := match i with inl i => iter_key i | inr j => iter_key j end;
  iter_value i := match i with inl i => iter_value i | inr j => iter_value j end
|}.

#[global, program] Instance sum_iter_laws {I J} `{IterLaws I, IterLaws J} : IterLaws (I + J) := {|
  iter_open i es := match i with inl i => iter_open i es | inr j => iter_open j es end;
  iter_at i es k := match i with inl i => iter_at i es k | inr j => iter_at j es k end
|}.
Next Obligation.
  intros I J ? ? ? ? [i|j] es Ho; simpl; destruct (iter_at_first _ _ Ho) as (i' & -> & Hi);
    eexists; (split; [done|]); done.
Qed.
Next Obligation.
  intros I J ? ? ? ? [i|j] es t Ho Ht; simpl; destruct (iter_at_seek _ _ _ Ho Ht) as (i' & -> & Hi);
    eexists; (split; [done|]); done.
Qed.
Next Obligation.
  intros I J ? ? ? ? [i|j] es k Ho Hk; simpl; destruct (iter_at_next _ _ _ Ho Hk) as (i' & -> & Hi);
    eexists; (split; [done|]); done.
Qed.
Next Obligation.
  intros I J ? ? ? ? [i|j] es k p Ho Hk; simpl; by apply (iter_at_entry _ _ _ _ Ho Hk).
Qed.
Next Obligation.
  intros I J ? ? ? ? [i|j] es k Ho Hk; simpl; by apply (iter_at_end _ _ _ Ho Hk).
Qed.
Next Obligation.
  intros I J ? ? ? ? [i|j] es k Ho; simpl; by apply (iter_at_open _ _ _ Ho).
Qed.
Next Obligation.
  intros I J ? ? ? ? [i|j] es Ho; simpl; by apply (iter_open_sorted _ _ Ho).
Qed.
