(* ===== verification/Block.v ===== *)
(** * Blocks: prefix-compressed entries with restart points

    Models include/bedrockkv/block.h and src/block.cpp: [BlockBuilder] (Reset,
    Add, Finish) and the decoder [Block] (constructor, SeekToFirst, Seek, Next).
    A decoder operation returns [None] when it would read outside the block, or
    when it would not terminate within its fuel; the first group of theorems
    shows that this happens for no contents at all.  The second group relates
    the decoder to the builder: what was added is what is iterated, and [Seek]
    finds the first entry not below its target. *)

From S2P Require Import Prelude Encoding InternalKey.

(** ** BlockBuilder *)

Record BlockBuilder := mkBlockBuilder {
  restart_interval_ : Z;
  buffer_ : bytes;
  restarts_ : list Z;
  last_key_ : bytes;
  counter_ : Z
}.

Definition bb_Reset (b : BlockBuilder) : BlockBuilder :=
  mkBlockBuilder (restart_interval_ b) [] [0] [] 0.

(** The constructor: the members are default-initialised and reset. *)
Definition new_BlockBuilder (restart_interval : Z) : BlockBuilder :=
  bb_Reset (mkBlockBuilder restart_interval [] [] [] 0).

(** The [while] loop of [Add]: the length of the common prefix. *)
Fixpoint shared_prefix (last_key key : bytes) : Z :=
  match last_key, key with
  | x :: last_key, y :: key => if decide (x = y) then 1 + shared_prefix last_key key else 0
  | _, _ => 0
  end.

Definition bb_Add (b : BlockBuilder) (key value : bytes) : BlockBuilder :=
  let '(shared, restarts, counter) :=
    if counter_ b <? restart_interval_ b
    then (shared_prefix (last_key_ b) key, restarts_ b, counter_ b)
    else (0, restarts_ b ++ [u32 (len (buffer_ b))], 0) in
  let non_shared := len key - shared in
  mkBlockBuilder (restart_interval_ b)
    (buffer_ b ++ PutFixed32 (u32 shared) ++ PutFixed32 (u32 non_shared)
       ++ PutFixed32 (u32 (len value)) ++ at_off shared key ++ value)
    restarts key (counter + 1).

Definition bb_CurrentSizeEstimate (b : BlockBuilder) : Z :=
  len (buffer_ b) + (len (restarts_ b) + 1) * 4.

Definition bb_empty (b : BlockBuilder) : bool := counter_ b =? 0.

(** The finished block and the builder left behind; the moved-from buffer is
    empty. *)
Definition bb_Finish (b : BlockBuilder) : bytes * BlockBuilder :=
  (buffer_ b ++ concat (PutFixed32 <$> restarts_ b) ++ PutFixed32 (u32 (len (restarts_ b))),
   mkBlockBuilder (restart_interval_ b) [] [0] (last_key_ b) 0).

(** ** Block

    [cur_key_] always views the whole of [key_scratch_], so one field stands
    for both. *)

Definition kHeaderSize : Z := 12.

Record Block := mkBlock {
  data_ : bytes;
  restart_array_offset_ : Z;
  num_restarts_ : Z;
  valid_ : bool;
  corrupted_ : bool;
  key_scratch_ : bytes;
  cur_value_ : bytes;
  entry_end_ : Z
}.

Definition blk_key (b : Block) : bytes := key_scratch_ b.
Definition blk_value (b : Block) : bytes := cur_value_ b.

Definition set_valid (v : bool) (b : Block) : Block :=
  mkBlock (data_ b) (restart_array_offset_ b) (num_restarts_ b) v (corrupted_ b)
    (key_scratch_ b) (cur_value_ b) (entry_end_ b).

Definition set_corrupted (b : Block) : Block :=
  mkBlock (data_ b) (restart_array_offset_ b) (num_restarts_ b) (valid_ b) true
    (key_scratch_ b) (cur_value_ b) (entry_end_ b).

(** The constructor's loop over the restart array: [Some false] when an
    offset is not below the array.  [i * 4] is computed on 32 bits. *)
Fixpoint check_restarts (data : bytes) (rao : Z) (i : Z) (n : nat) : option bool :=
  match n with
  | O => Some true
  | S n =>
      off ← GetFixed32 (at_off (rao + u32 (i * 4)) data);
      if rao <=? off then Some false else check_restarts data rao (i + 1) n
  end.

Definition new_Block (contents : bytes) : option Block :=
  let fresh rao num corrupted := mkBlock contents rao num false corrupted [] [] 0 in
  if len contents <? 4 then Some (fresh 0 0 true)
  else
    num ← GetFixed32 (at_off (len contents - 4) contents);
    let trailer := u64 ((num + 1) * 4) in
    if (len contents <? trailer) || (num =? 0) then Some (fresh 0 num true)
    else
      let rao := len contents - trailer in
      fine ← check_restarts contents rao 0 (Z.to_nat num);
      Some (fresh rao num (negb fine)).

Definition KeyAtRestart (b : Block) (restart_index : Z) : option bytes :=
  off ← GetFixed32 (at_off (restart_array_offset_ b + restart_index * 4) (data_ b));
  if restart_array_offset_ b <? off + kHeaderSize then Some []
  else
    non_shared ← GetFixed32 (at_off (off + 4) (data_ b));
    Some (slice (off + kHeaderSize) non_shared (data_ b)).

(** The decoded entry is left in the returned block; [valid_] is false and
    set by the caller. *)
Definition ParseEntry (b : Block) (offset : Z) : option (bool * Block) :=
  let b := set_valid false b in
  let rao := restart_array_offset_ b in
  if offset =? rao then Some (false, b)
  else if (rao <? offset) || (rao <? offset + kHeaderSize) then Some (false, set_corrupted b)
  else
    shared ← GetFixed32 (at_off offset (data_ b));
    non_shared ← GetFixed32 (at_off (offset + 4) (data_ b));
    value_len ← GetFixed32 (at_off (offset + 8) (data_ b));
    if len (key_scratch_ b) <? shared then Some (false, set_corrupted b)
    else
      let payload := non_shared + value_len in
      if rao - offset - kHeaderSize <? payload then Some (false, set_corrupted b)
      else
        let key := slice 0 shared (key_scratch_ b)
                     ++ slice (offset + kHeaderSize) non_shared (data_ b) in
        let value := slice (offset + kHeaderSize + non_shared) value_len (data_ b) in
        Some (true, mkBlock (data_ b) rao (num_restarts_ b) false (corrupted_ b)
                      key value (offset + kHeaderSize + non_shared + value_len)).

Definition blk_SeekToFirst (b : Block) : option Block :=
  if corrupted_ b then Some (set_valid false b)
  else '(r, b') ← ParseEntry b 0; Some (set_valid r b').

(** The binary search of [Seek] over the restart points. *)
Fixpoint seek_restart (b : Block) (target : bytes) (fuel : nat) (left right : Z) : option Z :=
  match fuel with
  | O => None
  | S fuel =>
      if left <? right then
        let mid := (left + right + 1) / 2 in
        k ← KeyAtRestart b mid;
        if InternalKeyComparator k target then seek_restart b target fuel mid right
        else seek_restart b target fuel left (mid - 1)
      else Some left
  end.

(** The linear scan of [Seek] from a restart point. *)
Fixpoint seek_scan (target : bytes) (fuel : nat) (offset : Z) (b : Block) : option Block :=
  match fuel with
  | O => None
  | S fuel =>
      if offset <? restart_array_offset_ b then
        '(r, b1) ← ParseEntry b offset;
        if negb r then Some b1
        else
          let b2 := set_valid true b1 in
          if negb (InternalKeyComparator (blk_key b2) target) then Some b2
          else seek_scan target fuel (entry_end_ b2) b2
      else Some (set_valid false b)
  end.

Definition blk_Seek (b : Block) (target : bytes) : option Block :=
  if corrupted_ b then Some (set_valid false b)
  else
    left ← seek_restart b target (Z.to_nat (num_restarts_ b)) 0 (num_restarts_ b - 1);
    offset ← GetFixed32 (at_off (restart_array_offset_ b + left * 4) (data_ b));
    seek_scan target (S (length (data_ b))) offset (set_valid false b).

Definition blk_Next (b : Block) : option Block :=
  if corrupted_ b || negb (valid_ b) then Some (set_valid false b)
  else '(r, b') ← ParseEntry b (entry_end_ b); Some (set_valid r b').

(** A client's walk over a block: the entries visited from the current
    position. *)
Fixpoint blk_collect (fuel : nat) (b : Block) : option (list (bytes * bytes)) :=
  match fuel with
  | O => None
  | S fuel =>
      if valid_ b then
        b' ← blk_Next b;
        es ← blk_collect fuel b';
        Some ((blk_key b, blk_value b) :: es)
      else Some []
  end.

(** ** Memory safety and termination on arbitrary contents *)

Definition blk_shape (b : Block) : Prop :=
  0 ≤ restart_array_offset_ b ∧
  restart_array_offset_ b + (num_restarts_ b + 1) * 4 = len (data_ b) ∧
  1 ≤ num_restarts_ b ∧
  0 ≤ entry_end_ b.

Definition blk_safe (b : Block) : Prop := corrupted_ b = true ∨ blk_shape b.

Lemma GetFixed32_at off (data : bytes) :
  0 ≤ off → off + 4 ≤ len data → ∃ v, GetFixed32 (at_off off data) = Some v ∧ 0 ≤ v < 2 ^ 32.
Proof.
  intros H1 H2. destruct (proj2 (GetFixed32_is_Some (at_off off data))) as [v Hv].
  { rewrite len_at_off; lia. }
  exists v. split; [done|]. by apply GetFixed32_inv in Hv as [? _].
Qed.

(** Step over a read at a known offset that is in bounds. *)
Tactic Notation "read32" constr(o) constr(d) "as" ident(v) :=
  let Hv := fresh "E" v in let Hr := fresh "R" v in
  destruct (GetFixed32_at o d) as (v & Hv & Hr); [lia..|];
  rewrite ?Hv; cbn [mbind option_bind].

Lemma u32_mul4_le i : 0 ≤ i → u32 (i * 4) ≤ i * 4 ∧ 0 ≤ u32 (i * 4).
Proof. intros. unfold u32. split; [apply Z.mod_le; lia|apply Z.mod_pos_bound; lia]. Qed.

Lemma check_restarts_safe data rao i n :
  0 ≤ rao → 0 ≤ i → rao + (i + Z.of_nat n) * 4 ≤ len data →
  is_Some (check_restarts data rao i n).
Proof.
  revert i. induction n as [|n IH]; intros i Hr Hi Hl; cbn [check_restarts]; [by eexists|].
  pose proof (u32_mul4_le i Hi). read32 (rao + u32 (i * 4)) data as off.
  case_match; [by eexists|]. apply IH; lia.
Qed.

Lemma new_Block_safe_aux contents :
  len contents < 2 ^ 64 → ∃ b, new_Block contents = Some b ∧ blk_safe b ∧ data_ b = contents.
Proof.
  intros Hl. unfold new_Block. destruct (Z.ltb_spec (len contents) 4).
  { eexists; split_and!; [done|by left|done]. }
  read32 (len contents - 4) contents as v. unfold u64. rewrite Z.mod_small by lia.
  destruct (Z.ltb_spec (len contents) ((v + 1) * 4)); simpl.
  { eexists; split_and!; [done|by left|done]. }
  destruct (Z.eqb_spec v 0); simpl.
  { eexists; split_and!; [done|by left|done]. }
  destruct (check_restarts_safe contents (len contents - (v + 1) * 4) 0 (Z.to_nat v)) as [f Hf];
    [lia..|].
  rewrite Hf. simpl. eexists; split_and!; [done| |done].
  right. unfold blk_shape; simpl. lia.
Qed.

Lemma ParseEntry_safe b offset :
  blk_shape b → 0 ≤ offset →
  ∃ r b', ParseEntry b offset = Some (r, b') ∧ blk_shape b' ∧ data_ b' = data_ b ∧
          restart_array_offset_ b' = restart_array_offset_ b ∧
          (r = true → offset + 12 ≤ entry_end_ b' ≤ restart_array_offset_ b).
Proof.
  intros (H1 & H2 & H3 & H4) Ho. unfold ParseEntry, kHeaderSize, blk_shape. simpl.
  destruct (Z.eqb_spec offset (restart_array_offset_ b)).
  { do 2 eexists; split; [done|]. simpl. split_and!; try done; lia. }
  destruct (Z.ltb_spec (restart_array_offset_ b) offset); simpl.
  { do 2 eexists; split; [done|]. simpl. split_and!; try done; lia. }
  destruct (Z.ltb_spec (restart_array_offset_ b) (offset + 12)); simpl.
  { do 2 eexists; split; [done|]. simpl. split_and!; try done; lia. }
  read32 offset (data_ b) as shared. read32 (offset + 4) (data_ b) as non_shared.
  read32 (offset + 8) (data_ b) as value_len.
  destruct (Z.ltb_spec (len (key_scratch_ b)) shared).
  { do 2 eexists; split; [done|]. simpl. split_and!; try done; lia. }
  destruct (Z.ltb_spec (restart_array_offset_ b - offset - 12) (non_shared + value_len)).
  { do 2 eexists; split; [done|]. simpl. split_and!; try done; lia. }
  do 2 eexists; split; [done|]. simpl. split_and!; try done; lia.
Qed.

Lemma blk_shape_set_valid b v : blk_shape b → blk_shape (set_valid v b).
Proof. done. Qed.

Lemma blk_SeekToFirst_safe b :
  blk_safe b → ∃ b', blk_SeekToFirst b = Some b' ∧ blk_safe b'.
Proof.
  intros Hb. unfold blk_SeekToFirst. destruct (corrupted_ b) eqn:E.
  { eexists; split; [done|by left]. }
  destruct Hb as [|Hb]; [congruence|].
  destruct (ParseEntry_safe b 0 Hb) as (r & b' & -> & ? & _); [lia|].
  eexists; split; [done|by right].
Qed.

Lemma blk_Next_safe b : blk_safe b → ∃ b', blk_Next b = Some b' ∧ blk_safe b'.
Proof.
  intros Hb. unfold blk_Next. destruct (corrupted_ b) eqn:E; simpl.
  { eexists; split; [done|by left]. }
  destruct Hb as [|Hb]; [congruence|].
  destruct (valid_ b); simpl; [|eexists; split; [done|by right]].
  destruct (ParseEntry_safe b (entry_end_ b) Hb) as (r & b' & -> & ? & _).
  { by destruct Hb as (_ & _ & _ & ?). }
  eexists; split; [done|by right].
Qed.

Lemma KeyAtRestart_safe b i :
  blk_shape b → 0 ≤ i < num_restarts_ b → is_Some (KeyAtRestart b i).
Proof.
  intros (H1 & H2 & H3 & H4) Hi. unfold KeyAtRestart, kHeaderSize.
  read32 (restart_array_offset_ b + i * 4) (data_ b) as v.
  destruct (Z.ltb_spec (restart_array_offset_ b) (v + 12)); [by eexists|].
  read32 (v + 4) (data_ b) as w. by eexists.
Qed.

Lemma seek_mid left right :
  left < right → left < (left + right + 1) / 2 ≤ right.
Proof. intros. Z.div_mod_to_equations. lia. Qed.

Lemma seek_restart_safe b target fuel left right :
  blk_shape b → 0 ≤ left ≤ right → right < num_restarts_ b → right - left < Z.of_nat fuel →
  ∃ r, seek_restart b target fuel left right = Some r ∧ 0 ≤ r < num_restarts_ b.
Proof.
  intros Hb. revert left right. induction fuel as [|fuel IH]; intros left right Hlr Hr Hf; [lia|].
  cbn [seek_restart]. destruct (Z.ltb_spec left right); [|eexists; split; [done|lia]].
  pose proof (seek_mid left right ltac:(lia)).
  destruct (KeyAtRestart_safe b ((left + right + 1) / 2) Hb) as [k Hk]; [lia|].
  rewrite Hk. cbn [mbind option_bind]. case_match; apply IH; lia.
Qed.

Lemma seek_scan_safe target fuel offset b :
  blk_shape b → 0 ≤ offset → restart_array_offset_ b - offset < Z.of_nat fuel →
  (0 < fuel)%nat →
  ∃ b', seek_scan target fuel offset b = Some b' ∧ blk_shape b'.
Proof.
  revert offset b. induction fuel as [|fuel IH]; intros offset b Hb Ho Hf Hp; [lia|].
  cbn [seek_scan]. destruct (Z.ltb_spec offset (restart_array_offset_ b)).
  2:{ eexists; split; [done|]. done. }
  destruct (ParseEntry_safe b offset Hb Ho) as (r & b1 & -> & Hb1 & Hd & Hr & He).
  cbn [mbind option_bind]. destruct r; simpl; [|eexists; split; [done|done]].
  specialize (He eq_refl).
  case_match; simpl; [eexists; split; [done|done]|].
  assert (0 < fuel)%nat by lia.
  apply IH; [done|simpl; lia|simpl; lia|done].
Qed.

Lemma blk_Seek_safe b target :
  blk_safe b → ∃ b', blk_Seek b target = Some b' ∧ blk_safe b'.
Proof.
  intros Hb. unfold blk_Seek. destruct (corrupted_ b) eqn:E.
  { eexists; split; [done|by left]. }
  destruct Hb as [|Hb]; [congruence|]. pose proof Hb as (H1 & H2 & H3 & H4).
  destruct (seek_restart_safe b target (Z.to_nat (num_restarts_ b)) 0 (num_restarts_ b - 1) Hb)
    as (left & -> & Hl); [lia..|].
  cbn [mbind option_bind].
  read32 (restart_array_offset_ b + left * 4) (data_ b) as v.
  destruct (seek_scan_safe target (S (length (data_ b))) v (set_valid false b)) as (b' & -> & ?).
  { done. } { lia. } { simpl. unfold len in *. lia. } { lia. }
  eexists; split; [done|by right].
Qed.

(** ** The layout of a finished block

    [E] lists the entries with the prefix length each one shares with its
    predecessor; [R] lists the indices of the restart points. *)

Record entry := mkEntry { e_shared : Z; e_key : bytes; e_value : bytes }.

Definition enc_entry (e : entry) : bytes :=
  PutFixed32 (e_shared e) ++ PutFixed32 (len (e_key e) - e_shared e)
    ++ PutFixed32 (len (e_value e)) ++ at_off (e_shared e) (e_key e) ++ e_value e.

Definition body (E : list entry) : bytes := concat (enc_entry <$> E).
Definition off_of (E : list entry) (i : nat) : Z := len (body (take i E)).
Definition kv (e : entry) : bytes * bytes := (e_key e, e_value e).

(** The entry can be decoded after an entry whose key is [prev]. *)
Definition follows (prev : bytes) (e : entry) : Prop :=
  0 ≤ e_shared e ≤ len (e_key e) ∧ e_shared e ≤ len prev ∧
  slice 0 (e_shared e) prev = slice 0 (e_shared e) (e_key e) ∧
  len (e_key e) < 2 ^ 32 ∧ len (e_value e) < 2 ^ 32.

Fixpoint chain (prev : bytes) (E : list entry) : Prop :=
  match E with
  | [] => True
  | e :: E => follows prev e ∧ chain (e_key e) E
  end.

Definition is_restart (E : list entry) (r : nat) : Prop :=
  ∃ e, E !! r = Some e ∧ e_shared e = 0.

Record image_ok (E : list entry) (R : list nat) : Prop := {
  im_chain : chain [] E;
  im_restart : ∀ i r, R !! i = Some r → is_restart E r;
  im_first : R !! 0%nat = Some 0%nat;
  im_size : len (body E) < 2 ^ 32;
  im_count : len R * 4 < 2 ^ 32
}.

Definition restart_array (E : list entry) (R : list nat) : bytes :=
  concat (PutFixed32 <$> (off_of E <$> R)).

Definition image (E : list entry) (R : list nat) : bytes :=
  body E ++ restart_array E R ++ PutFixed32 (len R).

(** [contents] is a finished block holding exactly [es]. *)
Definition is_image (contents : bytes) (es : list (bytes * bytes)) : Prop :=
  ∃ E R, image_ok E R ∧ kv <$> E = es ∧ contents = image E R.

Lemma body_app E F : body (E ++ F) = body E ++ body F.
Proof. unfold body. by rewrite fmap_app, concat_app. Qed.

Lemma body_cons e E : body (e :: E) = enc_entry e ++ body E.
Proof. done. Qed.

Lemma len_enc_entry e :
  0 ≤ e_shared e ≤ len (e_key e) →
  len (enc_entry e) = 12 + (len (e_key e) - e_shared e) + len (e_value e).
Proof. intros. unfold enc_entry. autorewrite with len. rewrite len_at_off; lia. Qed.

Lemma chain_lookup prev E j e :
  chain prev E → E !! j = Some e →
  follows (match j with O => prev | S i => default [] (e_key <$> E !! i) end) e.
Proof.
  revert prev j. induction E as [|e0 E IH]; intros prev j; [done|].
  intros [H1 H2] Hj. destruct j as [|[|j]]; simpl in Hj.
  - by injection Hj as <-.
  - specialize (IH _ 0%nat H2 Hj). done.
  - specialize (IH _ (S j) H2 Hj). done.
Qed.

Lemma off_of_S E j e : E !! j = Some e → off_of E (S j) = off_of E j + len (enc_entry e).
Proof.
  intros H. unfold off_of. rewrite (take_S_r _ _ _ H), body_app, len_app. f_equal.
  by rewrite body_cons, app_nil_r.
Qed.

Lemma body_split E j e :
  E !! j = Some e → body E = body (take j E) ++ enc_entry e ++ body (drop (S j) E).
Proof.
  intros H. rewrite <- (take_drop_middle E j e H) at 1. by rewrite body_app, body_cons.
Qed.

Lemma off_of_lt E j e :
  chain [] E → E !! j = Some e → 0 ≤ off_of E j ∧ off_of E (S j) ≤ len (body E) ∧
  off_of E j + 12 ≤ off_of E (S j).
Proof.
  intros Hc Hj. pose proof (chain_lookup _ _ _ _ Hc Hj) as (H1 & _).
  rewrite (off_of_S _ _ _ Hj), len_enc_entry by done.
  rewrite (body_split _ _ _ Hj), !len_app, len_enc_entry by done.
  unfold off_of. pose_len_nonneg. lia.
Qed.

Lemma off_of_length E : off_of E (length E) = len (body E).
Proof. unfold off_of. by rewrite take_ge. Qed.

Lemma off_of_body_lt E r :
  chain [] E → is_restart E r → 0 ≤ off_of E r < len (body E).
Proof.
  intros Hc (e & He & _). pose proof (off_of_lt _ _ _ Hc He). lia.
Qed.

Lemma body_length_ge E : (12 * length E ≤ length (body E))%nat.
Proof.
  induction E as [|e E IH]; [simpl; lia|].
  rewrite body_cons, length_app. unfold enc_entry. rewrite !length_app. simpl. lia.
Qed.

Lemma restart_array_lookup E R i r rest :
  R !! i = Some r →
  ∃ rest', at_off (Z.of_nat i * 4) (restart_array E R ++ rest) = PutFixed32 (off_of E r) ++ rest'.
Proof.
  unfold restart_array. revert i. induction R as [|r0 R IH]; intros i Hi; [done|].
  destruct i as [|i]; simpl in Hi.
  - injection Hi as ->. exists (concat (PutFixed32 <$> (off_of E <$> R)) ++ rest).
    rewrite at_off_0. rewrite !fmap_cons. cbn [concat]. by rewrite <- app_assoc.
  - destruct (IH i Hi) as [rest' E']. exists rest'. rewrite <- E'.
    rewrite !fmap_cons. cbn [concat].
    rewrite <- app_assoc. rewrite at_off_app_r by (rewrite len_PutFixed32; lia).
    f_equal. rewrite len_PutFixed32. lia.
Qed.

Lemma len_restart_array E R : len (restart_array E R) = len R * 4.
Proof.
  unfold restart_array. induction R as [|r R IH]; [done|].
  rewrite !fmap_cons. cbn [concat]. rewrite len_app, IH. slia.
Qed.

(** ** Decoding a finished block *)

(** The decoder is open on the image of [E] and [R]. *)
Record opened (b : Block) (E : list entry) (R : list nat) : Prop := {
  op_image : image_ok E R;
  op_data : data_ b = image E R;
  op_rao : restart_array_offset_ b = len (body E);
  op_num : num_restarts_ b = len R;
  op_fine : corrupted_ b = false
}.

(** The decoder has just decoded entry [j]. *)
Record decoded (b : Block) (E : list entry) (R : list nat) (j : nat) : Prop := {
  de_open : opened b E R;
  de_kv : E !! j = Some (mkEntry (default 0 (e_shared <$> E !! j)) (key_scratch_ b) (cur_value_ b));
  de_end : entry_end_ b = off_of E (S j)
}.

(** Client's view: positioned on entry [j] of [es], or past the end. *)
Definition blk_open (b : Block) (es : list (bytes * bytes)) : Prop :=
  ∃ E R, kv <$> E = es ∧ opened b E R.

Definition blk_at (b : Block) (es : list (bytes * bytes)) (j : nat) : Prop :=
  ∃ E R, kv <$> E = es ∧
    if decide (j < length es)%nat then valid_ b = true ∧ decoded b E R j
    else valid_ b = false ∧ opened b E R.

Lemma opened_set_valid b E R v : opened b E R → opened (set_valid v b) E R.
Proof. by intros []; split. Qed.

Lemma image_at_entry E R j e :
  E !! j = Some e →
  at_off (off_of E j) (image E R)
  = enc_entry e ++ body (drop (S j) E) ++ restart_array E R ++ PutFixed32 (len R).
Proof.
  intros Hj. unfold image. rewrite (body_split _ _ _ Hj), <- !app_assoc.
  by apply at_off_app.
Qed.

(** Reading the three header fields and the two payload parts of entry [j]. *)
Lemma image_fields E R j e :
  chain [] E → E !! j = Some e →
  let d := image E R in let o := off_of E j in
  let ns := len (e_key e) - e_shared e in
  GetFixed32 (at_off o d) = Some (e_shared e) ∧
  GetFixed32 (at_off (o + 4) d) = Some ns ∧
  GetFixed32 (at_off (o + 8) d) = Some (len (e_value e)) ∧
  slice (o + 12) ns d = at_off (e_shared e) (e_key e) ∧
  slice (o + 12 + ns) (len (e_value e)) d = e_value e.
Proof.
  intros Hc Hj. pose proof (chain_lookup _ _ _ _ Hc Hj) as (H1 & H2 & _ & H3 & H4).
  pose proof (off_of_lt _ _ _ Hc Hj) as (Ho & _).
  pose proof (image_at_entry E R j e Hj) as Hat.
  set (tail := body (drop (S j) E) ++ _) in Hat.
  unfold enc_entry in Hat. rewrite <- !app_assoc in Hat.
  cbv zeta. rewrite <- !(at_off_at_off _ (off_of E j)) by lia.
  rewrite <- !Z.add_assoc, <- !(slice_at_off _ (off_of E j)) by lia. rewrite Hat.
  assert (∀ v, 0 ≤ v < 2 ^ 32 → u32 v = v) as Hu by (intros; by apply Z.mod_small).
  split_and!.
  - rewrite GetFixed32_Put, Hu; [done|lia].
  - rewrite at_off_app by done. rewrite GetFixed32_Put, Hu; [done|slia].
  - rewrite app_assoc, at_off_app by done. rewrite GetFixed32_Put, Hu; [done|slia].
  - do 2 rewrite app_assoc. rewrite <- app_assoc. rewrite <- app_assoc.
    rewrite !app_assoc. rewrite <- (app_assoc _ (e_value e)), <- (app_assoc _ (at_off _ _)).
    apply slice_app_exact; [slia|]. rewrite len_at_off; lia.
  - rewrite !app_assoc, <- (app_assoc _ (e_value e)).
    apply slice_app_exact; [|done]. autorewrite with len. rewrite len_at_off; lia.
Qed.

(** What the key scratch must hold for entry [j] to decode. *)
Definition scratch_ok (b : Block) (e : entry) : Prop :=
  e_shared e ≤ len (key_scratch_ b) ∧
  slice 0 (e_shared e) (key_scratch_ b) = slice 0 (e_shared e) (e_key e).

Lemma ParseEntry_decodes b E R j e :
  opened b E R → E !! j = Some e → scratch_ok b e →
  ∃ b', ParseEntry b (off_of E j) = Some (true, b') ∧ decoded b' E R j.
Proof.
  intros [Hok Hd Hr Hn Hc] Hj [Hs1 Hs2].
  pose proof (im_chain _ _ Hok) as Hch.
  pose proof (chain_lookup _ _ _ _ Hch Hj) as (H1 & _).
  pose proof (off_of_lt _ _ _ Hch Hj) as (Ho1 & Ho2 & Ho3).
  pose proof (off_of_S _ _ _ Hj) as HS. rewrite len_enc_entry in HS by done.
  destruct (image_fields E R j e Hch Hj) as (F1 & F2 & F3 & F4 & F5).
  unfold ParseEntry, kHeaderSize. cbn [set_valid data_ restart_array_offset_ key_scratch_
    num_restarts_ corrupted_]. rewrite Hr, Hd.
  rewrite (proj2 (Z.eqb_neq _ _)) by lia.
  rewrite !(proj2 (Z.ltb_ge _ _)) by lia. cbn [orb].
  rewrite F1, F2, F3. cbn [mbind option_bind].
  pose_len_nonneg. rewrite !(proj2 (Z.ltb_ge _ _)) by lia.
  rewrite F4, F5, Hs2. eexists; split; [done|].
  split; cbn [key_scratch_ cur_value_ entry_end_]; [by split| |lia].
  rewrite Hj. cbn [fmap option_fmap option_map default from_option].
  rewrite <- (slice_split (e_key e)) by lia. by destruct e.
Qed.

Lemma ParseEntry_at_end b E R :
  opened b E R → ParseEntry b (len (body E)) = Some (false, set_valid false b).
Proof.
  intros [_ _ Hr _ _]. unfold ParseEntry. cbn [set_valid restart_array_offset_].
  by rewrite Hr, Z.eqb_refl.
Qed.

Lemma decoded_scratch_ok b E R j e :
  decoded b E R j → E !! S j = Some e → scratch_ok b e.
Proof.
  intros [[Hok _ _ _ _] Hkv _] Hj.
  pose proof (chain_lookup _ _ _ _ (im_chain _ _ Hok) Hj) as (_ & H2 & H3 & _).
  rewrite Hkv in H2, H3. simpl in H2, H3. by split.
Qed.

Lemma restart_scratch_ok b E r e : is_restart E r → E !! r = Some e → scratch_ok b e.
Proof.
  intros (e' & He & Hs) He'. assert (e' = e) as -> by congruence.
  split; rewrite Hs; [apply len_nonneg|done].
Qed.

Lemma decoded_set_valid b E R j v : decoded b E R j → decoded (set_valid v b) E R j.
Proof. intros []; split; try done. by apply opened_set_valid. Qed.

Lemma image_first_entry E R : image_ok E R → is_restart E 0.
Proof. intros H. exact (im_restart _ _ H _ _ (im_first _ _ H)). Qed.

Lemma kv_length E es : kv <$> E = es → length es = length E.
Proof. intros <-. apply length_fmap. Qed.

Lemma blk_SeekToFirst_at b es :
  blk_open b es → ∃ b', blk_SeekToFirst b = Some b' ∧ blk_at b' es 0.
Proof.
  intros (E & R & Hkv & Ho). pose proof (op_image _ _ _ Ho) as Hok.
  pose proof (image_first_entry _ _ Hok) as Hr. destruct (Hr) as (e & He & _).
  destruct (ParseEntry_decodes b E R 0 e) as (b' & Hp & Hd); [done..|by eapply restart_scratch_ok|].
  unfold blk_SeekToFirst. rewrite (op_fine _ _ _ Ho).
  change (off_of E 0) with 0 in Hp. rewrite Hp. cbn [mbind option_bind].
  eexists; split; [done|]. exists E, R. split; [done|].
  apply lookup_lt_Some in He. rewrite decide_True by (erewrite kv_length; done).
  split; [done|]. by apply decoded_set_valid.
Qed.

Lemma blk_Next_at b es j :
  blk_at b es j → (j < length es)%nat → ∃ b', blk_Next b = Some b' ∧ blk_at b' es (S j).
Proof.
  intros (E & R & Hkv & Hj) Hlt. rewrite decide_True in Hj by done. destruct Hj as [Hv Hd].
  pose proof (de_open _ _ _ _ Hd) as Ho. pose proof (kv_length _ _ Hkv) as Hl.
  unfold blk_Next. rewrite (op_fine _ _ _ Ho), Hv, (de_end _ _ _ _ Hd). cbn [orb negb].
  destruct (decide (S j < length es)%nat) as [HS|HS].
  - destruct (lookup_lt_is_Some_2 E (S j)) as [e He]; [lia|].
    destruct (ParseEntry_decodes b E R (S j) e) as (b' & -> & Hd');
      [done..|by eapply decoded_scratch_ok|].
    cbn [mbind option_bind]. eexists; split; [done|]. exists E, R. split; [done|].
    rewrite decide_True by done. split; [done|]. by apply decoded_set_valid.
  - replace (S j) with (length E) by lia. rewrite off_of_length.
    rewrite (ParseEntry_at_end _ _ _ Ho). cbn [mbind option_bind].
    eexists; split; [done|]. exists E, R. split; [done|]. rewrite decide_False by lia.
    split; [done|]. by do 2 apply opened_set_valid.
Qed.

Lemma blk_at_kv b es j kv0 :
  blk_at b es j → es !! j = Some kv0 → valid_ b = true ∧ (blk_key b, blk_value b) = kv0.
Proof.
  intros (E & R & Hkv & Hj) Hl. pose proof (lookup_lt_Some _ _ _ Hl) as Hlt.
  rewrite decide_True in Hj by done. destruct Hj as [Hv Hd]. split; [done|].
  rewrite <- Hkv, list_lookup_fmap, (de_kv _ _ _ _ Hd) in Hl. by injection Hl.
Qed.

Lemma blk_at_end b es j : blk_at b es j → (length es ≤ j)%nat → valid_ b = false.
Proof. intros (E & R & _ & H) ?. rewrite decide_False in H by lia. apply H. Qed.

Lemma blk_at_open b es j : blk_at b es j → blk_open b es.
Proof.
  intros (E & R & Hkv & H). exists E, R. split; [done|].
  case_decide; destruct H as [_ H]; [by apply de_open in H|done].
Qed.

Lemma blk_open_fine b es : blk_open b es → corrupted_ b = false.
Proof. intros (E & R & _ & H). apply (op_fine _ _ _ H). Qed.

Lemma blk_collect_at b es j fuel :
  blk_at b es j → (length es - j < fuel)%nat → blk_collect fuel b = Some (drop j es).
Proof.
  revert b j. induction fuel as [|fuel IH]; intros b j Hb Hf; [lia|].
  cbn [blk_collect]. destruct (decide (j < length es)%nat) as [Hj|Hj].
  - destruct (lookup_lt_is_Some_2 es j Hj) as [p Hp].
    destruct (blk_at_kv _ _ _ _ Hb Hp) as [-> <-].
    destruct (blk_Next_at b es j Hb Hj) as (b' & -> & Hb').
    cbn [mbind option_bind]. rewrite (IH b' (S j) Hb') by lia. cbn [mbind option_bind].
    f_equal. symmetry. by apply drop_S.
  - rewrite (blk_at_end _ _ _ Hb) by lia. by rewrite drop_ge by lia.
Qed.

(** ** Seek *)

Lemma opened_restart_off b E R i r :
  opened b E R → R !! i = Some r →
  GetFixed32 (at_off (restart_array_offset_ b + Z.of_nat i * 4) (data_ b)) = Some (off_of E r).
Proof.
  intros [Hok Hd Hr Hn _] Hi. rewrite Hd, Hr. unfold image.
  rewrite at_off_app_r by lia.
  replace (len (body E) + Z.of_nat i * 4 - len (body E)) with (Z.of_nat i * 4) by lia.
  destruct (restart_array_lookup E R i r (PutFixed32 (len R)) Hi) as [rest ->].
  rewrite GetFixed32_Put. f_equal. apply Z.mod_small.
  pose proof (off_of_body_lt E r (im_chain _ _ Hok) (im_restart _ _ Hok _ _ Hi)).
  pose proof (im_size _ _ Hok). lia.
Qed.

Lemma opened_KeyAtRestart b E R i r e :
  opened b E R → R !! i = Some r → E !! r = Some e →
  KeyAtRestart b (Z.of_nat i) = Some (e_key e).
Proof.
  intros Ho Hi He. pose proof (op_image _ _ _ Ho) as Hok.
  pose proof (im_chain _ _ Hok) as Hch.
  destruct (im_restart _ _ Hok _ _ Hi) as (e' & He' & Hs).
  assert (e' = e) as -> by congruence.
  unfold KeyAtRestart, kHeaderSize. rewrite (opened_restart_off _ _ _ _ _ Ho Hi).
  cbn [mbind option_bind]. rewrite (op_rao _ _ _ Ho), (op_data _ _ _ Ho).
  pose proof (off_of_lt _ _ _ Hch He).
  rewrite (proj2 (Z.ltb_ge _ _)) by lia.
  destruct (image_fields E R r e Hch He) as (_ & -> & _ & F4 & _).
  cbn [mbind option_bind]. by rewrite F4, Hs.
Qed.

Lemma seek_restart_spec b E R target fuel left right :
  opened b E R → (left ≤ right < length R)%nat → (right - left < fuel)%nat →
  (left = 0%nat ∨ ∃ r e, R !! left = Some r ∧ E !! r = Some e ∧
                         InternalKeyComparator (e_key e) target = true) →
  ∃ left', seek_restart b target fuel (Z.of_nat left) (Z.of_nat right) = Some (Z.of_nat left') ∧
    (left' < length R)%nat ∧
    (left' = 0%nat ∨ ∃ r e, R !! left' = Some r ∧ E !! r = Some e ∧
                            InternalKeyComparator (e_key e) target = true).
Proof.
  intros Ho. revert left right.
  induction fuel as [|fuel IH]; intros left right Hlr Hf HP; [lia|].
  cbn [seek_restart]. destruct (Z.ltb_spec (Z.of_nat left) (Z.of_nat right)).
  2:{ exists left. split_and!; [done|lia|done]. }
  pose proof (seek_mid (Z.of_nat left) (Z.of_nat right) ltac:(lia)) as Hm.
  remember ((Z.of_nat left + Z.of_nat right + 1) / 2) as mid eqn:Em. clear Em.
  replace mid with (Z.of_nat (Z.to_nat mid)) by lia.
  destruct (lookup_lt_is_Some_2 R (Z.to_nat mid)) as [r Hr]; [lia|].
  destruct (im_restart _ _ (op_image _ _ _ Ho) _ _ Hr) as (e & He & _).
  rewrite (opened_KeyAtRestart _ _ _ _ _ _ Ho Hr He). cbn [mbind option_bind].
  case_match eqn:Hc.
  - apply IH; [lia|lia|]. right. by exists r, e.
  - replace (Z.of_nat (Z.to_nat mid) - 1) with (Z.of_nat (Z.to_nat mid - 1)) by lia.
    apply IH; [lia|lia|done].
Qed.

Lemma seek_scan_spec target fuel b E R j :
  opened b E R → (∀ e, E !! j = Some e → scratch_ok b e) →
  (j ≤ first_ge target (kv <$> E))%nat → (length E - j < fuel)%nat →
  ∃ b', seek_scan target fuel (off_of E j) b = Some b' ∧
        blk_at b' (kv <$> E) (first_ge target (kv <$> E)).
Proof.
  revert b j. induction fuel as [|fuel IH]; intros b j Ho Hs Hj Hf; [lia|].
  cbn [seek_scan]. rewrite (op_rao _ _ _ Ho).
  pose proof (op_image _ _ _ Ho) as Hok. pose proof (im_chain _ _ Hok) as Hch.
  pose proof (first_ge_le target (kv <$> E)) as Hle. rewrite length_fmap in Hle.
  destruct (E !! j) as [e|] eqn:He.
  - pose proof (off_of_lt _ _ _ Hch He). rewrite (proj2 (Z.ltb_lt _ _)) by lia.
    pose proof (lookup_lt_Some _ _ _ He).
    destruct (ParseEntry_decodes b E R j e) as (b' & -> & Hd); [done|done|by apply Hs|].
    cbn [mbind option_bind negb].
    pose proof (decoded_set_valid _ _ _ _ true Hd) as Hd'.
    pose proof (de_kv _ _ _ _ Hd') as Hkv. rewrite He in Hkv. injection Hkv as Hkv.
    assert ((kv <$> E) !! j = Some (kv e)) as Hl by (by rewrite list_lookup_fmap, He).
    unfold blk_key.
    replace (key_scratch_ (set_valid true b')) with (e_key e) by (by rewrite Hkv).
    destruct (InternalKeyComparator (e_key e) target) eqn:Hc; cbn [negb].
    + rewrite (de_end _ _ _ _ Hd'). apply IH; [by eapply de_open| | |lia].
      * intros e' He'. by eapply decoded_scratch_ok.
      * destruct (decide (j = first_ge target (kv <$> E))) as [->|]; [|lia].
        apply first_ge_ge in Hl. simpl in Hl. congruence.
    + eexists; split; [done|]. exists E, R. split; [done|].
      destruct (decide (j = first_ge target (kv <$> E))) as [Hjj|].
      * rewrite <- Hjj. rewrite decide_True; [done|].
        by apply lookup_lt_Some in Hl.
      * pose proof (first_ge_lt target (kv <$> E) j (kv e) ltac:(lia) Hl). simpl in *. congruence.
  - apply lookup_ge_None in He. assert (j = length E) as -> by lia.
    rewrite off_of_length, Z.ltb_irrefl. eexists; split; [done|]. exists E, R.
    split; [done|]. rewrite decide_False by (rewrite length_fmap; lia).
    split; [done|]. by apply opened_set_valid.
Qed.

Lemma blk_Seek_at b es target :
  blk_open b es → keys_sorted es →
  ∃ b', blk_Seek b target = Some b' ∧ blk_at b' es (first_ge target es).
Proof.
  intros (E & R & Hkv & Ho) Hsort. pose proof (op_image _ _ _ Ho) as Hok.
  assert (0 < length R)%nat as HR by (by eapply lookup_lt_Some, im_first).
  unfold blk_Seek. rewrite (op_fine _ _ _ Ho), (op_num _ _ _ Ho).
  destruct (seek_restart_spec b E R target (Z.to_nat (len R)) 0 (length R - 1)) as (l & Hl & Hlt & HP);
    [done|lia|rewrite len_to_nat; lia|by left|].
  replace (len R - 1) with (Z.of_nat (length R - 1)) by (unfold len; lia).
  change (Z.of_nat 0) with 0 in Hl. rewrite Hl. cbn [mbind option_bind].
  destruct (lookup_lt_is_Some_2 R l Hlt) as [r Hr].
  rewrite (opened_restart_off _ _ _ _ _ Ho Hr). cbn [mbind option_bind].
  pose proof (im_restart _ _ Hok _ _ Hr) as Hres. destruct (Hres) as (e & He & _).
  rewrite <- Hkv. eapply (seek_scan_spec _ _ _ E R r).
  - by apply opened_set_valid.
  - intros e' He'. by eapply restart_scratch_ok.
  - apply lookup_lt_Some in He as Hlen.
    apply first_ge_skip; [|rewrite length_fmap; lia]. rewrite Hkv.
    intros i p Hi Hp. destruct HP as [->|(r' & e' & Hr' & He' & Hc)].
    { rewrite (im_first _ _ Hok) in Hr. injection Hr as <-. lia. }
    assert (r' = r) as -> by congruence. assert (e' = e) as -> by congruence.
    eapply sw_trans; [|exact Hc].
    apply (sorted_by_lookup entry_less es i r p (kv e)); [done|done|done|].
    by rewrite <- Hkv, list_lookup_fmap, He.
  - pose proof (body_length_ge E).
    rewrite (op_data _ _ _ Ho). unfold image. rewrite length_app. lia.
Qed.

(** ** The builder produces such an image *)

Record bb_inv (b : BlockBuilder) (E : list entry) (R : list nat) : Prop := {
  bi_buffer : buffer_ b = body E;
  bi_restarts : restarts_ b = off_of E <$> R;
  bi_chain : chain [] E;
  bi_last : last_key_ b = default [] (e_key <$> list.last E);
  bi_first : R !! 0%nat = Some 0%nat;
  bi_R : ∀ i r, R !! i = Some r → E ≠ [] → is_restart E r;
  bi_R_nil : E = [] → R = [0%nat] ∧ counter_ b = 0;
  bi_length : (length R ≤ 1 + length E)%nat
}.

Lemma new_BlockBuilder_inv ri : bb_inv (new_BlockBuilder ri) [] [0%nat].
Proof. split; try done. Qed.

Lemma shared_prefix_spec a k :
  0 ≤ shared_prefix a k ≤ len k ∧ shared_prefix a k ≤ len a ∧
  slice 0 (shared_prefix a k) a = slice 0 (shared_prefix a k) k.
Proof.
  revert k. induction a as [|x a IH]; intros [|y k]; cbn [shared_prefix];
    try (split_and!; [slia..|done]).
  destruct (decide (x = y)) as [->|]; [|split_and!; [slia..|done]].
  destruct (IH k) as (H1 & H2 & H3). split_and!; [slia..|].
  unfold slice in *. change (Z.to_nat 0) with 0%nat in *. rewrite !drop_0 in *.
  replace (Z.to_nat (1 + shared_prefix a k)) with (S (Z.to_nat (shared_prefix a k))) by lia.
  simpl. by rewrite H3.
Qed.

Lemma chain_snoc prev E e :
  chain prev E → follows (default prev (e_key <$> list.last E)) e → chain prev (E ++ [e]).
Proof.
  revert prev. induction E as [|e0 E IH]; intros prev; simpl; [done|].
  intros [H1 H2] Hf. split; [done|]. apply IH; [done|].
  destruct (list.last E) as [x|] eqn:HE.
  - by rewrite last_cons, HE in Hf.
  - apply last_None in HE as ->. exact Hf.
Qed.

Lemma is_restart_app E F r : is_restart E r → is_restart (E ++ F) r.
Proof.
  intros (e & He & Hs). exists e. split; [|done]. by apply lookup_app_l_Some.
Qed.

Lemma off_of_app E F r : (r ≤ length E)%nat → off_of (E ++ F) r = off_of E r.
Proof. intros. unfold off_of. by rewrite take_app_le. Qed.

Lemma bi_R_le b E R r : bb_inv b E R → r ∈ R → (r ≤ length E)%nat.
Proof.
  intros Hb [i Hi]%list_elem_of_lookup. destruct E as [|e E].
  - destruct (bi_R_nil _ _ _ Hb eq_refl) as [-> _].
    apply list_lookup_singleton_Some in Hi as [_ <-]. simpl; lia.
  - destruct (bi_R _ _ _ Hb i r Hi) as (e' & H%lookup_lt_Some & _); [done|lia].
Qed.

(** The entry [Add] appends and the restart point it records, if any. *)
Definition added_shared (b : BlockBuilder) (key : bytes) : Z :=
  if counter_ b <? restart_interval_ b then shared_prefix (last_key_ b) key else 0.

Lemma bb_Add_restarts b E R e i r :
  bb_inv b E R → 1 ≤ restart_interval_ b →
  (if counter_ b <? restart_interval_ b then R else R ++ [length E]) !! i = Some r →
  (if counter_ b <? restart_interval_ b then e_shared e = shared_prefix (last_key_ b) (e_key e)
   else e_shared e = 0) →
  is_restart (E ++ [e]) r.
Proof.
  intros Hb Hri Hi He. destruct E as [|e0 E].
  - destruct (bi_R_nil _ _ _ Hb eq_refl) as [-> Hc]. rewrite Hc in *.
    rewrite (proj2 (Z.ltb_lt _ _)) in Hi, He by lia.
    apply list_lookup_singleton_Some in Hi as [_ <-].
    exists e. split; [done|]. by rewrite He, (bi_last _ _ _ Hb).
  - pose proof (λ i Hi, bi_R _ _ _ Hb i r Hi ltac:(done)) as HR.
    case_match; [by eapply is_restart_app, HR|].
    apply lookup_app_Some in Hi as [Hi|[_ Hi]]; [by eapply is_restart_app, HR|].
    apply list_lookup_singleton_Some in Hi as [_ <-].
    exists e. split; [|done]. by rewrite lookup_app_r, Nat.sub_diag by lia.
Qed.

Lemma bb_Add_inv b E R key value :
  bb_inv b E R → 1 ≤ restart_interval_ b →
  len key < 2 ^ 32 → len value < 2 ^ 32 → len (buffer_ b) < 2 ^ 32 →
  ∃ R', bb_inv (bb_Add b key value) (E ++ [mkEntry (added_shared b key) key value]) R'.
Proof.
  intros Hb Hri Hk Hv Hbuf. pose proof (bi_buffer _ _ _ Hb) as Hbody.
  set (e := mkEntry (added_shared b key) key value).
  assert (0 ≤ e_shared e ≤ len key ∧ e_shared e ≤ len (last_key_ b) ∧
          slice 0 (e_shared e) (last_key_ b) = slice 0 (e_shared e) key) as (S1 & S2 & S3).
  { unfold e, added_shared. simpl. case_match; [apply shared_prefix_spec|]. split_and!; [slia..|done]. }
  assert (follows (last_key_ b) e) as Hfol by done.
  assert (PutFixed32 (u32 (e_shared e)) ++ PutFixed32 (u32 (len key - e_shared e))
          ++ PutFixed32 (u32 (len value)) ++ at_off (e_shared e) key ++ value = enc_entry e) as Henc.
  { unfold enc_entry. simpl e_key. simpl e_value. pose_len_nonneg. unfold u32.
    rewrite !Z.mod_small by lia. done. }
  assert (chain [] (E ++ [e])) as Hch.
  { apply chain_snoc; [apply Hb|]. by rewrite <- (bi_last _ _ _ Hb). }
  exists (if counter_ b <? restart_interval_ b then R else R ++ [length E]).
  assert (off_of E <$> R = off_of (E ++ [e]) <$> R) as Hoff.
  { apply list_fmap_ext. intros i r Hi. symmetry. apply off_of_app.
    apply list_elem_of_lookup_2 in Hi. by apply (bi_R_le b E R). }
  assert (buffer_ (bb_Add b key value) = body (E ++ [e])) as Hbuf'.
  { unfold bb_Add. rewrite body_app, body_cons, app_nil_r, <- Henc, <- Hbody.
    unfold e, added_shared. cbn [e_shared]. by destruct (_ <? _). }
  split; [done| |done| | | |by destruct E|].
  - unfold bb_Add. destruct (counter_ b <? restart_interval_ b); cbn [restarts_];
      rewrite (bi_restarts _ _ _ Hb), Hoff; [done|].
    rewrite fmap_app. f_equal. cbn. f_equal. unfold u32.
    rewrite off_of_app, off_of_length, Z.mod_small, Hbody; [done|slia|lia].
  - unfold bb_Add. rewrite last_snoc. by destruct (_ <? _).
  - pose proof (bi_first _ _ _ Hb). destruct (_ <? _); [done|]. by apply lookup_app_l_Some.
  - intros i r Hi _. apply (bb_Add_restarts b E R e i); [done..|].
    unfold e, added_shared. by destruct (_ <? _).
  - rewrite length_app. pose proof (bi_length _ _ _ Hb).
    destruct (_ <? _); rewrite ?length_app; simpl; lia.
Qed.

(** The entries added since the last [Reset]. *)
Definition bb_build (restart_interval : Z) (es : list (bytes * bytes)) : BlockBuilder :=
  foldl (λ b p, bb_Add b p.1 p.2) (new_BlockBuilder restart_interval) es.

Lemma bb_build_snoc ri es p : bb_build ri (es ++ [p]) = bb_Add (bb_build ri es) p.1 p.2.
Proof. unfold bb_build. by rewrite foldl_app. Qed.

Lemma bb_Add_interval b k v : restart_interval_ (bb_Add b k v) = restart_interval_ b.
Proof. unfold bb_Add. by destruct (_ <? _). Qed.

Lemma bb_build_interval ri es : restart_interval_ (bb_build ri es) = ri.
Proof.
  induction es as [|p es IH] using rev_ind; [done|].
  by rewrite bb_build_snoc, bb_Add_interval.
Qed.

(** [Add] grows the buffer by at least the header and the value. *)
Lemma bb_Add_grows b k v : len (buffer_ b) + 12 + len v ≤ len (buffer_ (bb_Add b k v)).
Proof. unfold bb_Add. destruct (_ <? _); cbn [buffer_]; slia. Qed.

Lemma bb_build_inv ri es :
  1 ≤ ri → (∀ p, p ∈ es → len p.1 < 2 ^ 32) → len (buffer_ (bb_build ri es)) < 2 ^ 32 →
  ∃ E R, bb_inv (bb_build ri es) E R ∧ kv <$> E = es.
Proof.
  intros Hri. induction es as [|p es IH] using rev_ind; intros Hk Hsz.
  { exists [], [0%nat]. split; [apply new_BlockBuilder_inv|done]. }
  rewrite bb_build_snoc in *. pose proof (bb_Add_grows (bb_build ri es) p.1 p.2).
  pose_len_nonneg. destruct IH as (E & R & Hinv & Hkv); [|lia|].
  { intros q Hq. apply Hk. set_solver. }
  destruct (bb_Add_inv _ E R p.1 p.2 Hinv) as [R' Hinv'];
    [by rewrite bb_build_interval|by apply Hk; set_solver|lia|lia|].
  do 2 eexists; split; [exact Hinv'|]. rewrite fmap_app, Hkv. by destruct p.
Qed.

Lemma bb_inv_image b E R :
  bb_inv b E R → E ≠ [] → len (buffer_ b) < 2 ^ 32 →
  image_ok E R ∧ (bb_Finish b).1 = image E R.
Proof.
  intros Hb HE Hsz. rewrite (bi_buffer _ _ _ Hb) in Hsz.
  pose proof (bi_length _ _ _ Hb). pose proof (body_length_ge E).
  assert (len R * 4 < 2 ^ 32) as HR by (unfold len in *; lia).
  split.
  - split; [apply Hb| |apply Hb|done|done]. intros i r Hi. by eapply bi_R.
  - unfold bb_Finish, image, restart_array. simpl.
    rewrite (bi_buffer _ _ _ Hb), (bi_restarts _ _ _ Hb), len_fmap. unfold u32.
    rewrite Z.mod_small; [done|]. pose_len_nonneg. lia.
Qed.

Lemma bb_build_image ri es :
  1 ≤ ri → es ≠ [] → (∀ p, p ∈ es → len p.1 < 2 ^ 32) →
  len (buffer_ (bb_build ri es)) < 2 ^ 32 → is_image (bb_Finish (bb_build ri es)).1 es.
Proof.
  intros Hri Hne Hk Hsz. destruct (bb_build_inv ri es) as (E & R & Hinv & Hkv); [done..|].
  destruct (bb_inv_image _ _ _ Hinv) as [Hok Himg]; [|done|by exists E, R].
  intros ->. by subst es.
Qed.

Lemma bb_build_empty ri es : bb_empty (bb_build ri es) = bool_decide (es = []).
Proof.
  induction es as [|p es _] using rev_ind; [done|].
  rewrite bool_decide_eq_false_2 by (by destruct es). rewrite bb_build_snoc.
  assert (0 ≤ counter_ (bb_build ri es)) as Hc.
  { induction es as [|q es IH] using rev_ind; [done|]. rewrite bb_build_snoc.
    unfold bb_Add. destruct (_ <? _); simpl; lia. }
  unfold bb_empty, bb_Add. apply Z.eqb_neq. destruct (_ <? _); simpl; lia.
Qed.

(** ** Opening a finished block *)

Lemma check_restarts_true data rao i n :
  0 ≤ i → (i + Z.of_nat n) * 4 < 2 ^ 32 →
  (∀ k, i ≤ k < i + Z.of_nat n →
        ∃ off, GetFixed32 (at_off (rao + k * 4) data) = Some off ∧ off < rao) →
  check_restarts data rao i n = Some true.
Proof.
  revert i. induction n as [|n IH]; intros i Hi Hn Hall; [done|]. cbn [check_restarts].
  unfold u32. rewrite Z.mod_small by lia.
  destruct (Hall i ltac:(lia)) as (off & -> & Hlt). cbn [mbind option_bind].
  rewrite (proj2 (Z.leb_gt _ _)) by lia. apply IH; [lia|lia|].
  intros k Hk. apply Hall. lia.
Qed.

Lemma new_Block_open contents es :
  is_image contents es → ∃ b, new_Block contents = Some b ∧ blk_open b es.
Proof.
  intros (E & R & Hok & Hkv & ->).
  pose proof (im_count _ _ Hok). pose proof (im_size _ _ Hok).
  assert (1 ≤ len R) as HR.
  { pose proof (lookup_lt_Some _ _ _ (im_first _ _ Hok)). unfold len. lia. }
  assert (len (image E R) = len (body E) + (len R + 1) * 4) as Hlen.
  { unfold image. rewrite !len_app, len_restart_array, len_PutFixed32. lia. }
  set (b := mkBlock (image E R) (len (body E)) (len R) false false [] [] 0).
  assert (opened b E R) as Ho by done.
  exists b. split; [|by exists E, R]. unfold new_Block.
  pose_len_nonneg. rewrite (proj2 (Z.ltb_ge _ _)) by lia.
  assert (GetFixed32 (at_off (len (image E R) - 4) (image E R)) = Some (len R)) as ->.
  { unfold image at 2. rewrite app_assoc, at_off_app, <- (app_nil_r (PutFixed32 _)).
    - rewrite GetFixed32_Put. f_equal. apply Z.mod_small. lia.
    - rewrite Hlen, len_app, len_restart_array. lia. }
  cbn [mbind option_bind]. unfold u64. rewrite Z.mod_small by lia.
  rewrite (proj2 (Z.ltb_ge _ _)) by lia. rewrite (proj2 (Z.eqb_neq _ _)) by lia. cbn [orb].
  replace (len (image E R) - (len R + 1) * 4) with (len (body E)) by lia.
  rewrite check_restarts_true; [done|lia|rewrite len_to_nat; unfold len in *; lia|].
  intros k Hk. rewrite len_to_nat in Hk.
  destruct (lookup_lt_is_Some_2 R (Z.to_nat k)) as [r Hr]; [lia|].
  pose proof (opened_restart_off b E R _ _ Ho Hr) as Hoff. simpl in Hoff.
  rewrite Z2Nat.id in Hoff by lia. eexists; split; [done|].
  apply (off_of_body_lt E r (im_chain _ _ Hok)). by eapply im_restart.
Qed.

(** ** Main theorems *)

Inductive blk_op := OpSeekToFirst | OpSeek (target : bytes) | OpNext.

Definition blk_step (b : Block) (o : blk_op) : option Block :=
  match o with
  | OpSeekToFirst => blk_SeekToFirst b
  | OpSeek target => blk_Seek b target
  | OpNext => blk_Next b
  end.

Fixpoint blk_run (b : Block) (ops : list blk_op) : option Block :=
  match ops with
  | [] => Some b
  | o :: ops => b' ← blk_step b o; blk_run b' ops
  end.

Lemma blk_run_safe b ops : blk_safe b → is_Some (blk_run b ops).
Proof.
  revert b. induction ops as [|o ops IH]; intros b Hb; cbn [blk_run]; [by eexists|].
  assert (∃ b', blk_step b o = Some b' ∧ blk_safe b') as (b' & -> & Hb').
  { destruct o; cbn [blk_step];
      [by apply blk_SeekToFirst_safe|by apply blk_Seek_safe|by apply blk_Next_safe]. }
  by apply IH.
Qed.

(** C16: the block decoder is memory safe and terminates on arbitrary bytes:
    whatever the contents of a block, constructing the decoder and running
    any sequence of SeekToFirst, Seek and Next on it never reads outside the
    block and every loop ends. *)
Theorem block_decoder_safe (contents : bytes) (ops : list blk_op) :
  len contents < 2 ^ 64 →
  ∃ b, new_Block contents = Some b ∧ is_Some (blk_run b ops).
Proof.
  intros Hl. destruct (new_Block_safe_aux contents Hl) as (b & Hb & Hs & _).
  exists b. split; [done|]. by apply blk_run_safe.
Qed.

Lemma block_decoder_safe_witness :
  ∃ b, new_Block (PutFixed32 7 ++ PutFixed32 1) = Some b ∧
       is_Some (blk_run b [OpSeekToFirst; OpNext; OpSeek [Byte.x61]; OpNext]).
Proof.
  apply (block_decoder_safe (PutFixed32 7 ++ PutFixed32 1)
           [OpSeekToFirst; OpNext; OpSeek [Byte.x61]; OpNext]).
  vm_compute. reflexivity.
Defined.

(** C15: a block round trip: the entries added to a builder, in any order and
    with any restart interval, are exactly the entries a decoder opened on the
    finished block walks over from SeekToFirst. *)
Theorem block_roundtrip (restart_interval : Z) (es : list (bytes * bytes)) :
  1 ≤ restart_interval → es ≠ [] → (∀ p, p ∈ es → len p.1 < 2 ^ 32) →
  len (buffer_ (bb_build restart_interval es)) < 2 ^ 32 →
  ∃ b b', new_Block (bb_Finish (bb_build restart_interval es)).1 = Some b ∧
    blk_SeekToFirst b = Some b' ∧ blk_collect (S (length es)) b' = Some es.
Proof.
  intros Hri Hne Hk Hsz.
  destruct (new_Block_open _ es (bb_build_image _ es Hri Hne Hk Hsz)) as (b & Hb & Ho).
  destruct (blk_SeekToFirst_at b es Ho) as (b' & Hb' & Hat).
  exists b, b'. split_and!; [done|done|]. rewrite (blk_collect_at b' es 0); [done|done|lia].
Qed.

Definition sample_entries : list (bytes * bytes) :=
  [(EncodeInternalKey [Byte.x61] 9 1, [Byte.x31]); (EncodeInternalKey [Byte.x61] 4 0, []);
   (EncodeInternalKey [Byte.x61; Byte.x62] 7 1, [Byte.x32; Byte.x33]);
   (EncodeInternalKey [Byte.x63] 1 1, [Byte.x34])].

Lemma block_roundtrip_witness :
  ∃ b b', new_Block (bb_Finish (bb_build 2 sample_entries)).1 = Some b ∧
    blk_SeekToFirst b = Some b' ∧ blk_collect 5 b' = Some sample_entries.
Proof.
  apply (block_roundtrip 2 sample_entries); [lia|done| |vm_compute; reflexivity].
  intros p Hp. unfold sample_entries in Hp. rewrite !elem_of_cons in Hp.
  destruct Hp as [->|[->|[->|[->|Hp]]]]; [vm_compute; reflexivity..|by apply not_elem_of_nil in Hp].
Defined.

(** C14: Seek finds its target: on a finished block whose keys are in internal
    key order, Seek leaves the decoder on the first entry whose key is not
    below the target, so that the entries walked from there are exactly the
    suffix of the block at or after the target, and reports no corruption. *)
Theorem block_seek_first_ge (restart_interval : Z) (es : list (bytes * bytes)) (target : bytes) :
  1 ≤ restart_interval → es ≠ [] → (∀ p, p ∈ es → len p.1 < 2 ^ 32) →
  len (buffer_ (bb_build restart_interval es)) < 2 ^ 32 → keys_sorted es →
  ∃ b b', new_Block (bb_Finish (bb_build restart_interval es)).1 = Some b ∧
    blk_Seek b target = Some b' ∧ corrupted_ b' = false ∧
    blk_collect (S (length es)) b'
    = Some (filter (λ p, InternalKeyComparator p.1 target = false) es).
Proof.
  intros Hri Hne Hk Hsz Hs.
  destruct (new_Block_open _ es (bb_build_image _ es Hri Hne Hk Hsz)) as (b & Hb & Ho).
  destruct (blk_Seek_at b es target Ho Hs) as (b' & Hb' & Hat).
  exists b, b'. split_and!; [done|done|by eapply blk_open_fine, blk_at_open|].
  rewrite (blk_collect_at b' es _ _ Hat) by lia. f_equal. by apply first_ge_filter.
Qed.

Lemma block_seek_first_ge_witness :
  ∃ b b', new_Block (bb_Finish (bb_build 2 sample_entries)).1 = Some b ∧
    blk_Seek b (EncodeInternalKey [Byte.x61] 5 1) = Some b' ∧ corrupted_ b' = false ∧
    blk_collect 5 b'
    = Some (filter (λ p, InternalKeyComparator p.1 (EncodeInternalKey [Byte.x61] 5 1) = false)
              sample_entries).
Proof.
  apply (block_seek_first_ge 2 sample_entries); [lia|done| |vm_compute; reflexivity|].
  - intros p Hp. unfold sample_entries in Hp. rewrite !elem_of_cons in Hp.
    destruct Hp as [->|[->|[->|[->|Hp]]]]; [vm_compute; reflexivity..|by apply not_elem_of_nil in Hp].
  - apply keys_sorted_adjacent. vm_compute. reflexivity.
Defined.
