(* ===== verification/SSTable.v ===== *)
(** * Sorted tables

    Models include/bedrockkv/sstable.h and src/sstable.cpp: [Builder] (Add,
    FlushDataBlock, Finish), [Table] (Open, KeyMayMatchInBlock, Get) and
    [TableIterator].  A read outside the file is [None].  The theorems relate
    the three: what is added in order is what [Get] reads and what the iterator
    walks, and damage to the data is rejected by [Open]. *)

From S2P Require Import Prelude Status FsUtil Encoding Crc32 Bloom InternalKey Mvcc Iterator Block.

Module sst.

Definition kMagic : bytes := lit "BRKVSST1".
Definition kFooterSize : Z := 44.

Definition UserKeyOf (internal_key : bytes) : bytes :=
  if kTagSize <=? len internal_key then slice 0 (len internal_key - kTagSize) internal_key
  else internal_key.

Record TableOptions := mkTableOptions {
  block_size : Z;
  restart_interval : Z;
  bloom_bits_per_key : Z
}.

Definition default_TableOptions : TableOptions := mkTableOptions 4096 16 10.

Record FileMeta := mkFileMeta {
  file_number : Z;
  level : Z;
  smallest_seq : Z;
  largest_seq : Z;
  entry_count : Z;
  file_size : Z;
  smallest_key : bytes;
  largest_key : bytes
}.

(** ** Builder *)

Record Builder := mkBuilder {
  options_ : TableOptions;
  data_block_ : BlockBuilder;
  index_block_ : BlockBuilder;
  block_user_keys_ : list bytes;
  filters_ : bytes;
  filter_offsets_ : list Z;
  file_ : bytes;
  crc_ : Z;
  last_internal_key_ : bytes;
  has_last_key_ : bool;
  num_entries_ : Z;
  smallest_seq_ : Z;
  largest_seq_ : Z;
  smallest_user_key_ : bytes;
  largest_user_key_ : bytes
}.

Definition new_Builder (options : TableOptions) : Builder :=
  mkBuilder options (new_BlockBuilder (restart_interval options))
    (new_BlockBuilder (restart_interval options)) [] [] [] [] 0 [] false 0 0 0 [] [].

Definition ApproximateFileSize (b : Builder) : Z :=
  len (file_ b) + bb_CurrentSizeEstimate (data_block_ b).

Definition FlushDataBlock (b : Builder) : Builder :=
  if bb_empty (data_block_ b) then b
  else
    let '(block, data_block) := bb_Finish (data_block_ b) in
    let offset := len (file_ b) in
    let handle := PutFixed64 offset ++ PutFixed32 (u32 (len block)) in
    mkBuilder (options_ b) (bb_Reset data_block)
      (bb_Add (index_block_ b) (last_internal_key_ b) handle)
      []
      (filters_ b ++ BuildFilter (block_user_keys_ b) (bloom_bits_per_key (options_ b)))
      (filter_offsets_ b ++ [u32 (len (filters_ b))])
      (file_ b ++ block) (Crc32 block (crc_ b))
      (last_internal_key_ b) (has_last_key_ b) (num_entries_ b)
      (smallest_seq_ b) (largest_seq_ b) (smallest_user_key_ b) (largest_user_key_ b).

Definition Add (b : Builder) (user_key : bytes) (seq type : Z) (value : bytes) : Status * Builder :=
  let ik := EncodeInternalKey user_key seq type in
  if has_last_key_ b && negb (InternalKeyComparator (last_internal_key_ b) ik)
  then (InvalidArgument (lit "sstable entries must be strictly increasing"), b)
  else
    let '(smallest_user_key, smallest_seq, largest_seq) :=
      if negb (has_last_key_ b) then (user_key, seq, seq)
      else (smallest_user_key_ b, smallest_seq_ b, largest_seq_ b) in
    let b := mkBuilder (options_ b) (bb_Add (data_block_ b) ik value) (index_block_ b)
               (block_user_keys_ b ++ [user_key]) (filters_ b) (filter_offsets_ b)
               (file_ b) (crc_ b) ik true (num_entries_ b + 1)
               (Z.min smallest_seq seq) (Z.max largest_seq seq) smallest_user_key user_key in
    (Ok, if block_size (options_ b) <=? bb_CurrentSizeEstimate (data_block_ b)
         then FlushDataBlock b else b).

(** The whole file image, and the builder after it. *)
Definition finish_image (b : Builder) : bytes * Builder :=
  let b := FlushDataBlock b in
  let array_start := u32 (len (filters_ b)) in
  let filter_block := filters_ b ++ concat (PutFixed32 <$> filter_offsets_ b) ++ PutFixed32 array_start in
  let filter_offset := len (file_ b) in
  let crc := Crc32 filter_block (crc_ b) in
  let file := file_ b ++ filter_block in
  let '(index_block, index_builder) := bb_Finish (index_block_ b) in
  let index_offset := len file in
  let crc := Crc32 index_block crc in
  let file := file ++ index_block in
  let footer := PutFixed64 filter_offset ++ PutFixed32 (u32 (len filter_block))
                  ++ PutFixed64 index_offset ++ PutFixed32 (u32 (len index_block))
                  ++ PutFixed64 (num_entries_ b) ++ PutFixed32 crc ++ kMagic in
  let file := file ++ footer in
  (file, mkBuilder (options_ b) (data_block_ b) index_builder (block_user_keys_ b) (filters_ b)
           (filter_offsets_ b) file crc (last_internal_key_ b) (has_last_key_ b) (num_entries_ b)
           (smallest_seq_ b) (largest_seq_ b) (smallest_user_key_ b) (largest_user_key_ b)).

(** [meta] keeps the file number and level the caller gave it. *)
Definition Finish (env : write_env) (fs : files) (b : Builder) (path : bytes) (meta : FileMeta)
    : Status * files * FileMeta * Builder :=
  let '(file, b) := finish_image b in
  let meta := mkFileMeta (file_number meta) (level meta) (smallest_seq_ b) (largest_seq_ b)
                (num_entries_ b) (len file) (smallest_user_key_ b) (largest_user_key_ b) in
  let '(s, fs) := WriteFileDurable env fs path file in
  (s, fs, meta, b).

(** ** Table *)

Record IndexEntry := mkIndexEntry { ie_key : bytes; ie_offset : Z; ie_size : Z }.

Record Table := mkTable {
  t_file_number_ : Z;
  file_data_ : bytes;
  index_ : list IndexEntry;
  filter_block_ : bytes;
  t_smallest_user_key_ : bytes;
  t_largest_user_key_ : bytes;
  t_num_entries_ : Z
}.

(** The [while] loop over the index block. *)
Fixpoint load_index (fuel : nat) (footer_start : Z) (b : Block.Block) (index : list IndexEntry)
    : option (bytes + (Block.Block * list IndexEntry)) :=
  match fuel with
  | O => None
  | S fuel =>
      if valid_ b then
        let handle := blk_value b in
        if negb (len handle =? 12) then Some (inl (lit "index handle has wrong size"))
        else
          offset ← GetFixed64 handle;
          size ← GetFixed32 (at_off 8 handle);
          if (footer_start <? offset) || (footer_start <? u64 (offset + size))
          then Some (inl (lit "data block handle out of range"))
          else
            b' ← blk_Next b;
            load_index fuel footer_start b' (index ++ [mkIndexEntry (blk_key b) offset size])
      else Some (inr (b, index))
  end.

(** [Open] from the index block on: the message of [fail], or the table. *)
Definition load_table (file_number : Z) (data : bytes) (footer_start filter_offset filter_size
    index_offset index_size num_entries : Z) : option (bytes + Table) :=
  index_block ← new_Block (slice index_offset index_size data);
  if corrupted_ index_block then Some (inl (lit "index block corrupt"))
  else
    index_block ← blk_SeekToFirst index_block;
    loaded ← load_index (S (length data)) footer_start index_block [];
    match loaded with
    | inl msg => Some (inl msg)
    | inr (index_block, index) =>
        if corrupted_ index_block then Some (inl (lit "index block corrupt mid-scan"))
        else
          match head index, list.last index with
          | Some front, Some back =>
              first_block ← new_Block (slice (ie_offset front) (ie_size front) data);
              if corrupted_ first_block then Some (inl (lit "first data block corrupt"))
              else
                first_block ← blk_SeekToFirst first_block;
                if negb (valid_ first_block) then Some (inl (lit "first data block empty"))
                else
                  Some (inr (mkTable file_number data index (slice filter_offset filter_size data)
                    (UserKeyOf (blk_key first_block)) (UserKeyOf (ie_key back)) num_entries))
          | _, _ => Some (inl (lit "no data blocks"))
          end
    end.

(** [Open] once the file is in memory: the footer, its checks and the CRC. *)
Definition open_data (file_number : Z) (data : bytes) : option (bytes + Table) :=
  if len data <? kFooterSize then Some (inl (lit "file smaller than a footer"))
  else
    let footer_start := len data - kFooterSize in
    let f := at_off footer_start data in
    if negb (bytes_eqb (slice 36 8 f) kMagic) then Some (inl (lit "bad magic"))
    else
      filter_offset ← GetFixed64 f;
      filter_size ← GetFixed32 (at_off 8 f);
      index_offset ← GetFixed64 (at_off 12 f);
      index_size ← GetFixed32 (at_off 20 f);
      num_entries ← GetFixed64 (at_off 24 f);
      stored_crc ← GetFixed32 (at_off 32 f);
      if (footer_start <? filter_offset) || (footer_start <? u64 (filter_offset + filter_size))
         || (footer_start <? index_offset) || (footer_start <? u64 (index_offset + index_size))
      then Some (inl (lit "block handle out of range"))
      else if negb (Crc32 (slice 0 footer_start data) 0 =? stored_crc)
      then Some (inl (lit "whole-file CRC mismatch"))
      else load_table file_number data footer_start filter_offset filter_size
             index_offset index_size num_entries.

(** The status is [*status]; the table is the returned pointer. *)
Definition Open (sched : list io_outcome) (fs : files) (open_err : bytes) (file_number : Z) (path : bytes)
    : option (Status * option Table) :=
  '(data, s) ← ReadFileToString sched fs path open_err [];
  if negb (ok s) then Some (s, None)
  else
    r ← open_data file_number data;
    Some match r with
         | inl msg => (Corruption (lit "sstable " ++ path ++ lit ": " ++ msg), None)
         | inr t => (Ok, Some t)
         end.

(** [array_start + 4] is computed on 32 bits, the number of offsets on 64. *)
Definition KeyMayMatchInBlock (t : Table) (block_index : Z) (user_key : bytes) : option bool :=
  let fb := filter_block_ t in
  if len fb <? 4 then Some true
  else
    array_start ← GetFixed32 (at_off (len fb - 4) fb);
    if len fb <? u32 (array_start + 4) then Some true
    else
      let n := u64 (len fb - 4 - array_start) / 4 in
      if n <=? block_index then Some true
      else
        start ← GetFixed32 (at_off (array_start + block_index * 4) fb);
        end_ ← (if block_index + 1 <? n
                then GetFixed32 (at_off (array_start + (block_index + 1) * 4) fb)
                else Some array_start);
        if (end_ <? start) || (array_start <? end_) then Some true
        else KeyMayMatch (slice start (end_ - start) fb) user_key.

(** The result and, when the code sets it, [*status]. *)
Definition Get (t : Table) (user_key : bytes) (max_seq : Z) : option (Lookup * option Status) :=
  let corrupt what :=
    Some (kMissing, Some (Corruption (lit "sstable " ++ to_string (t_file_number_ t) ++ lit ": " ++ what))) in
  let target := user_key ++ PutFixed64 (target_tag max_seq) in
  let block_index := lower_bound (λ e, InternalKeyComparator (ie_key e) target) (index_ t) in
  match index_ t !! block_index with
  | None => Some (kMissing, None)
  | Some it =>
      may_match ← KeyMayMatchInBlock t (Z.of_nat block_index) user_key;
      if negb may_match then Some (kMissing, None)
      else
        block ← new_Block (slice (ie_offset it) (ie_size it) (file_data_ t));
        if corrupted_ block then corrupt (lit "data block corrupt")
        else
          block ← blk_Seek block target;
          if corrupted_ block then corrupt (lit "data block corrupt at seek")
          else if negb (valid_ block) then Some (kMissing, None)
          else
            let found := blk_key block in
            if (kTagSize <=? len found) && bytes_eqb (slice 0 (len found - kTagSize) found) user_key then
              tag ← GetFixed64 (at_off (len found - kTagSize) found);
              Some (if Z.land tag 0xff =? kTypeValue then kFound (blk_value block) else kDeleted, None)
            else Some (kMissing, None)
  end.

(** ** TableIterator *)

Record TableIterator := mkTableIterator {
  table_ : Table;
  block_index_ : nat;
  block_ : Block.Block;
  ti_valid_ : bool;
  ti_corrupted_ : bool
}.

Definition NewIterator (t : Table) : option TableIterator :=
  b ← new_Block []; Some (mkTableIterator t 0 b false false).

Definition EnterBlock (i : TableIterator) (index : nat) (seek_first : bool) : option TableIterator :=
  e ← index_ (table_ i) !! index;
  b ← new_Block (slice (ie_offset e) (ie_size e) (file_data_ (table_ i)));
  if corrupted_ b then Some (mkTableIterator (table_ i) index b false true)
  else
    b ← (if seek_first then blk_SeekToFirst b else Some b);
    Some (mkTableIterator (table_ i) index b (valid_ b) (ti_corrupted_ i)).

Definition set_ti (b : Block.Block) (valid corrupted : bool) (i : TableIterator) : TableIterator :=
  mkTableIterator (table_ i) (block_index_ i) b valid corrupted.

Definition ti_SeekToFirst (i : TableIterator) : option TableIterator :=
  let i := set_ti (block_ i) (ti_valid_ i) false i in
  match index_ (table_ i) with
  | [] => Some (set_ti (block_ i) false false i)
  | _ => EnterBlock i 0 true
  end.

Definition ti_Seek (i : TableIterator) (target : bytes) : option TableIterator :=
  let i := set_ti (block_ i) (ti_valid_ i) false i in
  let n := lower_bound (λ e, InternalKeyComparator (ie_key e) target) (index_ (table_ i)) in
  if (length (index_ (table_ i)) <=? n)%nat then Some (set_ti (block_ i) false false i)
  else
    i ← EnterBlock i n false;
    if ti_corrupted_ i then Some i
    else
      b ← blk_Seek (block_ i) target;
      Some (set_ti b (valid_ b) (ti_corrupted_ i) i).

Definition ti_Next (i : TableIterator) : option TableIterator :=
  if negb (ti_valid_ i) then Some i
  else
    b ← blk_Next (block_ i);
    if corrupted_ b then Some (set_ti b false true i)
    else if valid_ b then Some (set_ti b (ti_valid_ i) (ti_corrupted_ i) i)
    else
      let i := set_ti b (ti_valid_ i) (ti_corrupted_ i) i in
      if (length (index_ (table_ i)) <=? block_index_ i + 1)%nat
      then Some (set_ti b false (ti_corrupted_ i) i)
      else EnterBlock i (block_index_ i + 1) true.

#[global] Instance TableIterator_iter : SortedIter TableIterator := {|
  iter_Valid := ti_valid_;
  iter_SeekToFirst := ti_SeekToFirst;
  iter_Seek := ti_Seek;
  iter_Next := ti_Next;
  iter_key i := blk_key (block_ i);
  iter_value i := blk_value (block_ i)
|}.

(** ** Runs cut into blocks *)

Definition last_key (b : list (bytes * bytes)) : bytes := default [] (fst <$> list.last b).

Definition user_keys (b : list (bytes * bytes)) : list bytes := (λ p, ExtractUserKey p.1) <$> b.

Lemma last_key_snoc b p : last_key (b ++ [p]) = p.1.
Proof. unfold last_key. by rewrite last_snoc. Qed.

Lemma last_key_elem b : b ≠ [] → ∃ p, p ∈ b ∧ last_key b = p.1.
Proof.
  destruct b as [|p b _] using rev_ind; [done|]. intros _. exists p.
  rewrite last_key_snoc. split; [|done]. apply elem_of_app. right. by apply list_elem_of_singleton.
Qed.

Lemma last_key_above b p :
  keys_sorted b → p ∈ b → InternalKeyComparator (last_key b) p.1 = false.
Proof.
  destruct b as [|q b _] using rev_ind; [by intros _ ?%not_elem_of_nil|].
  rewrite last_key_snoc. intros (_ & _ & H)%sorted_by_app [Hp|Hp]%elem_of_app.
  - apply (sw_asym _ p.1 q.1), (H p q Hp). by apply list_elem_of_singleton.
  - apply list_elem_of_singleton in Hp as ->. apply sw_irrefl.
Qed.

Lemma below_last b p target :
  keys_sorted b → p ∈ b → InternalKeyComparator (last_key b) target = true →
  InternalKeyComparator p.1 target = true.
Proof. intros Hs Hp Ht. apply (sw_le_lt_trans _ p.1 (last_key b)); [by apply last_key_above|done]. Qed.

Lemma concat_lookup {A} (bs : list (list A)) n b :
  bs !! n = Some b → concat bs = concat (take n bs) ++ b ++ concat (drop (S n) bs).
Proof.
  intros H. rewrite <- (take_drop_middle bs n b H) at 1. by rewrite concat_app.
Qed.

Lemma keys_sorted_block bs n b : keys_sorted (concat bs) → bs !! n = Some b → keys_sorted b.
Proof.
  intros Hs Hb. rewrite (concat_lookup _ _ _ Hb) in Hs.
  by apply sorted_by_app in Hs as (_ & (? & _)%sorted_by_app & _).
Qed.

Lemma blocks_ordered bs i j a b p q :
  keys_sorted (concat bs) → (i < j)%nat → bs !! i = Some a → bs !! j = Some b →
  p ∈ a → q ∈ b → entry_less p q = true.
Proof.
  intros Hs Hij Ha Hb Hp Hq. rewrite (concat_lookup _ _ _ Hb) in Hs.
  apply sorted_by_app in Hs as (_ & _ & Hs). apply Hs.
  - apply elem_of_concat. exists a. split; [|done]. apply list_elem_of_lookup. exists i.
    by rewrite lookup_take_lt.
  - apply elem_of_app. by left.
Qed.

(** [n] is the first block whose last key is not below [target]. *)
Definition target_block (target : bytes) (bs : list (list (bytes * bytes))) (n : nat) : Prop :=
  (∀ i b, (i < n)%nat → bs !! i = Some b → InternalKeyComparator (last_key b) target = true) ∧
  (∀ b, bs !! n = Some b → InternalKeyComparator (last_key b) target = false).

Lemma first_ge_app target a b :
  (∀ p, p ∈ a → InternalKeyComparator p.1 target = true) →
  first_ge target (a ++ b) = (length a + first_ge target b)%nat.
Proof.
  induction a as [|[k v] a IH]; intros H; [done|]. simpl.
  pose proof (H (k, v) (list_elem_of_here _ _)) as Hk. cbn [fst] in Hk. rewrite Hk.
  f_equal. apply IH. intros p Hp. apply H. by apply list_elem_of_further.
Qed.

Lemma first_ge_app_l target a b :
  (first_ge target a < length a)%nat → first_ge target (a ++ b) = first_ge target a.
Proof.
  induction a as [|[k v] a IH]; simpl; [lia|]. intros H.
  destruct (InternalKeyComparator k target); [|done]. f_equal. apply IH. lia.
Qed.

Lemma first_ge_in target b p :
  p ∈ b → InternalKeyComparator p.1 target = false → (first_ge target b < length b)%nat.
Proof.
  intros [i Hi]%list_elem_of_lookup Hp. destruct (le_lt_dec (first_ge target b) i).
  - apply lookup_lt_Some in Hi. lia.
  - rewrite (first_ge_lt _ _ _ _ l Hi) in Hp. done.
Qed.

Lemma before_target bs target n p :
  keys_sorted (concat bs) → target_block target bs n → p ∈ concat (take n bs) →
  InternalKeyComparator p.1 target = true.
Proof.
  intros Hs [Hlt _] (b & [i Hi]%list_elem_of_lookup & Hp)%elem_of_concat.
  apply lookup_take_Some in Hi as [Hi Hn].
  apply (below_last b); [by eapply keys_sorted_block|done|by eapply Hlt].
Qed.

Lemma first_ge_target_block bs target n b :
  keys_sorted (concat bs) → target_block target bs n → bs !! n = Some b → b ≠ [] →
  first_ge target (concat bs) = (length (concat (take n bs)) + first_ge target b)%nat ∧
  (first_ge target b < length b)%nat.
Proof.
  intros Hs Ht Hb Hne. assert (first_ge target b < length b)%nat as Hlt.
  { destruct (last_key_elem b Hne) as (p & Hp & E). apply (first_ge_in _ _ p Hp).
    rewrite <- E. by apply Ht. }
  split; [|done]. rewrite (concat_lookup _ _ _ Hb).
  rewrite first_ge_app by (intros p; by apply before_target). f_equal. by apply first_ge_app_l.
Qed.

Lemma first_ge_past_blocks bs target :
  keys_sorted (concat bs) → target_block target bs (length bs) →
  first_ge target (concat bs) = length (concat bs).
Proof.
  intros Hs Ht. rewrite <- (app_nil_r (concat bs)) at 1.
  rewrite first_ge_app; [simpl; lia|]. intros p Hp. apply (before_target _ _ _ _ Hs Ht).
  by rewrite firstn_all.
Qed.

(** ** What an open table holds *)

Definition block_ok (t : Table) (i : nat) (b : list (bytes * bytes)) : Prop :=
  b ≠ [] ∧
  ∃ e, index_ t !! i = Some e ∧ ie_key e = last_key b ∧
    is_image (slice (ie_offset e) (ie_size e) (file_data_ t)) b ∧
    ∀ k, ∃ m, KeyMayMatchInBlock t (Z.of_nat i) k = Some m ∧ (k ∈ user_keys b → m = true).

Record table_blocks (t : Table) (bs : list (list (bytes * bytes))) : Prop := {
  tb_length : length (index_ t) = length bs;
  tb_block : ∀ i b, bs !! i = Some b → block_ok t i b;
  tb_sorted : keys_sorted (concat bs);
  tb_wf : Forall wf_entry (concat bs)
}.

(** The table holds exactly the run [es]. *)
Definition table_repr (t : Table) (es : list (bytes * bytes)) : Prop :=
  ∃ bs, table_blocks t bs ∧ concat bs = es.

Section Blocks.
Context (t : Table) (bs : list (list (bytes * bytes))) (Htb : table_blocks t bs).

Lemma index_lookup i e :
  index_ t !! i = Some e → ∃ b, bs !! i = Some b ∧ b ≠ [] ∧ ie_key e = last_key b.
Proof.
  intros He. destruct (lookup_lt_is_Some_2 bs i) as [b Hb].
  { rewrite <- (tb_length _ _ Htb). by eapply lookup_lt_Some. }
  destruct (tb_block _ _ Htb i b Hb) as (Hne & e' & He' & Hk & _). exists b.
  split_and!; [done..|]. congruence.
Qed.

Lemma index_lower_bound target :
  let n := lower_bound (λ e, InternalKeyComparator (ie_key e) target) (index_ t) in
  (n ≤ length bs)%nat ∧ target_block target bs n.
Proof.
  destruct (lower_bound_spec (λ e, InternalKeyComparator (ie_key e) target) (index_ t))
    as (H1 & H2 & H3).
  - intros i j x y Hij (a & Ha & Hna & ->)%index_lookup (b & Hb & Hnb & ->)%index_lookup Hlt.
    destruct (last_key_elem a Hna) as (p & Hp & ->). destruct (last_key_elem b Hnb) as (q & Hq & E).
    rewrite E in Hlt. eapply sw_trans; [|exact Hlt].
    exact (blocks_ordered _ _ _ _ _ _ _ (tb_sorted _ _ Htb) Hij Ha Hb Hp Hq).
  - rewrite <- (tb_length _ _ Htb). split; [done|]. split.
    + intros i b Hi Hb. destruct (tb_block _ _ Htb i b Hb) as (_ & e & He & <- & _). by eapply H2.
    + intros b Hb. destruct (tb_block _ _ Htb _ b Hb) as (_ & e & He & <- & _). exact (H3 _ _ (Nat.le_refl _) He).
Qed.

Lemma concat_block_lookup n b o :
  bs !! n = Some b → (o < length b)%nat →
  concat bs !! (length (concat (take n bs)) + o)%nat = b !! o.
Proof.
  intros Hb Ho. rewrite (concat_lookup _ _ _ Hb), lookup_app_r by lia.
  rewrite lookup_app_l by lia. f_equal. lia.
Qed.

(** The found entry's bytes answer the lookup. *)
Lemma found_answer key p :
  wf_entry p →
  (if (kTagSize <=? len p.1) && bytes_eqb (slice 0 (len p.1 - kTagSize) p.1) key then
     tag ← GetFixed64 (at_off (len p.1 - kTagSize) p.1);
     Some (if Z.land tag 0xff =? kTypeValue then kFound p.2 else kDeleted, @None Status)
   else Some (kMissing, None))
  = Some (seek_answer key (Some p), None).
Proof.
  intros (v & Hv & ->). unfold seek_answer. rewrite version_of_entry_of by done.
  unfold entry_of, EncodeInternalKey, kTagSize. cbn [fst snd]. rewrite ExtractUserKey_app.
  set (tag := pack_tag _ _). autorewrite with len. pose_len_nonneg.
  rewrite (proj2 (Z.leb_le _ _)) by lia. replace (len (v_key v) + 8 - 8) with (len (v_key v)) by lia.
  rewrite slice_app_l, slice_full, at_off_app by lia. cbn [andb].
  destruct (bytes_eqb (v_key v) key); [|done].
  pose proof (GetFixed64_Put tag []) as E. rewrite app_nil_r in E. rewrite E. cbn [mbind option_bind].
  rewrite u64_small by (apply pack_tag_range; [apply Hv|by apply wf_type]).
  unfold tag. rewrite pack_tag_type; [done|apply Hv|by apply wf_type].
Qed.

Lemma Get_blocks key s :
  read_seq s → Get t key s = Some (read (version_of <$> concat bs) key s, None).
Proof.
  intros Hs. rewrite (read_seek _ _ _ (tb_sorted _ _ Htb) (tb_wf _ _ Htb) Hs).
  unfold Get. fold (seek_target key s). set (target := seek_target key s).
  destruct (index_lower_bound target) as [Hle Htg]. set (n := lower_bound _ _) in *.
  destruct (index_ t !! n) as [e|] eqn:He.
  2:{ assert (n = length bs) as Hn.
      { apply lookup_ge_None in He. rewrite (tb_length _ _ Htb) in He. lia. }
      rewrite Hn in Htg. rewrite (first_ge_past_blocks _ _ (tb_sorted _ _ Htb) Htg).
      by rewrite lookup_ge_None_2. }
  destruct (index_lookup _ _ He) as (b & Hb & Hne & _).
  destruct (first_ge_target_block _ _ _ _ (tb_sorted _ _ Htb) Htg Hb Hne) as [-> Hlt].
  rewrite (concat_block_lookup _ _ _ Hb Hlt).
  destruct (lookup_lt_is_Some_2 _ _ Hlt) as [p Hp]. rewrite Hp.
  assert (p ∈ b) as Hin by (apply list_elem_of_lookup; by eexists).
  destruct (tb_block _ _ Htb n b Hb) as (_ & e' & He' & _ & Him & Hf).
  assert (e' = e) as -> by congruence. destruct (Hf key) as (m & -> & Hm). cbn [mbind option_bind].
  destruct m; cbn [negb].
  2:{ unfold seek_answer. destruct (bytes_eqb _ key) eqn:E; [|done]. apply bytes_eqb_eq in E.
      exfalso. enough (false = true) by done. apply Hm, list_elem_of_fmap. by exists p. }
  destruct (new_Block_open _ _ Him) as (blk & -> & Hbo). cbn [mbind option_bind].
  rewrite (blk_open_fine _ _ Hbo).
  destruct (blk_Seek_at blk b target Hbo) as (blk' & -> & Hat).
  { eapply keys_sorted_block; [apply Htb|done]. }
  cbn [mbind option_bind]. rewrite (blk_open_fine _ _ (blk_at_open _ _ _ Hat)).
  destruct (blk_at_kv _ _ _ _ Hat Hp) as [-> <-]. cbn [negb].
  apply (found_answer key (blk_key blk', blk_value blk')).
  eapply Forall_forall; [apply Htb|]. apply elem_of_concat. exists b. split; [|done].
  apply list_elem_of_lookup. by eexists.
Qed.

End Blocks.

(** ** The iterator walks the run *)

Definition ti_open (i : TableIterator) (es : list (bytes * bytes)) : Prop := table_repr (table_ i) es.

(** On entry [o] of block [n]. *)
Definition ti_on (i : TableIterator) (bs : list (list (bytes * bytes))) (n o : nat) : Prop :=
  ti_valid_ i = true ∧ block_index_ i = n ∧
  ∃ b, bs !! n = Some b ∧ (o < length b)%nat ∧ blk_at (block_ i) b o.

Definition ti_at (i : TableIterator) (es : list (bytes * bytes)) (j : nat) : Prop :=
  ∃ bs, table_blocks (table_ i) bs ∧ concat bs = es ∧
    if decide (j < length es)%nat
    then ∃ n o, j = (length (concat (take n bs)) + o)%nat ∧ ti_on i bs n o
    else ti_valid_ i = false.

Section Walk.
Context (bs : list (list (bytes * bytes))).

Lemma block_position n b o :
  bs !! n = Some b → (o < length b)%nat →
  (length (concat (take n bs)) + o < length (concat bs))%nat.
Proof.
  intros Hb Ho. rewrite (concat_lookup _ _ _ Hb), !length_app. lia.
Qed.

Lemma ti_at_on i n o :
  table_blocks (table_ i) bs → ti_on i bs n o →
  ti_at i (concat bs) (length (concat (take n bs)) + o).
Proof.
  intros Htb Hon. exists bs. split_and!; [done..|].
  pose proof Hon as (_ & _ & b & Hb & Ho & _).
  rewrite decide_True by (by eapply block_position). eauto.
Qed.

Lemma ti_at_past i :
  table_blocks (table_ i) bs → ti_valid_ i = false → ti_at i (concat bs) (length (concat bs)).
Proof. intros. exists bs. split_and!; [done..|]. rewrite decide_False by lia. done. Qed.

Lemma EnterBlock_open i n b (seek_first : bool) :
  table_blocks (table_ i) bs → bs !! n = Some b →
  ∃ i', EnterBlock i n seek_first = Some i' ∧ table_ i' = table_ i ∧ block_index_ i' = n ∧
    ti_corrupted_ i' = ti_corrupted_ i ∧ blk_open (block_ i') b ∧
    (seek_first = true → ti_on i' bs n 0).
Proof.
  intros Htb Hb. destruct (tb_block _ _ Htb n b Hb) as (Hne & e & He & _ & Him & _).
  unfold EnterBlock. rewrite He. cbn [mbind option_bind].
  destruct (new_Block_open _ _ Him) as (blk & -> & Hbo). cbn [mbind option_bind].
  rewrite (blk_open_fine _ _ Hbo). destruct seek_first; cbn [mbind option_bind].
  - destruct (blk_SeekToFirst_at blk b Hbo) as (blk' & -> & Hat). cbn [mbind option_bind].
    destruct b as [|q b]; [done|].
    destruct (blk_at_kv _ _ 0 q Hat eq_refl) as [Hv _]. eexists. split; [done|].
    split_and!; [done..|by eapply blk_at_open|]. intros _. split_and!; [done..|].
    exists (q :: b). split_and!; [done|simpl; lia|done].
  - eexists. split; [done|]. by split_and!.
Qed.

Lemma ti_SeekToFirst_at i :
  table_blocks (table_ i) bs → ∃ i', ti_SeekToFirst i = Some i' ∧ ti_at i' (concat bs) 0.
Proof.
  intros Htb. unfold ti_SeekToFirst. pose proof (tb_length _ _ Htb) as Hl.
  cbn [set_ti table_ block_]. destruct bs as [|b bs'] eqn:Ebs.
  - apply nil_length_inv in Hl. rewrite Hl. eexists. split; [done|].
    exists []. by split_and!.
  - destruct (index_ (table_ i)) as [|e idx]; [done|]. rewrite <- Ebs in *.
    destruct (EnterBlock_open (set_ti (block_ i) (ti_valid_ i) false i) 0 b true)
      as (i' & -> & Ht & _ & _ & _ & Hon); [done|by subst bs|].
    exists i'. split; [done|]. specialize (Hon eq_refl).
    apply (ti_at_on i' 0 0); [|done]. by rewrite Ht.
Qed.

Lemma ti_Seek_at i target :
  table_blocks (table_ i) bs →
  ∃ i', ti_Seek i target = Some i' ∧ ti_at i' (concat bs) (first_ge target (concat bs)).
Proof.
  intros Htb. unfold ti_Seek. cbn [set_ti table_ block_].
  destruct (index_lower_bound _ _ Htb target) as [Hle Htg]. set (n := lower_bound _ _) in *.
  rewrite (tb_length _ _ Htb). destruct (Nat.leb_spec (length bs) n).
  - assert (n = length bs) as Hn by lia. rewrite Hn in Htg.
    rewrite (first_ge_past_blocks _ _ (tb_sorted _ _ Htb) Htg).
    eexists. split; [done|]. by apply ti_at_past.
  - destruct (lookup_lt_is_Some_2 bs n) as [b Hb]; [done|].
    destruct (tb_block _ _ Htb n b Hb) as (Hne & _).
    destruct (EnterBlock_open (set_ti (block_ i) (ti_valid_ i) false i) n b false)
      as (i' & -> & Ht & Hn & Hc & Hbo & _); [done..|].
    cbn [mbind option_bind]. rewrite Hc. cbn [ti_corrupted_].
    destruct (first_ge_target_block _ _ _ _ (tb_sorted _ _ Htb) Htg Hb Hne) as [-> Hlt].
    destruct (blk_Seek_at (block_ i') b target Hbo) as (blk & -> & Hat).
    { eapply keys_sorted_block; [apply Htb|done]. }
    eexists. split; [done|]. apply ti_at_on; [cbn; by rewrite Ht|].
    destruct (lookup_lt_is_Some_2 _ _ Hlt) as [p Hp].
    destruct (blk_at_kv _ _ _ _ Hat Hp) as [Hv _]. split_and!; [done..|]. by exists b.
Qed.

End Walk.

Lemma ti_Next_at i es j :
  ti_at i es j → (j < length es)%nat → ∃ i', ti_Next i = Some i' ∧ ti_at i' es (S j).
Proof.
  intros (bs & Htb & <- & Hj) Hlt. rewrite decide_True in Hj by done.
  destruct Hj as (n & o & -> & Hv & Hn & b & Hb & Ho & Hat).
  unfold ti_Next. rewrite Hv. cbn [negb].
  destruct (blk_Next_at _ _ _ Hat Ho) as (blk & -> & Hat'). cbn [mbind option_bind].
  rewrite (blk_open_fine _ _ (blk_at_open _ _ _ Hat')).
  destruct (decide (S o < length b)%nat) as [Hs|Hs].
  { destruct (lookup_lt_is_Some_2 _ _ Hs) as [p Hp].
    destruct (blk_at_kv _ _ _ _ Hat' Hp) as [-> _]. eexists. split; [done|].
    rewrite <- Nat.add_succ_r. apply ti_at_on; [done|]. split_and!; [done..|]. by exists b. }
  rewrite (blk_at_end _ _ _ Hat') by lia.
  assert (S (length (concat (take n bs)) + o) = length (concat (take (S n) bs)) + 0)%nat as ->.
  { rewrite (take_S_r _ _ _ Hb), concat_app, length_app. simpl. rewrite app_nil_r. lia. }
  cbn [set_ti table_ block_index_]. rewrite (tb_length _ _ Htb), Hn.
  replace (n + 1)%nat with (S n) by lia. destruct (Nat.leb_spec (length bs) (S n)) as [Hl|Hl].
  - eexists. split; [done|]. rewrite take_ge, Nat.add_0_r by done. by apply ti_at_past.
  - destruct (lookup_lt_is_Some_2 bs (S n)) as [c Hc]; [done|].
    destruct (EnterBlock_open bs (set_ti blk true (ti_corrupted_ i) i) (S n) c true)
      as (i' & -> & Ht & _ & _ & _ & Hon); [done..|].
    exists i'. split; [done|]. apply ti_at_on; [by rewrite Ht|by apply Hon].
Qed.

Lemma ti_at_entry i es j p :
  ti_at i es j → es !! j = Some p →
  ti_valid_ i = true ∧ (blk_key (block_ i), blk_value (block_ i)) = p.
Proof.
  intros (bs & Htb & <- & Hj) Hp.
  rewrite decide_True in Hj by (by eapply lookup_lt_Some).
  destruct Hj as (n & o & -> & Hv & _ & b & Hb & Ho & Hat). split; [done|].
  rewrite (concat_block_lookup _ _ _ _ Hb Ho) in Hp.
  by destruct (blk_at_kv _ _ _ _ Hat Hp).
Qed.

#[global] Instance TableIterator_laws : IterLaws TableIterator.
Proof.
  refine {| iter_open := ti_open; iter_at := ti_at |}.
  - intros i es (bs & Htb & <-). by apply ti_SeekToFirst_at.
  - intros i es target (bs & Htb & <-) _. by apply ti_Seek_at.
  - exact ti_Next_at.
  - exact ti_at_entry.
  - intros i es j (bs & _ & _ & H) Hj. by rewrite decide_False in H by lia.
  - intros i es j (bs & Htb & <- & _). by exists bs.
  - intros i es (bs & Htb & <-). apply Htb.
Defined.

(** ** The builder's invariant *)

(** Where each piece of a concatenation starts. *)
Fixpoint offsets (off : Z) (pieces : list bytes) : list Z :=
  match pieces with
  | [] => []
  | p :: pieces => off :: offsets (off + len p) pieces
  end.

Lemma offsets_snoc off ps p : offsets off (ps ++ [p]) = offsets off ps ++ [off + len (concat ps)].
Proof.
  revert off. induction ps as [|q ps IH]; intros off; simpl; [f_equal; slia|].
  f_equal. rewrite IH. f_equal. f_equal. slia.
Qed.

Lemma length_offsets off ps : length (offsets off ps) = length ps.
Proof. revert off. induction ps; intros off; simpl; [done|]. by f_equal. Qed.

Lemma offsets_lookup off (ps : list bytes) (i : nat) p :
  ps !! i = Some p → offsets off ps !! i = Some (off + len (concat (take i ps))).
Proof.
  revert off i. induction ps as [|q ps IH]; intros off [|i]; simpl; try done; intros H.
  - f_equal. slia.
  - rewrite (IH _ _ H). f_equal. slia.
Qed.

Lemma slice_piece (ps : list bytes) (i : nat) p rest :
  ps !! i = Some p → slice (len (concat (take i ps))) (len p) (concat ps ++ rest) = p.
Proof.
  intros H. rewrite (concat_lookup _ _ _ H), <- app_assoc, <- app_assoc.
  by apply slice_app_exact.
Qed.

Section Build.
Context (options : TableOptions).

Abbreviation ri := (restart_interval options).
Abbreviation bpk := (bloom_bits_per_key options).

Definition block_bytes (b : list (bytes * bytes)) : bytes := (bb_Finish (bb_build ri b)).1.
Definition block_filter (b : list (bytes * bytes)) : bytes := BuildFilter (user_keys b) bpk.

Definition blocks_file (bs : list (list (bytes * bytes))) : bytes := concat (block_bytes <$> bs).
Definition blocks_filters (bs : list (list (bytes * bytes))) : bytes := concat (block_filter <$> bs).

Definition handles (bs : list (list (bytes * bytes))) : list IndexEntry :=
  zip_with (λ b off, mkIndexEntry (last_key b) off (len (block_bytes b))) bs
    (offsets 0 (block_bytes <$> bs)).

Definition handle_entry (e : IndexEntry) : bytes * bytes :=
  (ie_key e, PutFixed64 (ie_offset e) ++ PutFixed32 (u32 (ie_size e))).

Definition seqs (es : list (bytes * bytes)) : list Z := v_seq ∘ version_of <$> es.

(** [bs] are sealed, [cur] is in the block being built. *)
Record building (b : Builder) (bs : list (list (bytes * bytes))) (cur : list (bytes * bytes)) : Prop := {
  bu_options : options_ b = options;
  bu_data : data_block_ b = bb_build ri cur;
  bu_index : index_block_ b = bb_build ri (handle_entry <$> handles bs);
  bu_keys : block_user_keys_ b = user_keys cur;
  bu_filters : filters_ b = blocks_filters bs;
  bu_foffs : filter_offsets_ b = u32 <$> offsets 0 (block_filter <$> bs);
  bu_file : file_ b = blocks_file bs;
  bu_crc : crc_ b = Crc32 (blocks_file bs) 0;
  bu_nonempty : Forall (λ c, c ≠ []) bs;
  bu_last : last_internal_key_ b = last_key (concat bs ++ cur);
  bu_has_last : has_last_key_ b = bool_decide (concat bs ++ cur ≠ []);
  bu_num : num_entries_ b = len (concat bs ++ cur);
  bu_smallest : smallest_user_key_ b = default [] (head (user_keys (concat bs ++ cur)));
  bu_largest : largest_user_key_ b = default [] (list.last (user_keys (concat bs ++ cur)));
  bu_seqs : Forall (λ s, smallest_seq_ b ≤ s ≤ largest_seq_ b) (seqs (concat bs ++ cur));
  bu_extremes : concat bs ++ cur ≠ [] → smallest_seq_ b ∈ seqs (concat bs ++ cur) ∧ largest_seq_ b ∈ seqs (concat bs ++ cur)
}.

Lemma building_new : building (new_Builder options) [] [].
Proof. by split. Qed.

Lemma handles_snoc bs b :
  handles (bs ++ [b])
  = handles bs ++ [mkIndexEntry (last_key b) (len (blocks_file bs)) (len (block_bytes b))].
Proof.
  unfold handles. rewrite fmap_app. cbn [fmap list_fmap].
  rewrite offsets_snoc, zip_with_app by (by rewrite length_offsets, length_fmap).
  done.
Qed.

Lemma blocks_file_snoc bs b : blocks_file (bs ++ [b]) = blocks_file bs ++ block_bytes b.
Proof. unfold blocks_file. by rewrite fmap_app, concat_app; simpl; rewrite app_nil_r. Qed.

Lemma blocks_filters_snoc bs b : blocks_filters (bs ++ [b]) = blocks_filters bs ++ block_filter b.
Proof. unfold blocks_filters. by rewrite fmap_app, concat_app; simpl; rewrite app_nil_r. Qed.

Lemma last_key_app a b : b ≠ [] → last_key (a ++ b) = last_key b.
Proof.
  destruct b as [|p b _] using rev_ind; [done|]. by rewrite app_assoc, !last_key_snoc.
Qed.

Lemma FlushDataBlock_building b bs cur :
  building b bs cur →
  building (FlushDataBlock b) (if decide (cur = []) then bs else bs ++ [cur]) [].
Proof.
  intros Hb. unfold FlushDataBlock. rewrite (bu_data _ _ _ Hb), bb_build_empty.
  destruct (decide (cur = [])) as [->|Hne]; [by rewrite bool_decide_eq_true_2|].
  rewrite bool_decide_eq_false_2 by done.
  destruct Hb as [Hopt Hd Hi Hk Hf Hfo Hfi Hc Hn Hl Hh Hnum Hs1 Hs2 Hs3 Hs4].
  unfold bb_Finish. cbv zeta iota.
  assert (concat (bs ++ [cur]) ++ [] = concat bs ++ cur) as Hcat.
  { rewrite concat_app. simpl. by rewrite !app_nil_r. }
  split; cbn [options_ data_block_ index_block_ block_user_keys_ filters_ filter_offsets_ file_ crc_
              last_internal_key_ has_last_key_ num_entries_ smallest_seq_ largest_seq_
              smallest_user_key_ largest_user_key_]; try rewrite Hcat; try done.
  - unfold bb_Reset. cbn. by rewrite bb_build_interval.
  - rewrite handles_snoc, fmap_app. cbn [fmap list_fmap]. rewrite bb_build_snoc, <- Hi.
    unfold handle_entry. cbn [fst snd ie_key ie_offset ie_size].
    by rewrite Hfi, Hl, last_key_app by done.
  - by rewrite blocks_filters_snoc, Hf, Hk, Hopt.
  - rewrite fmap_app. cbn [fmap list_fmap]. rewrite offsets_snoc, fmap_app, Hfo, Hf.
    f_equal.
  - by rewrite blocks_file_snoc, Hfi.
  - by rewrite blocks_file_snoc, (Crc32_app (blocks_file bs)), Hc.
  - apply Forall_app. split; [done|]. by constructor.
Qed.

Lemma user_keys_snoc es v : wf_version v → user_keys (es ++ [entry_of v]) = user_keys es ++ [v_key v].
Proof.
  intros Hv. unfold user_keys. rewrite fmap_app. cbn [fmap list_fmap]. do 2 f_equal.
  exact (f_equal v_key (version_of_entry_of v Hv)).
Qed.

Lemma seqs_snoc es v : wf_version v → seqs (es ++ [entry_of v]) = seqs es ++ [v_seq v].
Proof.
  intros Hv. unfold seqs. rewrite fmap_app. cbn [fmap list_fmap]. do 2 f_equal.
  exact (f_equal v_seq (version_of_entry_of v Hv)).
Qed.

Lemma head_app_default {A} (d : A) l x :
  default d (head (l ++ [x])) = if bool_decide (l ≠ []) then default d (head l) else x.
Proof. destruct l; [done|]. by rewrite bool_decide_eq_true_2. Qed.

(** [Add] before the size test. *)
Definition push (b : Builder) (v : version) : Builder :=
  let first := negb (has_last_key_ b) in
  mkBuilder (options_ b) (bb_Add (data_block_ b) (entry_of v).1 (v_value v)) (index_block_ b)
    (block_user_keys_ b ++ [v_key v]) (filters_ b) (filter_offsets_ b) (file_ b) (crc_ b)
    (entry_of v).1 true (num_entries_ b + 1)
    (Z.min (if first then v_seq v else smallest_seq_ b) (v_seq v))
    (Z.max (if first then v_seq v else largest_seq_ b) (v_seq v))
    (if first then v_key v else smallest_user_key_ b) (v_key v).

Lemma push_building b bs cur v :
  building b bs cur → wf_version v → building (push b v) bs (cur ++ [entry_of v]).
Proof.
  intros [Hopt Hd Hi Hk Hf Hfo Hfi Hc Hn Hl Hh Hnum Hs1 Hs2 Hs3 Hs4] Hv.
  split; try done; cbn [push data_block_ block_user_keys_ last_internal_key_ has_last_key_ num_entries_
    smallest_user_key_ largest_user_key_ smallest_seq_ largest_seq_]; rewrite ?app_assoc.
  - by rewrite bb_build_snoc, Hd.
  - by rewrite user_keys_snoc, Hk.
  - by rewrite last_key_snoc.
  - symmetry. apply bool_decide_eq_true_2. by destruct (concat bs ++ cur).
  - rewrite len_app, Hnum. slia.
  - rewrite user_keys_snoc, head_app_default, Hh, <- Hs1 by done.
    destruct (concat bs ++ cur) as [|p es]; [done|]. by rewrite !bool_decide_eq_true_2.
  - by rewrite user_keys_snoc, last_snoc.
  - rewrite seqs_snoc by done. apply Forall_app. split; [|constructor; [|done]]; [|lia].
    rewrite Hh. destruct (concat bs ++ cur) as [|p es]; [done|].
    rewrite bool_decide_eq_true_2 by done. eapply Forall_impl; [exact Hs3|]. simpl. lia.
  - intros _. rewrite seqs_snoc, Hh by done. destruct (concat bs ++ cur) as [|p es] eqn:Ec.
    + cbn. rewrite Z.min_id, Z.max_id. split; apply list_elem_of_here.
    + rewrite bool_decide_eq_true_2 by done. cbn [negb]. destruct (Hs4 ltac:(done)) as [H1 H2].
      split; [destruct (Z.min_spec (smallest_seq_ b) (v_seq v)) as [[_ ->]|[_ ->]]|destruct (Z.max_spec (largest_seq_ b) (v_seq v)) as [[_ ->]|[_ ->]]];
        rewrite elem_of_app, list_elem_of_singleton; auto.
Qed.

(** The order [Add] asks for. *)
Definition may_follow (es : list (bytes * bytes)) (v : version) : bool :=
  bool_decide (es = []) || InternalKeyComparator (last_key es) (entry_of v).1.

Lemma Add_push b bs cur v :
  building b bs cur →
  Add b (v_key v) (v_seq v) (v_type v) (v_value v)
  = if may_follow (concat bs ++ cur) v
    then (Ok, let b' := push b v in
              if block_size options <=? bb_CurrentSizeEstimate (data_block_ b')
              then FlushDataBlock b' else b')
    else (InvalidArgument (lit "sstable entries must be strictly increasing"), b).
Proof.
  intros Hb. unfold Add, may_follow. fold (entry_of v).1.
  rewrite (bu_last _ _ _ Hb), (bu_has_last _ _ _ Hb).
  change (EncodeInternalKey (v_key v) (v_seq v) (v_type v)) with (entry_of v).1.
  assert (has_last_key_ b = negb (bool_decide (concat bs ++ cur = []))) as Hh.
  { rewrite (bu_has_last _ _ _ Hb). by destruct (concat bs ++ cur). }
  rewrite <- (bu_has_last _ _ _ Hb), Hh. unfold push. rewrite Hh. rewrite <- (bu_options _ _ _ Hb).
  destruct (bool_decide (concat bs ++ cur = [])), (InternalKeyComparator _ _); reflexivity.
Qed.

Lemma Add_building b bs cur v :
  building b bs cur → wf_version v → may_follow (concat bs ++ cur) v = true →
  ∃ b' bs' cur', Add b (v_key v) (v_seq v) (v_type v) (v_value v) = (Ok, b') ∧
    building b' bs' cur' ∧ concat bs' ++ cur' = (concat bs ++ cur) ++ [entry_of v].
Proof.
  intros Hb Hv Hf. rewrite (Add_push _ _ _ _ Hb), Hf. cbv zeta.
  pose proof (push_building _ _ _ _ Hb Hv) as Hp. destruct (_ <=? _).
  - pose proof (FlushDataBlock_building _ _ _ Hp) as Hfl.
    rewrite decide_False in Hfl by (by destruct cur). eexists _, _, _. split_and!; [done..|].
    rewrite concat_app. simpl. by rewrite !app_nil_r, app_assoc.
  - eexists _, _, _. split_and!; [done..|]. by rewrite app_assoc.
Qed.

(** A caller's loop: add every version, stop at the first refusal. *)
Fixpoint add_all (b : Builder) (vs : list version) : Status * Builder :=
  match vs with
  | [] => (Ok, b)
  | v :: vs =>
      let '(s, b') := Add b (v_key v) (v_seq v) (v_type v) (v_value v) in
      if ok s then add_all b' vs else (s, b')
  end.

Lemma keys_sorted_may_follow es v vs :
  keys_sorted (es ++ (entry_of <$> v :: vs)) → may_follow es v = true.
Proof.
  intros (_ & _ & H)%sorted_by_app. unfold may_follow.
  destruct (decide (es = [])) as [->|Hne]; [done|]. apply orb_true_iff. right.
  destruct (last_key_elem es Hne) as (p & Hp & ->). apply (H p (entry_of v) Hp).
  rewrite fmap_cons. apply list_elem_of_here.
Qed.

Lemma add_all_building b bs cur vs :
  building b bs cur → Forall wf_version vs →
  keys_sorted ((concat bs ++ cur) ++ (entry_of <$> vs)) →
  ∃ b' bs' cur', add_all b vs = (Ok, b') ∧ building b' bs' cur' ∧
    concat bs' ++ cur' = (concat bs ++ cur) ++ (entry_of <$> vs).
Proof.
  revert b bs cur. induction vs as [|v vs IH]; intros b bs cur Hb Hwf Hs; cbn [add_all].
  { exists b, bs, cur. by rewrite app_nil_r. }
  inversion_clear Hwf as [|? ? Hv Hvs].
  destruct (Add_building _ _ _ _ Hb Hv (keys_sorted_may_follow _ _ _ Hs))
    as (b1 & bs1 & cur1 & -> & Hb1 & Hcat). cbn [ok].
  rewrite fmap_cons in *.
  destruct (IH b1 bs1 cur1 Hb1 Hvs) as (b2 & bs2 & cur2 & Hr & Hb2 & Hcat2).
  { rewrite Hcat, <- app_assoc. exact Hs. }
  exists b2, bs2, cur2. split_and!; [done..|]. by rewrite Hcat2, Hcat, <- app_assoc.
Qed.

End Build.

(** ** Opening a finished file *)

Definition footer (filter_offset filter_size index_offset index_size num_entries crc : Z) : bytes :=
  PutFixed64 filter_offset ++ PutFixed32 filter_size ++ PutFixed64 index_offset
    ++ PutFixed32 index_size ++ PutFixed64 num_entries ++ PutFixed32 crc ++ kMagic.

Lemma len_footer fo fz io iz ne crc : len (footer fo fz io iz ne crc) = 44.
Proof. unfold footer. autorewrite with len. reflexivity. Qed.

Lemma footer_fields fo fz io iz ne crc :
  let f := footer fo fz io iz ne crc in
  GetFixed64 f = Some (u64 fo) ∧ GetFixed32 (at_off 8 f) = Some (u32 fz) ∧
  GetFixed64 (at_off 12 f) = Some (u64 io) ∧ GetFixed32 (at_off 20 f) = Some (u32 iz) ∧
  GetFixed64 (at_off 24 f) = Some (u64 ne) ∧ GetFixed32 (at_off 32 f) = Some (u32 crc) ∧
  slice 36 8 f = kMagic.
Proof.
  cbv zeta. unfold footer.
  assert (∀ (n : Z) (p q : bytes), len p ≤ n → at_off n (p ++ q) = at_off (n - len p) q) as E
    by (intros; by apply at_off_app_r).
  split_and!.
  - apply GetFixed64_Put.
  - rewrite !E by (autorewrite with len; lia). autorewrite with len. apply GetFixed32_Put.
  - do 2 rewrite E by (autorewrite with len; lia). autorewrite with len. apply GetFixed64_Put.
  - do 3 rewrite E by (autorewrite with len; lia). autorewrite with len. apply GetFixed32_Put.
  - do 4 rewrite E by (autorewrite with len; lia). autorewrite with len. apply GetFixed64_Put.
  - do 5 rewrite E by (autorewrite with len; lia). autorewrite with len. apply GetFixed32_Put.
  - rewrite !slice_app_r by (autorewrite with len; lia). autorewrite with len. reflexivity.
Qed.

(** What [open_data] does with a file that ends in a footer. *)
Lemma open_data_footer n body fo fz io iz ne crc :
  0 ≤ fo → 0 ≤ fz < 2 ^ 32 → 0 ≤ io → 0 ≤ iz < 2 ^ 32 → 0 ≤ ne < 2 ^ 64 → 0 ≤ crc < 2 ^ 32 →
  fo + fz ≤ len body → io + iz ≤ len body → len body < 2 ^ 63 →
  open_data n (body ++ footer fo fz io iz ne crc)
  = if Crc32 body 0 =? crc
    then load_table n (body ++ footer fo fz io iz ne crc) (len body) fo fz io iz ne
    else Some (inl (lit "whole-file CRC mismatch")).
Proof.
  intros. unfold open_data, kFooterSize. set (f := footer fo fz io iz ne crc).
  assert (len f = 44) as Hf by apply len_footer.
  rewrite len_app, Hf. pose_len_nonneg. rewrite (proj2 (Z.ltb_ge _ _)) by lia.
  replace (len body + 44 - 44) with (len body) by lia. rewrite (at_off_app body f _ eq_refl).
  pose proof (footer_fields fo fz io iz ne crc) as Hff. cbv zeta in Hff. fold f in Hff.
  destruct Hff as (-> & -> & -> & -> & -> & -> & ->).
  rewrite (proj2 (bytes_eqb_eq kMagic kMagic)) by done. cbn [negb mbind option_bind].
  unfold u64, u32. rewrite (Z.mod_small fo), (Z.mod_small fz), (Z.mod_small io), (Z.mod_small iz),
    (Z.mod_small ne), (Z.mod_small crc) by lia. rewrite !Z.mod_small by lia.
  rewrite !(proj2 (Z.ltb_ge _ _)) by lia. cbn [orb].
  rewrite slice_app_l, slice_full by lia. by destruct (Crc32 body 0 =? crc).
Qed.

(** The index loop collects the handles. *)
Lemma load_index_at fuel footer_start b hs j acc :
  (∀ e, e ∈ hs → 0 ≤ ie_offset e ∧ 0 ≤ ie_size e < 2 ^ 32 ∧
                 ie_offset e + ie_size e ≤ footer_start) →
  footer_start < 2 ^ 63 →
  blk_at b (handle_entry <$> hs) j → (length hs - j < fuel)%nat →
  ∃ b', load_index fuel footer_start b acc = Some (inr (b', acc ++ drop j hs)) ∧ corrupted_ b' = false.
Proof.
  intros Hr Hfs. revert b j acc. induction fuel as [|fuel IH]; intros b j acc Hb Hf; [lia|].
  cbn [load_index]. destruct (decide (j < length hs)%nat) as [Hj|Hj].
  - destruct (lookup_lt_is_Some_2 hs j Hj) as [e He].
    destruct (blk_at_kv b _ j (handle_entry e) Hb) as [-> Hkv].
    { by rewrite list_lookup_fmap, He. }
    pose proof (f_equal fst Hkv : blk_key b = ie_key e) as Hk.
    pose proof (f_equal snd Hkv : blk_value b = PutFixed64 (ie_offset e) ++ PutFixed32 (u32 (ie_size e)))
      as Hv. rewrite Hv.
    rewrite len_app, len_PutFixed64, len_PutFixed32. cbn [negb Z.eqb].
    change (negb (8 + 4 =? 12)) with false. cbv iota.
    destruct (Hr e) as (H1 & H2 & H3); [apply list_elem_of_lookup; by eexists|].
    rewrite GetFixed64_Put, at_off_app by done. cbn [mbind option_bind].
    pose proof (GetFixed32_Put (u32 (ie_size e)) []) as E. rewrite app_nil_r in E. rewrite E.
    cbn [mbind option_bind]. unfold u32, u64.
    rewrite !(Z.mod_small (ie_size e)), (Z.mod_small (ie_offset e)), Z.mod_small by lia.
    rewrite !(proj2 (Z.ltb_ge _ _)) by lia. cbn [orb].
    destruct (blk_Next_at _ _ _ Hb) as (b' & -> & Hb'); [by rewrite length_fmap|].
    cbn [mbind option_bind]. rewrite Hk.
    destruct (IH b' (S j) (acc ++ [e]) Hb') as (b'' & Hl & Hc); [lia|]. exists b''. split; [|done].
    replace (mkIndexEntry (ie_key e) (ie_offset e) (ie_size e)) with e by (by destruct e). rewrite Hl. by rewrite (drop_S _ _ _ He), <- app_assoc.
  - rewrite (blk_at_end _ _ _ Hb) by (rewrite length_fmap; lia). exists b.
    rewrite drop_ge, app_nil_r by lia. split; [done|].
    exact (blk_open_fine _ _ (blk_at_open _ _ _ Hb)).
Qed.

Section OpenImage.
Context (options : TableOptions) (bs : list (list (bytes * bytes))).

Definition filter_image : bytes :=
  blocks_filters options bs
    ++ concat (PutFixed32 <$> (u32 <$> offsets 0 (block_filter options <$> bs)))
    ++ PutFixed32 (u32 (len (blocks_filters options bs))).

Definition index_image : bytes :=
  (bb_Finish (bb_build (restart_interval options) (handle_entry <$> handles options bs))).1.

Definition body_image : bytes := (blocks_file options bs ++ filter_image) ++ index_image.

Definition table_image : bytes :=
  body_image ++ footer (len (blocks_file options bs)) (u32 (len filter_image))
    (len (blocks_file options bs ++ filter_image)) (u32 (len index_image))
    (len (concat bs)) (Crc32 body_image 0).

Lemma finish_image_sealed b :
  building options b bs [] →
  (finish_image b).1 = table_image ∧
  let b' := (finish_image b).2 in
  smallest_seq_ b' = smallest_seq_ b ∧ largest_seq_ b' = largest_seq_ b ∧
  num_entries_ b' = num_entries_ b ∧ smallest_user_key_ b' = smallest_user_key_ b ∧
  largest_user_key_ b' = largest_user_key_ b.
Proof.
  intros Hb. unfold finish_image.
  assert (FlushDataBlock b = b) as ->.
  { unfold FlushDataBlock. by rewrite (bu_data _ _ _ _ Hb), bb_build_empty. }
  pose proof (bu_index _ _ _ _ Hb) as Hi. pose proof (bu_num _ _ _ _ Hb) as Hn.
  rewrite app_nil_r in Hn.
  destruct (bb_Finish (index_block_ b)) as [index_block index_builder] eqn:Ei.
  assert (index_block = index_image) as -> by (unfold index_image; by rewrite <- Hi, Ei).
  rewrite (bu_filters _ _ _ _ Hb), (bu_foffs _ _ _ _ Hb), (bu_file _ _ _ _ Hb), (bu_crc _ _ _ _ Hb), Hn.
  fold filter_image. rewrite <- (Crc32_app (blocks_file options bs)), <- (Crc32_app (_ ++ _)).
  fold body_image. by split_and!.
Qed.

Context (Hri : 1 ≤ restart_interval options).
Context (Hbpk : 0 ≤ bloom_bits_per_key options < 2 ^ 31).
Context (Hbs : bs ≠ []) (Hne : Forall (λ c, c ≠ []) bs).
Context (Hkeys : Forall (λ p, len p.1 < 2 ^ 32) (concat bs)).
Context (Hsorted : keys_sorted (concat bs)) (Hwf : Forall wf_entry (concat bs)).
Context (Hsize : len table_image < 2 ^ 32).

Lemma image_sizes :
  0 ≤ len (blocks_file options bs) ∧ 0 ≤ len filter_image ∧ 0 ≤ len index_image ∧
  len body_image = len (blocks_file options bs) + len filter_image + len index_image ∧
  len body_image + 44 = len table_image.
Proof.
  unfold table_image. rewrite len_app, len_footer. unfold body_image. rewrite !len_app.
  pose_len_nonneg. pose proof (len_nonneg (blocks_file options bs)).
  pose proof (len_nonneg filter_image). pose proof (len_nonneg index_image). lia.
Qed.

Lemma len_concat_take_S (ps : list bytes) (i : nat) p :
  ps !! i = Some p → len (concat (take (S i) ps)) = len (concat (take i ps)) + len p.
Proof. intros H. rewrite (take_S_r _ _ _ H), concat_app, len_app. simpl. by rewrite app_nil_r. Qed.

Lemma len_concat_take_le (ps : list bytes) (i : nat) : len (concat (take i ps)) ≤ len (concat ps).
Proof.
  rewrite <- (take_drop i ps) at 2. rewrite concat_app, len_app. pose_len_nonneg. lia.
Qed.

Abbreviation filters := (block_filter options <$> bs).
Abbreviation F := (blocks_filters options bs).

Lemma len_filter_offsets : len (u32 <$> offsets 0 filters) = len bs.
Proof. unfold len. by rewrite length_fmap, length_offsets, length_fmap. Qed.

Lemma filter_image_size : len filter_image = len F + len bs * 4 + 4 ∧ len F < 2 ^ 32.
Proof.
  pose proof image_sizes. pose_len_nonneg. pose proof (len_nonneg F).
  assert (len filter_image = len F + len bs * 4 + 4) as E; [|lia].
  unfold filter_image. rewrite !len_app, len_fixed32_array, len_PutFixed32, len_filter_offsets. lia.
Qed.

Lemma filter_offset_reads (j : nat) p :
  filters !! j = Some p →
  GetFixed32 (at_off (len F + Z.of_nat j * 4) filter_image) = Some (len (concat (take j filters))).
Proof.
  intros Hj. unfold filter_image. erewrite GetFixed32_array.
  2:{ rewrite list_lookup_fmap, (offsets_lookup _ _ _ _ Hj). done. }
  pose proof filter_image_size. pose proof (len_concat_take_le filters j) as Hle.
  fold (blocks_filters options bs) in Hle. pose proof (len_nonneg (concat (take j filters))).
  unfold u32. rewrite Z.add_0_l. by rewrite !(Z.mod_small (len _)) by lia.
Qed.

Lemma filter_array_start :
  GetFixed32 (at_off (len filter_image - 4) filter_image) = Some (len F).
Proof.
  pose proof filter_image_size as [Hs ?]. pose proof (len_nonneg F). rewrite Hs.
  unfold filter_image. rewrite app_assoc, at_off_app.
  2:{ rewrite len_app, len_fixed32_array, len_filter_offsets. lia. }
  pose proof (GetFixed32_Put (u32 (len F)) []) as E. rewrite app_nil_r in E. rewrite E.
  unfold u32. by rewrite !(Z.mod_small (len F)) by lia.
Qed.

Lemma filter_block_reads t i b key :
  filter_block_ t = filter_image → bs !! i = Some b →
  KeyMayMatchInBlock t (Z.of_nat i) key = KeyMayMatch (block_filter options b) key.
Proof.
  intros Ht Hb. pose proof image_sizes as (? & ? & ? & ? & ?).
  pose proof filter_image_size as [Hlen HF]. pose proof (len_nonneg F).
  assert (filters !! i = Some (block_filter options b)) as Hp by (by rewrite list_lookup_fmap, Hb).
  pose proof (len_concat_take_S _ _ _ Hp) as Hend.
  pose proof (len_concat_take_le filters (S i)) as Hle. fold (blocks_filters options bs) in Hle.
  assert (Z.of_nat i < len bs) as Hi by (unfold len; apply lookup_lt_Some in Hb; lia).
  pose proof (len_nonneg (concat (take i filters))). pose proof (len_nonneg (block_filter options b)).
  unfold KeyMayMatchInBlock. rewrite Ht. rewrite (proj2 (Z.ltb_ge _ _)) by lia.
  rewrite filter_array_start. cbn [mbind option_bind].
  unfold u32, u64. rewrite !Z.mod_small by lia. rewrite (proj2 (Z.ltb_ge _ _)) by lia.
  replace ((len filter_image - 4 - len F) / 4) with (len bs)
    by (rewrite Hlen; Z.div_mod_to_equations; lia).
  rewrite (proj2 (Z.leb_gt _ _)) by lia. rewrite (filter_offset_reads i _ Hp). cbn [mbind option_bind].
  assert ((if Z.of_nat i + 1 <? len bs
           then GetFixed32 (at_off (len F + (Z.of_nat i + 1) * 4) filter_image) else Some (len F))
          = Some (len (concat (take (S i) filters)))) as ->.
  { destruct (Z.ltb_spec (Z.of_nat i + 1) (len bs)) as [Hlt|Hge].
    - destruct (lookup_lt_is_Some_2 filters (S i)) as [q Hq].
      { rewrite length_fmap. unfold len in Hlt. lia. }
      replace (Z.of_nat i + 1) with (Z.of_nat (S i)) by lia. by apply filter_offset_reads with q.
    - rewrite take_ge; [done|]. rewrite length_fmap. unfold len in Hge. lia. }
  cbn [mbind option_bind]. rewrite !(proj2 (Z.ltb_ge _ _)) by lia. cbn [orb].
  f_equal. rewrite Hend. unfold filter_image.
  replace (len (concat (take i filters)) + len (block_filter options b) - len (concat (take i filters)))
    with (len (block_filter options b)) by lia.
  unfold blocks_filters. by apply slice_piece.
Qed.

Abbreviation blocks := (block_bytes options <$> bs).

Lemma handles_lookup i b :
  bs !! i = Some b →
  handles options bs !! i
  = Some (mkIndexEntry (last_key b) (len (concat (take i blocks))) (len (block_bytes options b))).
Proof.
  intros Hb. unfold handles. rewrite lookup_zip_with, Hb. cbn [mbind option_bind].
  rewrite (offsets_lookup _ _ _ (block_bytes options b)); [done|]. by rewrite list_lookup_fmap, Hb.
Qed.

Lemma length_handles : length (handles options bs) = length bs.
Proof. unfold handles. rewrite length_zip_with, length_offsets, length_fmap. lia. Qed.

Lemma handles_inv e :
  e ∈ handles options bs → ∃ i b, bs !! i = Some b ∧
    e = mkIndexEntry (last_key b) (len (concat (take i blocks))) (len (block_bytes options b)).
Proof.
  intros [i Hi]%list_elem_of_lookup. destruct (lookup_lt_is_Some_2 bs i) as [b Hb].
  { rewrite <- length_handles. by eapply lookup_lt_Some. }
  exists i, b. split; [done|]. rewrite (handles_lookup _ _ Hb) in Hi. congruence.
Qed.

Lemma block_range i b :
  bs !! i = Some b →
  0 ≤ len (concat (take i blocks)) ∧ 0 ≤ len (block_bytes options b) < 2 ^ 32 ∧
  len (concat (take i blocks)) + len (block_bytes options b) ≤ len (blocks_file options bs).
Proof.
  intros Hb. pose proof image_sizes.
  assert (blocks !! i = Some (block_bytes options b)) as Hp by (by rewrite list_lookup_fmap, Hb).
  pose proof (len_concat_take_S _ _ _ Hp). pose proof (len_concat_take_le blocks (S i)) as Hle.
  fold (blocks_file options bs) in Hle.
  pose proof (len_nonneg (concat (take i blocks))). pose proof (len_nonneg (block_bytes options b)). lia.
Qed.

Lemma block_slice i b :
  bs !! i = Some b →
  slice (len (concat (take i blocks))) (len (block_bytes options b)) table_image = block_bytes options b.
Proof.
  intros Hb. unfold table_image, body_image. rewrite <- !app_assoc.
  apply slice_piece. by rewrite list_lookup_fmap, Hb.
Qed.

Lemma bb_build_len ri es : len es * 12 ≤ len (buffer_ (bb_build ri es)).
Proof.
  induction es as [|p es IH] using rev_ind; [done|]. rewrite bb_build_snoc.
  pose proof (bb_Add_grows (bb_build ri es) p.1 p.2). slia.
Qed.

Lemma bb_Finish_len b : len (buffer_ b) ≤ len (bb_Finish b).1.
Proof. unfold bb_Finish. cbn [fst]. rewrite len_app. pose_len_nonneg. lia. Qed.

Lemma in_block i b p : bs !! i = Some b → p ∈ b → p ∈ concat bs.
Proof. intros Hb Hp. apply elem_of_concat. exists b. split; [|done]. apply list_elem_of_lookup. eauto. Qed.

Lemma block_image i b : bs !! i = Some b → b ≠ [] ∧ is_image (block_bytes options b) b.
Proof.
  intros Hb. pose proof (block_range _ _ Hb) as (_ & Hr & _).
  assert (b ≠ []) as Hn by (rewrite Forall_lookup in Hne; eauto). split; [done|].
  apply bb_build_image; [done..| |].
  - intros p Hp. rewrite Forall_forall in Hkeys. apply Hkeys. by eapply in_block.
  - pose proof (bb_Finish_len (bb_build (restart_interval options) b)) as Hl.
    fold (block_bytes options b) in Hl. lia.
Qed.

Lemma index_is_image : is_image index_image (handle_entry <$> handles options bs).
Proof.
  pose proof image_sizes. apply bb_build_image; [done| | |].
  - intros E%(f_equal length). rewrite length_fmap, length_handles in E. by destruct bs.
  - intros q (e & -> & (i & b & Hb & ->)%handles_inv)%list_elem_of_fmap. cbn [fst handle_entry ie_key].
    destruct (block_image _ _ Hb) as [Hn _]. destruct (last_key_elem b Hn) as (p & Hp & ->).
    rewrite Forall_forall in Hkeys. apply Hkeys. by eapply in_block.
  - pose proof (bb_Finish_len (bb_build (restart_interval options) (handle_entry <$> handles options bs))) as Hl.
    fold index_image in Hl. lia.
Qed.

Lemma table_of_image n filter small large :
  filter = filter_image →
  table_blocks (mkTable n table_image (handles options bs) filter small large (len (concat bs))) bs.
Proof.
  intros ->. split; [apply length_handles| |done..].
  intros i b Hb. destruct (block_image _ _ Hb) as [Hn Him]. split; [done|].
  eexists. cbn [index_ file_data_]. rewrite (handles_lookup _ _ Hb). split; [done|].
  cbn [ie_key ie_offset ie_size]. split; [done|]. split.
  - by rewrite block_slice.
  - intros k. rewrite (filter_block_reads _ _ b) by done.
    destruct (KeyMayMatch_safe_aux (block_filter options b) k) as [m Hm]. exists m. split; [done|].
    intros Hk. unfold block_filter in Hm. rewrite BuildFilter_match_aux in Hm; [congruence| |done].
    pose proof (block_range _ _ Hb). pose proof (bb_build_len (restart_interval options) b).
    pose proof (bb_Finish_len (bb_build (restart_interval options) b)) as Hl.
    fold (block_bytes options b) in Hl. unfold user_keys. rewrite len_fmap. pose proof (len_nonneg b). nia.
Qed.

Lemma head_block b0 : head bs = Some b0 →
  ∃ p, head b0 = Some p ∧ head (user_keys (concat bs)) = Some (ExtractUserKey p.1).
Proof.
  clear Hbs Hkeys Hsorted Hwf Hsize. destruct bs as [|b bs']; [done|]. intros [= ->].
  inversion_clear Hne as [|? ? Hb _]. destruct b0 as [|p b0]; [done|]. by exists p.
Qed.

Lemma last_block b1 : list.last bs = Some b1 →
  list.last (user_keys (concat bs)) = Some (ExtractUserKey (last_key b1)).
Proof.
  clear Hbs Hkeys Hsorted Hwf Hsize. destruct bs as [|b bs' _] using rev_ind; [done|].
  rewrite last_snoc. intros [= ->]. apply Forall_app in Hne as [_ Hb]. inversion_clear Hb as [|? ? Hb1 _].
  destruct b1 as [|p b1 _] using rev_ind; [done|]. rewrite concat_app, last_key_snoc. simpl.
  rewrite app_nil_r, app_assoc. unfold user_keys. rewrite fmap_app. cbn [fmap list_fmap].
  by rewrite last_snoc.
Qed.

Lemma len_concat_blocks l : len (concat l) ≤ len (blocks_file options l).
Proof.
  induction l as [|b l IH]; [done|]. unfold blocks_file in *. rewrite fmap_cons. cbn [concat].
  rewrite !len_app. pose proof (bb_build_len (restart_interval options) b).
  pose proof (bb_Finish_len (bb_build (restart_interval options) b)) as Hl.
  fold (block_bytes options b) in Hl. pose_len_nonneg. lia.
Qed.

Lemma load_table_image n :
  load_table n table_image (len body_image) (len (blocks_file options bs)) (len filter_image)
    (len (blocks_file options bs ++ filter_image)) (len index_image) (len (concat bs))
  = Some (inr (mkTable n table_image (handles options bs) filter_image
                 (default [] (head (user_keys (concat bs)))) (default [] (list.last (user_keys (concat bs))))
                 (len (concat bs)))).
Proof.
  pose proof image_sizes as (? & ? & ? & Hbody & ?). unfold load_table.
  assert (slice (len (blocks_file options bs ++ filter_image)) (len index_image) table_image = index_image) as ->.
  { unfold table_image, body_image. rewrite <- (app_assoc (_ ++ _)). by apply slice_app_exact. }
  destruct (new_Block_open _ _ index_is_image) as (ib & -> & Hib). cbn [mbind option_bind].
  rewrite (blk_open_fine _ _ Hib). destruct (blk_SeekToFirst_at _ _ Hib) as (ib' & -> & Hat).
  cbn [mbind option_bind].
  destruct (load_index_at (S (length table_image)) (len body_image) ib' (handles options bs) 0 [])
    as (ib'' & -> & Hc); [| lia |done| |].
  { intros e (i & b & Hb & ->)%handles_inv. cbn [ie_offset ie_size]. pose proof (block_range _ _ Hb). lia. }
  { rewrite length_handles. pose proof filter_image_size. pose proof (len_nonneg F).
    assert (len bs < len table_image) as Hlt by lia. clear -Hlt. unfold len in Hlt. lia. }
  cbn [mbind option_bind app drop]. rewrite Hc.
  assert (slice (len (blocks_file options bs)) (len filter_image) table_image = filter_image) as ->.
  { unfold table_image, body_image. rewrite <- !app_assoc. by apply slice_app_exact. }
  destruct (head bs) as [b0|] eqn:E0; [|by destruct bs].
  destruct (list.last bs) as [b1|] eqn:E1; [|by apply last_None in E1].
  destruct (head_block _ E0) as (p0 & Hp0 & ->). rewrite (last_block _ E1).
  rewrite head_lookup in E0. rewrite head_lookup in Hp0. rewrite last_lookup in E1. rewrite drop_0, head_lookup, last_lookup, length_handles.
  rewrite (handles_lookup _ _ E0), (handles_lookup _ _ E1). cbn [ie_offset ie_size ie_key].
  rewrite block_slice by done.
  destruct (new_Block_open _ _ (proj2 (block_image _ _ E0))) as (fb & -> & Hfb). cbn [mbind option_bind].
  rewrite (blk_open_fine _ _ Hfb). destruct (blk_SeekToFirst_at _ _ Hfb) as (fb' & -> & Hfat).
  cbn [mbind option_bind]. destruct (blk_at_kv _ _ _ _ Hfat Hp0) as [-> <-]. done.
Qed.

Lemma open_table_image n :
  ∃ t, open_data n table_image = Some (inr t) ∧ table_blocks t bs ∧ t_file_number_ t = n ∧
    t_smallest_user_key_ t = default [] (head (user_keys (concat bs))) ∧
    t_largest_user_key_ t = default [] (list.last (user_keys (concat bs))) ∧
    t_num_entries_ t = len (concat bs) ∧ file_data_ t = table_image.
Proof.
  pose proof image_sizes as (? & ? & ? & Hbody & ?). pose proof (len_concat_blocks bs).
  pose proof (len_nonneg (concat bs)). eexists. split; [|split; [by apply table_of_image|done]].
  rewrite <- load_table_image.
  assert (table_image = body_image ++ footer (len (blocks_file options bs)) (len filter_image)
            (len (blocks_file options bs ++ filter_image)) (len index_image) (len (concat bs))
            (Crc32 body_image 0)) as E.
  { unfold table_image, u32. by rewrite !(Z.mod_small (len _)) by lia. }
  rewrite E at 1. rewrite open_data_footer; rewrite ?len_app; try lia; [|by apply Crc32_range_aux].
  rewrite Z.eqb_refl. by rewrite <- len_app, <- E.
Qed.

End OpenImage.

(** ** From the versions added to the opened table *)

Definition table_file (options : TableOptions) (vs : list version) : bytes :=
  (finish_image (add_all (new_Builder options) vs).2).1.

(** Options the format can express, and a table within its limits. *)
Definition options_ok (options : TableOptions) : Prop :=
  1 ≤ restart_interval options ∧ 0 ≤ bloom_bits_per_key options < 2 ^ 31.

Definition table_input (options : TableOptions) (vs : list version) : Prop :=
  options_ok options ∧ vs ≠ [] ∧ Forall wf_version vs ∧
  Forall (λ v, len (v_key v) < 2 ^ 32 - 8) vs ∧
  keys_sorted (entry_of <$> vs) ∧ len (table_file options vs) < 2 ^ 32.

Lemma versions_entries vs : Forall wf_version vs → version_of <$> (entry_of <$> vs) = vs.
Proof.
  intros H. induction H as [|v vs Hv _ IH]; [done|]. rewrite !fmap_cons, IH.
  by rewrite version_of_entry_of.
Qed.

Lemma finish_image_flush b : finish_image b = finish_image (FlushDataBlock b).
Proof.
  unfold finish_image. assert (FlushDataBlock (FlushDataBlock b) = FlushDataBlock b) as ->; [|done].
  unfold FlushDataBlock at 2 3. destruct (bb_empty (data_block_ b)) eqn:E; unfold FlushDataBlock; [by rewrite E|].
  done.
Qed.

Lemma table_file_blocks options vs :
  Forall wf_version vs → keys_sorted (entry_of <$> vs) →
  ∃ b bs, add_all (new_Builder options) vs = (Ok, b) ∧
    building options (FlushDataBlock b) bs [] ∧ concat bs = entry_of <$> vs ∧
    table_file options vs = table_image options bs.
Proof.
  intros Hwf Hs. destruct (add_all_building options _ _ _ vs (building_new options) Hwf Hs)
    as (b & bs & cur & Hadd & Hb & Hcat). simpl in Hcat.
  pose proof (FlushDataBlock_building _ _ _ _ Hb) as Hfl.
  exists b, (if decide (cur = []) then bs else bs ++ [cur]). split_and!; [done..| |].
  - rewrite <- Hcat. destruct (decide _) as [->|]; [by rewrite app_nil_r|].
    rewrite concat_app. simpl. by rewrite app_nil_r.
  - unfold table_file. rewrite Hadd. cbn [snd]. rewrite finish_image_flush.
    by apply finish_image_sealed.
Qed.

Lemma entries_wf vs : Forall wf_version vs → Forall wf_entry (entry_of <$> vs).
Proof. intros H. apply Forall_fmap. eapply Forall_impl; [exact H|]. intros v Hv. by exists v. Qed.

Lemma entries_keys vs :
  Forall (λ v, len (v_key v) < 2 ^ 32 - 8) vs → Forall (λ p, len p.1 < 2 ^ 32) (entry_of <$> vs).
Proof.
  intros H. apply Forall_fmap. eapply Forall_impl; [exact H|]. intros v Hv.
  change (len (v_key v ++ PutFixed64 (pack_tag (v_seq v) (v_type v))) < 2 ^ 32).
  rewrite len_app, len_PutFixed64. cbv beta in Hv. lia.
Qed.

Lemma open_table_file options vs n :
  table_input options vs →
  ∃ t, open_data n (table_file options vs) = Some (inr t) ∧ table_repr t (entry_of <$> vs) ∧
    t_file_number_ t = n ∧ head (v_key <$> vs) = Some (t_smallest_user_key_ t) ∧
    list.last (v_key <$> vs) = Some (t_largest_user_key_ t) ∧ t_num_entries_ t = len vs.
Proof.
  intros ((Hri & Hbpk) & Hne & Hwf & Hk & Hs & Hsz).
  destruct (table_file_blocks options vs Hwf Hs) as (b & bs & _ & Hb & Hcat & Hf).
  rewrite Hf in *. destruct (open_table_image options bs Hri Hbpk) with n
    as (t & Ho & Htb & Hn & Hsm & Hla & Hnum & _); try rewrite Hcat; try done.
  - intros E. rewrite E in Hcat. clear -Hne Hcat. by destruct vs.
  - apply (bu_nonempty _ _ _ _ Hb).
  - by apply entries_keys.
  - by apply entries_wf.
  - rewrite Hcat in *. assert (user_keys (entry_of <$> vs) = v_key <$> vs) as Hu.
    { rewrite <- (versions_entries vs Hwf) at 2. unfold user_keys. by rewrite <- !list_fmap_compose. }
    rewrite Hu in *. exists t. split_and!; [done|by exists bs|done| | |by rewrite Hnum, len_fmap].
    + rewrite Hsm. by destruct vs.
    + rewrite Hla. by destruct vs as [|v vs _] using rev_ind; [|rewrite fmap_app; cbn; rewrite last_snoc].
Qed.

(** [Finish] and [Open] through the file system. *)
Lemma finish_open env fs path meta sched open_err options vs n :
  table_input options vs →
  ∃ b, add_all (new_Builder options) vs = (Ok, b) ∧
    let '(st, fs', meta', _) := Finish env fs b path meta in
    (file_number meta' = file_number meta ∧ level meta' = level meta ∧
     head (v_key <$> vs) = Some (smallest_key meta') ∧
     list.last (v_key <$> vs) = Some (largest_key meta') ∧
     entry_count meta' = len vs ∧ file_size meta' = len (table_file options vs) ∧
     Forall (λ v, smallest_seq meta' ≤ v_seq v ≤ largest_seq meta') vs ∧
     smallest_seq meta' ∈ v_seq <$> vs ∧ largest_seq meta' ∈ v_seq <$> vs) ∧
    (ok st = true → error_free sched = true →
     ∃ t, Open sched fs' open_err n path = Some (Ok, Some t) ∧ table_repr t (entry_of <$> vs) ∧
       t_file_number_ t = n ∧ t_smallest_user_key_ t = smallest_key meta' ∧
       t_largest_user_key_ t = largest_key meta' ∧ t_num_entries_ t = entry_count meta').
Proof.
  intros Hin. destruct (open_table_file options vs n Hin) as (t & Ho & Hr & Hn & Hsm & Hla & Hnum).
  destruct Hin as ((Hri & Hbpk) & Hne & Hwf & Hk & Hs & Hsz).
  destruct (table_file_blocks options vs Hwf Hs) as (b & bs & Hadd & Hb & Hcat & Hf).
  exists b. split; [done|]. unfold Finish. rewrite finish_image_flush.
  destruct (finish_image_sealed _ _ _ Hb) as (Hfile & H1 & H2 & H3 & H4 & H5).
  destruct (finish_image (FlushDataBlock b)) as [file b'] eqn:Ef. cbn [fst snd] in *.
  rewrite <- Hf in Hfile. subst file.
  pose proof (bu_smallest _ _ _ _ Hb) as Hbs. pose proof (bu_largest _ _ _ _ Hb) as Hbl.
  pose proof (bu_num _ _ _ _ Hb) as Hbn. pose proof (bu_seqs _ _ _ _ Hb) as Hbq.
  pose proof (bu_extremes _ _ _ _ Hb) as Hbe.
  rewrite app_nil_r, Hcat in *.
  assert (user_keys (entry_of <$> vs) = v_key <$> vs) as Hu.
  { rewrite <- (versions_entries vs Hwf) at 2. unfold user_keys. by rewrite <- !list_fmap_compose. }
  assert (seqs (entry_of <$> vs) = v_seq <$> vs) as Hq.
  { rewrite <- (versions_entries vs Hwf) at 2. unfold seqs. by rewrite <- !list_fmap_compose. }
  rewrite Hu, Hsm in Hbs. rewrite Hu, Hla in Hbl. rewrite Hq in Hbq, Hbe. cbn [default] in *.
  pose proof (WriteFileDurable_ok_aux env fs path (table_file options vs)) as Hw.
  destruct (WriteFileDurable env fs path (table_file options vs)) as [st fs']. cbn [fst snd] in Hw.
  cbn [file_number level smallest_key largest_key entry_count file_size smallest_seq largest_seq].
  rewrite H1, H2, H3, H4, H5. split.
  - rewrite Hbs, Hbl, Hsm, Hla, Hbn, len_fmap. rewrite Forall_fmap in Hbq.
    destruct Hbe as [? ?]; [by destruct vs|]. by split_and!.
  - intros Hok He. rewrite (Hw Hok). exists t. unfold Open.
    rewrite ReadFileToString_written by done. cbn [mbind option_bind].
    change (negb (ok Ok)) with false. cbv iota. rewrite Ho. cbn [mbind option_bind].
    rewrite len_fmap in Hbn. split_and!; try done; congruence.
Qed.

Lemma Get_repr t es key s :
  table_repr t es → read_seq s → Get t key s = Some (read (version_of <$> es) key s, None).
Proof. intros (bs & Htb & <-) Hs. by apply Get_blocks. Qed.

Lemma NewIterator_open t es : table_repr t es → ∃ i, NewIterator t = Some i ∧ ti_open i es.
Proof. intros H. by eexists. Qed.

(** *** Which sequences [Add] accepts *)

Lemma add_all_unsorted options b bs cur vs :
  building options b bs cur → Forall wf_version vs → keys_sorted (concat bs ++ cur) →
  ok (add_all b vs).1 = true → keys_sorted ((concat bs ++ cur) ++ (entry_of <$> vs)).
Proof.
  revert b bs cur. induction vs as [|v vs IH]; intros b bs cur Hb Hwf Hs; cbn [add_all].
  { by rewrite app_nil_r. }
  inversion_clear Hwf as [|? ? Hv Hvs].
  destruct (may_follow (concat bs ++ cur) v) eqn:Em.
  2:{ rewrite (Add_push _ _ _ _ _ Hb), Em. done. }
  destruct (Add_building _ _ _ _ _ Hb Hv Em) as (b1 & bs1 & cur1 & -> & Hb1 & Hcat).
  intros Hok. rewrite fmap_cons. change (entry_of v :: ?l) with ([entry_of v] ++ l).
  rewrite app_assoc, <- Hcat. apply (IH b1); [done..| |exact Hok]. rewrite Hcat.
  apply sorted_by_app. split_and!; [done|by split|]. intros p q Hp ->%list_elem_of_singleton.
  apply orb_true_iff in Em as [Em|Em].
  - apply bool_decide_eq_true in Em. rewrite Em in Hp. by apply not_elem_of_nil in Hp.
  - by apply (below_last (concat bs ++ cur)).
Qed.

(** *** [Open] is safe on any bytes *)

Definition scanning (b : Block.Block) : Prop :=
  valid_ b = true → blk_shape b ∧ entry_end_ b ≤ restart_array_offset_ b.

Lemma blk_step_scanning b offset :
  blk_shape b → 0 ≤ offset →
  ∃ r b', ParseEntry b offset = Some (r, b') ∧ scanning (set_valid r b') ∧
    restart_array_offset_ b' = restart_array_offset_ b ∧ (r = true → offset + 12 ≤ entry_end_ b').
Proof.
  intros Hb Ho. destruct (ParseEntry_safe b offset Hb Ho) as (r & b' & Hp & Hs & Hd & Hr & He).
  exists r, b'. split_and!; [done| |done|intros Hr'; specialize (He Hr'); lia].
  intros Hv. cbn in Hv. specialize (He Hv). split; [done|]. cbn. lia.
Qed.

Lemma load_index_safe fuel footer_start b acc :
  scanning b → (valid_ b = true → restart_array_offset_ b - entry_end_ b + 1 < Z.of_nat fuel) →
  (0 < fuel)%nat →
  is_Some (load_index fuel footer_start b acc).
Proof.
  revert b acc. induction fuel as [|fuel IH]; intros b acc Hb Hf Hp; [lia|]. cbn [load_index].
  destruct (valid_ b) eqn:Ev; [|by eexists]. destruct (Hb Ev) as [Hs He]. specialize (Hf eq_refl).
  destruct (Z.eqb_spec (len (blk_value b)) 12) as [E|E]; cbn [negb]; [|by eexists].
  destruct (proj2 (GetFixed64_is_Some (blk_value b))) as [o ->]; [lia|]. cbn [mbind option_bind].
  destruct (proj2 (GetFixed32_is_Some (at_off 8 (blk_value b)))) as [z ->].
  { rewrite len_at_off; lia. }
  cbn [mbind option_bind]. destruct (_ || _); [by eexists|].
  assert (0 ≤ entry_end_ b) as H0 by (by destruct Hs as (_ & _ & _ & ?)).
  unfold blk_Next. rewrite Ev. destruct (corrupted_ b) eqn:Ec; cbn [orb negb].
  { cbn [mbind option_bind]. destruct fuel as [|fuel]; [lia|]. cbn [load_index]. by eexists. }
  destruct (blk_step_scanning b _ Hs H0) as (r & b' & -> & Hsc & Hr & Hg). cbn [mbind option_bind].
  destruct fuel as [|fuel]; [lia|]. apply IH; [done| |lia]. intros Hv. cbn in Hv. subst r.
  specialize (Hg eq_refl). cbn. lia.
Qed.

Lemma blk_SeekToFirst_scanning b :
  blk_safe b →
  ∃ b', blk_SeekToFirst b = Some b' ∧ scanning b' ∧
        (valid_ b' = true → restart_array_offset_ b' ≤ len (data_ b) ∧ 12 ≤ entry_end_ b').
Proof.
  intros Hb. unfold blk_SeekToFirst. destruct (corrupted_ b) eqn:E.
  { eexists; split; [done|]. done. }
  destruct Hb as [|Hb]; [congruence|].
  destruct (blk_step_scanning b 0 Hb) as (r & b' & -> & Hsc & Hr & Hg); [lia|].
  cbn [mbind option_bind]. eexists; split; [done|]. split; [done|]. intros Hv. cbn in Hv |- *.
  subst r. specialize (Hg eq_refl). destruct Hb as (H1 & H2 & H3 & H4). rewrite Hr. lia.
Qed.

Lemma len_slice_le {A} off n (l : list A) : len (slice off n l) ≤ len l.
Proof. unfold slice, len. rewrite length_take, length_drop. lia. Qed.

Lemma load_table_safe n data fs fo fz io iz ne :
  len data < 2 ^ 63 → is_Some (load_table n data fs fo fz io iz ne).
Proof.
  intros Hd. unfold load_table. pose proof (len_slice_le io iz data).
  destruct (new_Block_safe_aux (slice io iz data)) as (ib & -> & Hib & Hdata); [lia|].
  cbn [mbind option_bind]. destruct (corrupted_ ib); [by eexists|].
  destruct (blk_SeekToFirst_scanning ib Hib) as (ib' & -> & Hsc & Hb). cbn [mbind option_bind].
  destruct (load_index_safe (S (length data)) fs ib' []) as [[msg|[ib'' index]] ->]; [done| |lia|..].
  { intros Hv. specialize (Hb Hv). rewrite Hdata in Hb. unfold len in *. lia. }
  { by eexists. }
  cbn [mbind option_bind]. destruct (corrupted_ ib''); [by eexists|].
  destruct (head index) as [e|]; [|by eexists]. destruct (list.last index); [|by eexists].
  pose proof (len_slice_le (ie_offset e) (ie_size e) data).
  destruct (new_Block_safe_aux (slice (ie_offset e) (ie_size e) data)) as (fb & -> & Hfb & _); [lia|].
  cbn [mbind option_bind]. destruct (corrupted_ fb); [by eexists|].
  destruct (blk_SeekToFirst_safe fb Hfb) as (fb' & -> & _). cbn [mbind option_bind].
  destruct (negb _); by eexists.
Qed.

Lemma open_data_safe_aux n data : len data < 2 ^ 63 → is_Some (open_data n data).
Proof.
  intros Hd. unfold open_data, kFooterSize. destruct (Z.ltb_spec (len data) 44); [by eexists|].
  destruct (negb _); [by eexists|]. set (f := at_off (len data - 44) data).
  assert (len f = 44) as Hf by (unfold f; rewrite len_at_off; lia).
  destruct (proj2 (GetFixed64_is_Some f)) as [fo ->]; [lia|].
  destruct (proj2 (GetFixed32_is_Some (at_off 8 f))) as [fz ->]; [rewrite len_at_off; lia|].
  destruct (proj2 (GetFixed64_is_Some (at_off 12 f))) as [io ->]; [rewrite len_at_off; lia|].
  destruct (proj2 (GetFixed32_is_Some (at_off 20 f))) as [iz ->]; [rewrite len_at_off; lia|].
  destruct (proj2 (GetFixed64_is_Some (at_off 24 f))) as [ne ->]; [rewrite len_at_off; lia|].
  destruct (proj2 (GetFixed32_is_Some (at_off 32 f))) as [crc ->]; [rewrite len_at_off; lia|].
  cbn [mbind option_bind]. destruct (_ || _ || _ || _); [by eexists|].
  destruct (negb _); [by eexists|]. by apply load_table_safe.
Qed.

(** ** Properties *)

(** C21: a table built from a sorted run of versions, finished through the file
    system and reopened answers every lookup with what the run says: the newest
    version of the key at or below the sequence number, its tombstone, or
    nothing.  No [Add] fails, and the metadata describes the run. *)
Theorem sstable_get_reads (env : write_env) (fs : files) (path open_err : bytes) (meta : FileMeta)
    (sched : list io_outcome) (options : TableOptions) (vs : list version) (n : Z) (key : bytes) (s : Z) :
  table_input options vs → read_seq s →
  ∃ b, add_all (new_Builder options) vs = (Ok, b) ∧
    let '(st, fs', meta', _) := Finish env fs b path meta in
    head (v_key <$> vs) = Some (smallest_key meta') ∧
    list.last (v_key <$> vs) = Some (largest_key meta') ∧
    entry_count meta' = len vs ∧
    Forall (λ v, smallest_seq meta' ≤ v_seq v ≤ largest_seq meta') vs ∧
    (ok st = true → error_free sched = true →
     ∃ t, Open sched fs' open_err n path = Some (Ok, Some t) ∧
          Get t key s = Some (read vs key s, None)).
Proof.
  intros Hin Hs. destruct (finish_open env fs path meta sched open_err options vs n Hin) as (b & Hb & H).
  exists b. split; [done|]. destruct (Finish env fs b path meta) as [[[st fs'] meta'] b'].
  destruct H as ((_ & _ & H1 & H2 & H3 & _ & H4 & _) & Ho). split_and!; [done..|]. intros Hok He.
  destruct (Ho Hok He) as (t & Hopen & Hr & _). exists t. split; [done|].
  rewrite (Get_repr _ _ _ _ Hr Hs), versions_entries; [done|]. apply Hin.
Qed.

Definition sample_options : TableOptions := mkTableOptions 48 2 10.

Definition sample_versions : list version :=
  [mkVersion [Byte.x61] 9 1 [Byte.x31]; mkVersion [Byte.x61] 4 0 [];
   mkVersion [Byte.x61; Byte.x62] 7 1 [Byte.x32; Byte.x33]; mkVersion [Byte.x63] 1 1 [Byte.x34]].

Lemma sample_input : table_input sample_options sample_versions.
Proof.
  split; [split; [|split]; vm_compute; congruence|]. split; [discriminate|].
  split; [repeat constructor; simpl; (lia || by left || by right)|].
  split; [by repeat constructor|]. split.
  - apply keys_sorted_adjacent. vm_compute. reflexivity.
  - vm_compute. reflexivity.
Qed.

Lemma sstable_get_reads_witness :
  ∃ b, add_all (new_Builder sample_options) sample_versions = (Ok, b) ∧
    let '(st, fs', meta', _) :=
      Finish (mkWriteEnv None [] None None None) ∅ b (lit "000007.sst") (mkFileMeta 7 0 0 0 0 0 [] []) in
    head (v_key <$> sample_versions) = Some (smallest_key meta') ∧
    list.last (v_key <$> sample_versions) = Some (largest_key meta') ∧
    entry_count meta' = len sample_versions ∧
    Forall (λ v, smallest_seq meta' ≤ v_seq v ≤ largest_seq meta') sample_versions ∧
    (ok st = true → error_free [] = true →
     ∃ t, Open [] fs' [] 7 (lit "000007.sst") = Some (Ok, Some t) ∧
          Get t [Byte.x61] 5 = Some (read sample_versions [Byte.x61] 5, None)).
Proof.
  apply (sstable_get_reads (mkWriteEnv None [] None None None) ∅ (lit "000007.sst") []
           (mkFileMeta 7 0 0 0 0 0 [] []) [] sample_options sample_versions 7 [Byte.x61] 5 sample_input).
  split; [lia|left; lia].
Defined.

(** The iterator of a reopened table walks exactly the run it was built
    from: from the first entry it visits all of it, and after a seek exactly the
    entries whose key is not below the target, whatever the block boundaries. *)
Theorem sstable_iterator_walks (options : TableOptions) (vs : list version) (n : Z) (target : bytes) :
  table_input options vs → 8 ≤ len target < 2 ^ 32 →
  ∃ t i i1 i2, open_data n (table_file options vs) = Some (inr t) ∧ NewIterator t = Some i ∧
    ti_SeekToFirst i = Some i1 ∧ iter_collect (S (length vs)) i1 = Some (entry_of <$> vs) ∧
    ti_Seek i target = Some i2 ∧
    iter_collect (S (length vs)) i2
    = Some (filter (λ p, InternalKeyComparator p.1 target = false) (entry_of <$> vs)).
Proof.
  intros Hin Ht. destruct (open_table_file options vs n Hin) as (t & Ho & Hr & _).
  destruct (NewIterator_open t _ Hr) as (i & Hi & Hio). change (iter_open i (entry_of <$> vs)) in Hio.
  destruct (iter_at_first i _ Hio) as (i1 & H1 & Hat1).
  destruct (iter_at_seek i _ target Hio Ht) as (i2 & H2 & Hat2).
  exists t, i, i1, i2. split_and!; [done..| |done|].
  - rewrite (iter_collect_at _ _ _ _ Hat1); [by rewrite drop_0|]. rewrite length_fmap. lia.
  - rewrite (iter_collect_at _ _ _ _ Hat2); [|rewrite length_fmap; lia].
    rewrite first_ge_filter; [done|]. apply Hin.
Qed.

Lemma sstable_iterator_walks_witness :
  ∃ t i i1 i2, open_data 7 (table_file sample_options sample_versions) = Some (inr t) ∧
    NewIterator t = Some i ∧ ti_SeekToFirst i = Some i1 ∧
    iter_collect 5 i1 = Some (entry_of <$> sample_versions) ∧
    ti_Seek i (seek_target [Byte.x61; Byte.x62] kMaxSeq) = Some i2 ∧
    iter_collect 5 i2
    = Some (filter (λ p, InternalKeyComparator p.1 (seek_target [Byte.x61; Byte.x62] kMaxSeq) = false)
              (entry_of <$> sample_versions)).
Proof.
  apply (sstable_iterator_walks sample_options sample_versions 7 (seek_target [Byte.x61; Byte.x62] kMaxSeq)
           sample_input).
  vm_compute. split; congruence.
Defined.

(** C28: the builder accepts a sequence of versions exactly when their internal
    keys are strictly increasing; a refused [Add] leaves the builder unchanged. *)
Theorem builder_accepts_sorted (options : TableOptions) (vs : list version) :
  Forall wf_version vs →
  (ok (add_all (new_Builder options) vs).1 = true ↔ keys_sorted (entry_of <$> vs)).
Proof.
  intros Hwf. split.
  - apply (add_all_unsorted options (new_Builder options) [] []); [apply building_new|done..].
  - intros Hs. destruct (table_file_blocks options vs Hwf Hs) as (b & bs & -> & _). done.
Qed.

Lemma builder_accepts_sorted_witness :
  ok (add_all (new_Builder sample_options) sample_versions).1 = true ↔
  keys_sorted (entry_of <$> sample_versions).
Proof. apply (builder_accepts_sorted sample_options sample_versions). apply sample_input. Defined.

(** C27: [Open] rejects a table with one damaged byte anywhere before the
    footer: it reports the checksum mismatch and returns no table. *)
Theorem sstable_damage_rejected (options : TableOptions) (vs : list version) (n : Z)
    (pre post : bytes) (x y : byte) :
  table_input options vs → table_file options vs = pre ++ x :: post → x ≠ y → kFooterSize ≤ len post →
  open_data n (pre ++ y :: post) = Some (inl (lit "whole-file CRC mismatch")).
Proof.
  intros ((Hri & Hbpk) & Hne & Hwf & Hk & Hs & Hsz) Hf Hxy Hp. unfold kFooterSize in Hp.
  destruct (table_file_blocks options vs Hwf Hs) as (b & bs & _ & Hb & Hcat & Himg).
  rewrite Himg in *. pose proof (image_sizes options bs) as (? & ? & ? & Hbody & Htot).
  unfold table_image in Hf. set (ft := footer _ _ _ _ _ _) in Hf.
  assert (∃ post', post = post' ++ ft ∧ body_image options bs = pre ++ x :: post') as (post' & -> & Hbd).
  { assert (len ft = 44) as Hl by apply len_footer.
    exists (take (length post - 44) post).
    assert (length (body_image options bs) = length (pre ++ x :: take (length post - 44) post)) as Hlen.
    { apply (f_equal length) in Hf. rewrite !length_app in Hf. rewrite length_app. cbn [length] in Hf |- *.
      rewrite length_take. clear -Hl Hp Hf. unfold len in Hl, Hp. lia. }
    rewrite <- (take_drop (length post - 44) post) in Hf at 1.
    rewrite app_comm_cons, app_assoc in Hf. apply app_inj_1 in Hf as [Hb1 Hb2]; [|done].
    split; [|done]. rewrite Hb2. by rewrite take_drop. }
  pose proof (len_concat_blocks options bs bs) as Hcb. pose_len_nonneg. pose proof (len_nonneg (concat bs)).
  assert (len (pre ++ y :: post') = len (body_image options bs)) as Hlb by (rewrite Hbd; slia).
  assert (u32 (len (filter_image options bs)) = len (filter_image options bs) ∧
          u32 (len (index_image options bs)) = len (index_image options bs)) as [E1 E2].
  { unfold u32. rewrite !Z.mod_small by lia. done. }
  rewrite app_comm_cons, app_assoc. unfold ft. rewrite E1, E2.
  rewrite open_data_footer; rewrite ?len_app in *; try lia; [|by apply Crc32_range_aux].
  destruct (Z.eqb_spec (Crc32 (pre ++ y :: post') 0) (Crc32 (body_image options bs) 0)) as [E|E]; [|done].
  rewrite Hbd in E. by apply Crc32_detects_aux in E.
Qed.

Lemma sstable_damage_rejected_witness :
  let data := table_file sample_options sample_versions in
  open_data 7 (take 14 data ++ to_char 255 :: drop 15 data) = Some (inl (lit "whole-file CRC mismatch")).
Proof.
  apply (sstable_damage_rejected sample_options sample_versions 7 _ _ (to_char 9) (to_char 255) sample_input).
  - vm_compute. reflexivity.
  - discriminate.
  - vm_compute. discriminate.
Defined.

(** C29: opening a file never reads outside it and always returns, whatever
    bytes it holds. *)
Theorem sstable_open_safe (n : Z) (data : bytes) : len data < 2 ^ 63 → is_Some (open_data n data).
Proof. apply open_data_safe_aux. Qed.

Lemma sstable_open_safe_witness : is_Some (open_data 1 (PutFixed64 7 ++ kMagic)).
Proof. apply (sstable_open_safe 1 (PutFixed64 7 ++ kMagic)). vm_compute. reflexivity. Defined.

(** A one-block file whose filter block is the four bytes [FC FF FF FF]. *)
Definition crafted_table : bytes :=
  let bs := [entry_of <$> sample_versions] in
  let filter := PutFixed32 0xFFFFFFFC in
  let body := (blocks_file sample_options bs ++ filter) ++ index_image sample_options bs in
  body ++ footer (len (blocks_file sample_options bs)) (len filter)
    (len (blocks_file sample_options bs ++ filter)) (len (index_image sample_options bs)) 4 (Crc32 body 0).

Definition crafted_opened : Table :=
  match open_data 7 crafted_table with
  | Some (inr t) => t
  | _ => mkTable 0 [] [] [] [] [] 0
  end.

Lemma KeyMayMatchInBlock_wraps t key :
  filter_block_ t = PutFixed32 0xFFFFFFFC → KeyMayMatchInBlock t 0 key = None.
Proof.
  intros Hf. unfold KeyMayMatchInBlock. rewrite Hf. rewrite len_PutFixed32.
  change (at_off (4 - 4) ?l) with l. change (4 <? 4) with false. cbv iota.
  change (GetFixed32 (PutFixed32 0xFFFFFFFC)) with (Some 0xFFFFFFFC). cbn [mbind option_bind].
  change (4 <? u32 (0xFFFFFFFC + 4)) with false. cbv iota.
  change (u64 (4 - 4 - 0xFFFFFFFC) / 4 <=? 0) with false. cbv iota.
  assert (at_off (0xFFFFFFFC + 0 * 4) (PutFixed32 0xFFFFFFFC) = []) as ->; [|done].
  unfold at_off. apply drop_ge. rewrite length_PutFixed32. lia.
Qed.

Lemma Get_filter_oob t key s it :
  let n := lower_bound (λ e, InternalKeyComparator (ie_key e) (seek_target key s)) (index_ t) in
  index_ t !! n = Some it → KeyMayMatchInBlock t (Z.of_nat n) key = None → Get t key s = None.
Proof. cbv zeta. intros Hi Hk. unfold Get. fold (seek_target key s). by rewrite Hi, Hk. Qed.

(** The range check of [KeyMayMatchInBlock] adds 4 to [array_start] on 32
    bits: a file with consistent checksum whose filter block ends in 0xFFFFFFFC
    opens, passes the check, and the next lookup reads outside the file. *)
Example filter_array_start_wraps :
  ∃ t, open_data 7 crafted_table = Some (inr t) ∧ Get t [Byte.x61] kMaxSeq = None.
Proof.
  exists crafted_opened. split; [vm_compute; reflexivity|].
  eapply Get_filter_oob; [vm_compute; reflexivity|].
  assert (lower_bound (λ e, InternalKeyComparator (ie_key e) (seek_target [Byte.x61] kMaxSeq))
            (index_ crafted_opened) = 0%nat) as -> by (vm_compute; reflexivity).
  apply KeyMayMatchInBlock_wraps. vm_compute. reflexivity.
Qed.

(** The checksum does not cover the footer: one bit flipped in the entry
    count of a finished table still opens, with the wrong count. *)
Example footer_flip_opens :
  let data := table_file sample_options sample_versions in
  let pos := (length data - 20)%nat in
  data !! pos = Some (to_char 4) ∧
  ∃ t, open_data 7 (<[pos := to_char 5]> data) = Some (inr t) ∧ t_num_entries_ t = 5.
Proof. split; [vm_compute; reflexivity|]. eexists. split; vm_compute; reflexivity. Qed.

End sst.
