(* ===== verification/TableSize.v ===== *)
(** * The size of a table file

    A table takes at most [weight v] bytes for each of its versions and a
    constant ([table_file_size]).  The database's theorems use it to stay within
    the 32-bit sizes of the table format. *)

From S2P Require Import Prelude Status FsUtil Encoding Bloom InternalKey Mvcc Block SSTable.
Import sst.

Definition weight (v : version) : Z := 2 * len (v_key v) + 2 * len (v_value v) + 100.

Definition total_weight (vs : list version) : Z := foldr (λ v n, weight v + n) 0 vs.

Definition entry_bytes (p : bytes * bytes) : Z := len p.1 + len p.2.

Definition sum_bytes (es : list (bytes * bytes)) : Z := foldr (λ p n, entry_bytes p + n) 0 es.

Lemma entry_bytes_ge p : 0 ≤ len p.1 ≤ entry_bytes p.
Proof. unfold entry_bytes. pose proof (len_nonneg p.1). pose proof (len_nonneg p.2). lia. Qed.

Lemma weight_pos v : 100 ≤ weight v.
Proof. unfold weight. pose_len_nonneg. lia. Qed.

Lemma total_weight_length vs : 100 * len vs ≤ total_weight vs.
Proof.
  induction vs as [|v vs IH]; [done|]. cbn [total_weight foldr]. fold (total_weight vs). rewrite len_cons. unfold weight.
  pose proof (len_nonneg (v_key v)). pose proof (len_nonneg (v_value v)). lia.
Qed.

Lemma total_weight_nonneg vs : 0 ≤ total_weight vs.
Proof. induction vs as [|v vs IH]; cbn [total_weight foldr]; [lia|].
  fold (total_weight vs). pose proof (weight_pos v). lia. Qed.

Lemma total_weight_app a b : total_weight (a ++ b) = total_weight a + total_weight b.
Proof. unfold total_weight. induction a as [|v a IH]; cbn [foldr app]; lia. Qed.

#[export] Instance total_weight_perm : Proper ((≡ₚ) ==> eq) total_weight.
Proof. unfold total_weight. induction 1; cbn [foldr]; lia. Qed.

Lemma sum_bytes_app a b : sum_bytes (a ++ b) = sum_bytes a + sum_bytes b.
Proof. unfold sum_bytes. induction a as [|p a IH]; cbn [foldr app]; lia. Qed.

Lemma sum_bytes_nonneg es : 0 ≤ sum_bytes es.
Proof. unfold sum_bytes. induction es as [|p es IH]; cbn [foldr]; [lia|]. pose proof (entry_bytes_ge p). lia. Qed.

(** A subset without repetitions weighs no more. *)
Lemma total_weight_sub vs ws : NoDup vs → (∀ v, v ∈ vs → v ∈ ws) → total_weight vs ≤ total_weight ws.
Proof.
  intros Hn Hs. assert (vs ⊆+ ws) as [k Hk]%submseteq_Permutation by by apply NoDup_submseteq.
  rewrite Hk, total_weight_app. pose proof (total_weight_nonneg k). lia.
Qed.

(** ** Blocks *)

Lemma shared_prefix_range a k : 0 ≤ shared_prefix a k ≤ len k.
Proof.
  revert k. induction a as [|x a IH]; intros [|y k]; cbn; try (pose_len_nonneg; lia).
  case_match; [|pose_len_nonneg; lia]. specialize (IH k). rewrite len_cons. lia.
Qed.

Lemma bb_Add_size b k v :
  len (buffer_ (bb_Add b k v)) ≤ len (buffer_ b) + 12 + len k + len v ∧
  len (restarts_ (bb_Add b k v)) ≤ len (restarts_ b) + 1.
Proof.
  pose proof (shared_prefix_range (last_key_ b) k) as Hs. pose proof (len_nonneg k).
  unfold bb_Add. destruct (_ <? _); cbn [buffer_ restarts_]; autorewrite with len;
    rewrite ?len_at_off by lia; change (len [u32 (len (buffer_ b))]) with 1; lia.
Qed.

Lemma bb_build_size ri es :
  len (buffer_ (bb_build ri es)) ≤ sum_bytes es + 12 * len es ∧ len (restarts_ (bb_build ri es)) ≤ len es + 1.
Proof.
  induction es as [|p es IH] using rev_ind; [by vm_compute|]. rewrite bb_build_snoc.
  destruct (bb_Add_size (bb_build ri es) p.1 p.2) as [H1 H2].
  rewrite sum_bytes_app, len_app. cbn [sum_bytes foldr]. change (len [p]) with 1. unfold entry_bytes. lia.
Qed.

Lemma len_concat_PutFixed32 l : len (concat (PutFixed32 <$> l)) = 4 * len l.
Proof.
  induction l as [|x l IH]; [done|]. rewrite fmap_cons. cbn [concat]. rewrite len_app, len_PutFixed32, IH, len_cons. lia.
Qed.

Lemma bb_Finish_size ri es : len (bb_Finish (bb_build ri es)).1 ≤ sum_bytes es + 16 * len es + 8.
Proof.
  destruct (bb_build_size ri es) as [H1 H2]. unfold bb_Finish. cbn [fst].
  rewrite !len_app, len_concat_PutFixed32, len_PutFixed32. lia.
Qed.

(** ** Filters *)

Lemma u64_le n : 0 ≤ n → u64 n ≤ n.
Proof. intros Hn. unfold u64. apply Z.mod_le; lia. Qed.

Lemma filter_bytes_le n : 1 ≤ n → 0 ≤ filter_bytes n 10 ≤ 10 * n + 8.
Proof.
  intros Hn. unfold filter_bytes. pose proof (u64_le (n * 10) ltac:(lia)) as H1.
  pose proof (Z.mod_pos_bound (n * 10) (2 ^ 64) ltac:(lia)) as H2. fold (u64 (n * 10)) in H2.
  set (bits := if u64 (n * 10) <? 64 then 64 else u64 (n * 10)).
  assert (0 ≤ bits ∧ (bits ≤ 64 ∨ bits ≤ 10 * n)) as Hb by (unfold bits; case_match; lia). clearbody bits.
  pose proof (u64_le (bits + 7) ltac:(lia)). pose proof (Z.mod_pos_bound (bits + 7) (2 ^ 64) ltac:(lia)) as H3.
  fold (u64 (bits + 7)) in H3. split; [apply Z.div_pos; lia|]. apply Z.div_le_upper_bound; lia.
Qed.

Lemma BuildFilter_size keys : len (BuildFilter keys 10) ≤ 20 * len keys.
Proof.
  unfold BuildFilter. destruct (Z.eqb_spec (len keys) 0) as [|Hne]; [rewrite len_nil; lia|].
  pose proof (len_nonneg keys). pose proof (filter_bytes_le (len keys) ltac:(lia)) as Hf.
  rewrite len_app. change (len [to_char (num_probes 10)]) with 1. set (nb := filter_bytes (len keys) 10) in *.
  pose proof (length_add_keys (nb * 8) (Z.to_nat (num_probes 10)) keys (replicate (Z.to_nat nb) Init.Byte.x00)) as Hl.
  unfold add_key in Hl. unfold len at 1. rewrite Hl, length_replicate. lia.
Qed.

(** ** The file *)

Definition default_block_bytes := block_bytes default_TableOptions.

Lemma last_key_le b : len (last_key b) ≤ sum_bytes b.
Proof.
  destruct b as [|p b _] using rev_ind; [done|]. rewrite last_key_snoc, sum_bytes_app. cbn [sum_bytes foldr].
  pose proof (sum_bytes_nonneg b). pose proof (entry_bytes_ge p). lia.
Qed.

Section image.
Context (bs : list (list (bytes * bytes))).

Abbreviation opts := default_TableOptions.

Lemma blocks_file_size :
  len (blocks_file opts bs) ≤ sum_bytes (concat bs) + 16 * len (concat bs) + 8 * len bs.
Proof.
  unfold blocks_file. induction bs as [|b bs' IH]; [done|]. rewrite fmap_cons. cbn [concat].
  rewrite !len_app, sum_bytes_app, len_cons. pose proof (bb_Finish_size (restart_interval opts) b) as H.
  unfold block_bytes at 1. lia.
Qed.

Lemma blocks_filters_size : len (blocks_filters opts bs) ≤ 20 * len (concat bs).
Proof.
  unfold blocks_filters. induction bs as [|b bs' IH]; [done|]. rewrite fmap_cons. cbn [concat]. rewrite !len_app.
  pose proof (BuildFilter_size (user_keys b)) as H. change (BuildFilter (user_keys b) 10) with (block_filter opts b) in H.
  unfold user_keys in H. rewrite len_fmap in H. lia.
Qed.

Lemma handles_size l offs :
  sum_bytes (handle_entry <$> zip_with (λ b off, mkIndexEntry (last_key b) off (len (block_bytes opts b))) l offs)
  ≤ sum_bytes (concat l) + 12 * len l.
Proof.
  revert offs. induction l as [|b l IH]; intros [|o offs]; cbn [zip_with fmap list_fmap sum_bytes foldr concat]; try done.
  - rewrite len_cons, sum_bytes_app. pose proof (sum_bytes_nonneg b). pose proof (sum_bytes_nonneg (concat l)).
    pose_len_nonneg. lia.
  - specialize (IH offs). unfold sum_bytes at 1 in IH. rewrite len_cons, sum_bytes_app.
    unfold entry_bytes at 1, handle_entry at 1 2. cbn [fst snd ie_key ie_offset ie_size].
    rewrite len_app, len_PutFixed64, len_PutFixed32. pose proof (last_key_le b). lia.
Qed.

Lemma index_size : len (index_image opts bs) ≤ sum_bytes (concat bs) + 28 * len bs + 8.
Proof.
  unfold index_image. pose proof (bb_Finish_size (restart_interval opts) (handle_entry <$> handles opts bs)) as H.
  pose proof (handles_size bs (offsets 0 (block_bytes opts <$> bs))) as H2. fold (handles opts bs) in H2.
  assert (len (handle_entry <$> handles opts bs) ≤ len bs); [|lia].
  rewrite len_fmap. unfold handles, len. rewrite length_zip_with. lia.
Qed.

Lemma table_image_size :
  Forall (λ b, b ≠ []) bs → len (table_image opts bs) ≤ 2 * sum_bytes (concat bs) + 76 * len (concat bs) + 56.
Proof.
  intros Hne. pose proof blocks_file_size. pose proof blocks_filters_size. pose proof index_size.
  assert (len bs ≤ len (concat bs)) as Hb.
  { clear -Hne. induction Hne as [|b bs Hb _ IH]; [done|]. cbn [concat]. rewrite len_cons, len_app.
    destruct b; [done|]. rewrite len_cons. pose_len_nonneg. lia. }
  unfold table_image. rewrite len_app, len_footer. unfold body_image, filter_image.
  rewrite !len_app, len_concat_PutFixed32, len_PutFixed32, !len_fmap.
  assert (len (offsets 0 (block_filter opts <$> bs)) = len bs) as ->; [|lia].
  unfold len. by rewrite length_offsets, length_fmap.
Qed.

End image.

Lemma entries_weight vs : 2 * sum_bytes (entry_of <$> vs) + 76 * len vs ≤ total_weight vs.
Proof.
  induction vs as [|v vs IH]; [done|]. rewrite fmap_cons, len_cons. cbn [sum_bytes total_weight foldr].
  fold (sum_bytes (entry_of <$> vs)) (total_weight vs). unfold entry_bytes, weight, entry_of at 1 2, EncodeInternalKey.
  cbn [fst snd]. rewrite len_app, len_PutFixed64. lia.
Qed.

Lemma table_file_size vs :
  Forall wf_version vs → keys_sorted (entry_of <$> vs) →
  len (table_file default_TableOptions vs) ≤ total_weight vs + 56.
Proof.
  intros Hwf Hs. destruct (table_file_blocks default_TableOptions vs Hwf Hs) as (b & bs & _ & Hb & Hcat & ->).
  pose proof (table_image_size bs (bu_nonempty _ _ _ _ Hb)) as H. rewrite Hcat, len_fmap in H.
  pose proof (entries_weight vs). lia.
Qed.

Lemma keys_weight vs : total_weight vs < 2 ^ 32 → Forall (λ v, len (v_key v) < 2 ^ 32 - 8) vs.
Proof.
  induction vs as [|v vs IH]; [constructor|]. cbn [total_weight foldr]. fold (total_weight vs).
  assert (0 ≤ total_weight vs).
  { clear. induction vs as [|v vs IH]; [done|]. cbn [total_weight foldr]. fold (total_weight vs). unfold weight. slia. }
  unfold weight. pose proof (len_nonneg (v_key v)). pose proof (len_nonneg (v_value v)).
  intros ?. constructor; [|apply IH]; lia.
Qed.


