(* ===== verification/Manifest.v ===== *)
(** * The MANIFEST, WAL records and file names

    Models the helpers at the top of src/db.cpp ([ParseFileMetaRecord],
    [ParseManifest], [ParseNumberedFile], [ParseRecord], the file names) and
    the records that [DB::WriteManifest] and [DB::WriteEntry] write.  A parser
    that reads outside its record is [None]; [Some None] is its [false]. *)

From S2P Require Import Prelude Status FsUtil Encoding InternalKey Log SSTable.
Import sst.

Definition kMaxLevels : Z := 7.

Definition kManifestTagSstFile : Z := 1.
Definition kManifestTagLogNumber : Z := 2.
Definition kManifestTagVlogFile : Z := 3.

Record ManifestState := mkManifestState {
  ms_files : list FileMeta;
  ms_vlogs : list Z;
  ms_log_number : Z;
  ms_has_log_number : bool
}.

Definition ParseFileMetaRecord (r : bytes) : option (option FileMeta) :=
  let kFixed := 1 + 8 + 4 + 8 + 8 + 8 + 8 + 4 in
  if len r <? kFixed + 4 then Some None
  else
    file_number ← GetFixed64 (at_off 1 r);
    level ← GetFixed32 (at_off 9 r);
    smallest_seq ← GetFixed64 (at_off 13 r);
    largest_seq ← GetFixed64 (at_off 21 r);
    entry_count ← GetFixed64 (at_off 29 r);
    file_size ← GetFixed64 (at_off 37 r);
    slen ← GetFixed32 (at_off 45 r);
    let pos := 49 in
    if len r <? pos + slen + 4 then Some None
    else
      let smallest_key := slice pos slen r in
      let pos := pos + slen in
      llen ← GetFixed32 (at_off pos r);
      let pos := pos + 4 in
      if negb (pos + llen =? len r) then Some None
      else
        Some (Some (mkFileMeta file_number level smallest_seq largest_seq entry_count file_size
                      smallest_key (slice pos llen r))).

(** The parser's locals: the state and the last numbers seen. *)
Record manifest_scan := mkScan { sc_state : ManifestState; last_file_number : Z; last_vlog_number : Z }.

(** The loop body for a non-empty or empty record; [false] is [ok = false]. *)
Definition manifest_step (sc : manifest_scan) (record : bytes) : manifest_scan * bool :=
  let st := sc_state sc in
  match record with
  | [] => (sc, false)
  | c :: _ =>
      let tag := byte_val c in
      if tag =? kManifestTagSstFile then
        match default None (ParseFileMetaRecord record) with
        | None => (sc, false)
        | Some m =>
            if (file_number m <=? last_file_number sc) || (kMaxLevels <=? level m) then (sc, false)
            else (mkScan (mkManifestState (ms_files st ++ [m]) (ms_vlogs st) (ms_log_number st) (ms_has_log_number st))
                    (file_number m) (last_vlog_number sc), true)
        end
      else if tag =? kManifestTagLogNumber then
        match (if len record =? 9 then GetFixed64 (at_off 1 record) else None) with
        | None => (sc, false)
        | Some n => (mkScan (mkManifestState (ms_files st) (ms_vlogs st) n true) (last_file_number sc) (last_vlog_number sc), true)
        end
      else if tag =? kManifestTagVlogFile then
        match (if len record =? 9 then GetFixed64 (at_off 1 record) else None) with
        | None => (sc, false)
        | Some n =>
            if n <=? last_vlog_number sc then (sc, false)
            else (mkScan (mkManifestState (ms_files st) (ms_vlogs st ++ [n]) (ms_log_number st) (ms_has_log_number st))
                    (last_file_number sc) n, true)
        end
      else (sc, false)
  end.

(** [Some None]: the function returns false. *)
Definition ParseManifest (open_err : option bytes) (sched : list io_outcome) (fs : files) (path : bytes)
    : option (option ManifestState) :=
  match open_err, fs !! path with
  | None, Some data =>
      '(sc, how) ← log.ForEachRecord manifest_step data sched (mkScan (mkManifestState [] [] 0 false) 0 0);
      Some (match how with log.StopEof => Some (sc_state sc) | _ => None end)
  | _, _ => Some None
  end.

(** ** The records of [WriteManifest] *)

Definition file_meta_record (m : FileMeta) : bytes :=
  [to_char kManifestTagSstFile] ++ PutFixed64 (file_number m) ++ PutFixed32 (level m)
    ++ PutFixed64 (smallest_seq m) ++ PutFixed64 (largest_seq m) ++ PutFixed64 (entry_count m)
    ++ PutFixed64 (file_size m) ++ PutFixed32 (u32 (len (smallest_key m))) ++ smallest_key m
    ++ PutFixed32 (u32 (len (largest_key m))) ++ largest_key m.

Definition vlog_record (number : Z) : bytes := [to_char kManifestTagVlogFile] ++ PutFixed64 number.

Definition log_number_record (number : Z) : bytes := [to_char kManifestTagLogNumber] ++ PutFixed64 number.

Definition manifest_records (metas : list FileMeta) (vlogs : list Z) (log_number : Z) : list bytes :=
  (file_meta_record <$> metas) ++ (vlog_record <$> vlogs) ++ [log_number_record log_number].

(** ** File names *)

Definition SstFileName (number : Z) : bytes := zero_pad6 number ++ lit ".sst".
Definition LogFileName (number : Z) : bytes := zero_pad6 number ++ lit ".log".

(** The digit loop with its overflow check. *)
Fixpoint parse_number (n : Z) (s : bytes) : option Z :=
  match s with
  | [] => Some n
  | c :: s =>
      if negb (is_digit c) then None
      else if (2 ^ 64 - 1 - (byte_val c - 48)) / 10 <? n then None
      else parse_number (n * 10 + (byte_val c - 48)) s
  end.

Definition ParseNumberedFile (name suffix : bytes) : option Z :=
  let n := len name - len suffix in
  if (len name <=? len suffix) || negb (bytes_eqb (at_off n name) suffix) then None
  else parse_number 0 (slice 0 n name).

(** ** WAL records *)

(** The payload [WriteEntry] builds. *)
Definition wal_payload (seq type : Z) (key stored : bytes) : bytes :=
  PutFixed64 seq ++ [to_char type] ++ PutFixed32 (u32 (len key)) ++ key
    ++ (if type =? kTypeValue then PutFixed32 (u32 (len stored)) ++ stored else []).

(** The sequence number, the type, the key and the value. *)
Definition ParseRecord (payload : bytes) : option (option (Z * Z * bytes * bytes)) :=
  if len payload <? 8 + 1 + 4 then Some None
  else
    seq ← GetFixed64 payload;
    c ← at_ix payload 8;
    let type := byte_val c in
    klen ← GetFixed32 (at_off 9 payload);
    if len payload - 13 <? klen then Some None
    else
      let key := slice 13 klen payload in
      if type =? kTypeValue then
        if len payload <? 13 + klen + 4 then Some None
        else
          vlen ← GetFixed32 (at_off (13 + klen) payload);
          if negb (len payload =? 13 + klen + 4 + vlen) then Some None
          else Some (Some (seq, type, key, slice (17 + klen) vlen payload))
      else if type =? kTypeDeletion then
        if negb (len payload =? 13 + klen) then Some None else Some (Some (seq, type, key, []))
      else Some None.

(** ** Parsing what was written *)

Record meta_ok (m : FileMeta) : Prop := {
  mo_number : 0 < file_number m < 2 ^ 64;
  mo_level : 0 ≤ level m < kMaxLevels;
  mo_seqs : 0 ≤ smallest_seq m < 2 ^ 64 ∧ 0 ≤ largest_seq m < 2 ^ 64;
  mo_sizes : 0 ≤ entry_count m < 2 ^ 64 ∧ 0 ≤ file_size m < 2 ^ 64;
  mo_keys : len (smallest_key m) < 2 ^ 32 ∧ len (largest_key m) < 2 ^ 32
}.

Lemma at_off_eq0 o (l : bytes) : o = 0 → at_off o l = l.
Proof. intros ->. apply at_off_0. Qed.

(** Moves an offset over the parts of a concatenation it skips. *)
Ltac skip_parts := repeat (rewrite at_off_app_r by slia); rewrite at_off_eq0 by slia.

(** The fixed-width field at an offset of a concatenation. *)
Ltac read_field :=
  skip_parts;
  first [ rewrite GetFixed64_Put, u64_small by lia; reflexivity
        | rewrite GetFixed32_Put, u32_small by lia; reflexivity ].

Lemma len_singleton (c : byte) : len [c] = 1.
Proof. reflexivity. Qed.
#[local] Hint Rewrite len_singleton : len.

Lemma file_meta_roundtrip m : meta_ok m → ParseFileMetaRecord (file_meta_record m) = Some (Some m).
Proof.
  intros [Hn Hl [Hs1 Hs2] [Hc Hz] [Hk1 Hk2]]. unfold kMaxLevels in Hl.
  pose proof (len_nonneg (smallest_key m)). pose proof (len_nonneg (largest_key m)).
  remember (file_meta_record m) as r eqn:Er. unfold file_meta_record in Er. rewrite !u32_small in Er by lia.
  assert (len r = 53 + len (smallest_key m) + len (largest_key m)) as Hr by (rewrite Er; slia).
  assert (GetFixed64 (at_off 1 r) = Some (file_number m)) as F1 by (rewrite Er; read_field).
  assert (GetFixed32 (at_off 9 r) = Some (level m)) as F2 by (rewrite Er; read_field).
  assert (GetFixed64 (at_off 13 r) = Some (smallest_seq m)) as F3 by (rewrite Er; read_field).
  assert (GetFixed64 (at_off 21 r) = Some (largest_seq m)) as F4 by (rewrite Er; read_field).
  assert (GetFixed64 (at_off 29 r) = Some (entry_count m)) as F5 by (rewrite Er; read_field).
  assert (GetFixed64 (at_off 37 r) = Some (file_size m)) as F6 by (rewrite Er; read_field).
  assert (GetFixed32 (at_off 45 r) = Some (len (smallest_key m))) as F7 by (rewrite Er; read_field).
  assert (GetFixed32 (at_off (49 + len (smallest_key m)) r) = Some (len (largest_key m))) as F8 by (rewrite Er; read_field).
  assert (slice 49 (len (smallest_key m)) r = smallest_key m) as K1.
  { unfold slice. fold (at_off 49 r). rewrite Er. skip_parts. apply take_app_length'. unfold len. lia. }
  assert (slice (49 + len (smallest_key m) + 4) (len (largest_key m)) r = largest_key m) as K2.
  { unfold slice. fold (at_off (49 + len (smallest_key m) + 4) r). rewrite Er. skip_parts. apply take_ge. unfold len. lia. }
  unfold ParseFileMetaRecord. rewrite Hr, (proj2 (Z.ltb_ge _ _)) by lia.
  rewrite F1, F2, F3, F4, F5, F6, F7. cbn [mbind option_bind]. rewrite (proj2 (Z.ltb_ge _ _)) by lia.
  rewrite F8. cbn [mbind option_bind]. rewrite (proj2 (Z.eqb_eq _ _)) by lia. cbn [negb].
  rewrite K1, K2. by destruct m.
Qed.

(** The parsers never read outside the record. *)
Lemma ParseFileMetaRecord_total r : is_Some (ParseFileMetaRecord r).
Proof.
  unfold ParseFileMetaRecord. destruct (Z.ltb_spec (len r) (1 + 8 + 4 + 8 + 8 + 8 + 8 + 4 + 4)); [by eexists|].
  assert (∀ o, 0 ≤ o → o + 8 ≤ len r → ∃ v, GetFixed64 (at_off o r) = Some v) as H64.
  { intros o Ho Hl. apply GetFixed64_is_Some. rewrite len_at_off; lia. }
  assert (∀ o, 0 ≤ o → o + 4 ≤ len r → ∃ v, GetFixed32 (at_off o r) = Some v ∧ 0 ≤ v) as H32.
  { intros o Ho Hl. destruct (proj2 (GetFixed32_is_Some (at_off o r))) as [v Hv]; [rewrite len_at_off; lia|].
    exists v. split; [done|]. apply GetFixed32_inv in Hv. lia. }
  destruct (H64 1) as [? ->]; [lia..|]. destruct (H32 9) as (? & -> & _); [lia..|].
  destruct (H64 13) as [? ->]; [lia..|]. destruct (H64 21) as [? ->]; [lia..|].
  destruct (H64 29) as [? ->]; [lia..|]. destruct (H64 37) as [? ->]; [lia..|].
  destruct (H32 45) as (slen & -> & ?); [lia..|]. cbn [mbind option_bind].
  destruct (Z.ltb_spec (len r) (49 + slen + 4)); [by eexists|].
  destruct (H32 (49 + slen)) as (? & -> & _); [lia..|]. cbn [mbind option_bind]. destruct (negb _); by eexists.
Qed.

Lemma ParseRecord_total p : is_Some (ParseRecord p).
Proof.
  unfold ParseRecord. destruct (Z.ltb_spec (len p) (8 + 1 + 4)); [by eexists|].
  destruct (proj2 (GetFixed64_is_Some p)) as [? ->]; [lia|]. destruct (at_ix_is_Some p 8) as [c ->]; [lia|].
  destruct (proj2 (GetFixed32_is_Some (at_off 9 p))) as [klen Hk]; [rewrite len_at_off; lia|].
  rewrite Hk. cbn [mbind option_bind]. apply GetFixed32_inv in Hk.
  destruct (Z.ltb_spec (len p - 13) klen); [by eexists|]. destruct (_ =? kTypeValue).
  - destruct (Z.ltb_spec (len p) (13 + klen + 4)); [by eexists|].
    destruct (proj2 (GetFixed32_is_Some (at_off (13 + klen) p))) as [vlen ->]; [rewrite len_at_off; lia|].
    cbn [mbind option_bind]. destruct (negb _); by eexists.
  - destruct (_ =? kTypeDeletion); [|by eexists]. destruct (negb _); by eexists.
Qed.

Lemma wal_payload_roundtrip seq type key stored :
  0 ≤ seq < 2 ^ 64 → type = kTypeValue ∨ (type = kTypeDeletion ∧ stored = []) →
  len key < 2 ^ 32 → len stored < 2 ^ 32 →
  ParseRecord (wal_payload seq type key stored) = Some (Some (seq, type, key, stored)).
Proof.
  intros Hs Ht Hk Hv. pose proof (len_nonneg key). pose proof (len_nonneg stored).
  remember (wal_payload seq type key stored) as r eqn:Er. unfold wal_payload in Er. rewrite !u32_small in Er by lia.
  assert (GetFixed64 r = Some seq) as F1 by (rewrite Er; rewrite GetFixed64_Put, u64_small by lia; done).
  assert (GetFixed32 (at_off 9 r) = Some (len key)) as F2 by (rewrite Er; read_field).
  assert (at_ix r 8 = Some (to_char type)) as F3.
  { rewrite Er. rewrite at_ix_app_r by slia. rewrite len_PutFixed64. done. }
  assert (slice 13 (len key) r = key) as K1.
  { unfold slice. fold (at_off 13 r). rewrite Er. skip_parts. apply take_app_length'. unfold len. lia. }
  assert (byte_val (to_char type) = type) as Hb.
  { rewrite byte_val_to_char. destruct Ht as [->|[-> _]]; done. }
  unfold ParseRecord. destruct Ht as [->|[-> ->]].
  - change (kTypeValue =? kTypeValue) with true in Er. cbv iota in Er.
    assert (len r = 17 + len key + len stored) as Hr by (rewrite Er; slia).
    assert (GetFixed32 (at_off (13 + len key) r) = Some (len stored)) as F4 by (rewrite Er; read_field).
    assert (slice (17 + len key) (len stored) r = stored) as K2.
    { unfold slice. fold (at_off (17 + len key) r). rewrite Er. skip_parts. apply take_ge. unfold len. lia. }
    rewrite Hr, (proj2 (Z.ltb_ge _ _)) by lia. rewrite F1, F3, F2. cbn [mbind option_bind]. rewrite Hb.
    rewrite (proj2 (Z.ltb_ge _ _)) by lia. change (kTypeValue =? kTypeValue) with true. cbv iota.
    rewrite (proj2 (Z.ltb_ge _ _)) by lia. rewrite F4. cbn [mbind option_bind].
    rewrite (proj2 (Z.eqb_eq _ _)) by lia. cbn [negb]. by rewrite K1, K2.
  - change (kTypeDeletion =? kTypeValue) with false in Er. cbv iota in Er. rewrite app_nil_r in Er.
    assert (len r = 13 + len key) as Hr by (rewrite Er; slia).
    rewrite Hr, (proj2 (Z.ltb_ge _ _)) by lia. rewrite F1, F3, F2. cbn [mbind option_bind]. rewrite Hb.
    rewrite (proj2 (Z.ltb_ge _ _)) by lia. change (kTypeDeletion =? kTypeValue) with false.
    change (kTypeDeletion =? kTypeDeletion) with true. cbv iota.
    rewrite (proj2 (Z.eqb_eq _ _)) by lia. cbn [negb]. by rewrite K1.
Qed.

(** ** File names *)

Lemma parse_number_spec n s :
  0 ≤ n → Forall (λ c, is_digit c = true) s → decimal_value n s < 2 ^ 64 → parse_number n s = Some (decimal_value n s).
Proof.
  revert n. induction s as [|c s IH]; intros n Hn Hd Hv; [done|]. inversion_clear Hd as [|? ? Hc Hs]. simpl in *.
  rewrite Hc. cbn [negb]. unfold is_digit in Hc. apply andb_prop in Hc as [H1%Z.leb_le H2%Z.leb_le].
  assert (∀ k t, 0 ≤ k → Forall (λ c, is_digit c = true) t → k ≤ decimal_value k t) as Hmono.
  { intros k t. revert k. induction t as [|d t IHt]; intros k Hk Ht; simpl; [lia|].
    inversion_clear Ht as [|? ? Hd Ht']. unfold is_digit in Hd. apply andb_prop in Hd as [D1%Z.leb_le D2%Z.leb_le].
    specialize (IHt (10 * k + (byte_val d - 48)) ltac:(lia) Ht'). lia. }
  specialize (Hmono (10 * n + (byte_val c - 48)) s ltac:(lia) Hs).
  rewrite (proj2 (Z.ltb_ge _ _)).
  - replace (n * 10 + (byte_val c - 48)) with (10 * n + (byte_val c - 48)) by lia. apply IH; [lia|done|done].
  - apply Z.div_le_lower_bound; lia.
Qed.

Lemma ParseNumberedFile_name n suffix :
  0 ≤ n < 2 ^ 64 → ParseNumberedFile (zero_pad6 n ++ suffix) suffix = Some n.
Proof.
  intros Hn. destruct (zero_pad6_spec n Hn) as (Hne & _ & Hd & Hv). unfold ParseNumberedFile. rewrite len_app.
  replace (len (zero_pad6 n) + len suffix - len suffix) with (len (zero_pad6 n)) by lia.
  rewrite at_off_app by done.
  assert (0 < len (zero_pad6 n)) as Hl.
  { destruct (zero_pad6 n); [done|]. rewrite len_cons. pose_len_nonneg. lia. }
  rewrite (proj2 (Z.leb_gt _ _)) by lia. rewrite (proj2 (bytes_eqb_eq _ _)) by done. cbn [orb negb].
  rewrite slice_app_l by lia. rewrite slice_full. rewrite parse_number_spec by (done || lia). by rewrite Hv.
Qed.

(** A name with another suffix of the same length does not match. *)
Lemma ParseNumberedFile_other (base suffix suffix' : bytes) :
  len suffix = len suffix' → suffix ≠ suffix' → ParseNumberedFile (base ++ suffix) suffix' = None.
Proof.
  intros Hl Hne. unfold ParseNumberedFile. rewrite len_app.
  replace (len base + len suffix - len suffix') with (len base) by lia. rewrite at_off_app by done.
  assert (bytes_eqb suffix suffix' = false) as -> by (apply not_true_iff_false; by rewrite bytes_eqb_eq).
  by rewrite orb_true_r.
Qed.

(** ** Reading back a MANIFEST *)

(** Strictly increasing and above [last]. *)
Fixpoint ascending (last : Z) (ns : list Z) : Prop :=
  match ns with [] => True | n :: ns => last < n ∧ ascending n ns end.

Definition scan_after (sc : manifest_scan) (ps : list bytes) : manifest_scan :=
  foldl (λ s q, (manifest_step s q).1) sc ps.

(** All records are accepted. *)
Definition scans (sc : manifest_scan) (ps : list bytes) : Prop :=
  ∀ pre p post, ps = pre ++ p :: post → (manifest_step (scan_after sc pre) p).2 = true.

Lemma scans_nil sc : scans sc [].
Proof. intros pre p post E. by destruct pre. Qed.

Lemma scans_cons sc p ps : (manifest_step sc p).2 = true → scans (manifest_step sc p).1 ps → scans sc (p :: ps).
Proof.
  intros H1 H2 pre q post E. destruct pre as [|p' pre]; injection E as -> ->; [done|]. by apply H2 with post.
Qed.

Lemma scan_files (metas : list FileMeta) sc :
  Forall meta_ok metas → ascending (last_file_number sc) (file_number <$> metas) →
  scans sc (file_meta_record <$> metas) ∧
  ∃ last, scan_after sc (file_meta_record <$> metas)
  = mkScan (mkManifestState (ms_files (sc_state sc) ++ metas) (ms_vlogs (sc_state sc))
              (ms_log_number (sc_state sc)) (ms_has_log_number (sc_state sc))) last (last_vlog_number sc).
Proof.
  revert sc. induction metas as [|m metas IH]; intros sc Hok Hasc.
  { split; [apply scans_nil|]. exists (last_file_number sc). simpl. rewrite app_nil_r. by destruct sc as [[] ? ?]. }
  inversion_clear Hok as [|? ? Hm Hms]. destruct Hasc as [Hlt Hasc].
  assert (manifest_step sc (file_meta_record m)
    = (mkScan (mkManifestState (ms_files (sc_state sc) ++ [m]) (ms_vlogs (sc_state sc))
         (ms_log_number (sc_state sc)) (ms_has_log_number (sc_state sc))) (file_number m) (last_vlog_number sc), true)) as E.
  { pose proof (file_meta_roundtrip m Hm) as Hp. unfold manifest_step.
    destruct (file_meta_record m) as [|c rest] eqn:Er; [done|]. rewrite Hp. injection Er as <- _.
    change (byte_val (to_char kManifestTagSstFile) =? kManifestTagSstFile) with true. cbn [default from_option].
    simpl. rewrite (proj2 (Z.leb_gt _ _)) by lia. rewrite (proj2 (Z.leb_gt _ _)) by apply (mo_level _ Hm). done. }
  specialize (IH (mkScan (mkManifestState (ms_files (sc_state sc) ++ [m]) (ms_vlogs (sc_state sc))
         (ms_log_number (sc_state sc)) (ms_has_log_number (sc_state sc))) (file_number m) (last_vlog_number sc)) Hms Hasc).
  destruct IH as [IH1 [last IH2]]. split.
  - rewrite fmap_cons. apply scans_cons; rewrite E; done.
  - exists last. unfold scan_after in *. rewrite fmap_cons. cbn [foldl]. rewrite E. cbn [fst]. rewrite IH2. simpl.
    by rewrite <- app_assoc.
Qed.

Lemma manifest_step_vlog sc n :
  last_vlog_number sc < n < 2 ^ 64 → 0 ≤ last_vlog_number sc →
  manifest_step sc (vlog_record n)
  = (mkScan (mkManifestState (ms_files (sc_state sc)) (ms_vlogs (sc_state sc) ++ [n])
       (ms_log_number (sc_state sc)) (ms_has_log_number (sc_state sc))) (last_file_number sc) n, true).
Proof.
  intros Hn Hl. unfold manifest_step, vlog_record. cbn [app].
  change (byte_val (to_char kManifestTagVlogFile) =? kManifestTagSstFile) with false.
  change (byte_val (to_char kManifestTagVlogFile) =? kManifestTagLogNumber) with false.
  change (byte_val (to_char kManifestTagVlogFile) =? kManifestTagVlogFile) with true. cbv iota.
  rewrite len_cons, len_PutFixed64. change (1 + 8 =? 9) with true. cbv iota.
  change (at_off 1 (to_char kManifestTagVlogFile :: PutFixed64 n)) with (PutFixed64 n).
  rewrite <- (app_nil_r (PutFixed64 n)), GetFixed64_Put, u64_small by lia.
  by rewrite (proj2 (Z.leb_gt _ _)) by lia.
Qed.

Lemma scan_vlogs (ns : list Z) sc :
  0 ≤ last_vlog_number sc → ascending (last_vlog_number sc) ns → Forall (λ n, n < 2 ^ 64) ns →
  scans sc (vlog_record <$> ns) ∧
  ∃ last, scan_after sc (vlog_record <$> ns)
  = mkScan (mkManifestState (ms_files (sc_state sc)) (ms_vlogs (sc_state sc) ++ ns)
              (ms_log_number (sc_state sc)) (ms_has_log_number (sc_state sc))) (last_file_number sc) last.
Proof.
  revert sc. induction ns as [|n ns IH]; intros sc Hl Hasc Hr.
  { split; [apply scans_nil|]. exists (last_vlog_number sc). simpl. rewrite app_nil_r. by destruct sc as [[] ? ?]. }
  inversion_clear Hr as [|? ? Hn Hns]. destruct Hasc as [Hlt Hasc].
  pose proof (manifest_step_vlog sc n ltac:(lia) Hl) as E.
  pose (sc1 := mkScan (mkManifestState (ms_files (sc_state sc)) (ms_vlogs (sc_state sc) ++ [n])
       (ms_log_number (sc_state sc)) (ms_has_log_number (sc_state sc))) (last_file_number sc) n).
  destruct (IH sc1 ltac:(cbn; lia) Hasc Hns) as [IH1 [last IH2]]. split.
  - rewrite fmap_cons. apply scans_cons; rewrite E; [reflexivity|exact IH1].
  - exists last. unfold scan_after in *. rewrite fmap_cons. cbn [foldl]. rewrite E. etransitivity; [exact IH2|].
    unfold sc1. cbn [sc_state ms_files ms_vlogs ms_log_number ms_has_log_number last_file_number]. by rewrite <- app_assoc.
Qed.

Lemma scans_app sc a b : scans sc a → scans (scan_after sc a) b → scans sc (a ++ b).
Proof.
  revert sc. induction a as [|p a IH]; intros sc Ha Hb; [done|]. apply scans_cons.
  - by apply (Ha [] p a).
  - apply IH; [|done]. intros pre q post ->. by apply (Ha (p :: pre) q post).
Qed.

Lemma manifest_scan_spec metas vlogs n :
  Forall meta_ok metas → ascending 0 (file_number <$> metas) → ascending 0 vlogs → Forall (λ n, n < 2 ^ 64) vlogs →
  0 ≤ n < 2 ^ 64 →
  let sc := mkScan (mkManifestState [] [] 0 false) 0 0 in
  scans sc (manifest_records metas vlogs n) ∧
  sc_state (scan_after sc (manifest_records metas vlogs n)) = mkManifestState metas vlogs n true.
Proof.
  intros Hm Hasc Hv Hvr Hn sc. subst sc.
  destruct (scan_files metas (mkScan (mkManifestState [] [] 0 false) 0 0) Hm Hasc) as [H1 [l1 E1]].
  destruct (scan_vlogs vlogs (mkScan (mkManifestState metas [] 0 false) l1 0) ltac:(cbn; lia) Hv Hvr) as [H2 [l2 E2]].
  cbn [sc_state ms_files ms_vlogs ms_log_number ms_has_log_number last_file_number last_vlog_number app] in E1, E2.
  assert (∀ s l l', manifest_step (mkScan s l l') (log_number_record n)
    = (mkScan (mkManifestState (ms_files s) (ms_vlogs s) n true) l l', true)) as E3.
  { intros s l l'. unfold manifest_step, log_number_record. cbn [app].
    change (byte_val (to_char kManifestTagLogNumber) =? kManifestTagSstFile) with false.
    change (byte_val (to_char kManifestTagLogNumber) =? kManifestTagLogNumber) with true. cbv iota.
    rewrite len_cons, len_PutFixed64. change (1 + 8 =? 9) with true. cbv iota.
    change (at_off 1 (to_char kManifestTagLogNumber :: PutFixed64 n)) with (PutFixed64 n).
    rewrite <- (app_nil_r (PutFixed64 n)), GetFixed64_Put, u64_small by lia. done. }
  unfold manifest_records. split.
  - apply scans_app; [done|]. rewrite E1. apply scans_app; [done|]. rewrite E2. apply scans_cons; rewrite E3; [done|].
    apply scans_nil.
  - unfold scan_after in *. rewrite !foldl_app, E1, E2. cbn [foldl]. by rewrite E3.
Qed.

Lemma ParseManifest_written metas vlogs n sched fs path :
  Forall meta_ok metas → ascending 0 (file_number <$> metas) → ascending 0 vlogs → Forall (λ n, n < 2 ^ 64) vlogs →
  0 ≤ n < 2 ^ 64 → error_free sched = true →
  fs !! path = Some (log.wal_image [] (manifest_records metas vlogs n)) →
  ParseManifest None sched fs path = Some (Some (mkManifestState metas vlogs n true)).
Proof.
  intros Hm Hasc Hv Hvr Hn Hs Hf. unfold ParseManifest. rewrite Hf.
  destruct (manifest_scan_spec metas vlogs n Hm Hasc Hv Hvr Hn) as [H1 H2].
  rewrite (log.ForEachRecord_rel manifest_step _ sched _ (manifest_records metas vlogs n) false
             (len (log.wal_image [] (manifest_records metas vlogs n))));
    [|done|by apply (log.wal_image_log [] []), log.log_rel_nil|exact H1].
  cbn [mbind option_bind]. do 2 f_equal. exact H2.
Qed.
