(* ===== verification/SkipList.v ===== *)
(** * The skiplist

    Models include/bedrockkv/skiplist.h: nodes with towers of next pointers in
    a heap, [FindGreaterOrEqual], [Insert], [Contains] and the iterator.  A
    node pointer is its index in [nodes_], the head is node 0, and a pointer
    that does not exist or a loop that outruns its fuel is [None].  The coin
    flips of [RandomLevel] are an argument.

    The list refines a sorted list of keys.  The invariant [sl_inv] allows
    towers that are linked only up to some level, so it also holds between any
    two stores of [Insert]; the last section uses this to show that a reader
    interleaved with the writer store by store still finds what it should. *)

From S2P Require Import Prelude.

Definition kMaxLevel : nat := 12.
Definition kBranch : Z := 4.

Record Node := mkNode { node_key : bytes; height : nat; next : list (option nat) }.

(** The constructor: all links null. *)
Definition new_Node (k : bytes) (h : nat) : Node := mkNode k h (replicate h None).

Record SkipList := mkSkipList { nodes_ : list Node; size_ : Z }.

Definition head_ : nat := 0.

Definition new_SkipList : SkipList := mkSkipList [new_Node [] kMaxLevel] 0.

Definition node_at (s : SkipList) (x : nat) : option Node := nodes_ s !! x.

Definition Next (s : SkipList) (x level : nat) : option (option nat) :=
  nd ← node_at s x; next nd !! level.

Definition SetNext (s : SkipList) (x level : nat) (y : option nat) : SkipList :=
  mkSkipList (alter (λ nd, mkNode (node_key nd) (height nd) (<[level := y]> (next nd))) x (nodes_ s))
    (size_ s).

(** [while (level < kMaxLevel && coin(rng) == 0) ++level]; a missing flip
    counts as a flip that ends the loop. *)
Fixpoint random_level (coins : list Z) (level : nat) : nat :=
  match coins with
  | [] => level
  | c :: coins =>
      if (level <? kMaxLevel)%nat && (c =? 0) then random_level coins (S level) else level
  end.

Definition RandomLevel (coins : list Z) : nat := random_level coins 1.

Section Compare.
Context (less : bytes → bytes → bool).

Definition Equal (a b : bytes) : bool := negb (less a b) && negb (less b a).

(** [next != nullptr && less_(next->key, key)] *)
Definition ahead (key : bytes) (s : SkipList) (nxt : option nat) : option bool :=
  match nxt with
  | Some n => nd ← node_at s n; Some (less (node_key nd) key)
  | None => Some false
  end.

(** The [for (;;)] loop at node [x] and [level]; [prev] collects the
    predecessors from the top level down, so its head is [prev[level + 1]]. *)
Fixpoint find_loop (fuel : nat) (key : bytes) (s : SkipList) (x level : nat) (prev : list nat)
    : option (option nat * list nat) :=
  match fuel with
  | O => None
  | S fuel =>
      nxt ← Next s x level;
      forward ← ahead key s nxt;
      if (forward : bool) then find_loop fuel key s (default x nxt) level prev
      else
        match level with
        | O => Some (nxt, x :: prev)
        | S level => find_loop fuel key s x level (x :: prev)
        end
  end.

(** Every iteration goes forward over a node or down a level. *)
Definition FindGreaterOrEqual (s : SkipList) (key : bytes) : option (option nat * list nat) :=
  find_loop (length (nodes_ s) + kMaxLevel) key s head_ (kMaxLevel - 1) [].

(** One iteration of the wiring loop: the new node's link first, then the
    publication. *)
Definition link_level (s : SkipList) (prev : list nat) (node level : nat) : option SkipList :=
  p ← prev !! level;
  succ ← Next s p level;
  Some (SetNext (SetNext s node level succ) p level (Some node)).

Fixpoint link_levels (s : SkipList) (prev : list nat) (node level n : nat) : option SkipList :=
  match n with
  | O => Some s
  | S n => s ← link_level s prev node level; link_levels s prev node (S level) n
  end.

Definition Insert (coins : list Z) (s : SkipList) (key : bytes) : option (bool * SkipList) :=
  '(existing, prev) ← FindGreaterOrEqual s key;
  dup ← (match existing with
         | Some n => nd ← node_at s n; Some (Equal (node_key nd) key)
         | None => Some false
         end);
  if (dup : bool) then Some (false, s)
  else
    let height := RandomLevel coins in
    let node := length (nodes_ s) in
    let s := mkSkipList (nodes_ s ++ [new_Node key height]) (size_ s) in
    s ← link_levels s prev node 0 height;
    Some (true, mkSkipList (nodes_ s) (size_ s + 1)).

Definition Contains (s : SkipList) (key : bytes) : option bool :=
  '(x, _) ← FindGreaterOrEqual s key;
  match x with
  | Some n => nd ← node_at s n; Some (Equal (node_key nd) key)
  | None => Some false
  end.

(** ** The iterator: its state is the current node *)

Definition it_Seek (s : SkipList) (target : bytes) : option (option nat) :=
  '(x, _) ← FindGreaterOrEqual s target; Some x.

End Compare.

Definition ApproximateSize (s : SkipList) : Z := size_ s.

Definition it_SeekToFirst (s : SkipList) : option (option nat) := Next s head_ 0.
Definition it_Next (s : SkipList) (x : nat) : option (option nat) := Next s x 0.
Definition it_key (s : SkipList) (x : nat) : option bytes := node_key <$> node_at s x.

(** ** Chains *)

(** Following [next[level]] from [x] visits [ps] and ends at null. *)
Fixpoint chain (s : SkipList) (level x : nat) (ps : list nat) : Prop :=
  match ps with
  | [] => Next s x level = Some None
  | y :: ps => Next s x level = Some (Some y) ∧ chain s level y ps
  end.

(** The nodes of [order] linked on [level], when node [i] is linked on its
    first [vis i] levels. *)
Definition tower (vis : nat → nat) (level : nat) (order : list nat) : list nat :=
  filter (λ i, (level < vis i)%nat) order.

Definition key_of (s : SkipList) (i : nat) : bytes := default [] (node_key <$> node_at s i).

Record sl_inv (less : bytes → bytes → bool) (s : SkipList) (order : list nat) (vis : nat → nat) : Prop := {
  si_chain : ∀ level, (level < kMaxLevel)%nat → chain s level head_ (tower vis level order);
  si_node : ∀ i, i ∈ order → is_Some (node_at s i) ∧ (1 ≤ vis i)%nat;
  si_sorted : sorted_by (λ i j, less (key_of s i) (key_of s j)) order;
  si_nodup : NoDup (head_ :: order);
  si_length : (length order < length (nodes_ s))%nat
}.

(** The sorted list of keys the skiplist stands for. *)
Definition keys (s : SkipList) (order : list nat) : list bytes := key_of s <$> order.

Lemma tower_app vis level a b : tower vis level (a ++ b) = tower vis level a ++ tower vis level b.
Proof. apply filter_app. Qed.

Lemma tower_0 vis order : (∀ i, i ∈ order → (1 ≤ vis i)%nat) → tower vis 0 order = order.
Proof. intros H. apply filter_all, Forall_forall. intros i Hi. by apply H in Hi. Qed.

Lemma new_SkipList_inv less vis : sl_inv less new_SkipList [] vis.
Proof.
  split; try done.
  - intros level Hl. change (replicate kMaxLevel (@None nat) !! level = Some None).
    by apply lookup_replicate_2.
  - intros i Hi. by apply not_elem_of_nil in Hi.
  - apply NoDup_singleton.
  - simpl. lia.
Qed.

Section Inv.
Context (less : bytes → bytes → bool) `{!StrictWeak less}.

(** The suffix of a tower after a node that is linked on its level. *)
Lemma chain_suffix s level vis order x q rest :
  chain s level head_ (tower vis level order) → head_ :: order = q ++ x :: rest →
  (q = [] ∨ (level < vis x)%nat) → chain s level x (tower vis level rest).
Proof.
  intros Hc Heq Hx. destruct q as [|h q]; simpl in Heq; [by injection Heq as <- <-|].
  injection Heq as <- ->. rewrite tower_app in Hc.
  assert (∀ ps qs y, chain s level y (ps ++ x :: qs) → chain s level x qs) as Hskip.
  { clear. induction ps as [|p ps IH]; intros qs y; simpl; [by intros [_ ?]|]. intros [_ H]. by eapply IH. }
  destruct Hx as [?|Hv]; [done|].
  unfold tower at 2 in Hc. rewrite filter_cons_True in Hc by done. by eapply Hskip.
Qed.

(** The nodes below [key] and the others. *)
Definition splits (s : SkipList) (key : bytes) (order below above : list nat) : Prop :=
  order = below ++ above ∧
  Forall (λ i, less (key_of s i) key = true) below ∧
  Forall (λ i, less (key_of s i) key = false) above.

Lemma sorted_splits s order key :
  sorted_by (λ i j, less (key_of s i) (key_of s j)) order →
  ∃ below above, splits s key order below above.
Proof.
  induction order as [|x order IH]; intros Hs; [by exists [], []|]. destruct Hs as [Hx Hs].
  destruct (less (key_of s x) key) eqn:E.
  - destruct (IH Hs) as (a & b & -> & Ha & Hb). exists (x :: a), b. by split_and!; [|constructor|].
  - exists [], (x :: order). split_and!; [done|done|]. constructor; [done|].
    eapply Forall_impl; [exact Hx|]. simpl. intros y Hxy.
    destruct (less (key_of s y) key) eqn:E2; [|done].
    pose proof (sw_trans _ _ _ Hxy E2). congruence.
Qed.

Lemma splits_fun s key order below above below' above' :
  splits s key order below above → splits s key order below' above' → above = above'.
Proof.
  intros (-> & Hb & Ha) (E & Hb' & Ha'). revert below' E Hb'.
  induction below as [|x below IH]; intros [|y below'] E Hb'; simpl in E; [done| | |].
  - subst above. apply Forall_inv in Ha, Hb'. congruence.
  - subst above'. apply Forall_inv in Ha', Hb. congruence.
  - injection E as -> E. apply (IH (Forall_inv_tail Hb) below' E (Forall_inv_tail Hb')).
Qed.

(** What [prev[level]] must be: the last node linked on [level] below the
    key. *)
Definition is_prev (vis : nat → nat) (below : list nat) (level p : nat) : Prop :=
  ∃ q rest, head_ :: below = q ++ p :: rest ∧ tower vis level rest = [] ∧
            (q = [] ∨ (level < vis p)%nat).

Lemma node_key_of s i nd : node_at s i = Some nd → node_key nd = key_of s i.
Proof. unfold key_of. by intros ->. Qed.

Lemma head_tower_not_less s key vis level above n rest :
  Forall (λ i, less (key_of s i) key = false) above → tower vis level above = n :: rest →
  less (key_of s n) key = false.
Proof.
  intros Hf Ht. assert (n ∈ tower vis level above) as Hn by (rewrite Ht; apply list_elem_of_here).
  apply list_elem_of_filter in Hn as [_ Hn]. by eapply Forall_forall in Hf.
Qed.

(** One load: the next node on the level is the first one still below the
    key, or there is none and the next node, if any, is not below it. *)
Lemma next_cases s order vis key below above x level q rest :
  sl_inv less s order vis → splits s key order below above →
  head_ :: below = q ++ x :: rest → (q = [] ∨ (level < vis x)%nat) → (level < kMaxLevel)%nat →
  (∃ y r1 r2, rest = r1 ++ y :: r2 ∧ (level < vis y)%nat ∧ Next s x level = Some (Some y) ∧
              ahead less key s (Some y) = Some true) ∨
  (tower vis level rest = [] ∧ Next s x level = Some (head (tower vis level above)) ∧
   ahead less key s (head (tower vis level above)) = Some false).
Proof.
  intros Hinv (Hord & Hbelow & Habove) Heq Hx Hl.
  pose proof (chain_suffix s level vis order x q (rest ++ above) (si_chain _ _ _ _ Hinv level Hl)) as Hch.
  rewrite Hord, app_comm_cons, Heq, <- app_assoc in Hch. specialize (Hch eq_refl Hx).
  rewrite tower_app in Hch.
  assert (∀ i, i ∈ order → ahead less key s (Some i) = Some (less (key_of s i) key)) as Hahead.
  { intros i Hi. destruct (si_node _ _ _ _ Hinv i Hi) as [[nd Hnd] _].
    simpl. rewrite Hnd. simpl. by rewrite (node_key_of s i nd). }
  destruct (tower vis level rest) as [|y t] eqn:Et.
  - right. split_and!; [done| |].
    + simpl in Hch. destruct (tower vis level above); simpl in *; [done|by destruct Hch].
    + destruct (tower vis level above) as [|n t] eqn:Ea; [done|].
      change (head (n :: t)) with (Some n). rewrite Hahead; [f_equal; by eapply head_tower_not_less|].
      rewrite Hord. apply elem_of_app. right.
      assert (n ∈ tower vis level above) as Hn' by (rewrite Ea; apply list_elem_of_here).
      by apply list_elem_of_filter in Hn' as [_ ?].
  - left. simpl in Hch. destruct Hch as [Hn _].
    assert (y ∈ tower vis level rest) as Hy by (rewrite Et; apply list_elem_of_here).
    apply list_elem_of_filter in Hy as [Hv Hy].
    apply list_elem_of_split in Hy as (r1 & r2 & ->).
    assert (y ∈ below) as Hyb.
    { assert (y ∈ tl (head_ :: below)) as H; [|exact H]. rewrite Heq.
      destruct q; simpl; rewrite ?elem_of_app, ?elem_of_cons, ?elem_of_app, ?elem_of_cons; tauto. }
    exists y, r1, r2. split_and!; [done|done|done|].
    rewrite Hahead by (rewrite Hord; apply elem_of_app; by left).
    rewrite Forall_forall in Hbelow. by rewrite (Hbelow y Hyb).
Qed.

Lemma find_loop_spec s order vis key below above fuel x level prev q rest :
  sl_inv less s order vis → splits s key order below above →
  head_ :: below = q ++ x :: rest → (q = [] ∨ (level < vis x)%nat) →
  (level < kMaxLevel)%nat → (length rest + level < fuel)%nat →
  ∃ found, find_loop less fuel key s x level prev = Some (head above, found ++ prev) ∧
    length found = S level ∧
    ∀ l p, found !! l = Some p → is_prev vis below l p.
Proof.
  intros Hinv Hsp. revert x level prev q rest.
  induction fuel as [|fuel IH]; intros x level prev q rest Heq Hx Hl Hf; [lia|].
  cbn [find_loop].
  destruct (next_cases s order vis key below above x level q rest)
    as [(y & r1 & r2 & -> & Hv & -> & Ha)|(Ht & -> & Ha)]; [done..| |];
    cbn [mbind option_bind]; rewrite Ha; cbn [mbind option_bind].
  - destruct (IH y level prev (q ++ x :: r1) r2) as (found & E & Hrest);
      [by rewrite <- app_assoc|by right|done|rewrite length_app in Hf; simpl in Hf; lia|].
    exists found. by split.
  - assert (is_prev vis below level x) as Hprev by (by exists q, rest).
    destruct level as [|level].
    + destruct Hsp as (Hord & _).
      rewrite tower_0 by (intros i Hi; eapply si_node; [done|]; rewrite Hord; apply elem_of_app; by right).
      exists [x]. split_and!; [done|done|]. intros l p Hp.
      apply list_lookup_singleton_Some in Hp as [-> <-]. done.
    + destruct (IH x level (x :: prev) q rest) as (found & -> & Hlen & Hf'); [done| |lia|lia|].
      { destruct Hx; [by left|right; lia]. }
      exists (found ++ [x]). rewrite <- app_assoc. split_and!; [done|rewrite length_app; simpl; lia|].
      intros l p Hp. apply lookup_app_Some in Hp as [Hp|[Hge Hp]]; [by apply Hf'|].
      apply list_lookup_singleton_Some in Hp as [Hl' <-].
      assert (l = S level) as -> by lia. done.
Qed.

Lemma FindGreaterOrEqual_spec s order vis key below above :
  sl_inv less s order vis → splits s key order below above →
  ∃ prev, FindGreaterOrEqual less s key = Some (head above, prev) ∧
    ∀ l, (l < kMaxLevel)%nat → ∃ p, prev !! l = Some p ∧ is_prev vis below l p.
Proof.
  intros Hinv Hsp.
  destruct (find_loop_spec s order vis key below above (length (nodes_ s) + kMaxLevel) head_
              (kMaxLevel - 1) [] [] below Hinv Hsp) as (found & Hf & Hlen & Hprev).
  - done.
  - by left.
  - unfold kMaxLevel; lia.
  - destruct Hsp as [-> _]. pose proof (si_length _ _ _ _ Hinv). rewrite length_app in *.
    unfold kMaxLevel. lia.
  - exists found. unfold FindGreaterOrEqual. rewrite Hf, app_nil_r. split; [done|].
    intros l Hl. destruct (lookup_lt_is_Some_2 found l) as [p Hp]; [unfold kMaxLevel in *; lia|].
    exists p. split; [done|by apply Hprev].
Qed.

(** ** Stores *)

Lemma node_at_SetNext s a l v x :
  node_at (SetNext s a l v) x
  = (λ nd, if decide (x = a) then mkNode (node_key nd) (height nd) (<[l := v]> (next nd)) else nd)
      <$> node_at s x.
Proof.
  unfold node_at, SetNext. simpl. destruct (decide (x = a)) as [->|Hne].
  - by rewrite list_lookup_alter_eq.
  - rewrite list_lookup_alter_ne by done. by destruct (nodes_ s !! x).
Qed.

Lemma key_of_SetNext s a l v x : key_of (SetNext s a l v) x = key_of s x.
Proof. unfold key_of. rewrite node_at_SetNext. destruct (node_at s x); [|done]. simpl. by case_decide. Qed.

Lemma node_at_is_Some_SetNext s a l v x : is_Some (node_at s x) → is_Some (node_at (SetNext s a l v) x).
Proof. rewrite node_at_SetNext. by apply fmap_is_Some. Qed.

Lemma Next_SetNext_eq s a l v : is_Some (Next s a l) → Next (SetNext s a l v) a l = Some v.
Proof.
  intros [y Hy]. unfold Next in *. rewrite node_at_SetNext.
  destruct (node_at s a) as [nd|]; [|done]. cbn [fmap option_fmap option_map mbind option_bind] in *.
  rewrite decide_True by done. cbn [next]. apply list_lookup_insert_eq. by apply lookup_lt_Some in Hy.
Qed.

Lemma Next_SetNext_ne s a l v x l' :
  x ≠ a ∨ l ≠ l' → Next (SetNext s a l v) x l' = Next s x l'.
Proof.
  intros Hne. unfold Next. rewrite node_at_SetNext.
  destruct (node_at s x) as [nd|]; [|done]. cbn [fmap option_fmap option_map mbind option_bind].
  destruct (decide (x = a)); [|done]. cbn [next]. destruct Hne as [?|Hne]; [done|].
  by apply list_lookup_insert_ne.
Qed.

Lemma chain_ext s s' level x ps :
  (∀ y, y ∈ x :: ps → Next s' y level = Next s y level) → chain s level x ps → chain s' level x ps.
Proof.
  revert x. induction ps as [|y ps IH]; intros x Hext; simpl.
  - rewrite Hext; [done|]. apply list_elem_of_here.
  - intros [H1 H2]. split; [rewrite Hext; [done|apply list_elem_of_here]|].
    apply IH; [|done]. intros z Hz. apply Hext. by apply list_elem_of_further.
Qed.

(** Linking [n] after [p], the last node of [ps]. *)
Lemma chain_insert s level x ps qs n :
  chain s level x (ps ++ qs) → NoDup (x :: ps ++ qs) → n ∉ x :: ps ++ qs →
  is_Some (Next s n level) →
  let p := default x (list.last ps) in
  Next s p level = Some (head qs) ∧
  chain (SetNext (SetNext s n level (head qs)) p level (Some n)) level x (ps ++ n :: qs).
Proof.
  revert x. induction ps as [|y ps IH]; intros x Hc Hnd Hn Hs; cbv zeta.
  - simpl in Hc. assert (Next s x level = Some (head qs)) as Hx.
    { destruct qs; simpl in Hc; [done|by destruct Hc]. }
    split; [done|]. simpl. apply not_elem_of_cons in Hn as [Hnx Hn].
    split.
    + apply Next_SetNext_eq. rewrite Next_SetNext_ne by (left; congruence). by eexists.
    + assert (Next (SetNext (SetNext s n level (head qs)) x level (Some n)) n level = Some (head qs)) as Hnn.
      { rewrite Next_SetNext_ne by (left; done). by apply Next_SetNext_eq. }
      destruct qs as [|z qs]; simpl in *; [done|]. split; [done|].
      destruct Hc as [_ Hc]. eapply chain_ext; [|exact Hc]. intros w Hw.
      rewrite !Next_SetNext_ne; [done|left|left].
      * intros ->. by apply Hn.
      * intros ->. apply NoDup_cons in Hnd as [Hnd _]. by apply Hnd.
  - destruct Hc as [Hxy Hc]. apply NoDup_cons in Hnd as [Hx Hnd]. apply not_elem_of_cons in Hn as [Hnx Hn].
    destruct (IH y Hc Hnd Hn Hs) as [H1 H2]. rewrite last_cons.
    replace (default x (match list.last ps with Some y0 => Some y0 | None => Some y end))
      with (default y (list.last ps)) by (by destruct (list.last ps)).
    split; [done|]. cbn [app chain]. split; [|done].
    rewrite !Next_SetNext_ne; [done|left; congruence|left].
    intros ->. apply Hx. destruct (list.last ps) as [z|] eqn:E; simpl.
    + apply last_Some in E as [l ->]. rewrite !elem_of_cons, !elem_of_app, elem_of_cons. tauto.
    + apply list_elem_of_here.
Qed.

Lemma is_prev_last vis below level p :
  is_prev vis below level p → default head_ (list.last (tower vis level below)) = p.
Proof.
  intros (q & rest & Heq & Ht & Hv). destruct q as [|h q]; simpl in Heq.
  - injection Heq as <- ->. by rewrite Ht.
  - injection Heq as <- ->. destruct Hv as [?|Hv]; [done|].
    rewrite tower_app. unfold tower at 2. rewrite filter_cons_True by done.
    fold (tower vis level rest). rewrite Ht. by rewrite last_snoc.
Qed.

(** ** Insert, store by store

    The new node [n] goes between [below] and [above]; it is linked on its
    first [k] levels. *)

Definition vis_set (vis : nat → nat) (n k i : nat) : nat := if decide (i = n) then k else vis i.

Record linking (s : SkipList) (below above : list nat) (vis : nat → nat) (key : bytes)
    (n h k : nat) : Prop := {
  lk_chain : ∀ level, (level < kMaxLevel)%nat →
             chain s level head_ (tower (vis_set vis n k) level (below ++ n :: above));
  lk_nodup : NoDup (head_ :: below ++ n :: above);
  lk_next : ∀ level, (level < h)%nat → is_Some (Next s n level);
  lk_node : ∀ i, i ∈ below ++ n :: above → is_Some (node_at s i);
  lk_vis : ∀ i, i ∈ below ++ above → (1 ≤ vis i)%nat;
  lk_key : key_of s n = key;
  lk_sorted : sorted_by (λ i j, less (key_of s i) (key_of s j)) (below ++ n :: above);
  lk_length : (length (below ++ n :: above) < length (nodes_ s))%nat
}.

Lemma tower_vis_set vis n k level l : n ∉ l → tower (vis_set vis n k) level l = tower vis level l.
Proof.
  intros Hn. apply filter_agree. intros i Hi. unfold vis_set.
  rewrite decide_False; [done|]. by intros ->.
Qed.

Lemma vis_set_eq vis n k : vis_set vis n k n = k.
Proof. unfold vis_set. by rewrite decide_True. Qed.

Lemma tower_linking vis n k level below above :
  n ∉ below → n ∉ above →
  tower (vis_set vis n k) level (below ++ n :: above)
  = tower vis level below ++ (if decide (level < k)%nat then [n] else []) ++ tower vis level above.
Proof.
  intros Hb Ha. rewrite tower_app, tower_vis_set by done. f_equal.
  unfold tower. rewrite filter_cons, vis_set_eq.
  case_decide; fold (tower (vis_set vis n k) level above); by rewrite tower_vis_set.
Qed.

Lemma link_level_spec s below above vis key n h k prev p :
  linking s below above vis key n h k → (k < h)%nat → (h ≤ kMaxLevel)%nat →
  prev !! k = Some p → is_prev vis below k p →
  Next s p k = Some (head (tower vis k above)) ∧
  ∃ s', link_level s prev n k = Some s' ∧ linking s' below above vis key n h (S k) ∧
        (∀ i, key_of s' i = key_of s i) ∧ length (nodes_ s') = length (nodes_ s) ∧ size_ s' = size_ s.
Proof.
  intros Hlk Hk Hh Hp Hprev. pose proof (lk_nodup _ _ _ _ _ _ _ _ Hlk) as Hnd.
  assert ((n ∉ below) ∧ (n ∉ above) ∧ NoDup (head_ :: below ++ above) ∧ n ≠ head_) as (Hnb & Hna & Hnd' & Hnh).
  { apply NoDup_cons in Hnd as [Hh' Hnd]. apply NoDup_app in Hnd as (N1 & N2 & N3).
    apply NoDup_cons in N3 as [N3 N4]. rewrite not_elem_of_app, not_elem_of_cons in Hh'.
    split_and!; [intros H; apply (N2 n H); apply list_elem_of_here|done| |intuition congruence].
    apply NoDup_cons. split; [rewrite not_elem_of_app; tauto|].
    apply NoDup_app. split_and!; [done| |done]. intros i Hi Hi2. apply (N2 i Hi). by apply list_elem_of_further. }
  pose proof (lk_chain _ _ _ _ _ _ _ _ Hlk k ltac:(lia)) as Hc.
  rewrite tower_linking in Hc by done. rewrite decide_False in Hc by lia. simpl app in Hc.
  assert (∀ l, tower vis k l `sublist_of` l) as Hsub by (intros; apply sublist_filter).
  destruct (chain_insert s k head_ (tower vis k below) (tower vis k above) n Hc) as [Hsucc Hc'].
  { eapply sublist_NoDup; [exact Hnd'|]. apply sublist_skip, sublist_app; apply Hsub. }
  { rewrite not_elem_of_cons, not_elem_of_app. unfold tower. rewrite !list_elem_of_filter. tauto. }
  { apply (lk_next _ _ _ _ _ _ _ _ Hlk). lia. }
  cbv zeta in Hsucc, Hc'. rewrite (is_prev_last _ _ _ _ Hprev) in Hsucc, Hc'.
  split; [done|]. unfold link_level. rewrite Hp. cbn [mbind option_bind]. rewrite Hsucc. cbn [mbind option_bind].
  eexists; split; [done|]. split; [|split_and!; [|by unfold SetNext; simpl; rewrite !length_alter|done];
    intros i; by rewrite !key_of_SetNext].
  split.
  - intros level Hl. destruct (decide (level = k)) as [->|Hne].
    + rewrite tower_linking by done. rewrite decide_True by lia. exact Hc'.
    + pose proof (lk_chain _ _ _ _ _ _ _ _ Hlk level Hl) as Hcl.
      rewrite tower_linking in Hcl |- * by done.
      replace (if decide (level < S k)%nat then [n] else []) with (if decide (level < k)%nat then [n] else [])
        by (repeat case_decide; lia || done).
      eapply chain_ext; [|exact Hcl]. intros y _. by rewrite !Next_SetNext_ne by (right; congruence).
  - done.
  - intros level Hl. apply (lk_next _ _ _ _ _ _ _ _ Hlk) in Hl as [v Hv].
    unfold Next in *. rewrite !node_at_SetNext. destruct (node_at s n) as [nd|]; [|done].
    cbn [fmap option_fmap option_map mbind option_bind] in *.
    repeat case_decide; cbn [next]; apply lookup_lt_is_Some_2; rewrite ?length_insert;
      by apply lookup_lt_Some in Hv.
  - intros i Hi. by apply node_at_is_Some_SetNext, node_at_is_Some_SetNext, (lk_node _ _ _ _ _ _ _ _ Hlk).
  - apply (lk_vis _ _ _ _ _ _ _ _ Hlk).
  - rewrite !key_of_SetNext. apply (lk_key _ _ _ _ _ _ _ _ Hlk).
  - eapply sorted_by_ext; [|apply (lk_sorted _ _ _ _ _ _ _ _ Hlk)].
    intros x y _ _. simpl. by rewrite !key_of_SetNext.
  - unfold SetNext; simpl. rewrite !length_alter. apply (lk_length _ _ _ _ _ _ _ _ Hlk).
Qed.

Lemma link_levels_spec s below above vis key n h k m prev :
  linking s below above vis key n h k → (k + m = h)%nat → (h ≤ kMaxLevel)%nat →
  (∀ l, (l < kMaxLevel)%nat → ∃ p, prev !! l = Some p ∧ is_prev vis below l p) →
  ∃ s', link_levels s prev n k m = Some s' ∧ linking s' below above vis key n h h ∧
        (∀ i, key_of s' i = key_of s i) ∧ length (nodes_ s') = length (nodes_ s) ∧ size_ s' = size_ s.
Proof.
  revert s k. induction m as [|m IH]; intros s k Hlk Hkm Hh Hprev; cbn [link_levels].
  { exists s. assert (k = h) as -> by lia. done. }
  destruct (Hprev k) as (p & Hp & Hpp); [lia|].
  destruct (link_level_spec s below above vis key n h k prev p Hlk) as (_ & s1 & -> & Hlk1 & Hk1 & Hl1 & Hs1);
    [lia|done|done|done|].
  cbn [mbind option_bind].
  destruct (IH s1 (S k) Hlk1) as (s' & -> & Hlk' & Hk' & Hl' & Hs'); [lia|done|done|].
  exists s'. split_and!; [done|done| |congruence|congruence]. intros i. by rewrite Hk', Hk1.
Qed.

(** A node linked on at least one level is part of the list. *)
Lemma linking_inv s below above vis key n h k :
  linking s below above vis key n h k → (1 ≤ k)%nat →
  sl_inv less s (below ++ n :: above) (vis_set vis n k).
Proof.
  intros [Hc Hnd Hnx Hno Hv Hk Hs Hl] Hk1. split; try done.
  intros i Hi. split; [by apply Hno|]. unfold vis_set. case_decide as E; [done|]. apply Hv.
  rewrite elem_of_app in *. rewrite elem_of_cons in Hi. tauto.
Qed.

(** The state right after the node is allocated. *)
Lemma linking_start s order vis key below above h :
  sl_inv less s order vis → splits s key order below above →
  (∀ x, head above = Some x → less key (key_of s x) = true) →
  linking (mkSkipList (nodes_ s ++ [new_Node key h]) (size_ s)) below above vis key
    (length (nodes_ s)) h 0.
Proof.
  intros Hinv (Hord & Hb & Ha) Hhd. set (n := length (nodes_ s)).
  set (s1 := mkSkipList _ _).
  assert (∀ i, i ∈ head_ :: order → (i < n)%nat) as Hlt.
  { intros i [->|Hi]%elem_of_cons.
    - pose proof (si_length _ _ _ _ Hinv). unfold n, head_. lia.
    - destruct (si_node _ _ _ _ Hinv i Hi) as [[nd Hnd] _]. by apply lookup_lt_Some in Hnd. }
  assert (∀ i, (i < n)%nat → node_at s1 i = node_at s i) as Hold.
  { intros i Hi. unfold node_at, s1; simpl. by apply lookup_app_l. }
  assert (node_at s1 n = Some (new_Node key h)) as Hnew.
  { unfold node_at, s1; simpl. unfold n. rewrite lookup_app_r, Nat.sub_diag by lia. done. }
  assert (∀ i, (i < n)%nat → key_of s1 i = key_of s i) as Hkey by (intros; unfold key_of; by rewrite Hold).
  assert ((n ∉ below) ∧ (n ∉ above) ∧ n ≠ head_) as (Nb & Na & Nh).
  { rewrite Hord in Hlt. split_and!; [intros H; specialize (Hlt n); rewrite elem_of_cons, elem_of_app in Hlt;
      assert (n < n)%nat by (apply Hlt; tauto); lia..|].
    intros E. specialize (Hlt head_ (list_elem_of_here _ _)). lia. }
  split.
  - intros level Hl. rewrite tower_linking by done. rewrite decide_False by lia.
    rewrite app_nil_l, <- tower_app, <- Hord.
    eapply chain_ext; [|by apply (si_chain _ _ _ _ Hinv)]. intros y Hy. unfold Next.
    rewrite Hold; [done|]. apply Hlt. apply elem_of_cons in Hy as [->|Hy]; [apply list_elem_of_here|].
    apply list_elem_of_further. by apply list_elem_of_filter in Hy as [_ ?].
  - pose proof (si_nodup _ _ _ _ Hinv) as Hnd. rewrite Hord in Hnd.
    apply NoDup_cons in Hnd as [Hh Hnd]. apply NoDup_app in Hnd as (N1 & N2 & N3).
    rewrite not_elem_of_app in Hh. apply NoDup_cons. split.
    { rewrite not_elem_of_app, not_elem_of_cons. intuition congruence. }
    apply NoDup_app. split_and!; [done| |by apply NoDup_cons].
    intros i Hi. rewrite not_elem_of_cons. split; [by intros ->|by apply N2].
  - intros level Hl. unfold Next. rewrite Hnew. cbn [mbind option_bind new_Node next].
    exists None. by apply lookup_replicate_2.
  - intros i. rewrite elem_of_app, elem_of_cons. intros [Hi|[->|Hi]]; [|by rewrite Hnew|].
    + rewrite Hold by (apply Hlt; rewrite Hord, elem_of_cons, elem_of_app; tauto).
      apply (si_node _ _ _ _ Hinv). rewrite Hord, elem_of_app. tauto.
    + rewrite Hold by (apply Hlt; rewrite Hord, elem_of_cons, elem_of_app; tauto).
      apply (si_node _ _ _ _ Hinv). rewrite Hord, elem_of_app. tauto.
  - intros i Hi. apply (si_node _ _ _ _ Hinv). by rewrite Hord.
  - unfold key_of. by rewrite Hnew.
  - assert (key_of s1 n = key) as Hkn by (unfold key_of; by rewrite Hnew).
    assert (∀ i, i ∈ below ++ above → key_of s1 i = key_of s i) as Hk1.
    { intros i Hi. apply Hkey, Hlt, list_elem_of_further. by rewrite Hord. }
    assert (sorted_by (λ i j, less (key_of s1 i) (key_of s1 j)) (below ++ above)) as Hs1.
    { rewrite <- Hord. eapply sorted_by_ext; [|apply (si_sorted _ _ _ _ Hinv)].
      intros x y Hx Hy. rewrite Hord in Hx, Hy. simpl. by rewrite !Hk1. }
    apply sorted_by_app in Hs1 as (Sb & Sa & Sx). apply sorted_by_app. split_and!; [done| |].
    + split; [|done]. apply Forall_forall. intros y Hy. rewrite Hkn.
      destruct above as [|x above]; [by apply not_elem_of_nil in Hy|].
      specialize (Hhd x eq_refl). rewrite <- (Hk1 x) in Hhd by (rewrite elem_of_app, elem_of_cons; tauto).
      apply elem_of_cons in Hy as [->|Hy]; [done|]. eapply sw_trans; [exact Hhd|].
      destruct Sa as [Sa _]. rewrite Forall_forall in Sa. by apply Sa.
    + intros x y Hx [->|Hy]%elem_of_cons; [|by apply Sx].
      rewrite Hkn, Hk1 by (rewrite elem_of_app; tauto). rewrite Forall_forall in Hb. by apply Hb.
  - unfold s1; simpl. pose proof (si_length _ _ _ _ Hinv) as Hlen. rewrite Hord in Hlen.
    rewrite !length_app in *. simpl. lia.
Qed.

(** ** Refinement: a sorted list of keys *)

(** Sorted insertion that keeps an equivalent key that is already there. *)
Fixpoint insert_key (key : bytes) (ks : list bytes) : list bytes :=
  match ks with
  | [] => [key]
  | k :: ks =>
      if less k key then k :: insert_key key ks
      else if less key k then key :: k :: ks else k :: ks
  end.

Definition has_key (key : bytes) (ks : list bytes) : bool := existsb (Equal less key) ks.

(** The skiplist holds exactly [ks], in order. *)
Definition sl_repr (s : SkipList) (ks : list bytes) : Prop :=
  ∃ order vis, sl_inv less s order vis ∧ ks = keys s order ∧ size_ s = len ks.

Lemma insert_key_splits s key order below above :
  splits s key order below above →
  insert_key key (keys s order)
  = keys s below ++
    match keys s above with
    | [] => [key]
    | k :: ks => if less key k then key :: k :: ks else k :: ks
    end.
Proof.
  intros (-> & Hb & Ha). unfold keys. rewrite fmap_app. induction below as [|x below IH].
  - simpl. destruct above as [|y above]; [done|]. rewrite fmap_cons. simpl.
    by rewrite (Forall_inv Ha).
  - rewrite fmap_cons. simpl. rewrite (Forall_inv Hb). f_equal. apply IH. by apply Forall_inv_tail in Hb.
Qed.

Lemma has_key_splits s key order below above :
  sorted_by (λ i j, less (key_of s i) (key_of s j)) order → splits s key order below above →
  has_key key (keys s order) = match head above with
                               | Some x => Equal less (key_of s x) key
                               | None => false
                               end.
Proof.
  intros Hs (-> & Hb & Ha). unfold has_key, keys. rewrite fmap_app, existsb_app.
  assert (∀ l, (∀ i, i ∈ l → Equal less key (key_of s i) = false) →
            existsb (Equal less key) (key_of s <$> l) = false) as Hno.
  { induction l as [|i l IH]; intros H; [done|]. rewrite fmap_cons. simpl.
    rewrite H by apply list_elem_of_here. apply IH. intros j Hj. apply H. by apply list_elem_of_further. }
  rewrite (Hno below), orb_false_l.
  2:{ intros i Hi. rewrite Forall_forall in Hb. unfold Equal. rewrite (Hb i Hi). apply andb_false_r. }
  destruct above as [|x above]; [done|]. rewrite fmap_cons. simpl.
  apply sorted_by_app in Hs as (_ & [Hx _] & _).
  unfold Equal at 1 3. rewrite andb_comm. destruct (less key (key_of s x)) eqn:E.
  - rewrite !andb_false_r. apply Hno. intros i Hi. unfold Equal.
    rewrite Forall_forall in Hx. by rewrite (sw_trans _ _ _ E (Hx i Hi)).
  - rewrite (Forall_inv Ha). done.
Qed.

Lemma random_level_range coins l :
  (l ≤ kMaxLevel)%nat → (l ≤ random_level coins l ≤ kMaxLevel)%nat.
Proof.
  revert l. induction coins as [|c coins IH]; intros l H; cbn [random_level]; [lia|].
  destruct (Nat.ltb_spec l kMaxLevel); simpl; [|lia]. destruct (c =? 0); [|lia].
  specialize (IH (S l)). lia.
Qed.

Lemma RandomLevel_range coins : (1 ≤ RandomLevel coins ≤ kMaxLevel)%nat.
Proof. apply random_level_range. unfold kMaxLevel. lia. Qed.

Lemma keys_ext s s' order :
  (∀ i, i ∈ order → key_of s' i = key_of s i) → keys s' order = keys s order.
Proof. intros H. apply list_fmap_ext. intros i x Hx. apply H. by eapply list_elem_of_lookup_2. Qed.

(** The invariant does not depend on the counter. *)
Lemma sl_inv_nodes s s' order vis :
  nodes_ s' = nodes_ s → sl_inv less s order vis → sl_inv less s' order vis.
Proof.
  intros E [Hc Hn Hs Hd Hl]. assert (∀ i, node_at s' i = node_at s i) as En by (intros; unfold node_at; by rewrite E).
  split; [|by setoid_rewrite En| |done|by rewrite E].
  - intros level Hlv. eapply chain_ext; [|by apply Hc]. intros y _. unfold Next. by rewrite En.
  - eapply sorted_by_ext; [|exact Hs]. intros x y _ _. simpl. unfold key_of. by rewrite !En.
Qed.

Lemma Insert_spec coins s ks key :
  sl_repr s ks →
  ∃ s', Insert less coins s key = Some (negb (has_key key ks), s') ∧ sl_repr s' (insert_key key ks).
Proof.
  intros (order & vis & Hinv & -> & Hsz).
  destruct (sorted_splits s order key (si_sorted _ _ _ _ Hinv)) as (below & above & Hsp).
  destruct (FindGreaterOrEqual_spec s order vis key below above Hinv Hsp) as (prev & Hfind & Hprev).
  unfold Insert. rewrite Hfind. cbn [mbind option_bind].
  rewrite (has_key_splits _ _ _ _ _ (si_sorted _ _ _ _ Hinv) Hsp), (insert_key_splits _ _ _ _ _ Hsp).
  pose proof Hsp as (Hord & Hb & Ha).
  assert ((match head above with
           | Some n => nd ← node_at s n; Some (Equal less (node_key nd) key)
           | None => Some false
           end) = Some (match head above with Some x => Equal less (key_of s x) key | None => false end)) as ->.
  { destruct above as [|x above]; [done|]. simpl.
    destruct (si_node _ _ _ _ Hinv x) as [[nd Hnd] _]; [rewrite Hord, elem_of_app, elem_of_cons; tauto|].
    rewrite Hnd. simpl. by rewrite (node_key_of s x nd). }
  cbn [mbind option_bind].
  destruct (match head above with Some x => _ | None => false end) eqn:Edup; cbn [negb].
  - destruct above as [|x above]; [done|]. simpl in Edup. apply andb_true_iff in Edup as [_ Edup].
    apply negb_true_iff in Edup. exists s. split; [done|]. exists order, vis. split_and!; [done| |].
    + unfold keys at 2. rewrite fmap_cons. simpl. rewrite Edup. rewrite Hord. unfold keys. by rewrite fmap_app.
    + unfold keys at 2. rewrite fmap_cons. simpl. rewrite Edup, Hsz, Hord. unfold keys. by rewrite fmap_app.
  - assert (∀ x, head above = Some x → less key (key_of s x) = true) as Hhd.
    { intros x Hx. rewrite Hx in Edup. destruct above as [|y above]; [done|]. injection Hx as ->.
      apply Forall_inv in Ha. unfold Equal in Edup. rewrite Ha in Edup. simpl in Edup.
      by apply negb_false_iff in Edup. }
    pose proof (RandomLevel_range coins) as Hh. set (h := RandomLevel coins) in *.
    pose proof (linking_start s order vis key below above h Hinv Hsp Hhd) as Hlk.
    set (n := length (nodes_ s)) in *. set (s1 := mkSkipList _ _) in *.
    destruct (link_levels_spec s1 below above vis key n h 0 h prev Hlk) as (s2 & -> & Hlk2 & Hk2 & Hl2 & Hs2);
      [lia|lia|done|].
    cbn [mbind option_bind]. eexists; split; [done|].
    pose proof (linking_inv _ _ _ _ _ _ _ _ Hlk2 ltac:(lia)) as Hinv2.
    assert (keys s2 (below ++ n :: above) = keys s below ++ key :: keys s above) as Hkeys.
    { unfold keys. rewrite fmap_app, fmap_cons. fold (keys s2 below) (keys s2 above) (keys s below) (keys s above).
      f_equal; [|f_equal; [apply (lk_key _ _ _ _ _ _ _ _ Hlk2)|]]; apply keys_ext; intros i Hi;
        rewrite Hk2; unfold key_of, node_at, s1; simpl; rewrite lookup_app_l; try done;
        (destruct (si_node _ _ _ _ Hinv i) as [[nd Hnd] _];
         [rewrite Hord, elem_of_app; tauto|by apply lookup_lt_Some in Hnd]). }
    exists (below ++ n :: above), (vis_set vis n h). split_and!.
    + by apply (sl_inv_nodes s2).
    + change (keys (mkSkipList (nodes_ s2) (size_ s2 + 1)) (below ++ n :: above)) with (keys s2 (below ++ n :: above)).
      rewrite Hkeys. f_equal. destruct above as [|x above]; [done|]. unfold keys. rewrite fmap_cons.
      simpl. by rewrite (Hhd x eq_refl).
    + cbn [size_]. rewrite Hs2. unfold s1. cbn [size_]. rewrite Hsz. unfold keys.
      rewrite Hord, fmap_app, !len_app.
      destruct above as [|x above]; [simpl; slia|]. rewrite fmap_cons. simpl. rewrite (Hhd x eq_refl). slia.
Qed.

(** ** Reading a list that is at rest *)

(** [order] lists the nodes of [s] and [ks] their keys. *)
Definition sl_view (s : SkipList) (order : list nat) (ks : list bytes) : Prop :=
  ∃ vis, sl_inv less s order vis ∧ ks = keys s order.

(** The number of keys below [target]. *)
Fixpoint rank (target : bytes) (ks : list bytes) : nat :=
  match ks with
  | [] => 0
  | k :: ks => if less k target then S (rank target ks) else 0
  end.

Lemma rank_splits s key order below above :
  splits s key order below above → rank key (keys s order) = length below.
Proof.
  intros (-> & Hb & Ha). unfold keys. rewrite fmap_app. induction below as [|x below IH].
  - simpl. destruct above as [|y above]; [done|]. rewrite fmap_cons. simpl. by rewrite (Forall_inv Ha).
  - rewrite fmap_cons. simpl. rewrite (Forall_inv Hb). f_equal. apply IH. by apply Forall_inv_tail in Hb.
Qed.

Lemma sl_repr_view s ks : sl_repr s ks → ∃ order, sl_view s order ks.
Proof. intros (order & vis & Hinv & Hk & _). exists order. by exists vis. Qed.

Lemma it_Seek_spec s order ks target :
  sl_view s order ks → it_Seek less s target = Some (order !! rank target ks).
Proof.
  intros (vis & Hinv & ->).
  destruct (sorted_splits s order target (si_sorted _ _ _ _ Hinv)) as (below & above & Hsp).
  destruct (FindGreaterOrEqual_spec s order vis target below above Hinv Hsp) as (prev & Hfind & _).
  unfold it_Seek. rewrite Hfind. cbn [mbind option_bind].
  rewrite (rank_splits _ _ _ _ _ Hsp). destruct Hsp as (-> & _).
  rewrite lookup_app_r, Nat.sub_diag by lia. by destruct above.
Qed.

Lemma chain_0 s order vis : sl_inv less s order vis → chain s 0 head_ order.
Proof.
  intros Hinv. pose proof (si_chain _ _ _ _ Hinv 0%nat ltac:(unfold kMaxLevel; lia)) as Hc.
  rewrite tower_0 in Hc; [done|]. intros i Hi. by apply (si_node _ _ _ _ Hinv).
Qed.

Lemma it_SeekToFirst_spec s order ks : sl_view s order ks → it_SeekToFirst s = Some (order !! 0%nat).
Proof.
  intros (vis & Hinv & _). pose proof (chain_0 _ _ _ Hinv) as Hc. unfold it_SeekToFirst.
  destruct order; simpl in Hc; [done|by destruct Hc].
Qed.

Lemma it_Next_spec s order ks j x :
  sl_view s order ks → order !! j = Some x → it_Next s x = Some (order !! S j).
Proof.
  intros (vis & Hinv & _) Hj. pose proof (chain_0 _ _ _ Hinv) as Hc. unfold it_Next. clear Hinv.
  revert j Hj Hc. generalize head_ as h.
  induction order as [|y order IH]; intros h j Hj Hc; [done|]. destruct Hc as [_ Hc].
  destruct j as [|j]; simpl in *; [|by apply (IH y)].
  injection Hj as ->. destruct order; simpl in Hc; [done|by destruct Hc].
Qed.

Lemma it_key_spec s order ks j x :
  sl_view s order ks → order !! j = Some x → it_key s x = ks !! j.
Proof.
  intros (vis & Hinv & ->) Hj. unfold it_key, keys. rewrite list_lookup_fmap, Hj. simpl.
  destruct (si_node _ _ _ _ Hinv x) as [[nd Hnd] _]; [by eapply list_elem_of_lookup_2|].
  unfold key_of. by rewrite Hnd.
Qed.

Lemma Contains_spec_aux s ks key : sl_repr s ks → Contains less s key = Some (has_key key ks).
Proof.
  intros (order & vis & Hinv & -> & _).
  destruct (sorted_splits s order key (si_sorted _ _ _ _ Hinv)) as (below & above & Hsp).
  destruct (FindGreaterOrEqual_spec s order vis key below above Hinv Hsp) as (prev & Hfind & _).
  unfold Contains. rewrite Hfind. cbn [mbind option_bind].
  rewrite (has_key_splits _ _ _ _ _ (si_sorted _ _ _ _ Hinv) Hsp). destruct Hsp as (Hord & _).
  destruct above as [|x above]; [done|]. simpl.
  destruct (si_node _ _ _ _ Hinv x) as [[nd Hnd] _]; [rewrite Hord, elem_of_app, elem_of_cons; tauto|].
  rewrite Hnd. simpl. by rewrite (node_key_of s x nd).
Qed.

Lemma sl_repr_sorted s ks : sl_repr s ks → sorted_by less ks.
Proof.
  intros (order & vis & Hinv & -> & _). unfold keys. apply sorted_by_fmap, (si_sorted _ _ _ _ Hinv).
Qed.

(** ** A reader interleaved with the writer

    The reader is [FindGreaterOrEqual] without [prev], one acquire load per
    step; the writer is [Insert], one store per step.  The stores are atomic
    and in program order, which is what the release and acquire orderings of
    the source establish for a reader that reaches a node through them. *)

Inductive reader := RAt (x level : nat) | RDone (r : option nat).

Definition reader_step (key : bytes) (s : SkipList) (r : reader) : option reader :=
  match r with
  | RDone _ => None
  | RAt x level =>
      nxt ← Next s x level;
      forward ← ahead less key s nxt;
      Some (if (forward : bool) then RAt (default x nxt) level
            else match level with O => RDone nxt | S level => RAt x level end)
  end.

(** The writer between two stores: [wired] when the new node already points
    to its successor on [level]. *)
Inductive writer :=
  | WIdle
  | WLink (prev : list nat) (node h level : nat) (wired : bool).

Inductive writer_step : SkipList * writer → SkipList * writer → Prop :=
  | w_begin s key coins existing prev :
      FindGreaterOrEqual less s key = Some (existing, prev) →
      (∀ x, existing = Some x → Equal less (key_of s x) key = false) →
      writer_step (s, WIdle)
        (mkSkipList (nodes_ s ++ [new_Node key (RandomLevel coins)]) (size_ s),
         WLink prev (length (nodes_ s)) (RandomLevel coins) 0 false)
  | w_wire s prev node h level p succ :
      (level < h)%nat → prev !! level = Some p → Next s p level = Some succ →
      writer_step (s, WLink prev node h level false)
        (SetNext s node level succ, WLink prev node h level true)
  | w_publish s prev node h level p :
      prev !! level = Some p →
      writer_step (s, WLink prev node h level true)
        (SetNext s p level (Some node), WLink prev node h (S level) false)
  | w_end s prev node h :
      writer_step (s, WLink prev node h h false) (mkSkipList (nodes_ s) (size_ s + 1), WIdle).

Inductive sys_step (key : bytes) : SkipList * writer * reader → SkipList * writer * reader → Prop :=
  | sys_writer s w s' w' r : writer_step (s, w) (s', w') → sys_step key (s, w, r) (s', w', r)
  | sys_reader s w r r' : reader_step key s r = Some r' → sys_step key (s, w, r) (s, w, r').

(** The nodes a reader can reach, in order, whatever the writer is doing. *)
Definition writer_inv (s : SkipList) (w : writer) (order : list nat) (vis : nat → nat) : Prop :=
  match w with
  | WIdle => sl_inv less s order vis
  | WLink prev node h level wired =>
      ∃ below above vis0 key, linking s below above vis0 key node h level ∧
        (level ≤ h)%nat ∧ (1 ≤ h ≤ kMaxLevel)%nat ∧
        (∀ l, (l < kMaxLevel)%nat → ∃ p, prev !! l = Some p ∧ is_prev vis0 below l p) ∧
        (wired = true → (level < h)%nat ∧ Next s node level = Some (head (tower vis0 level above))) ∧
        order = (if decide (level = 0)%nat then below ++ above else below ++ node :: above) ∧
        vis = (if decide (level = 0)%nat then vis0 else vis_set vis0 node level)
  end.

Definition reader_ok (key : bytes) (s : SkipList) (order : list nat) (vis : nat → nat) (r : reader) : Prop :=
  match r with
  | RDone _ => True
  | RAt x level =>
      (level < kMaxLevel)%nat ∧
      (x = head_ ∨ (x ∈ order ∧ (level < vis x)%nat ∧ less (key_of s x) key = true))
  end.

(** Only growth: what was in the list stays there, as high as it was. *)
Definition grows (s : SkipList) (order : list nat) (vis : nat → nat)
    (s' : SkipList) (order' : list nat) (vis' : nat → nat) : Prop :=
  ∀ x, x ∈ order → x ∈ order' ∧ (vis x ≤ vis' x)%nat ∧ key_of s' x = key_of s x.

Lemma linking_rest s below above vis key n h :
  linking s below above vis key n h 0 → sl_inv less s (below ++ above) vis.
Proof.
  intros [Hc Hnd Hnx Hno Hv Hk Hs Hl].
  assert ((n ∉ below) ∧ (n ∉ above)) as [Hnb Hna].
  { apply NoDup_cons in Hnd as [_ Hnd]. apply NoDup_app in Hnd as (N1 & N2 & N3).
    apply NoDup_cons in N3 as [N3 _]. split; [|done]. intros H. apply (N2 n H). apply list_elem_of_here. }
  assert (below ++ above `sublist_of` below ++ n :: above) as Hsub.
  { apply sublist_app; [done|]. by apply sublist_cons. }
  split.
  - intros level Hlv. specialize (Hc level Hlv). rewrite tower_linking in Hc by done.
    rewrite decide_False, app_nil_l, <- tower_app in Hc by lia. done.
  - intros i Hi. split; [|by apply Hv]. apply Hno. apply elem_of_app in Hi.
    rewrite elem_of_app, elem_of_cons. tauto.
  - apply sorted_by_app in Hs as (S1 & [_ S2] & S3). apply sorted_by_app. split_and!; [done|done|].
    intros x y Hx Hy. apply S3; [done|]. by apply list_elem_of_further.
  - eapply sublist_NoDup; [exact Hnd|]. by apply sublist_skip.
  - rewrite length_app in *. simpl in Hl. lia.
Qed.

Lemma writer_inv_view s w order vis : writer_inv s w order vis → sl_inv less s order vis.
Proof.
  destruct w as [|prev node h level wired]; [done|].
  intros (below & above & vis0 & key & Hlk & _ & _ & _ & _ & -> & ->).
  case_decide as E; [subst level; by eapply linking_rest|]. eapply linking_inv; [done|lia].
Qed.
Lemma SetNext_id s x l v : Next s x l = Some v → SetNext s x l v = s.
Proof.
  unfold Next, SetNext, node_at. destruct s as [ns z]; simpl. intros H. f_equal.
  apply list_eq. intros j. rewrite list_lookup_alter. case_decide as E; [subst j|done].
  destruct (ns !! x) as [nd|]; [|done]. simpl in H |- *. rewrite list_insert_id by done.
  by destruct nd.
Qed.

(** Pointing the new node at its successor is invisible. *)
Lemma linking_wire s below above vis key n h k v :
  linking s below above vis key n h k → (k < h)%nat →
  linking (SetNext s n k v) below above vis key n h k.
Proof.
  intros [Hc Hnd Hnx Hno Hv Hk Hs Hl] Hkh.
  assert ((n ∉ below) ∧ (n ∉ above) ∧ n ≠ head_) as (Hnb & Hna & Hnh).
  { apply NoDup_cons in Hnd as [N0 Hnd]. apply NoDup_app in Hnd as (N1 & N2 & N3).
    apply NoDup_cons in N3 as [N3 _]. rewrite elem_of_app, elem_of_cons in N0.
    split_and!; [|done|intros ->; tauto]. intros H. apply (N2 n H). apply list_elem_of_here. }
  split; try done.
  - intros level Hlv. specialize (Hc level Hlv). eapply chain_ext; [|exact Hc].
    intros y Hy. apply Next_SetNext_ne. destruct (decide (level = k)) as [->|]; [left|right; congruence].
    intros ->. apply elem_of_cons in Hy as [?|Hy]; [done|]. apply list_elem_of_filter in Hy as [Hy _].
    rewrite vis_set_eq in Hy. lia.
  - intros level Hlv. apply Hnx in Hlv as [w Hw]. destruct (decide (level = k)) as [->|Hne].
    + rewrite Next_SetNext_eq by (by eexists). by eexists.
    + rewrite Next_SetNext_ne by (right; congruence). by eexists.
  - intros i Hi. by apply node_at_is_Some_SetNext, Hno.
  - by rewrite key_of_SetNext.
  - eapply sorted_by_ext; [|exact Hs]. intros x y _ _. simpl. by rewrite !key_of_SetNext.
  - unfold SetNext; simpl. by rewrite length_alter.
Qed.

Lemma grows_refl s order vis : grows s order vis s order vis.
Proof. intros x Hx. done. Qed.

Lemma grows_trans s1 o1 v1 s2 o2 v2 s3 o3 v3 :
  grows s1 o1 v1 s2 o2 v2 → grows s2 o2 v2 s3 o3 v3 → grows s1 o1 v1 s3 o3 v3.
Proof.
  intros H1 H2 x Hx. destruct (H1 x Hx) as (Ha & Hb & Hc). destruct (H2 x Ha) as (Hd & He & Hf).
  split_and!; [done|lia|congruence].
Qed.

(** What readers see before and after a node is linked one level higher. *)
Lemma linking_grows s s' below above vis key n h k :
  linking s below above vis key n h k → (∀ i, key_of s' i = key_of s i) →
  grows s (if decide (k = 0)%nat then below ++ above else below ++ n :: above)
    (if decide (k = 0)%nat then vis else vis_set vis n k)
    s' (below ++ n :: above) (vis_set vis n (S k)).
Proof.
  intros Hlk Hkey x Hx. split_and!; [|unfold vis_set|by apply Hkey].
  - case_decide; [|done]. rewrite elem_of_app, elem_of_cons. apply elem_of_app in Hx. tauto.
  - case_decide as E0.
    + case_decide as E; [|lia]. subst x. exfalso. pose proof (lk_nodup _ _ _ _ _ _ _ _ Hlk) as Hnd.
      apply NoDup_cons in Hnd as [_ Hnd]. apply NoDup_app in Hnd as (N1 & N2 & N3).
      apply NoDup_cons in N3 as [N3 _]. apply elem_of_app in Hx as [Hx|Hx]; [|done].
      apply (N2 n Hx). apply list_elem_of_here.
    + repeat case_decide; lia.
Qed.

Lemma writer_step_inv s w s' w' order vis :
  writer_step (s, w) (s', w') → writer_inv s w order vis →
  ∃ order' vis', writer_inv s' w' order' vis' ∧ grows s order vis s' order' vis'.
Proof.
  intros Hst Hinv. inversion Hst as [s0 key coins existing prev Hfind Hne
    |s0 prev node h level p succ Hlt Hp Hnx|s0 prev node h level p Hp|s0 prev node h]; subst.
  - (* w_begin *)
    simpl in Hinv.
    destruct (sorted_splits s order key (si_sorted _ _ _ _ Hinv)) as (below & above & Hsp).
    destruct (FindGreaterOrEqual_spec s order vis key below above Hinv Hsp) as (prev' & Hf & Hprev).
    rewrite Hf in Hfind. injection Hfind as <- <-. pose proof Hsp as (Hord & Hb & Ha).
    assert (∀ x, head above = Some x → less key (key_of s x) = true) as Hhd.
    { intros x Hx. specialize (Hne x Hx). destruct above as [|y above]; [done|]. injection Hx as ->.
      apply Forall_inv in Ha. unfold Equal in Hne. rewrite Ha in Hne. by apply negb_false_iff in Hne. }
    pose proof (RandomLevel_range coins) as Hh.
    exists order, vis. split.
    + exists below, above, vis, key. split_and!; try done; try lia.
      by apply (linking_start s order vis key below above).
    + intros x Hx. split_and!; [done|done|]. unfold key_of, node_at. simpl.
      rewrite lookup_app_l; [done|]. destruct (si_node _ _ _ _ Hinv x Hx) as [[nd Hnd] _].
      by apply lookup_lt_Some in Hnd.
  - (* w_wire *)
    destruct Hinv as (below & above & vis0 & key & Hlk & Hle & Hh & Hprev & _ & -> & ->).
    destruct (Hprev level) as (p' & Hp' & Hpp); [lia|]. rewrite Hp in Hp'. injection Hp' as <-.
    destruct (link_level_spec s below above vis0 key node h level prev p Hlk) as [Hsucc _];
      [lia|lia|done|done|]. rewrite Hsucc in Hnx. injection Hnx as <-.
    do 2 eexists. split.
    + exists below, above, vis0, key. split_and!; try done; try lia.
      * by apply linking_wire.
      * intros _. split; [done|]. apply Next_SetNext_eq. by apply (lk_next _ _ _ _ _ _ _ _ Hlk).
    + intros x Hx. split_and!; [done|done|]. apply key_of_SetNext.
  - (* w_publish *)
    destruct Hinv as (below & above & vis0 & key & Hlk & Hle & Hh & Hprev & Hw & -> & ->).
    destruct (Hw eq_refl) as [Hlt Hwired].
    destruct (Hprev level) as (p' & Hp' & Hpp); [lia|]. rewrite Hp in Hp'. injection Hp' as <-.
    destruct (link_level_spec s below above vis0 key node h level prev p Hlk)
      as (Hsucc & s2 & Hlink & Hlk2 & Hk2 & _); [lia|lia|done|done|].
    unfold link_level in Hlink. rewrite Hp in Hlink. cbn [mbind option_bind] in Hlink.
    rewrite Hsucc in Hlink. cbn [mbind option_bind] in Hlink.
    rewrite (SetNext_id s node level) in Hlink by done. injection Hlink as <-.
    exists (below ++ node :: above), (vis_set vis0 node (S level)). split.
    + exists below, above, vis0, key. split_and!; try done; lia.
    + by eapply linking_grows.
  - (* w_end *)
    destruct Hinv as (below & above & vis0 & key & Hlk & Hle & Hh & Hprev & Hw & -> & ->).
    rewrite !decide_False by lia.
    exists (below ++ node :: above), (vis_set vis0 node h). split.
    + apply (sl_inv_nodes s); [done|]. eapply linking_inv; [done|lia].
    + intros x Hx. done.
Qed.

Lemma reader_step_ok s order vis key x level :
  sl_inv less s order vis → reader_ok key s order vis (RAt x level) →
  ∃ r', reader_step key s (RAt x level) = Some r' ∧ reader_ok key s order vis r' ∧
    ∀ r, r' = RDone r → ∀ below above, splits s key order below above → r = head above.
Proof.
  intros Hinv [Hl Hx].
  destruct (sorted_splits s order key (si_sorted _ _ _ _ Hinv)) as (below & above & Hsp).
  pose proof Hsp as (Hord & Hb & Ha).
  assert (∃ q rest, head_ :: below = q ++ x :: rest ∧ (q = [] ∨ (level < vis x)%nat)) as (q & rest & Heq & Hq).
  { destruct Hx as [->|(Hin & Hv & Hlt)]; [exists [], below; auto|].
    rewrite Hord, elem_of_app in Hin. destruct Hin as [Hin|Hin].
    - apply list_elem_of_split in Hin as (a & rest & ->). exists (head_ :: a), rest. auto.
    - rewrite Forall_forall in Ha. rewrite (Ha x Hin) in Hlt. done. }
  simpl reader_step.
  destruct (next_cases s order vis key below above x level q rest)
    as [(y & r1 & r2 & -> & Hv & -> & Hah)|(Ht & -> & Hah)]; [done..| |];
    cbn [mbind option_bind]; rewrite Hah; cbn [mbind option_bind].
  - eexists; split_and!; [done| |done]. simpl. split; [done|]. right.
    assert (y ∈ below) as Hyb.
    { assert (y ∈ tl (head_ :: below)) as H; [|exact H]. rewrite Heq.
      destruct q; simpl; rewrite ?elem_of_app, ?elem_of_cons, ?elem_of_app, ?elem_of_cons; tauto. }
    rewrite Forall_forall in Hb. split_and!; [rewrite Hord, elem_of_app; by left|done|by apply Hb].
  - eexists; split_and!; [done| |].
    + destruct level as [|level]; [done|]. split; [lia|].
      destruct Hx as [->|(Hin & Hv & Hlt)]; [by left|right]. split_and!; [done|lia|done].
    + destruct level as [|level]; [|done]. intros r [= <-] below' above' (Hord' & Hb' & Ha').
      rewrite tower_0 by (intros i Hi; eapply si_node; [done|]; rewrite Hord; apply elem_of_app; by right).
      by rewrite (splits_fun s key order below above below' above').
Qed.

Lemma grows_reader_ok key s order vis s' order' vis' r :
  grows s order vis s' order' vis' → reader_ok key s order vis r → reader_ok key s' order' vis' r.
Proof.
  destruct r as [x level|]; [|done]. intros Hg [Hl [->|(Hin & Hv & Hlt)]]; (split; [done|]); [by left|right].
  destruct (Hg x Hin) as (H1 & H2 & H3). split_and!; [done|lia|by rewrite H3].
Qed.

(** Everything reachable from a list at rest, with the reader at its start. *)
Lemma sys_reachable_inv key s0 order0 vis0 c :
  sl_inv less s0 order0 vis0 →
  rtc (sys_step key) (s0, WIdle, RAt head_ (kMaxLevel - 1)) c →
  ∃ order vis, writer_inv c.1.1 c.1.2 order vis ∧ grows s0 order0 vis0 c.1.1 order vis ∧
               reader_ok key c.1.1 order vis c.2.
Proof.
  intros Hinv Hrtc. apply (rtc_ind_r (R := sys_step key) (λ c, ∃ order vis, writer_inv c.1.1 c.1.2 order vis ∧
    grows s0 order0 vis0 c.1.1 order vis ∧ reader_ok key c.1.1 order vis c.2)
    (s0, WIdle, RAt head_ (kMaxLevel - 1))); [| |exact Hrtc].
  - exists order0, vis0. simpl. split_and!; [done|apply grows_refl|unfold kMaxLevel; lia|by left].
  - intros c1 c2 _ Hstep (order & vis & Hw & Hg & Hr).
    inversion Hstep as [s w s' w' r Hws|s w r r' Hrs]; subst; simpl in *.
    + destruct (writer_step_inv _ _ _ _ _ _ Hws Hw) as (order' & vis' & Hw' & Hg').
      exists order', vis'. split_and!; [done|by eapply grows_trans|by eapply grows_reader_ok].
    + exists order, vis. split_and!; [done|done|]. destruct r as [x level|]; [|done].
      destruct (reader_step_ok s order vis key x level (writer_inv_view _ _ _ _ Hw) Hr) as (r2 & E & Hr2 & _).
      rewrite Hrs in E. by injection E as ->.
Qed.

(** A client's walk over the whole list. *)
Fixpoint sl_collect (fuel : nat) (s : SkipList) (x : option nat) : option (list bytes) :=
  match fuel, x with
  | O, _ => None
  | S _, None => Some []
  | S fuel, Some n =>
      k ← it_key s n; x' ← it_Next s n; ks ← sl_collect fuel s x'; Some (k :: ks)
  end.

Definition sl_walk (s : SkipList) : option (list bytes) :=
  x ← it_SeekToFirst s; sl_collect (length (nodes_ s)) s x.

Lemma sl_collect_spec s order ks j fuel :
  sl_view s order ks → (length order - j < fuel)%nat →
  sl_collect fuel s (order !! j) = Some (drop j ks).
Proof.
  intros Hv. assert (length ks = length order) as Hl.
  { destruct Hv as (vis & _ & ->). apply length_fmap. }
  revert j. induction fuel as [|fuel IH]; intros j Hf; [lia|]. cbn [sl_collect].
  destruct (order !! j) as [n|] eqn:E.
  - rewrite (it_key_spec s order ks j n Hv E). pose proof (lookup_lt_Some _ _ _ E) as Hlt.
    destruct (lookup_lt_is_Some_2 ks j) as [k Hk]; [lia|]. rewrite Hk. cbn [mbind option_bind].
    rewrite (it_Next_spec s order ks j n Hv E). cbn [mbind option_bind].
    rewrite IH by lia. cbn [mbind option_bind]. by rewrite (drop_S ks k j Hk).
  - apply lookup_ge_None in E. by rewrite drop_ge by lia.
Qed.

Lemma sl_walk_spec s ks : sl_repr s ks → sl_walk s = Some ks.
Proof.
  intros (order & vis & Hinv & Hk & _). assert (sl_view s order ks) as Hv by (by exists vis).
  unfold sl_walk. rewrite (it_SeekToFirst_spec s order ks Hv). cbn [mbind option_bind].
  rewrite (sl_collect_spec s order ks 0 _ Hv); [done|]. pose proof (si_length _ _ _ _ Hinv). lia.
Qed.

(** A sequence of insertions, each with its coin flips. *)
Fixpoint sl_inserts (s : SkipList) (ops : list (list Z * bytes)) : option SkipList :=
  match ops with
  | [] => Some s
  | (coins, key) :: ops => '(_, s) ← Insert less coins s key; sl_inserts s ops
  end.

Lemma sl_repr_new : sl_repr new_SkipList [].
Proof. exists [], (λ _, 1%nat). split_and!; [apply new_SkipList_inv|done|done]. Qed.

Lemma sl_inserts_spec s ks ops :
  sl_repr s ks →
  ∃ s', sl_inserts s ops = Some s' ∧ sl_repr s' (foldl (λ ks o, insert_key o.2 ks) ks ops).
Proof.
  revert s ks. induction ops as [|[coins key] ops IH]; intros s ks Hs; [by exists s|].
  cbn [sl_inserts]. destruct (Insert_spec coins s ks key Hs) as (s1 & -> & Hs1).
  cbn [mbind option_bind]. by apply IH.
Qed.

Lemma find_first_spec s key order below above :
  splits s key order below above →
  key_of s <$> head above = head (filter (λ k, less k key = false) (keys s order)).
Proof.
  intros (-> & Hb & Ha). unfold keys. rewrite fmap_app, filter_app, filter_none.
  - rewrite app_nil_l, filter_all; [by destruct above|]. by apply Forall_fmap.
  - apply Forall_fmap. eapply Forall_impl; [exact Hb|]. simpl. intros x Hx. by rewrite Hx.
Qed.

(** C22: the skiplist is a sorted set: whatever the coin flips, a sequence of
    insertions never follows a bad pointer, walking the bottom level yields
    the inserted keys in strict order (an equivalent key inserted again is
    dropped), Contains answers membership and the counter their number. *)
Theorem skiplist_refines_sorted_list (ops : list (list Z * bytes)) :
  let ks := foldl (λ ks o, insert_key o.2 ks) [] ops in
  ∃ s, sl_inserts new_SkipList ops = Some s ∧ sorted_by less ks ∧ sl_walk s = Some ks ∧
       ApproximateSize s = len ks ∧ ∀ key, Contains less s key = Some (has_key key ks).
Proof.
  intros ks. destruct (sl_inserts_spec new_SkipList [] ops sl_repr_new) as (s & E & Hs).
  exists s. split_and!; [done|by eapply sl_repr_sorted|by apply sl_walk_spec| |].
  - by destruct Hs as (? & ? & _ & _ & ?).
  - intros key. by apply Contains_spec_aux.
Qed.

(** C23: a lock-free reader is never lost: interleave a search with the
    stores of any number of insertions; in every reachable state the search
    can take its next step without touching a missing node, and the node it
    finally returns is the first one not below the key in the list as it is
    at that moment, which still holds every key it held when the search
    began. *)
Theorem concurrent_search_linearizable (key : bytes) (s0 : SkipList) (ks0 : list bytes)
    (s : SkipList) (w : writer) (x level : nat) :
  sl_repr s0 ks0 →
  rtc (sys_step key) (s0, WIdle, RAt head_ (kMaxLevel - 1)) (s, w, RAt x level) →
  ∃ r' ks order, reader_step key s (RAt x level) = Some r' ∧ sl_view s order ks ∧ sorted_by less ks ∧
    (∀ k, k ∈ ks0 → k ∈ ks) ∧
    ∀ r, r' = RDone r →
      mbind (it_key s) r = head (filter (λ k, less k key = false) ks).
Proof.
  intros (order0 & vis0 & Hinv0 & -> & _) Hrtc.
  destruct (sys_reachable_inv key s0 order0 vis0 _ Hinv0 Hrtc) as (order & vis & Hw & Hg & Hr).
  simpl in *. pose proof (writer_inv_view _ _ _ _ Hw) as Hinv.
  destruct (reader_step_ok s order vis key x level Hinv Hr) as (r' & E & _ & Hdone).
  destruct (sorted_splits s order key (si_sorted _ _ _ _ Hinv)) as (below & above & Hsp).
  exists r', (keys s order), order. split_and!; [done|by exists vis| | |].
  - unfold keys. apply sorted_by_fmap, (si_sorted _ _ _ _ Hinv).
  - intros k. unfold keys. rewrite !list_elem_of_fmap. intros (i & -> & Hi).
    destruct (Hg i Hi) as (H1 & _ & H3). by exists i.
  - intros r Hr'. rewrite (Hdone r Hr' below above Hsp), <- (find_first_spec _ _ _ _ _ Hsp).
    destruct above as [|y above]; [done|]. destruct Hsp as (Hord & _).
    destruct (si_node _ _ _ _ Hinv y) as [[nd Hnd] _]; [rewrite Hord, elem_of_app, elem_of_cons; tauto|].
    simpl. unfold it_key, key_of. by rewrite Hnd.
Qed.
End Inv.

Lemma skiplist_refines_sorted_list_witness :
  let ops := [([0; 0; 1], [Byte.x62]); ([], [Byte.x61]); ([0], [Byte.x63]); ([], [Byte.x62])] in
  let ks := foldl (λ ks o, insert_key bytes_ltb o.2 ks) [] ops in
  ∃ s, sl_inserts bytes_ltb new_SkipList ops = Some s ∧ sorted_by bytes_ltb ks ∧ sl_walk s = Some ks ∧
       ApproximateSize s = len ks ∧ ∀ key, Contains bytes_ltb s key = Some (has_key bytes_ltb key ks).
Proof.
  apply (skiplist_refines_sorted_list bytes_ltb
    [([0; 0; 1], [Byte.x62]); ([], [Byte.x61]); ([0], [Byte.x63]); ([], [Byte.x62])]).
Defined.

Lemma concurrent_search_linearizable_witness :
  let s1 := mkSkipList (nodes_ new_SkipList ++ [new_Node [Byte.x62] 2]) 0 in
  let s3 := SetNext (SetNext s1 1 0 None) head_ 0 (Some 1%nat) in
  ∃ r' ks order, reader_step bytes_ltb [Byte.x61] s3 (RAt head_ 11) = Some r' ∧
    sl_view bytes_ltb s3 order ks ∧ sorted_by bytes_ltb ks ∧ (∀ k, k ∈ @nil bytes → k ∈ ks) ∧
    ∀ r, r' = RDone r →
      mbind (it_key s3) r = head (filter (λ k, bytes_ltb k [Byte.x61] = false) ks).
Proof.
  apply (concurrent_search_linearizable bytes_ltb [Byte.x61] new_SkipList [] _
           (WLink (replicate 12 head_) 1 2 1 false)); [apply sl_repr_new|].
  eapply rtc_l; [apply sys_writer, (w_begin bytes_ltb new_SkipList [Byte.x62] [0; 1] None (replicate 12 head_));
    [vm_compute; reflexivity|done]|].
  eapply rtc_l; [apply sys_writer, (w_wire bytes_ltb _ _ _ _ 0 head_ None); [vm_compute; lia|done|vm_compute; reflexivity]|].
  eapply rtc_l; [apply sys_writer, (w_publish bytes_ltb _ _ _ _ 0 head_); done|].
  apply rtc_refl.
Defined.
