(* ===== verification/MemTable.v ===== *)
(** * The memtable

    Models include/bedrockkv/memtable.h and src/memtable.cpp: the entry
    encoding [klen][user_key][tag][value], the comparator over it, [Put],
    [Delete], [Get], [ForEach] and [MemTableIterator], on top of the skiplist.
    A memtable is shown to hold the sorted run of the entries written to it;
    [Get] implements [read] and the iterator satisfies [IterLaws]. *)

From S2P Require Import Prelude Encoding InternalKey Mvcc SkipList Iterator.

Definition kLenPrefixSize : Z := 4.

(** [MemTable::Comparator]; the reads of an entry that is too short, which
    the memtable never stores, count as zero. *)
Definition Comparator (a b : bytes) : bool :=
  let alen := default 0 (GetFixed32 a) in
  let blen := default 0 (GetFixed32 b) in
  match bytes_compare (slice kLenPrefixSize alen a) (slice kLenPrefixSize blen b) with
  | Lt => true
  | Gt => false
  | Eq =>
      default 0 (GetFixed64 (at_off (kLenPrefixSize + blen) b))
      <? default 0 (GetFixed64 (at_off (kLenPrefixSize + alen) a))
  end.

Record MemTable := mkMemTable { list_ : SkipList; approximate_size_ : Z }.

Definition new_MemTable : MemTable := mkMemTable new_SkipList 0.

(** [coins] are the flips of the skiplist's random tower height. *)
Definition mem_Put (coins : list Z) (m : MemTable) (seq : Z) (key value : bytes) : option MemTable :=
  let entry := PutFixed32 (u32 (len key)) ++ key ++ PutFixed64 (pack_tag seq kTypeValue) ++ value in
  '(_, l) ← Insert Comparator coins (list_ m) entry;
  Some (mkMemTable l (approximate_size_ m + (len key + len value + kTagSize + kLenPrefixSize + 24))).

Definition mem_Delete (coins : list Z) (m : MemTable) (seq : Z) (key : bytes) : option MemTable :=
  let entry := PutFixed32 (u32 (len key)) ++ key ++ PutFixed64 (pack_tag seq kTypeDeletion) in
  '(_, l) ← Insert Comparator coins (list_ m) entry;
  Some (mkMemTable l (approximate_size_ m + (len key + kTagSize + kLenPrefixSize + 24))).

Definition mem_ApproximateSize (m : MemTable) : Z := approximate_size_ m.
Definition mem_Count (m : MemTable) : Z := ApproximateSize (list_ m).

(** [None] is a read outside an entry. *)
Definition mem_Get (m : MemTable) (key : bytes) (max_seq : Z) : option Lookup :=
  let target := PutFixed32 (u32 (len key)) ++ key ++ PutFixed64 (target_tag max_seq) in
  x ← it_Seek Comparator (list_ m) target;
  match x with
  | None => Some kMissing
  | Some n =>
      ik ← it_key (list_ m) n;
      klen ← GetFixed32 ik;
      if negb (klen =? len key) || negb (bytes_eqb (slice kLenPrefixSize klen ik) key)
      then Some kMissing
      else
        let tag_offset := kLenPrefixSize + klen in
        tag ← GetFixed64 (at_off tag_offset ik);
        Some (if Z.land tag 0xff =? kTypeValue then kFound (at_off (tag_offset + kTagSize) ik)
              else kDeleted)
  end.

(** The body of the loop of [ForEach]: (seq, type, key, value). *)
Definition mem_decode (entry : bytes) : option (Z * Z * bytes * bytes) :=
  klen ← GetFixed32 entry;
  tag ← GetFixed64 (at_off (kLenPrefixSize + klen) entry);
  Some (Z.shiftr tag 8, Z.land tag 0xff, slice kLenPrefixSize klen entry,
        slice (kLenPrefixSize + klen + kTagSize) (len entry - kLenPrefixSize - klen - kTagSize) entry).

(** The arguments [fn] is called with, in order. *)
Fixpoint foreach_loop (fuel : nat) (s : SkipList) (x : option nat)
    : option (list (Z * Z * bytes * bytes)) :=
  match fuel, x with
  | O, _ => None
  | S _, None => Some []
  | S fuel, Some n =>
      entry ← it_key s n;
      d ← mem_decode entry;
      x' ← it_Next s n;
      ds ← foreach_loop fuel s x';
      Some (d :: ds)
  end.

Definition ForEach (m : MemTable) : option (list (Z * Z * bytes * bytes)) :=
  x ← it_SeekToFirst (list_ m); foreach_loop (length (nodes_ (list_ m))) (list_ m) x.

(** ** MemTableIterator *)

Record MemTableIterator := mkMemIter {
  mi_mem : MemTable;
  it_ : option nat;
  key_buf_ : bytes;
  value_ : bytes;
  mi_valid_ : bool
}.

Definition NewIterator (m : MemTable) : MemTableIterator := mkMemIter m None [] [] false.

(** [Decode] after [it_] moved to [x]. *)
Definition Decode (i : MemTableIterator) (x : option nat) : option MemTableIterator :=
  match x with
  | None => Some (mkMemIter (mi_mem i) None (key_buf_ i) (value_ i) false)
  | Some n =>
      entry ← it_key (list_ (mi_mem i)) n;
      klen ← GetFixed32 entry;
      let tag_off := kLenPrefixSize + klen in
      tag ← GetFixed64 (at_off tag_off entry);
      Some (mkMemIter (mi_mem i) (Some n) (slice kLenPrefixSize klen entry ++ PutFixed64 tag)
              (slice (tag_off + kTagSize) (len entry - tag_off - kTagSize) entry) true)
  end.

Definition mi_SeekToFirst (i : MemTableIterator) : option MemTableIterator :=
  x ← it_SeekToFirst (list_ (mi_mem i)); Decode i x.

(** A target shorter than a tag makes [substr] throw. *)
Definition mi_Seek (i : MemTableIterator) (target : bytes) : option MemTableIterator :=
  if len target <? 8 then None
  else
    let entry := PutFixed32 (u32 (len target - 8)) ++ slice 0 (len target - 8) target
                   ++ at_off (len target - 8) target in
    x ← it_Seek Comparator (list_ (mi_mem i)) entry; Decode i x.

Definition mi_Next (i : MemTableIterator) : option MemTableIterator :=
  n ← it_ i; x ← it_Next (list_ (mi_mem i)) n; Decode i x.

#[global] Instance MemTableIterator_iter : SortedIter MemTableIterator := {|
  iter_Valid := mi_valid_;
  iter_SeekToFirst := mi_SeekToFirst;
  iter_Seek := mi_Seek;
  iter_Next := mi_Next;
  iter_key := key_buf_;
  iter_value := value_
|}.

(** ** The entry encoding *)

(** A skiplist entry holds an internal key and a value. *)
Definition mem_entry (p : bytes * bytes) : bytes := PutFixed32 (len p.1 - 8) ++ p.1 ++ p.2.

Definition ok_key (ik : bytes) : Prop := 8 ≤ len ik < 2 ^ 32.

Definition mem_pair (e : bytes) : bytes * Z :=
  let klen := default 0 (GetFixed32 e) in
  (slice kLenPrefixSize klen e, default 0 (GetFixed64 (at_off (kLenPrefixSize + klen) e))).

Lemma Comparator_pair a b : Comparator a b = pair_less (mem_pair a) (mem_pair b).
Proof.
  unfold Comparator, pair_less, mem_pair, bytes_ltb. cbn [fst snd].
  destruct (bytes_compare _ _) eqn:E; cbn [orb]; [|done|].
  - apply bytes_compare_eq in E. rewrite E. by rewrite (proj2 (bytes_eqb_eq _ _)).
  - destruct (bytes_eqb _ _) eqn:E2; [|done]. apply bytes_eqb_eq in E2.
    rewrite E2, bytes_compare_refl in E. done.
Qed.

#[export] Instance Comparator_strict_weak : StrictWeak Comparator.
Proof.
  split; intros *; rewrite !Comparator_pair; [apply sw_irrefl|apply sw_trans|apply sw_cotrans].
Qed.

Lemma mem_entry_klen p : ok_key p.1 → GetFixed32 (mem_entry p) = Some (len p.1 - 8).
Proof.
  intros [H1 H2]. unfold mem_entry. rewrite GetFixed32_Put. f_equal. apply Z.mod_small. lia.
Qed.

Lemma mem_entry_parts p :
  ok_key p.1 →
  slice kLenPrefixSize (len p.1 - 8) (mem_entry p) = ExtractUserKey p.1 ∧
  GetFixed64 (at_off (kLenPrefixSize + (len p.1 - 8)) (mem_entry p)) = Some (ExtractTag p.1) ∧
  at_off (kLenPrefixSize + (len p.1 - 8) + kTagSize) (mem_entry p) = p.2 ∧
  len (mem_entry p) = kLenPrefixSize + (len p.1 - 8) + kTagSize + len p.2.
Proof.
  intros [H1 H2]. unfold kLenPrefixSize, kTagSize.
  pose proof (ik_pair_split p.1 H1) as Hp. remember (ExtractUserKey p.1) as k eqn:Ek.
  remember (ExtractTag p.1) as t eqn:Et.
  assert (len p.1 = len k + 8) as Hk by (rewrite Hp; slia).
  assert (mem_entry p = PutFixed32 (len p.1 - 8) ++ k ++ PutFixed64 t ++ p.2) as He.
  { unfold mem_entry. rewrite Hp at 2. by rewrite <- app_assoc. }
  assert (0 ≤ t < 2 ^ 64) as Ht.
  { rewrite Et. unfold ExtractTag. rewrite (proj2 (Z.leb_le _ _)) by lia.
    destruct (GetFixed64 _) as [v|] eqn:E; [|done]. by apply GetFixed64_inv in E as [? _]. }
  rewrite He. split_and!.
  - apply slice_app_exact; [done|lia].
  - rewrite app_assoc, at_off_app by slia. rewrite GetFixed64_Put. f_equal. by apply Z.mod_small.
  - rewrite !app_assoc. apply at_off_app. slia.
  - slia.
Qed.

Lemma mem_entry_value p n :
  ok_key p.1 → n = len p.2 →
  slice (kLenPrefixSize + (len p.1 - 8) + kTagSize) n (mem_entry p) = p.2.
Proof.
  intros Hok ->. destruct (mem_entry_parts p Hok) as (_ & _ & Hval & _).
  unfold slice. unfold at_off in Hval. rewrite Hval, len_to_nat. by rewrite take_ge.
Qed.

Lemma mem_pair_entry p : ok_key p.1 → mem_pair (mem_entry p) = ik_pair p.1.
Proof.
  intros Hp. unfold mem_pair. rewrite mem_entry_klen by done. cbn [default from_option id].
  destruct (mem_entry_parts p Hp) as (-> & -> & _). done.
Qed.

Lemma Comparator_entry p q :
  ok_key p.1 → ok_key q.1 → Comparator (mem_entry p) (mem_entry q) = entry_less p q.
Proof.
  intros Hp Hq. unfold entry_less.
  by rewrite Comparator_pair, InternalKeyComparator_pair, !mem_pair_entry.
Qed.

(** ** The run of entries a memtable holds *)

Definition mem_repr (m : MemTable) (es : list (bytes * bytes)) : Prop :=
  sl_repr Comparator (list_ m) (mem_entry <$> es) ∧ Forall (λ p, ok_key p.1) es.

(** Sorted insertion; an entry with the same key and tag is kept. *)
Fixpoint insert_entry (p : bytes * bytes) (es : list (bytes * bytes)) : list (bytes * bytes) :=
  match es with
  | [] => [p]
  | q :: es =>
      if entry_less q p then q :: insert_entry p es
      else if entry_less p q then p :: q :: es else q :: es
  end.

Lemma insert_key_entry p es :
  ok_key p.1 → Forall (λ p, ok_key p.1) es →
  insert_key Comparator (mem_entry p) (mem_entry <$> es) = mem_entry <$> insert_entry p es.
Proof.
  intros Hp. induction 1 as [|q es Hq Hes IH]; [done|]. rewrite fmap_cons. simpl.
  rewrite !Comparator_entry by done. case_match; [by rewrite fmap_cons, IH|]. by case_match.
Qed.

Lemma insert_entry_ok p es :
  ok_key p.1 → Forall (λ p, ok_key p.1) es → Forall (λ p, ok_key p.1) (insert_entry p es).
Proof.
  intros Hp. induction 1 as [|q es Hq Hes IH]; simpl; [by constructor|].
  case_match; [by constructor|]. case_match; auto.
Qed.

Lemma insert_entry_perm p es :
  ok_key p.1 → Forall (λ p, ok_key p.1) es → (∀ q, q ∈ es → q.1 ≠ p.1) → insert_entry p es ≡ₚ p :: es.
Proof.
  intros Hp. induction 1 as [|q es Hq Hes IH]; intros Hne; simpl; [done|].
  destruct (entry_less q p) eqn:E1.
  - rewrite IH by (intros r Hr; apply Hne; by apply list_elem_of_further). by constructor.
  - destruct (entry_less p q) eqn:E2; [done|]. exfalso. apply (Hne q (list_elem_of_here _ _)).
    unfold entry_less in *. rewrite InternalKeyComparator_pair in E1, E2.
    apply ik_pair_inj; [apply Hq|apply Hp|]. by apply pair_less_total.
Qed.

Lemma mem_repr_sorted m es : mem_repr m es → keys_sorted es.
Proof.
  intros [Hr Hok]. apply sl_repr_sorted in Hr. apply (sorted_by_fmap mem_entry) in Hr.
  eapply sorted_by_ext; [|exact Hr]. intros p q Hp Hq. rewrite Forall_forall in Hok.
  symmetry. rewrite <- Comparator_entry; auto.
Qed.

Lemma mem_repr_new : mem_repr new_MemTable [].
Proof. split; [apply sl_repr_new|constructor]. Qed.

Lemma mem_insert_repr coins m es p e :
  mem_repr m es → ok_key p.1 → e = mem_entry p →
  ∃ r l, Insert Comparator coins (list_ m) e = Some (r, l) ∧
         ∀ z, mem_repr (mkMemTable l z) (insert_entry p es).
Proof.
  intros [Hr Hok] Hp ->.
  destruct (Insert_spec Comparator coins (list_ m) _ (mem_entry p) Hr) as (l & E & Hl).
  do 2 eexists. split; [exact E|]. intros z. rewrite insert_key_entry in Hl by done.
  split; [exact Hl|by apply insert_entry_ok].
Qed.

Lemma ok_key_encode key seq type : len key < 2 ^ 32 - 8 → ok_key (EncodeInternalKey key seq type).
Proof. intros. unfold ok_key, EncodeInternalKey. slia. Qed.

(** The encoding the operations write out. *)
Lemma mem_entry_written key tag value :
  len key < 2 ^ 32 - 8 →
  PutFixed32 (u32 (len key)) ++ key ++ PutFixed64 tag ++ value
  = mem_entry (key ++ PutFixed64 tag, value).
Proof.
  intros Hk. unfold mem_entry. cbn [fst snd]. rewrite <- app_assoc. f_equal. f_equal.
  unfold u32. pose_len_nonneg. rewrite Z.mod_small by lia. slia.
Qed.

Lemma mem_Put_repr coins m es seq key value :
  mem_repr m es → len key < 2 ^ 32 - 8 →
  ∃ m', mem_Put coins m seq key value = Some m' ∧
        mem_repr m' (insert_entry (EncodeInternalKey key seq kTypeValue, value) es).
Proof.
  intros Hr Hk. unfold mem_Put. rewrite mem_entry_written by done.
  destruct (mem_insert_repr coins m es (EncodeInternalKey key seq kTypeValue, value) _ Hr
    (ok_key_encode _ _ _ Hk) eq_refl) as (r & l & E & Hl).
  unfold EncodeInternalKey in E. rewrite E. cbn [mbind option_bind]. eexists; split; [done|]. apply Hl.
Qed.

Lemma mem_Delete_repr coins m es seq key :
  mem_repr m es → len key < 2 ^ 32 - 8 →
  ∃ m', mem_Delete coins m seq key = Some m' ∧
        mem_repr m' (insert_entry (EncodeInternalKey key seq kTypeDeletion, []) es).
Proof.
  intros Hr Hk. unfold mem_Delete.
  rewrite <- (app_nil_r (PutFixed64 _)), mem_entry_written by done.
  destruct (mem_insert_repr coins m es (EncodeInternalKey key seq kTypeDeletion, []) _ Hr
    (ok_key_encode _ _ _ Hk) eq_refl) as (r & l & E & Hl).
  unfold EncodeInternalKey in E. rewrite E. cbn [mbind option_bind]. eexists; split; [done|]. apply Hl.
Qed.

(** ** Reading *)

Lemma rank_entry target es v :
  ok_key target → Forall (λ p, ok_key p.1) es →
  rank Comparator (mem_entry (target, v)) (mem_entry <$> es) = first_ge target es.
Proof.
  intros Ht. induction 1 as [|[k w] es Hq Hes IH]; [done|]. rewrite fmap_cons. simpl.
  rewrite Comparator_entry by done. unfold entry_less. cbn [fst]. case_match; [by f_equal|done].
Qed.

(** The skiplist node of entry [j]. *)
Definition mem_view (m : MemTable) (order : list nat) (es : list (bytes * bytes)) : Prop :=
  sl_view Comparator (list_ m) order (mem_entry <$> es) ∧ Forall (λ p, ok_key p.1) es.

Lemma mem_repr_view m es : mem_repr m es → ∃ order, mem_view m order es.
Proof. intros [Hr Hok]. destruct (sl_repr_view _ _ _ Hr) as [order Hv]. by exists order. Qed.

Lemma mem_view_length m order es : mem_view m order es → length order = length es.
Proof.
  intros [(vis & _ & E) _]. apply (f_equal length) in E. unfold keys in E.
  by rewrite !length_fmap in E.
Qed.

Lemma mem_view_key m order es j n p :
  mem_view m order es → order !! j = Some n → es !! j = Some p → it_key (list_ m) n = Some (mem_entry p).
Proof.
  intros [Hv _] Hj Hp. rewrite (it_key_spec _ _ _ _ j n Hv Hj), list_lookup_fmap, Hp. done.
Qed.

Lemma mem_view_ok m order es j p : mem_view m order es → es !! j = Some p → ok_key p.1.
Proof. intros [_ Hok] Hp. rewrite Forall_lookup in Hok. by eapply Hok. Qed.

Lemma mem_view_entry m order es j n :
  mem_view m order es → order !! j = Some n → ∃ p, es !! j = Some p.
Proof.
  intros Hv Hj. apply lookup_lt_Some in Hj. rewrite (mem_view_length _ _ _ Hv) in Hj.
  by apply lookup_lt_is_Some_2.
Qed.

Lemma mem_Get_spec m es key s :
  mem_repr m es → Forall wf_entry es → len key < 2 ^ 32 - 8 → read_seq s →
  mem_Get m key s = Some (read (version_of <$> es) key s).
Proof.
  intros Hr Hwf Hk Hs. destruct (mem_repr_view _ _ Hr) as [order Hv].
  rewrite (read_seek es key s (mem_repr_sorted _ _ Hr) Hwf Hs). unfold mem_Get.
  rewrite <- (app_nil_r (PutFixed64 _)), mem_entry_written by done.
  fold (seek_target key s).
  assert (ok_key (seek_target key s)) as Ht by (unfold ok_key, seek_target; slia).
  rewrite (it_Seek_spec Comparator _ order _ _ (proj1 Hv)). cbn [mbind option_bind].
  rewrite rank_entry by (done || apply Hv).
  destruct (order !! first_ge (seek_target key s) es) as [n|] eqn:En.
  - destruct (mem_view_entry _ _ _ _ _ Hv En) as [p Hp]. rewrite Hp.
    pose proof (mem_view_ok _ _ _ _ _ Hv Hp) as Hok.
    rewrite (mem_view_key _ _ _ _ _ _ Hv En Hp). cbn [mbind option_bind].
    rewrite mem_entry_klen by done. cbn [mbind option_bind].
    destruct (mem_entry_parts p Hok) as (-> & -> & -> & _). cbn [mbind option_bind seek_answer].
    destruct (Z.eqb_spec (len p.1 - 8) (len key)) as [E|E]; cbn [negb orb].
    + by destruct (bytes_eqb (ExtractUserKey p.1) key).
    + destruct (bytes_eqb (ExtractUserKey p.1) key) eqn:Eb; [|done]. exfalso. apply E.
      apply bytes_eqb_eq in Eb as <-. unfold ExtractUserKey.
      rewrite (proj2 (Z.leb_le _ _)) by apply Hok. rewrite len_slice; destruct Hok; lia.
  - apply lookup_ge_None in En. rewrite (mem_view_length _ _ _ Hv) in En.
    by rewrite (proj2 (lookup_ge_None _ _)).
Qed.

(** ** The iterator satisfies the interface *)

Definition mi_at (i : MemTableIterator) (es : list (bytes * bytes)) (j : nat) : Prop :=
  mem_repr (mi_mem i) es ∧
  ∃ order, mem_view (mi_mem i) order es ∧ it_ i = order !! j ∧
    match es !! j with
    | Some p => mi_valid_ i = true ∧ key_buf_ i = p.1 ∧ value_ i = p.2
    | None => mi_valid_ i = false
    end.

Lemma Decode_at i es order j :
  mem_repr (mi_mem i) es → mem_view (mi_mem i) order es →
  ∃ i', Decode i (order !! j) = Some i' ∧ mi_at i' es j.
Proof.
  intros Hr Hv. destruct (order !! j) as [n|] eqn:En; cbn [Decode].
  - destruct (mem_view_entry _ _ _ _ _ Hv En) as [p Hp].
    pose proof (mem_view_ok _ _ _ _ _ Hv Hp) as Hok.
    rewrite (mem_view_key _ _ _ _ _ _ Hv En Hp). cbn [mbind option_bind].
    rewrite mem_entry_klen by done. cbn [mbind option_bind].
    destruct (mem_entry_parts p Hok) as (-> & -> & Hval & Hlen). cbn [mbind option_bind].
    eexists; split; [done|]. split; [done|]. exists order. rewrite Hp.
    cbn [mi_mem it_ key_buf_ value_ mi_valid_]. split_and!; try done.
    + symmetry. apply ik_pair_split, Hok.
    + apply mem_entry_value; [done|]. rewrite Hlen. lia.
  - eexists; split; [done|]. split; [done|]. exists order.
    cbn [mi_mem it_ key_buf_ value_ mi_valid_]. split_and!; [done|done|].
    apply lookup_ge_None in En. rewrite (mem_view_length _ _ _ Hv) in En.
    by rewrite (proj2 (lookup_ge_None _ _)).
Qed.

#[global, program] Instance MemTableIterator_laws : IterLaws MemTableIterator := {|
  iter_open i es := mem_repr (mi_mem i) es;
  iter_at := mi_at
|}.
Next Obligation.
  intros i es Hr. destruct (mem_repr_view _ _ Hr) as [order Hv]. simpl. unfold mi_SeekToFirst.
  rewrite (it_SeekToFirst_spec _ _ _ _ (proj1 Hv)). cbn [mbind option_bind]. by apply Decode_at.
Qed.
Next Obligation.
  intros i es target Hr Ht. destruct (mem_repr_view _ _ Hr) as [order Hv]. simpl. unfold mi_Seek.
  rewrite (proj2 (Z.ltb_ge _ _)) by lia.
  assert (PutFixed32 (u32 (len target - 8)) ++ slice 0 (len target - 8) target
            ++ at_off (len target - 8) target = mem_entry (target, [])) as ->.
  { unfold mem_entry. cbn [fst snd]. rewrite app_nil_r, <- slice_split by lia. f_equal. f_equal.
    unfold u32. apply Z.mod_small. lia. }
  rewrite (it_Seek_spec Comparator _ order _ _ (proj1 Hv)). cbn [mbind option_bind].
  rewrite rank_entry by (done || apply Hv). by apply Decode_at.
Qed.
Next Obligation.
  intros i es j (Hr & order & Hv & Hi & _) Hj. simpl. unfold mi_Next. rewrite Hi.
  destruct (lookup_lt_is_Some_2 order j) as [n Hn]; [by rewrite (mem_view_length _ _ _ Hv)|].
  rewrite Hn. cbn [mbind option_bind]. rewrite (it_Next_spec _ _ _ _ _ _ (proj1 Hv) Hn).
  cbn [mbind option_bind]. by apply Decode_at.
Qed.
Next Obligation.
  intros i es j p (Hr & order & Hv & Hi & Hp) Hj. rewrite Hj in Hp. destruct Hp as (? & ? & ?).
  simpl. split; [done|]. destruct p; simpl in *; congruence.
Qed.
Next Obligation.
  intros i es j (Hr & order & Hv & Hi & Hp) Hj.
  by rewrite (proj2 (lookup_ge_None _ _)) in Hp.
Qed.
Next Obligation. by intros i es j (Hr & _). Qed.
Next Obligation. intros i es Hr. exact (mem_repr_sorted _ _ Hr). Qed.

(** ** ForEach *)

Definition foreach_args (p : bytes * bytes) : Z * Z * bytes * bytes :=
  let v := version_of p in (v_seq v, v_type v, v_key v, v_value v).

Lemma mem_decode_entry p : ok_key p.1 → mem_decode (mem_entry p) = Some (foreach_args p).
Proof.
  intros Hok. unfold mem_decode. rewrite mem_entry_klen by done. cbn [mbind option_bind].
  destruct (mem_entry_parts p Hok) as (-> & -> & Hval & Hlen). cbn [mbind option_bind]. f_equal.
  unfold foreach_args, version_of. cbn [v_seq v_type v_key v_value]. f_equal.
  apply mem_entry_value; [done|]. rewrite Hlen. lia.
Qed.

Lemma foreach_loop_spec m order es j fuel :
  mem_view m order es → (length order - j < fuel)%nat →
  foreach_loop fuel (list_ m) (order !! j) = Some (foreach_args <$> drop j es).
Proof.
  intros Hv. revert j. induction fuel as [|fuel IH]; intros j Hf; [lia|]. cbn [foreach_loop].
  destruct (order !! j) as [n|] eqn:E.
  - destruct (mem_view_entry _ _ _ _ _ Hv E) as [p Hp]. pose proof (lookup_lt_Some _ _ _ E) as Hlt.
    rewrite (mem_view_key _ _ _ _ _ _ Hv E Hp). cbn [mbind option_bind].
    rewrite mem_decode_entry by (by eapply mem_view_ok). cbn [mbind option_bind].
    rewrite (it_Next_spec _ _ _ _ _ _ (proj1 Hv) E). cbn [mbind option_bind].
    rewrite IH by lia. cbn [mbind option_bind]. by rewrite (drop_S es p j Hp).
  - apply lookup_ge_None in E. rewrite (mem_view_length _ _ _ Hv) in E. by rewrite drop_ge by lia.
Qed.

Lemma ForEach_spec m es : mem_repr m es → ForEach m = Some (foreach_args <$> es).
Proof.
  intros Hr. destruct (mem_repr_view _ _ Hr) as [order Hv]. unfold ForEach.
  rewrite (it_SeekToFirst_spec _ _ _ _ (proj1 Hv)). cbn [mbind option_bind].
  rewrite (foreach_loop_spec m order es 0); [done|done|].
  destruct Hv as [(vis & Hinv & _) _]. pose proof (si_length _ _ _ _ Hinv). lia.
Qed.

(** ** Main theorems *)

(** A sequence of writes, each with the coin flips of its insertion. *)
Inductive mem_op := MPut (seq : Z) (key value : bytes) | MDelete (seq : Z) (key : bytes).

Definition op_version (o : mem_op) : version :=
  match o with
  | MPut seq key value => mkVersion key seq kTypeValue value
  | MDelete seq key => mkVersion key seq kTypeDeletion []
  end.

Definition mem_apply (coins : list Z) (m : MemTable) (o : mem_op) : option MemTable :=
  match o with
  | MPut seq key value => mem_Put coins m seq key value
  | MDelete seq key => mem_Delete coins m seq key
  end.

Fixpoint mem_run (m : MemTable) (ops : list (list Z * mem_op)) : option MemTable :=
  match ops with
  | [] => Some m
  | (coins, o) :: ops => m ← mem_apply coins m o; mem_run m ops
  end.

(** What the database guarantees of the versions it writes: increasing
    sequence numbers that fit the tag, and keys that fit their length
    prefix. *)
Definition writes_ok (vs : list version) : Prop :=
  sorted_by (λ v w, v_seq v <? v_seq w) vs ∧
  Forall (λ v, 0 ≤ v_seq v < 2 ^ 56 ∧ len (v_key v) < 2 ^ 32 - 8) vs.

Definition mem_holds (m : MemTable) (vs : list version) : Prop :=
  ∃ es, mem_repr m es ∧ Forall wf_entry es ∧ es ≡ₚ entry_of <$> vs.

Lemma mem_holds_new : mem_holds new_MemTable [].
Proof. exists []. split_and!; [apply mem_repr_new|constructor|done]. Qed.

Lemma op_version_wf o : 0 ≤ v_seq (op_version o) < 2 ^ 56 → wf_version (op_version o).
Proof. intros H. split; [done|]. destruct o; [by right|by left]. Qed.

Lemma mem_apply_repr coins m es o :
  mem_repr m es → len (v_key (op_version o)) < 2 ^ 32 - 8 →
  ∃ m', mem_apply coins m o = Some m' ∧ mem_repr m' (insert_entry (entry_of (op_version o)) es).
Proof. destruct o; [apply mem_Put_repr|apply mem_Delete_repr]. Qed.

Lemma mem_run_repr m es ops :
  mem_repr m es → Forall (λ o, len (v_key (op_version o.2)) < 2 ^ 32 - 8) ops →
  ∃ m', mem_run m ops = Some m' ∧
        mem_repr m' (foldl (λ es o, insert_entry (entry_of (op_version o.2)) es) es ops).
Proof.
  intros Hr Hk. revert m es Hr. induction Hk as [|[coins o] ops Ho Hk IH]; intros m es Hr; [by exists m|].
  cbn [mem_run]. destruct (mem_apply_repr coins m es o Hr Ho) as (m1 & -> & Hr1).
  cbn [mbind option_bind]. by apply IH.
Qed.

(** Two versions that differ in key or sequence number have different
    internal keys. *)
Lemma entry_of_inj v w : wf_version v → wf_version w → (entry_of v).1 = (entry_of w).1 → v_seq v = v_seq w.
Proof.
  intros Hv Hw E. rewrite <- (version_of_entry_of v Hv), <- (version_of_entry_of w Hw).
  unfold version_of. cbn [v_seq]. by rewrite E.
Qed.

Lemma mem_apply_holds coins m vs o :
  mem_holds m vs → Forall wf_version vs → (∀ v, v ∈ vs → v_seq v < v_seq (op_version o)) →
  0 ≤ v_seq (op_version o) < 2 ^ 56 → len (v_key (op_version o)) < 2 ^ 32 - 8 →
  ∃ m', mem_apply coins m o = Some m' ∧ mem_holds m' (vs ++ [op_version o]).
Proof.
  intros (es & Hr & Hwf & Hp) Hvs Hlt Hs Hk.
  destruct (mem_apply_repr coins m es o Hr Hk) as (m' & E & Hr'). exists m'. split; [done|].
  pose proof (op_version_wf o Hs) as Hwo.
  assert (insert_entry (entry_of (op_version o)) es ≡ₚ entry_of (op_version o) :: es) as Hins.
  { apply insert_entry_perm; [by apply ok_key_encode|apply Hr|]. intros q Hq.
    rewrite Hp in Hq. apply list_elem_of_fmap in Hq as (v & -> & Hv). intros E'.
    rewrite Forall_forall in Hvs. apply entry_of_inj in E'; [|by apply Hvs|done].
    specialize (Hlt v Hv). lia. }
  eexists. split_and!; [exact Hr'| |].
  - rewrite Hins. constructor; [by exists (op_version o)|done].
  - rewrite Hins, Hp, fmap_app. simpl. by rewrite Permutation_cons_append.
Qed.

Lemma mem_run_holds m vs ops :
  mem_holds m vs → writes_ok (vs ++ (op_version ∘ snd <$> ops)) → Forall wf_version vs →
  ∃ m', mem_run m ops = Some m' ∧ mem_holds m' (vs ++ (op_version ∘ snd <$> ops)).
Proof.
  revert m vs. induction ops as [|[coins o] ops IH]; intros m vs Hm Hok Hvs.
  { exists m. by rewrite app_nil_r. }
  rewrite fmap_cons, cons_middle, app_assoc in *. cbn [mem_run].
  pose proof Hok as [Hs Hf]. apply sorted_by_app in Hs as (Hs & _ & _).
  apply sorted_by_app in Hs as (_ & _ & Hlt).
  rewrite !Forall_app in Hf. destruct Hf as [[_ Hfo] _]. apply Forall_singleton in Hfo as [Hso Hko].
  destruct (mem_apply_holds coins m vs o Hm Hvs) as (m1 & E & Hm1); [|done|done|].
  { intros v Hv. specialize (Hlt v (op_version o) Hv (list_elem_of_here _ _)). lia. }
  rewrite E. cbn [mbind option_bind]. apply IH; [done|done|].
  apply Forall_app. split; [done|]. constructor; [by apply op_version_wf|done].
Qed.

Lemma unique_seqs_increasing vs : sorted_by (λ v w, v_seq v <? v_seq w) vs → unique_seqs vs.
Proof.
  unfold unique_seqs. induction vs as [|v vs IH]; [constructor|]. intros [Hv Hs]. rewrite fmap_cons.
  apply NoDup_cons. split; [|by apply IH]. intros (w & E & Hw)%list_elem_of_fmap.
  rewrite Forall_forall in Hv. specialize (Hv w Hw). injection E as _ E. lia.
Qed.

Lemma versions_perm es vs :
  Forall wf_version vs → es ≡ₚ entry_of <$> vs → version_of <$> es ≡ₚ vs.
Proof.
  intros Hvs Hp. rewrite Hp, <- list_fmap_compose. clear Hp.
  induction Hvs as [|v vs Hv Hvs IH]; [done|]. rewrite fmap_cons. simpl.
  rewrite version_of_entry_of by done. constructor. by apply IH.
Qed.

(** C24: the memtable implements reads: after any sequence of Put and Delete
    calls with increasing sequence numbers, Get at any sequence number
    returns the newest version not newer than it, a deletion as kDeleted,
    without ever leaving an entry. *)
Theorem memtable_get_reads (ops : list (list Z * mem_op)) :
  writes_ok (op_version ∘ snd <$> ops) →
  ∃ m, mem_run new_MemTable ops = Some m ∧
    ∀ key s, len key < 2 ^ 32 - 8 → read_seq s →
      mem_Get m key s = Some (read (op_version ∘ snd <$> ops) key s).
Proof.
  intros Hok. destruct (mem_run_holds new_MemTable [] ops) as (m & E & es & Hr & Hwf & Hp);
    [apply mem_holds_new|done|done|]. simpl in Hp. exists m. split; [done|]. intros key s Hk Hs.
  rewrite (mem_Get_spec m es) by done. f_equal. destruct Hok as [Hinc Hf].
  assert (Forall wf_version (op_version ∘ snd <$> ops)) as Hvs.
  { apply Forall_fmap. rewrite Forall_fmap in Hf. eapply Forall_impl; [exact Hf|].
    intros [c o] [H _]. by apply op_version_wf. }
  pose proof (versions_perm _ _ Hvs Hp) as Hperm. symmetry.
  apply read_perm; [by apply unique_seqs_increasing|by rewrite Hperm].
Qed.

Lemma memtable_get_reads_witness :
  let ops := [([0; 1], MPut 1 [Byte.x61] [Byte.x31]); ([], MPut 2 [Byte.x62] [Byte.x32]);
              ([0], MDelete 3 [Byte.x61])] in
  ∃ m, mem_run new_MemTable ops = Some m ∧
    ∀ key s, len key < 2 ^ 32 - 8 → read_seq s →
      mem_Get m key s = Some (read (op_version ∘ snd <$> ops) key s).
Proof.
  apply (memtable_get_reads [([0; 1], MPut 1 [Byte.x61] [Byte.x31]);
    ([], MPut 2 [Byte.x62] [Byte.x32]); ([0], MDelete 3 [Byte.x61])]).
  split; [|by repeat constructor]. simpl. by repeat constructor.
Defined.

(** The flush order: ForEach visits every version written, each exactly
    once, in strictly increasing internal-key order, and decodes it back to
    the arguments it was written with. *)
Theorem memtable_foreach_sorted (ops : list (list Z * mem_op)) :
  writes_ok (op_version ∘ snd <$> ops) →
  ∃ m vs, mem_run new_MemTable ops = Some m ∧
    ForEach m = Some ((λ v, (v_seq v, v_type v, v_key v, v_value v)) <$> vs) ∧
    vs ≡ₚ op_version ∘ snd <$> ops ∧ keys_sorted (entry_of <$> vs).
Proof.
  intros Hok. destruct (mem_run_holds new_MemTable [] ops) as (m & E & es & Hr & Hwf & Hp);
    [apply mem_holds_new|done|done|]. simpl in Hp. destruct Hok as [Hinc Hf].
  assert (Forall wf_version (op_version ∘ snd <$> ops)) as Hvs.
  { apply Forall_fmap. rewrite Forall_fmap in Hf. eapply Forall_impl; [exact Hf|].
    intros [c o] [H _]. by apply op_version_wf. }
  exists m, (version_of <$> es). split_and!; [done| |by apply versions_perm|].
  - rewrite (ForEach_spec m es Hr), <- list_fmap_compose. done.
  - rewrite <- list_fmap_compose. assert (entry_of ∘ version_of <$> es = es) as ->.
    { clear -Hwf. induction Hwf as [|p es Hp _ IH]; [done|]. rewrite fmap_cons, IH. f_equal.
      by apply entry_of_version_of. }
    by eapply mem_repr_sorted.
Qed.

Lemma memtable_foreach_sorted_witness :
  let ops := [([0; 1], MPut 1 [Byte.x61] [Byte.x31]); ([], MPut 2 [Byte.x62] [Byte.x32]);
              ([0], MDelete 3 [Byte.x61])] in
  ∃ m vs, mem_run new_MemTable ops = Some m ∧
    ForEach m = Some ((λ v, (v_seq v, v_type v, v_key v, v_value v)) <$> vs) ∧
    vs ≡ₚ op_version ∘ snd <$> ops ∧ keys_sorted (entry_of <$> vs).
Proof.
  apply (memtable_foreach_sorted [([0; 1], MPut 1 [Byte.x61] [Byte.x31]);
    ([], MPut 2 [Byte.x62] [Byte.x32]); ([0], MDelete 3 [Byte.x61])]).
  split; [|by repeat constructor]. simpl. by repeat constructor.
Defined.
