(* ===== verification/Merge.v ===== *)
(** * The merging iterator

    Models [class MergingIterator] of include/bedrockkv/iterator.h: a k-way
    merge that finds the smallest child by a linear scan.  The children are any
    iterators that satisfy [IterLaws]; the merge is shown to satisfy the laws
    again, over the sorted union of the children's runs. *)

From S2P Require Import Prelude InternalKey Mvcc Iterator MemTable.

Section Merge.
Context {I : Type} `{IterLaws I}.

(** [current_] points to a child. *)
Record MergingIterator := mkMerge { children_ : list I; current_ : option nat }.

Definition new_MergingIterator (children : list I) : MergingIterator := mkMerge children None.

Definition merge_Valid (m : MergingIterator) : bool :=
  match current_ m with Some _ => true | None => false end.

(** The loop of [FindSmallest]: [best] is [current_] with its key. *)
Fixpoint find_smallest (children : list I) (n : nat) (best : option (nat * bytes)) : option (nat * bytes) :=
  match children with
  | [] => best
  | c :: children =>
      let better :=
        iter_Valid c &&
        match best with None => true | Some (_, k) => InternalKeyComparator (iter_key c) k end in
      find_smallest children (S n) (if better then Some (n, iter_key c) else best)
  end.

Definition FindSmallest (children : list I) : MergingIterator :=
  mkMerge children (fst <$> find_smallest children 0 None).

Definition merge_SeekToFirst (m : MergingIterator) : option MergingIterator :=
  FindSmallest <$> mapM iter_SeekToFirst (children_ m).

Definition merge_Seek (m : MergingIterator) (target : bytes) : option MergingIterator :=
  FindSmallest <$> mapM (λ c, iter_Seek c target) (children_ m).

Definition merge_Next (m : MergingIterator) : option MergingIterator :=
  match current_ m with
  | None => Some (FindSmallest (children_ m))
  | Some n =>
      c ← children_ m !! n;
      c' ← iter_Next c;
      Some (FindSmallest (<[n := c']> (children_ m)))
  end.

(** Reading [key()] of an invalid merge is undefined; the model returns the
    empty string there. *)
Definition merge_key (m : MergingIterator) : bytes :=
  default [] (n ← current_ m; iter_key <$> children_ m !! n).
Definition merge_value (m : MergingIterator) : bytes :=
  default [] (n ← current_ m; iter_value <$> children_ m !! n).

#[global] Instance MergingIterator_iter : SortedIter MergingIterator := {|
  iter_Valid := merge_Valid;
  iter_SeekToFirst := merge_SeekToFirst;
  iter_Seek := merge_Seek;
  iter_Next := merge_Next;
  iter_key := merge_key;
  iter_value := merge_value
|}.

(** ** The children with their runs and positions *)

Record child := mkChild { c_iter : I; c_run : list (bytes * bytes); c_pos : nat }.

Definition child_ok (c : child) : Prop := iter_at (c_iter c) (c_run c) (c_pos c).
Definition rest (c : child) : list (bytes * bytes) := drop (c_pos c) (c_run c).

Lemma child_valid c : child_ok c → iter_Valid (c_iter c) = bool_decide (rest c ≠ []).
Proof.
  unfold child_ok, rest. intros Hc. destruct (decide (c_pos c < length (c_run c))%nat) as [Hl|Hl].
  - destruct (lookup_lt_is_Some_2 _ _ Hl) as [p Hp].
    destruct (iter_at_entry _ _ _ _ Hc Hp) as [-> _]. symmetry. apply bool_decide_eq_true_2.
    rewrite (drop_S _ _ _ Hp). done.
  - rewrite (iter_at_end _ _ _ Hc) by lia. symmetry. apply bool_decide_eq_false_2.
    rewrite drop_ge by lia. tauto.
Qed.

Lemma child_head c p l :
  child_ok c → rest c = p :: l → (iter_key (c_iter c), iter_value (c_iter c)) = p.
Proof.
  unfold child_ok, rest. intros Hc Hr. apply (iter_at_entry _ _ (c_pos c) _ Hc).
  rewrite <- (Nat.add_0_r (c_pos c)), <- lookup_drop. by rewrite Hr.
Qed.

Lemma find_smallest_spec cs n best :
  Forall child_ok cs →
  match find_smallest (c_iter <$> cs) n best with
  | None => best = None ∧ ∀ c, c ∈ cs → rest c = []
  | Some (m, k) =>
      (best = Some (m, k) ∨
       ∃ i c p l, m = (n + i)%nat ∧ cs !! i = Some c ∧ rest c = p :: l ∧ k = p.1) ∧
      (∀ c p l, c ∈ cs → rest c = p :: l → InternalKeyComparator p.1 k = false) ∧
      (∀ b, best = Some b → InternalKeyComparator b.2 k = false)
  end.
Proof.
  revert n best. induction cs as [|c cs IH]; intros n best Hok.
  { simpl. destruct best as [[m k]|].
    - split_and!; [by left|intros c p l Hc; by apply not_elem_of_nil in Hc|].
      intros b [= <-]. apply sw_irrefl.
    - split; [done|]. intros c Hc. by apply not_elem_of_nil in Hc. }
  inversion Hok as [|? ? Hc Hcs]; subst. rewrite fmap_cons. cbn [find_smallest].
  rewrite (child_valid c Hc). destruct (rest c) as [|p l] eqn:Er.
  { rewrite bool_decide_eq_false_2 by tauto. cbn [andb]. specialize (IH (S n) best Hcs).
    destruct (find_smallest _ _ _) as [[m k]|].
    - destruct IH as (Hm & Hall & Hbest). split_and!; [|intros c' p l [->|Hc']%elem_of_cons; [by rewrite Er|by apply Hall]|done].
      destruct Hm as [?|(i & c' & p & l & -> & ? & ? & ?)]; [by left|right].
      exists (S i), c', p, l. split_and!; [lia|done..].
    - destruct IH as [? Hall]. split; [done|]. by intros c' [->|Hc']%elem_of_cons; [|apply Hall]. }
  rewrite bool_decide_eq_true_2 by done. cbn [andb].
  pose proof (child_head c p l Hc Er) as Hkey. apply (f_equal fst) in Hkey. cbn [fst] in Hkey. rewrite Hkey.
  destruct (match best with None => true | Some (_, k) => InternalKeyComparator p.1 k end) eqn:Eb.
  - specialize (IH (S n) (Some (n, p.1)) Hcs). destruct (find_smallest _ _ _) as [[m k]|]; [|by destruct IH].
    destruct IH as (Hm & Hall & Hbest). specialize (Hbest _ eq_refl). cbn [snd] in Hbest. split_and!.
    + right. destruct Hm as [[= <- <-]|(i & c' & p' & l' & -> & ? & ? & ?)].
      * exists 0%nat, c, p, l. split_and!; [lia|done..].
      * exists (S i), c', p', l'. split_and!; [lia|done..].
    + intros c' p' l' [->|Hc']%elem_of_cons Hr; [|by eapply Hall]. rewrite Er in Hr. by injection Hr as <- <-.
    + intros [m0 k0] ->. cbn [snd]. destruct (InternalKeyComparator k0 k) eqn:E; [|done].
      pose proof (sw_trans _ _ _ Eb E). congruence.
  - destruct best as [[m0 k0]|]; [|done]. specialize (IH (S n) (Some (m0, k0)) Hcs).
    destruct (find_smallest _ _ _) as [[m k]|]; [|by destruct IH].
    destruct IH as (Hm & Hall & Hbest). specialize (Hbest _ eq_refl). cbn [snd] in Hbest. split_and!.
    + destruct Hm as [?|(i & c' & p' & l' & -> & ? & ? & ?)]; [by left|right].
      exists (S i), c', p', l'. split_and!; [lia|done..].
    + intros c' p' l' [->|Hc']%elem_of_cons Hr; [|by eapply Hall]. rewrite Er in Hr. injection Hr as <- <-.
      exact (sw_le_trans InternalKeyComparator k k0 p.1 Hbest Eb).
    + intros b [= <-]. done.
Qed.

(** ** The merged run *)

(** The children stand at their positions and what is left of their runs is
    what is left of the sorted run [es] from [j] on. *)
Definition merge_at (m : MergingIterator) (es : list (bytes * bytes)) (j : nat) : Prop :=
  ∃ cs, children_ m = c_iter <$> cs ∧ Forall child_ok cs ∧ keys_sorted es ∧
    es ≡ₚ concat (c_run <$> cs) ∧ drop j es ≡ₚ concat (rest <$> cs) ∧
    current_ m = fst <$> find_smallest (children_ m) 0 None.

Definition merge_open (m : MergingIterator) (es : list (bytes * bytes)) : Prop :=
  ∃ runs, Forall2 iter_open (children_ m) runs ∧ keys_sorted es ∧ es ≡ₚ concat runs.

(** The smallest child holds the next entry of the merged run. *)
Lemma smallest_is_next cs (d : list (bytes * bytes)) :
  Forall child_ok cs → (∀ c, c ∈ cs → keys_sorted (rest c)) → keys_sorted d →
  d ≡ₚ concat (rest <$> cs) →
  match d with
  | [] => find_smallest (c_iter <$> cs) 0 None = None
  | p :: d' => ∃ n c l, find_smallest (c_iter <$> cs) 0 None = Some (n, p.1) ∧
                        cs !! n = Some c ∧ rest c = p :: l
  end.
Proof.
  intros Hok Hsort Hd Hp. pose proof (find_smallest_spec cs 0 None Hok) as Hf.
  assert (∀ q, q ∈ d ↔ ∃ c, c ∈ cs ∧ q ∈ rest c) as Hin.
  { intros q. rewrite Hp, elem_of_concat. setoid_rewrite list_elem_of_fmap. split.
    - intros (l & (c & -> & Hc) & Hq). by exists c.
    - intros (c & Hc & Hq). exists (rest c). split; [by exists c|done]. }
  destruct (find_smallest _ _ _) as [[m k]|].
  - destruct Hf as ([?|(i & c & p & l & -> & Hi & Hr & ->)] & Hall & _); [done|]. simpl plus.
    assert (p ∈ d) as Hpd.
    { apply Hin. exists c. split; [by eapply list_elem_of_lookup_2|]. rewrite Hr. apply list_elem_of_here. }
    destruct d as [|q d]; [by apply not_elem_of_nil in Hpd|].
    assert (q = p) as <-; [|by exists i, c, l].
    destruct (proj1 (Hin q) (list_elem_of_here _ _)) as (c2 & Hc2 & Hq2).
    destruct (rest c2) as [|h t] eqn:Er2; [by apply not_elem_of_nil in Hq2|].
    pose proof (Hall c2 h t Hc2 Er2) as Hh.
    assert (h ∈ q :: d) as Hhd by (apply Hin; exists c2; rewrite Er2; split; [done|apply list_elem_of_here]).
    pose proof (Hsort c2 Hc2) as Hs2. rewrite Er2 in Hs2. destruct Hs2 as [Hht _]. destruct Hd as [Hqd _].
    rewrite Forall_forall in Hqd, Hht.
    assert (q = h) as <-.
    { apply elem_of_cons in Hq2 as [->|Hq2]; [done|]. apply elem_of_cons in Hhd as [->|Hhd]; [done|].
      specialize (Hqd h Hhd). specialize (Hht q Hq2). unfold entry_less in *.
      rewrite (sw_asym _ _ _ Hqd) in Hht. done. }
    apply elem_of_cons in Hpd as [->|Hpd]; [done|].
    specialize (Hqd p Hpd). unfold entry_less in Hqd. congruence.
  - destruct Hf as [_ Hall]. destruct d as [|q d]; [done|].
    destruct (proj1 (Hin q) (list_elem_of_here _ _)) as (c & Hc & Hq).
    rewrite (Hall c Hc) in Hq. by apply not_elem_of_nil in Hq.
Qed.
Lemma child_rest_sorted c : child_ok c → keys_sorted (rest c).
Proof.
  intros Hc. pose proof (iter_open_sorted _ _ (iter_at_open _ _ _ Hc)) as Hs. unfold rest.
  rewrite <- (take_drop (c_pos c) (c_run c)) in Hs. by apply sorted_by_app in Hs as (_ & ? & _).
Qed.

Lemma drop_sorted j es : keys_sorted es → keys_sorted (drop j es).
Proof. intros Hs. rewrite <- (take_drop j es) in Hs. by apply sorted_by_app in Hs as (_ & ? & _). Qed.

Lemma merge_at_current m es j :
  merge_at m es j →
  match es !! j with
  | Some p => ∃ n c l cs, current_ m = Some n ∧ cs !! n = Some c ∧ child_ok c ∧ rest c = p :: l ∧
                children_ m = c_iter <$> cs
  | None => current_ m = None
  end.
Proof.
  intros (cs & Hch & Hok & Hs & _ & Hd & Hcur). rewrite Hch in Hcur.
  pose proof (smallest_is_next cs (drop j es) Hok) as Hnext.
  specialize (Hnext (λ c Hc, child_rest_sorted c (proj1 (Forall_forall _ _) Hok c Hc))).
  specialize (Hnext (drop_sorted j es Hs) Hd).
  assert (es !! j = head (drop j es)) as ->.
  { rewrite <- (Nat.add_0_r j) at 1. rewrite <- lookup_drop. by destruct (drop j es). }
  destruct (drop j es) as [|p d]; simpl; [by rewrite Hcur, Hnext|].
  destruct Hnext as (n & c & l & E & Hc & Hr). exists n, c, l, cs.
  split_and!; [by rewrite Hcur, E|done| |done|done].
  rewrite Forall_lookup in Hok. by eapply Hok.
Qed.

(** Moving every child with [f] to position [pos]. *)
Lemma mapM_children (f : I → option I) (pos : list (bytes * bytes) → nat) children runs :
  Forall2 iter_open children runs →
  (∀ i run, iter_open i run → ∃ i', f i = Some i' ∧ iter_at i' run (pos run)) →
  ∃ cs, mapM f children = Some (c_iter <$> cs) ∧ Forall child_ok cs ∧ c_run <$> cs = runs ∧
        Forall (λ c, c_pos c = pos (c_run c)) cs.
Proof.
  intros Hall Hf. induction Hall as [|i run children runs Hi Hall IH].
  { exists []. done. }
  destruct (Hf i run Hi) as (i' & E & Hat). destruct IH as (cs & E' & Hok & Hr & Hp).
  exists (mkChild i' run (pos run) :: cs). split_and!.
  - simpl. rewrite E. simpl. rewrite E'. done.
  - by constructor.
  - rewrite fmap_cons. by rewrite Hr.
  - by constructor.
Qed.

Lemma merge_moved m (f : I → option I) (pos : list (bytes * bytes) → nat) es j :
  merge_open m es →
  (∀ i run, iter_open i run → ∃ i', f i = Some i' ∧ iter_at i' run (pos run)) →
  (∀ runs, es ≡ₚ concat runs → Forall keys_sorted runs →
           drop j es ≡ₚ concat ((λ r, drop (pos r) r) <$> runs)) →
  ∃ m', (FindSmallest <$> mapM f (children_ m)) = Some m' ∧ merge_at m' es j.
Proof.
  intros (runs & Hall & Hs & Hp) Hf Hd.
  assert (Forall keys_sorted runs) as Hruns.
  { clear -Hall. induction Hall as [|i run ? ? Hi _ IH]; constructor; [by eapply iter_open_sorted|done]. }
  destruct (mapM_children f pos _ _ Hall Hf) as (cs & -> & Hok & Hr & Hpos).
  eexists; split; [done|]. exists cs. split_and!; try done.
  - by rewrite Hr.
  - rewrite (Hd runs Hp Hruns), <- Hr, <- list_fmap_compose.
    assert ((λ r, drop (pos r) r) ∘ c_run <$> cs = rest <$> cs) as ->; [|done].
    apply list_fmap_ext. intros i c Hc. simpl. unfold rest.
    rewrite Forall_lookup in Hpos. by rewrite (Hpos i c Hc).
Qed.

(** Advancing the child that holds the next entry. *)
Lemma rest_insert cs n c c' p l :
  cs !! n = Some c → rest c = p :: l → rest c' = l →
  concat (rest <$> cs) ≡ₚ p :: concat (rest <$> <[n := c']> cs).
Proof.
  intros Hn Hr Hr'. pose proof (lookup_lt_Some _ _ _ Hn) as Hlt.
  rewrite (insert_take_drop cs n c') by done. rewrite <- (take_drop_middle cs n c Hn) at 1.
  rewrite !fmap_app, !fmap_cons, !concat_app. simpl. rewrite Hr, Hr'. simpl.
  by rewrite <- Permutation_middle.
Qed.

Lemma c_run_insert (cs : list child) (n : nat) c c' :
  cs !! n = Some c → c_run c' = c_run c → c_run <$> <[n := c']> cs = c_run <$> cs.
Proof.
  intros Hn Hr. rewrite list_fmap_insert, Hr. apply list_insert_id. by rewrite list_lookup_fmap, Hn.
Qed.

Lemma merge_Next_at m es j :
  merge_at m es j → (j < length es)%nat → ∃ m', merge_Next m = Some m' ∧ merge_at m' es (S j).
Proof.
  intros Hat Hj. destruct (lookup_lt_is_Some_2 es j Hj) as [p Hp].
  destruct (Hat) as (cs & Hch & Hok & Hs & Hperm & Hd & Hcur). rewrite Hch in Hcur.
  pose proof (smallest_is_next cs (drop j es) Hok) as Hnext.
  specialize (Hnext (λ c Hc, child_rest_sorted c (proj1 (Forall_forall _ _) Hok c Hc))).
  specialize (Hnext (drop_sorted j es Hs) Hd). rewrite (drop_S es p j Hp) in Hnext, Hd.
  destruct Hnext as (n & c & l & E & Hc & Hr). rewrite E in Hcur.
  unfold merge_Next. rewrite Hcur. cbn [fmap option_fmap option_map fst]. rewrite Hch, list_lookup_fmap, Hc.
  cbn [fmap option_fmap option_map mbind option_bind].
  assert (child_ok c) as Hcok by (rewrite Forall_lookup in Hok; by eapply Hok).
  destruct (iter_at_next _ _ _ Hcok) as (i' & -> & Hi').
  { destruct (decide (c_pos c < length (c_run c))%nat) as [|Hge]; [done|].
    unfold rest in Hr. rewrite drop_ge in Hr by lia. done. }
  cbn [mbind option_bind]. eexists; split; [done|].
  set (c' := mkChild i' (c_run c) (S (c_pos c))).
  assert (rest c' = l) as Hr'.
  { unfold rest, c'. cbn [c_pos c_run]. replace (S (c_pos c)) with (c_pos c + 1)%nat by lia.
    rewrite <- drop_drop. unfold rest in Hr. by rewrite Hr. }
  exists (<[n := c']> cs). cbn [FindSmallest children_ current_]. split_and!.
  - by rewrite list_fmap_insert.
  - by apply Forall_insert.
  - done.
  - by rewrite (c_run_insert cs n c c').
  - rewrite (rest_insert cs n c c' p l Hc Hr Hr') in Hd. by apply Permutation_cons_inv in Hd.
  - done.
Qed.

(** *** Runs that share entries

    Two children may hold the same entry (a memtable being flushed and its
    table); the merge then yields it twice. *)

Definition merge_rest (m : MergingIterator) (cs : list child) : Prop :=
  children_ m = c_iter <$> cs ∧ Forall child_ok cs ∧
  current_ m = fst <$> find_smallest (children_ m) 0 None.

Lemma elem_of_rests (cs : list child) q : q ∈ concat (rest <$> cs) ↔ ∃ c, c ∈ cs ∧ q ∈ rest c.
Proof.
  rewrite elem_of_concat. setoid_rewrite list_elem_of_fmap. split.
  - intros (l & (c & -> & Hc) & Hq). by exists c.
  - intros (c & Hc & Hq). exists (rest c). split; [by exists c|done].
Qed.

Lemma advance_child c p l :
  child_ok c → rest c = p :: l →
  ∃ i', iter_Next (c_iter c) = Some i' ∧
    let c' := mkChild i' (c_run c) (S (c_pos c)) in child_ok c' ∧ rest c' = l.
Proof.
  intros Hc Hr. destruct (iter_at_next _ _ _ Hc) as (i' & E & Hi').
  { destruct (decide (c_pos c < length (c_run c))%nat) as [|Hge]; [done|].
    unfold rest in Hr. rewrite drop_ge in Hr by lia. done. }
  exists i'. split; [done|]. split; [done|]. unfold rest in *. cbn [c_pos c_run].
  replace (S (c_pos c)) with (c_pos c + 1)%nat by lia. rewrite <- drop_drop. by rewrite Hr.
Qed.

Lemma merge_rest_step m cs :
  merge_rest m cs →
  match current_ m with
  | None => concat (rest <$> cs) = []
  | Some n => ∃ p m' cs', (merge_key m, merge_value m) = p ∧
      Forall (λ q, entry_less q p = false) (concat (rest <$> cs)) ∧
      merge_Next m = Some m' ∧ merge_rest m' cs' ∧ concat (rest <$> cs) ≡ₚ p :: concat (rest <$> cs')
  end.
Proof.
  intros (Hch & Hok & Hcur). pose proof (find_smallest_spec cs 0 None Hok) as Hf. rewrite Hch in Hcur.
  destruct (find_smallest _ _ _) as [[n k]|] eqn:E; rewrite Hcur; cbn [fmap option_fmap option_map fst].
  - destruct Hf as ([?|(i & c & p & l & -> & Hi & Hr & ->)] & Hall & _); [done|]. cbn [plus].
    assert (child_ok c) as Hc by (rewrite Forall_lookup in Hok; by eapply Hok).
    destruct (advance_child c p l Hc Hr) as (i' & En & Hc' & Hr').
    exists p, (FindSmallest (<[i := i']> (children_ m))), (<[i := mkChild i' (c_run c) (S (c_pos c))]> cs).
    split_and!.
    + unfold merge_key, merge_value. rewrite Hcur, Hch. cbn. rewrite list_lookup_fmap, Hi. cbn.
      by apply (child_head c p l).
    + rewrite Forall_forall. intros q (c2 & Hc2 & Hq)%elem_of_rests.
      destruct (rest c2) as [|h t] eqn:Er2; [by apply not_elem_of_nil in Hq|].
      pose proof (Hall c2 h t Hc2 Er2) as Hh. unfold entry_less.
      apply elem_of_cons in Hq as [->|Hq]; [done|].
      assert (keys_sorted (rest c2)) as Hs2.
      { apply child_rest_sorted. rewrite Forall_forall in Hok. by apply Hok. }
      rewrite Er2 in Hs2. destruct Hs2 as [Hht _]. rewrite Forall_forall in Hht. specialize (Hht q Hq).
      apply not_true_is_false. intros Hlt. unfold entry_less in Hht.
      rewrite (sw_trans _ _ _ Hht Hlt) in Hh. done.
    + unfold merge_Next. rewrite Hcur. cbn. rewrite Hch, list_lookup_fmap, Hi. cbn. rewrite En. done.
    + split_and!; [|by apply Forall_insert|done]. cbn [FindSmallest children_]. by rewrite Hch, list_fmap_insert.
    + by apply rest_insert with c l.
  - destruct Hf as [_ Hall]. apply elem_of_nil_inv. intros q (c & Hc & Hq)%elem_of_rests.
    rewrite (Hall c Hc) in Hq. by apply not_elem_of_nil in Hq.
Qed.

Lemma merge_rest_walks m cs :
  merge_rest m cs → ∃ es, walks m es ∧ es ≡ₚ concat (rest <$> cs) ∧ weakly_sorted es.
Proof.
  remember (length (concat (rest <$> cs))) as n eqn:En. revert m cs En.
  induction n as [|n IH]; intros m cs En Hm; pose proof (merge_rest_step m cs Hm) as Hstep.
  - symmetry in En. apply nil_length_inv in En. rewrite En in *. exists [].
    split_and!; [|done..]. cbn. unfold merge_Valid. destruct (current_ m); [|done].
    destruct Hstep as (p & m' & cs' & _ & _ & _ & _ & Hp). by apply Permutation_nil_cons in Hp.
  - destruct (current_ m) eqn:Ec; [|by rewrite Hstep in En].
    destruct Hstep as (p & m' & cs' & Hkv & Hmin & Hnext & Hm' & Hp).
    destruct (IH m' cs') as (es & Hw & Hpe & Hs); [|done|].
    { apply Permutation_length in Hp. cbn in Hp. lia. }
    exists (p :: es). split_and!.
    + cbn. unfold merge_Valid. rewrite Ec. split_and!; [done..|]. by exists m'.
    + by rewrite Hp, Hpe.
    + split; [|done]. rewrite Hpe. rewrite Hp in Hmin. by inversion Hmin.
Qed.

Lemma merge_moved_walks m (f : I → option I) (pos : list (bytes * bytes) → nat) runs :
  Forall2 iter_open (children_ m) runs →
  (∀ i run, iter_open i run → ∃ i', f i = Some i' ∧ iter_at i' run (pos run)) →
  ∃ m' es, (FindSmallest <$> mapM f (children_ m)) = Some m' ∧ walks m' es ∧
    es ≡ₚ concat ((λ r, drop (pos r) r) <$> runs) ∧ weakly_sorted es.
Proof.
  intros Hall Hf. destruct (mapM_children f pos _ _ Hall Hf) as (cs & -> & Hok & Hr & Hpos).
  destruct (merge_rest_walks (FindSmallest (c_iter <$> cs)) cs) as (es & Hw & Hp & Hs); [done|].
  exists (FindSmallest (c_iter <$> cs)), es. split_and!; [done|done| |done].
  rewrite Hp, <- Hr, <- list_fmap_compose.
  assert ((λ r, drop (pos r) r) ∘ c_run <$> cs = rest <$> cs) as ->; [|done].
  apply list_fmap_ext. intros i c Hc. simpl. unfold rest.
  rewrite Forall_lookup in Hpos. by rewrite (Hpos i c Hc).
Qed.

#[global, program] Instance MergingIterator_laws : IterLaws MergingIterator := {|
  iter_open := merge_open;
  iter_at := merge_at
|}.
Next Obligation.
  intros m es Ho. apply (merge_moved m _ (λ _, 0%nat) es 0 Ho).
  - intros i run. apply iter_at_first.
  - intros runs Hp _. rewrite drop_0, Hp. by rewrite list_fmap_id.
Qed.
Next Obligation.
  intros m es target Ho Ht. apply (merge_moved m _ (first_ge target) es _ Ho).
  - intros i run Hi. by apply iter_at_seek.
  - intros runs Hp Hruns. destruct Ho as (_ & _ & Hs & _).
    rewrite first_ge_filter by done. rewrite Hp, filter_concat.
    assert (filter (λ p, InternalKeyComparator p.1 target = false) <$> runs
            = (λ r, drop (first_ge target r) r) <$> runs) as ->; [|done].
    apply list_fmap_ext. intros i r Hr. rewrite Forall_lookup in Hruns.
    symmetry. apply first_ge_filter. by eapply Hruns.
Qed.
Next Obligation. intros m es j. apply merge_Next_at. Qed.
Next Obligation.
  intros m es j p Hat Hp. pose proof (merge_at_current m es j Hat) as Hc. rewrite Hp in Hc.
  destruct Hc as (n & c & l & cs & Hcur & Hn & Hok & Hr & Hch).
  simpl. unfold merge_Valid, merge_key, merge_value. rewrite Hcur, Hch. simpl.
  rewrite list_lookup_fmap, Hn. simpl. split; [done|]. by eapply child_head.
Qed.
Next Obligation.
  intros m es j Hat Hj. pose proof (merge_at_current m es j Hat) as Hc.
  rewrite (proj2 (lookup_ge_None es j)) in Hc by done. simpl. unfold merge_Valid. by rewrite Hc.
Qed.
Next Obligation.
  intros m es j (cs & Hch & Hok & Hs & Hp & _). exists (c_run <$> cs). split_and!; [|done|done].
  rewrite Hch. clear -Hok. induction Hok as [|c cs Hc _ IH]; constructor; [|done].
  by eapply iter_at_open.
Qed.
Next Obligation. by intros m es (runs & _ & Hs & _). Qed.

(** C25: the merge is the sorted union: over children open on any sorted runs
    whose union has no duplicate internal key, SeekToFirst walks the whole
    union in order and Seek walks exactly its entries at or after the
    target. *)
Theorem merge_walks_union (children : list I) (runs : list (list (bytes * bytes)))
    (es : list (bytes * bytes)) (target : bytes) :
  Forall2 iter_open children runs → keys_sorted es → es ≡ₚ concat runs → 8 ≤ len target < 2 ^ 32 →
  ∃ m m', merge_SeekToFirst (new_MergingIterator children) = Some m ∧
    iter_collect (S (length es)) m = Some es ∧
    merge_Seek (new_MergingIterator children) target = Some m' ∧
    iter_collect (S (length es)) m' = Some (filter (λ p, InternalKeyComparator p.1 target = false) es).
Proof.
  intros Hall Hs Hp Ht.
  assert (iter_open (new_MergingIterator children) es) as Ho by (by exists runs).
  destruct (iter_at_first _ _ Ho) as (m & Em & Hm). destruct (iter_at_seek _ _ _ Ho Ht) as (m' & Em' & Hm').
  exists m, m'. split_and!; [done|by rewrite (iter_collect_at m es 0) by (done || lia)|done|].
  rewrite (iter_collect_at m' es _ _ Hm') by lia. by rewrite first_ge_filter.
Qed.
End Merge.
Arguments MergingIterator : clear implicits.

(** Two memtables, merged. *)
Definition sample_ops1 : list (list Z * mem_op) :=
  [([0], MPut 1 [Byte.x61] [Byte.x31]); ([], MPut 3 [Byte.x63] [Byte.x33])].
Definition sample_ops2 : list (list Z * mem_op) :=
  [([], MDelete 4 [Byte.x61]); ([0; 0], MPut 5 [Byte.x62] [Byte.x35])].

Definition sample_run (ops : list (list Z * mem_op)) : list (bytes * bytes) :=
  foldl (λ es o, insert_entry (entry_of (op_version o.2)) es) [] ops.

Definition sample_union : list (bytes * bytes) :=
  sample_run (sample_ops1 ++ sample_ops2).

Lemma merge_walks_union_witness :
  ∃ m1 m2, mem_run new_MemTable sample_ops1 = Some m1 ∧ mem_run new_MemTable sample_ops2 = Some m2 ∧
  ∃ m m', merge_SeekToFirst (new_MergingIterator [NewIterator m1; NewIterator m2]) = Some m ∧
    iter_collect 5 m = Some sample_union ∧
    merge_Seek (new_MergingIterator [NewIterator m1; NewIterator m2]) (seek_target [Byte.x62] 9) = Some m' ∧
    iter_collect 5 m'
    = Some (filter (λ p, InternalKeyComparator p.1 (seek_target [Byte.x62] 9) = false) sample_union).
Proof.
  destruct (mem_run_repr new_MemTable [] sample_ops1 mem_repr_new) as (m1 & E1 & H1); [by repeat constructor|].
  destruct (mem_run_repr new_MemTable [] sample_ops2 mem_repr_new) as (m2 & E2 & H2); [by repeat constructor|].
  exists m1, m2. split_and!; [done|done|].
  apply (merge_walks_union [NewIterator m1; NewIterator m2] [sample_run sample_ops1; sample_run sample_ops2]
           sample_union (seek_target [Byte.x62] 9)).
  - constructor; [exact H1|]. constructor; [exact H2|constructor].
  - apply keys_sorted_adjacent. vm_compute. reflexivity.
  - apply (bool_decide_unpack _). vm_compute. exact Logic.I.
  - vm_compute. split; [discriminate|reflexivity].
Defined.
