(* ===== verification/Db.v ===== *)
(** * The database: state and operations

    Models include/bedrockkv/db.h and src/db.cpp.  [DB] has the class's fields,
    grouped: [Wal] (the log in use and the io_uring state), [Vsep] (value
    separation), [Stats].  The mutex makes every locked section one step, so an
    operation is a function from the state to the state; what the background
    thread does between two locked sections is split into functions of its own
    ([flush_build], [compact_merge], [gc_rotate], ...), which [DbSystem]
    interleaves with the user's calls.

    The bytes of the files open for writing live with their writers
    ([log_writer_], [vlogs_]); all other files are in [fs].  The outcomes of
    system calls are arguments, one environment record per operation.  [None]
    is undefined behaviour or exhausted fuel; the theorems show that it is not
    reached. *)

From S2P Require Import Prelude Status Ring FsUtil Encoding Log VLog LruCache InternalKey Mvcc Iterator.
From S2P Require Import SSTable Manifest SkipList MemTable Merge.

Module db.

(** ** Data *)

Inductive SyncMode := kSyncAlways | kSyncPeriodic | kSyncNever.

Record Options := mkOptions {
  sync_mode : SyncMode;
  write_buffer_size : Z;
  l0_compaction_trigger : Z;
  level_base_size : Z;
  max_sst_size : Z;
  enable_value_separation : bool;
  value_separation_threshold : Z;
  vlog_gc_size : Z;
  enable_io_uring : bool
}.

Definition default_Options : Options :=
  mkOptions kSyncAlways (Z.shiftl 4 20) 4 (Z.shiftl 10 20) (Z.shiftl 4 20) false 1024 (Z.shiftl 64 20) false.

Definition kSyncThresholdBytes : Z := Z.shiftl 1 20.

(** A snapshot is known to its user by its address. *)
Record Snapshot := mkSnapshot { address : Z; seq_ : Z }.

Record TableRef := mkTableRef { table : sst.Table; meta : sst.FileMeta }.

(** [levels !! i] is level [i + 1]. *)
Record Version := mkVersionSet { l0 : list TableRef; levels : list (list TableRef) }.

(** [log_writer_] holds the log file; with a ring, [wal_size_] replaces its
    offset.  [ring_] is set exactly when [io_uring_active_] is. *)
Record Wal := mkWal {
  log_number_ : Z;
  log_writer_ : log.Writer;
  ring_ : option ring.Ring;
  io_uring_reason_ : bytes;
  wal_size_ : Z;
  wal_token_ : Z;
  wal_pending_ : gmap Z bytes;
  wal_ring_error_ : Status;
  unsynced_bytes_ : Z;
  wal_truncated_ : bool
}.

(** [vlogs_] is in ascending order; [vlog_current_] points to one of them. *)
Record Vsep := mkVsep {
  vsep_enabled_ : bool;
  vsep_threshold_ : Z;
  vlog_gc_size_ : Z;
  vlogs_ : list vlog.VLog;
  vlog_current_ : option Z;
  vlog_gc_floor_ : Z;
  vlog_gc_active_ : bool;
  vlog_cache_ : @ShardedLruCache bytes bytes _ _
}.

Record Stats := mkStats {
  stats_wal_bytes_ : Z;
  stats_sst_bytes_ : Z;
  stats_vlog_bytes_ : Z;
  stats_user_bytes_ : Z;
  stats_flushes_ : Z;
  stats_compactions_ : Z;
  stats_vlog_gcs_ : Z
}.

Record DB := mkDB {
  fs : files;
  dir_ : bytes;
  options_ : Options;
  wal_ : Wal;
  mem_ : MemTable;
  imm_ : option MemTable;
  imm_log_number_ : Z;
  imm_sst_number_ : Z;
  current_ : Version;
  next_seq_ : Z;
  snapshots_ : list Snapshot;
  next_file_number_ : Z;
  vsep_ : Vsep;
  stats_ : Stats;
  exit_ : bool;
  compaction_disabled_ : bool;
  last_error_ : Status
}.

(** *** Field updates *)

Definition set_fs (x : files) (d : DB) : DB :=
  mkDB x (dir_ d) (options_ d) (wal_ d) (mem_ d) (imm_ d) (imm_log_number_ d) (imm_sst_number_ d) (current_ d)
    (next_seq_ d) (snapshots_ d) (next_file_number_ d) (vsep_ d) (stats_ d) (exit_ d) (compaction_disabled_ d) (last_error_ d).
Definition set_wal (x : Wal) (d : DB) : DB :=
  mkDB (fs d) (dir_ d) (options_ d) x (mem_ d) (imm_ d) (imm_log_number_ d) (imm_sst_number_ d) (current_ d)
    (next_seq_ d) (snapshots_ d) (next_file_number_ d) (vsep_ d) (stats_ d) (exit_ d) (compaction_disabled_ d) (last_error_ d).
(** The memtable after a write, and the sequence number it moved to. *)
Definition set_mem (x : MemTable) (seq : Z) (d : DB) : DB :=
  mkDB (fs d) (dir_ d) (options_ d) (wal_ d) x (imm_ d) (imm_log_number_ d) (imm_sst_number_ d) (current_ d)
    seq (snapshots_ d) (next_file_number_ d) (vsep_ d) (stats_ d) (exit_ d) (compaction_disabled_ d) (last_error_ d).
Definition set_imm (x : option MemTable) (d : DB) : DB :=
  mkDB (fs d) (dir_ d) (options_ d) (wal_ d) (mem_ d) x (imm_log_number_ d) (imm_sst_number_ d) (current_ d)
    (next_seq_ d) (snapshots_ d) (next_file_number_ d) (vsep_ d) (stats_ d) (exit_ d) (compaction_disabled_ d) (last_error_ d).
Definition set_current (x : Version) (d : DB) : DB :=
  mkDB (fs d) (dir_ d) (options_ d) (wal_ d) (mem_ d) (imm_ d) (imm_log_number_ d) (imm_sst_number_ d) x
    (next_seq_ d) (snapshots_ d) (next_file_number_ d) (vsep_ d) (stats_ d) (exit_ d) (compaction_disabled_ d) (last_error_ d).
Definition set_snapshots (x : list Snapshot) (d : DB) : DB :=
  mkDB (fs d) (dir_ d) (options_ d) (wal_ d) (mem_ d) (imm_ d) (imm_log_number_ d) (imm_sst_number_ d) (current_ d)
    (next_seq_ d) x (next_file_number_ d) (vsep_ d) (stats_ d) (exit_ d) (compaction_disabled_ d) (last_error_ d).
Definition set_next_file (x : Z) (d : DB) : DB :=
  mkDB (fs d) (dir_ d) (options_ d) (wal_ d) (mem_ d) (imm_ d) (imm_log_number_ d) (imm_sst_number_ d) (current_ d)
    (next_seq_ d) (snapshots_ d) x (vsep_ d) (stats_ d) (exit_ d) (compaction_disabled_ d) (last_error_ d).
Definition set_vsep (x : Vsep) (d : DB) : DB :=
  mkDB (fs d) (dir_ d) (options_ d) (wal_ d) (mem_ d) (imm_ d) (imm_log_number_ d) (imm_sst_number_ d) (current_ d)
    (next_seq_ d) (snapshots_ d) (next_file_number_ d) x (stats_ d) (exit_ d) (compaction_disabled_ d) (last_error_ d).
Definition set_stats (x : Stats) (d : DB) : DB :=
  mkDB (fs d) (dir_ d) (options_ d) (wal_ d) (mem_ d) (imm_ d) (imm_log_number_ d) (imm_sst_number_ d) (current_ d)
    (next_seq_ d) (snapshots_ d) (next_file_number_ d) (vsep_ d) x (exit_ d) (compaction_disabled_ d) (last_error_ d).
Definition set_error (disable : bool) (x : Status) (d : DB) : DB :=
  mkDB (fs d) (dir_ d) (options_ d) (wal_ d) (mem_ d) (imm_ d) (imm_log_number_ d) (imm_sst_number_ d) (current_ d)
    (next_seq_ d) (snapshots_ d) (next_file_number_ d) (vsep_ d) (stats_ d) (exit_ d)
    (compaction_disabled_ d || disable) x.

(** [if (!s.ok()) return s;] *)
Definition and_then {A} (r : option (Status * A)) (k : A → option (Status * A)) : option (Status * A) :=
  '(s, d) ← r; if ok s then k d else Some (s, d).

Notation "'try' d := e ; k" := (and_then e (λ d, k)) (at level 20, d name, e at level 100, k at level 200).

(** ** Paths *)

Definition kManifestFileName : bytes := lit "MANIFEST".
Definition kManifestTmpFileName : bytes := lit "MANIFEST.tmp".

Definition SstPath (dir : bytes) (number : Z) : bytes := dir ++ lit "/" ++ SstFileName number.
Definition LogPath (dir : bytes) (number : Z) : bytes := dir ++ lit "/" ++ LogFileName number.
Definition VlogPath (dir : bytes) (number : Z) : bytes := dir ++ lit "/" ++ vlog.FileName number.
Definition ManifestPath (dir : bytes) : bytes := dir ++ lit "/" ++ kManifestFileName.
Definition ManifestTmpPath (dir : bytes) : bytes := dir ++ lit "/" ++ kManifestTmpFileName.

(** [::unlink]; [removed] says for which paths the call succeeds. *)
Definition unlink (removed : bytes → bool) (path : bytes) (f : files) : files :=
  if removed path then delete path f else f.

(** [std::sort] by a comparator that is a strict weak order; elements that
    compare equal keep their order here. *)
Fixpoint sort_insert {A} (lt : A → A → bool) (x : A) (l : list A) : list A :=
  match l with
  | [] => [x]
  | y :: l => if lt x y then x :: y :: l else y :: sort_insert lt x l
  end.

Definition sort_by {A} (lt : A → A → bool) (l : list A) : list A := foldr (sort_insert lt) [] l.

(** ** The log and the ring *)

Definition io_uring_active_ (w : Wal) : bool := match ring_ w with Some _ => true | None => false end.

Section engine.
(** [std::hash<std::string>] and [strerror]. *)
Variable hash : bytes → Z.
Variable strerror : Z → bytes.

Definition set_log_file (file : bytes) (w : Wal) : Wal :=
  mkWal (log_number_ w) (log.mkWriter file (log.file_offset_ (log_writer_ w))) (ring_ w) (io_uring_reason_ w)
    (wal_size_ w) (wal_token_ w) (wal_pending_ w) (wal_ring_error_ w) (unsynced_bytes_ w) (wal_truncated_ w).
Definition set_ring (r : ring.Ring) (token : Z) (pending : gmap Z bytes) (w : Wal) : Wal :=
  mkWal (log_number_ w) (log_writer_ w) (Some r) (io_uring_reason_ w) (wal_size_ w) token pending
    (wal_ring_error_ w) (unsynced_bytes_ w) (wal_truncated_ w).
Definition set_ring_error (s : Status) (w : Wal) : Wal :=
  mkWal (log_number_ w) (log_writer_ w) (ring_ w) (io_uring_reason_ w) (wal_size_ w) (wal_token_ w) (wal_pending_ w)
    s (unsynced_bytes_ w) (wal_truncated_ w).
Definition set_unsynced (n : Z) (w : Wal) : Wal :=
  mkWal (log_number_ w) (log_writer_ w) (ring_ w) (io_uring_reason_ w) (wal_size_ w) (wal_token_ w) (wal_pending_ w)
    (wal_ring_error_ w) n (wal_truncated_ w).

(** [pwrite] of [data] at [off]; a gap reads as zeros. *)
Definition write_at (off : Z) (data file : bytes) : bytes :=
  slice 0 off file ++ replicate (Z.to_nat (off - len file)) Init.Byte.x00 ++ data ++ at_off (off + len data) file.

(** What the kernel wrote for a completion: [res] bytes of the operation with
    that token.  The log shows the write once its completion is reaped. *)
Definition completed_write (r : ring.Ring) (c : ring.Cqe) (file : bytes) : bytes :=
  match find (λ e, ring.user_data e =? ring.cqe_user_data c) (ring.accepted r) with
  | Some e =>
      match ring.op e with
      | ring.kOpWrite _ buf off => if ring.res c <? 0 then file else write_at off (slice 0 (ring.res c) buf) file
      | ring.kOpFsync _ => file
      end
  | None => file
  end.

(** The reaping lambda of [WriteEntry] and [DrainWalRing]: the buffers are
    released; the result is the first error. *)
Definition reap_writes (r : ring.Ring) (got : list ring.Cqe) (err : Status) (w : Wal) : Status * Wal :=
  foldl (λ '(err, w) c,
    (if (ring.res c <? 0) && ok err then IOError (lit "async WAL write failed: " ++ strerror (- ring.res c)) else err,
     set_ring r (wal_token_ w) (delete (ring.cqe_user_data c) (wal_pending_ w))
       (set_log_file (completed_write r c (log.w_file (log_writer_ w))) w)))
    (err, set_ring r (wal_token_ w) (wal_pending_ w) w) got.

(** One [Flush] and the completions that have arrived by the [Reap] after
    it. *)
Record ring_env := mkRingEnv {
  re_flush : list ring.enter_outcome;
  re_errno : bytes;
  re_arrived : list (nat * Z)
}.

Definition DrainWalRing (env : ring_env) (w : Wal) : option (Status * Wal) :=
  r ← ring_ w;
  if (ring.outstanding_ r =? 0) && (ring.queued_ r =? 0) then Some (Ok, w)
  else
    let '(flushed, r) := ring.Flush (re_flush env) true r in
    if negb flushed
    then Some (IOError (lit "io_uring_enter wait failed: " ++ re_errno env), set_ring r (wal_token_ w) (wal_pending_ w) w)
    else
      '(_, got, r) ← ring.Reap [] [] (re_arrived env) false r;
      Some (reap_writes r got Ok w).

(** A descriptor is named by its file: [n] for log [n], [-n] for value log
    [n]. *)
Definition SyncViaRing (env : ring_env) (vlog_current : option Z) (w : Wal) : option (Status * Wal) :=
  r ← ring_ w;
  let full r token := Some (IOError (lit "io_uring submission queue full"), set_ring r token (wal_pending_ w) w) in
  let token := u64 (wal_token_ w + 1) in
  let '(queued, r) := ring.QueueFsync (log_number_ w) token r in
  if negb queued then full r token
  else
    let '(queued, r, token) :=
      match vlog_current with
      | None => (true, r, token)
      | Some n => let token := u64 (token + 1) in
                  let '(queued, r) := ring.QueueFsync (- n) token r in (queued, r, token)
      end in
    if negb queued then full r token
    else
      let '(flushed, r) := ring.Flush (re_flush env) true r in
      if negb flushed
      then Some (IOError (lit "io_uring_enter wait failed: " ++ re_errno env), set_ring r token (wal_pending_ w) w)
      else
        '(_, got, r) ← ring.Reap [] [] (re_arrived env) false r;
        let err := foldl (λ err c, if (ring.res c <? 0) && ok err
                                   then IOError (lit "async fsync failed: " ++ strerror (- ring.res c)) else err) Ok got in
        let file := foldl (λ f c, completed_write r c f) (log.w_file (log_writer_ w)) got in
        Some (err, set_ring r token (wal_pending_ w) (set_log_file file w)).

Record sync_env := mkSyncEnv {
  se_vlog_fsync : option bytes;
  se_log_fsync : option bytes;
  se_drain : ring_env;
  se_pair : ring_env
}.

(** [vlog_current_->Sync()] and [::fsync(log_fd_)], in this order. *)
Definition sync_files (env : sync_env) (current : option vlog.VLog) (w : Wal) : Status * Wal :=
  let s := match current with Some v => vlog.Sync (se_vlog_fsync env) v | None => Ok end in
  if negb (ok s) then (s, w)
  else
    match se_log_fsync env with
    | Some e => (IOError (lit "log fsync failed: " ++ e), w)
    | None => (Ok, set_unsynced 0 w)
    end.

(** The ring's counterpart: drain, then the pair of fsyncs. *)
Definition sync_ring (env : sync_env) (current : option vlog.VLog) (w : Wal) : option (Status * Wal) :=
  try w := DrainWalRing (se_drain env) w;
  try w := SyncViaRing (se_pair env) (vlog.number_ <$> current) w;
  Some (Ok, set_unsynced 0 w).

(** [MaybeSync] after its [switch]. *)
Definition sync_if (env : sync_env) (need : bool) (current : option vlog.VLog) (w : Wal) : option (Status * Wal) :=
  if io_uring_active_ w then
    if negb (ok (wal_ring_error_ w)) then Some (wal_ring_error_ w, set_ring_error Ok w)
    else if need then sync_ring env current w
    else Some (Ok, w)
  else if need then Some (sync_files env current w)
  else Some (Ok, w).

Definition MaybeSync (env : sync_env) (mode : SyncMode) (current : option vlog.VLog) (w : Wal) : option (Status * Wal) :=
  match mode with
  | kSyncAlways => sync_if env true current w
  | kSyncPeriodic => sync_if env (kSyncThresholdBytes <=? unsynced_bytes_ w) current w
  | kSyncNever => Some (Ok, w)
  end.

Definition ForceDurabilityLocked (env : sync_env) (current : option vlog.VLog) (w : Wal) : option (Status * Wal) :=
  if io_uring_active_ w then sync_ring env current w else Some (sync_files env current w).

(** ** Value logs *)

Definition find_vlog (number : Z) (l : list vlog.VLog) : option vlog.VLog :=
  find (λ v, vlog.number_ v =? number) l.

(** [vlogs_.emplace(number, v)]: nothing happens if the number is there. *)
Definition emplace_vlog (v : vlog.VLog) (l : list vlog.VLog) : list vlog.VLog :=
  match find_vlog (vlog.number_ v) l with
  | Some _ => l
  | None => sort_insert (λ a b, vlog.number_ a <? vlog.number_ b) v l
  end.

Definition erase_vlog (number : Z) (l : list vlog.VLog) : list vlog.VLog :=
  filter (λ v, vlog.number_ v ≠ number) l.

(** The log object behind a shared pointer changes. *)
Definition update_vlog (v : vlog.VLog) (l : list vlog.VLog) : list vlog.VLog :=
  (λ u, if vlog.number_ u =? vlog.number_ v then v else u) <$> l.

Definition current_vlog (v : Vsep) : option vlog.VLog := n ← vlog_current_ v; find_vlog n (vlogs_ v).

Definition set_vlogs (l : list vlog.VLog) (current : option Z) (v : Vsep) : Vsep :=
  mkVsep (vsep_enabled_ v) (vsep_threshold_ v) (vlog_gc_size_ v) l current (vlog_gc_floor_ v) (vlog_gc_active_ v)
    (vlog_cache_ v).
Definition set_gc (floor : Z) (active : bool) (v : Vsep) : Vsep :=
  mkVsep (vsep_enabled_ v) (vsep_threshold_ v) (vlog_gc_size_ v) (vlogs_ v) (vlog_current_ v) floor active (vlog_cache_ v).
Definition set_cache (c : @ShardedLruCache bytes bytes _ _) (v : Vsep) : Vsep :=
  mkVsep (vsep_enabled_ v) (vsep_threshold_ v) (vlog_gc_size_ v) (vlogs_ v) (vlog_current_ v) (vlog_gc_floor_ v)
    (vlog_gc_active_ v) c.

(** ** The MANIFEST *)

Record manifest_env := mkManifestEnv {
  me_open : option bytes;
  me_writes : list (list io_outcome);
  me_fsync : option bytes;
  me_unlink : bytes → bool;
  me_rename : option bytes;
  me_dir_open : option bytes;
  me_dir_sync : option bytes
}.

(** The payloads, each with the outcomes of its write calls. *)
Fixpoint with_writes (scheds : list (list io_outcome)) (ps : list bytes) : list (list io_outcome * bytes) :=
  match ps with
  | [] => []
  | p :: ps => (default [] (head scheds), p) :: with_writes (tail scheds) ps
  end.

Definition version_refs (v : Version) : list TableRef := l0 v ++ concat (levels v).

Definition manifest_metas (v : Version) : list sst.FileMeta :=
  meta <$> sort_by (λ a b, sst.file_number (meta a) <? sst.file_number (meta b)) (version_refs v).

(** [O_TRUNC] empties the temporary file; [rename] moves it over the
    MANIFEST. *)
Definition WriteManifest (env : manifest_env) (d : DB) : Status * DB :=
  let tmp := ManifestTmpPath (dir_ d) in
  match me_open env with
  | Some e => (IOError (lit "cannot create " ++ tmp ++ lit ": " ++ e), d)
  | None =>
      let records := manifest_records (manifest_metas (current_ d)) (vlog.number_ <$> vlogs_ (vsep_ d))
                       (log_number_ (wal_ d)) in
      let '(result, writer) := log.add_records (log.mkWriter [] 0) (with_writes (me_writes env) records) in
      let f := <[tmp := log.w_file writer]> (fs d) in
      let result :=
        match ok result, me_fsync env with
        | true, Some e => IOError (lit "fsync MANIFEST.tmp failed: " ++ e)
        | _, _ => result
        end in
      if negb (ok result) then (result, set_fs (unlink (me_unlink env) tmp f) d)
      else
        match me_rename env with
        | Some e => (IOError (lit "rename MANIFEST failed: " ++ e), set_fs f d)
        | None =>
            (SyncDir (me_dir_open env) (me_dir_sync env) (dir_ d),
             set_fs (<[ManifestPath (dir_ d) := log.w_file writer]> (delete tmp f)) d)
        end
  end.

(** ** Writing *)

Record entry_env := mkEntryEnv {
  ee_vlog_writes : list io_outcome;
  ee_lseek : bool;
  ee_wal_writes : list io_outcome;
  ee_ring : ring_env;
  ee_sync : sync_env;
  ee_coins : list Z
}.

(** The shape of a value pointer, which an inline value must not have. *)
Definition pointer_shaped (value : bytes) : bool :=
  (len value =? kValuePointerSize) && bool_decide (at_ix value 0 = Some kValuePointerTag).

Definition separated (type : Z) (value : bytes) (v : Vsep) : bool :=
  (type =? kTypeValue) && vsep_enabled_ v && ((vsep_threshold_ v <=? len value) || pointer_shaped value).

(** The value goes to the value log first; the result is what the log and the
    memtable store. *)
Definition separate (env : entry_env) (type : Z) (key value : bytes) (d : DB) : option (Status * bytes * DB) :=
  let v := vsep_ d in
  if separated type value v then
    cur ← current_vlog v;
    let '(s, cur', offset, entry_bytes) := vlog.Append (ee_vlog_writes env) (ee_lseek env) cur key value in
    let d := set_vsep (set_vlogs (update_vlog cur' (vlogs_ v)) (vlog_current_ v) v) d in
    if negb (ok s) then Some (s, [], d)
    else
      let n := default 0 entry_bytes in
      let pointer := EncodeValuePointer (mkValuePointer (vlog.number_ cur) offset (u32 (len value))) in
      let st := stats_ d in
      Some (Ok, pointer,
            set_stats (mkStats (stats_wal_bytes_ st) (stats_sst_bytes_ st) (u64 (stats_vlog_bytes_ st + n))
                         (stats_user_bytes_ st) (stats_flushes_ st) (stats_compactions_ st) (stats_vlog_gcs_ st))
              (set_wal (set_unsynced (u64 (unsynced_bytes_ (wal_ d) + n)) (wal_ d)) d))
  else Some (Ok, value, d).

Definition add_wal_bytes (n : Z) (w : Wal) (d : DB) : DB :=
  let st := stats_ d in
  set_stats (mkStats (u64 (stats_wal_bytes_ st + n)) (stats_sst_bytes_ st) (stats_vlog_bytes_ st)
               (stats_user_bytes_ st) (stats_flushes_ st) (stats_compactions_ st) (stats_vlog_gcs_ st))
    (set_wal (set_unsynced (u64 (unsynced_bytes_ w + n)) w) d).

(** The record goes to the log through the ring: queue, submit, reap what has
    completed. *)
Definition append_ring (env : ring_env) (payload : bytes) (r : ring.Ring) (d : DB) : option (Status * DB) :=
  let w := wal_ d in
  let buf := log.EncodeRecord payload (wal_size_ w) in
  let token := u64 (wal_token_ w + 1) in
  let '(queued, r) := ring.QueueWrite (log_number_ w) buf (wal_size_ w) token r in
  if negb queued
  then Some (IOError (lit "io_uring submission queue full"), set_wal (set_ring r token (delete token (wal_pending_ w)) w) d)
  else
    let pending := match wal_pending_ w !! token with Some _ => wal_pending_ w | None => <[token := buf]> (wal_pending_ w) end in
    let w := set_ring r token pending w in
    let d := add_wal_bytes (len buf) w d in
    let w := wal_ d in
    let w := mkWal (log_number_ w) (log_writer_ w) (ring_ w) (io_uring_reason_ w) (u64 (wal_size_ w + len buf))
               (wal_token_ w) (wal_pending_ w) (wal_ring_error_ w) (unsynced_bytes_ w) (wal_truncated_ w) in
    let '(flushed, r) := ring.Flush (re_flush env) false r in
    let w := set_ring r (wal_token_ w) (wal_pending_ w) w in
    if negb flushed then Some (IOError (lit "io_uring_enter submit failed: " ++ re_errno env), set_wal w d)
    else
      '(_, got, r) ← ring.Reap [] [] (re_arrived env) false r;
      let '(err, w) := reap_writes r got (wal_ring_error_ w) w in
      Some (Ok, set_wal (set_ring_error err w) d).

(** The record goes to the log with [AddRecord]. *)
Definition append_file (env : entry_env) (payload : bytes) (d : DB) : Status * DB :=
  let w := wal_ d in
  let before := log.file_offset_ (log_writer_ w) in
  let '(s, lw) := log.AddRecord (ee_wal_writes env) (log_writer_ w) payload in
  let w := mkWal (log_number_ w) lw (ring_ w) (io_uring_reason_ w) (wal_size_ w) (wal_token_ w) (wal_pending_ w)
             (wal_ring_error_ w) (unsynced_bytes_ w) (wal_truncated_ w) in
  if negb (ok s) then (s, set_wal w d)
  else (Ok, add_wal_bytes (u64 (log.file_offset_ lw - before)) w d).

Definition WriteEntry (env : entry_env) (type : Z) (key value : bytes) (count_user_bytes : bool) (d : DB)
    : option (Status * DB) :=
  '(s, stored, d) ← separate env type key value d;
  if negb (ok s) then Some (s, d)
  else
    let payload := wal_payload (next_seq_ d) type key stored in
    try d := match ring_ (wal_ d) with
             | Some r => append_ring (ee_ring env) payload r d
             | None => Some (append_file env payload d)
             end;
    let st := stats_ d in
    let d := if count_user_bytes
             then set_stats (mkStats (stats_wal_bytes_ st) (stats_sst_bytes_ st) (stats_vlog_bytes_ st)
                               (u64 (stats_user_bytes_ st + (len key + len value))) (stats_flushes_ st)
                               (stats_compactions_ st) (stats_vlog_gcs_ st)) d
             else d in
    '(s, w) ← MaybeSync (ee_sync env) (sync_mode (options_ d)) (current_vlog (vsep_ d)) (wal_ d);
    let d := set_wal w d in
    if negb (ok s) then Some (s, d)
    else
      m ← (if type =? kTypeValue then mem_Put (ee_coins env) (mem_ d) (next_seq_ d) key stored
           else mem_Delete (ee_coins env) (mem_ d) (next_seq_ d) key);
      Some (Ok, set_mem m (u64 (next_seq_ d + 1)) d).

Record rotate_env := mkRotateEnv {
  ro_drain : ring_env;
  ro_open : option bytes;
  ro_fsync : option bytes;
  ro_dir_open : option bytes;
  ro_dir_sync : option bytes
}.

(** The old log file is closed: its bytes stay on disk.  [O_CREAT | O_TRUNC]
    leaves an empty new log even when a later call fails. *)
Definition RotateForFlush (env : rotate_env) (d : DB) : option (Status * DB) :=
  try d := (if io_uring_active_ (wal_ d)
            then '(s, w) ← DrainWalRing (ro_drain env) (wal_ d); Some (s, set_wal w d)
            else Some (Ok, d));
  let new_log := next_file_number_ d in
  match ro_open env with
  | Some e => Some (IOError (lit "cannot create " ++ LogFileName new_log ++ lit ": " ++ e), d)
  | None =>
      let d := set_fs (<[LogPath (dir_ d) new_log := []]> (fs d)) d in
      match ro_fsync env with
      | Some e => Some (IOError (lit "fsync " ++ LogFileName new_log ++ lit " failed: " ++ e), d)
      | None =>
          let ds := SyncDir (ro_dir_open env) (ro_dir_sync env) (dir_ d) in
          if negb (ok ds) then Some (ds, d)
          else
            let w := wal_ d in
            Some (Ok, mkDB (<[LogPath (dir_ d) (log_number_ w) := log.w_file (log_writer_ w)]> (fs d))
                        (dir_ d) (options_ d)
                        (mkWal new_log (log.mkWriter [] 0) (ring_ w) (io_uring_reason_ w) 0 (wal_token_ w) (wal_pending_ w)
                           (wal_ring_error_ w) 0 (wal_truncated_ w))
                        new_MemTable (Some (mem_ d)) (log_number_ w) (new_log + 1) (current_ d) (next_seq_ d) (snapshots_ d)
                        (new_log + 2) (vsep_ d) (stats_ d) (exit_ d) (compaction_disabled_ d) (last_error_ d))
      end
  end.

Record put_env := mkPutEnv { pe_rotate : rotate_env; pe_entry : entry_env }.

(** [Put] and [Delete] after their wait for [imm_] to be drained; [Some None]:
    the call is still waiting. *)
Definition write_op (env : put_env) (type : Z) (key value : bytes) (d : DB) : option (option (Status * DB)) :=
  match imm_ d with
  | Some _ => Some None
  | None =>
      r ← (try d := (if write_buffer_size (options_ d) <=? mem_ApproximateSize (mem_ d)
                     then RotateForFlush (pe_rotate env) d
                     else Some (Ok, d));
           WriteEntry (pe_entry env) type key value true d);
      Some (Some r)
  end.

Definition Put (env : put_env) (key value : bytes) (d : DB) : option (option (Status * DB)) :=
  write_op env kTypeValue key value d.
Definition Delete (env : put_env) (key : bytes) (d : DB) : option (option (Status * DB)) :=
  write_op env kTypeDeletion key [] d.

(** ** Reading *)

(** One table: its answer, or the status it set. *)
Definition table_Get (r : TableRef) (key : bytes) (max_seq : Z) : option (Lookup + Status) :=
  '(res, st) ← sst.Get (table r) key max_seq;
  Some match res, st with
       | kMissing, Some s => if ok s then inl kMissing else inr s
       | _, _ => inl res
       end.

(** The walk over level 0, newest file first; [inr] is [*error]. *)
Fixpoint lookup_l0 (files : list TableRef) (key : bytes) (max_seq : Z) : option (Lookup + Status) :=
  match files with
  | [] => Some (inl kMissing)
  | r :: files =>
      res ← table_Get r key max_seq;
      match res with
      | inl kMissing => lookup_l0 files key max_seq
      | _ => Some res
      end
  end.

(** [std::upper_bound] on the smallest keys, and the file before it. *)
Definition candidate (level : list TableRef) (key : bytes) : option TableRef :=
  match lower_bound (λ r, negb (bytes_ltb key (sst.t_smallest_user_key_ (table r)))) level with
  | O => None
  | S i =>
      r ← level !! i;
      if bytes_ltb (sst.t_largest_user_key_ (table r)) key then None else Some r
  end.

Fixpoint lookup_levels (levels : list (list TableRef)) (key : bytes) (max_seq : Z) : option (Lookup + Status) :=
  match levels with
  | [] => Some (inl kMissing)
  | level :: levels =>
      match candidate level key with
      | None => lookup_levels levels key max_seq
      | Some r =>
          res ← table_Get r key max_seq;
          match res with
          | inl kMissing => lookup_levels levels key max_seq
          | _ => Some res
          end
      end
  end.

Definition lookup_version (v : Version) (key : bytes) (max_seq : Z) : option (Lookup + Status) :=
  res ← lookup_l0 (l0 v) key max_seq;
  match res with
  | inl kMissing => lookup_levels (levels v) key max_seq
  | _ => Some res
  end.

Definition lookup_imm (imm : option MemTable) (key : bytes) (max_seq : Z) : option Lookup :=
  match imm with Some m => mem_Get m key max_seq | None => Some kMissing end.

Definition LookupIn (mem : MemTable) (imm : option MemTable) (v : Version) (key : bytes) (max_seq : Z)
    : option (Lookup + Status) :=
  res ← mem_Get mem key max_seq;
  match res with
  | kMissing =>
      res ← lookup_imm imm key max_seq;
      match res with
      | kMissing => lookup_version v key max_seq
      | _ => Some (inl res)
      end
  | _ => Some (inl res)
  end.

Definition VLogFor (number : Z) (d : DB) : option vlog.VLog := find_vlog number (vlogs_ (vsep_ d)).

(** [*value] afterwards is the third component; the cache may change.  [io] is
    what the two [pread] calls do. *)
Definition MaybeResolvePointer (io : io_outcome * io_outcome) (value : bytes) (d : DB) : option (Status * bytes * DB) :=
  let v := vsep_ d in
  if negb (vsep_enabled_ v) then Some (Ok, value, d)
  else if negb (pointer_shaped value) then Some (Ok, value, d)
  else
    match DecodeValuePointer value with
    | None => Some (Corruption (lit "undecodable value pointer"), value, d)
    | Some p =>
        '(cached, cache) ← LruCache.Get hash (vlog_cache_ v) value;
        match cached with
        | Some x => Some (Ok, x, set_vsep (set_cache cache v) d)
        | None =>
            match VLogFor (vlog_number p) d with
            | None =>
                Some (Corruption (lit "value log " ++ vlog.FileName (vlog_number p)
                                    ++ lit " is gone (separation disabled after use?)"), value, d)
            | Some vl =>
                '(s, resolved) ← vlog.ReadValue io.1 io.2 vl (offset p) (value_size p);
                if negb (ok s) then Some (s, value, d)
                else
                  let resolved := default [] resolved in
                  cache ← LruCache.Put hash len cache value resolved;
                  Some (Ok, resolved, set_vsep (set_cache cache v) d)
            end
        end
    end.

Definition read_point (snapshot : option Snapshot) : Z :=
  match snapshot with Some s => seq_ s | None => kMaxSeq end.

(** The pointers that [Get] copies under the mutex. *)
Record View := mkView { view_mem : MemTable; view_imm : option MemTable; view_version : Version; view_seq : Z }.

Definition capture (snapshot : option Snapshot) (d : DB) : View :=
  mkView (mem_ d) (imm_ d) (current_ d) (read_point snapshot).

(** [Get] after the locked section: [d] is the state when the pointer is
    resolved, which may be later than that of the view. *)
Definition Get_in (io : io_outcome * io_outcome) (key : bytes) (w : View) (d : DB) : option (Status * option bytes * DB) :=
  res ← LookupIn (view_mem w) (view_imm w) (view_version w) key (view_seq w);
  match res with
  | inl (kFound stored) =>
      '(s, value, d) ← MaybeResolvePointer io stored d;
      Some (s, Some value, d)
  | inl kDeleted => Some (NotFound (lit "deleted: " ++ key), None, d)
  | inl kMissing => Some (NotFound (lit "missing: " ++ key), None, d)
  | inr error => Some (error, None, d)
  end.

Definition Get (io : io_outcome * io_outcome) (key : bytes) (snapshot : option Snapshot) (d : DB)
    : option (Status * option bytes * DB) :=
  Get_in io key (capture snapshot d) d.

(** *** Scan *)

Abbreviation db_iter := (MemTableIterator + sst.TableIterator)%type.

Definition table_iter (r : TableRef) : option db_iter := inr <$> sst.NewIterator (table r).

(** The files of a level that can hold keys of the range. *)
Fixpoint overlapping (level : list TableRef) (lo hi : bytes) : list TableRef :=
  match level with
  | [] => []
  | r :: level =>
      if bytes_ltb (sst.t_largest_user_key_ (table r)) lo then overlapping level lo hi
      else if negb (bytes_ltb (sst.t_smallest_user_key_ (table r)) hi) then []
      else r :: overlapping level lo hi
  end.

Definition scan_tables (v : Version) (lo hi : bytes) : list TableRef :=
  l0 v ++ mjoin ((λ level, overlapping level lo hi) <$> levels v).

Definition scan_children (w : View) (lo hi : bytes) : option (list db_iter) :=
  tables ← mapM table_iter (scan_tables (view_version w) lo hi);
  Some (inl (NewIterator (view_mem w))
          :: match view_imm w with Some m => [inl (NewIterator m)] | None => [] end ++ tables).

Definition io_head (ios : list (io_outcome * io_outcome)) : io_outcome * io_outcome :=
  default (vlog.io_full, vlog.io_full) (head ios).

(** The [while] loop: [user] is [current_user] when [has_user] is set; the
    result is the pairs [fn] was called with. *)
Fixpoint scan_loop (fuel : nat) (ios : list (io_outcome * io_outcome)) (hi : bytes) (seq : Z)
    (iter : @MergingIterator db_iter) (user : option bytes) (emitted : bool) (out : list (bytes * bytes)) (d : DB)
    : option (Status * list (bytes * bytes) * DB) :=
  match fuel with
  | O => None
  | S fuel =>
      if merge_Valid iter then
        let u := ExtractUserKey (merge_key iter) in
        if negb (bytes_ltb u hi) then Some (Ok, out, d)
        else
          let emitted := if bool_decide (user = Some u) then emitted else false in
          let tag := ExtractTag (merge_key iter) in
          let visible := negb emitted && (Z.shiftr tag 8 <=? seq) in
          if visible && (Z.land tag 0xff =? kTypeValue) then
            '(s, resolved, d) ← MaybeResolvePointer (io_head ios) (merge_value iter) d;
            if negb (ok s) then Some (s, out, d)
            else
              iter ← merge_Next iter;
              scan_loop fuel (tail ios) hi seq iter (Some u) true (out ++ [(u, resolved)]) d
          else
            iter ← merge_Next iter;
            scan_loop fuel ios hi seq iter (Some u) (emitted || visible) out d
      else Some (Ok, out, d)
  end.

(** A bound on the number of entries of a table: an entry takes at least a byte
    of its block. *)
Definition table_size (t : sst.Table) : nat := (length (sst.index_ t) * length (sst.file_data_ t))%nat.

(** A bound on the number of entries of the children. *)
Definition view_size (w : View) : nat :=
  (length (nodes_ (list_ (view_mem w)))
   + match view_imm w with Some m => length (nodes_ (list_ m)) | None => 0 end
   + foldr (λ r n, table_size (table r) + n) 0 (version_refs (view_version w)))%nat.

Definition Scan_in (ios : list (io_outcome * io_outcome)) (lo hi : bytes) (w : View) (d : DB)
    : option (Status * list (bytes * bytes) * DB) :=
  children ← scan_children w lo hi;
  iter ← merge_Seek (new_MergingIterator children) (seek_target lo (view_seq w));
  scan_loop (S (view_size w)) ios hi (view_seq w) iter None false [] d.

Definition Scan (ios : list (io_outcome * io_outcome)) (lo hi : bytes) (snapshot : option Snapshot) (d : DB)
    : option (Status * list (bytes * bytes) * DB) :=
  Scan_in ios lo hi (capture snapshot d) d.

(** *** Snapshots *)

(** [new] returns an address no live snapshot has. *)
Definition fresh_address (l : list Snapshot) : Z := foldr (λ s m, Z.max (address s) m) 0 l + 1.

Definition GetSnapshot (d : DB) : Snapshot * DB :=
  let s := mkSnapshot (fresh_address (snapshots_ d)) (next_seq_ d - 1) in
  (s, set_snapshots (snapshots_ d ++ [s]) d).

Fixpoint erase_snapshot (a : Z) (l : list Snapshot) : list Snapshot :=
  match l with
  | [] => []
  | s :: l => if address s =? a then l else s :: erase_snapshot a l
  end.

Definition ReleaseSnapshot (a : Z) (d : DB) : DB := set_snapshots (erase_snapshot a (snapshots_ d)) d.

Definition SmallestSnapshotSeq (d : DB) : Z := foldl (λ m s, Z.min m (seq_ s)) kMaxSeq (snapshots_ d).

(** ** Flushing the immutable memtable *)

Record sst_env := mkSstEnv {
  te_write : write_env;
  te_open : bytes;
  te_reads : list io_outcome;
  te_unlink : bytes → bool
}.

(** [builder.Finish] and the self-check [Table::Open]; [what] is the message
    of a failed check. *)
Definition finish_table (env : sst_env) (b : sst.Builder) (number level : Z) (what : bytes) (d : DB)
    : option (Status * option TableRef * DB) :=
  let path := SstPath (dir_ d) number in
  let '(s, f, m, _) := sst.Finish (te_write env) (fs d) b path (sst.mkFileMeta number level 0 0 0 0 [] []) in
  let d := set_fs f d in
  if negb (ok s) then Some (s, None, d)
  else
    '(_, t) ← sst.Open (te_reads env) (fs d) (te_open env) number path;
    Some match t with
         | None => (Corruption (what ++ lit " self-check failed for " ++ SstFileName number), None, d)
         | Some t => (Ok, Some (mkTableRef t m), d)
         end.

(** The [ForEach] callback: it goes on adding while the status is OK. *)
Fixpoint add_foreach (b : sst.Builder) (args : list (Z * Z * bytes * bytes)) : Status * sst.Builder :=
  match args with
  | [] => (Ok, b)
  | (seq, type, key, value) :: args =>
      let '(s, b) := sst.Add b key seq type value in
      if ok s then add_foreach b args else (s, b)
  end.

Definition add_sst_bytes (n flushes : Z) (d : DB) : DB :=
  let st := stats_ d in
  set_stats (mkStats (stats_wal_bytes_ st) (u64 (stats_sst_bytes_ st + n)) (stats_vlog_bytes_ st)
               (stats_user_bytes_ st) (u64 (stats_flushes_ st + flushes)) (stats_compactions_ st) (stats_vlog_gcs_ st)) d.

(** The part without the mutex: the table is written and checked. *)
Definition flush_build (env : sst_env) (imm : MemTable) (sst_number : Z) (d : DB) : option (Status * option TableRef * DB) :=
  args ← ForEach imm;
  let '(s, b) := add_foreach (sst.new_Builder sst.default_TableOptions) args in
  '(s, r, d) ← (if ok s then finish_table env b sst_number 0 (lit "flush") d else Some (s, None, d));
  match r with
  | None => Some (s, None, set_fs (unlink (te_unlink env) (SstPath (dir_ d) sst_number) (fs d)) d)
  | Some r => Some (Ok, Some r, add_sst_bytes (sst.file_size (meta r)) 1 d)
  end.

(** The locked part, and the retired log. *)
Definition flush_install (env : manifest_env) (removed : bytes → bool) (r : TableRef) (retired_log : Z) (d : DB)
    : Status * DB :=
  let v := current_ d in
  let '(s, d) := WriteManifest env (set_current (mkVersionSet (r :: l0 v) (levels v)) d) in
  if negb (ok s) then (s, d)
  else (Ok, set_fs (unlink removed (LogPath (dir_ d) retired_log) (fs d)) d).

Record flush_env := mkFlushEnv { fe_sst : sst_env; fe_manifest : manifest_env; fe_unlink : bytes → bool }.

Definition FlushImmMemTable (env : flush_env) (imm : MemTable) (retired_log sst_number : Z) (d : DB)
    : option (Status * DB) :=
  '(s, r, d) ← flush_build (fe_sst env) imm sst_number d;
  Some match r with
       | None => (s, d)
       | Some r => flush_install (fe_manifest env) (fe_unlink env) r retired_log d
       end.

(** ** Compaction *)

Definition LevelSize (v : Version) (i : nat) : Z :=
  foldl (λ sum r, u64 (sum + sst.file_size (meta r))) 0 (default [] (levels v !! i)).

(** [level_base_size] times ten to the [i], on 64 bits. *)
Definition level_limit (o : Options) (i : nat) : Z := Nat.iter i (λ limit, u64 (limit * 10)) (level_base_size o).

(** The first level but the last that exceeds its limit. *)
Definition oversized (o : Options) (v : Version) : option nat :=
  find (λ i, level_limit o i <? LevelSize v i) (seq 0 (length (levels v) - 1)).

Definition l0_due (d : DB) : bool := l0_compaction_trigger (options_ d) <=? len (l0 (current_ d)).

Definition CompactionNeeded (d : DB) : bool :=
  negb (compaction_disabled_ d) &&
  (l0_due d || match oversized (options_ d) (current_ d) with Some _ => true | None => false end).

(** [std::min] and [std::max] of strings. *)
Definition bytes_min (a b : bytes) : bytes := if bytes_ltb b a then b else a.
Definition bytes_max (a b : bytes) : bytes := if bytes_ltb a b then b else a.

Definition widen (r : TableRef) (lo hi : bytes) : bytes * bytes :=
  (bytes_min lo (sst.t_smallest_user_key_ (table r)), bytes_max hi (sst.t_largest_user_key_ (table r))).

(** The key range of the source files; empty strings when there are none. *)
Definition key_range (rs : list TableRef) : bytes * bytes :=
  match rs with
  | [] => ([], [])
  | r :: rs => foldl (λ '(lo, hi) r, widen r lo hi)
                 (sst.t_smallest_user_key_ (table r), sst.t_largest_user_key_ (table r)) rs
  end.

Record picking := mkPicking { picked : list Z; inputs_b_ : list TableRef; lo_ : bytes; hi_ : bytes; changed : bool }.

(** The body of the [for] loop over the target level. *)
Definition pick_step (p : picking) (r : TableRef) : picking :=
  if bool_decide (sst.file_number (meta r) ∈ picked p) then p
  else if bytes_leb (lo_ p) (sst.t_largest_user_key_ (table r)) && bytes_leb (sst.t_smallest_user_key_ (table r)) (hi_ p)
  then
    let '(lo, hi) := widen r (lo_ p) (hi_ p) in
    mkPicking (sst.file_number (meta r) :: picked p) (inputs_b_ p ++ [r]) lo hi true
  else p.

(** [while (changed)]: every iteration but the last picks a file, so one more
    than the number of files is enough fuel. *)
Fixpoint pick_loop (fuel : nat) (target : list TableRef) (p : picking) : option picking :=
  match fuel with
  | O => None
  | S fuel =>
      let p := foldl pick_step (mkPicking (picked p) (inputs_b_ p) (lo_ p) (hi_ p) false) target in
      if changed p then pick_loop fuel target p else Some p
  end.

(** [c_source] is [None] for [kL0Source]. *)
Record Compaction := mkCompaction {
  inputs_a : list TableRef;
  inputs_b : list TableRef;
  source_level : option nat;
  output_level : nat
}.

(** [front()] of an empty level is undefined behaviour. *)
Definition pick_source (d : DB) : option (list TableRef * option nat * nat) :=
  let v := current_ d in
  if l0_due d then Some (l0 v, None, 0%nat)
  else
    match oversized (options_ d) v with
    | Some i => r ← head (default [] (levels v !! i)); Some ([r], Some i, S i)
    | None => Some ([], Some 0%nat, 0%nat)
    end.

Definition PickCompaction (d : DB) : option Compaction :=
  '(a, src, out) ← pick_source d;
  target ← levels (current_ d) !! out;
  let '(lo, hi) := key_range a in
  p ← pick_loop (S (length target)) target (mkPicking [] [] lo hi true);
  Some (mkCompaction a (inputs_b_ p) src out).

(** *** The merge *)

(** The locals of [RunCompaction]: [m_user] is [current_user] when [has_user]
    is set. *)
Record merging := mkMerging {
  m_outputs : list TableRef;
  m_builder : sst.Builder;
  m_used : bool;
  m_user : option bytes;
  m_floor_seen : bool;
  m_status : Status;
  m_envs : list sst_env;
  m_db : DB
}.

Definition default_sst_env : sst_env :=
  mkSstEnv (mkWriteEnv None [] None None None) [] [] (λ _, true).

(** The lambda [seal]; the number is taken under the mutex. *)
Definition seal (out : nat) (m : merging) : option merging :=
  if negb (m_used m) || negb (ok (m_status m)) then Some m
  else
    let number := next_file_number_ (m_db m) in
    let d := set_next_file (number + 1) (m_db m) in
    let env := default default_sst_env (head (m_envs m)) in
    '(s, r, d) ← finish_table env (m_builder m) number (Z.of_nat out + 1) (lit "compaction") d;
    Some match r with
         | None => mkMerging (m_outputs m) (m_builder m) (m_used m) (m_user m) (m_floor_seen m) s (tail (m_envs m)) d
         | Some r =>
             mkMerging (m_outputs m ++ [r]) (sst.new_Builder sst.default_TableOptions) false (m_user m) (m_floor_seen m)
               (m_status m) (tail (m_envs m)) (add_sst_bytes (sst.file_size (meta r)) 0 d)
         end.

(** Whether the version is kept, and whether one at or below the floor has
    been seen since. *)
Definition retain (floor : Z) (bottom floor_seen : bool) (seq type : Z) : bool * bool :=
  if floor <? seq then (true, floor_seen)
  else if negb floor_seen then (negb ((type =? kTypeDeletion) && bottom), true)
  else (false, floor_seen).

(** A new user key: the builder is sealed here, and only here, when it is
    large enough. *)
Definition merge_switch (out : nat) (max_size : Z) (user : bytes) (m : merging) : option merging :=
  if bool_decide (m_user m = Some user) then Some m
  else
    m ← (if match m_user m with Some _ => true | None => false end && m_used m
            && (max_size <=? sst.ApproximateFileSize (m_builder m))
         then seal out m else Some m);
    Some (if ok (m_status m)
          then mkMerging (m_outputs m) (m_builder m) (m_used m) (Some user) false (m_status m) (m_envs m) (m_db m)
          else m).

(** The body of the [while] loop for the entry under the iterator. *)
Definition merge_entry (floor : Z) (out : nat) (max_size : Z) (key value : bytes) (m : merging) : option merging :=
  let user := ExtractUserKey key in
  m ← merge_switch out max_size user m;
  if negb (ok (m_status m)) then Some m
  else
    let tag := ExtractTag key in
    let type := Z.land tag 0xff in
    let bottom := Z.of_nat out + 1 =? kMaxLevels - 1 in
    let '(keep, seen) := retain floor bottom (m_floor_seen m) (Z.shiftr tag 8) type in
    if keep : bool then
      let '(s, b) := sst.Add (m_builder m) user (Z.shiftr tag 8) type value in
      Some (mkMerging (m_outputs m) b true (m_user m) seen s (m_envs m) (m_db m))
    else Some (mkMerging (m_outputs m) (m_builder m) (m_used m) (m_user m) seen (m_status m) (m_envs m) (m_db m)).

Fixpoint merge_loop (fuel : nat) (floor : Z) (out : nat) (max_size : Z) (iter : @MergingIterator db_iter) (m : merging)
    : option merging :=
  match fuel with
  | O => None
  | S fuel =>
      if merge_Valid iter && ok (m_status m) then
        m ← merge_entry floor out max_size (merge_key iter) (merge_value iter) m;
        if negb (ok (m_status m)) then Some m
        else iter ← merge_Next iter; merge_loop fuel floor out max_size iter m
      else Some m
  end.

Definition inputs_size (c : Compaction) : nat :=
  foldr (λ r n, table_size (table r) + n)%nat 0%nat (inputs_a c ++ inputs_b c).

Record compact_env := mkCompactEnv {
  ce_ssts : list sst_env;
  ce_manifest : manifest_env;
  ce_unlink : bytes → bool
}.

Definition unlink_ssts (removed : bytes → bool) (rs : list TableRef) (d : DB) : DB :=
  set_fs (foldl (λ f r, unlink removed (SstPath (dir_ d) (sst.file_number (meta r))) f) (fs d) rs) d.

(** The part without the mutex: the outputs, or the error.  [floor] was read
    under the mutex before it. *)
Definition compact_merge (env : compact_env) (floor : Z) (c : Compaction) (d : DB) : option (Status * list TableRef * DB) :=
  children ← mapM table_iter (inputs_a c ++ inputs_b c);
  iter ← merge_SeekToFirst (new_MergingIterator children);
  m ← merge_loop (S (inputs_size c)) floor (output_level c) (max_sst_size (options_ d)) iter
        (mkMerging [] (sst.new_Builder sst.default_TableOptions) false None false Ok (ce_ssts env) d);
  m ← (if ok (m_status m) then seal (output_level c) m else Some m);
  if negb (ok (m_status m)) then Some (m_status m, [], unlink_ssts (ce_unlink env) (m_outputs m) (m_db m))
  else Some (Ok, m_outputs m, m_db m).

Definition remove_numbers (level removed : list TableRef) : list TableRef :=
  filter (λ r, sst.file_number (meta r) ∉ (sst.file_number ∘ meta <$> removed)) level.

Definition smallest_less (a b : TableRef) : bool :=
  bytes_ltb (sst.t_smallest_user_key_ (table a)) (sst.t_smallest_user_key_ (table b)).

Definition set_level (i : nat) (level : list TableRef) (v : Version) : Version :=
  mkVersionSet (l0 v) (<[i := level]> (levels v)).

Definition level_at (v : Version) (i : nat) : list TableRef := default [] (levels v !! i).

(** The version [RunCompaction] builds. *)
Definition compacted (c : Compaction) (outputs : list TableRef) (v : Version) : Version :=
  let v := match source_level c with
           | None => mkVersionSet (remove_numbers (l0 v) (inputs_a c)) (levels v)
           | Some i => set_level i (remove_numbers (level_at v i) (inputs_a c)) v
           end in
  set_level (output_level c)
    (sort_by smallest_less (remove_numbers (level_at v (output_level c)) (inputs_b c) ++ outputs)) v.

(** The locked part. *)
Definition compact_install (env : compact_env) (c : Compaction) (outputs : list TableRef) (d : DB) : Status * DB :=
  let '(s, d) := WriteManifest (ce_manifest env) (set_current (compacted c outputs (current_ d)) d) in
  if negb (ok s) then (s, d)
  else
    let st := stats_ d in
    let d := set_stats (mkStats (stats_wal_bytes_ st) (stats_sst_bytes_ st) (stats_vlog_bytes_ st) (stats_user_bytes_ st)
                          (stats_flushes_ st) (u64 (stats_compactions_ st + 1)) (stats_vlog_gcs_ st)) d in
    (Ok, unlink_ssts (ce_unlink env) (inputs_a c ++ inputs_b c) d).

Definition RunCompaction (env : compact_env) (c : Compaction) (d : DB) : option (Status * DB) :=
  '(s, outputs, d) ← compact_merge env (SmallestSnapshotSeq d) c d;
  Some (if ok s then compact_install env c outputs d else (s, d)).

(** ** Garbage collection of the value log *)

Definition gc_trigger (v : Vsep) : Z := Z.max (vlog_gc_size_ v) (vlog_gc_floor_ v).

Definition VlogGcNeeded (d : DB) : bool :=
  let v := vsep_ d in
  match current_vlog v with
  | Some cur =>
      vsep_enabled_ v && bool_decide (snapshots_ d = [])
      && ((1 <? len (vlogs_ v)) || (gc_trigger v <=? vlog.end_ cur))
  | None => false
  end.

(** Step 1: a fresh generation.  [Some None]: a live snapshot defers the
    pass. *)
Definition gc_rotate (open_err : option bytes) (env : manifest_env) (d : DB) : option (Status * option Z * DB) :=
  match snapshots_ d with
  | _ :: _ => Some (Ok, None, d)
  | [] =>
      let v := vsep_ d in
      let number := next_file_number_ d in
      match vlog.Open open_err (fs d) (dir_ d) number with
      | (s, None) => Some (s, None, d)
      | (_, Some fresh) =>
          let d1 := set_next_file (number + 1)
                      (set_vsep (set_vlogs (emplace_vlog fresh (vlogs_ v)) (Some number) v)
                         (set_fs (<[VlogPath (dir_ d) number := vlog.v_file fresh]> (fs d)) d)) in
          let '(ms, d1) := WriteManifest env d1 in
          if ok ms then Some (Ok, Some number, d1)
          else
            let kept := erase_vlog number (vlogs_ (vsep_ d1)) in
            prev ← list.last kept;
            Some (ms, None, set_next_file number (set_vsep (set_vlogs kept (Some (vlog.number_ prev)) (vsep_ d1)) d1))
      end
  end.

(** The callback of [ScanEntries], under the mutex: a live entry is written
    again, and its size returned. *)
Definition gc_entry (env : entry_env) (gen_number : Z) (key value : bytes) (off : Z) (d : DB)
    : option (Status * option Z * DB) :=
  res ← LookupIn (mem_ d) (imm_ d) (current_ d) key kMaxSeq;
  let live :=
    match res with
    | inl (kFound stored) =>
        match DecodeValuePointer stored with
        | Some p => (vlog_number p =? gen_number) && (offset p =? off)
        | None => false
        end
    | _ => false
    end in
  if negb live then Some (Ok, None, d)
  else
    '(s, d) ← WriteEntry env kTypeValue key value false d;
    Some (s, if ok s then Some (len value) else None, d).

(** [drain_flush]: the pass runs on the background thread, so it flushes
    itself. *)
Definition drain_flush (env : flush_env) (d : DB) : option (Status * DB) :=
  match imm_ d with
  | None => Some (Ok, d)
  | Some imm =>
      '(s, d) ← FlushImmMemTable env imm (imm_log_number_ d) (imm_sst_number_ d) d;
      Some (s, if ok s then set_imm None d else d)
  end.

(** *** Environments in which every call succeeds *)

Definition quiet_ring : ring_env := mkRingEnv [] [] [].
Definition quiet_sync : sync_env := mkSyncEnv None None quiet_ring quiet_ring.
Definition quiet_entry : entry_env := mkEntryEnv [] true [] quiet_ring quiet_sync [].
Definition quiet_manifest : manifest_env := mkManifestEnv None [] None (λ _, true) None None None.
Definition quiet_flush : flush_env := mkFlushEnv default_sst_env quiet_manifest (λ _, true).
Definition quiet_compact : compact_env := mkCompactEnv [] quiet_manifest (λ _, true).
Definition quiet_put : put_env := mkPutEnv (mkRotateEnv quiet_ring None None None None) quiet_entry.

(** The entries of one generation, each followed by the flush it may need. *)
Fixpoint gc_entries (envs : list (entry_env * flush_env)) (gen_number : Z) (es : list (bytes * bytes * Z))
    (rewritten : Z) (d : DB) : option (Status * Z * list (entry_env * flush_env) * DB) :=
  match es with
  | [] => Some (Ok, rewritten, envs, d)
  | (key, value, off) :: es =>
      let '(e, f) := default (quiet_entry, quiet_flush) (head envs) in
      '(s, n, d') ← gc_entry e gen_number key value off d;
      '(s, d') ← match n with Some _ => drain_flush f d' | None => Some (s, d') end;
      let rewritten := rewritten + default 0 n in
      if ok s then gc_entries (tail envs) gen_number es rewritten d'
      else Some (s, rewritten, tail envs, d')
  end.

(** Step 2: every retired generation is scanned. *)
Fixpoint gc_scan (preads : list (list io_outcome)) (envs : list (entry_env * flush_env)) (retired : list vlog.VLog)
    (rewritten : Z) (d : DB) : option (Status * Z * DB) :=
  match retired with
  | [] => Some (Ok, rewritten, d)
  | gen :: retired =>
      '(scan_s, es) ← vlog.ScanEntries (default [] (head preads)) gen (vlog.end_ gen);
      '(s, rewritten, envs, d) ← gc_entries envs (vlog.number_ gen) es rewritten d;
      if negb (ok s) then Some (s, rewritten, d)
      else if negb (ok scan_s) then Some (scan_s, rewritten, d)
      else gc_scan (tail preads) envs retired rewritten d
  end.

Record gc_env := mkGcEnv {
  ge_open : option bytes;
  ge_publish : manifest_env;
  ge_preads : list (list io_outcome);
  ge_entries : list (entry_env * flush_env);
  ge_sync : sync_env;
  ge_retire : manifest_env;
  ge_unlink : bytes → bool
}.

Definition quiet_gc : gc_env := mkGcEnv None quiet_manifest [] [] quiet_sync quiet_manifest (λ _, true).

(** Step 3: the old generations are dropped.  Their bytes stay on disk until
    they are unlinked. *)
Definition gc_retire (env : gc_env) (retired : list vlog.VLog) (rewritten : Z) (d : DB) : option (Status * DB) :=
  match snapshots_ d with
  | _ :: _ => Some (Ok, d)
  | [] =>
      try d := ('(s, w) ← ForceDurabilityLocked (ge_sync env) (current_vlog (vsep_ d)) (wal_ d); Some (s, set_wal w d));
      let v := vsep_ d in
      let f := foldl (λ f g, <[VlogPath (dir_ d) (vlog.number_ g) := vlog.v_file g]> f) (fs d) retired in
      let kept := foldl (λ l g, erase_vlog (vlog.number_ g) l) (vlogs_ v) retired in
      let d := set_vsep (set_gc (u64 (2 * rewritten)) (vlog_gc_active_ v) (set_vlogs kept (vlog_current_ v) v)) (set_fs f d) in
      let '(ms, d) := WriteManifest (ge_retire env) d in
      let v := vsep_ d in
      if negb (ok ms)
      then Some (ms, set_vsep (set_vlogs (foldl (λ l g, emplace_vlog g l) (vlogs_ v) retired) (vlog_current_ v) v) d)
      else
        let st := stats_ d in
        Some (Ok, set_stats (mkStats (stats_wal_bytes_ st) (stats_sst_bytes_ st) (stats_vlog_bytes_ st) (stats_user_bytes_ st)
                               (stats_flushes_ st) (stats_compactions_ st) (u64 (stats_vlog_gcs_ st + 1)))
                    (set_fs (foldl (λ f g, unlink (ge_unlink env) (VlogPath (dir_ d) (vlog.number_ g)) f) (fs d) retired) d))
  end.

Definition RunVlogGC (env : gc_env) (d : DB) : option (Status * DB) :=
  '(s, fresh, d) ← gc_rotate (ge_open env) (ge_publish env) d;
  match fresh with
  | None => Some (s, d)
  | Some fresh_number =>
      let retired := erase_vlog fresh_number (vlogs_ (vsep_ d)) in
      '(s, rewritten, d) ← gc_scan (ge_preads env) (ge_entries env) retired 0 d;
      if negb (ok s) then Some (s, d) else gc_retire env retired rewritten d
  end.

(** ** The background thread *)

Record bg_env := mkBgEnv { be_flush : flush_env; be_compact : compact_env; be_gc : gc_env }.

Definition quiet_bg : bg_env := mkBgEnv quiet_flush quiet_compact quiet_gc.

(** One round of [BackgroundLoop]; [false]: it waits or has exited. *)
Definition bg_round (env : bg_env) (d : DB) : option (bool * DB) :=
  if exit_ d then Some (false, d)
  else
    match imm_ d with
    | Some imm =>
        '(s, d) ← FlushImmMemTable (be_flush env) imm (imm_log_number_ d) (imm_sst_number_ d) d;
        Some (true, if ok s then set_imm None d else set_error false s d)
    | None =>
        if CompactionNeeded d then
          c ← PickCompaction d;
          '(s, d) ← RunCompaction (be_compact env) c d;
          Some (true, if ok s then d else set_error true s d)
        else if VlogGcNeeded d then
          let d := set_vsep (set_gc (vlog_gc_floor_ (vsep_ d)) true (vsep_ d)) d in
          '(s, d) ← RunVlogGC (be_gc env) d;
          let d := set_vsep (set_gc (vlog_gc_floor_ (vsep_ d)) false (vsep_ d)) d in
          Some (true, if ok s then d else set_error false s d)
        else Some (false, d)
    end.

(** What [wait_for_background_work] waits for. *)
Definition background_idle (d : DB) : bool :=
  exit_ d ||
  (match imm_ d with None => true | Some _ => false end && negb (CompactionNeeded d) && negb (VlogGcNeeded d)
   && negb (vlog_gc_active_ (vsep_ d))).

Definition level_file_count (level : Z) (d : DB) : Z :=
  if level =? 0 then len (l0 (current_ d)) else len (default [] (levels (current_ d) !! Z.to_nat (level - 1))).

Definition total_file_count (d : DB) : Z := len (l0 (current_ d)) + len (concat (levels (current_ d))).

(** ** Opening and closing *)

(** The files as a new process finds them: the open logs with what has been
    written to them. *)
Definition disk (d : DB) : files :=
  foldl (λ f v, <[VlogPath (dir_ d) (vlog.number_ v) := vlog.v_file v]> f)
    (<[LogPath (dir_ d) (log_number_ (wal_ d)) := log.w_file (log_writer_ (wal_ d))]> (fs d)) (vlogs_ (vsep_ d)).

(** [~DB]: the background thread has been joined; the files it leaves. *)
Definition Close (env : ring_env) (d : DB) : option files :=
  if io_uring_active_ (wal_ d)
  then '(_, w) ← DrainWalRing env (wal_ d); Some (disk (set_wal w d))
  else Some (disk d).

(** The names [readdir] yields, in some order: the files directly in the
    directory. *)
Definition dir_entry (dir path : bytes) : option bytes :=
  let prefix := dir ++ lit "/" in
  if bytes_eqb (slice 0 (len prefix) path) prefix
  then let name := at_off (len prefix) path in
       if bool_decide (slash ∈ name) then None else Some name
  else None.

Definition dir_names (dir : bytes) (f : files) : list bytes := omap (dir_entry dir) (map_to_list f).*1.

(** Whether [RemoveOrphanFiles] unlinks the file of that name. *)
Definition orphan (live_sst : list Z) (log_floor : Z) (live_vlogs : list Z) (name : bytes) : bool :=
  bytes_eqb name kManifestTmpFileName ||
  match ParseNumberedFile name (lit ".sst") with
  | Some n => bool_decide (n ∉ live_sst)
  | None => false
  end ||
  match ParseNumberedFile name (lit ".log") with
  | Some n => n <? log_floor
  | None => false
  end ||
  match ParseNumberedFile name (lit ".vlog") with
  | Some n => bool_decide (n ∉ live_vlogs)
  | None => false
  end.

Definition RemoveOrphanFiles (removed : bytes → bool) (dir : bytes) (live : list sst.FileMeta) (log_floor : Z)
    (live_vlogs : list Z) (f : files) : files :=
  foldl (λ f name, if orphan (sst.file_number <$> live) log_floor live_vlogs name
                   then unlink removed (dir ++ lit "/" ++ name) f else f) f (dir_names dir f).

Record open_env := mkOpenEnv {
  oe_mkdir : option bytes;               (* an error other than EEXIST *)
  oe_manifest_open : option bytes;
  oe_manifest_reads : list io_outcome;
  oe_table_reads : Z → list io_outcome;
  oe_errno : bytes;
  oe_opendir_vlogs : bool;
  oe_vlog_open : Z → option bytes;
  oe_opendir_logs : bool;
  oe_opendir_orphans : bool;
  oe_unlink : bytes → bool;
  oe_log_open : Z → option bytes;
  oe_log_reads : Z → list io_outcome;
  oe_truncate : Z → option bytes;
  oe_coins : list (list Z);
  oe_ring_setup : option bytes;
  oe_ring_mmap : option bytes;
  oe_ring_sizes : Z * Z;
  oe_wal_open : option bytes;
  oe_dir_open : option bytes;
  oe_dir_sync : option bytes
}.

Definition quiet_open : open_env :=
  mkOpenEnv None None [] (λ _, []) [] true (λ _, None) true true (λ _, true) (λ _, None) (λ _, []) (λ _, None) []
    None None (64, 128) None None None.

(** Step 2: the tables of the MANIFEST, or the message of the failure. *)
Fixpoint open_tables (env : open_env) (dir : bytes) (f : files) (metas : list sst.FileMeta)
    : option (bytes + list TableRef) :=
  match metas with
  | [] => Some (inr [])
  | m :: metas =>
      let n := sst.file_number m in
      '(s, t) ← sst.Open (oe_table_reads env n) f (oe_errno env) n (SstPath dir n);
      match t with
      | None => Some (inl (lit "cannot open SST " ++ SstFileName n ++ lit ": " ++ message_ s))
      | Some t =>
          rest ← open_tables env dir f metas;
          Some (match rest with inl e => inl e | inr rs => inr (mkTableRef t m :: rs) end)
      end
  end.

Definition number_greater (a b : TableRef) : bool := sst.file_number (meta b) <? sst.file_number (meta a).

Definition assemble (refs : list TableRef) : Version :=
  mkVersionSet (sort_by number_greater (filter (λ r, sst.level (meta r) = 0) refs))
    ((λ i, sort_by smallest_less (filter (λ r, sst.level (meta r) = Z.of_nat i + 1) refs))
       <$> seq 0 (Z.to_nat (kMaxLevels - 1))).

(** Step 2b: the value logs; a missing file is created. *)
Fixpoint open_vlogs (env : open_env) (dir : bytes) (f : files) (numbers : list Z) : files * (bytes + list vlog.VLog) :=
  match numbers with
  | [] => (f, inr [])
  | n :: numbers =>
      match vlog.Open (oe_vlog_open env n) f dir n with
      | (s, None) => (f, inl (lit "cannot open vlog " ++ vlog.FileName n ++ lit ": " ++ message_ s))
      | (_, Some v) =>
          let '(f, rest) := open_vlogs env dir (<[VlogPath dir n := vlog.v_file v]> f) numbers in
          (f, match rest with inl e => inl e | inr vs => inr (v :: vs) end)
      end
  end.

Definition open_vsep (o : Options) (vs : list vlog.VLog) : Vsep :=
  let cache := new_cache 16 (Z.shiftl 32 20) in
  if enable_value_separation o
  then mkVsep true (Z.max (value_separation_threshold o) 64) (Z.max (vlog_gc_size o) (Z.shiftl 64 10)) vs
         (vlog.number_ <$> list.last vs) 0 false cache
  else mkVsep false 0 0 [] None 0 false cache.

(** Step 3: the logs at or above the floor, ascending. *)
Definition logs_to_replay (dir : bytes) (floor : Z) (f : files) : list Z :=
  let ns := sort_by Z.ltb
              (omap (λ name, n ← ParseNumberedFile name (lit ".log"); if floor <=? n then Some n else None) (dir_names dir f)) in
  match ns with [] => [floor] | _ => ns end.

(** Step 5: replaying; [rp_mem] is [None] after undefined behaviour. *)
Record replaying := mkReplaying { rp_mem : option MemTable; rp_max_seq : Z; rp_coins : list (list Z) }.

Definition replay_step (st : replaying) (record : bytes) : replaying * bool :=
  match mjoin (ParseRecord record) with
  | None => (st, false)
  | Some (seq, type, key, value) =>
      let coins := default [] (head (rp_coins st)) in
      (mkReplaying (m ← rp_mem st; if type =? kTypeValue then mem_Put coins m seq key value else mem_Delete coins m seq key)
         (Z.max (rp_max_seq st) seq) (tail (rp_coins st)), true)
  end.

(** One log: the message of a failure, or the replay and whether the tail was
    cut off. *)
Definition replay_log (env : open_env) (dir : bytes) (number : Z) (f : files) (st : replaying)
    : option (files * (bytes + replaying * bool)) :=
  match oe_log_open env number with
  | Some e => Some (f, inl (lit "cannot open log " ++ LogFileName number ++ lit ": " ++ e))
  | None =>
      let path := LogPath dir number in
      let data := default [] (f !! path) in
      let f := <[path := data]> f in
      '(st, how) ← log.ForEachRecord replay_step data (oe_log_reads env number) st;
      let cut off what :=
        match oe_truncate env number with
        | Some e => (f, inl (what ++ e))
        | None => (<[path := slice 0 off data]> f, inr (st, true))
        end in
      Some match how with
           | log.StopEof => (f, inr (st, false))
           | log.StopCorruption off => cut off (lit "cannot truncate torn log tail: ")
           | log.StopStep off => cut off (lit "cannot truncate malformed log record: ")
           end
  end.

Fixpoint replay_logs (env : open_env) (dir : bytes) (numbers : list Z) (f : files) (st : replaying) (cut : bool)
    : option (files * (bytes + replaying * bool)) :=
  match numbers with
  | [] => Some (f, inr (st, cut))
  | n :: numbers =>
      '(f, r) ← replay_log env dir n f st;
      match r with
      | inl e => Some (f, inl e)
      | inr (st, c) => replay_logs env dir numbers f st (cut || c)
      end
  end.

Definition max_table_seq (v : Version) (m : Z) : Z :=
  foldl (λ m r, Z.max m (sst.largest_seq (meta r))) m (version_refs v).

(** The ring and the appender of the newest log. *)
Definition attach_log (env : open_env) (dir : bytes) (o : Options) (number : Z) (cut : bool) (f : files)
    : files * (bytes + Wal) :=
  let '(rs, r) :=
    if enable_io_uring o
    then ring.Open (oe_ring_setup env) (oe_ring_mmap env) 64 (oe_ring_sizes env).1 (oe_ring_sizes env).2
    else (IOError (lit "not requested (Options::enable_io_uring)"), None) in
  match oe_wal_open env with
  | Some e => (f, inl (lit "cannot open log " ++ LogFileName number ++ lit ": " ++ e))
  | None =>
      let data := default [] (f !! LogPath dir number) in
      (<[LogPath dir number := data]> f,
       inr (mkWal number (log.mkWriter data (len data)) r (match r with Some _ => [] | None => message_ rs end)
              (match r with Some _ => len data | None => 0 end) 0 ∅ Ok 0 cut))
  end.

(** Steps 3 to 6, once tables and value logs are open. *)
Definition recover (env : open_env) (dir : bytes) (o : Options) (ms : ManifestState) (live_vlogs : list Z) (v : Version)
    (vs : list vlog.VLog) (max_seen : Z) (f : files) : option (files * (Status + DB)) :=
  if negb (oe_opendir_logs env) then Some (f, inl (IOError (lit "cannot read directory " ++ dir)))
  else
    let floor := ms_log_number ms in
    let numbers := logs_to_replay dir floor f in
    let newest := default floor (list.last numbers) in
    let f := if oe_opendir_orphans env
             then RemoveOrphanFiles (oe_unlink env) dir (ms_files ms) floor live_vlogs f else f in
    '(f, r) ← replay_logs env dir numbers f (mkReplaying (Some new_MemTable) 0 (oe_coins env)) false;
    match r with
    | inl e => Some (f, inl (IOError e))
    | inr (st, cut) =>
        m ← rp_mem st;
        let '(f, w) := attach_log env dir o newest cut f in
        match w with
        | inl e => Some (f, inl (IOError e))
        | inr w =>
            let ds := SyncDir (oe_dir_open env) (oe_dir_sync env) dir in
            if negb (ok ds) then Some (f, inl (IOError (lit "cannot sync db directory: " ++ message_ ds)))
            else
              Some (f, inr (mkDB f dir o w m None 0 0 v (max_table_seq v (rp_max_seq st) + 1) []
                              (Z.max max_seen newest + 1) (open_vsep o vs) (mkStats 0 0 0 0 0 0 0) false false Ok))
        end
    end.

(** [DB::Open]: the files it leaves, and the status or the database. *)
Definition Open (env : open_env) (dir : bytes) (o : Options) (f : files) : option (files * (Status + DB)) :=
  match oe_mkdir env with
  | Some e => Some (f, inl (IOError (lit "cannot create directory " ++ dir ++ lit ": " ++ e)))
  | None =>
      ms ← (match f !! ManifestPath dir with
            | Some _ => ParseManifest (oe_manifest_open env) (oe_manifest_reads env) f (ManifestPath dir)
            | None => Some (Some (mkManifestState [] [] 1 true))
            end);
      match ms with
      | None => Some (f, inl (Corruption (lit "MANIFEST is corrupt")))
      | Some ms =>
          if negb (ms_has_log_number ms) then Some (f, inl (Corruption (lit "MANIFEST is corrupt")))
          else
            refs ← open_tables env dir f (ms_files ms);
            match refs with
            | inl e => Some (f, inl (Corruption e))
            | inr refs =>
                let max_seen := foldl Z.max (ms_log_number ms) (sst.file_number <$> ms_files ms) in
                let vlog_on_disk := oe_opendir_vlogs env &&
                  existsb (λ name, match ParseNumberedFile name (lit ".vlog") with Some _ => true | None => false end)
                    (dir_names dir f) in
                if vlog_on_disk && negb (enable_value_separation o)
                then Some (f, inl (IOError (lit "directory contains value logs but enable_value_separation is off; reopen with the switch on to avoid orphaning them")))
                else if bool_decide (ms_vlogs ms ≠ []) && negb (enable_value_separation o)
                then Some (f, inl (IOError (lit "MANIFEST names value logs but enable_value_separation is off; reopen with the switch on to avoid orphaning them")))
                else
                  let live := if enable_value_separation o then match ms_vlogs ms with [] => [1] | l => l end else [] in
                  let '(f, vs) := open_vlogs env dir f live in
                  match vs with
                  | inl e => Some (f, inl (IOError e))
                  | inr vs => recover env dir o ms live (assemble refs) vs (foldl Z.max max_seen live) f
                  end
            end
      end
  end.

End engine.

End db.
