(* ===== verification/DbRead.v ===== *)
(** * Reading the database

    What a state of the database holds, as layers of versions: the memtables,
    the files of level 0 (newest first) and the deeper levels.  [LookupIn] is
    shown to be the layered read ([LookupIn_layers]); range scans are in
    DbScan. *)

From S2P Require Import Prelude Status FsUtil Encoding VLog LruCache InternalKey Mvcc Layers Iterator Block.
From S2P Require Import SSTable SkipList MemTable Merge Db.
Import db.

(** ** What the parts hold *)

(** The versions of a memtable, in internal-key order. *)
Definition mem_versions (m : MemTable) : list version :=
  (λ '(seq, type, key, value), mkVersion key seq type value) <$> default [] (ForEach m).

(** The entries a table's iterator walks over. *)
Definition table_entries (t : sst.Table) : list (bytes * bytes) :=
  default [] (i ← sst.NewIterator t; i ← sst.ti_SeekToFirst i; iter_collect (S (table_size t)) i).

Definition ref_versions (r : TableRef) : list version := version_of <$> table_entries (table r).

Definition smallest (r : TableRef) : bytes := sst.t_smallest_user_key_ (table r).
Definition largest (r : TableRef) : bytes := sst.t_largest_user_key_ (table r).

Definition mem_ok (m : MemTable) : Prop := ∃ es, mem_repr m es ∧ Forall wf_entry es.

Record ref_ok (r : TableRef) : Prop := {
  ro_repr : sst.table_repr (table r) (table_entries (table r));
  ro_smallest : head (v_key <$> ref_versions r) = Some (smallest r);
  ro_largest : list.last (v_key <$> ref_versions r) = Some (largest r)
}.

(** A level: files in key order whose ranges do not meet. *)
Definition before (a b : TableRef) : bool := bytes_ltb (largest a) (smallest b).

Record level_ok (level : list TableRef) : Prop := {
  lo_refs : Forall ref_ok level;
  lo_sorted : sorted_by before level
}.

Definition level_versions (level : list TableRef) : list version := concat (ref_versions <$> level).

Definition imm_versions (imm : option MemTable) : list version :=
  match imm with Some m => mem_versions m | None => [] end.

Definition version_layers (v : Version) : list (list version) :=
  (ref_versions <$> l0 v) ++ (level_versions <$> levels v).

Definition view_layers (mem : MemTable) (imm : option MemTable) (v : Version) : list (list version) :=
  mem_versions mem :: imm_versions imm :: version_layers v.

Definition imm_ok (imm : option MemTable) : Prop := match imm with Some m => mem_ok m | None => True end.

Record version_ok (v : Version) : Prop := {
  vk_l0 : Forall ref_ok (l0 v);
  vk_levels : Forall level_ok (levels v)
}.

(** ** Memtables and tables *)

Lemma mem_versions_repr m es : mem_repr m es → mem_versions m = version_of <$> es.
Proof.
  intros Hr. unfold mem_versions.
  assert (default [] (ForEach m) = foreach_args <$> es) as -> by by rewrite (ForEach_spec m es Hr).
  rewrite <- list_fmap_compose. apply list_fmap_ext. intros i p _. done.
Qed.

Lemma mem_ok_Get m key s :
  mem_ok m → len key < 2 ^ 32 - 8 → read_seq s → mem_Get m key s = Some (read (mem_versions m) key s).
Proof.
  intros (es & Hr & Hwf) Hk Hs. rewrite (mem_versions_repr m es Hr). by apply mem_Get_spec.
Qed.

Lemma image_length contents es : is_image contents es → (length es ≤ length contents)%nat.
Proof.
  intros (E & R & _ & <- & ->). unfold image, body. rewrite length_fmap, !length_app.
  enough (length E ≤ length (concat (enc_entry <$> E)))%nat by lia.
  induction E as [|e E IH]; [done|]. rewrite fmap_cons. cbn [concat length]. rewrite length_app.
  enough (1 ≤ length (enc_entry e))%nat by lia. unfold enc_entry.
  rewrite !length_app. pose proof (len_PutFixed32 (e_shared e)) as H. unfold len in H. lia.
Qed.

Lemma length_concat_le {A} (bs : list (list A)) n :
  Forall (λ b, length b ≤ n)%nat bs → (length (concat bs) ≤ length bs * n)%nat.
Proof. induction 1; cbn; [done|]. rewrite length_app. lia. Qed.

Lemma table_repr_size t es : sst.table_repr t es → (length es ≤ table_size t)%nat.
Proof.
  intros (bs & [Hl Hb _ _] & <-). unfold table_size. rewrite Hl. apply length_concat_le.
  apply Forall_lookup. intros i b Hi. destruct (Hb i b Hi) as (_ & e & _ & _ & Him & _).
  apply image_length in Him. unfold slice in Him. rewrite length_take, length_drop in Him. lia.
Qed.

Lemma table_entries_repr t es : sst.table_repr t es → table_entries t = es.
Proof.
  intros Hr. unfold table_entries. destruct (sst.NewIterator_open t es Hr) as (i & -> & Ho).
  cbn [mbind option_bind]. change (iter_open i es) in Ho. destruct (iter_at_first i es Ho) as (i' & E & Hi').
  cbn [iter_SeekToFirst sst.TableIterator_iter] in E. rewrite E. cbn [mbind option_bind].
  rewrite (iter_collect_at i' es 0 _ Hi'); [done|]. pose proof (table_repr_size t es Hr). lia.
Qed.

Lemma ref_ok_of r es :
  sst.table_repr (table r) es →
  head (v_key <$> (version_of <$> es)) = Some (smallest r) →
  list.last (v_key <$> (version_of <$> es)) = Some (largest r) → ref_ok r.
Proof.
  intros Hr Hh Hl. pose proof (table_entries_repr _ _ Hr) as E.
  split; unfold ref_versions; rewrite E; done.
Qed.

Lemma ref_sorted r : ref_ok r → keys_sorted (table_entries (table r)).
Proof. intros [(bs & Htb & <-) _ _]. apply Htb. Qed.

Lemma ref_wf r : ref_ok r → Forall wf_entry (table_entries (table r)).
Proof. intros [(bs & Htb & <-) _ _]. apply Htb. Qed.

(** User keys do not decrease along a run. *)
Lemma entries_keys_le es i j p q :
  keys_sorted es → Forall wf_entry es → (i < j)%nat → es !! i = Some p → es !! j = Some q →
  bytes_ltb (v_key (version_of q)) (v_key (version_of p)) = false.
Proof.
  intros Hs Hwf Hij Hi Hj. rewrite Forall_lookup in Hwf.
  pose proof (sorted_by_lookup _ _ _ _ _ _ Hs Hij Hi Hj) as Hl.
  destruct (entry_less_versions p q (Hwf _ _ Hi) (Hwf _ _ Hj) Hl) as [H|[-> _]]; [|apply sw_irrefl].
  by apply (sw_asym bytes_ltb).
Qed.

Lemma ref_range r v :
  ref_ok r → v ∈ ref_versions r →
  bytes_ltb (v_key v) (smallest r) = false ∧ bytes_ltb (largest r) (v_key v) = false.
Proof.
  intros Hr (p & -> & [i Hi]%list_elem_of_lookup)%list_elem_of_fmap.
  pose proof (ref_sorted r Hr) as Hs. pose proof (ref_wf r Hr) as Hwf. destruct Hr as [_ Hh Hl].
  unfold ref_versions in *. set (es := table_entries (table r)) in *. split.
  - destruct es as [|p0 es0]; [done|]. injection Hh as <-. destruct i as [|i].
    + injection Hi as ->. apply sw_irrefl.
    + apply (entries_keys_le (p0 :: es0) 0 (S i)); [done|done|lia|done|done].
  - rewrite last_lookup, !list_lookup_fmap, !length_fmap in Hl.
    destruct (es !! pred (length es)) as [q|] eqn:Eq; [|done]. injection Hl as <-.
    pose proof (lookup_lt_Some _ _ _ Hi). destruct (decide (i = pred (length es))) as [->|].
    + rewrite Eq in Hi. injection Hi as ->. apply sw_irrefl.
    + apply (entries_keys_le es i (pred (length es))); [done|done|lia|done|done].
Qed.

Lemma ref_range_nonempty r : ref_ok r → bytes_ltb (largest r) (smallest r) = false.
Proof.
  intros Hr. destruct (ref_versions r) as [|v vs] eqn:E.
  - pose proof (ro_smallest r Hr) as H. by rewrite E in H.
  - pose proof (ro_smallest r Hr) as H. rewrite E in H. injection H as Hv.
    rewrite <- Hv. apply (ref_range r v Hr). rewrite E. apply list_elem_of_here.
Qed.

Lemma table_Get_ok r key s :
  ref_ok r → read_seq s → table_Get r key s = Some (inl (read (ref_versions r) key s)).
Proof.
  intros Hr Hs. unfold table_Get. rewrite (sst.Get_repr _ _ _ _ (ro_repr r Hr) Hs).
  cbn [mbind option_bind]. fold (ref_versions r). by destruct (read (ref_versions r) key s).
Qed.

(** ** Level 0 *)

Lemma lookup_l0_layers files key s :
  Forall ref_ok files → read_seq s → lookup_l0 files key s = Some (inl (layered (ref_versions <$> files) key s)).
Proof.
  intros Hf Hs. induction Hf as [|r files Hr Hf IH]; [done|]. cbn [lookup_l0]. rewrite table_Get_ok by done.
  rewrite fmap_cons. cbn [mbind option_bind layered]. by destruct (read (ref_versions r) key s).
Qed.

(** ** The deeper levels *)

Lemma outside_lacks r key :
  ref_ok r → bytes_ltb key (smallest r) = true ∨ bytes_ltb (largest r) key = true → lacks key (ref_versions r).
Proof.
  intros Hr Ho v Hv E. destruct (ref_range r v Hr Hv) as [H1 H2]. rewrite E in *. destruct Ho; congruence.
Qed.

Section level.
Context (level : list TableRef) (Hl : level_ok level).

Lemma level_ref i r : level !! i = Some r → ref_ok r.
Proof using Hl. intros Hi. pose proof (lo_refs _ Hl) as H. rewrite Forall_lookup in H. by eapply H. Qed.

Lemma level_before i j a b :
  (i < j)%nat → level !! i = Some a → level !! j = Some b → bytes_ltb (largest a) (smallest b) = true.
Proof using Hl. intros Hij Ha Hb. exact (sorted_by_lookup _ _ _ _ _ _ (lo_sorted _ Hl) Hij Ha Hb). Qed.

Lemma smallest_before i j a b :
  (i < j)%nat → level !! i = Some a → level !! j = Some b → bytes_ltb (smallest a) (smallest b) = true.
Proof using Hl.
  intros Hij Ha Hb. apply (sw_le_lt_trans bytes_ltb _ (largest a)); [|by eapply level_before].
  apply ref_range_nonempty. by eapply level_ref.
Qed.

Lemma candidate_spec key s :
  match candidate level key with
  | Some r => r ∈ level ∧ read (level_versions level) key s = read (ref_versions r) key s
  | None => read (level_versions level) key s = kMissing
  end.
Proof using Hl.
  unfold candidate. change (λ r, negb (bytes_ltb key (sst.t_smallest_user_key_ (table r))))
    with (λ r, negb (bytes_ltb key (smallest r))). set (comp := λ r, negb (bytes_ltb key (smallest r))).
  destruct (lower_bound_spec comp level) as (Hle & Hlo & Hhi).
  { intros i j x y Hij Hx Hy Hcy. unfold comp in *. rewrite negb_true_iff in *.
    pose proof (smallest_before i j x y Hij Hx Hy) as Hxy. apply not_true_is_false. intros Hlt.
    by rewrite (sw_trans _ _ _ Hlt Hxy) in Hcy. }
  assert (∀ j r, (lower_bound comp level ≤ j)%nat → level !! j = Some r → lacks key (ref_versions r)) as Hright.
  { intros j r Hj Hr. apply outside_lacks; [by eapply level_ref|left]. specialize (Hhi j r Hj Hr).
    by apply negb_false_iff in Hhi. }
  destruct (lower_bound comp level) as [|i] eqn:En.
  { rewrite read_missing. apply lacks_newest. unfold level_versions.
    intros v (l & (r & -> & [j Hj]%list_elem_of_lookup)%list_elem_of_fmap & Hv)%elem_of_concat.
    apply (Hright j r); [lia|done|done]. }
  destruct (lookup_lt_is_Some_2 level i ltac:(lia)) as [r Hr]. rewrite Hr. cbn [mbind option_bind].
  assert (bytes_ltb key (smallest r) = false) as Hge.
  { specialize (Hlo i r ltac:(lia) Hr). by apply negb_true_iff in Hlo. }
  assert (∀ s, newest key s (level_versions level) = newest key s (ref_versions r)) as Hn.
  { intros s'. unfold level_versions. apply (newest_concat_only key s' _ i); [by rewrite list_lookup_fmap, Hr|].
    intros j l Hji Hj. rewrite list_lookup_fmap in Hj. destruct (level !! j) as [r'|] eqn:Er'; [|done].
    injection Hj as <-. destruct (decide (j < i)%nat); [|by apply (Hright j r'); [lia|]].
    apply outside_lacks; [by eapply level_ref|right].
    eapply (sw_lt_le_trans bytes_ltb); [by apply (level_before j i r' r)|done]. }
  destruct (bytes_ltb _ key) eqn:El.
  - rewrite read_missing, Hn. apply lacks_newest. apply outside_lacks; [by eapply level_ref|by right].
  - split; [by eapply list_elem_of_lookup_2|]. unfold read. by rewrite Hn.
Qed.

End level.

Lemma lookup_levels_layers ls key s :
  Forall level_ok ls → read_seq s → lookup_levels ls key s = Some (inl (layered (level_versions <$> ls) key s)).
Proof.
  intros Hf Hs. induction Hf as [|level ls Hl Hf IH]; [done|]. cbn [lookup_levels]. rewrite fmap_cons. cbn [layered].
  pose proof (candidate_spec level Hl key s) as Hc. destruct (candidate level key) as [r|].
  - destruct Hc as [Hin Hc]. rewrite Hc, table_Get_ok;
      [|pose proof (lo_refs _ Hl) as H; rewrite Forall_forall in H; by apply H|done].
    cbn [mbind option_bind]. by destruct (read (ref_versions r) key s).
  - by rewrite Hc.
Qed.

(** ** The whole lookup *)

Lemma layered_app ls ks key s :
  layered (ls ++ ks) key s = match layered ls key s with kMissing => layered ks key s | r => r end.
Proof.
  induction ls as [|l ls IH]; [done|]. cbn [layered app]. destruct (read l key s); try done.
Qed.

Lemma LookupIn_layers mem imm v key s :
  mem_ok mem → imm_ok imm → version_ok v → len key < 2 ^ 32 - 8 → read_seq s →
  LookupIn mem imm v key s = Some (inl (layered (view_layers mem imm v) key s)).
Proof.
  intros Hm Hi [Hl0 Hls] Hk Hs. unfold LookupIn, view_layers. rewrite (mem_ok_Get mem) by done.
  cbn [mbind option_bind layered]. destruct (read (mem_versions mem) key s); try done.
  assert (lookup_imm imm key s = Some (read (imm_versions imm) key s)) as ->.
  { destruct imm as [m|]; [|done]. by apply mem_ok_Get. }
  cbn [mbind option_bind]. destruct (read (imm_versions imm) key s); try done.
  unfold lookup_version, version_layers. rewrite lookup_l0_layers, layered_app by done. cbn [mbind option_bind].
  destruct (layered (ref_versions <$> l0 v) key s); try done. by apply lookup_levels_layers.
Qed.
