(* ===== verification/DbInv.v ===== *)
(** * The invariant of the database

    [db_inv d hist]: the layers of [d] are well formed, newer above older, and
    answer every read a live snapshot or a latest read can make as the history
    [hist] of all versions ever written does.  It is preserved by writes,
    rotation and the installation of a flushed table, whether or not the
    system calls on the way fail. *)

From S2P Require Import Prelude Status Ring FsUtil Encoding Log VLog LruCache InternalKey Mvcc Layers.
From S2P Require Import Iterator Block SSTable Manifest SkipList MemTable Merge Db DbRead.
Import db.

Definition layers (d : DB) : list (list version) := view_layers (mem_ d) (imm_ d) (current_ d).

(** The oldest sequence number a reader may use. *)
Definition lowest (d : DB) : Z := foldr Z.min (next_seq_ d - 1) (seq_ <$> snapshots_ d).

Definition ref_number (r : TableRef) : Z := sst.file_number (meta r).

(** What is true of every version ever written. *)
Record version_fits (next : Z) (v : version) : Prop := {
  vf_wf : wf_version v;
  vf_seq : 1 ≤ v_seq v < next;
  vf_key : len (v_key v) < 2 ^ 32 - 8
}.

(** The files of the deeper levels have different numbers, all allocated. *)
Record numbers_ok (d : DB) : Prop := {
  no_levels : Forall (λ level, NoDup (ref_number <$> level)) (levels (current_ d));
  no_next : Forall (λ r, ref_number r < next_file_number_ d) (version_refs (current_ d));
  no_imm : is_Some (imm_ d) → imm_sst_number_ d < next_file_number_ d
}.

(** The ring, if there is one, is in a state the kernel and [Ring] agree on. *)
Definition wal_wf (w : Wal) : Prop :=
  match ring_ w with Some r => ring.ring_wf r | None => True end.

(** With separation on there is a value log to append to; the read cache is a
    cache. *)
Record vsep_wf (v : Vsep) : Prop := {
  vw_current : vsep_enabled_ v = true → is_Some (current_vlog v);
  vw_cache : ∃ ls, cache_repr len 16 (Z.shiftl 32 20) (Z.shiftl 2 20) (vlog_cache_ v) ls
}.

Record db_inv (d : DB) (hist : list version) : Prop := {
  di_mem : mem_ok (mem_ d);
  di_imm : imm_ok (imm_ d);
  di_version : version_ok (current_ d);
  di_levels : length (levels (current_ d)) = 6%nat;
  di_stacked : stacked (layers d);
  di_sub : ∀ v, v ∈ concat (layers d) → v ∈ hist;
  di_coherent : coherent hist;
  di_hist : Forall (version_fits (next_seq_ d)) hist;
  di_next : 1 ≤ next_seq_ d;
  di_snapshots : Forall (λ s, 0 ≤ seq_ s < next_seq_ d) (snapshots_ d);
  di_reads : same_reads (lowest d) (concat (layers d)) hist;
  di_numbers : numbers_ok d;
  di_wal : wal_wf (wal_ d);
  di_vsep : vsep_wf (vsep_ d)
}.

(** ** States that differ only in what reads do not use *)

(** The parts of the state the invariant is about. *)
Record same_data (d d' : DB) : Prop := {
  sd_mem : mem_ d' = mem_ d;
  sd_imm : imm_ d' = imm_ d;
  sd_imm_sst : imm_sst_number_ d' = imm_sst_number_ d;
  sd_imm_log : imm_log_number_ d' = imm_log_number_ d;
  sd_current : current_ d' = current_ d;
  sd_next : next_seq_ d' = next_seq_ d;
  sd_snapshots : snapshots_ d' = snapshots_ d;
  sd_options : options_ d' = options_ d;
  sd_files : next_file_number_ d ≤ next_file_number_ d';
  sd_wal : wal_wf (wal_ d) → wal_wf (wal_ d');
  sd_vsep : vsep_wf (vsep_ d) → vsep_wf (vsep_ d')
}.

#[export] Hint Constructors same_data : bedrock.

Lemma same_data_refl d : same_data d d.
Proof. by split. Qed.

Lemma same_data_trans a b c : same_data a b → same_data b c → same_data a c.
Proof. intros [] []. split; try congruence; try lia; auto. Qed.

#[export] Instance same_data_preorder : PreOrder same_data.
Proof. split; [exact same_data_refl|exact same_data_trans]. Qed.

Lemma same_data_layers d d' : same_data d d' → layers d' = layers d.
Proof. intros []. unfold layers. congruence. Qed.

Lemma same_data_lowest d d' : same_data d d' → lowest d' = lowest d.
Proof. intros []. unfold lowest. congruence. Qed.

Lemma same_data_numbers d d' : same_data d d' → numbers_ok d → numbers_ok d'.
Proof.
  intros [Em Ei Es El Ec En Esn Eo Hf _ _] [H1 H2 H3]. split; rewrite ?Ec, ?Ei, ?Es; [done| |].
  - eapply Forall_impl; [exact H2|]. simpl. intros r Hr. lia.
  - intros Hi. specialize (H3 Hi). lia.
Qed.

Lemma same_data_inv d d' hist : same_data d d' → db_inv d hist → db_inv d' hist.
Proof.
  intros Hs Hd. pose proof (same_data_layers _ _ Hs) as El. pose proof (same_data_lowest _ _ Hs) as Elo.
  pose proof (same_data_numbers _ _ Hs (di_numbers _ _ Hd)) as Hn.
  destruct Hs as [Em Ei Es Elg Ec En Esn Eo Hf Hw Hv], Hd.
  split; rewrite ?El, ?Elo, ?Em, ?Ei, ?Ec, ?En, ?Esn; auto.
Qed.

(** ** Snapshots *)

Lemma foldr_min_le z l : foldr Z.min z l ≤ z.
Proof. induction l; simpl; lia. Qed.

Lemma foldr_min_elem z l x : x ∈ l → foldr Z.min z l ≤ x.
Proof. induction 1; simpl; lia. Qed.

Lemma foldr_min_glb z l m : m ≤ z → Forall (λ x, m ≤ x) l → m ≤ foldr Z.min z l.
Proof. intros Hz Hf. induction Hf; simpl; lia. Qed.

Lemma lowest_next d : lowest d ≤ next_seq_ d - 1.
Proof. apply foldr_min_le. Qed.

Lemma lowest_snapshot d s : s ∈ snapshots_ d → lowest d ≤ seq_ s.
Proof. intros Hs. apply foldr_min_elem. by apply list_elem_of_fmap_2. Qed.

(** [lowest] rises when the clock advances and snapshots go or are taken at
    the head. *)
Lemma lowest_mono d d' :
  next_seq_ d ≤ next_seq_ d' →
  (∀ s, s ∈ snapshots_ d' → s ∈ snapshots_ d ∨ next_seq_ d - 1 ≤ seq_ s) → lowest d ≤ lowest d'.
Proof.
  intros Hn Hs. unfold lowest at 2. apply foldr_min_glb; [pose proof (lowest_next d); lia|].
  apply Forall_fmap, Forall_forall. intros s Hin. simpl. destruct (Hs s Hin) as [H|H].
  - by apply lowest_snapshot.
  - pose proof (lowest_next d). lia.
Qed.

Lemma erase_snapshot_sub a l s : s ∈ erase_snapshot a l → s ∈ l.
Proof.
  induction l as [|x l IH]; simpl; [done|]. case_match; [by apply list_elem_of_further|].
  intros [->|Hs]%elem_of_cons; [apply list_elem_of_here|apply list_elem_of_further; auto].
Qed.

(** A state that keeps the data and has other snapshots. *)
Lemma snapshots_inv d hist l :
  db_inv d hist → Forall (λ s, 0 ≤ seq_ s < next_seq_ d) l →
  (∀ s, s ∈ l → s ∈ snapshots_ d ∨ next_seq_ d - 1 ≤ seq_ s) → db_inv (set_snapshots l d) hist.
Proof.
  intros Hd Hl Hs. pose proof (lowest_mono d (set_snapshots l d) ltac:(simpl; lia) Hs) as Hlo.
  destruct Hd as [? ? ? ? ? ? ? ? ? ? Hr [? ? ?] ? ?]. split; try done.
  eapply same_reads_weaken; [exact Hlo|done].
Qed.

Lemma GetSnapshot_inv d hist :
  db_inv d hist → db_inv (GetSnapshot d).2 hist ∧ seq_ (GetSnapshot d).1 = next_seq_ d - 1.
Proof.
  intros Hd. split; [|done]. pose proof (di_next _ _ Hd). apply snapshots_inv; [done| |].
  - apply Forall_app. split; [apply Hd|]. apply Forall_singleton. simpl. lia.
  - intros s [Hs|Hs%list_elem_of_singleton]%elem_of_app; [by left|right]. subst s. simpl. lia.
Qed.

Lemma ReleaseSnapshot_inv d hist a : db_inv d hist → db_inv (ReleaseSnapshot a d) hist.
Proof.
  intros Hd. apply snapshots_inv; [done| |].
  - apply Forall_forall. intros s Hs. pose proof (di_snapshots _ _ Hd) as H. rewrite Forall_forall in H.
    apply H. by eapply erase_snapshot_sub.
  - intros s Hs. left. by eapply erase_snapshot_sub.
Qed.

(** ** The log operations are defined *)

Section wal.
Context (strerror : Z → bytes).

Lemma reap_writes_ring r got err w : ring_ (reap_writes strerror r got err w).2 = Some r.
Proof.
  unfold reap_writes. remember (set_ring r (wal_token_ w) (wal_pending_ w) w) as w0 eqn:E.
  assert (ring_ w0 = Some r) as H by by subst. clear E. revert err w0 H.
  induction got as [|c got IH]; intros err w0 H; [done|]. cbn [foldl]. by apply IH.
Qed.

Lemma DrainWalRing_wf env w :
  wal_wf w → io_uring_active_ w = true → ∃ s w', DrainWalRing strerror env w = Some (s, w') ∧ wal_wf w' ∧ io_uring_active_ w' = true.
Proof.
  unfold wal_wf, io_uring_active_, DrainWalRing. destruct (ring_ w) as [r|] eqn:Er; [|done]. intros Hr _.
  cbn [mbind option_bind]. destruct (_ && _); [exists Ok, w; by rewrite Er|].
  pose proof (ring.Flush_wf (re_flush env) true r Hr) as Hf.
  destruct (ring.Flush (re_flush env) true r) as [flushed r1]. cbn [snd] in Hf. destruct flushed; cbn [negb].
  - destruct (ring.Reap_wf [] [] (re_arrived env) false r1 Hf) as (b & got & r2 & -> & Hr2). cbn [mbind option_bind].
    pose proof (reap_writes_ring r2 got Ok w) as E. destruct (reap_writes strerror r2 got Ok w) as [s w'].
    exists s, w'. cbn [snd] in E. by rewrite E.
  - eexists _, _. split; [done|]. done.
Qed.

Lemma SyncViaRing_wf env cur w :
  wal_wf w → io_uring_active_ w = true → ∃ s w', SyncViaRing strerror env cur w = Some (s, w') ∧ wal_wf w' ∧ io_uring_active_ w' = true.
Proof.
  unfold wal_wf, io_uring_active_, SyncViaRing. destruct (ring_ w) as [r|] eqn:Er; [|done]. intros Hr _.
  cbn [mbind option_bind]. set (t1 := u64 (wal_token_ w + 1)).
  pose proof (ring.queue_wf (ring.kOpFsync (log_number_ w)) t1 r Hr) as H1. fold (ring.QueueFsync (log_number_ w) t1 r) in H1.
  destruct (ring.QueueFsync (log_number_ w) t1 r) as [q1 r1]. cbn [snd] in H1. destruct q1; cbn [negb]; [|by eexists _, _].
  destruct (match cur with Some _ => _ | None => _ end) as [[q2 r2] t2] eqn:E2.
  assert (ring.ring_wf r2) as H2.
  { destruct cur as [n|]; [|by injection E2 as <- <- <-].
    pose proof (ring.queue_wf (ring.kOpFsync (- n)) (u64 (t1 + 1)) r1 H1) as H2.
    fold (ring.QueueFsync (- n) (u64 (t1 + 1)) r1) in H2.
    destruct (ring.QueueFsync (- n) (u64 (t1 + 1)) r1) as [q r']. by injection E2 as <- <- <-. }
  destruct q2; cbn [negb]; [|by eexists _, _].
  pose proof (ring.Flush_wf (re_flush env) true r2 H2) as Hf.
  destruct (ring.Flush (re_flush env) true r2) as [flushed r3]. cbn [snd] in Hf. destruct flushed; cbn [negb]; [|by eexists _, _].
  destruct (ring.Reap_wf [] [] (re_arrived env) false r3 Hf) as (b & got & r4 & -> & Hr4). cbn [mbind option_bind].
  by eexists _, _.
Qed.

Lemma sync_ring_wf env cur w :
  wal_wf w → io_uring_active_ w = true → ∃ s w', sync_ring strerror env cur w = Some (s, w') ∧ wal_wf w'.
Proof.
  intros Hw Ha. unfold sync_ring, and_then.
  destruct (DrainWalRing_wf (se_drain env) w Hw Ha) as (s1 & w1 & -> & Hw1 & Ha1). cbn [mbind option_bind].
  destruct (ok s1); [|by eexists _, _].
  destruct (SyncViaRing_wf (se_pair env) (vlog.number_ <$> cur) w1 Hw1 Ha1) as (s2 & w2 & -> & Hw2 & Ha2).
  cbn [mbind option_bind]. destruct (ok s2); by eexists _, _.
Qed.

Lemma sync_files_wf env cur w : wal_wf w → wal_wf (sync_files env cur w).2.
Proof. intros Hw. unfold sync_files. repeat case_match; done. Qed.

Lemma MaybeSync_wf env mode cur w :
  wal_wf w → ∃ s w', MaybeSync strerror env mode cur w = Some (s, w') ∧ wal_wf w'.
Proof.
  intros Hw. unfold MaybeSync.
  assert (∀ need, ∃ s w', sync_if strerror env need cur w = Some (s, w') ∧ wal_wf w') as Hrun.
  { intros need. unfold sync_if. destruct (io_uring_active_ w) eqn:Ea.
    - destruct (negb _); [by eexists _, _|]. destruct need; [by apply sync_ring_wf|by eexists _, _].
    - destruct need; [|by eexists _, _]. pose proof (sync_files_wf env cur w Hw).
      destruct (sync_files env cur w) as [s w']. by exists s, w'. }
  destruct mode; [apply Hrun|apply Hrun|by eexists _, _].
Qed.

Lemma ForceDurability_wf env cur w :
  wal_wf w → ∃ s w', ForceDurabilityLocked strerror env cur w = Some (s, w') ∧ wal_wf w'.
Proof.
  intros Hw. unfold ForceDurabilityLocked. destruct (io_uring_active_ w) eqn:Ea; [by apply sync_ring_wf|].
  pose proof (sync_files_wf env cur w Hw). destruct (sync_files env cur w) as [s w']. by exists s, w'.
Qed.

(** ** Writing an entry *)

Lemma find_vlog_Some n l v : find_vlog n l = Some v → v ∈ l ∧ vlog.number_ v = n.
Proof.
  induction l as [|u l IH]; [done|]. cbn. destruct (Z.eqb_spec (vlog.number_ u) n) as [E|E].
  - intros [= ->]. split; [apply list_elem_of_here|done].
  - intros [H1 H2]%IH. split; [by apply list_elem_of_further|done].
Qed.

Lemma find_vlog_update n l cur cur' :
  find_vlog n l = Some cur → vlog.number_ cur' = vlog.number_ cur → find_vlog n (update_vlog cur' l) = Some cur'.
Proof.
  intros Hf Hn. destruct (find_vlog_Some _ _ _ Hf) as [_ Hn']. rewrite Hn' in Hn.
  induction l as [|u l IH]; [done|]. cbn in *. rewrite Hn.
  destruct (Z.eqb_spec (vlog.number_ u) n) as [E|E]; [by rewrite Hn, Z.eqb_refl|].
  rewrite (proj2 (Z.eqb_neq _ _) E). specialize (IH Hf). unfold find_vlog, update_vlog in IH. by rewrite Hn in IH.
Qed.

Lemma current_vlog_update cur v cur' :
  current_vlog v = Some cur → vlog.number_ cur' = vlog.number_ cur →
  current_vlog (set_vlogs (update_vlog cur' (vlogs_ v)) (vlog_current_ v) v) = Some cur'.
Proof.
  unfold current_vlog. cbn [vlog_current_ vlogs_ set_vlogs]. destruct (vlog_current_ v) as [n|]; [|done].
  cbn [mbind option_bind]. apply find_vlog_update.
Qed.

Lemma Append_number w l v k x : vlog.number_ (vlog.Append w l v k x).1.1.2 = vlog.number_ v.
Proof. unfold vlog.Append. destruct (write_loop _ _) as [out [e|]]; done. Qed.

Lemma separate_keeps env type key value d :
  vsep_wf (vsep_ d) →
  ∃ s stored d', separate env type key value d = Some (s, stored, d') ∧ same_data d d'.
Proof.
  intros Hv. unfold separate. destruct (separated type value (vsep_ d)) eqn:Es.
  - assert (vsep_enabled_ (vsep_ d) = true) as He.
    { unfold separated in Es. destruct (vsep_enabled_ (vsep_ d)); [done|]. by rewrite andb_false_r in Es. }
    destruct (vw_current _ Hv He) as [cur Hc]. rewrite Hc. cbn [mbind option_bind].
    pose proof (Append_number (ee_vlog_writes env) (ee_lseek env) cur key value) as Hn.
    destruct (vlog.Append _ _ cur key value) as [[[s cur'] off] n]. cbn [fst snd] in Hn.
    pose proof (current_vlog_update cur (vsep_ d) cur' Hc Hn) as Hu.
    destruct (ok s); eexists _, _, _; (split; [done|]); (split; try done; try lia); cbn;
      intros [H1 H2]; (split; [intros _; by rewrite Hu|done]).
  - eexists _, _, _. split; [done|]. apply same_data_refl.
Qed.

Lemma append_ring_keeps env payload r d :
  wal_wf (wal_ d) → ring_ (wal_ d) = Some r →
  ∃ s d', append_ring strerror env payload r d = Some (s, d') ∧ same_data d d' ∧ vsep_ d' = vsep_ d.
Proof.
  intros Hw Er. unfold wal_wf in Hw. rewrite Er in Hw. unfold append_ring.
  set (buf := log.EncodeRecord payload (wal_size_ (wal_ d))). set (token := u64 (wal_token_ (wal_ d) + 1)).
  pose proof (ring.queue_wf (ring.kOpWrite (log_number_ (wal_ d)) (slice 0 (u32 (len buf)) buf) (wal_size_ (wal_ d))) token r Hw) as H1.
  fold (ring.QueueWrite (log_number_ (wal_ d)) buf (wal_size_ (wal_ d)) token r) in H1.
  destruct (ring.QueueWrite _ _ _ _ r) as [queued r1]. cbn [snd] in H1. destruct queued; cbn [negb].
  2: { eexists _, _. split_and!; [done| |done]. by split. }
  pose proof (ring.Flush_wf (re_flush env) false r1 H1) as H2.
  destruct (ring.Flush (re_flush env) false r1) as [flushed r2]. cbn [snd] in H2. destruct flushed; cbn [negb].
  2: { eexists _, _. split_and!; [done| |done]. by split. }
  destruct (ring.Reap_wf [] [] (re_arrived env) false r2 H2) as (b & got & r3 & -> & H3). cbn [mbind option_bind].
  match goal with |- context [reap_writes strerror r3 got ?e ?w] =>
    pose proof (reap_writes_ring r3 got e w) as E; destruct (reap_writes strerror r3 got e w) as [err w'] end.
  cbn [snd] in E. eexists _, _. split_and!; [done| |done]. split; try done; try (cbn; lia).
  intros _. unfold wal_wf. cbn. by rewrite E.
Qed.

Lemma append_file_keeps env payload d :
  ring_ (wal_ d) = None → same_data d (append_file env payload d).2.
Proof.
  intros Er. unfold append_file. destruct (log.AddRecord _ _ _) as [s lw].
  destruct (ok s); cbn [negb snd]; (split; try done; try (cbn; lia)); intros _; unfold wal_wf; cbn; by rewrite Er.
Qed.

Lemma mem_ok_holds m : mem_ok m → mem_holds m (mem_versions m) ∧ Forall wf_version (mem_versions m).
Proof.
  intros (es & Hr & Hwf). rewrite (mem_versions_repr m es Hr). split.
  - exists es. split_and!; [done..|]. rewrite <- list_fmap_compose.
    assert (entry_of ∘ version_of <$> es = es) as ->; [|done].
    clear Hr. induction Hwf as [|p es Hp _ IH]; [done|]. rewrite fmap_cons, IH. simpl. f_equal.
    by apply entry_of_version_of.
  - apply Forall_fmap. eapply Forall_impl; [exact Hwf|]. intros p Hp. by apply entry_of_version_of.
Qed.

Lemma mem_apply_ok coins m o :
  mem_ok m → (∀ v, v ∈ mem_versions m → v_seq v < v_seq (op_version o)) →
  0 ≤ v_seq (op_version o) < 2 ^ 56 → len (v_key (op_version o)) < 2 ^ 32 - 8 →
  ∃ m', mem_apply coins m o = Some m' ∧ mem_ok m' ∧ mem_versions m' ≡ₚ op_version o :: mem_versions m.
Proof.
  intros Hm Hlt Hs Hk. destruct (mem_ok_holds m Hm) as [Hh Hwf].
  destruct (mem_apply_holds coins m _ o Hh Hwf Hlt Hs Hk) as (m' & E & es & Hr & He & Hp).
  exists m'. split_and!; [done|by exists es|]. rewrite (mem_versions_repr m' es Hr).
  rewrite (versions_perm es (mem_versions m ++ [op_version o])); [|apply Forall_app; split; [done|]|done].
  - by rewrite <- Permutation_cons_append.
  - apply Forall_singleton. by apply op_version_wf.
Qed.

(** A new version on top of the memtable. *)
Lemma set_mem_inv d hist m' v :
  db_inv d hist → mem_ok m' → mem_versions m' ≡ₚ v :: mem_versions (mem_ d) →
  v_seq v = next_seq_ d → next_seq_ d < 2 ^ 56 → wf_version v → len (v_key v) < 2 ^ 32 - 8 →
  db_inv (set_mem m' (next_seq_ d + 1) d) (v :: hist).
Proof.
  intros Hd Hm' Hp Hseq Hmax Hwf Hk. pose proof (di_next _ _ Hd) as Hn1.
  pose proof (di_hist _ _ Hd) as Hh. rewrite Forall_forall in Hh.
  assert (∀ w, w ∈ hist → v_seq w < v_seq v) as Htop by (intros w Hw; pose proof (vf_seq _ _ (Hh w Hw)); lia).
  assert (∀ w, w ∈ concat (layers d) → v_seq w < v_seq v) as Htop2 by (intros w Hw; apply Htop; by apply (di_sub _ _ Hd)).
  set (d' := set_mem m' (next_seq_ d + 1) d).
  assert (∀ w, w ∈ concat (layers d') ↔ w ∈ v :: concat (layers d)) as Hel.
  { intros w. unfold d', layers, view_layers. cbn [mem_ set_mem concat imm_ current_].
    rewrite elem_of_cons, !elem_of_app, Hp, elem_of_cons. tauto. }
  assert (coherent (v :: hist)) as Hc.
  { intros a b [->|Ha]%elem_of_cons [->|Hb]%elem_of_cons Hkk Hss; [done|specialize (Htop b Hb); lia|specialize (Htop a Ha); lia|].
    by apply (di_coherent _ _ Hd). }
  destruct Hd as [Hmem Himm Hver Hlev [Hst1 Hst2] Hsub Hco Hhist Hnext Hsn Hrd [? ? ?] Hw Hv]. split; try done.
  - split; [|done]. cbn [mem_ set_mem]. change (concat (layers d)) with (mem_versions (mem_ d) ++ concat (imm_versions (imm_ d) :: version_layers (current_ d))) in Htop2.
    intros u w Hu Hw' Hkk. change (u ∈ mem_versions m') in Hu. rewrite Hp in Hu. apply elem_of_cons in Hu as [->|Hu].
    + left. apply Z.lt_le_incl, Htop2. apply elem_of_app. by right.
    + destruct (Hst1 u w Hu Hw' Hkk) as [|Hin]; [by left|right]. change (w ∈ mem_versions m'). rewrite Hp. by apply list_elem_of_further.
  - intros w Hin%Hel. apply elem_of_cons in Hin as [->|Hin]; [apply list_elem_of_here|].
    apply list_elem_of_further. by apply Hsub.
  - change (next_seq_ d') with (next_seq_ d + 1). constructor; [split; [done|lia|done]|]. eapply Forall_impl; [exact Hhist|].
    intros w [H1 H2 H3]. split; [done|lia|done].
  - cbn. lia.
  - cbn. eapply Forall_impl; [exact Hsn|]. simpl. intros s Hs. lia.
  - apply same_reads_weaken with (lowest d); [apply lowest_mono; [cbn; lia|intros s Hs; by left]|].
    apply same_reads_trans with (v :: concat (layers d)).
    + apply same_reads_ext; [|done]. eapply coherent_sub; [exact Hc|].
      intros w [->|Hin]%elem_of_cons; [apply list_elem_of_here|apply list_elem_of_further; auto].
    + apply same_reads_write; auto.
Qed.

(** What a write leaves as it is, whether it succeeds or not. *)
Record same_tables (d d' : DB) : Prop := {
  st_current : current_ d' = current_ d;
  st_options : options_ d' = options_ d;
  st_snapshots : snapshots_ d' = snapshots_ d;
  st_next : next_seq_ d ≤ next_seq_ d';
  st_files : next_file_number_ d ≤ next_file_number_ d'
}.

#[export] Instance same_tables_preorder : PreOrder same_tables.
Proof. split; [by split|]. intros a b c [] []. split; try congruence; lia. Qed.

Lemma same_data_tables d d' : same_data d d' → same_tables d d'.
Proof. intros []. split; try done. lia. Qed.

Definition entry_op (type seq : Z) (key stored : bytes) : mem_op :=
  if type =? kTypeValue then MPut seq key stored else MDelete seq key.

Lemma append_keeps env payload d :
  wal_wf (wal_ d) →
  ∃ s d', match ring_ (wal_ d) with
          | Some r => append_ring strerror (ee_ring env) payload r d
          | None => Some (append_file env payload d)
          end = Some (s, d') ∧ same_data d d' ∧ vsep_ d' = vsep_ d.
Proof.
  intros Hw. destruct (ring_ (wal_ d)) as [r|] eqn:Er.
  - by apply append_ring_keeps.
  - pose proof (append_file_keeps env payload d Er) as Hs.
    assert (vsep_ (append_file env payload d).2 = vsep_ d) as Hv.
    { unfold append_file. destruct (log.AddRecord _ _ _) as [s lw]. by destruct (ok s). }
    destruct (append_file env payload d) as [s d']. by exists s, d'.
Qed.

(** [WriteEntry] fails without a trace in the layers, or puts the stored value
    on top of them. *)
Lemma WriteEntry_inv env type key value count d hist :
  db_inv d hist → len key < 2 ^ 32 - 8 → next_seq_ d < 2 ^ 56 →
  type = kTypeValue ∨ type = kTypeDeletion →
  ∃ s1 stored d1 s d', separate env type key value d = Some (s1, stored, d1) ∧
    WriteEntry strerror env type key value count d = Some (s, d') ∧
    same_tables d d' ∧ imm_ d' = imm_ d ∧ vsep_ d' = vsep_ d1 ∧
    if ok s then ok s1 = true ∧ next_seq_ d' = next_seq_ d + 1 ∧
                 db_inv d' (op_version (entry_op type (next_seq_ d) key stored) :: hist)
    else next_seq_ d' = next_seq_ d ∧ db_inv d' hist.
Proof.
  intros Hd Hk Hseq Ht. destruct (separate_keeps env type key value d (di_vsep _ _ Hd)) as (s1 & stored & d1 & Es & H1).
  exists s1, stored, d1. unfold WriteEntry. rewrite Es. cbn [mbind option_bind].
  pose proof (same_data_inv _ _ _ H1 Hd) as Hd1.
  assert (∀ s d', same_data d d' → vsep_ d' = vsep_ d1 → ok s = false →
    ∃ s0 d0, Some (s1, stored, d1) = Some (s1, stored, d1) ∧ Some (s, d') = Some (s0, d0) ∧ same_tables d d0 ∧
      imm_ d0 = imm_ d ∧ vsep_ d0 = vsep_ d1 ∧
      if ok s0 then ok s1 = true ∧ next_seq_ d0 = next_seq_ d + 1 ∧
                    db_inv d0 (op_version (entry_op type (next_seq_ d) key stored) :: hist)
      else next_seq_ d0 = next_seq_ d ∧ db_inv d0 hist) as Hfail.
  { intros s d' Hs Hv Hno. exists s, d'. rewrite Hno. split_and!; try done; [by apply same_data_tables|apply Hs|apply Hs|].
    by apply same_data_inv with d. }
  destruct (ok s1) eqn:E1; cbn [negb]; [|by apply Hfail].
  destruct (append_keeps env (wal_payload (next_seq_ d1) type key stored) d1 (di_wal _ _ Hd1)) as (s2 & d2 & E2 & H2 & V2).
  rewrite E2. unfold and_then. cbn [mbind option_bind]. destruct (ok s2) eqn:E2'.
  2: { apply Hfail; [by etrans|done|done]. }
  set (d3 := if count then _ else d2).
  assert (same_data d2 d3 ∧ vsep_ d3 = vsep_ d2) as [H3 V3] by (unfold d3; destruct count; by split).
  clearbody d3. pose proof (transitivity H1 (transitivity H2 H3)) as H13.
  pose proof (same_data_inv _ _ _ H13 Hd) as Hd3.
  destruct (MaybeSync_wf (ee_sync env) (sync_mode (options_ d3)) (current_vlog (vsep_ d3)) (wal_ d3) (di_wal _ _ Hd3))
    as (s4 & w & -> & Hw). cbn [mbind option_bind].
  assert (same_data d (set_wal w d3)) as H14.
  { etrans; [exact H13|]. by split. }
  pose proof (same_data_inv _ _ _ H14 Hd) as Hd4. set (d4 := set_wal w d3) in *.
  destruct (ok s4) eqn:E4; cbn [negb]; [|apply Hfail; [done|cbn; congruence|done]].
  assert (next_seq_ d4 = next_seq_ d) as En by apply H14.
  set (o := entry_op type (next_seq_ d) key stored).
  assert (v_seq (op_version o) = next_seq_ d ∧ v_key (op_version o) = key) as [Eo1 Eo2].
  { unfold o, entry_op. by destruct (type =? kTypeValue). }
  destruct (mem_apply_ok (ee_coins env) (mem_ d4) o) as (m' & Em & Hm' & Hp).
  { apply Hd4. }
  { intros v Hv. rewrite Eo1, <- En. pose proof (di_hist _ _ Hd4) as Hh. rewrite Forall_forall in Hh.
    apply (vf_seq _ _ (Hh v (di_sub _ _ Hd4 v ltac:(apply elem_of_app; by left)))). }
  { rewrite Eo1. pose proof (di_next _ _ Hd). lia. }
  { by rewrite Eo2. }
  assert ((if type =? kTypeValue then mem_Put (ee_coins env) (mem_ d4) (next_seq_ d4) key stored
           else mem_Delete (ee_coins env) (mem_ d4) (next_seq_ d4) key) = Some m') as Eput.
  { rewrite <- Em, En. unfold o, entry_op. by destruct (type =? kTypeValue). }
  rewrite Eput. cbn [mbind option_bind].
  assert (u64 (next_seq_ d4 + 1) = next_seq_ d4 + 1) as -> by (apply u64_small; pose proof (di_next _ _ Hd); lia).
  eexists Ok, _. split_and!; [done|done| | | |].
  - etrans; [by apply same_data_tables|]. split; try done; cbn; lia.
  - apply H14.
  - cbn. congruence.
  - change (ok Ok) with true. cbv iota. split_and!; [done|change (next_seq_ d4 + 1 = next_seq_ d + 1); by rewrite En|].
    apply set_mem_inv; [done|done|done|by rewrite Eo1|by rewrite En| |by rewrite Eo2].
    apply op_version_wf. rewrite Eo1. pose proof (di_next _ _ Hd). lia.
Qed.

(** ** Rotation *)

Lemma mem_ok_new : mem_ok new_MemTable.
Proof. exists []. split; [apply mem_repr_new|constructor]. Qed.

Lemma mem_versions_new : mem_versions new_MemTable = [].
Proof. by rewrite (mem_versions_repr _ [] mem_repr_new). Qed.

Lemma rotated_layers d d' :
  mem_ d' = new_MemTable → imm_ d' = Some (mem_ d) → imm_ d = None → current_ d' = current_ d →
  concat (layers d') = concat (layers d) ∧ (stacked (layers d) → stacked (layers d')).
Proof.
  intros Em Ei Ei0 Ec. unfold layers, view_layers. rewrite Em, Ei, Ei0, Ec. cbn [imm_versions concat].
  rewrite mem_versions_new. split; [done|]. cbn [stacked concat]. intros (H1 & _ & H3). split_and!; [|done|done].
  intros u w Hu. by apply not_elem_of_nil in Hu.
Qed.

Lemma RotateForFlush_inv env d hist :
  db_inv d hist → imm_ d = None →
  ∃ s d', RotateForFlush strerror env d = Some (s, d') ∧ db_inv d' hist ∧ same_tables d d' ∧ vsep_ d' = vsep_ d ∧
    next_seq_ d' = next_seq_ d ∧ (if ok s then imm_ d' = Some (mem_ d) else imm_ d' = None).
Proof.
  intros Hd Hi. unfold RotateForFlush, and_then.
  set (e1 := if io_uring_active_ (wal_ d) then _ else _).
  assert (∃ s w, e1 = Some (s, set_wal w d) ∧ wal_wf w) as (s1 & w1 & E1 & Hw1).
  { unfold e1. destruct (io_uring_active_ (wal_ d)) eqn:Ea.
    - destruct (DrainWalRing_wf (ro_drain env) (wal_ d) (di_wal _ _ Hd) Ea) as (s & w & -> & Hw & _). by exists s, w.
    - exists Ok, (wal_ d). split; [by destruct d|apply Hd]. }
  rewrite E1. clear e1 E1. cbn [mbind option_bind].
  assert (∀ s f, ok s = false → ∃ s' d', Some (s, set_fs f (set_wal w1 d)) = Some (s', d') ∧ db_inv d' hist ∧
    same_tables d d' ∧ vsep_ d' = vsep_ d ∧ next_seq_ d' = next_seq_ d ∧
    (if ok s' then imm_ d' = Some (mem_ d) else imm_ d' = None)) as Hfail.
  { intros s f Hno. eexists _, _. split; [done|]. rewrite Hno.
    assert (same_data d (set_fs f (set_wal w1 d))) as Hs by by split.
    split_and!; [by apply same_data_inv with d|by apply same_data_tables|done..]. }
  destruct (ok s1) eqn:Es1.
  2: { specialize (Hfail s1 (fs d) Es1). by destruct d. }
  destruct (ro_open env) as [e|]; [specialize (Hfail (IOError (lit "cannot create " ++ LogFileName (next_file_number_ d) ++ lit ": " ++ e)) (fs d) eq_refl); by destruct d|].
  destruct (ro_fsync env) as [e|]; [by apply Hfail|].
  destruct (ok (SyncDir _ _ _)) eqn:Es2; cbn [negb]; [|by apply Hfail].
  eexists Ok, _. split; [done|]. change (ok Ok) with true. cbv iota. split_and!; [|split; try done; cbn; lia|done..].
  destruct Hd as [Hmem Himm Hver Hlev Hst Hsub Hco Hhist Hnext Hsn Hrd [N1 N2 N3] Hw Hv].
  match goal with |- db_inv ?x hist => set (d' := x) end.
  destruct (rotated_layers d d') as [El Hst']; [done..|].
  split; try done; rewrite ?El; try done; [apply mem_ok_new|by apply Hst'|].
  split; [done| |].
  - eapply Forall_impl; [exact N2|]. simpl. intros r Hr. lia.
  - cbn. lia.
Qed.

Lemma write_op_inv env type key value d hist :
  db_inv d hist → len key < 2 ^ 32 - 8 → next_seq_ d < 2 ^ 56 → type = kTypeValue ∨ type = kTypeDeletion →
  imm_ d = None →
  ∃ s d', write_op strerror env type key value d = Some (Some (s, d')) ∧ same_tables d d' ∧
    (ok s = false ∧ next_seq_ d' = next_seq_ d ∧ db_inv d' hist ∨
     ok s = true ∧ next_seq_ d' = next_seq_ d + 1 ∧
     ∃ d0 stored d1, vsep_ d0 = vsep_ d ∧ separate (pe_entry env) type key value d0 = Some (Ok, stored, d1) ∧ vsep_ d' = vsep_ d1 ∧
       db_inv d' (op_version (entry_op type (next_seq_ d) key stored) :: hist)).
Proof.
  intros Hd Hk Hseq Ht Hi. unfold write_op. rewrite Hi. unfold and_then.
  set (e1 := if write_buffer_size _ <=? _ then _ else _).
  assert (∃ s d0, e1 = Some (s, d0) ∧ db_inv d0 hist ∧ same_tables d d0 ∧ vsep_ d0 = vsep_ d ∧ next_seq_ d0 = next_seq_ d)
    as (s1 & d0 & -> & Hd0 & Ht0 & Hv0 & Hn0).
  { unfold e1. destruct (_ <=? _).
    - destruct (RotateForFlush_inv (pe_rotate env) d hist Hd Hi) as (s & d0 & -> & H1 & H2 & H3 & H4 & _).
      by exists s, d0.
    - by exists Ok, d. }
  cbn [mbind option_bind]. destruct (ok s1) eqn:E1.
  2: { exists s1, d0. split_and!; [done..|]. by left. }
  destruct (WriteEntry_inv (pe_entry env) type key value true d0 hist) as (s2 & stored & d1 & s & d' & Es & Ew & H2 & _ & H4 & H5);
    [done|done|lia|done|].
  rewrite Ew. cbn [mbind option_bind]. exists s, d'. split_and!; [done|by etrans|].
  destruct (ok s) eqn:Eok; [right|left].
  - destruct H5 as (Ho & Hn & Hinv). rewrite Hn0 in *. split_and!; [done..|].
    exists d0, stored, d1. split_and!; [done| |done|done].
    assert (s2 = Ok) as ->; [|done].
    clear -Es Ho. unfold separate in Es. destruct (separated _ _ _).
    + apply bind_Some in Es as (cur & _ & Es). destruct (vlog.Append _ _ _ _ _) as [[[s3 c3] o3] n3].
      destruct (ok s3) eqn:E3; cbn [negb] in Es; injection Es as <- <- <-; [done|congruence].
    + by injection Es as <- <- <-.
  - destruct H5 as [Hn Hinv]. split_and!; [done|lia|done].
Qed.

End wal.
