(* ===== verification/DbFlush.v ===== *)
(** * Flushing a memtable

    The table a flush or a compaction writes holds exactly the versions added
    to its builder, or the step reports an error ([finish_table_spec]); a
    flush installs the memtable's versions as the newest file of level 0
    ([flush_install_spec]). *)

From S2P Require Import Prelude Status FsUtil Encoding Log VLog LruCache InternalKey Mvcc Layers Iterator.
From S2P Require Import Block SSTable TableSize Manifest SkipList MemTable Merge Db DbRead DbInv.
Import db.

(** ** Writing and checking a table *)

(** The versions a builder can turn into a table. *)
Record buildable (vs : list version) : Prop := {
  bd_nonempty : vs ≠ [];
  bd_wf : Forall wf_version vs;
  bd_keys : Forall (λ v, len (v_key v) < 2 ^ 32 - 8) vs;
  bd_sorted : keys_sorted (entry_of <$> vs);
  bd_weight : total_weight vs + 56 < 2 ^ 32
}.

Lemma buildable_input vs : buildable vs → sst.table_input sst.default_TableOptions vs.
Proof.
  intros [Hne Hwf Hk Hs Hw]. split_and!; try done.
  pose proof (table_file_size vs Hwf Hs). lia.
Qed.

(** What is known of a table made of [vs]. *)
Record table_of (r : TableRef) (number level : Z) (vs : list version) : Prop := {
  to_ok : ref_ok r;
  to_versions : ref_versions r = vs;
  to_number : ref_number r = number;
  to_level : sst.level (meta r) = level;
  to_seqs : Forall (λ v, v_seq v ≤ sst.largest_seq (meta r)) vs;
  to_extremes : sst.smallest_seq (meta r) ∈ v_seq <$> vs ∧ sst.largest_seq (meta r) ∈ v_seq <$> vs;
  to_sizes : sst.entry_count (meta r) = len vs ∧ len vs < 2 ^ 32 ∧ 0 ≤ sst.file_size (meta r) < 2 ^ 32;
  to_keys : head (v_key <$> vs) = Some (sst.smallest_key (meta r)) ∧ list.last (v_key <$> vs) = Some (sst.largest_key (meta r))
}.

(** No call fails; writes and reads may be split and interrupted. *)
Record sst_env_fine (env : sst_env) : Prop := {
  sf_open : we_open (te_write env) = None;
  sf_writes : error_free (we_writes (te_write env)) = true;
  sf_fsync : we_fsync (te_write env) = None;
  sf_dir_open : we_dir_open (te_write env) = None;
  sf_dir_sync : we_dir_sync (te_write env) = None;
  sf_reads : error_free (te_reads env) = true
}.

Lemma WriteFileDurable_fine env f path data : sst_env_fine env → (WriteFileDurable (te_write env) f path data).1 = Ok.
Proof.
  intros [E1 E2 E3 E4 E5 _]. unfold WriteFileDurable. rewrite E1, (write_loop_error_free _ _ E2), E3. cbn [fst].
  unfold SyncDir. by rewrite E4, E5.
Qed.

Lemma ReadFileToString_fine env f path data e out :
  sst_env_fine env → f !! path = Some data → ReadFileToString (te_reads env) f path e out = Some (data, Ok).
Proof.
  intros Hfine Hp. unfold ReadFileToString. rewrite Hp. by rewrite read_to_end_spec by (apply Hfine || lia).
Qed.

Lemma finish_table_spec env b number level what d vs :
  buildable vs → sst.add_all (sst.new_Builder sst.default_TableOptions) vs = (Ok, b) →
  ∃ s r f, finish_table env b number level what d = Some (s, r, set_fs f d) ∧
    match r with
    | None => ok s = false ∧ ¬ sst_env_fine env
    | Some r => s = Ok ∧ table_of r number level vs ∧
        f !! SstPath (dir_ d) number = Some (sst.table_file sst.default_TableOptions vs)
    end.
Proof.
  intros Hb Hadd. pose proof (buildable_input vs Hb) as Hin. unfold finish_table.
  destruct (sst.finish_open (te_write env) (fs d) (SstPath (dir_ d) number)
              (sst.mkFileMeta number level 0 0 0 0 [] []) [] [] _ vs number Hin) as (b' & Hadd' & Hfin).
  rewrite Hadd in Hadd'. injection Hadd' as <-.
  destruct (sst.Finish _ _ _ _ _) as [[[s f] m] b2] eqn:Ef. destruct Hfin as [Hm Hopen].
  destruct (ok s) eqn:Es; cbn [negb].
  2:{ eexists _, None, f. split_and!; [done|done|]. intros Hfine. unfold sst.Finish in Ef. destruct (sst.finish_image b) as [file b3].
      pose proof (WriteFileDurable_fine env (fs d) (SstPath (dir_ d) number) file Hfine) as Hw.
      destruct (WriteFileDurable _ _ _ file) as [s' f']. injection Ef as -> _ _ _. cbn [fst] in Hw. by subst s. }
  specialize (Hopen eq_refl eq_refl). destruct Hopen as (t & Ho & Hr & Hn & Hsm & Hla & Hnum).
  assert (f !! SstPath (dir_ d) number = Some (sst.table_file sst.default_TableOptions vs)) as Hf.
  { unfold sst.Finish in Ef. unfold sst.table_file. rewrite Hadd. cbn [snd].
    destruct (sst.finish_image b) as [file b3]. cbn [fst].
    pose proof (WriteFileDurable_ok_aux (te_write env) (fs d) (SstPath (dir_ d) number) file) as Hw.
    destruct (WriteFileDurable _ _ _ file) as [s' f']. injection Ef as -> -> _ _. cbn [fst snd] in Hw.
    rewrite (Hw Es). apply lookup_insert_eq. }
  unfold sst.Open. cbn [fs set_fs].
  destruct (ReadFileToString_any (te_reads env) f _ _ (te_open env) [] Hf) as (o & s2 & Erd & Hok). rewrite Erd. cbn [mbind option_bind].
  destruct (ok s2) eqn:Es2; cbn [negb mbind option_bind].
  2:{ eexists _, None, f. split_and!; [done|done|]. intros Hfine. rewrite (ReadFileToString_fine env f _ _ _ _ Hfine Hf) in Erd.
      by injection Erd as <- <-. }
  destruct (Hok eq_refl) as [-> _].
  destruct (sst.open_table_file _ vs number Hin) as (t' & Eo & Hr' & Hn' & Hsm' & Hla' & _). rewrite Eo.
  cbn [mbind option_bind]. eexists Ok, (Some (mkTableRef t' m)), f. split_and!; [done|done| |done].
  destruct Hm as (Hm1 & Hm2 & Hm3 & Hm4 & Hm5 & Hm6 & Hm7 & Hm8).
  pose proof (sst.versions_entries vs (bd_wf _ Hb)) as Hve.
  pose proof (ref_ok_of (mkTableRef t' m) (entry_of <$> vs) Hr') as Hro. rewrite Hve in Hro.
  split; [by apply Hro| |done|done| | | |].
  - unfold ref_versions. cbn [table]. by rewrite (table_entries_repr t' _ Hr').
  - eapply Forall_impl; [exact Hm7|]. simpl. lia.
  - done.
  - cbn [meta]. rewrite Hm5, Hm6. pose proof (total_weight_length vs). pose proof (bd_weight _ Hb).
    pose proof (len_nonneg (sst.table_file sst.default_TableOptions vs)).
    split_and!; [done|lia|done|apply Hin].
  - done.
Qed.

(** A table without entries does not pass the self-check. *)
Lemma finish_table_empty env number level what d :
  ∃ s f, finish_table env (sst.new_Builder sst.default_TableOptions) number level what d = Some (s, None, set_fs f d) ∧
    ok s = false.
Proof.
  unfold finish_table, sst.Finish.
  destruct (sst.finish_image _) as [file b] eqn:Ei.
  pose proof (WriteFileDurable_ok_aux (te_write env) (fs d) (SstPath (dir_ d) number) file) as Hw.
  destruct (WriteFileDurable _ _ _ file) as [s f]. cbn [fst snd] in Hw.
  destruct (ok s) eqn:Es; cbn [negb]; [|by exists s, f].
  assert (f !! SstPath (dir_ d) number = Some file) as Hf by (rewrite (Hw eq_refl); apply lookup_insert_eq).
  unfold sst.Open. cbn [fs set_fs].
  destruct (ReadFileToString_any (te_reads env) f _ _ (te_open env) [] Hf) as (o & s2 & -> & Hok). cbn [mbind option_bind].
  destruct (ok s2) eqn:Es2; cbn [negb mbind option_bind]; [|eexists _, f; split; done].
  destruct (Hok eq_refl) as [-> _].
  assert (sst.open_data number file = Some (inl (lit "index block corrupt"))) as ->.
  { vm_compute in Ei. injection Ei as <- _. by vm_compute. }
  cbn [mbind option_bind]. eexists _, f. split; done.
Qed.

(** ** Sorted runs *)

Lemma keys_sorted_NoDup es : keys_sorted es → NoDup es.
Proof.
  induction es as [|p es IH]; [constructor|]. intros [Hp Hs]. constructor; [|by apply IH]. intros Hin.
  rewrite Forall_forall in Hp. specialize (Hp p Hin). unfold entry_less in Hp.
  by rewrite (sw_irrefl (lt := InternalKeyComparator)) in Hp.
Qed.

Lemma wf_entries_versions es : Forall wf_entry es → entry_of <$> (version_of <$> es) = es.
Proof.
  induction 1 as [|p es Hp _ IH]; [done|]. rewrite !fmap_cons, IH. f_equal. by apply entry_of_version_of.
Qed.

Lemma run_NoDup es : keys_sorted es → Forall wf_entry es → NoDup (version_of <$> es).
Proof.
  intros Hs Hwf. apply (NoDup_fmap_1 entry_of). rewrite wf_entries_versions by done. by apply keys_sorted_NoDup.
Qed.

Lemma fits_sub next vs ws : Forall (version_fits next) ws → (∀ v, v ∈ vs → v ∈ ws) → Forall (version_fits next) vs.
Proof. rewrite !Forall_forall. auto. Qed.

(** Versions of the history that form a run can be built into a table. *)
Lemma run_buildable next hist es :
  Forall (version_fits next) hist → total_weight hist + 56 < 2 ^ 32 → es ≠ [] → keys_sorted es → Forall wf_entry es →
  (∀ v, v ∈ version_of <$> es → v ∈ hist) → buildable (version_of <$> es).
Proof.
  intros Hh Hw Hne Hs Hwf Hsub. rewrite Forall_forall in Hh. split.
  - by destruct es.
  - apply Forall_forall. intros v Hv. apply (Hh v). by apply Hsub.
  - apply Forall_forall. intros v Hv. apply (Hh v). by apply Hsub.
  - by rewrite wf_entries_versions.
  - pose proof (total_weight_sub _ hist (run_NoDup es Hs Hwf) Hsub). lia.
Qed.

(** ** The flush *)

Lemma add_foreach_all b es : add_foreach b (foreach_args <$> es) = sst.add_all b (version_of <$> es).
Proof.
  revert b. induction es as [|p es IH]; intros b; [done|]. rewrite !fmap_cons. cbn [add_foreach sst.add_all].
  unfold foreach_args at 1. cbv zeta. destruct (sst.Add _ _ _ _ _) as [s b']. destruct (ok s); [apply IH|done].
Qed.

Lemma set_fs_data f d : same_data d (set_fs f d).
Proof. by split. Qed.

#[export] Hint Resolve set_fs_data same_data_refl same_data_trans : bedrock.

Section flush.
Context (d : DB) (hist : list version) (Hd : db_inv d hist).

Lemma flush_build_spec env imm n :
  mem_ok imm → (∀ v, v ∈ mem_versions imm → v ∈ hist) → total_weight (mem_versions imm) + 56 < 2 ^ 32 →
  ∃ s r d', flush_build env imm n d = Some (s, r, d') ∧ same_data d d' ∧ wal_ d' = wal_ d ∧ vsep_ d' = vsep_ d ∧
    dir_ d' = dir_ d ∧
    match r with
    | None => ok s = false ∧ (sst_env_fine env → mem_versions imm = [])
    | Some r => s = Ok ∧ table_of r n 0 (mem_versions imm) ∧
        fs d' !! SstPath (dir_ d) n = Some (sst.table_file sst.default_TableOptions (mem_versions imm))
    end.
Proof using Hd.
  intros (es & Hr & Hwf) Hsub Hw. unfold flush_build. rewrite (ForEach_spec imm es Hr). cbn [mbind option_bind].
  rewrite (mem_versions_repr imm es Hr) in *. rewrite add_foreach_all.
  destruct (decide (es = [])) as [->|Hne].
  - cbn [fmap list_fmap sst.add_all]. change (ok Ok) with true. cbv iota.
    destruct (finish_table_empty env n 0 (lit "flush") d) as (s & f & -> & Hs). cbn [mbind option_bind].
    eexists _, None, _. split_and!; [done|bauto|done..].
  - pose proof (run_buildable _ _ es (fits_sub _ _ _ (di_hist _ _ Hd) Hsub) Hw Hne (mem_repr_sorted _ _ Hr) Hwf ltac:(done)) as Hb.
    destruct (sst.table_file_blocks sst.default_TableOptions (version_of <$> es) (bd_wf _ Hb) (bd_sorted _ Hb))
      as (b & bs & Hadd & _). rewrite Hadd. change (ok Ok) with true. cbv iota.
    destruct (finish_table_spec env b n 0 (lit "flush") d _ Hb Hadd) as (s & r & f & -> & Hfin). cbn [mbind option_bind].
    destruct r as [r|].
    + eexists Ok, (Some r), _. split_and!; [done|by split|done..| |]; apply Hfin.
    + destruct Hfin as [Hs Hnf]. eexists _, None, _. split_and!; [done|by split|done..].
Qed.

(** *** Installing *)

Lemma WriteManifest_keeps env x : ∃ s f, WriteManifest env x = (s, set_fs f x).
Proof using.
  unfold WriteManifest. destruct (me_open env); [by eexists _, (fs x); destruct x|].
  destruct (log.add_records _ _) as [result writer]. cbv zeta. repeat case_match; by eexists _, _.
Qed.

(** The memtable's versions are also a file of level 0. *)
Lemma install_inv imm r n :
  imm_ d = Some imm → table_of r n 0 (mem_versions imm) → n < next_file_number_ d →
  db_inv (set_current (mkVersionSet (r :: l0 (current_ d)) (levels (current_ d))) d) hist.
Proof using Hd.
  intros Hi Hr Hn. set (d' := set_current _ d).
  pose proof (to_versions _ _ _ _ Hr) as Hv.
  assert (layers d' = mem_versions (mem_ d) :: mem_versions imm :: mem_versions imm :: version_layers (current_ d)) as El'.
  { unfold layers, view_layers, d'. cbn [mem_ imm_ current_ set_current]. rewrite Hi. cbn [imm_versions].
    unfold version_layers. cbn [l0 levels]. rewrite fmap_cons, Hv. done. }
  assert (layers d = mem_versions (mem_ d) :: mem_versions imm :: version_layers (current_ d)) as El.
  { unfold layers, view_layers. by rewrite Hi. }
  assert (∀ v, v ∈ concat (layers d') ↔ v ∈ concat (layers d)) as Hel.
  { intros v. rewrite El, El'. cbn [concat]. rewrite !elem_of_app. tauto. }
  destruct Hd as [Hmem Himm [Hv0 Hvl] Hlev Hst Hsub Hco Hhist Hnext Hsn Hrd [N1 N2 N3] Hwl Hvs].
  split; try done.
  - split; [|done]. constructor; [apply Hr|done].
  - rewrite El in Hst. rewrite El'. destruct Hst as (H1 & H2 & H3). cbn [stacked]. split_and!; [| |done|done].
    + eapply newer_sub; [exact H1|done|]. intros v. cbn [concat]. rewrite !elem_of_app. tauto.
    + intros u w Hu. cbn [concat]. rewrite elem_of_app. intros [|Hin]; [by right|by apply H2].
  - intros v Hin%Hel. by apply Hsub.
  - eapply same_reads_trans; [|exact Hrd]. apply same_reads_ext; [|done].
    eapply coherent_sub; [exact Hco|done].
  - split; [done| |done]. constructor; [by rewrite (to_number _ _ _ _ Hr)|done].
Qed.

Lemma flush_install_spec env removed imm r n log :
  imm_ d = Some imm → table_of r n 0 (mem_versions imm) → n < next_file_number_ d →
  ∃ s d', flush_install env removed r log d = (s, d') ∧ db_inv d' hist ∧ imm_ d' = Some imm ∧
    l0 (current_ d') = r :: l0 (current_ d) ∧ next_seq_ d' = next_seq_ d ∧ snapshots_ d' = snapshots_ d ∧
    vsep_ d' = vsep_ d ∧ mem_ d' = mem_ d ∧ imm_sst_number_ d' = imm_sst_number_ d ∧ next_file_number_ d' = next_file_number_ d.
Proof using Hd.
  intros Hi Hr Hn. unfold flush_install. pose proof (install_inv imm r n Hi Hr Hn) as Hinv.
  set (d1 := set_current _ d) in *. destruct (WriteManifest_keeps env d1) as (s & f & ->).
  assert (∀ f', db_inv (set_fs f' d1) hist) as Hfs by (intros f'; eapply same_data_inv; [apply set_fs_data|done]).
  destruct (ok s); cbn [negb].
  - eexists Ok, _. split; [done|]. split_and!; [by eapply same_data_inv; [apply set_fs_data|apply Hfs]|done..].
  - eexists s, _. split; [done|]. split_and!; [by apply Hfs|done..].
Qed.

(** *** Releasing the memtable *)

Lemma release_imm_inv imm r :
  imm_ d = Some imm → r ∈ l0 (current_ d) → ref_versions r = mem_versions imm → db_inv (set_imm None d) hist.
Proof using Hd.
  intros Hi Hin Hr. set (d' := set_imm None d).
  assert (layers d' = mem_versions (mem_ d) :: [] :: version_layers (current_ d)) as El' by done.
  assert (layers d = mem_versions (mem_ d) :: mem_versions imm :: version_layers (current_ d)) as El.
  { unfold layers, view_layers. by rewrite Hi. }
  assert (∀ v, v ∈ mem_versions imm → v ∈ concat (version_layers (current_ d))) as Hsub'.
  { intros v Hv. apply elem_of_concat. exists (ref_versions r). split; [|by rewrite Hr].
    unfold version_layers. apply elem_of_app. left. by apply list_elem_of_fmap_2. }
  assert (∀ v, v ∈ concat (layers d') ↔ v ∈ concat (layers d)) as Hel.
  { intros v. rewrite El, El'. cbn [concat]. rewrite !elem_of_app. pose proof (Hsub' v).
    pose proof (not_elem_of_nil v). tauto. }
  destruct Hd as [Hmem Himm Hver Hlev Hst Hsub Hco Hhist Hnext Hsn Hrd [N1 N2 N3] Hwl Hvs].
  split; try done.
  - rewrite El in Hst. rewrite El'. destruct Hst as (H1 & H2 & H3). cbn [stacked]. split_and!; [| |done].
    + eapply newer_sub; [exact H1|done|]. intros v. cbn [concat]. rewrite !elem_of_app.
      pose proof (not_elem_of_nil v). tauto.
    + intros u w Hu. by apply not_elem_of_nil in Hu.
  - intros v Hv%Hel. by apply Hsub.
  - eapply same_reads_trans; [|exact Hrd]. apply same_reads_ext; [|done].
    eapply coherent_sub; [exact Hco|done].
  - split; [done|done|]. intros [? ?]. done.
Qed.

End flush.
