(* ===== verification/DbPick.v ===== *)
(** * Choosing the inputs of a compaction

    [PickCompaction] terminates and its choice is closed: a file of the target
    level that is not an input does not meet the key range of the inputs. *)

From S2P Require Import Prelude Status FsUtil Encoding VLog LruCache InternalKey Mvcc Layers Iterator Block.
From S2P Require Import SSTable SkipList MemTable Merge Db DbRead DbInv.
Import db.

(** ** Ranges *)

Lemma bytes_min_le a b : bytes_ltb a (bytes_min a b) = false ∧ bytes_ltb b (bytes_min a b) = false.
Proof.
  unfold bytes_min. destruct (bytes_ltb b a) eqn:E.
  - split; [by apply (sw_asym bytes_ltb)|apply sw_irrefl].
  - split; [apply sw_irrefl|done].
Qed.

Lemma bytes_max_ge a b : bytes_ltb (bytes_max a b) a = false ∧ bytes_ltb (bytes_max a b) b = false.
Proof.
  unfold bytes_max. destruct (bytes_ltb a b) eqn:E.
  - split; [by apply (sw_asym bytes_ltb)|apply sw_irrefl].
  - split; [apply sw_irrefl|done].
Qed.

(** [lo, hi] contains the range of the file. *)
Definition covers (lo hi : bytes) (r : TableRef) : Prop :=
  bytes_ltb (smallest r) lo = false ∧ bytes_ltb hi (largest r) = false.

(** The file is entirely left or right of [lo, hi]. *)
Definition apart (lo hi : bytes) (r : TableRef) : Prop :=
  bytes_ltb (largest r) lo = true ∨ bytes_ltb hi (smallest r) = true.

Lemma widen_covers r lo hi lo' hi' :
  widen r lo hi = (lo', hi') → covers lo' hi' r ∧ ∀ r', covers lo hi r' → covers lo' hi' r'.
Proof.
  unfold widen. intros [= <- <-]. destruct (bytes_min_le lo (smallest r)) as [H1 H2].
  destruct (bytes_max_ge hi (largest r)) as [H3 H4]. split; [by split|]. intros r' [H5 H6]. split.
  - apply (sw_le_trans bytes_ltb _ lo _); [exact H1|done].
  - apply (sw_le_trans bytes_ltb _ hi _); [done|exact H3].
Qed.

Lemma key_range_covers rs lo hi : key_range rs = (lo, hi) → Forall (covers lo hi) rs.
Proof.
  destruct rs as [|r rs]; [constructor|]. cbn [key_range].
  set (p := (_, _)). assert (covers p.1 p.2 r) as H0 by (split; apply sw_irrefl). clearbody p.
  intros E. assert (∀ rs p, foldl (λ '(lo, hi) r, widen r lo hi) p rs = (lo, hi) →
    Forall (covers lo hi) rs ∧ ∀ r', covers p.1 p.2 r' → covers lo hi r') as Hall.
  { clear. induction rs as [|r rs IH]; intros [lo0 hi0]; cbn [foldl].
    - intros [= -> ->]. split; [constructor|done].
    - destruct (widen r lo0 hi0) as [lo1 hi1] eqn:Ew. intros E. destruct (IH (lo1, hi1) E) as [H1 H2].
      destruct (widen_covers _ _ _ _ _ Ew) as [H3 H4]. split; [constructor; [by apply H2|done]|]. auto. }
  destruct (Hall rs p E) as [H1 H2]. constructor; auto.
Qed.

(** ** The fixpoint *)

Section pick.
Context (target : list TableRef) (Hnd : NoDup (ref_number <$> target)).

(** The state of the loop: what is picked is in the target, and the range
    covers it. *)
Record pick_inv (p : picking) : Prop := {
  pi_picked : ∀ n, n ∈ picked p ↔ n ∈ ref_number <$> inputs_b_ p;
  pi_sub : ∀ r, r ∈ inputs_b_ p → r ∈ target;
  pi_covers : Forall (covers (lo_ p) (hi_ p)) (inputs_b_ p);
  pi_nodup : NoDup (ref_number <$> inputs_b_ p)
}.

Definition wider (p p' : picking) : Prop := ∀ r, covers (lo_ p) (hi_ p) r → covers (lo_ p') (hi_ p') r.

Lemma pick_step_inv p r : pick_inv p → r ∈ target → pick_inv (pick_step p r) ∧ wider p (pick_step p r).
Proof using.
  intros Hp Hr. unfold pick_step. case_bool_decide as Hn; [split; [done|by intros r']|].
  destruct (_ && _); [|split; [done|by intros r']]. destruct (widen r (lo_ p) (hi_ p)) as [lo hi] eqn:Ew.
  destruct (widen_covers _ _ _ _ _ Ew) as [H1 H2]. destruct Hp as [P1 P2 P3 P4]. split; [|done].
  split; cbn [picked inputs_b_ lo_ hi_].
  - intros n. rewrite fmap_app, elem_of_app, elem_of_cons, P1. cbn [fmap list_fmap]. rewrite list_elem_of_singleton. unfold ref_number. tauto.
  - intros r' [Hr'|Hr'%list_elem_of_singleton]%elem_of_app; [auto|by subst r'].
  - apply Forall_app. split; [|by apply Forall_singleton]. eapply Forall_impl; [exact P3|]. done.
  - rewrite fmap_app. apply NoDup_app. split_and!; [done| |apply NoDup_singleton].
    intros n Hin Hn'%list_elem_of_singleton. subst n. apply Hn. by apply P1.
Qed.

(** One pass: the invariant, and what a pass that changes nothing means. *)
Lemma pick_pass_inv l p :
  (∀ r, r ∈ l → r ∈ target) → pick_inv p →
  let p' := foldl pick_step p l in
  pick_inv p' ∧ wider p p' ∧ (length (inputs_b_ p) ≤ length (inputs_b_ p'))%nat ∧
  (changed p = false → changed p' = true → (length (inputs_b_ p) < length (inputs_b_ p'))%nat) ∧
  (changed p' = false → p' = p ∧
   ∀ r, r ∈ l → ref_number r ∈ picked p ∨ apart (lo_ p) (hi_ p) r).
Proof using.
  revert p. induction l as [|r l IH]; intros p Hl Hp; cbn [foldl].
  { split_and!; [done|by intros r|done|congruence|]. intros _. split; [done|]. intros r Hr. by apply not_elem_of_nil in Hr. }
  destruct (pick_step_inv p r Hp (Hl r (list_elem_of_here _ _))) as [Hp1 Hw1].
  destruct (IH (pick_step p r)) as (I1 & I2 & I3 & I4 & I5); [|done|].
  { intros r' Hr'. apply Hl. by apply list_elem_of_further. }
  assert (pick_step p r = p ∧ (ref_number r ∈ picked p ∨ apart (lo_ p) (hi_ p) r) ∨
    changed (pick_step p r) = true ∧ length (inputs_b_ (pick_step p r)) = S (length (inputs_b_ p))) as Hstep.
  { unfold pick_step. case_bool_decide as Hn; [left; split; [done|by left]|].
    destruct (_ && _) eqn:Eo.
    - right. destruct (widen _ _ _). split; [done|]. cbn [inputs_b_]. rewrite length_app. cbn [length]. lia.
    - left. split; [done|right]. apply andb_false_iff in Eo as [Eo|Eo]; unfold bytes_leb in Eo;
        apply negb_false_iff in Eo; [by left|by right]. }
  split_and!; [done|intros r' Hr'; auto| | |].
  - destruct Hstep as [[E _]|[_ Hlen]]; [by rewrite E in *|lia].
  - intros Hc Hc'. destruct Hstep as [[E _]|[_ Hlen]]; [rewrite E in *; by apply I4|]. lia.
  - intros Hc. destruct (I5 Hc) as [E Hall]. destruct Hstep as [[E' Hr]|[Hch _]].
    + rewrite E, E' in *. split; [done|]. intros r' [->|Hr']%elem_of_cons; [done|]. by apply Hall.
    + rewrite E in Hc. congruence.
Qed.

Lemma inputs_b_length p : pick_inv p → (length (inputs_b_ p) ≤ length target)%nat.
Proof using.
  intros [_ H2 _ H4]. rewrite <- (length_fmap ref_number (inputs_b_ p)), <- (length_fmap ref_number target).
  apply submseteq_length, NoDup_submseteq; [done|]. intros n (r & -> & Hr)%list_elem_of_fmap.
  by apply list_elem_of_fmap_2, H2.
Qed.

Lemma picked_input p r : pick_inv p → r ∈ target → ref_number r ∈ picked p → r ∈ inputs_b_ p.
Proof using Hnd.
  intros [H1 H2 _ _] Hr Hn. apply H1, list_elem_of_fmap in Hn as (r' & E & Hr').
  assert (r = r') as ->; [|done]. specialize (H2 r' Hr').
  apply list_elem_of_lookup in Hr as [i Hi]. apply list_elem_of_lookup in H2 as [j Hj].
  assert (i = j) as ->; [|congruence].
  apply (NoDup_lookup _ i j (ref_number r) Hnd); rewrite list_lookup_fmap; [by rewrite Hi|]. by rewrite Hj, E.
Qed.

Lemma pick_loop_spec fuel p :
  pick_inv p → (length target - length (inputs_b_ p) < fuel)%nat →
  ∃ p', pick_loop fuel target p = Some p' ∧ pick_inv p' ∧ wider p p' ∧
    ∀ r, r ∈ target → r ∈ inputs_b_ p' ∨ apart (lo_ p') (hi_ p') r.
Proof using Hnd.
  revert p. induction fuel as [|fuel IH]; intros p Hp Hf; [lia|]. cbn [pick_loop].
  set (p0 := mkPicking (picked p) (inputs_b_ p) (lo_ p) (hi_ p) false).
  assert (pick_inv p0) as Hp0 by (destruct Hp; by split).
  destruct (pick_pass_inv target p0) as (I1 & I2 & I3 & I4 & I5); [done|done|].
  set (p1 := foldl pick_step p0 target) in *. destruct (changed p1) eqn:Ec.
  - specialize (I4 eq_refl eq_refl). change (length (inputs_b_ p0)) with (length (inputs_b_ p)) in I4.
    pose proof (inputs_b_length p1 I1). destruct (IH p1 I1) as (p' & E & H1 & H2 & H3); [lia|].
    exists p'. split_and!; [done|done|intros r Hr; apply H2, I2, Hr|done].
  - exists p1. destruct (I5 eq_refl) as [E Hall]. split_and!; [done|done|intros r Hr; apply I2, Hr|].
    intros r Hr. destruct (Hall r Hr) as [Hn|Ha]; [left|right; by rewrite E].
    apply picked_input; [done|done|]. by rewrite E.
Qed.

End pick.

(** ** The choice *)

(** What [RunCompaction] may rely on.  [lo, hi] is the key range of the
    inputs. *)
Record picked_ok (v : Version) (c : Compaction) : Prop := {
  pk_out : (output_level c < length (levels v))%nat;
  pk_source : match source_level c with
              | None => inputs_a c = l0 v ∧ output_level c = 0%nat
              | Some i => output_level c = S i ∧ ∃ r rest, level_at v i = r :: rest ∧ inputs_a c = [r]
              end;
  pk_sub : ∀ r, r ∈ inputs_b c → r ∈ level_at v (output_level c);
  pk_range : ∃ lo hi, Forall (covers lo hi) (inputs_a c ++ inputs_b c) ∧
    ∀ r, r ∈ level_at v (output_level c) → r ∈ inputs_b c ∨ apart lo hi r
}.

Lemma oversized_spec o v i :
  oversized o v = Some i → (i + 1 < length (levels v))%nat ∧ level_limit o i < LevelSize v i.
Proof.
  unfold oversized. intros H. apply List.find_some in H as [Hin Hlt]. apply Z.ltb_lt in Hlt.
  apply List.in_seq in Hin. split; [lia|done].
Qed.

Lemma level_limit_nonneg o i : 0 ≤ level_base_size o → 0 ≤ level_limit o i.
Proof.
  intros Ho. unfold level_limit. destruct i as [|i]; [done|]. cbn [Nat.iter]. unfold u64. apply Z.mod_pos_bound. lia.
Qed.

Lemma PickCompaction_spec d hist :
  db_inv d hist → 0 ≤ level_base_size (options_ d) → CompactionNeeded d = true →
  ∃ c, PickCompaction d = Some c ∧ picked_ok (current_ d) c.
Proof.
  intros Hd Hbase Hneed. set (v := current_ d). pose proof (di_levels _ _ Hd : length (levels v) = 6%nat) as Hlen.
  assert (∃ a src out, pick_source d = Some (a, src, out) ∧ (out < length (levels v))%nat ∧
    match src with
    | None => a = l0 v ∧ out = 0%nat
    | Some i => out = S i ∧ ∃ r rest, level_at v i = r :: rest ∧ a = [r]
    end) as (a & src & out & Es & Hout & Hsrc).
  { unfold pick_source. fold v. unfold CompactionNeeded in Hneed. apply andb_true_iff in Hneed as [_ Hneed].
    destruct (l0_due d); [exists (l0 v), None, 0%nat; split_and!; [done|lia|done|done]|]. cbn [orb] in Hneed. fold v in Hneed.
    destruct (oversized (options_ d) v) as [i|] eqn:Eo; [|done]. destruct (oversized_spec _ _ _ Eo) as [Hi Hlt].
    pose proof (level_limit_nonneg (options_ d) i Hbase). unfold LevelSize in Hlt. fold (level_at v i) in *.
    destruct (level_at v i) as [|r rest] eqn:El; [cbn in Hlt; lia|].
    exists [r], (Some i), (S i). cbn [head mbind option_bind]. split_and!; [done|lia|done|]. by exists r, rest. }
  destruct (lookup_lt_is_Some_2 (levels v) out Hout) as [target Ht].
  assert (NoDup (ref_number <$> target)) as Hnd.
  { pose proof (no_levels _ (di_numbers _ _ Hd)) as H. rewrite Forall_lookup in H. by apply (H out). }
  unfold PickCompaction. fold v. rewrite Es. cbn [mbind option_bind]. rewrite Ht. cbn [mbind option_bind].
  destruct (key_range a) as [lo hi] eqn:Er. pose proof (key_range_covers a lo hi Er) as Hca.
  destruct (pick_loop_spec target Hnd (S (length target)) (mkPicking [] [] lo hi true)) as (p & -> & Hp & Hw & Hall).
  { split; cbn; [done| |constructor|constructor]. intros r Hr. by apply not_elem_of_nil in Hr. }
  { cbn. lia. }
  cbn [mbind option_bind]. eexists. split; [done|].
  assert (level_at v out = target) as El by (unfold level_at; by rewrite Ht).
  split; cbn [output_level source_level inputs_a inputs_b]; rewrite ?El; [done|done|apply Hp|].
  exists (lo_ p), (hi_ p). split; [|done]. apply Forall_app. split; [|apply Hp].
  eapply Forall_impl; [exact Hca|]. exact Hw.
Qed.
