(* ===== verification/DbMerge.v ===== *)
(** * The merge of a compaction

    [compact_merge] reads the input tables in internal-key order and writes
    what must be kept.  [kept] is the list of versions it keeps, and
    [kept_retains] shows that it is enough; [compact_merge_spec] shows that the
    outputs hold exactly these versions, in files whose key ranges do not meet,
    or that the step reports an error. *)

From Stdlib Require Import Sorting.Sorted.
From S2P Require Import Prelude Status FsUtil Encoding VLog LruCache InternalKey Mvcc Layers Iterator Block.
From S2P Require Import SSTable TableSize Manifest SkipList MemTable Merge Db DbRead DbInv DbFlush DbPick.
Import db.

(** ** What is kept *)

(** The decisions of the loop, with the user key and the flag it carries. *)
Fixpoint kept (F : Z) (bottom : bool) (user : option bytes) (seen : bool) (vs : list version) : list version :=
  match vs with
  | [] => []
  | v :: vs =>
      let '(keep, seen) := retain F bottom (bool_decide (user = Some (v_key v)) && seen) (v_seq v) (v_type v) in
      (if keep : bool then [v] else []) ++ kept F bottom (Some (v_key v)) seen vs
  end.

(** The order of a merge: by user key, then newest first. *)
Definition version_le (v w : version) : Prop :=
  bytes_ltb (v_key v) (v_key w) = true ∨ v_key v = v_key w ∧ v_seq w ≤ v_seq v.

Lemma weakly_sorted_versions es :
  weakly_sorted es → Forall wf_entry es → StronglySorted version_le (version_of <$> es).
Proof.
  induction es as [|p es IH]; [constructor|]. intros [Hp Hs] Hwf. inversion Hwf as [|? ? Hw Hwf']; subst.
  rewrite fmap_cons. constructor; [by apply IH|]. apply Forall_fmap, Forall_forall. intros q Hq.
  rewrite Forall_forall in Hp, Hwf'. by apply entry_not_less_versions; auto.
Qed.

Lemma version_le_keys v w : version_le v w → bytes_ltb (v_key w) (v_key v) = false.
Proof. intros [H|[-> _]]; [by apply (sw_asym bytes_ltb)|apply sw_irrefl]. Qed.

Section kept.
Context (F : Z) (bottom : bool).

Lemma kept_sub user seen vs v : v ∈ kept F bottom user seen vs → v ∈ vs.
Proof.
  revert user seen. induction vs as [|u vs IH]; intros user seen; [done|]. cbn [kept].
  destruct (retain _ _ _ _ _) as [[] seen']; rewrite elem_of_app.
  - rewrite list_elem_of_singleton, elem_of_cons. intros [?|?%IH]; auto.
  - intros [[]%not_elem_of_nil|?%IH]. by apply list_elem_of_further.
Qed.

Lemma kept_above user seen vs v : v ∈ vs → F < v_seq v → v ∈ kept F bottom user seen vs.
Proof.
  intros Hv HF. revert user seen. induction vs as [|u vs IH]; intros user seen; [by apply not_elem_of_nil in Hv|].
  cbn [kept]. destruct (retain _ _ _ _ _) as [keep seen'] eqn:E. apply elem_of_app.
  apply elem_of_cons in Hv as [->|Hv]; [left|right; by apply IH].
  unfold retain in E. rewrite (proj2 (Z.ltb_lt _ _) HF) in E. injection E as <- _. by apply list_elem_of_singleton.
Qed.

Lemma kept_floor user seen vs v :
  coherent vs → StronglySorted version_le vs → v ∈ vs → v_seq v ≤ F →
  (∀ w, w ∈ vs → v_key w = v_key v → v_seq w ≤ F → v_seq w ≤ v_seq v) →
  bool_decide (user = Some (v_key v)) && seen = false →
  v ∈ kept F bottom user seen vs ∨ (bottom = true ∧ v_type v ≠ kTypeValue).
Proof.
  intros Hco Hs Hv HF Hmax. revert user seen. induction Hs as [|u vs Hs IH Hu]; intros user seen Hseen.
  { by apply not_elem_of_nil in Hv. }
  cbn [kept]. destruct (decide (u = v)) as [->|Hne].
  - rewrite Hseen. unfold retain. rewrite (proj2 (Z.ltb_ge _ _) HF). cbn [negb].
    destruct (v_type v =? kTypeDeletion) eqn:Et; cbn [andb negb]; [|left; apply list_elem_of_here].
    destruct bottom; cbn [negb]; [right|left; apply list_elem_of_here].
    apply Z.eqb_eq in Et. rewrite Et. by split.
  - apply elem_of_cons in Hv as [->|Hv]; [done|].
    destruct (retain _ _ _ _ _) as [keep seen'] eqn:E.
    destruct (IH ltac:(eapply coherent_sub; [exact Hco|]; intros; by apply list_elem_of_further) Hv
                ltac:(intros w Hw; apply Hmax; by apply list_elem_of_further) (Some (v_key u)) seen') as [H|H];
      [|left; apply elem_of_app; by right|by right].
    destruct (decide (v_key u = v_key v)) as [Hk|Hk]; [|by rewrite bool_decide_eq_false_2 by congruence].
    rewrite Hk, bool_decide_eq_true_2 by done. cbn [andb].
    rewrite Forall_forall in Hu. destruct (Hu v Hv) as [Hlt|[_ Hle]].
    { by rewrite Hk, (sw_irrefl (lt := bytes_ltb)) in Hlt. }
    destruct (Z.lt_ge_cases F (v_seq u)) as [HuF|HuF].
    + unfold retain in E. rewrite (proj2 (Z.ltb_lt _ _) HuF), Hk in E. injection E as _ <-. exact Hseen.
    + exfalso. apply Hne. apply Hco; [apply list_elem_of_here|by apply list_elem_of_further|done|].
      specialize (Hmax u (list_elem_of_here _ _) Hk HuF). lia.
Qed.

Lemma kept_seen k vs v :
  StronglySorted version_le vs → (∀ w, w ∈ vs → bytes_ltb (v_key w) k = false) →
  v ∈ kept F bottom (Some k) true vs → v_key v = k → F < v_seq v.
Proof.
  induction 1 as [|u vs Hs IH Hu]; intros Hge Hv Hk; [by apply not_elem_of_nil in Hv|]. cbn [kept] in Hv.
  case_bool_decide as Hku.
  - injection Hku as ->. cbn [andb] in Hv. unfold retain in Hv. cbn [negb] in Hv.
    destruct (F <? v_seq u) eqn:E; cbn [app] in Hv.
    + apply elem_of_cons in Hv as [->|Hv]; [by apply Z.ltb_lt|].
      apply IH; [|done|done]. intros w Hw. apply Hge. by apply list_elem_of_further.
    + apply IH; [|done|done]. intros w Hw. apply Hge. by apply list_elem_of_further.
  - exfalso. assert (v ∈ u :: vs) as Hin.
    { destruct (retain _ _ _ _ _) as [[] seen']; cbn [app] in Hv; [apply elem_of_cons in Hv as [->|Hv]|];
        [apply list_elem_of_here|apply list_elem_of_further, (kept_sub _ _ _ _ Hv)..]. }
    apply Hku. f_equal. apply bytes_ltb_total; [|apply Hge, list_elem_of_here].
    apply elem_of_cons in Hin as [->|Hin]; [by rewrite Hk, (sw_irrefl (lt := bytes_ltb))|].
    rewrite Forall_forall in Hu. rewrite <- Hk. apply version_le_keys. by apply Hu.
Qed.

Lemma kept_only user seen vs v :
  StronglySorted version_le vs → v ∈ kept F bottom user seen vs → v_seq v ≤ F →
  ∀ w, w ∈ vs → v_key w = v_key v → v_seq w ≤ F → v_seq w ≤ v_seq v.
Proof.
  intros Hs. revert user seen. induction Hs as [|u vs Hs IH Hu]; intros user seen Hv HF w Hw Hk HwF.
  { by apply not_elem_of_nil in Hw. }
  cbn [kept] in Hv. destruct (retain _ _ _ _ _) as [keep seen'] eqn:E. rewrite Forall_forall in Hu.
  apply elem_of_app in Hv as [Hv|Hv].
  - assert (v = u) as ->.
    { destruct keep; [by apply list_elem_of_singleton|by apply not_elem_of_nil in Hv]. }
    apply elem_of_cons in Hw as [->|Hw]; [done|]. destruct (Hu w Hw) as [Hlt|[_ Hle]]; [|done].
    by rewrite Hk, (sw_irrefl (lt := bytes_ltb)) in Hlt.
  - apply elem_of_cons in Hw as [->|Hw]; [|by eapply IH].
    unfold retain in E. rewrite (proj2 (Z.ltb_ge _ _) HwF) in E.
    assert (seen' = true) as ->.
    { destruct (_ && _) in E; cbn [negb] in E; by injection E as _ <-. }
    pose proof (kept_seen (v_key u) vs v Hs) as Hx. rewrite Hk in Hx.
    enough (F < v_seq v) by lia. apply Hx; [|by rewrite <- Hk|done].
    intros x Hin. rewrite <- Hk. apply version_le_keys. by apply Hu.
Qed.

Lemma kept_retains vs :
  coherent vs → StronglySorted version_le vs → retains F bottom vs (kept F bottom None false vs).
Proof.
  intros Hco Hs. split.
  - intros v. apply kept_sub.
  - intros v. apply kept_above.
  - intros v Hv HF Hmax. by apply kept_floor.
  - intros v Hv HF. by eapply kept_only.
Qed.

End kept.

(** ** The loop *)

(** Only files, file numbers and counters differ. *)
Record files_only (d d' : DB) : Prop := {
  fo_data : same_data d d';
  fo_wal : wal_ d' = wal_ d;
  fo_vsep : vsep_ d' = vsep_ d;
  fo_dir : dir_ d' = dir_ d
}.

Lemma files_only_refl d : files_only d d.
Proof. by split. Qed.

Lemma files_only_trans a b c : files_only a b → files_only b c → files_only a c.
Proof. intros [] []. split; [by etrans|congruence..]. Qed.

#[export] Hint Resolve files_only_refl : bedrock.

(** Every key of [g] is smaller than every key of [h]. *)
Definition keys_before (g h : list version) : Prop :=
  ∀ v w, v ∈ g → w ∈ h → bytes_ltb (v_key v) (v_key w) = true.

Lemma add_all_snoc b vs v s b1 b2 :
  sst.add_all b vs = (Ok, b1) → sst.Add b1 (v_key v) (v_seq v) (v_type v) (v_value v) = (s, b2) → ok s = true →
  sst.add_all b (vs ++ [v]) = (Ok, b2).
Proof.
  intros H1 H2 Hs. revert b H1. induction vs as [|w vs IH]; intros b; cbn [sst.add_all app].
  - intros [= ->]. by rewrite H2, Hs.
  - destruct (sst.Add b _ _ _ _) as [s' b']. destruct (ok s') eqn:E; [apply IH|]. intros [= -> _]. done.
Qed.

Lemma strongly_snoc {A} (R : A → A → Prop) l x :
  StronglySorted R (l ++ [x]) ↔ StronglySorted R l ∧ Forall (λ y, R y x) l.
Proof.
  induction l as [|y l IH]; cbn [app].
  - split; [intros _; split; constructor|]. intros _. repeat constructor.
  - split.
    + intros H. inversion H as [|? ? Hs Hf]; subst. apply Forall_app in Hf as [Hf1 Hf2]. apply IH in Hs as [Hs1 Hs2].
      inversion Hf2; subst. split; by constructor.
    + intros [H1 H2]. inversion H1 as [|? ? Hs Hf]; subst. inversion H2; subst. constructor; [by apply IH|].
      apply Forall_app. split; [done|]. by constructor.
Qed.

Section loop.
Context (base : DB) (all : list version) (next : Z) (Hfit : Forall (version_fits next) all) (Hw : total_weight all + 56 < 2 ^ 32).
Context (F : Z) (out : nat) (max_size : Z).

Let bottom : bool := Z.of_nat out + 1 =? kMaxLevels - 1.

(** The state after the versions [done], when no step has failed: the sealed
    groups are the outputs, [cur] is in the builder. *)
Record merged (m : merging) (done : list version) (sealed : list (list version)) (cur : list version) : Prop := {
  mg_ok : ok (m_status m) = true;
  mg_files : files_only base (m_db m);
  mg_rest : ∀ rest, (∀ u w, m_user m = Some u → head rest = Some w → bytes_ltb (v_key w) u = false) →
    kept F bottom None false (done ++ rest)
    = (concat sealed ++ cur) ++ kept F bottom (m_user m) (m_floor_seen m) rest;
  mg_outputs : Forall2 (λ r vs, table_of r (ref_number r) (Z.of_nat out + 1) vs) (m_outputs m) sealed;
  mg_numbers : NoDup (ref_number <$> m_outputs m);
  mg_fresh : Forall (λ r, next_file_number_ base ≤ ref_number r < next_file_number_ (m_db m)) (m_outputs m);
  mg_builder : sst.add_all (sst.new_Builder sst.default_TableOptions) cur = (Ok, m_builder m);
  mg_used : m_used m = bool_decide (cur ≠ []);
  mg_groups : StronglySorted keys_before (sealed ++ [cur]);
  mg_sealed : ∀ v, v ∈ concat sealed → ∃ u, m_user m = Some u ∧ bytes_ltb (v_key v) u = true;
  mg_cur : ∀ v, v ∈ cur → ∃ u, m_user m = Some u ∧ bytes_ltb u (v_key v) = false;
  mg_hist : ∀ v, v ∈ cur → v ∈ all
}.

Lemma cur_buildable m done sealed cur : merged m done sealed cur → cur ≠ [] → buildable cur.
Proof using Hfit Hw.
  intros Hm Hne. pose proof Hfit as Hh. rewrite Forall_forall in Hh.
  assert (Forall wf_version cur) as Hwf.
  { apply Forall_forall. intros v Hv. apply (Hh v). by apply (mg_hist _ _ _ _ Hm). }
  assert (keys_sorted (entry_of <$> cur)) as Hs.
  { apply (sst.add_all_unsorted sst.default_TableOptions (sst.new_Builder sst.default_TableOptions) [] []);
      [apply sst.building_new|done|done|]. by rewrite (mg_builder _ _ _ _ Hm). }
  pose proof (sst.versions_entries cur Hwf) as Hve. rewrite <- Hve.
  apply (run_buildable _ _ _ Hfit Hw); [by destruct cur|done| |].
  - apply Forall_fmap. eapply Forall_impl; [exact Hwf|]. intros v Hv. by exists v.
  - rewrite Hve. apply (mg_hist _ _ _ _ Hm).
Qed.

(** What holds after a step: an error, with the data untouched, or [merged]. *)
Definition merge_result (m : merging) (done : list version) : Prop :=
  files_only base (m_db m) ∧ (ok (m_status m) = true → ∃ sealed cur, merged m done sealed cur).

(** Sealing the builder's group. *)
Lemma seal_spec m done sealed cur :
  merged m done sealed cur → cur ≠ [] →
  ∃ m', seal out m = Some m' ∧ files_only base (m_db m') ∧ m_user m' = m_user m ∧ m_floor_seen m' = m_floor_seen m ∧
    (ok (m_status m') = true →
     Forall2 (λ r vs, table_of r (ref_number r) (Z.of_nat out + 1) vs) (m_outputs m') (sealed ++ [cur]) ∧
     NoDup (ref_number <$> m_outputs m') ∧
     Forall (λ r, next_file_number_ base ≤ ref_number r < next_file_number_ (m_db m')) (m_outputs m') ∧
     m_builder m' = sst.new_Builder sst.default_TableOptions ∧ m_used m' = false).
Proof using Hfit Hw.
  intros Hm Hne. pose proof (cur_buildable _ _ _ _ Hm Hne) as Hb. unfold seal.
  rewrite (mg_used _ _ _ _ Hm), bool_decide_eq_true_2, (mg_ok _ _ _ _ Hm) by done. cbn [negb orb].
  set (number := next_file_number_ (m_db m)). set (d1 := set_next_file (number + 1) (m_db m)).
  pose proof (mg_files _ _ _ _ Hm) as Hf.
  assert (∀ f, files_only (m_db m) (set_fs f d1)) as Hf1.
  { intros f. split; [|done..]. split; try done. change (number ≤ number + 1). lia. }
  destruct (finish_table_spec (default default_sst_env (head (m_envs m))) (m_builder m) number (Z.of_nat out + 1)
              (lit "compaction") d1 cur Hb (mg_builder _ _ _ _ Hm)) as (s & r & f & -> & Hr).
  cbn [mbind option_bind]. destruct r as [r|].
  - destruct Hr as (-> & Hr & _). eexists. split; [done|]. cbn [m_db m_user m_floor_seen m_status m_outputs m_builder m_used].
    pose proof (to_number _ _ _ _ Hr) as Hn.
    split_and!; [|done|done|].
    { eapply files_only_trans; [exact Hf|]. eapply files_only_trans; [apply (Hf1 f)|]. by split. }
    intros _. pose proof (mg_fresh _ _ _ _ Hm) as Hfr. rewrite Forall_forall in Hfr. split_and!.
    + apply Forall2_app; [apply Hm|]. constructor; [|constructor]. by rewrite Hn.
    + rewrite fmap_app. apply NoDup_app. split_and!; [apply Hm| |apply NoDup_singleton].
      intros n (r' & -> & Hr')%list_elem_of_fmap Hn'%list_elem_of_singleton. specialize (Hfr r' Hr').
      rewrite Hn', Hn in Hfr. fold number in Hfr. lia.
    + change (next_file_number_ (add_sst_bytes (sst.file_size (meta r)) 0 (set_fs f d1))) with (number + 1).
      apply Forall_app. split; [apply Forall_forall; intros r' Hr'; specialize (Hfr r' Hr'); fold number in Hfr; lia|].
      apply Forall_singleton. rewrite Hn. pose proof (sd_files _ _ (fo_data _ _ Hf)). fold number in H. lia.
    + done.
    + done.
  - eexists. split; [done|]. cbn [m_db m_user m_floor_seen m_status]. destruct Hr as [Hr _]. split_and!; [|done|done|by rewrite Hr].
    eapply files_only_trans; [exact Hf|]. apply (Hf1 f).
Qed.

(** A new user key begins. *)
Definition with_user (u : bytes) (m : merging) : merging :=
  mkMerging (m_outputs m) (m_builder m) (m_used m) (Some u) false (m_status m) (m_envs m) (m_db m).

Lemma switch_rest m done sealed cur u' :
  merged m done sealed cur → (∀ u, m_user m = Some u → bytes_ltb u u' = true) →
  ∀ rest, (∀ u w, Some u' = Some u → head rest = Some w → bytes_ltb (v_key w) u = false) →
  kept F bottom None false (done ++ rest) = (concat sealed ++ cur) ++ kept F bottom (Some u') false rest.
Proof using.
  intros Hm Hu rest Hr. rewrite (mg_rest _ _ _ _ Hm).
  - f_equal. destruct rest as [|w rest]; [done|]. cbn [kept]. rewrite !andb_false_r.
    rewrite bool_decide_eq_false_2; [done|]. intros E. specialize (Hu _ E).
    by rewrite (Hr u' w eq_refl eq_refl) in Hu.
  - intros u w E Hw'. specialize (Hu u E). specialize (Hr u' w eq_refl Hw').
    apply (sw_asym bytes_ltb). by apply (sw_lt_le_trans bytes_ltb _ u').
Qed.

Lemma switch_plain m done sealed cur u' :
  merged m done sealed cur → (∀ u, m_user m = Some u → bytes_ltb u u' = true) →
  merged (with_user u' m) done sealed cur.
Proof using.
  intros Hm Hu. pose proof (switch_rest _ _ _ _ _ Hm Hu) as Hr. destruct Hm.
  split; try done; cbn [with_user m_user].
  - intros v Hv. destruct (mg_sealed0 v Hv) as (u & E & Hlt). exists u'. split; [done|].
    eapply sw_trans; [exact Hlt|]. by apply Hu.
  - intros v Hv. destruct (mg_cur0 v Hv) as (u & E & Hge). exists u'. split; [done|].
    apply (sw_asym bytes_ltb). apply (sw_le_lt_trans bytes_ltb _ u); [done|]. by apply Hu.
Qed.

Lemma switch_sealed m done sealed cur u' :
  merged m done sealed cur → cur ≠ [] → (∀ u, m_user m = Some u → bytes_ltb u u' = true) →
  ∃ m', seal out m = Some m' ∧ files_only base (m_db m') ∧
    (ok (m_status m') = true → merged (with_user u' m') done (sealed ++ [cur]) []).
Proof using Hfit Hw.
  intros Hm Hne Hu. pose proof (switch_rest _ _ _ _ _ Hm Hu) as Hr.
  destruct (seal_spec _ _ _ _ Hm Hne) as (m' & E & Hf & _ & _ & Hok). exists m'. split_and!; [done|done|].
  intros Hs. destruct (Hok Hs) as (H1 & H2 & H3 & H4 & H5). split; try done; cbn [with_user m_user].
  - intros rest Hrest. rewrite concat_app. cbn [concat]. rewrite !app_nil_r. by apply Hr.
  - cbn. by rewrite H4.
  - apply strongly_snoc. split; [apply Hm|]. apply Forall_forall. intros g _ v w _ Hn. by apply not_elem_of_nil in Hn.
  - intros v. rewrite concat_app. cbn [concat]. rewrite app_nil_r, elem_of_app. intros [Hv|Hv]; exists u'; (split; [done|]).
    + destruct (mg_sealed _ _ _ _ Hm v Hv) as (u & Eu & Hlt). eapply sw_trans; [exact Hlt|]. by apply Hu.
    + destruct (mg_cur _ _ _ _ Hm v Hv) as (u & Eu & Hge). apply (sw_le_lt_trans bytes_ltb _ u); [done|]. by apply Hu.
  - intros v Hn. by apply not_elem_of_nil in Hn.
  - intros v Hn. by apply not_elem_of_nil in Hn.
Qed.

Lemma merge_switch_spec m done sealed cur u' :
  merged m done sealed cur → (∀ u, m_user m = Some u → bytes_ltb u' u = false) →
  ∃ m', merge_switch out max_size u' m = Some m' ∧ files_only base (m_db m') ∧
    (ok (m_status m') = true → m_user m' = Some u' ∧ ∃ sealed' cur', merged m' done sealed' cur').
Proof using Hfit Hw.
  intros Hm Hge. unfold merge_switch. pose proof (mg_files _ _ _ _ Hm) as Hf. case_bool_decide as Eu.
  { exists m. split_and!; [done..|]. intros _. split; [done|]. by exists sealed, cur. }
  assert (∀ u, m_user m = Some u → bytes_ltb u u' = true) as Hu.
  { intros u E. destruct (bytes_ltb u u') eqn:El; [done|]. destruct Eu. rewrite E. f_equal. apply bytes_ltb_total; auto. }
  destruct (_ && _) eqn:Eseal.
  - apply andb_true_iff in Eseal as [[_ Hused]%andb_true_iff _]. rewrite (mg_used _ _ _ _ Hm) in Hused.
    apply bool_decide_eq_true in Hused.
    destruct (switch_sealed _ _ _ _ u' Hm Hused Hu) as (m1 & -> & Hf1 & Hok). cbn [mbind option_bind].
    destruct (ok (m_status m1)) eqn:Es; eexists; (split; [done|]); [|by rewrite Es].
    split; [done|]. intros _. split; [done|]. eexists _, _. by apply Hok.
  - cbn [mbind option_bind]. rewrite (mg_ok _ _ _ _ Hm). eexists. split_and!; [done|done|]. intros _. split; [done|].
    eexists _, _. by apply switch_plain.
Qed.

Lemma merged_drop m done sealed cur v seen :
  merged m done sealed cur → m_user m = Some (v_key v) → retain F bottom (m_floor_seen m) (v_seq v) (v_type v) = (false, seen) →
  merged (mkMerging (m_outputs m) (m_builder m) (m_used m) (m_user m) seen (m_status m) (m_envs m) (m_db m))
    (done ++ [v]) sealed cur.
Proof using.
  intros Hm Hu Hk. pose proof (mg_rest _ _ _ _ Hm) as Hr. destruct Hm. split; try done. cbn [m_user m_floor_seen].
  intros rest Hrest. rewrite <- app_assoc, Hr.
  - f_equal. cbn [app kept]. rewrite Hu, bool_decide_eq_true_2 by done. cbn [andb]. by rewrite Hk.
  - intros u w E [= <-]. rewrite Hu in E. injection E as <-. apply sw_irrefl.
Qed.

Lemma merged_keep m done sealed cur v seen s b :
  merged m done sealed cur → m_user m = Some (v_key v) → v ∈ all →
  retain F bottom (m_floor_seen m) (v_seq v) (v_type v) = (true, seen) →
  sst.Add (m_builder m) (v_key v) (v_seq v) (v_type v) (v_value v) = (s, b) → ok s = true →
  merged (mkMerging (m_outputs m) b true (m_user m) seen s (m_envs m) (m_db m)) (done ++ [v]) sealed (cur ++ [v]).
Proof using.
  intros Hm Hu Hv Hk Hadd Hs. pose proof (mg_rest _ _ _ _ Hm) as Hr. pose proof (mg_sealed _ _ _ _ Hm) as Hse.
  destruct Hm. split; try done; cbn [m_user m_floor_seen m_builder m_used].
  - intros rest Hrest. rewrite <- app_assoc, Hr.
    + cbn [app kept]. rewrite Hu, bool_decide_eq_true_2 by done. cbn [andb]. rewrite Hk. cbn [app].
      rewrite app_assoc, <- (app_assoc _ [v]). done.
    + intros u w E [= <-]. rewrite Hu in E. injection E as <-. apply sw_irrefl.
  - by eapply add_all_snoc.
  - symmetry. apply bool_decide_eq_true_2. by destruct cur.
  - apply strongly_snoc in mg_groups0 as [Hg1 Hg2]. apply strongly_snoc. split; [done|].
    rewrite Forall_forall in Hg2 |- *. intros g Hg x w Hx [Hw'|Hw'%list_elem_of_singleton]%elem_of_app; [by apply (Hg2 g)|].
    subst w. destruct (Hse x) as (u & E & Hlt); [apply elem_of_concat; by exists g|]. congruence.
  - intros x [Hx|Hx%list_elem_of_singleton]%elem_of_app; [by apply mg_cur0|]. subst x. exists (v_key v).
    split; [done|apply sw_irrefl].
  - intros x [Hx|Hx%list_elem_of_singleton]%elem_of_app; [by apply mg_hist0|]. by subst x.
Qed.

Lemma merge_entry_spec m done sealed cur p :
  merged m done sealed cur → version_of p ∈ all →
  (∀ u, m_user m = Some u → bytes_ltb (v_key (version_of p)) u = false) →
  ∃ m', merge_entry F out max_size p.1 p.2 m = Some m' ∧ files_only base (m_db m') ∧
    (ok (m_status m') = true → m_user m' = Some (v_key (version_of p)) ∧
       ∃ sealed' cur', merged m' (done ++ [version_of p]) sealed' cur').
Proof using Hfit Hw.
  intros Hm Hin Hge. unfold merge_entry.
  destruct (merge_switch_spec _ _ _ _ _ Hm Hge) as (m1 & E1 & Hf1 & Hok1). cbn [version_of v_key] in E1. rewrite E1.
  cbn [mbind option_bind]. destruct (ok (m_status m1)) eqn:Es; cbn [negb]; [|exists m1; by rewrite Es].
  destruct (Hok1 eq_refl) as (Hu & sealed' & cur' & Hm1). cbv zeta. fold bottom.
  destruct (retain _ _ _ _ _) as [[] seen] eqn:Er.
  - destruct (sst.Add _ _ _ _ _) as [s b] eqn:Ea. eexists. split_and!; [done|done|]. cbn [m_status m_user]. intros Hs.
    split; [done|]. exists sealed', (cur' ++ [version_of p]). by eapply merged_keep.
  - eexists. split_and!; [done|done|]. intros _. split; [done|]. exists sealed', cur'. by apply merged_drop.
Qed.

Lemma merge_loop_spec fuel iter es m done sealed cur :
  walks iter es → (length es < fuel)%nat → merged m done sealed cur →
  StronglySorted version_le (version_of <$> es) → (∀ v, v ∈ version_of <$> es → v ∈ all) →
  (∀ u v, m_user m = Some u → v ∈ version_of <$> es → bytes_ltb (v_key v) u = false) →
  ∃ m', merge_loop fuel F out max_size iter m = Some m' ∧ files_only base (m_db m') ∧
    (ok (m_status m') = true → ∃ sealed' cur', merged m' (done ++ (version_of <$> es)) sealed' cur').
Proof using Hfit Hw.
  revert fuel iter m done sealed cur. induction es as [|p es IH]; intros [|fuel] iter m done sealed cur Hwk Hfu Hm Hs Hin Hge;
    try (cbn [length] in Hfu; lia); cbn [merge_loop].
  - cbn [walks] in Hwk. change (merge_Valid iter = false) in Hwk. rewrite Hwk. cbn [andb]. exists m.
    split_and!; [done|apply Hm|]. intros _. exists sealed, cur. cbn [fmap list_fmap]. by rewrite app_nil_r.
  - destruct Hwk as (Hv & Hkv & iter' & Hn & Hwk). change (merge_Valid iter = true) in Hv.
    change ((merge_key iter, merge_value iter) = p) in Hkv. change (merge_Next iter = Some iter') in Hn.
    rewrite Hv, (mg_ok _ _ _ _ Hm). cbn [andb]. rewrite fmap_cons in *.
    destruct (merge_entry_spec m done sealed cur p Hm) as (m1 & E1 & Hf1 & Hok1);
      [apply Hin, list_elem_of_here|intros u E; apply Hge; [done|apply list_elem_of_here]|].
    rewrite <- Hkv in E1. cbn [fst snd] in E1. rewrite E1. cbn [mbind option_bind].
    destruct (ok (m_status m1)) eqn:Es; cbn [negb]; [|exists m1; by rewrite Es].
    destruct (Hok1 eq_refl) as (Hu & sealed1 & cur1 & Hm1). rewrite Hn. cbn [mbind option_bind].
    inversion Hs as [|? ? Hs' Hle]; subst.
    destruct (IH fuel iter' m1 (done ++ [version_of (merge_key iter, merge_value iter)]) sealed1 cur1) as (m' & E & Hf & Hok); [done| |done|done| | |].
    + cbn [length] in Hfu. lia.
    + intros v Hv'. apply Hin. by apply list_elem_of_further.
    + intros u v E Hv'. assert (u = v_key (version_of (merge_key iter, merge_value iter))) as -> by congruence. apply version_le_keys. rewrite Forall_forall in Hle. by apply Hle.
    + exists m'. rewrite <- app_assoc in Hok. done.
Qed.

End loop.

(** ** The outputs *)

(** What [RunCompaction] installs: tables in key order that hold what must be
    retained of [ins], with numbers from [n0] on and below [n1]. *)
Record outputs_ok (n0 n1 F : Z) (c : Compaction) (ins : list version) (outs : list TableRef) : Prop := {
  op_tables : Forall (λ r, table_of r (ref_number r) (Z.of_nat (output_level c) + 1) (ref_versions r)) outs;
  op_sorted : sorted_by before outs;
  op_numbers : NoDup (ref_number <$> outs);
  op_fresh : Forall (λ r, n0 ≤ ref_number r < n1) outs;
  op_retains : retains F (Z.of_nat (output_level c) + 1 =? kMaxLevels - 1) ins (level_versions outs)
}.

Lemma smallest_elem r : ref_ok r → ∃ v, v ∈ ref_versions r ∧ v_key v = smallest r.
Proof.
  intros Hr. pose proof (ro_smallest r Hr) as H. destruct (ref_versions r) as [|v vs]; [done|]. injection H as H.
  exists v. split; [apply list_elem_of_here|done].
Qed.

Lemma largest_elem r : ref_ok r → ∃ v, v ∈ ref_versions r ∧ v_key v = largest r.
Proof.
  intros Hr. pose proof (ro_largest r Hr) as H. rewrite last_lookup, list_lookup_fmap in H.
  destruct (ref_versions r !! _) as [v|] eqn:E; [|done]. injection H as H. exists v. split; [|done].
  by eapply list_elem_of_lookup_2.
Qed.

Lemma groups_sorted level outs sealed :
  Forall2 (λ r vs, table_of r (ref_number r) level vs) outs sealed → StronglySorted keys_before sealed →
  sorted_by before outs.
Proof.
  intros Hall Hs. revert sealed Hall Hs. induction outs as [|r outs IH]; intros sealed Hall Hs; [done|].
  inversion Hall as [|? g ? sealed' Hr Hall']; subst. inversion Hs as [|? ? Hs' Hg]; subst. split; [|by eapply IH].
  apply Forall_lookup. intros i r' Hi. destruct (Forall2_lookup_l _ _ _ _ _ Hall' Hi) as (g' & Hi' & Hr').
  change (bytes_ltb (largest r) (smallest r') = true).
  destruct (largest_elem r (to_ok _ _ _ _ Hr)) as (v & Hv & <-).
  destruct (smallest_elem r' (to_ok _ _ _ _ Hr')) as (w & Hw & <-). rewrite Forall_forall in Hg.
  rewrite (to_versions _ _ _ _ Hr) in Hv. rewrite (to_versions _ _ _ _ Hr') in Hw.
  apply (Hg g'); [by eapply list_elem_of_lookup_2|done|done].
Qed.

Lemma outputs_versions level outs sealed :
  Forall2 (λ r vs, table_of r (ref_number r) level vs) outs sealed → level_versions outs = concat sealed.
Proof.
  unfold level_versions. induction 1 as [|r vs outs sealed Hr _ IH]; [done|]. rewrite fmap_cons. cbn [concat].
  by rewrite IH, (to_versions _ _ _ _ Hr).
Qed.

Section run.
Context (base : DB) (all : list version) (next : Z) (Hfit : Forall (version_fits next) all) (Hw : total_weight all + 56 < 2 ^ 32).
Context (Hco : coherent all) (F : Z) (c : Compaction).
Context (Hrefs : Forall ref_ok (inputs_a c ++ inputs_b c)).

Let ins : list version := level_versions (inputs_a c ++ inputs_b c).
Context (Hins : ∀ v, v ∈ ins → v ∈ all).

Lemma table_iters_open rs :
  Forall ref_ok rs →
  ∃ its, mapM table_iter rs = Some its ∧ Forall2 iter_open its (table_entries ∘ table <$> rs).
Proof using.
  induction 1 as [|r rs Hr _ (its & E & Hall)]; [by exists []|].
  destruct (sst.NewIterator_open _ _ (ro_repr r Hr)) as (i & Ei & Ho).
  assert (table_iter r = Some (inr i)) as Hi by (unfold table_iter; by rewrite Ei).
  exists (inr i :: its). cbn. rewrite Hi. cbn. rewrite E. split; [done|]. by constructor.
Qed.

Lemma concat_entries rs : version_of <$> concat (table_entries ∘ table <$> rs) = level_versions rs.
Proof using.
  unfold level_versions. induction rs as [|r rs IH]; [done|]. rewrite !fmap_cons. cbn [concat]. by rewrite fmap_app, IH.
Qed.

Lemma entries_size rs :
  Forall ref_ok rs →
  (length (concat (table_entries ∘ table <$> rs)) ≤ foldr (λ r n, table_size (table r) + n) 0 rs)%nat.
Proof using.
  induction 1 as [|r rs Hr _ IH]; [done|]. rewrite fmap_cons. cbn [concat foldr].
  rewrite length_app. pose proof (table_repr_size _ _ (ro_repr r Hr)). unfold compose in *. lia.
Qed.

(** The iterator over the inputs. *)
Lemma inputs_walk :
  ∃ its iter es, mapM table_iter (inputs_a c ++ inputs_b c) = Some its ∧
    merge_SeekToFirst (new_MergingIterator its) = Some iter ∧ walks iter es ∧ (length es ≤ inputs_size c)%nat ∧
    version_of <$> es ≡ₚ ins ∧ StronglySorted version_le (version_of <$> es).
Proof using Hrefs.
  destruct (table_iters_open _ Hrefs) as (its & E & Hopen).
  destruct (merge_moved_walks (new_MergingIterator its) iter_SeekToFirst (λ _, 0%nat) _ Hopen) as (iter & es & Ei & Hwk & Hp & Hs).
  { intros i run. apply iter_at_first. }
  assert (es ≡ₚ concat (table_entries ∘ table <$> inputs_a c ++ inputs_b c)) as Hp'.
  { rewrite Hp. change (λ r : list (bytes * bytes), drop 0 r) with (@id (list (bytes * bytes))). by rewrite list_fmap_id. }
  exists its, iter, es. split_and!; [done|done|done| | |].
  - rewrite Hp'. by apply entries_size.
  - rewrite Hp'. by rewrite concat_entries.
  - apply weakly_sorted_versions; [done|]. rewrite Hp'. apply Forall_concat, Forall_fmap.
    eapply Forall_impl; [exact Hrefs|]. intros r Hr. by apply ref_wf.
Qed.

Lemma merged_start env :
  merged base all F (output_level c)
    (mkMerging [] (sst.new_Builder sst.default_TableOptions) false None false Ok env base) [] [] [].
Proof using.
  split; try done; cbn.
  - constructor.
  - repeat constructor.
  - by intros v ?%not_elem_of_nil.
  - by intros v ?%not_elem_of_nil.
  - by intros v ?%not_elem_of_nil.
Qed.

(** The last group is sealed after the loop. *)
Lemma final_seal m done sealed cur :
  merged base all F (output_level c) m done sealed cur →
  ∃ m', seal (output_level c) m = Some m' ∧ files_only base (m_db m') ∧
    (ok (m_status m') = true → ∃ groups,
     Forall2 (λ r vs, table_of r (ref_number r) (Z.of_nat (output_level c) + 1) vs) (m_outputs m') groups ∧
     NoDup (ref_number <$> m_outputs m') ∧
     Forall (λ r, next_file_number_ base ≤ ref_number r < next_file_number_ (m_db m')) (m_outputs m') ∧
     StronglySorted keys_before groups ∧ concat groups = concat sealed ++ cur).
Proof using Hfit Hw.
  intros Hm. destruct (decide (cur = [])) as [->|Hne].
  - exists m. unfold seal. rewrite (mg_used _ _ _ _ _ _ _ _ Hm). cbn. destruct Hm. split_and!; [done|done|]. intros _.
    exists sealed. split_and!; [done..| |by rewrite app_nil_r]. by apply strongly_snoc in mg_groups0 as [? _].
  - destruct (seal_spec base all next Hfit Hw F (output_level c) _ _ _ _ Hm Hne) as (m' & E & Hf & _ & _ & Hok).
    exists m'. split_and!; [done|done|]. intros Hs. destruct (Hok Hs) as (H1 & H2 & H3 & _).
    exists (sealed ++ [cur]). split_and!; [done..|apply Hm|]. rewrite concat_app. cbn. by rewrite app_nil_r.
Qed.

Lemma compact_merge_spec env :
  ∃ s outs d', compact_merge env F c base = Some (s, outs, d') ∧ files_only base d' ∧
    (ok s = true → outputs_ok (next_file_number_ base) (next_file_number_ d') F c ins outs).
Proof using Hfit Hco Hw Hrefs Hins.
  unfold compact_merge. destruct inputs_walk as (its & iter & es & -> & E & Hwk & Hlen & Hp & Hs).
  cbn [mbind option_bind]. rewrite E. cbn [mbind option_bind].
  destruct (merge_loop_spec base all next Hfit Hw F (output_level c) (max_sst_size (options_ base)) (S (inputs_size c)) iter es _ _ _ _
              Hwk ltac:(lia) (merged_start (ce_ssts env)) Hs) as (m & -> & Hf & Hok).
  { intros v. rewrite Hp. apply Hins. }
  { done. }
  cbn [mbind option_bind app]. destruct (ok (m_status m)) eqn:Es; cbn [mbind option_bind].
  2:{ rewrite Es. cbn [negb]. eexists _, _, _. split_and!; [done| |by rewrite Es].
      eapply files_only_trans; [exact Hf|]. by split. }
  destruct (Hok eq_refl) as (sealed & cur & Hm). destruct (final_seal _ _ _ _ Hm) as (m' & -> & Hf' & Hok').
  cbn [mbind option_bind]. destruct (ok (m_status m')) eqn:Es'; cbn [negb].
  2:{ eexists _, _, _. split_and!; [done| |by rewrite Es']. eapply files_only_trans; [exact Hf'|]. by split. }
  destruct (Hok' eq_refl) as (groups & H1 & H2 & H3 & H4 & H5).
  eexists _, _, _. split_and!; [done|done|]. intros _. split; [|by eapply groups_sorted|done|done|].
  - clear -H1. induction H1 as [|r vs outs groups Hr _ IH]; constructor; [|done]. by rewrite (to_versions _ _ _ _ Hr).
  - rewrite (outputs_versions _ _ _ H1), H5.
    pose proof (mg_rest _ _ _ _ _ _ _ _ Hm [] ltac:(done)) as Hk. cbn [kept] in Hk. rewrite !app_nil_r in Hk.
    rewrite <- Hk. apply (retains_perm _ _ (version_of <$> es)); [done|]. apply kept_retains; [|done].
    eapply coherent_sub; [exact Hco|]. intros v. rewrite Hp. apply Hins.
Qed.

End run.
