(* ===== verification/DbCompact.v ===== *)
(** * Compaction

    Replacing the inputs of a compaction by its outputs keeps the invariant of
    the database: the new files form a sorted level, the layers stay ordered
    newest first, and no read of a live snapshot or of the latest state
    changes ([compacted_inv]). *)

From S2P Require Import Prelude Status FsUtil Encoding VLog LruCache InternalKey Mvcc Layers Iterator Block.
From S2P Require Import SSTable TableSize Manifest SkipList MemTable Merge Db DbRead DbInv DbFlush DbPick.
From S2P Require Import DbMerge.
Import db.

(** ** Sorting a level *)

Definition comparable (a b : TableRef) : Prop := before a b = true ∨ before b a = true.

Fixpoint all_apart (rs : list TableRef) : Prop :=
  match rs with
  | [] => True
  | r :: rs => Forall (comparable r) rs ∧ all_apart rs
  end.

Lemma sort_insert_perm {A} (lt : A → A → bool) x l : sort_insert lt x l ≡ₚ x :: l.
Proof.
  induction l as [|y l IH]; [done|]. cbn [sort_insert]. destruct (lt x y); [done|]. rewrite IH. apply Permutation_swap.
Qed.

Lemma sort_by_perm {A} (lt : A → A → bool) l : sort_by lt l ≡ₚ l.
Proof. induction l as [|x l IH]; [done|]. cbn [sort_by foldr]. rewrite sort_insert_perm. by constructor. Qed.

Lemma before_smaller a b : ref_ok a → before a b = true → smallest_less a b = true.
Proof.
  intros Ha Hb. apply (sw_le_lt_trans bytes_ltb _ (largest a)); [|exact Hb]. by apply ref_range_nonempty.
Qed.

Lemma sort_insert_before r rs :
  ref_ok r → Forall ref_ok rs → sorted_by before rs → Forall (comparable r) rs →
  sorted_by before (sort_insert smallest_less r rs).
Proof.
  intros Hr Hrs. induction Hrs as [|x rs Hx Hrs IH]; intros Hs Hc; [done|]. destruct Hs as [Hxs Hs].
  inversion Hc as [|? ? Hrx Hc']; subst. cbn [sort_insert]. destruct (smallest_less r x) eqn:E.
  - assert (before r x = true) as Hb.
    { destruct Hrx as [?|Hxr]; [done|]. pose proof (before_smaller _ _ Hx Hxr) as Hlt.
      by rewrite (sw_asym bytes_ltb _ _ Hlt : smallest_less r x = false) in E. }
    split; [|done]. constructor; [done|]. apply Forall_forall. intros y Hy. rewrite Forall_forall in Hxs.
    apply (sw_trans (lt := bytes_ltb) _ _ _ Hb). by apply before_smaller; [|apply Hxs].
  - split; [|by apply IH]. rewrite sort_insert_perm. constructor; [|done].
    destruct Hrx as [Hrx|?]; [|done]. by rewrite (before_smaller _ _ Hr Hrx) in E.
Qed.

Lemma sort_by_before rs : Forall ref_ok rs → all_apart rs → sorted_by before (sort_by smallest_less rs).
Proof.
  induction 1 as [|r rs Hr Hrs IH]; [done|]. intros [Hc Ha].
  change (sorted_by before (sort_insert smallest_less r (sort_by smallest_less rs))).
  apply sort_insert_before; [done|by rewrite sort_by_perm|by apply IH|by rewrite sort_by_perm].
Qed.

Lemma sorted_apart rs : sorted_by before rs → all_apart rs.
Proof.
  induction rs as [|r rs IH]; [done|]. intros [Hr Hs]. split; [|by apply IH].
  eapply Forall_impl; [exact Hr|]. intros x Hx. by left.
Qed.

Lemma all_apart_app rs ss :
  all_apart rs → all_apart ss → (∀ r s, r ∈ rs → s ∈ ss → comparable r s) → all_apart (rs ++ ss).
Proof.
  intros Hr Hs. induction rs as [|r rs IH]; intros Hc; [done|]. destruct Hr as [H1 H2]. split.
  - apply Forall_app. split; [done|]. apply Forall_forall. intros s Hin. apply Hc; [apply list_elem_of_here|done].
  - apply IH; [done|]. intros x y Hx. apply Hc. by apply list_elem_of_further.
Qed.

Lemma sorted_by_sublist {A} (lt : A → A → bool) l k : l `sublist_of` k → sorted_by lt k → sorted_by lt l.
Proof.
  induction 1 as [|x l k Hs IH|x l k Hs IH]; [done| |].
  - intros [Hx Hk]. split; [|by apply IH]. rewrite Forall_forall in Hx |- *. intros y Hy. apply Hx.
    by eapply elem_of_sublist.
  - intros [_ Hk]. by apply IH.
Qed.

(** ** Removing files by number *)

Lemma remove_numbers_elem level removed r :
  r ∈ remove_numbers level removed ↔ r ∈ level ∧ ref_number r ∉ ref_number <$> removed.
Proof. unfold remove_numbers. rewrite list_elem_of_filter. unfold ref_number. tauto. Qed.

Lemma remove_numbers_sublist level removed : remove_numbers level removed `sublist_of` level.
Proof. apply sublist_filter. Qed.

Lemma sublist_fmap {A B} (f : A → B) l k : l `sublist_of` k → f <$> l `sublist_of` f <$> k.
Proof. induction 1; rewrite ?fmap_cons; by constructor. Qed.

Lemma remove_numbers_all level : remove_numbers level level = [].
Proof.
  apply elem_of_nil_inv. intros r [Hr Hn]%remove_numbers_elem. apply Hn. by apply list_elem_of_fmap_2.
Qed.

Lemma remove_numbers_head r level :
  NoDup (ref_number <$> r :: level) → remove_numbers (r :: level) [r] = level.
Proof.
  rewrite fmap_cons. intros [Hr Hnd]%NoDup_cons. unfold remove_numbers. rewrite filter_cons_False.
  - apply filter_all. apply Forall_forall. intros x Hx Hin%list_elem_of_singleton. apply Hr.
    change (ref_number x = ref_number r) in Hin. rewrite <- Hin. by apply list_elem_of_fmap_2.
  - intros H. apply H. apply list_elem_of_here.
Qed.

Lemma level_versions_elem rs v : v ∈ level_versions rs ↔ ∃ r, r ∈ rs ∧ v ∈ ref_versions r.
Proof.
  unfold level_versions. rewrite elem_of_concat. split.
  - intros (l & (r & -> & Hr)%list_elem_of_fmap & Hv). by exists r.
  - intros (r & Hr & Hv). exists (ref_versions r). split; [by apply list_elem_of_fmap_2|done].
Qed.

Lemma level_versions_app rs ss : level_versions (rs ++ ss) = level_versions rs ++ level_versions ss.
Proof. unfold level_versions. by rewrite fmap_app, concat_app. Qed.

(** The versions of a level, split by which files are removed. *)
Lemma remove_numbers_versions level removed :
  NoDup (ref_number <$> level) → (∀ r, r ∈ removed → r ∈ level) →
  same_set (level_versions level) (level_versions removed ++ level_versions (remove_numbers level removed)).
Proof.
  intros Hnd Hsub v. rewrite elem_of_app, !level_versions_elem. split.
  - intros (r & Hr & Hv). destruct (decide (ref_number r ∈ ref_number <$> removed)) as [Hin|Hout].
    + left. apply list_elem_of_fmap in Hin as (r' & E & Hr'). exists r'. split; [done|].
      assert (r = r') as <-; [|done]. apply list_elem_of_lookup in Hr as [i Hi].
      pose proof (Hsub r' Hr') as Hl. apply list_elem_of_lookup in Hl as [j Hj].
      assert (i = j) as ->; [|congruence].
      apply (NoDup_lookup _ i j (ref_number r) Hnd); rewrite list_lookup_fmap; [by rewrite Hi|by rewrite Hj, E].
    + right. exists r. split; [|done]. by apply remove_numbers_elem.
  - intros [(r & Hr & Hv)|(r & Hr & Hv)]; exists r; (split; [|done]); [by apply Hsub|].
    by apply remove_numbers_elem in Hr as [? _].
Qed.

(** ** Installing the outputs *)

Lemma levels_split v i :
  (i < length (levels v))%nat → levels v = take i (levels v) ++ level_at v i :: drop (S i) (levels v).
Proof.
  intros Hi. destruct (lookup_lt_is_Some_2 _ _ Hi) as [level Hl]. unfold level_at. rewrite Hl. cbn [default].
  symmetry. by apply take_drop_middle.
Qed.

Lemma same_layers (ls : list (list version)) : Forall2 same_set ls ls.
Proof. induction ls; by constructor. Qed.

Lemma insert_pair {A} i (l k : list A) x y x' y' :
  length l = i → <[S i := y']> (<[i := x']> (l ++ x :: y :: k)) = l ++ x' :: y' :: k.
Proof. intros <-. induction l as [|z l IH]; [done|]. cbn. f_equal. exact IH. Qed.

(** Source layers of which nothing remains. *)
Lemma whole_rest (rs : list TableRef) : concat (snd <$> ((λ r, (ref_versions r, @nil version)) <$> rs)) = [].
Proof. induction rs as [|r rs IH]; [done|]. exact IH. Qed.

Lemma whole_layers (rs : list TableRef) :
  Forall2 same_set (ref_versions <$> rs) ((λ p, p.1 ++ p.2) <$> ((λ r, (ref_versions r, @nil version)) <$> rs)).
Proof. induction rs as [|r rs IH]; constructor; [|done]. intros w. cbn. by rewrite app_nil_r. Qed.

(** Another set of files that answers alike. *)
Lemma set_current_inv d hist v' :
  db_inv d hist → version_ok v' → length (levels v') = 6%nat →
  stacked (layers (set_current v' d)) →
  (∀ v, v ∈ concat (layers (set_current v' d)) → v ∈ concat (layers d)) →
  same_reads (lowest d) (concat (layers (set_current v' d))) (concat (layers d)) →
  numbers_ok (set_current v' d) → db_inv (set_current v' d) hist.
Proof.
  intros [] Hv Hlen Hst Hsub Hrd Hnum. split; try done.
  - intros v Hin. auto.
  - eapply same_reads_trans; [exact Hrd|done].
Qed.

Section install.
Context (d : DB) (hist : list version) (Hd : db_inv d hist).
Context (c : Compaction) (outs : list TableRef) (n0 n1 F : Z).

Let v : Version := current_ d.
Let ins : list version := level_versions (inputs_a c ++ inputs_b c).
Let bottom : bool := Z.of_nat (output_level c) + 1 =? kMaxLevels - 1.
Let target : list TableRef := level_at v (output_level c).
Let rem : list TableRef := remove_numbers target (inputs_b c).
Let new_level : list TableRef := sort_by smallest_less (rem ++ outs).

Hypothesis Hpick : picked_ok v c.
Hypothesis Hout : outputs_ok n0 n1 F c ins outs.
Hypothesis Hold : Forall (λ r, ref_number r < n0) (version_refs v).
Hypothesis Hn1 : n1 ≤ next_file_number_ d.
Hypothesis Hlo : F ≤ lowest d ∨ ∀ w, w ∈ ins → v_seq w ≤ lowest d.

Lemma level_at_ok i : level_ok (level_at v i).
Proof using Hd.
  unfold level_at. destruct (levels v !! i) as [level|] eqn:E; [|by split].
  pose proof (vk_levels _ (di_version _ _ Hd)) as H. rewrite Forall_lookup in H. by eapply H.
Qed.

Lemma level_at_numbers i : NoDup (ref_number <$> level_at v i).
Proof using Hd.
  unfold level_at. destruct (levels v !! i) as [level|] eqn:E; [|constructor].
  pose proof (no_levels _ (di_numbers _ _ Hd)) as H. rewrite Forall_lookup in H. by eapply H.
Qed.

Lemma level_at_refs i r : r ∈ level_at v i → r ∈ version_refs v.
Proof using.
  unfold level_at. destruct (levels v !! i) as [level|] eqn:E; [|by intros ?%not_elem_of_nil]. intros Hr.
  unfold version_refs. apply elem_of_app. right. apply elem_of_concat. exists level. split; [|done].
  by eapply list_elem_of_lookup_2.
Qed.

Lemma input_ok r : r ∈ inputs_a c ++ inputs_b c → ref_ok r.
Proof using Hd Hpick.
  intros [Hr|Hr]%elem_of_app.
  - pose proof (pk_source _ _ Hpick) as Hs. destruct (source_level c) as [i|].
    + destruct Hs as (_ & r0 & rest & E & Ea). rewrite Ea in Hr. apply list_elem_of_singleton in Hr as ->.
      pose proof (lo_refs _ (level_at_ok i)) as H. rewrite E in H. by inversion H.
    + destruct Hs as [Ea _]. rewrite Ea in Hr. pose proof (vk_l0 _ (di_version _ _ Hd)) as H.
      rewrite Forall_forall in H. by apply H.
  - apply (pk_sub _ _ Hpick) in Hr. pose proof (lo_refs _ (level_at_ok (output_level c))) as H.
    rewrite Forall_forall in H. by apply H.
Qed.

(** The range of the inputs separates the remaining files from the outputs. *)
Lemma rem_apart : ∃ lo hi, (∀ r, r ∈ rem → apart lo hi r) ∧
  ∀ w, w ∈ ins → bytes_ltb (v_key w) lo = false ∧ bytes_ltb hi (v_key w) = false.
Proof using Hd Hpick.
  destruct (pk_range _ _ Hpick) as (lo & hi & Hc & Hall). exists lo, hi. split.
  - intros r [Hr Hn]%remove_numbers_elem. destruct (Hall r Hr) as [Hin|?]; [|done].
    destruct Hn. by apply list_elem_of_fmap_2.
  - intros w (r & Hr & Hw)%level_versions_elem. destruct (ref_range r w (input_ok r Hr) Hw) as [H1 H2].
    rewrite Forall_forall in Hc. destruct (Hc r Hr) as [H3 H4]. split.
    + by apply (sw_le_trans bytes_ltb _ (smallest r)).
    + by apply (sw_le_trans bytes_ltb _ (largest r)).
Qed.

Lemma rem_ins_disjoint : keys_disjoint (level_versions rem) ins.
Proof using Hd Hpick.
  destruct rem_apart as (lo & hi & Ha & Hi). intros x w (r & Hr & Hx)%level_versions_elem Hw E.
  destruct (Hi w Hw) as [H1 H2]. rewrite <- E in *.
  assert (ref_ok r) as Hok.
  { apply remove_numbers_elem in Hr as [Hr _]. pose proof (lo_refs _ (level_at_ok (output_level c))) as H.
    rewrite Forall_forall in H. by apply H. }
  destruct (ref_range r x Hok Hx) as [H3 H4]. destruct (Ha r Hr) as [H5|H5].
  - by rewrite (sw_lt_le_trans bytes_ltb _ _ _ H5 H1) in H4.
  - rewrite (sw_le_lt_trans bytes_ltb (v_key x) hi (smallest r)) in H3; done.
Qed.

Lemma out_ok r : r ∈ outs → ref_ok r ∧ ∀ w, w ∈ ref_versions r → w ∈ ins.
Proof using Hout.
  intros Hr. pose proof (op_tables _ _ _ _ _ _ Hout) as H. rewrite Forall_forall in H. split; [apply (H r Hr)|].
  intros w Hw. apply (rt_sub _ _ _ _ (op_retains _ _ _ _ _ _ Hout)), level_versions_elem. by exists r.
Qed.

Lemma rem_outs_comparable r o : r ∈ rem → o ∈ outs → comparable r o.
Proof using Hd Hpick Hout.
  intros Hr Ho. destruct rem_apart as (lo & hi & Ha & Hi). destruct (out_ok o Ho) as [Hok Hin].
  destruct (smallest_elem o Hok) as (w1 & Hw1 & E1). destruct (largest_elem o Hok) as (w2 & Hw2 & E2).
  destruct (Hi w1 (Hin _ Hw1)) as [H1 _]. destruct (Hi w2 (Hin _ Hw2)) as [_ H2]. rewrite E1 in H1. rewrite E2 in H2.
  destruct (Ha r Hr) as [H|H]; [left|right].
  - by apply (sw_lt_le_trans bytes_ltb _ lo).
  - by apply (sw_le_lt_trans bytes_ltb _ hi).
Qed.

Lemma new_level_ok : level_ok new_level.
Proof using Hd Hpick Hout.
  assert (Forall ref_ok (rem ++ outs)) as Hok.
  { apply Forall_app. split; apply Forall_forall; intros r Hr; [|by apply out_ok].
    apply remove_numbers_elem in Hr as [Hr _]. pose proof (lo_refs _ (level_at_ok (output_level c))) as H.
    rewrite Forall_forall in H. by apply H. }
  split; unfold new_level; [by rewrite sort_by_perm|]. apply sort_by_before; [done|].
  apply all_apart_app; [| |by apply rem_outs_comparable].
  - apply sorted_apart. eapply sorted_by_sublist; [apply remove_numbers_sublist|apply level_at_ok].
  - apply sorted_apart. apply Hout.
Qed.

Lemma new_level_numbers : NoDup (ref_number <$> new_level).
Proof using Hd Hout Hold.
  unfold new_level. rewrite sort_by_perm, fmap_app. apply NoDup_app. split_and!; [| |apply Hout].
  - eapply sublist_NoDup; [apply (level_at_numbers (output_level c))|]. apply sublist_fmap, remove_numbers_sublist.
  - intros n (r & -> & Hr)%list_elem_of_fmap (o & E & Ho)%list_elem_of_fmap.
    apply remove_numbers_elem in Hr as [Hr _]. apply level_at_refs in Hr. rewrite Forall_forall in Hold.
    specialize (Hold r Hr). pose proof (op_fresh _ _ _ _ _ _ Hout) as H. rewrite Forall_forall in H. specialize (H o Ho).
    cbn beta in *. lia.
Qed.

Lemma new_level_versions : same_set (level_versions rem ++ level_versions outs) (level_versions new_level).
Proof using.
  intros w. rewrite <- level_versions_app, !level_versions_elem. unfold new_level.
  by setoid_rewrite (sort_by_perm smallest_less (rem ++ outs)).
Qed.

Lemma target_versions : same_set (level_versions target) (level_versions (inputs_b c) ++ level_versions rem).
Proof using Hd Hpick. apply remove_numbers_versions; [apply level_at_numbers|apply Hpick]. Qed.

(** The layers before and after, for both kinds of source. *)
Section layers.
Context (pre : list (list version)) (mids : list (list version * list version)) (post : list (list version)).
Hypothesis Hlayers : Forall2 same_set (layers d)
  (pre ++ ((λ p, p.1 ++ p.2) <$> mids) ++ (level_versions (inputs_b c) ++ level_versions rem) :: post).
Hypothesis Hmids : concat (fst <$> mids) = level_versions (inputs_a c).
Hypothesis Hmid : ∀ p, p ∈ mids → keys_disjoint p.2 (level_versions (inputs_a c)).
Hypothesis Hpost : bottom = true → post = [].

Let new : list (list version) := pre ++ (snd <$> mids) ++ level_versions new_level :: post.

Lemma ins_mids : ins = concat (fst <$> mids) ++ level_versions (inputs_b c).
Proof using Hmids. unfold ins. by rewrite level_versions_app, Hmids. Qed.

Lemma new_same :
  Forall2 same_set (pre ++ (snd <$> mids) ++ (level_versions rem ++ level_versions outs) :: post) new.
Proof using.
  apply Forall2_app; [apply same_layers|]. apply Forall2_app; [apply same_layers|].
  constructor; [apply new_level_versions|apply same_layers].
Qed.

Lemma old_stacked :
  stacked (pre ++ ((λ p, p.1 ++ p.2) <$> mids) ++ (level_versions (inputs_b c) ++ level_versions rem) :: post).
Proof using Hd Hlayers. eapply stacked_same; [exact Hlayers|apply Hd]. Qed.

Lemma old_coherent :
  coherent (concat (pre ++ ((λ p, p.1 ++ p.2) <$> mids) ++ (level_versions (inputs_b c) ++ level_versions rem) :: post)).
Proof using Hd Hlayers.
  eapply coherent_sub; [exact (di_coherent _ _ Hd)|]. intros w Hw. apply (di_sub _ _ Hd).
  by apply (same_set_concat _ _ Hlayers).
Qed.

Lemma mids_disjoint p : p ∈ mids → keys_disjoint p.2 (concat (fst <$> mids)).
Proof using Hmids Hmid. rewrite Hmids. apply Hmid. Qed.

Lemma new_stacked : stacked new.
Proof using Hd Hpick Hout Hlayers Hmids Hmid.
  eapply stacked_same; [exact new_same|].
  pose proof (op_retains _ _ _ _ _ _ Hout) as Hr. rewrite ins_mids in Hr.
  apply (move_stacked F bottom pre mids (level_versions (inputs_b c)) (level_versions rem) post (level_versions outs)
           old_stacked Hr mids_disjoint).
  rewrite <- ins_mids. apply rem_ins_disjoint.
Qed.

Lemma new_sub w : w ∈ concat new → w ∈ concat (layers d).
Proof using Hout Hlayers Hmids.
  intros Hw. apply (same_set_concat _ _ new_same) in Hw. apply (same_set_concat _ _ Hlayers).
  pose proof (op_retains _ _ _ _ _ _ Hout) as Hr. rewrite ins_mids in Hr. revert Hw. by apply (move_sub F bottom).
Qed.

Lemma new_reads : same_reads (lowest d) (concat new) (concat (layers d)).
Proof using Hd Hpick Hout Hlo Hlayers Hmids Hmid Hpost.
  pose proof (op_retains _ _ _ _ _ _ Hout) as Hr. rewrite ins_mids in Hr.
  pose proof rem_ins_disjoint as Htr. rewrite ins_mids in Htr. pose proof Hlo as Hlo'. rewrite ins_mids in Hlo'.
  pose proof (move_reads F bottom pre mids _ _ post _ old_stacked old_coherent Hr Hpost mids_disjoint Htr _ Hlo') as Hm.
  eapply same_reads_trans; [|eapply same_reads_trans; [exact Hm|]].
  - apply same_reads_ext; [|intros w; symmetry; apply (same_set_concat _ _ new_same)].
    eapply coherent_sub; [exact old_coherent|]. by apply (move_sub F bottom).
  - apply same_reads_sym, same_reads_ext; [exact old_coherent|]. apply (same_set_concat _ _ Hlayers).
Qed.

End layers.

(** *** Level 0 as the source *)

Lemma compacted_l0 :
  source_level c = None → ∃ rest, levels v = target :: rest ∧ inputs_a c = l0 v ∧ output_level c = 0%nat ∧
    compacted c outs v = mkVersionSet [] (new_level :: rest).
Proof using Hpick.
  intros Es. pose proof (pk_source _ _ Hpick) as Hs. rewrite Es in Hs. destruct Hs as [Ea Eo].
  unfold compacted, new_level, rem, target. rewrite Es, Ea, Eo, remove_numbers_all.
  pose proof (pk_out _ _ Hpick) as Hlt. rewrite Eo in Hlt. unfold level_at. cbn [levels set_level l0].
  destruct (levels v) as [|t rest]; [cbn in Hlt; lia|]. by exists rest.
Qed.

Lemma l0_layers :
  source_level c = None →
  let d' := set_current (compacted c outs v) d in
  stacked (layers d') ∧ (∀ w, w ∈ concat (layers d') → w ∈ concat (layers d)) ∧
  same_reads (lowest d) (concat (layers d')) (concat (layers d)).
Proof using Hd Hpick Hout Hlo.
  intros Es. destruct (compacted_l0 Es) as (rest & El & Ea & Eo & Ec). rewrite Ec. cbv zeta.
  set (pre := [mem_versions (mem_ d); imm_versions (imm_ d)]).
  set (mids := (λ r, (ref_versions r, @nil version)) <$> l0 v). set (post := level_versions <$> rest).
  assert (layers (set_current (mkVersionSet [] (new_level :: rest)) d) = pre ++ level_versions new_level :: post) as Enew by done.
  assert (concat (snd <$> mids) = []) as Esnd by apply whole_rest.
  assert (concat (pre ++ (snd <$> mids) ++ level_versions new_level :: post) = concat (pre ++ level_versions new_level :: post)) as Econ.
  { rewrite !(concat_app pre), concat_app, Esnd. done. }
  assert (Forall2 same_set (layers d)
    (pre ++ ((λ p, p.1 ++ p.2) <$> mids) ++ (level_versions (inputs_b c) ++ level_versions rem) :: post)) as Hl.
  { unfold layers, view_layers, version_layers. fold v. rewrite El. change (mem_versions (mem_ d) :: imm_versions (imm_ d) :: ?x)
      with (pre ++ x). apply Forall2_app; [apply same_layers|]. rewrite fmap_cons. apply Forall2_app.
    - apply whole_layers.
    - constructor; [apply target_versions|apply same_layers]. }
  assert (concat (fst <$> mids) = level_versions (inputs_a c)) as Hm.
  { rewrite Ea. unfold mids. rewrite <- list_fmap_compose. done. }
  assert (∀ p, p ∈ mids → keys_disjoint p.2 (level_versions (inputs_a c))) as Hmid.
  { intros p (r & -> & _)%list_elem_of_fmap x y Hx. by apply not_elem_of_nil in Hx. }
  assert (bottom = true → post = []) as Hb by (unfold bottom; by rewrite Eo).
  rewrite Enew, <- Econ. split_and!.
  - apply (stacked_drop_empty pre (snd <$> mids)); [|by apply (new_stacked pre mids post)].
    apply Forall_fmap, Forall_fmap, Forall_forall. done.
  - by apply (new_sub pre mids post).
  - by apply (new_reads pre mids post).
Qed.

(** *** A deeper level as the source *)

Lemma compacted_level i :
  source_level c = Some i → ∃ r rest, level_at v i = r :: rest ∧ inputs_a c = [r] ∧ output_level c = S i ∧
    levels v = take i (levels v) ++ (r :: rest) :: target :: drop (S (S i)) (levels v) ∧
    compacted c outs v = mkVersionSet (l0 v) (take i (levels v) ++ rest :: new_level :: drop (S (S i)) (levels v)).
Proof using Hd Hpick.
  intros Es. pose proof (pk_source _ _ Hpick) as Hs. rewrite Es in Hs. destruct Hs as (Eo & r & rest & El & Ea).
  pose proof (pk_out _ _ Hpick) as Hlt. rewrite Eo in Hlt.
  assert (levels v = take i (levels v) ++ (r :: rest) :: target :: drop (S (S i)) (levels v)) as Esp.
  { pose proof (levels_split v i ltac:(lia)) as E1. rewrite El in E1.
    destruct (lookup_lt_is_Some_2 _ _ Hlt) as [t Et]. rewrite (drop_S _ _ _ Et) in E1.
    unfold target, level_at. by rewrite Eo, Et. }
  exists r, rest. split_and!; [done..|]. unfold compacted. rewrite Es, Ea, El, remove_numbers_head.
  2:{ rewrite <- El. apply level_at_numbers. }
  assert (level_at (set_level i rest v) (output_level c) = target) as ->.
  { unfold target, level_at, set_level. cbn [levels]. by rewrite list_lookup_insert_ne by lia. }
  fold rem. fold new_level. unfold set_level. cbn [l0 levels]. f_equal. rewrite Eo.
  assert (length (take i (levels v)) = i) as Hlen by (rewrite length_take; lia).
  rewrite <- (insert_pair i _ _ (r :: rest) target rest new_level Hlen). do 2 f_equal. exact Esp.
Qed.

Lemma level_layers i :
  source_level c = Some i →
  let d' := set_current (compacted c outs v) d in
  stacked (layers d') ∧ (∀ w, w ∈ concat (layers d') → w ∈ concat (layers d)) ∧
  same_reads (lowest d) (concat (layers d')) (concat (layers d)).
Proof using Hd Hpick Hout Hlo.
  intros Es. destruct (compacted_level i Es) as (r & rest & Elv & Ea & Eo & El & Ec). rewrite Ec. cbv zeta.
  set (pre := mem_versions (mem_ d) :: imm_versions (imm_ d) :: (ref_versions <$> l0 v) ++ (level_versions <$> take i (levels v))).
  set (mids := [(ref_versions r, level_versions rest)]). set (post := level_versions <$> drop (S (S i)) (levels v)).
  assert (layers (set_current (mkVersionSet (l0 v) (take i (levels v) ++ rest :: new_level :: drop (S (S i)) (levels v))) d)
          = pre ++ (snd <$> mids) ++ level_versions new_level :: post) as ->.
  { unfold layers, view_layers, version_layers. cbn [current_ set_current l0 levels mem_ imm_]. unfold pre.
    rewrite fmap_app, app_assoc. done. }
  assert (Forall2 same_set (layers d)
    (pre ++ ((λ p, p.1 ++ p.2) <$> mids) ++ (level_versions (inputs_b c) ++ level_versions rem) :: post)) as Hl.
  { unfold layers, view_layers, version_layers. fold v. rewrite El at 1. rewrite fmap_app, app_assoc.
    change (mem_versions (mem_ d) :: imm_versions (imm_ d) :: ?x ++ ?y) with ((mem_versions (mem_ d) :: imm_versions (imm_ d) :: x) ++ y).
    apply Forall2_app; [apply same_layers|]. rewrite !fmap_cons.
    constructor; [done|]. constructor; [apply target_versions|apply same_layers]. }
  assert (concat (fst <$> mids) = level_versions (inputs_a c)) as Hm by by rewrite Ea.
  assert (∀ p, p ∈ mids → keys_disjoint p.2 (level_versions (inputs_a c))) as Hmid.
  { intros p Hp%list_elem_of_singleton. subst p. rewrite Ea. intros x y (r1 & Hr1 & Hx)%level_versions_elem Hy.
    apply level_versions_elem in Hy as (r2 & Hr2%list_elem_of_singleton & Hy). subst r2. intros E.
    destruct (level_at_ok i) as [Hrefs Hsort]. rewrite Elv in Hrefs, Hsort. destruct Hsort as [Hsort _].
    inversion Hrefs as [|? ? Hr Hrest]; subst. rewrite Forall_forall in Hsort, Hrest.
    specialize (Hsort r1 Hr1). specialize (Hrest r1 Hr1). destruct (ref_range _ _ Hrest Hx) as [H1 _].
    destruct (ref_range _ _ Hr Hy) as [_ H2]. rewrite E in H1.
    rewrite (sw_lt_le_trans bytes_ltb (largest r) (smallest r1) (v_key y)) in H2; done. }
  assert (bottom = true → post = []) as Hb.
  { unfold bottom. rewrite Eo. unfold kMaxLevels. intros Hb%Z.eqb_eq. unfold post.
    rewrite drop_ge; [done|]. pose proof (di_levels _ _ Hd) as H. fold v in H. lia. }
  split_and!; [by apply (new_stacked pre mids post)|by apply (new_sub pre mids post)|by apply (new_reads pre mids post)].
Qed.

(** *** The invariant *)

(** The level files of the new version. *)
Lemma compacted_levels :
  Forall (λ level, level = new_level ∨ ∃ i level', level_at v i = level' ∧ level `sublist_of` level') (levels (compacted c outs v))
  ∧ l0 (compacted c outs v) `sublist_of` l0 v ∧ length (levels (compacted c outs v)) = length (levels v).
Proof using Hd Hpick.
  assert (∀ level, level ∈ levels v → ∃ i level', level_at v i = level' ∧ level `sublist_of` level') as Hall.
  { intros level [i Hi]%list_elem_of_lookup. exists i, level. unfold level_at. by rewrite Hi. }
  destruct (source_level c) as [i|] eqn:Es.
  - destruct (compacted_level i Es) as (r & rest & Elv & Ea & Eo & El & ->). cbn [levels l0]. split_and!; [|done|].
    + rewrite Forall_forall. intros level [Hl|[->|[->|Hl]%elem_of_cons]%elem_of_cons]%elem_of_app.
      * right. apply Hall. by apply elem_of_take in Hl as (? & Hl & _); eapply list_elem_of_lookup_2.
      * right. exists i, (r :: rest). split; [done|]. by constructor.
      * by left.
      * right. apply Hall. rewrite El. rewrite elem_of_app, !elem_of_cons. by right; right; right.
    + rewrite El at 3. rewrite !length_app. done.
  - destruct (compacted_l0 Es) as (rest & El & Ea & Eo & ->). cbn [levels l0]. split_and!; [|apply sublist_nil_l|by rewrite El].
    constructor; [by left|]. apply Forall_forall. intros level Hl. right. apply Hall. rewrite El. by apply list_elem_of_further.
Qed.

Lemma compacted_version_ok : version_ok (compacted c outs v).
Proof using Hd Hpick Hout.
  destruct compacted_levels as (Hl & H0 & _). split.
  - pose proof (vk_l0 _ (di_version _ _ Hd)) as H. rewrite Forall_forall in H |- *. intros r Hr. apply H.
    by eapply elem_of_sublist.
  - eapply Forall_impl; [exact Hl|]. intros level [->|(i & level' & <- & Hs)]; [apply new_level_ok|].
    destruct (level_at_ok i) as [H1 H2]. split; [|by eapply sorted_by_sublist].
    rewrite Forall_forall in H1 |- *. intros r Hr. apply H1. by eapply elem_of_sublist.
Qed.

Lemma compacted_refs r : r ∈ version_refs (compacted c outs v) → r ∈ version_refs v ∨ r ∈ outs.
Proof using Hd Hpick.
  destruct compacted_levels as (Hl & H0 & _). unfold version_refs at 1. intros [Hr|Hr]%elem_of_app.
  - left. unfold version_refs. apply elem_of_app. left. by eapply elem_of_sublist.
  - apply elem_of_concat in Hr as (level & Hin & Hr). rewrite Forall_forall in Hl.
    destruct (Hl level Hin) as [->|(i & level' & <- & Hs)].
    + unfold new_level in Hr. rewrite sort_by_perm, elem_of_app in Hr. destruct Hr as [Hr|?]; [left|by right].
      apply remove_numbers_elem in Hr as [Hr _]. by apply level_at_refs in Hr.
    + left. apply (level_at_refs i). by eapply elem_of_sublist.
Qed.

Lemma compacted_numbers : numbers_ok (set_current (compacted c outs v) d).
Proof using Hd Hpick Hout Hold Hn1.
  destruct compacted_levels as (Hl & _ & _). destruct (di_numbers _ _ Hd) as [N1 N2 N3]. split; [| |exact N3].
  - eapply Forall_impl; [exact Hl|]. intros level [->|(i & level' & <- & Hs)]; [apply new_level_numbers|].
    eapply sublist_NoDup; [apply (level_at_numbers i)|]. by apply sublist_fmap.
  - rewrite Forall_forall in N2 |- *. intros r [Hr|Hr]%compacted_refs; [by apply N2|].
    pose proof (op_fresh _ _ _ _ _ _ Hout) as H. rewrite Forall_forall in H. specialize (H r Hr).
    cbn [next_file_number_ set_current]. cbn beta in H. lia.
Qed.

Lemma compacted_inv : db_inv (set_current (compacted c outs v) d) hist.
Proof using Hd Hpick Hout Hold Hn1 Hlo.
  assert (stacked (layers (set_current (compacted c outs v) d)) ∧
    (∀ w, w ∈ concat (layers (set_current (compacted c outs v) d)) → w ∈ concat (layers d)) ∧
    same_reads (lowest d) (concat (layers (set_current (compacted c outs v) d))) (concat (layers d))) as (H1 & H2 & H3).
  { destruct (source_level c) as [i|] eqn:Es; [by apply (level_layers i)|by apply l0_layers]. }
  apply set_current_inv; [done|apply compacted_version_ok| |done|done|done|apply compacted_numbers].
  destruct compacted_levels as (_ & _ & ->). apply Hd.
Qed.

Lemma compact_install_spec env :
  ∃ s d', compact_install env c outs d = (s, d') ∧ db_inv d' hist ∧ current_ d' = compacted c outs v ∧
    files_only (set_current (compacted c outs v) d) d'.
Proof using Hd Hpick Hout Hold Hn1 Hlo.
  unfold compact_install. fold v. set (d1 := set_current _ d). pose proof (compacted_inv : db_inv d1 hist) as Hinv.
  destruct (WriteManifest_keeps (ce_manifest env) d1) as (s & f & ->).
  assert (∀ d', files_only d1 d' → db_inv d' hist) as Hf by (intros d' Hf; eapply same_data_inv; [apply Hf|done]).
  destruct (ok s); cbn [negb]; eexists _, _; (split; [done|]); (split; [|split; [done|]]); try apply Hf; by split.
Qed.

End install.
