(* ===== verification/DbValues.v ===== *)
(** * Separated values

    What a stored value stands for ([den]): itself, or the bytes a value
    pointer selects in a value log.  Writing stores something that stands for
    the value ([separate_spec]) and takes nothing away from older pointers;
    resolving gives the value back or reports an error, whatever the reads
    transfer and whatever the cache holds ([resolve_spec]). *)

From S2P Require Import Prelude Status FsUtil Encoding VLog LruCache InternalKey Mvcc Layers Iterator Block.
From S2P Require Import SSTable SkipList MemTable Merge Db DbRead DbInv.
Import db.

(** The value is in the log, where the pointer says. *)
Definition points_at (vs : Vsep) (stored value : bytes) : Prop :=
  ∃ p vl key, DecodeValuePointer stored = Some p ∧ find_vlog (vlog_number p) (vlogs_ vs) = Some vl ∧
    vlog.stored_at vl (offset p) key value ∧ value_size p = len value ∧ len key < 2 ^ 32 ∧ len value < 2 ^ 32.

Definition den (vs : Vsep) (stored value : bytes) : Prop :=
  if vsep_enabled_ vs && pointer_shaped stored then points_at vs stored value else stored = value.

(** What a read of the store finds, against what its user is to see. *)
Definition stands_for (vs : Vsep) (found value : option bytes) : Prop :=
  match found with
  | Some stored => ∃ x, value = Some x ∧ den vs stored x
  | None => value = None
  end.

(** A cached value is the right one, unless its log has been retired; a retired
    number is not used again. *)
Definition cached_ok (next : Z) (vs : Vsep) (stored value : bytes) : Prop :=
  points_at vs stored value ∨
  ∃ p, DecodeValuePointer stored = Some p ∧ find_vlog (vlog_number p) (vlogs_ vs) = None ∧ vlog_number p < next.

Record values_ok (next : Z) (vs : Vsep) : Prop := {
  vo_logs : Forall (λ v, vlog.vlog_ok v ∧ 0 ≤ vlog.number_ v < next) (vlogs_ vs);
  vo_numbers : NoDup (vlog.number_ <$> vlogs_ vs);
  vo_current : vsep_enabled_ vs = true → is_Some (current_vlog vs);
  vo_cache : ∃ ls, cache_repr len 16 (Z.shiftl 32 20) (Z.shiftl 2 20) (vlog_cache_ vs) ls ∧
    ∀ i k x, (k, x) ∈ ls i → cached_ok next vs k x
}.

Lemma values_ok_wf next vs : values_ok next vs → vsep_wf vs.
Proof. intros [_ _ Hc (ls & Hl & _)]. split; [done|by exists ls]. Qed.

Lemma find_vlog_ok next vs n vl :
  values_ok next vs → find_vlog n (vlogs_ vs) = Some vl → vlog.vlog_ok vl ∧ vlog.number_ vl = n ∧ 0 ≤ n < next.
Proof.
  intros Hv Hf. destruct (find_vlog_Some _ _ _ Hf) as [Hin Hn]. pose proof (vo_logs _ _ Hv) as Hl.
  rewrite Forall_forall in Hl. destruct (Hl vl Hin). by subst n.
Qed.

(** What a pointer selects is unique. *)
Lemma points_at_unique next vs stored x y :
  values_ok next vs → points_at vs stored x → points_at vs stored y → x = y.
Proof.
  intros Hv (p & vl & k & Hd & Hf & Hst & Hs & Hk & Hx) (p' & vl' & k' & Hd' & Hf' & Hst' & Hs' & Hk' & Hy).
  assert (p' = p) as -> by congruence. assert (vl' = vl) as -> by congruence.
  destruct (find_vlog_ok _ _ _ _ Hv Hf) as (Hok & _).
  pose proof (vlog.ReadValue_stored (IoBytes (2 ^ 64)) (IoBytes (2 ^ 64)) vl (offset p) k x Hok Hk Hx Hst eq_refl) as R1.
  pose proof (vlog.ReadValue_stored (IoBytes (2 ^ 64)) (IoBytes (2 ^ 64)) vl (offset p) k' y Hok Hk' Hy Hst' eq_refl) as R2.
  assert (∀ a b : bytes, len a < 2 ^ 32 → len b < 2 ^ 32 → vlog.transfers (IoBytes (2 ^ 64)) (len a + len b) = true) as Ht.
  { intros a b Ha Hb. apply Z.leb_le. lia. }
  specialize (R1 (Ht _ _ Hk Hx)). specialize (R2 (Ht _ _ Hk' Hy)).
  rewrite <- Hs in R1. rewrite <- Hs' in R2. congruence.
Qed.

(** ** Appending *)

(** Every log is still there, and has at most grown. *)
Definition logs_grow (vs vs' : Vsep) : Prop :=
  vsep_enabled_ vs' = vsep_enabled_ vs ∧
  ∀ n, match find_vlog n (vlogs_ vs), find_vlog n (vlogs_ vs') with
       | Some v, Some v' => ∃ out, vlog.v_file v' = vlog.v_file v ++ out
       | None, None => True
       | _, _ => False
       end.

Lemma logs_grow_refl vs : logs_grow vs vs.
Proof. split; [done|]. intros n. destruct (find_vlog n (vlogs_ vs)) as [v|]; [|done]. exists []. by rewrite app_nil_r. Qed.

Lemma points_at_grow vs vs' stored value : logs_grow vs vs' → points_at vs stored value → points_at vs' stored value.
Proof.
  intros [_ Hg] (p & vl & k & Hd & Hf & Hst & Hs & Hk & Hx). specialize (Hg (vlog_number p)). rewrite Hf in Hg.
  destruct (find_vlog _ (vlogs_ vs')) as [vl'|] eqn:Hf'; [|done]. destruct Hg as [out Ho].
  exists p, vl', k. split_and!; try done. by eapply vlog.stored_at_mono.
Qed.

Lemma den_grow vs vs' stored value : logs_grow vs vs' → den vs stored value → den vs' stored value.
Proof.
  intros Hg. unfold den. rewrite (proj1 Hg). destruct (_ && _); [by apply points_at_grow|done].
Qed.

Lemma cached_ok_grow next next' vs vs' stored value :
  next ≤ next' → logs_grow vs vs' → cached_ok next vs stored value → cached_ok next' vs' stored value.
Proof.
  intros Hn Hg [Hp|(p & Hd & Hf & Hlt)]; [left; by eapply points_at_grow|right]. exists p. split_and!; [done| |lia].
  destruct Hg as [_ Hg]. specialize (Hg (vlog_number p)). rewrite Hf in Hg. by destruct (find_vlog _ (vlogs_ vs')).
Qed.

Lemma find_update_other n l v : vlog.number_ v ≠ n → find_vlog n (update_vlog v l) = find_vlog n l.
Proof.
  intros Hn. induction l as [|u l IH]; [done|]. cbn. destruct (Z.eqb_spec (vlog.number_ u) (vlog.number_ v)) as [E|E].
  - rewrite (proj2 (Z.eqb_neq _ _) Hn). rewrite E, (proj2 (Z.eqb_neq _ _) Hn). exact IH.
  - destruct (vlog.number_ u =? n); [done|exact IH].
Qed.

Lemma update_grow vs cur cur' current out :
  find_vlog (vlog.number_ cur) (vlogs_ vs) = Some cur → vlog.number_ cur' = vlog.number_ cur →
  vlog.v_file cur' = vlog.v_file cur ++ out → logs_grow vs (set_vlogs (update_vlog cur' (vlogs_ vs)) current vs).
Proof.
  intros Hf Hn Ho. split; [done|]. intros n. cbn [vlogs_ set_vlogs]. destruct (decide (vlog.number_ cur' = n)) as [<-|Hne].
  - rewrite Hn, Hf. rewrite (find_vlog_update _ _ cur cur' Hf Hn). by exists out.
  - rewrite (find_update_other _ _ _ Hne). destruct (find_vlog n (vlogs_ vs)) as [v|]; [|done]. exists []. by rewrite app_nil_r.
Qed.

Lemma update_numbers v l : vlog.number_ <$> update_vlog v l = vlog.number_ <$> l.
Proof.
  unfold update_vlog. rewrite <- list_fmap_compose. apply list_fmap_ext. intros i u _. cbn.
  destruct (Z.eqb_spec (vlog.number_ u) (vlog.number_ v)); congruence.
Qed.

Lemma find_current vs cur : current_vlog vs = Some cur → find_vlog (vlog.number_ cur) (vlogs_ vs) = Some cur.
Proof.
  unfold current_vlog. destruct (vlog_current_ vs) as [n|]; [|done]. cbn [mbind option_bind]. intros Hf.
  by destruct (find_vlog_Some _ _ _ Hf) as [_ ->].
Qed.

(** The current log after an append. *)
Lemma update_values_ok next vs cur cur' out :
  values_ok next vs → current_vlog vs = Some cur → vlog.number_ cur' = vlog.number_ cur → vlog.vlog_ok cur' →
  vlog.v_file cur' = vlog.v_file cur ++ out →
  values_ok next (set_vlogs (update_vlog cur' (vlogs_ vs)) (vlog_current_ vs) vs).
Proof.
  intros Hv Hc Hn Hok Ho. pose proof (find_current _ _ Hc) as Hf.
  pose proof (update_grow vs cur cur' (vlog_current_ vs) out Hf Hn Ho) as Hg.
  destruct (find_vlog_ok _ _ _ _ Hv Hf) as (_ & _ & Hr). destruct Hv as [H1 H2 H3 (ls & H4 & H5)]. split; cbn [vlogs_ set_vlogs].
  - unfold update_vlog. apply Forall_fmap. eapply Forall_impl; [exact H1|]. intros u Hu. simpl.
    destruct (_ =? _); [|done]. split; [done|]. by rewrite Hn.
  - by rewrite update_numbers.
  - intros _. rewrite (current_vlog_update cur vs cur' Hc Hn). by eexists.
  - exists ls. split; [done|]. intros i k x Hin. eapply cached_ok_grow; [|exact Hg|by eapply H5]. lia.
Qed.

Lemma pointer_shaped_Encode p : pointer_shaped (EncodeValuePointer p) = true.
Proof.
  unfold pointer_shaped, EncodeValuePointer.
  assert (len ([kValuePointerTag] ++ PutFixed64 (vlog_number p) ++ PutFixed64 (offset p) ++ PutFixed32 (value_size p))
          = kValuePointerSize) as ->.
  { rewrite !len_app, !len_PutFixed64, len_PutFixed32. done. }
  rewrite Z.eqb_refl. by apply bool_decide_eq_true_2.
Qed.

Lemma Append_grows w l v k x :
  ∃ out, vlog.v_file (vlog.Append w l v k x).1.1.2 = vlog.v_file v ++ out.
Proof. destruct (vlog.Append_file w l v k x) as (out & H & _). by exists out. Qed.

(** What [separate] changes of the state. *)
Record separate_frame (d d' : DB) : Prop := {
  sf_data : same_data d d';
  sf_fs : fs d' = fs d;
  sf_dir : dir_ d' = dir_ d;
  sf_next_file : next_file_number_ d' = next_file_number_ d
}.

(** There is room in the current log for one more entry. *)
Definition log_room (vs : Vsep) (n : Z) : Prop := Forall (λ v, len (vlog.v_file v) + 12 + n < 2 ^ 63) (vlogs_ vs).

Section separate.
Context (d : DB) (env : entry_env) (key value : bytes).
Let vs : Vsep := vsep_ d.
Hypothesis Hv : values_ok (next_file_number_ d) vs.
Hypothesis Hseek : ee_lseek env = true.
Hypothesis Hk : len key < 2 ^ 32.
Hypothesis Hx : len value < 2 ^ 32.
Hypothesis Hroom : log_room vs (len key + len value).
Hypothesis Hnext : next_file_number_ d ≤ 2 ^ 64.

Lemma separate_spec type :
  ∃ s stored d', separate env type key value d = Some (s, stored, d') ∧ separate_frame d d' ∧
    values_ok (next_file_number_ d) (vsep_ d') ∧ logs_grow vs (vsep_ d') ∧
    (ok s = true → den (vsep_ d') stored value ∨ type ≠ kTypeValue) .
Proof using Hv Hseek Hk Hx Hroom Hnext.
  unfold separate. fold vs. destruct (separated type value vs) eqn:Es.
  2:{ eexists _, _, _. split_and!; [done|by split|done|apply logs_grow_refl|]. intros _.
      destruct (Z.eqb_spec type kTypeValue) as [->|]; [left|by right]. unfold den. fold vs. unfold separated in Es.
      rewrite Z.eqb_refl in Es. cbn [andb] in Es. destruct (vsep_enabled_ vs); cbn [andb] in *; [|done].
      apply orb_false_iff in Es as [_ ->]. done. }
  assert (vsep_enabled_ vs = true) as He.
  { unfold separated in Es. destruct (vsep_enabled_ vs); [done|]. by rewrite andb_false_r in Es. }
  destruct (vo_current _ _ Hv He) as [cur Hc]. rewrite Hc. cbn [mbind option_bind]. rewrite Hseek.
  pose proof (find_current _ _ Hc) as Hf. destruct (find_vlog_ok _ _ _ _ Hv Hf) as (Hok & _ & Hnr).
  destruct (find_vlog_Some _ _ _ Hf) as [Hin _]. pose proof Hroom as Hroom'. unfold log_room in Hroom'.
  rewrite Forall_forall in Hroom'. specialize (Hroom' cur Hin). cbn beta in Hroom'.
  pose proof (vlog.Append_ok (ee_vlog_writes env) cur key value Hok ltac:(lia)) as Ha.
  pose proof (Append_number (ee_vlog_writes env) true cur key value) as Hn.
  pose proof (Append_grows (ee_vlog_writes env) true cur key value) as (out & Ho).
  destruct (vlog.Append _ _ cur key value) as [[[s cur'] off] n]. cbn [fst snd] in *. destruct Ha as (Hok' & Hoff & Hst).
  pose proof (update_values_ok _ _ _ _ _ Hv Hc Hn Hok' Ho) as Hv'.
  pose proof (update_grow vs cur cur' (vlog_current_ vs) out Hf Hn Ho) as Hg.
  destruct (ok s) eqn:E; cbn [negb].
  2:{ eexists _, _, _. split_and!; [done| |done|done|by rewrite E]. split; [|done..]. split; try done; try lia.
      intros _. by apply values_ok_wf in Hv'. }
  destruct (Hst eq_refl) as (Hs & _ & _). eexists _, _, _. split_and!; [done| |exact Hv'|exact Hg|].
  { split; [|done..]. split; try done; try lia. intros _. by apply values_ok_wf in Hv'. }
  intros _. left. unfold den. cbn [vsep_ set_stats set_vsep set_wal]. cbn [vsep_enabled_ set_vlogs]. fold vs. rewrite He, pointer_shaped_Encode.
  cbn [andb]. exists (mkValuePointer (vlog.number_ cur) off (u32 (len value))), cur', key. cbn [vlog_number offset value_size].
  pose proof (len_nonneg value). pose proof (vlog.vo_size _ Hok). pose proof (len_nonneg (vlog.v_file cur)).
  assert (u32 (len value) = len value) as Eu by (apply u32_small; lia).
  split_and!; [|by apply (find_vlog_update _ _ cur)|done|done|done|done].
  apply DecodeValuePointer_Encode; cbn [vlog_number offset value_size]; [lia|lia|rewrite Eu; lia].
Qed.

End separate.

(** ** Resolving *)

(** Only the cache differs. *)
Definition cache_only (d d' : DB) : Prop := ∃ c, d' = set_vsep (set_cache c (vsep_ d)) d.

Lemma cache_only_refl d : cache_only d d.
Proof. exists (vlog_cache_ (vsep_ d)). by destruct d as [? ? ? ? ? ? ? ? ? ? ? ? []]. Qed.

Lemma cache_only_trans a b c : cache_only a b → cache_only b c → cache_only a c.
Proof. intros [x ->] [y ->]. by exists y. Qed.

(** Both reads of a value transfer all they are asked for. *)
Definition io_whole (io : io_outcome * io_outcome) : Prop :=
  vlog.transfers io.1 12 = true ∧ vlog.transfers io.2 (2 ^ 33) = true.

Lemma transfers_less o a b : a ≤ b → vlog.transfers o b = true → vlog.transfers o a = true.
Proof. destruct o; [|done..]. cbn. rewrite !Z.leb_le. lia. Qed.

Lemma set_cache_ok next vs c ls :
  values_ok next vs → cache_repr len 16 (Z.shiftl 32 20) (Z.shiftl 2 20) c ls →
  (∀ i k x, (k, x) ∈ ls i → cached_ok next vs k x) → values_ok next (set_cache c vs).
Proof. intros [H1 H2 H3 _] Hc Hl. split; try done. by exists ls. Qed.

Lemma assoc_elem (l : list (bytes * bytes)) k x : assoc l k = Some x → (k, x) ∈ l.
Proof.
  unfold assoc. induction l as [|[k' x'] l IH]; [done|]. cbn. case_bool_decide as Ek.
  - cbn. intros [= ->]. cbn in Ek. subst k'. apply list_elem_of_here.
  - intros H. apply list_elem_of_further. exact (IH H).
Qed.

Section resolve.
Context (hash : bytes → Z) (next : Z) (vs : Vsep) (Hv : values_ok next vs).

(** A lookup keeps the cache right, and what it finds is right. *)
Lemma cache_get_ok k :
  ∃ r c, LruCache.Get hash (vlog_cache_ vs) k = Some (r, c) ∧ values_ok next (set_cache c vs) ∧
    ∀ x, r = Some x → cached_ok next vs k x.
Proof using Hv.
  destruct (vo_cache _ _ Hv) as (ls & Hl & Hok).
  destruct (Get_refines hash len 16 (Z.shiftl 32 20) (Z.shiftl 2 20) (vlog_cache_ vs) ls k ltac:(lia) Hl) as (c & E & Hc).
  set (i := hash k mod 16) in *. eexists _, c. split; [exact E|].
  split.
  - eapply set_cache_ok; [done|exact Hc|]. intros j k' x'. simpl. destruct (Z.eqb_spec j i) as [->|]; [|apply Hok].
    unfold spec_get. destruct (assoc (ls i) k) as [y|] eqn:Ea; [|apply Hok].
    intros [[= -> ->]|Hin]%elem_of_cons; [by eapply Hok, assoc_elem|].
    apply list_elem_of_filter in Hin as [_ Hin]. by eapply Hok.
  - intros x Ex. eapply Hok. by apply assoc_elem.
Qed.

Lemma fitting_sub budget (l : list (bytes * bytes)) p : p ∈ fitting len budget l → p ∈ l.
Proof using.
  revert budget. induction l as [|q l IH]; intros budget; [done|]. cbn [fitting].
  destruct (_ <=? _); [|by intros ?%not_elem_of_nil]. intros [->|Hp]%elem_of_cons; [apply list_elem_of_here|].
  apply list_elem_of_further. by eapply IH.
Qed.

Lemma cache_put_ok k x :
  points_at vs k x → ∃ c, LruCache.Put hash len (vlog_cache_ vs) k x = Some c ∧ values_ok next (set_cache c vs).
Proof using Hv.
  intros Hp. destruct (vo_cache _ _ Hv) as (ls & Hl & Hok).
  destruct (Put_refines hash len (λ v, len_nonneg v) 16 (Z.shiftl 32 20) (Z.shiftl 2 20) (vlog_cache_ vs) ls k x) as (c & E & Hc);
    [lia|done|done|done|].
  exists c. split; [exact E|]. set (i := hash k mod 16) in *.
  eapply set_cache_ok; [done|exact Hc|]. intros j k' x'. simpl. destruct (Z.eqb_spec j i) as [->|]; [|apply Hok].
  unfold spec_put. destruct (_ <? _); [apply Hok|]. intros Hin%fitting_sub.
  apply elem_of_cons in Hin as [[= -> ->]|Hin]; [by left|]. apply list_elem_of_filter in Hin as [_ Hin]. by eapply Hok.
Qed.

End resolve.

Section resolve_pointer.
Context (hash : bytes → Z) (next : Z) (d : DB) (Hv : values_ok next (vsep_ d)).

Lemma resolve_spec io stored value :
  den (vsep_ d) stored value →
  ∃ s r d', MaybeResolvePointer hash io stored d = Some (s, r, d') ∧ cache_only d d' ∧ values_ok next (vsep_ d') ∧
    (ok s = true → r = value) ∧ (io_whole io → ok s = true).
Proof using Hv.
  unfold den, MaybeResolvePointer. destruct (vsep_enabled_ (vsep_ d)); cbn [negb andb].
  2:{ intros ->. eexists _, _, _. split_and!; [done|apply cache_only_refl|done..]. }
  destruct (pointer_shaped stored); cbn [negb].
  2:{ intros ->. eexists _, _, _. split_and!; [done|apply cache_only_refl|done..]. }
  intros Hp. pose proof Hp as (p & vl & key & Ed & Ef & Hst & Hs & Hk & Hx). rewrite Ed.
  destruct (cache_get_ok hash next (vsep_ d) Hv stored) as (cached & c & -> & Hc & Hcached). cbn [mbind option_bind].
  destruct cached as [x|].
  - eexists _, _, _. split_and!; [done|by exists c|done| |done]. intros _.
    destruct (Hcached x eq_refl) as [Hpx|(p' & Ed' & Ef' & _)]; [by eapply points_at_unique|].
    rewrite Ed in Ed'. injection Ed' as <-. congruence.
  - unfold VLogFor. rewrite Ef. destruct (find_vlog_ok _ _ _ _ Hv Ef) as (Hok & _).
    destruct (vlog.ReadValue_any io.1 io.2 vl (offset p) key value Hok Hk Hx Hst) as (s & r & Er & Hr).
    rewrite Hs, Er. cbn [mbind option_bind].
    assert (io_whole io → ok s = true) as Hwhole.
    { intros [W1 W2]. rewrite (vlog.ReadValue_stored io.1 io.2 vl (offset p) key value Hok Hk Hx Hst W1) in Er; [by injection Er as <- _|].
      eapply transfers_less; [|exact W2]. lia. }
    destruct (ok s) eqn:E; cbn [negb].
    + rewrite (Hr eq_refl). change (default [] (Some value)) with value. cbv zeta.
      destruct (cache_put_ok hash next (set_cache c (vsep_ d)) Hc stored value) as (c2 & E2 & Hc2); [exact Hp|].
      cbn [vlog_cache_ set_cache] in E2. rewrite E2. cbn [mbind option_bind].
      eexists _, _, _. split_and!; [done|by exists c2|exact Hc2|done|done].
    + eexists _, _, _. split_and!; [done|apply cache_only_refl|done|by rewrite E|by rewrite E].
Qed.

End resolve_pointer.
