(* ===== verification/DbScan.v ===== *)
(** * Range scans

    [Scan] merges the memtables and the tables that can hold keys of the range
    and reports, in key order, the newest visible version of every key that is
    not a deletion.  [Scan_in_spec] shows that the pairs it reports are exactly
    the pairs point reads of the same view would find. *)

From Stdlib Require Import Sorting.Sorted.
From S2P Require Import Prelude Status FsUtil Encoding VLog LruCache InternalKey Mvcc Layers Iterator Block.
From S2P Require Import SSTable SkipList MemTable Merge Db DbRead DbInv DbMerge DbCompact DbValues.
Import db.

(** ** What the loop reports *)

(** The keys and stored values reported, with the state the loop carries. *)
Fixpoint emits (hi : bytes) (s : Z) (user : option bytes) (emitted : bool) (vs : list version) : list (bytes * bytes) :=
  match vs with
  | [] => []
  | v :: vs =>
      if negb (bytes_ltb (v_key v) hi) then []
      else
        let emitted := if bool_decide (user = Some (v_key v)) then emitted else false in
        let visible := negb emitted && (v_seq v <=? s) in
        (if visible && (v_type v =? kTypeValue) then [(v_key v, v_value v)] else [])
        ++ emits hi s (Some (v_key v)) (emitted || visible) vs
  end.

Lemma version_le_trans_keys v vs k :
  Forall (version_le v) vs → ∀ w, w ∈ v :: vs → v_key w = k → bytes_ltb k (v_key v) = false.
Proof.
  intros Hf w [->|Hw]%elem_of_cons <-; [apply sw_irrefl|]. rewrite Forall_forall in Hf. by apply version_le_keys, Hf.
Qed.

Lemma read_cons_other v vs k s : v_key v ≠ k → read (v :: vs) k s = read vs k s.
Proof.
  intros Hk. unfold read. cbn [newest]. destruct (sees k s v) eqn:E; [|done]. by apply sees_spec in E as [? _].
Qed.

Lemma read_cons_hidden v vs k s : s < v_seq v → read (v :: vs) k s = read vs k s.
Proof.
  intros Hk. unfold read. cbn [newest]. destruct (sees k s v) eqn:E; [|done]. apply sees_spec in E as [_ ?]. lia.
Qed.

(** The first visible version of a key in a merge is its newest. *)
Lemma read_cons_first v vs s :
  Forall (version_le v) vs → v_seq v ≤ s → read (v :: vs) (v_key v) s = lookup_of (Some v).
Proof.
  intros Hf Hs. unfold read. cbn [newest].
  rewrite (proj2 (sees_spec (v_key v) s v)) by done. destruct (newest (v_key v) s vs) as [w|] eqn:E; [|done].
  apply newest_Some in E as (Hw & [Hk _]%sees_spec & _). rewrite Forall_forall in Hf.
  destruct (Hf w Hw) as [Hlt|[_ Hle]].
  - by rewrite Hk, (sw_irrefl (lt := bytes_ltb)) in Hlt.
  - by rewrite (proj2 (Z.ltb_ge _ _)) by lia.
Qed.

Lemma read_found_elem vs k s x : read vs k s = kFound x → ∃ v, v ∈ vs ∧ v_key v = k.
Proof.
  unfold read. destruct (newest k s vs) as [v|] eqn:E; [|done]. intros _.
  apply newest_Some in E as (Hv & [Hk _]%sees_spec & _). by exists v.
Qed.

Lemma emits_keys hi s user emitted vs k x : (k, x) ∈ emits hi s user emitted vs → ∃ v, v ∈ vs ∧ v_key v = k.
Proof.
  revert user emitted. induction vs as [|v vs IH]; intros user emitted; cbn [emits]; [by intros ?%not_elem_of_nil|].
  destruct (negb _); [by intros ?%not_elem_of_nil|]. cbv zeta. rewrite elem_of_app. intros [Hin|Hin].
  - destruct (_ && _) in Hin; [|by apply not_elem_of_nil in Hin]. apply list_elem_of_singleton in Hin as [= -> ->].
    exists v. split; [apply list_elem_of_here|done].
  - destruct (IH _ _ Hin) as (w & Hw & Hk). exists w. split; [by apply list_elem_of_further|done].
Qed.

(** Nothing of [vs] comes before the user key the loop is at. *)
Definition from_user (user : option bytes) (vs : list version) : Prop :=
  ∀ u v, user = Some u → v ∈ vs → bytes_ltb (v_key v) u = false.

Lemma from_user_next v vs : Forall (version_le v) vs → from_user (Some (v_key v)) vs.
Proof. intros Hf u w [= <-] Hw. rewrite Forall_forall in Hf. by apply version_le_keys, Hf. Qed.

(** What one step reports. *)
Lemma step_elem (b : bool) v k x :
  (k, x) ∈ (if b && (v_type v =? kTypeValue) then [(v_key v, v_value v)] else []) ↔
  b = true ∧ k = v_key v ∧ lookup_of (Some v) = kFound x.
Proof.
  cbn [lookup_of]. destruct b; cbn [andb]; [|rewrite elem_of_nil; naive_solver].
  destruct (v_type v =? kTypeValue); [rewrite list_elem_of_singleton|rewrite elem_of_nil]; naive_solver.
Qed.

(** The pairs reported are the pairs point reads find, except that the current
    user key is done with once a visible version of it has been passed. *)
Lemma emits_elem hi s vs k x user emitted :
  StronglySorted version_le vs → from_user user vs →
  (k, x) ∈ emits hi s user emitted vs ↔
  bytes_ltb k hi = true ∧ ¬ (user = Some k ∧ emitted = true) ∧ read vs k s = kFound x.
Proof.
  intros Hs. revert user emitted. induction Hs as [|v vs Hs IH Hv]; intros user emitted Hfrom; cbn [emits].
  { rewrite elem_of_nil. split; [done|]. by intros (_ & _ & ?). }
  destruct (bytes_ltb (v_key v) hi) eqn:Ehi; cbn [negb].
  2:{ rewrite elem_of_nil. split; [done|]. intros (Hk & _ & Hr). apply read_found_elem in Hr as (w & Hw & Hkw).
      pose proof (version_le_trans_keys v vs k Hv w Hw Hkw) as Hge.
      by rewrite (sw_le_lt_trans bytes_ltb _ _ _ Hge Hk) in Ehi. }
  cbv zeta. set (e := if bool_decide (user = Some (v_key v)) then emitted else false).
  assert (e = true ↔ user = Some (v_key v) ∧ emitted = true) as He.
  { unfold e. destruct (decide (user = Some (v_key v))) as [Hu|Hu];
      [rewrite bool_decide_eq_true_2 by done|rewrite bool_decide_eq_false_2 by done]; naive_solver. }
  clearbody e. rewrite elem_of_app, step_elem, IH by (by apply from_user_next).
  destruct (decide (v_key v = k)) as [<-|Hne].
  - rewrite <- He. destruct (Z.leb_spec (v_seq v) s) as [Hle|Hgt].
    + rewrite (read_cons_first v vs s Hv Hle). clear -Ehi. destruct e; cbn; intuition congruence.
    + rewrite (read_cons_hidden v vs _ s Hgt). clear. destruct e; cbn; intuition congruence.
  - rewrite (read_cons_other v vs k s Hne). split.
    + intros [(_ & ? & _)|(H1 & _ & H3)]; [congruence|]. split_and!; [done| |done]. intros [-> ->].
      apply read_found_elem in H3 as (w & Hw & Hkw).
      pose proof (Hfrom k v eq_refl (list_elem_of_here _ _)) as Hge.
      pose proof (from_user_next v vs Hv (v_key v) w eq_refl Hw) as Hge'. rewrite Hkw in Hge'.
      apply Hne, (bytes_ltb_total _ _ Hge Hge').
    + intros (H1 & _ & H3). right. split_and!; [done|by intros [[= ?] _]|done].
Qed.

(** The keys reported ascend strictly, so no key is reported twice. *)
Lemma emits_ascend hi s vs user emitted :
  StronglySorted version_le vs →
  StronglySorted (λ p q : bytes * bytes, bytes_ltb p.1 q.1 = true) (emits hi s user emitted vs).
Proof.
  intros Hs. revert user emitted. induction Hs as [|v vs Hs IH Hv]; intros user emitted; cbn [emits]; [constructor|].
  destruct (negb _); [constructor|]. cbv zeta. destruct (_ && (v_type v =? _)) eqn:E; [|apply IH].
  apply andb_true_iff in E as [E _]. rewrite E, orb_true_r. constructor; [apply IH|].
  rewrite Forall_forall. intros [k x] Hin. cbn [fst]. pose proof (emits_keys _ _ _ _ _ _ _ Hin) as (w & Hw & Hk).
  rewrite emits_elem in Hin by (done || by apply from_user_next). destruct Hin as (_ & Hn & _).
  pose proof (from_user_next v vs Hv _ w eq_refl Hw) as Hge. rewrite Hk in Hge.
  destruct (bytes_ltb (v_key v) k) eqn:Elt; [done|]. destruct Hn. split; [|done]. f_equal. by apply bytes_ltb_total.
Qed.

(** ** The loop *)

Lemma cache_only_den d d' : cache_only d d' → ∀ stored value, den (vsep_ d') stored value ↔ den (vsep_ d) stored value.
Proof. by intros [c ->]. Qed.

Lemma io_head_whole ios : Forall io_whole ios → io_whole (io_head ios).
Proof. intros H. destruct H; [split; apply Z.leb_le; vm_compute; discriminate|done]. Qed.

Section loop.
Context (hash : bytes → Z) (next : Z) (hi : bytes) (s : Z).

(** The pairs reported, resolved. *)
Definition resolves (d : DB) (stored reported : bytes * bytes) : Prop :=
  reported.1 = stored.1 ∧ den (vsep_ d) stored.2 reported.2.

(** The loop passes a prefix of [L] to the callback, all of it unless a read of
    a value log fails. *)
Lemma scan_loop_spec fuel ios iter es user emitted out d L :
  walks iter es → (length es < fuel)%nat → values_ok next (vsep_ d) →
  Forall2 (resolves d) (emits hi s user emitted (version_of <$> es)) L →
  ∃ st res d', scan_loop hash fuel ios hi s iter user emitted out d = Some (st, res, d') ∧
    cache_only d d' ∧ values_ok next (vsep_ d') ∧ (∃ n, res = out ++ take n L) ∧
    (ok st = true → res = out ++ L) ∧ (Forall io_whole ios → ok st = true).
Proof.
  revert fuel ios iter user emitted out d L.
  induction es as [|p es IH]; intros [|fuel] ios iter user emitted out d L Hwk Hfu Hv Hall;
    try (cbn [length] in Hfu; lia); cbn [scan_loop].
  - change (merge_Valid iter = false) in Hwk. rewrite Hwk. inversion Hall; subst.
    eexists _, _, _. split_and!; [done|apply cache_only_refl|done|exists 0%nat; by rewrite app_nil_r|by rewrite app_nil_r|done].
  - destruct Hwk as (Hva & Hkv & iter' & Hn & Hwk). change (merge_Valid iter = true) in Hva.
    change ((merge_key iter, merge_value iter) = p) in Hkv. change (merge_Next iter = Some iter') in Hn.
    rewrite Hva. cbn [length] in Hfu. rewrite fmap_cons in Hall. cbn [emits] in Hall.
    assert (v_key (version_of p) = ExtractUserKey (merge_key iter)) as Ek by by rewrite <- Hkv.
    assert (v_seq (version_of p) = Z.shiftr (ExtractTag (merge_key iter)) 8) as Es by by rewrite <- Hkv.
    assert (v_type (version_of p) = Z.land (ExtractTag (merge_key iter)) 0xff) as Et by by rewrite <- Hkv.
    assert (v_value (version_of p) = merge_value iter) as Ev by by rewrite <- Hkv.
    rewrite Ek, Es, Et, Ev in Hall. clear Ek Es Et Ev Hkv. cbv zeta in *.
    destruct (negb (bytes_ltb _ hi)).
    { inversion Hall; subst. eexists _, _, _. split_and!; [done|apply cache_only_refl|done|exists 0%nat; by rewrite app_nil_r|by rewrite app_nil_r|done]. }
    set (e := if bool_decide _ then _ else _) in *. destruct (negb e && _) eqn:Evis; cbn [andb orb] in *.
    2:{ rewrite Hn. cbn [mbind option_bind app] in *. apply (IH fuel ios iter'); [done|lia|done..]. }
    rewrite orb_true_r in Hall. destruct (_ =? kTypeValue) in *; cbn [app] in Hall.
    2:{ rewrite Hn. cbn [mbind option_bind app] in *. rewrite orb_true_r. apply (IH fuel ios iter'); [done|lia|done..]. }
    inversion Hall as [|? [k x] ? L' [Hk Hx] Hrest]; subst. cbn [fst snd] in *. subst k.
    destruct (resolve_spec hash next d Hv (io_head ios) _ x Hx) as (st & r & d1 & -> & Hc1 & Hv1 & Hr & Hok).
    cbn [mbind option_bind]. destruct (ok st) eqn:Eo; cbn [negb].
    2:{ eexists _, _, _. split_and!; [done|done|done|exists 0%nat; by rewrite app_nil_r|congruence|].
        intros Hw%io_head_whole. by apply Hok in Hw. }
    rewrite (Hr eq_refl), Hn. cbn [mbind option_bind].
    destruct (IH fuel (tail ios) iter' (Some (ExtractUserKey (merge_key iter))) true (out ++ [(ExtractUserKey (merge_key iter), x)]) d1 L')
      as (st' & res & d' & E & Hc & Hv' & (n & Hpre) & Hfull & Hw); [done|lia|done| |].
    { eapply Forall2_impl; [exact Hrest|]. intros a b [? ?]. split; [done|]. by apply (cache_only_den d d1). }
    exists st', res, d'. rewrite E. split_and!; [done|by eapply cache_only_trans|done| | |].
    + exists (S n). cbn [take]. by rewrite Hpre, <- app_assoc.
    + intros Ho. by rewrite (Hfull Ho), <- app_assoc.
    + intros Hall'. apply Hw. destruct Hall'; [constructor|done].
Qed.

End loop.

(** ** The children *)

Lemma mem_repr_size m es : mem_repr m es → (length es ≤ length (nodes_ (list_ m)))%nat.
Proof.
  intros ((order & vis & Hinv & Hk & _) & _). pose proof (si_length _ _ _ _ Hinv).
  apply (f_equal length) in Hk. unfold keys in Hk. rewrite !length_fmap in Hk. lia.
Qed.

Lemma overlapping_sub level lo hi : overlapping level lo hi `sublist_of` level.
Proof.
  induction level as [|r level IH]; [done|]. cbn [overlapping]. destruct (bytes_ltb _ lo); [by apply sublist_cons|].
  destruct (negb _); [apply sublist_nil_l|by apply sublist_skip].
Qed.

(** No file of the level that can hold a key of the range is left out. *)
Lemma overlapping_elem level lo hi r :
  sorted_by before level → Forall ref_ok level → r ∈ level →
  bytes_ltb (largest r) lo = false → bytes_ltb (smallest r) hi = true → r ∈ overlapping level lo hi.
Proof.
  intros Hs Hok. induction level as [|r0 level IH]; [by intros ?%not_elem_of_nil|].
  destruct Hs as [Hb Hs]. inversion Hok as [|? ? Hok0 Hok']; subst. intros Hin Hl Hh. cbn [overlapping].
  fold (largest r0) (smallest r0). apply elem_of_cons in Hin as [->|Hin].
  - rewrite Hl, Hh. apply list_elem_of_here.
  - destruct (bytes_ltb (largest r0) lo); [by apply IH|]. rewrite Forall_forall in Hb. pose proof (Hb r Hin) as Hlt.
    assert (bytes_ltb (smallest r0) hi = true) as ->; [|by apply list_elem_of_further, IH].
    apply (sw_le_lt_trans bytes_ltb _ (largest r0)); [by apply ref_range_nonempty|]. eapply sw_trans; [exact Hlt|done].
Qed.

Lemma scan_tables_sub v lo hi : scan_tables v lo hi `sublist_of` version_refs v.
Proof.
  unfold scan_tables, version_refs. apply sublist_app; [done|]. induction (levels v) as [|level ls IH]; [done|].
  cbn. apply sublist_app; [apply overlapping_sub|exact IH].
Qed.

Lemma tables_size_sub rs rs' :
  rs `sublist_of` rs' →
  (foldr (λ r n, table_size (table r) + n) 0 rs ≤ foldr (λ r n, table_size (table r) + n) 0 rs')%nat.
Proof. induction 1; cbn; lia. Qed.

Lemma sublist_refs_ok rs rs' : rs `sublist_of` rs' → Forall ref_ok rs' → Forall ref_ok rs.
Proof. rewrite !Forall_forall. intros Hsub H r Hr. apply H. by eapply elem_of_sublist. Qed.

Section children.
Context (w : View) (Hmem : mem_ok (view_mem w)) (Himm : imm_ok (view_imm w)) (Hver : version_ok (view_version w)).

Lemma version_refs_ok : Forall ref_ok (version_refs (view_version w)).
Proof using Hver.
  unfold version_refs. apply Forall_app. split; [apply Hver|]. apply Forall_concat.
  eapply Forall_impl; [exact (vk_levels _ Hver)|]. by intros level [].
Qed.

(** The children stand for the memtables and the tables of the range, and the
    loop's fuel exceeds their number of entries. *)
Lemma scan_children_open lo hi :
  ∃ its runs, scan_children w lo hi = Some its ∧ Forall2 iter_open its runs ∧ Forall (Forall wf_entry) runs ∧
    version_of <$> concat runs
    = mem_versions (view_mem w) ++ imm_versions (view_imm w) ++ level_versions (scan_tables (view_version w) lo hi) ∧
    (length (concat runs) ≤ view_size w)%nat.
Proof using Hmem Himm Hver.
  pose proof (scan_tables_sub (view_version w) lo hi) as Hsub.
  assert (Forall ref_ok (scan_tables (view_version w) lo hi)) as Hrefs by (by eapply sublist_refs_ok; [exact Hsub|apply version_refs_ok]).
  destruct (table_iters_open _ Hrefs) as (its & E & Hopen). destruct Hmem as (es & Hr & Hwf).
  assert (∃ its' runs', match view_imm w with Some m => [inl (NewIterator m)] | None => [] end = its' ∧
    Forall2 (iter_open (I := (MemTableIterator + sst.TableIterator)%type)) its' runs' ∧ Forall (Forall wf_entry) runs' ∧
    version_of <$> concat runs' = imm_versions (view_imm w) ∧
    (length (concat runs') ≤ match view_imm w with Some m => length (nodes_ (list_ m)) | None => 0 end)%nat)
    as (its' & runs' & Ei & Hopen' & Hwf' & Hvs' & Hlen').
  { destruct (view_imm w) as [m|]; [|by exists [], []]. destruct Himm as (es' & Hr' & Hwf').
    exists [inl (NewIterator m)], [es']. split_and!; [done| |by repeat constructor| |].
    - constructor; [exact Hr'|constructor].
    - cbn [concat imm_versions]. rewrite app_nil_r. by rewrite (mem_versions_repr m es').
    - cbn [concat]. rewrite app_nil_r. by apply mem_repr_size. }
  exists (inl (NewIterator (view_mem w)) :: its' ++ its), (es :: runs' ++ (table_entries ∘ table <$> scan_tables (view_version w) lo hi)).
  split_and!.
  - unfold scan_children. by rewrite E, Ei.
  - constructor; [exact Hr|]. by apply Forall2_app.
  - constructor; [done|]. apply Forall_app. split; [done|]. apply Forall_fmap.
    eapply Forall_impl; [exact Hrefs|]. intros r. apply ref_wf.
  - cbn [concat]. rewrite concat_app, !fmap_app, Hvs', concat_entries. by rewrite (mem_versions_repr _ es).
  - cbn [concat]. rewrite concat_app, !length_app. unfold view_size. pose proof (mem_repr_size _ _ Hr).
    enough (length (concat (table_entries ∘ table <$> scan_tables (view_version w) lo hi))
      ≤ foldr (λ r n, table_size (table r) + n) 0 (version_refs (view_version w)))%nat by lia.
    etrans; [|by apply tables_size_sub]. by apply entries_size.
Qed.

End children.

(** ** The scan *)

(** The versions of a view, without the layering. *)
Lemma view_versions_elem mem imm v u :
  u ∈ concat (view_layers mem imm v)
  ↔ u ∈ mem_versions mem ∨ u ∈ imm_versions imm ∨ ∃ r, r ∈ version_refs v ∧ u ∈ ref_versions r.
Proof.
  unfold view_layers, version_layers. cbn [concat]. rewrite !elem_of_app, concat_app, elem_of_app.
  assert (u ∈ concat (ref_versions <$> l0 v) ∨ u ∈ concat (level_versions <$> levels v)
    ↔ ∃ r, r ∈ version_refs v ∧ u ∈ ref_versions r) as ->; [|done].
  change (concat (ref_versions <$> l0 v)) with (level_versions (l0 v)).
  rewrite <- level_versions_elem. unfold version_refs. rewrite level_versions_app, elem_of_app.
  assert (u ∈ concat (level_versions <$> levels v) ↔ u ∈ level_versions (concat (levels v))) as ->; [|done].
  induction (levels v) as [|level ls IH]; [done|]. rewrite fmap_cons. cbn [concat].
  by rewrite level_versions_app, !elem_of_app, IH.
Qed.

Section scan.
Context (w : View) (Hmem : mem_ok (view_mem w)) (Himm : imm_ok (view_imm w)) (Hver : version_ok (view_version w)).

Let all : list version := concat (view_layers (view_mem w) (view_imm w) (view_version w)).

(** A version with a key of the range is in a table of the range. *)
Lemma scan_tables_elem lo hi v :
  bytes_ltb (v_key v) lo = false → bytes_ltb (v_key v) hi = true →
  v ∈ level_versions (scan_tables (view_version w) lo hi) ↔ ∃ r, r ∈ version_refs (view_version w) ∧ v ∈ ref_versions r.
Proof using Hver.
  intros Hlo Hhi. rewrite level_versions_elem. split; intros (r & Hr & Hv); exists r; (split; [|done]).
  - eapply elem_of_sublist; [exact Hr|apply scan_tables_sub].
  - unfold scan_tables. unfold version_refs in Hr. rewrite elem_of_app in Hr |- *. destruct Hr as [Hr|Hr]; [by left|right].
    apply elem_of_concat in Hr as (level & Hl & Hr). pose proof (vk_levels _ Hver) as Hlv. rewrite Forall_forall in Hlv.
    destruct (Hlv _ Hl) as [Hrefs Hsort]. pose proof Hrefs as Hrefs'. rewrite Forall_forall in Hrefs'.
    destruct (ref_range r v (Hrefs' r Hr) Hv) as [Hs Hg].
    apply list_elem_of_join. exists (overlapping level lo hi). split; [|apply list_elem_of_fmap; by exists level].
    apply overlapping_elem; [done|done|done| |].
    + by eapply (sw_le_trans bytes_ltb); [|exact Hg].
    + by eapply (sw_le_lt_trans bytes_ltb); [exact Hs|].
Qed.

(** What a seek leaves of the runs. *)
Lemma seek_runs target runs :
  Forall keys_sorted runs →
  concat ((λ r, drop (first_ge target r) r) <$> runs)
  = filter (λ p, InternalKeyComparator p.1 target = false) (concat runs).
Proof using.
  induction 1 as [|run runs Hr _ IH]; [done|]. rewrite fmap_cons. cbn [concat].
  by rewrite filter_app, IH, first_ge_filter.
Qed.

Context (Hco : coherent all) (Hseq : read_seq (view_seq w)).

(** What a seek skips is below the range, or too new for it. *)
Lemma seek_keeps lo p :
  wf_entry p →
  InternalKeyComparator p.1 (seek_target lo (view_seq w)) = false ↔
  bytes_ltb (v_key (version_of p)) lo = false ∧ (v_key (version_of p) = lo → v_seq (version_of p) ≤ view_seq w).
Proof using Hseq.
  intros Hwf. rewrite (entry_less_seek p lo _ Hwf Hseq), orb_false_iff, andb_false_iff.
  destruct (bytes_eqb (v_key (version_of p)) lo) eqn:E.
  - apply bytes_eqb_eq in E. rewrite Z.ltb_ge. naive_solver.
  - assert (v_key (version_of p) ≠ lo) by (intros E'%bytes_eqb_eq; congruence). naive_solver.
Qed.

Lemma scan_versions lo hi runs es :
  Forall (Forall wf_entry) runs →
  version_of <$> concat runs
  = mem_versions (view_mem w) ++ imm_versions (view_imm w) ++ level_versions (scan_tables (view_version w) lo hi) →
  es ≡ₚ filter (λ p, InternalKeyComparator p.1 (seek_target lo (view_seq w)) = false) (concat runs) →
  ∀ k v, bytes_ltb k lo = false → bytes_ltb k hi = true → sees k (view_seq w) v = true → v ∈ version_of <$> es ↔ v ∈ all.
Proof using Hver Hseq.
  intros Hwf%Forall_concat Hvs Hes k v Hlo Hhi [Hk Hle]%sees_spec. subst k.
  unfold all. rewrite view_versions_elem, <- (scan_tables_elem lo hi v Hlo Hhi), <- !elem_of_app, <- Hvs.
  rewrite !list_elem_of_fmap. rewrite Forall_forall in Hwf. split; intros (p & -> & Hp); exists p; (split; [done|]).
  - rewrite Hes in Hp. by apply list_elem_of_filter in Hp as [_ Hp].
  - rewrite Hes. apply list_elem_of_filter. split; [|done]. apply seek_keeps; [by apply Hwf|done].
Qed.

Lemma scan_pairs lo hi :
  len lo < 2 ^ 32 - 8 →
  ∃ its iter es, scan_children w lo hi = Some its ∧
    merge_Seek (new_MergingIterator its) (seek_target lo (view_seq w)) = Some iter ∧ walks iter es ∧
    (length es ≤ view_size w)%nat ∧ StronglySorted version_le (version_of <$> es) ∧
    ∀ k x, (k, x) ∈ emits hi (view_seq w) None false (version_of <$> es) ↔
      bytes_ltb k lo = false ∧ bytes_ltb k hi = true ∧ read all k (view_seq w) = kFound x.
Proof using Hmem Himm Hver Hco Hseq.
  intros Hlo. destruct (scan_children_open w Hmem Himm Hver lo hi) as (its & runs & E & Hopen & Hwf & Hvs & Hlen).
  set (target := seek_target lo (view_seq w)).
  destruct (merge_moved_walks (new_MergingIterator its) (λ i, iter_Seek i target) (first_ge target) runs Hopen)
    as (iter & es & Ei & Hwk & Hp & Hs).
  { intros i run Ho. apply iter_at_seek; [done|]. unfold target, seek_target. slia. }
  rewrite seek_runs in Hp.
  2:{ clear -Hopen. revert Hopen. cbn [children_ new_MergingIterator]. induction 1 as [|i run ? ? Hi]; [constructor|].
      constructor; [exact (iter_open_sorted i run Hi)|done]. }
  assert (Forall wf_entry (concat runs)) as Hwf' by by apply Forall_concat.
  assert (∀ p, p ∈ es → p ∈ concat runs ∧ InternalKeyComparator p.1 target = false) as Hes.
  { intros p Hin. rewrite Hp in Hin. by apply list_elem_of_filter in Hin as [? ?]. }
  assert (StronglySorted version_le (version_of <$> es)) as Hsort.
  { apply weakly_sorted_versions; [done|]. rewrite Forall_forall in Hwf' |- *. intros p [Hin _]%Hes. by apply Hwf'. }
  exists its, iter, es. split_and!; [done|exact Ei|done| |done|].
  - rewrite Hp. etrans; [apply length_filter|done].
  - intros k x. rewrite emits_elem by done. split.
    + intros (Hhi & _ & Hr). assert (bytes_ltb k lo = false) as Hk.
      { apply read_found_elem in Hr as (v & (p & -> & Hin)%list_elem_of_fmap & <-). destruct (Hes p Hin) as [Hc Hge].
        rewrite Forall_forall in Hwf'. by apply seek_keeps in Hge as [? _]; [|apply Hwf']. }
      split_and!; [done|done|]. rewrite <- Hr. symmetry. apply read_ext_coherent; [done|].
      intros v Hv. by eapply scan_versions.
    + intros (Hk & Hhi & Hr). split_and!; [done|by intros [? _]|]. rewrite <- Hr. apply read_ext_coherent; [done|].
      intros v Hv. by eapply scan_versions.
Qed.

(** The pairs of the range, in key order. *)
Record range_of (lo hi : bytes) (M : bytes → option bytes) (L : list (bytes * bytes)) : Prop := {
  rg_ascend : StronglySorted (λ p q : bytes * bytes, bytes_ltb p.1 q.1 = true) L;
  rg_elem : ∀ k x, (k, x) ∈ L ↔ bytes_ltb k lo = false ∧ bytes_ltb k hi = true ∧ M k = Some x
}.

Lemma strongly_fmap {A B} (R : A → A → Prop) (S : B → B → Prop) (f : A → B) l :
  (∀ a b, R a b → S (f a) (f b)) → StronglySorted R l → StronglySorted S (f <$> l).
Proof using.
  intros Hf. induction 1 as [|a l _ IH Ha]; [constructor|]. rewrite fmap_cons. constructor; [done|].
  apply Forall_fmap. eapply Forall_impl; [exact Ha|]. intros b. apply Hf.
Qed.

(** A scan reports the pairs of the range that point reads of the view find,
    in key order; if a value cannot be read it stops there and says so. *)
Lemma Scan_in_spec hash next ios lo hi d M :
  len lo < 2 ^ 32 - 8 → values_ok next (vsep_ d) →
  (∀ k, stands_for (vsep_ d) (answer (read all k (view_seq w))) (M k)) →
  ∃ L st res d', range_of lo hi M L ∧ Scan_in hash ios lo hi w d = Some (st, res, d') ∧ cache_only d d' ∧
    values_ok next (vsep_ d') ∧ (∃ n, res = take n L) ∧ (ok st = true → res = L) ∧ (Forall io_whole ios → ok st = true).
Proof using Hmem Himm Hver Hco Hseq.
  intros Hlo Hv HM. destruct (scan_pairs lo hi Hlo) as (its & iter & es & E & Ei & Hwk & Hlen & Hs & Hel).
  set (P := emits hi (view_seq w) None false (version_of <$> es)) in *.
  set (f := λ p : bytes * bytes, (p.1, default [] (M p.1))).
  assert (∀ k x, (k, x) ∈ P → ∃ y, M k = Some y ∧ den (vsep_ d) x y) as HP.
  { intros k x (_ & _ & Hr)%Hel. specialize (HM k). rewrite Hr in HM. exact HM. }
  destruct (scan_loop_spec hash next hi (view_seq w) (S (view_size w)) ios iter es None false [] d (f <$> P))
    as (st & res & d' & El & Hc & Hv' & Hn & Hfull & Hw); [done|lia|done| |].
  { fold P. apply Forall2_fmap_r, Forall_Forall2_diag, Forall_forall. intros [k x] Hin.
    destruct (HP k x Hin) as (y & Hy & Hd). split; [done|]. unfold f. cbn [fst snd]. by rewrite Hy. }
  exists (f <$> P), st, res, d'. split_and!; [split| |done..].
  - eapply strongly_fmap; [|by apply emits_ascend]. by intros a b.
  - intros k x. rewrite list_elem_of_fmap. split.
    + intros ([k' x'] & [= -> ->] & Hin). destruct (HP k' x' Hin) as (y & Hy & _). cbn [fst]. rewrite Hy.
      apply Hel in Hin as (? & ? & _). done.
    + intros (H1 & H2 & H3). specialize (HM k). rewrite H3 in HM. destruct (read all k (view_seq w)) as [x'| |] eqn:Er; try done.
      exists (k, x'). split; [unfold f; cbn [fst]; by rewrite H3|]. by apply Hel.
  - unfold Scan_in. rewrite E. cbn [mbind option_bind]. rewrite Ei. exact El.
Qed.

End scan.
