(* ===== verification/DbSystem.v ===== *)
(** * The database as a concurrent system

    The background thread releases the mutex while it builds tables and
    between the entries of a garbage collection, and the users' calls come in
    between.  [Bg] says where the background thread is, [bg_step] is its next
    section, [step] a user's call or such a section, and [run] any sequence of
    them.  DbRounds shows that the sections alone add up to [bg_round].

    [Map] is what the users are to see: a map, and a copy of it per live
    snapshot.  [allowed] says which answers to a call the map allows. *)

From S2P Require Import Prelude Status FsUtil Encoding VLog LruCache InternalKey Mvcc Layers Iterator Block.
From S2P Require Import SSTable TableSize SkipList MemTable Merge Db DbRead DbInv DbFlush DbPick DbMerge DbCompact.
From S2P Require Import DbValues DbScan.
Import db.

(** ** The background thread *)

(** Where [FlushImmMemTable] is: before the table is built, before it is
    installed, and returned. *)
Inductive Flushing :=
| FlBuild (imm : MemTable) (retired_log sst_number : Z)
| FlInstall (retired_log : Z) (r : TableRef)
| FlDone (s : Status).

(** What [RunVlogGC] carries while it scans: the generations not scanned yet,
    all the retired ones, and the bytes rewritten. *)
Record Collecting := mkCollecting { gc_rest : list vlog.VLog; gc_retired : list vlog.VLog; gc_rewritten : Z }.

(** The scan of one generation: how it will end, and the entries left. *)
Record Scanning := mkScanning { sc_status : Status; sc_gen : Z; sc_entries : list (bytes * bytes * Z); sc_gc : Collecting }.

Inductive Bg :=
| BgIdle
| BgFlush (f : Flushing)
| BgPicked (c : Compaction)
| BgFloor (c : Compaction) (floor : Z)
| BgMerged (c : Compaction) (outputs : list TableRef)
| BgCompacted (s : Status)
| BgGcRotate
| BgGcScan (g : Collecting)
| BgGcEntries (x : Scanning)
| BgGcDrain (x : Scanning)
| BgGcFlush (f : Flushing) (x : Scanning)
| BgGcRetire (g : Collecting)
| BgGcDone (s : Status).

Record System := mkSystem { sys_db : DB; sys_bg : Bg }.

Section steps.
Variable hash : bytes → Z.
Variable strerror : Z → bytes.

Definition start_flush (imm : MemTable) (d : DB) : Flushing := FlBuild imm (imm_log_number_ d) (imm_sst_number_ d).

(** The next section of [FlushImmMemTable]. *)
Definition flush_step (env : flush_env) (f : Flushing) (d : DB) : option (Flushing * DB) :=
  match f with
  | FlBuild imm retired_log sst_number =>
      '(s, r, d) ← flush_build (fe_sst env) imm sst_number d;
      Some (match r with None => FlDone s | Some r => FlInstall retired_log r end, d)
  | FlInstall retired_log r =>
      let '(s, d) := flush_install (fe_manifest env) (fe_unlink env) r retired_log d in Some (FlDone s, d)
  | FlDone s => Some (FlDone s, d)
  end.

Definition set_gc_active (active : bool) (d : DB) : DB := set_vsep (set_gc (vlog_gc_floor_ (vsep_ d)) active (vsep_ d)) d.

(** What the loop does when it holds the mutex and has nothing in hand. *)
Definition bg_start (d : DB) : option System :=
  if exit_ d then Some (mkSystem d BgIdle)
  else
    match imm_ d with
    | Some imm => Some (mkSystem d (BgFlush (start_flush imm d)))
    | None =>
        if CompactionNeeded d then c ← PickCompaction d; Some (mkSystem d (BgPicked c))
        else if VlogGcNeeded d then Some (mkSystem (set_gc_active true d) BgGcRotate)
        else Some (mkSystem d BgIdle)
    end.

(** The next entry of the generation that is scanned. *)
Definition gc_entry_step (env : entry_env) (x : Scanning) (d : DB) : option System :=
  let next es n := mkScanning (sc_status x) (sc_gen x) es
                     (mkCollecting (gc_rest (sc_gc x)) (gc_retired (sc_gc x)) (gc_rewritten (sc_gc x) + n)) in
  match sc_entries x with
  | [] => Some (mkSystem d (if ok (sc_status x) then BgGcScan (sc_gc x) else BgGcDone (sc_status x)))
  | (key, value, off) :: es =>
      '(s, n, d) ← gc_entry strerror env (sc_gen x) key value off d;
      Some (mkSystem d match n with
                       | Some n => BgGcDrain (next es n)
                       | None => if ok s then BgGcEntries (next es 0) else BgGcDone s
                       end)
  end.

Definition bg_step (env : bg_env) (S : System) : option System :=
  let d := sys_db S in
  let '(entry, drain) := default (quiet_entry, quiet_flush) (head (ge_entries (be_gc env))) in
  match sys_bg S with
  | BgIdle => bg_start d
  | BgFlush (FlDone s) => Some (mkSystem (if ok s then set_imm None d else set_error false s d) BgIdle)
  | BgFlush f => '(f, d) ← flush_step (be_flush env) f d; Some (mkSystem d (BgFlush f))
  | BgPicked c => Some (mkSystem d (BgFloor c (SmallestSnapshotSeq d)))
  | BgFloor c floor =>
      '(s, outputs, d) ← compact_merge (be_compact env) floor c d;
      Some (mkSystem d (if ok s then BgMerged c outputs else BgCompacted s))
  | BgMerged c outputs =>
      let '(s, d) := compact_install (be_compact env) c outputs d in Some (mkSystem d (BgCompacted s))
  | BgCompacted s => Some (mkSystem (if ok s then d else set_error true s d) BgIdle)
  | BgGcRotate =>
      '(s, fresh, d) ← gc_rotate (ge_open (be_gc env)) (ge_publish (be_gc env)) d;
      Some (mkSystem d match fresh with
                       | None => BgGcDone s
                       | Some n => let retired := erase_vlog n (vlogs_ (vsep_ d)) in BgGcScan (mkCollecting retired retired 0)
                       end)
  | BgGcScan g =>
      match gc_rest g with
      | [] => Some (mkSystem d (BgGcRetire g))
      | gen :: rest =>
          '(s, es) ← vlog.ScanEntries (default [] (head (ge_preads (be_gc env)))) gen (vlog.end_ gen);
          Some (mkSystem d (BgGcEntries (mkScanning s (vlog.number_ gen) es (mkCollecting rest (gc_retired g) (gc_rewritten g)))))
      end
  | BgGcEntries x => gc_entry_step entry x d
  | BgGcDrain x =>
      Some (mkSystem d match imm_ d with None => BgGcEntries x | Some imm => BgGcFlush (start_flush imm d) x end)
  | BgGcFlush (FlDone s) x => Some (if ok s then mkSystem (set_imm None d) (BgGcEntries x) else mkSystem d (BgGcDone s))
  | BgGcFlush f x => '(f, d) ← flush_step drain f d; Some (mkSystem d (BgGcFlush f x))
  | BgGcRetire g =>
      '(s, d) ← gc_retire strerror (be_gc env) (gc_retired g) (gc_rewritten g) d;
      Some (mkSystem d (BgGcDone s))
  | BgGcDone s =>
      let d := set_gc_active false d in Some (mkSystem (if ok s then d else set_error false s d) BgIdle)
  end.

(** ** Users' calls *)

(** Snapshots are named by their address. *)
Inductive Call :=
| CPut (env : put_env) (key value : bytes)
| CDelete (env : put_env) (key : bytes)
| CGet (io : io_outcome * io_outcome) (key : bytes) (snapshot : option Z)
| CScan (ios : list (io_outcome * io_outcome)) (lo hi : bytes) (snapshot : option Z)
| CGetSnapshot
| CReleaseSnapshot (a : Z)
| CBackground (env : bg_env).

Inductive Answer :=
| AWaiting
| AStatus (s : Status)
| AValue (s : Status) (value : option bytes)
| APairs (s : Status) (pairs : list (bytes * bytes))
| ASnapshot (a : Z)
| ANone.

Definition live_snapshot (a : Z) (d : DB) : option Snapshot := find (λ s, address s =? a) (snapshots_ d).

(** The snapshot a read names; a dangling one is undefined behaviour. *)
Definition read_snapshot (snapshot : option Z) (d : DB) : option (option Snapshot) :=
  match snapshot with
  | None => Some None
  | Some a => Some <$> live_snapshot a d
  end.

Definition write_answer (r : option (Status * DB)) (S : System) : Answer * System :=
  match r with
  | None => (AWaiting, S)
  | Some (s, d) => (AStatus s, mkSystem d (sys_bg S))
  end.

Definition step (c : Call) (S : System) : option (Answer * System) :=
  let d := sys_db S in
  match c with
  | CPut env key value => r ← Put strerror env key value d; Some (write_answer r S)
  | CDelete env key => r ← Delete strerror env key d; Some (write_answer r S)
  | CGet io key snapshot =>
      s ← read_snapshot snapshot d;
      '(s, value, d) ← Get hash io key s d;
      Some (AValue s value, mkSystem d (sys_bg S))
  | CScan ios lo hi snapshot =>
      s ← read_snapshot snapshot d;
      '(s, pairs, d) ← Scan hash ios lo hi s d;
      Some (APairs s pairs, mkSystem d (sys_bg S))
  | CGetSnapshot => let '(s, d) := GetSnapshot d in Some (ASnapshot (address s), mkSystem d (sys_bg S))
  | CReleaseSnapshot a => Some (ANone, mkSystem (ReleaseSnapshot a d) (sys_bg S))
  | CBackground env => S' ← bg_step env S; Some (ANone, S')
  end.

Fixpoint run (cs : list Call) (S : System) : option (list Answer * System) :=
  match cs with
  | [] => Some ([], S)
  | c :: cs =>
      '(a, S1) ← step c S;
      '(rest, S2) ← run cs S1;
      Some (a :: rest, S2)
  end.

End steps.

(** ** What the users are to see *)

(** The map, and the copies the live snapshots hold. *)
Record Map := mkMap { contents : gmap bytes bytes; held : list (Z * gmap bytes bytes) }.

Definition map_at (snapshot : option Z) (M : Map) : option (gmap bytes bytes) :=
  match snapshot with
  | None => Some (contents M)
  | Some a => snd <$> find (λ p, p.1 =? a) (held M)
  end.

Fixpoint release (a : Z) (l : list (Z * gmap bytes bytes)) : list (Z * gmap bytes bytes) :=
  match l with
  | [] => []
  | p :: l => if p.1 =? a then l else p :: release a l
  end.

(** Whether the map may answer [a] to [c], and the map afterwards.  A call that
    fails leaves the map alone; a read that succeeds tells the truth; a read
    fails only if the key is absent or a read of a value log is cut short. *)
Definition allowed (c : Call) (a : Answer) (M M' : Map) : Prop :=
  match c, a with
  | CPut _ key value, AStatus s => M' = if ok s then mkMap (<[key := value]> (contents M)) (held M) else M
  | CDelete _ key, AStatus s => M' = if ok s then mkMap (delete key (contents M)) (held M) else M
  | CPut _ _ _, AWaiting => M' = M
  | CDelete _ _, AWaiting => M' = M
  | CGet io key snapshot, AValue s value =>
      M' = M ∧ ∃ m, map_at snapshot M = Some m ∧
        match m !! key with
        | Some x => (ok s = true → value = Some x) ∧ (io_whole io → ok s = true)
        | None => code_ s = kNotFound
        end
  | CScan ios lo hi snapshot, APairs s pairs =>
      M' = M ∧ ∃ m L, map_at snapshot M = Some m ∧ range_of lo hi (λ k, m !! k) L ∧
        (∃ n, pairs = take n L) ∧ (ok s = true → pairs = L) ∧ (Forall io_whole ios → ok s = true)
  | CGetSnapshot, ASnapshot a => (a ∉ (held M).*1) ∧ M' = mkMap (contents M) (held M ++ [(a, contents M)])
  | CReleaseSnapshot a, ANone => M' = mkMap (contents M) (release a (held M))
  | CBackground _, ANone => M' = M
  | _, _ => False
  end.

(** A conversation the map allows. *)
Fixpoint converses (cs : list Call) (answers : list Answer) (M M' : Map) : Prop :=
  match cs, answers with
  | [], [] => M' = M
  | c :: cs, a :: answers => ∃ M1, allowed c a M M1 ∧ converses cs answers M1 M'
  | _, _ => False
  end.

(** ** What is assumed of a call *)

(** A value-log append writes the whole entry or, when it fails, nothing: a
    torn entry hides the later ones from garbage collection. *)
Definition whole_append (env : entry_env) (key value : bytes) : Prop :=
  ee_lseek env = true ∧
  let '(out, err) := write_loop (ee_vlog_writes env) (vlog.entry_image key value) in err = None ∨ out = [].

(** The numbers stay inside their fields: sequence numbers in 56 bits, file
    offsets in 32 (tables) and 63 bits (value logs). *)
Record db_limits (d : DB) : Prop := {
  dl_seq : next_seq_ d < 2 ^ 56;
  dl_weight : total_weight (concat (layers d)) + 56 < 2 ^ 32;
  dl_files : next_file_number_ d < 2 ^ 63;
  dl_base : 0 ≤ level_base_size (options_ d)
}.

Definition write_limits (env : put_env) (key value : bytes) (d : DB) : Prop :=
  len key < 2 ^ 32 - 8 ∧ len key + len value < 2 ^ 32 ∧ log_room (vsep_ d) (len key + len value) ∧
  whole_append (pe_entry env) key value.

Definition read_limits (key : bytes) (snapshot : option Z) (d : DB) : Prop :=
  len key < 2 ^ 32 - 8 ∧ is_Some (read_snapshot snapshot d).

(** The reads of a collection's scan are not cut short, and no file has the
    name of the next value log. *)
Definition bg_limits (env : bg_env) (S : System) : Prop :=
  let d := sys_db S in
  match sys_bg S with
  | BgGcRotate => default [] (fs d !! VlogPath (dir_ d) (next_file_number_ d)) = []
  | BgGcScan _ => vlog.full_reads (default [] (head (ge_preads (be_gc env))))
  | BgGcEntries x =>
      match sc_entries x with
      | (key, value, _) :: _ =>
          log_room (vsep_ d) (len key + len value) ∧
          whole_append (default (quiet_entry, quiet_flush) (head (ge_entries (be_gc env)))).1 key value
      | [] => True
      end
  | _ => True
  end.

Definition limits (c : Call) (S : System) : Prop :=
  db_limits (sys_db S) ∧
  match c with
  | CPut env key value => write_limits env key value (sys_db S)
  | CDelete env key => write_limits env key [] (sys_db S)
  | CGet _ key snapshot => read_limits key snapshot (sys_db S)
  | CScan _ lo _ snapshot => read_limits lo snapshot (sys_db S)
  | CBackground env => bg_limits env S
  | _ => True
  end.

(** Every call of the run is within its limits. *)
Fixpoint within_limits (hash : bytes → Z) (strerror : Z → bytes) (cs : list Call) (S : System) : Prop :=
  match cs with
  | [] => True
  | c :: cs => limits c S ∧ ∀ a S', step hash strerror c S = Some (a, S') → within_limits hash strerror cs S'
  end.

(** The limits can be checked along a run. *)
#[export] Instance whole_append_dec env key value : Decision (whole_append env key value).
Proof. unfold whole_append. destruct (write_loop _ _) as [out err]. apply _. Defined.

#[export] Instance db_limits_dec d : Decision (db_limits d).
Proof.
  refine (cast_if_and4 (decide (next_seq_ d < 2 ^ 56)) (decide (total_weight (concat (layers d)) + 56 < 2 ^ 32))
    (decide (next_file_number_ d < 2 ^ 63)) (decide (0 ≤ level_base_size (options_ d)))); [by split|by intros []..].
Defined.

#[export] Instance full_reads_dec preads : Decision (vlog.full_reads preads).
Proof. unfold vlog.full_reads. apply _. Defined.

#[export] Instance bg_limits_dec env S : Decision (bg_limits env S).
Proof.
  unfold bg_limits, log_room. destruct (sys_bg S); try apply _. destruct (sc_entries x) as [|[[? ?] ?] ?]; apply _.
Defined.

#[export] Instance limits_dec c S : Decision (limits c S).
Proof. unfold limits, write_limits, read_limits, log_room. destruct c; apply _. Defined.

Fixpoint check_limits (hash : bytes → Z) (strerror : Z → bytes) (cs : list Call) (S : System) : bool :=
  match cs with
  | [] => true
  | c :: cs =>
      bool_decide (limits c S) &&
      match step hash strerror c S with Some (_, S') => check_limits hash strerror cs S' | None => true end
  end.

Lemma check_limits_within hash strerror cs S : check_limits hash strerror cs S = true → within_limits hash strerror cs S.
Proof.
  revert S. induction cs as [|c cs IH]; intros S; [done|]. cbn [check_limits within_limits].
  intros [Hl%bool_decide_eq_true Hs]%andb_true_iff. split; [done|]. intros a S' E. rewrite E in Hs. by apply IH.
Qed.
