(* ===== verification/DbLogs.v ===== *)
(** * Value logs that a collection can scan

    A garbage collection finds the entries of a value log by scanning it, so it
    relies on more than reads do: the log is nothing but whole entries
    ([clean]), and every key's latest pointer leads to an entry with that key
    ([latest_located]).  Both are kept by writes whose appends are not torn. *)

From S2P Require Import Prelude Status FsUtil Encoding Crc32 VLog LruCache InternalKey Mvcc Layers Iterator Block.
From S2P Require Import SSTable TableSize SkipList MemTable Merge Db DbRead DbInv DbValues DbScan DbSystem.
Import db.

(** The entries a scan with no short read visits. *)
Definition gen_entries (v : vlog.VLog) : list (bytes * bytes * Z) :=
  match vlog.ScanEntries [] v (vlog.end_ v) with Some (_, es) => es | None => [] end.

Definition small_entry (e : bytes * bytes) : Prop := len e.1 < 2 ^ 32 - 8 ∧ len e.1 + len e.2 < 2 ^ 32.

Record clean (v : vlog.VLog) : Prop := {
  cl_ok : vlog.vlog_ok v;
  cl_images : ∃ es, Forall small_entry es ∧ vlog.v_file v = vlog.images es
}.

(** ** Scanning a clean log *)

Lemma images_length es : (length es ≤ length (vlog.images es))%nat.
Proof.
  unfold vlog.images. induction es as [|[k x] es IH]; [done|]. rewrite fmap_cons. cbn [concat fst snd].
  rewrite length_app. pose proof (vlog.len_entry_image k x) as Hi. unfold len in Hi. cbn [length]. lia.
Qed.

Lemma scan_images preads v es :
  vlog.vlog_ok v → Forall small_entry es → vlog.v_file v = vlog.images es → vlog.full_reads preads →
  vlog.ScanEntries preads v (vlog.end_ v) = Some (Ok, vlog.located 0 es).
Proof.
  intros [He _] Hs Hf Hp. unfold vlog.ScanEntries. rewrite Z.ltb_irrefl, He, Hf.
  apply (vlog.scan_loop_images _ preads v es [] []); [done| |done|].
  { eapply Forall_impl; [exact Hs|]. by intros e [_ ?]. }
  pose proof (images_length es). lia.
Qed.

Lemma gen_entries_images v es :
  vlog.vlog_ok v → Forall small_entry es → vlog.v_file v = vlog.images es → gen_entries v = vlog.located 0 es.
Proof. intros Hok Hs Hf. unfold gen_entries. by rewrite (scan_images [] v es) by (done || constructor). Qed.

Lemma clean_scan preads v :
  clean v → vlog.full_reads preads → vlog.ScanEntries preads v (vlog.end_ v) = Some (Ok, gen_entries v).
Proof.
  intros [Hok (es & Hs & Hf)] Hp. by rewrite (gen_entries_images v es), (scan_images preads v es).
Qed.

Lemma clean_new number : clean (vlog.mkVLog [] number 0).
Proof. split; [by split|]. exists []. split; [constructor|done]. Qed.

Lemma images_app es es' : vlog.images (es ++ es') = vlog.images es ++ vlog.images es'.
Proof. unfold vlog.images. by rewrite fmap_app, concat_app. Qed.

Lemma located_app off es es' :
  vlog.located off (es ++ es') = vlog.located off es ++ vlog.located (off + len (vlog.images es)) es'.
Proof.
  revert off. induction es as [|[k x] es IH]; intros off.
  - cbn [app vlog.located]. change (len (vlog.images [])) with 0. by rewrite Z.add_0_r.
  - cbn [app vlog.located]. rewrite IH. cbn [app]. f_equal. f_equal.
    change ((k, x) :: es) with ([(k, x)] ++ es). rewrite images_app, len_app.
    assert (len (vlog.images [(k, x)]) = 12 + len k + len x) as ->; [|f_equal; lia].
    unfold vlog.images. cbn [fmap list_fmap concat fst snd]. by rewrite app_nil_r, vlog.len_entry_image.
Qed.

(** An entry a scan visits is stored where the scan says. *)
Lemma located_stored v pre es k x off :
  vlog.v_file v = pre ++ vlog.images es → (k, x, off) ∈ vlog.located (len pre) es → vlog.stored_at v off k x.
Proof.
  revert pre. induction es as [|[k' x'] es IH]; intros pre Hf; cbn [vlog.located]; [by intros ?%not_elem_of_nil|].
  change (vlog.images ((k', x') :: es)) with (vlog.entry_image k' x' ++ vlog.images es) in Hf.
  intros [[= -> -> ->]|Hin]%elem_of_cons; [by exists pre, (vlog.images es)|].
  apply (IH (pre ++ vlog.entry_image k' x')); [by rewrite <- app_assoc|].
  by rewrite len_app, vlog.len_entry_image.
Qed.

Lemma gen_entries_stored v k x off :
  clean v → (k, x, off) ∈ gen_entries v → vlog.stored_at v off k x ∧ small_entry (k, x).
Proof.
  intros [Hok (es & Hs & Hf)]. rewrite (gen_entries_images v es Hok Hs Hf). intros Hin.
  split; [by apply (located_stored v [] es)|]. clear Hf. revert Hin. generalize 0.
  induction Hs as [|[k' x'] es He _ IH]; intros o; cbn [vlog.located]; [by intros ?%not_elem_of_nil|].
  intros [[= -> -> _]|Hin]%elem_of_cons; [exact He|by eapply IH].
Qed.

(** What is stored at an offset is unique. *)
Lemma PutFixed32_app_inj a b r r' : PutFixed32 a ++ r = PutFixed32 b ++ r' → u32 a = u32 b ∧ r = r'.
Proof.
  intros H. split.
  - apply (f_equal GetFixed32) in H. rewrite !GetFixed32_Put in H. by injection H.
  - apply app_inj_1 in H as [_ ?]; [done|]. pose proof (len_PutFixed32 a) as Ha. pose proof (len_PutFixed32 b) as Hb.
    unfold len in Ha, Hb. lia.
Qed.

Lemma stored_unique v off k x k' x' :
  len k < 2 ^ 32 → len x < 2 ^ 32 → len k' < 2 ^ 32 → len x' < 2 ^ 32 →
  vlog.stored_at v off k x → vlog.stored_at v off k' x' → k = k' ∧ x = x'.
Proof.
  intros Hk Hx Hk' Hx' (pre & post & Hf & Hl) (pre' & post' & Hf' & Hl').
  rewrite Hf' in Hf. apply app_inj_1 in Hf as [_ Hf]; [|unfold len in *; lia].
  unfold vlog.entry_image in Hf. rewrite <- !app_assoc in Hf.
  apply PutFixed32_app_inj in Hf as [_ [Ek [Ex Hf]%PutFixed32_app_inj]%PutFixed32_app_inj].
  pose proof (len_nonneg k). pose proof (len_nonneg x). pose proof (len_nonneg k'). pose proof (len_nonneg x').
  do 2 rewrite (u32_small (len k)), (u32_small (len k')) in Ek by lia.
  do 2 rewrite (u32_small (len x)), (u32_small (len x')) in Ex by lia.
  apply app_inj_1 in Hf as [-> Hf]; [|unfold len in *; lia].
  by apply app_inj_1 in Hf as [-> _]; [|unfold len in *; lia].
Qed.

(** ** Appending to a clean log *)

Lemma Append_clean env v k x :
  clean v → small_entry (k, x) → len (vlog.v_file v) + 12 + (len k + len x) < 2 ^ 63 → whole_append env k x →
  let '(s, v', off, _) := vlog.Append (ee_vlog_writes env) (ee_lseek env) v k x in
  clean v' ∧ gen_entries v' = gen_entries v ++ (if ok s then [(k, x, off)] else []).
Proof.
  intros Hc Hs Hl [Hseek Hw]. rewrite Hseek. pose proof Hc as [Hok (es & Hes & Hf)].
  pose proof (vlog.Append_ok (ee_vlog_writes env) v k x Hok ltac:(lia)) as Ha. unfold vlog.Append in *.
  destruct (write_loop (ee_vlog_writes env) (vlog.entry_image k x)) as [out err] eqn:E.
  destruct err as [e|].
  - destruct Hw as [Hno| ->]; [done|]. rewrite !app_nil_r in *.
    assert (vlog.mkVLog (vlog.v_file v) (vlog.number_ v) (len (vlog.v_file v)) = v) as ->; [|done].
    destruct v as [f n e']. destruct Hok as [He _]. cbn in *. by rewrite He.
  - destruct Ha as (Hok' & Hoff & Hst). destruct (Hst eq_refl) as (_ & Hf' & _). clear Hst.
    assert (vlog.v_file v ++ out = vlog.images (es ++ [(k, x)])) as Hi.
    { cbn [vlog.v_file] in Hf'. rewrite Hf', Hf, images_app. f_equal. unfold vlog.images. cbn. by rewrite app_nil_r. }
    assert (Forall small_entry (es ++ [(k, x)])) as Hes' by (apply Forall_app; by split; [|constructor; [|constructor]]).
    split; [split; [done|]; by exists (es ++ [(k, x)])|]. change (ok Ok) with true. cbv iota.
    rewrite (gen_entries_images v es Hok Hes Hf), (gen_entries_images _ (es ++ [(k, x)]) Hok' Hes' Hi), located_app.
    rewrite Z.add_0_l, <- Hf, <- Hoff. done.
Qed.

Lemma Append_offset w l v k x : (vlog.Append w l v k x).1.2 = vlog.end_ v.
Proof. unfold vlog.Append. by destruct (write_loop _ _) as [out [e|]]. Qed.

(** ** Pointers into the logs *)

(** If the stored value is a pointer, a scan of its log visits an entry of that
    key at its offset. *)
Definition located_in (vs : Vsep) (k stored : bytes) : Prop :=
  ∀ p, pointer_shaped stored = true → DecodeValuePointer stored = Some p →
  ∃ vl x, find_vlog (vlog_number p) (vlogs_ vs) = Some vl ∧ (k, x, offset p) ∈ gen_entries vl.

Definition latest_located (vs : Vsep) (hist : list version) : Prop :=
  vsep_enabled_ vs = true → ∀ k stored, answer (read hist k kMaxSeq) = Some stored → located_in vs k stored.

Record logs_ok (vs : Vsep) (hist : list version) : Prop := {
  lg_clean : Forall clean (vlogs_ vs);
  lg_located : latest_located vs hist
}.

(** The logs gain entries, and only the current one does. *)
Record entries_grow (vs vs' : Vsep) : Prop := {
  eg_enabled : vsep_enabled_ vs' = vsep_enabled_ vs;
  eg_current : vlog_current_ vs' = vlog_current_ vs;
  eg_logs : ∀ n, match find_vlog n (vlogs_ vs), find_vlog n (vlogs_ vs') with
                 | Some v, Some v' => (∃ es, gen_entries v' = gen_entries v ++ es) ∧ (vlog_current_ vs ≠ Some n → v' = v)
                 | None, None => True
                 | _, _ => False
                 end
}.

Lemma entries_grow_refl vs : entries_grow vs vs.
Proof. split; [done..|]. intros n. destruct (find_vlog n (vlogs_ vs)); [|done]. split; [exists []; by rewrite app_nil_r|done]. Qed.

Lemma located_in_grow vs vs' k stored : entries_grow vs vs' → located_in vs k stored → located_in vs' k stored.
Proof.
  intros Hg Hl p Hs Hd. destruct (Hl p Hs Hd) as (vl & x & Hf & Hin). pose proof (eg_logs _ _ Hg (vlog_number p)) as H.
  rewrite Hf in H. destruct (find_vlog _ (vlogs_ vs')) as [v'|]; [|done]. destruct H as [(es & He) _].
  exists v', x. split; [done|]. rewrite He. apply elem_of_app. by left.
Qed.

Lemma latest_located_grow vs vs' hist : entries_grow vs vs' → latest_located vs hist → latest_located vs' hist.
Proof.
  intros Hg Hl He k stored Hr. rewrite (eg_enabled _ _ Hg) in He. eapply located_in_grow; [done|]. by apply Hl.
Qed.

Lemma current_number vs cur : current_vlog vs = Some cur → vlog_current_ vs = Some (vlog.number_ cur).
Proof.
  unfold current_vlog. destruct (vlog_current_ vs) as [n|]; [|done]. cbn [mbind option_bind]. intros Hf.
  by destruct (find_vlog_Some _ _ _ Hf) as [_ <-].
Qed.

Section separate.
Context (d : DB) (env : entry_env) (key value : bytes).
Let vs : Vsep := vsep_ d.
Hypothesis Hv : values_ok (next_file_number_ d) vs.
Hypothesis Hclean : Forall clean (vlogs_ vs).
Hypothesis Happ : whole_append env key value.
Hypothesis Hsize : small_entry (key, value).
Hypothesis Hroom : log_room vs (len key + len value).
Hypothesis Hnext : next_file_number_ d ≤ 2 ^ 64.

(** The current log with one more entry. *)
Lemma update_entries_grow cur cur' es :
  current_vlog vs = Some cur → vlog.number_ cur' = vlog.number_ cur → gen_entries cur' = gen_entries cur ++ es →
  entries_grow vs (set_vlogs (update_vlog cur' (vlogs_ vs)) (vlog_current_ vs) vs).
Proof using.
  intros Hc Hn He. split; [done..|]. intros n. cbn [vlogs_ set_vlogs]. pose proof (find_current _ _ Hc) as Hf.
  destruct (decide (n = vlog.number_ cur)) as [->|Hne].
  - rewrite Hf, (find_vlog_update _ _ cur) by done. split; [by exists es|]. by rewrite (current_number _ _ Hc).
  - rewrite find_update_other by congruence. destruct (find_vlog n (vlogs_ vs)); [|done].
    split; [exists []; by rewrite app_nil_r|done].
Qed.

Lemma update_clean cur' : clean cur' → Forall clean (update_vlog cur' (vlogs_ vs)).
Proof using Hclean.
  intros Hc. unfold update_vlog. apply Forall_fmap. eapply Forall_impl; [exact Hclean|].
  intros v Hcv. simpl. by destruct (_ =? _).
Qed.

Lemma separate_logs type s stored d' :
  separate env type key value d = Some (s, stored, d') →
  Forall clean (vlogs_ (vsep_ d')) ∧ entries_grow vs (vsep_ d') ∧
  (ok s = true → type = kTypeValue → vsep_enabled_ vs = true → located_in (vsep_ d') key stored ∧
     ∀ p, pointer_shaped stored = true → DecodeValuePointer stored = Some p → vlog_current_ vs = Some (vlog_number p)).
Proof using Hv Hclean Happ Hsize Hroom Hnext.
  unfold separate. fold vs. destruct (separated type value vs) eqn:Es.
  2:{ intros [= <- <- <-]. split_and!; [done|apply entries_grow_refl|]. intros _ -> He. unfold separated in Es.
      rewrite He in Es. cbn [andb] in Es. apply orb_false_iff in Es as [_ Es]. unfold located_in. rewrite Es. done. }
  destruct (current_vlog vs) as [cur|] eqn:Hc; [|done]. cbn [mbind option_bind].
  pose proof (find_current _ _ Hc) as Hf. destruct (find_vlog_Some _ _ _ Hf) as [Hin _].
  destruct (find_vlog_ok _ _ _ _ Hv Hf) as (Hok & _ & Hnr).
  pose proof Hclean as Hcl. rewrite Forall_forall in Hcl. pose proof Hroom as Hr. unfold log_room in Hr. rewrite Forall_forall in Hr.
  pose proof (Append_clean env cur key value (Hcl cur Hin) Hsize (Hr cur Hin) Happ) as Ha.
  pose proof (Append_number (ee_vlog_writes env) (ee_lseek env) cur key value) as Hn.
  pose proof (Append_offset (ee_vlog_writes env) (ee_lseek env) cur key value) as Ho.
  destruct (vlog.Append _ _ cur key value) as [[[s0 cur'] off] n]. cbn [fst snd] in *. destruct Ha as [Hcl' He].
  pose proof (update_clean _ Hcl') as Hcl2. pose proof (update_entries_grow cur cur' _ Hc Hn He) as Hg.
  destruct (ok s0) eqn:E; cbn [negb]; intros [= <- <- <-]; (split_and!; [exact Hcl2|exact Hg|]); [|by rewrite E].
  intros _ -> _. destruct Hsize as [_ Hsz]. cbn [fst snd] in Hsz. pose proof (len_nonneg key). pose proof (len_nonneg value). pose proof (len_nonneg (vlog.v_file cur)).
  pose proof (vlog.vo_size _ Hok). pose proof (vlog.vo_end _ Hok).
  assert (u32 (len value) = len value) as Eu by (apply u32_small; lia). rewrite Eu.
  set (p := mkValuePointer _ _ _).
  assert (DecodeValuePointer (EncodeValuePointer p) = Some p) as Hd.
  { apply DecodeValuePointer_Encode; unfold p; cbn [vlog_number offset value_size]; lia. }
  split; intros p'; rewrite Hd; intros _ [= <-]; unfold p; cbn [vlog_number offset].
  - exists cur', value. split; [by apply (find_vlog_update _ _ cur)|]. rewrite He. apply elem_of_app. right. apply list_elem_of_here.
  - by apply current_number.
Qed.

End separate.
