(* ===== verification/DbRefine.v ===== *)
(** * The database refines a map with snapshots

    [data_inv d hist M]: the state [d] answers as the map [M] does, and keeps
    what later steps need.  Every call of a user and every section of the
    background thread keeps it. *)

From S2P Require Import Prelude Status FsUtil Encoding VLog LruCache InternalKey Mvcc Layers Iterator Block.
From S2P Require Import SSTable TableSize SkipList MemTable Merge Db DbRead DbInv DbFlush DbPick DbMerge DbCompact.
From S2P Require Import DbValues DbScan DbSystem DbLogs.
Import db.

(** Reads of [hist] at [s] give what [m] holds. *)
Definition views (vs : Vsep) (hist : list version) (s : Z) (m : gmap bytes bytes) : Prop :=
  ∀ k, stands_for vs (answer (read hist k s)) (m !! k).

Record data_inv (d : DB) (hist : list version) (M : Map) : Prop := {
  da_db : db_inv d hist;
  da_values : values_ok (next_file_number_ d) (vsep_ d);
  da_logs : logs_ok (vsep_ d) hist;
  da_now : views (vsep_ d) hist kMaxSeq (contents M);
  da_held : Forall2 (λ s p, p.1 = address s ∧ views (vsep_ d) hist (seq_ s) p.2) (snapshots_ d) (held M)
}.

(** ** Frames *)

Lemma stands_for_grow vs vs' found value : logs_grow vs vs' → stands_for vs found value → stands_for vs' found value.
Proof. intros Hg. destruct found; [|done]. intros (x & -> & Hd). exists x. split; [done|]. by eapply den_grow. Qed.

Lemma views_grow vs vs' hist s m : logs_grow vs vs' → views vs hist s m → views vs' hist s m.
Proof. intros Hg Hv k. by eapply stands_for_grow. Qed.

Lemma values_ok_mono next next' vs : next ≤ next' → values_ok next vs → values_ok next' vs.
Proof.
  intros Hn [Hl Hnd Hc (ls & Hls & Hok)]. split; [|done|done|].
  - eapply Forall_impl; [exact Hl|]. simpl. intros v (? & ?). split; [done|lia].
  - exists ls. split; [done|]. intros i k x Hin. eapply cached_ok_grow; [exact Hn|apply logs_grow_refl|by eapply Hok].
Qed.

(** The values and the snapshots are as before. *)
Lemma data_frame d d' hist M :
  data_inv d hist M → db_inv d' hist → vsep_ d' = vsep_ d → snapshots_ d' = snapshots_ d →
  next_file_number_ d ≤ next_file_number_ d' → data_inv d' hist M.
Proof.
  intros [Hd Hv Hl Hn Hh] Hd' Ev Es Hf. split; rewrite ?Ev, ?Es; [done| |done|done|done].
  by eapply values_ok_mono.
Qed.

(** ** A new version *)

Lemma fits_seq next hist v : Forall (version_fits next) hist → v ∈ hist → v_seq v < next.
Proof. rewrite Forall_forall. intros H Hv. apply (vf_seq _ _ (H v Hv)). Qed.

(** Reads at a sequence number not above the last one see no newer version. *)
Lemma views_hidden vs hist v s m : s < v_seq v → views vs hist s m → views vs (v :: hist) s m.
Proof. intros Hs Hv k. rewrite read_cons_hidden by done. apply Hv. Qed.

Lemma read_newest_write v hist next k s :
  Forall (version_fits next) hist → v_seq v = next → next ≤ s →
  read (v :: hist) k s = if bool_decide (v_key v = k) then lookup_of (Some v) else read hist k s.
Proof.
  intros Hf Hn Hs. unfold read. rewrite newest_cons_top by (intros w Hw; rewrite Hn; by eapply fits_seq).
  destruct (decide (v_key v = k)) as [<-|Hne].
  - rewrite bool_decide_eq_true_2 by done. assert (sees (v_key v) s v = true) as -> by (apply sees_spec; split; [done|lia]). done.
  - rewrite bool_decide_eq_false_2 by done. destruct (sees k s v) eqn:E; [|done]. by apply sees_spec in E as [? _].
Qed.

Lemma views_write vs hist v next m x :
  Forall (version_fits next) hist → v_seq v = next → next ≤ kMaxSeq →
  stands_for vs (answer (lookup_of (Some v))) x → views vs hist kMaxSeq m →
  views vs (v :: hist) kMaxSeq (partial_alter (λ _, x) (v_key v) m).
Proof.
  intros Hf Hn Hs Hx Hv k. rewrite (read_newest_write v hist next) by done.
  destruct (decide (v_key v = k)) as [<-|Hne].
  - by rewrite bool_decide_eq_true_2, lookup_partial_alter_eq by done.
  - rewrite bool_decide_eq_false_2, lookup_partial_alter_ne by done. apply Hv.
Qed.

(** The map after a write. *)
Definition written (type : Z) (key value : bytes) (M : Map) : Map :=
  mkMap (if type =? kTypeValue then <[key := value]> (contents M) else delete key (contents M)) (held M).

Section writes.
Context (strerror : Z → bytes).

Lemma stored_stands type seq key stored value vs :
  type = kTypeValue ∨ type = kTypeDeletion → (type = kTypeValue → den vs stored value) →
  stands_for vs (answer (lookup_of (Some (op_version (entry_op type seq key stored)))))
    (if type =? kTypeValue then Some value else None).
Proof. intros [->| ->] Hd; [|done]. cbn. exists value. split; [done|]. by apply Hd. Qed.

Lemma written_alter (type : Z) (key value : bytes) (m : gmap bytes bytes) :
  (if type =? kTypeValue then <[key := value]> m else delete key m)
  = partial_alter (λ _, if type =? kTypeValue then Some value else None) key m.
Proof. by destruct (type =? kTypeValue). Qed.

(** A write succeeds and the map changes accordingly, or it fails and the map
    stays; a new pointer leads to the current log, and the other logs are not
    touched. *)
Definition write_result (type : Z) (key value : bytes) (d : DB) (hist : list version) (M : Map) (s : Status) (d' : DB) : Prop :=
  entries_grow (vsep_ d) (vsep_ d') ∧
  if ok s
  then ∃ v, v_key v = key ∧ data_inv d' (v :: hist) (written type key value M) ∧
    (vsep_enabled_ (vsep_ d) = true → ∀ stored p, answer (read (v :: hist) key kMaxSeq) = Some stored →
       pointer_shaped stored = true → DecodeValuePointer stored = Some p → vlog_current_ (vsep_ d) = Some (vlog_number p)) ∧
    (∀ k, k ≠ key → read (v :: hist) k kMaxSeq = read hist k kMaxSeq)
  else data_inv d' hist M.

Lemma data_write env type key value count d hist M :
  data_inv d hist M → next_seq_ d < 2 ^ 56 → next_file_number_ d ≤ 2 ^ 64 →
  len key < 2 ^ 32 - 8 → len key + len value < 2 ^ 32 →
  log_room (vsep_ d) (len key + len value) → whole_append env key value → type = kTypeValue ∨ type = kTypeDeletion →
  ∃ s d', WriteEntry strerror env type key value count d = Some (s, d') ∧ same_tables d d' ∧ imm_ d' = imm_ d ∧
    write_result type key value d hist M s d'.
Proof.
  intros [Hd Hv [Hcl Hloc] Hnow Hheld] Hseq Hfile Hk Hsz Hroom Happ Hty. pose proof (len_nonneg key). pose proof (len_nonneg value).
  destruct (WriteEntry_inv strerror env type key value count d hist Hd Hk Hseq Hty)
    as (s1 & stored & d1 & s & d' & Es & E & Ht & Hi & Evs & Hres).
  destruct (separate_spec d env key value Hv (proj1 Happ) ltac:(lia) ltac:(lia) Hroom ltac:(lia) type)
    as (s1' & stored' & d1' & Es' & Hfr & Hv' & Hg & Hden).
  rewrite Es in Es'. injection Es' as <- <- <-.
  destruct (separate_logs d env key value Hv Hcl Happ (conj Hk Hsz) Hroom ltac:(lia) type s1 stored d1 Es) as (Hcl' & Hgrow & Hptr).
  assert (values_ok (next_file_number_ d') (vsep_ d')) as Hv2.
  { rewrite Evs. eapply values_ok_mono; [apply (st_files _ _ Ht)|done]. }
  exists s, d'. unfold write_result. rewrite Evs in *. split_and!; [done|done|done|done|].
  assert (∀ s', s' < next_seq_ d → ∀ v m, v_seq v = next_seq_ d → views (vsep_ d) hist s' m → views (vsep_ d1) (v :: hist) s' m) as Hold.
  { intros s' Hs' v m Ev Hvw. apply views_hidden; [lia|]. by eapply views_grow. }
  destruct (ok s) eqn:Eok.
  2:{ destruct Hres as [En Hd']. split; [done|by rewrite Evs|rewrite Evs; split; [done|by eapply latest_located_grow]| |].
      - rewrite Evs. by eapply views_grow.
      - rewrite Evs, (st_snapshots _ _ Ht). eapply Forall2_impl; [exact Hheld|]. simpl. intros a b [? ?].
        split; [done|by eapply views_grow]. }
  destruct Hres as (Eok1 & En & Hd'). set (v := op_version (entry_op type (next_seq_ d) key stored)) in *.
  assert (v_key v = key ∧ v_seq v = next_seq_ d) as [Ek Ev] by (unfold v, entry_op; by destruct (type =? kTypeValue)).
  pose proof (di_hist _ _ Hd) as Hfits.
  assert (∀ k, read (v :: hist) k kMaxSeq = if bool_decide (v_key v = k) then lookup_of (Some v) else read hist k kMaxSeq) as Hread.
  { intros k. apply (read_newest_write v hist (next_seq_ d)); [done|done|unfold kMaxSeq; lia]. }
  assert (vsep_enabled_ (vsep_ d) = true → ∀ st, answer (lookup_of (Some v)) = Some st → st = stored ∧ type = kTypeValue) as Hst.
  { intros _ st. unfold v, entry_op. destruct Hty as [->| ->]; [|done]. cbn. by intros [= <-]. }
  exists v. split_and!; [done| | |].
  - split; [done|by rewrite Evs|rewrite Evs; split; [done|]| |].
    + intros He k st Hr. rewrite (eg_enabled _ _ Hgrow) in He. rewrite Hread in Hr.
      destruct (decide (v_key v = k)) as [<-|Hne].
      * rewrite bool_decide_eq_true_2 in Hr by done. destruct (Hst He st Hr) as [-> Et].
        rewrite Ek. by apply (Hptr Eok1 Et He).
      * rewrite bool_decide_eq_false_2 in Hr by done. eapply located_in_grow; [done|]. by apply Hloc.
    + unfold written. cbn [contents]. rewrite Evs, written_alter, <- Ek.
      eapply views_write; [done|done|unfold kMaxSeq; lia| |by eapply views_grow].
      apply stored_stands; [done|]. intros Et. destruct (Hden Eok1) as [?|?]; done.
    + unfold written. cbn [held]. rewrite Evs, (st_snapshots _ _ Ht). pose proof (di_snapshots _ _ Hd) as Hsn.
      clear -Hheld Hold Hsn Ev. induction Hheld as [|a b sn hl [? ?] _ IH]; [constructor|].
      inversion Hsn as [|? ? Hlt Hsn']; subst. constructor; [|by apply IH]. split; [done|]. apply Hold; [lia|done|done].
  - intros He st p Hr. rewrite Hread, bool_decide_eq_true_2 in Hr by done. destruct (Hst He st Hr) as [-> Et].
    by apply (Hptr Eok1 Et He).
  - intros k Hne. rewrite Hread. rewrite bool_decide_eq_false_2 by congruence. done.
Qed.

Lemma RotateForFlush_files env d s d' :
  RotateForFlush strerror env d = Some (s, d') → next_file_number_ d' ≤ next_file_number_ d + 2.
Proof.
  unfold RotateForFlush, and_then. destruct (io_uring_active_ (wal_ d)).
  - destruct (DrainWalRing _ _ _) as [[s0 w]|]; [|done]. cbn [mbind option_bind]. destruct (ok s0); [|intros [= <- <-]; cbn; lia].
    destruct (ro_open env); [intros [= <- <-]; cbn; lia|]. destruct (ro_fsync env); [intros [= <- <-]; cbn; lia|].
    cbv zeta. destruct (negb _); intros [= <- <-]; cbn; lia.
  - cbn [mbind option_bind]. change (ok Ok) with true. cbv iota.
    destruct (ro_open env); [intros [= <- <-]; cbn; lia|]. destruct (ro_fsync env); [intros [= <- <-]; cbn; lia|].
    cbv zeta. destruct (negb _); intros [= <- <-]; cbn; lia.
Qed.

(** [Put] and [Delete] when no flush is pending. *)
Lemma data_write_op env type key value d hist M :
  data_inv d hist M → db_limits d → write_limits env key value d → type = kTypeValue ∨ type = kTypeDeletion → imm_ d = None →
  ∃ s d', write_op strerror env type key value d = Some (Some (s, d')) ∧ same_tables d d' ∧
    write_result type key value d hist M s d'.
Proof.
  intros Hda [Hseq _ Hfile _] (Hk & Hsz & Hroom & Happ) Hty Hi. unfold write_op. rewrite Hi.
  assert (∃ s d', (if write_buffer_size (options_ d) <=? mem_ApproximateSize (mem_ d)
      then RotateForFlush strerror (pe_rotate env) d else Some (Ok, d)) = Some (s, d') ∧ data_inv d' hist M ∧
      same_tables d d' ∧ vsep_ d' = vsep_ d ∧ next_seq_ d' = next_seq_ d ∧ next_file_number_ d' ≤ next_file_number_ d + 2)
    as (s0 & d0 & -> & Hda0 & Ht0 & Ev0 & En0 & Ef0).
  { destruct (_ <=? _).
    - destruct (RotateForFlush_inv strerror (pe_rotate env) d hist (da_db _ _ _ Hda) Hi) as (s0 & d0 & E & Hd0 & Ht0 & Ev0 & En0 & _).
      exists s0, d0. pose proof (RotateForFlush_files _ _ _ _ E). split_and!; [done| |done..].
      eapply data_frame; [done|done|done|apply Ht0|apply Ht0].
    - exists Ok, d. split_and!; [done|done|by split|done|done|lia]. }
  unfold and_then. cbn [mbind option_bind]. destruct (ok s0) eqn:E0.
  - destruct (data_write (pe_entry env) type key value true d0 hist M Hda0) as (s & d' & -> & Ht & _ & Hr);
      [lia|lia|done|done|by rewrite Ev0|done|done|].
    exists s, d'. split_and!; [done| |].
    + destruct Ht0, Ht. split; try congruence; lia.
    + unfold write_result in *. by rewrite Ev0 in Hr.
  - exists s0, d0. split_and!; [done|done|]. unfold write_result. rewrite Ev0, E0. split; [apply entries_grow_refl|done].
Qed.

End writes.

(** ** Reads *)

(** The points in time the state can still be read at. *)
Definition readable (d : DB) (s : Z) : Prop := read_seq s ∧ lowest d ≤ s.

Lemma readable_latest d hist : db_inv d hist → next_seq_ d ≤ 2 ^ 56 → readable d kMaxSeq.
Proof. intros Hd Hn. split; [by split; [|right]|]. pose proof (lowest_next d). unfold kMaxSeq. lia. Qed.

Lemma readable_snapshot d hist s : db_inv d hist → next_seq_ d < 2 ^ 56 → s ∈ snapshots_ d → readable d (seq_ s).
Proof.
  intros Hd Hn Hs. pose proof (di_snapshots _ _ Hd) as Hsn. rewrite Forall_forall in Hsn. specialize (Hsn s Hs).
  split; [split; [lia|left; lia]|by apply lowest_snapshot].
Qed.

Lemma find_elem {A} (f : A → bool) l x : find f l = Some x → x ∈ l.
Proof. intros H%find_some. destruct H as [H _]. by apply list_elem_of_In. Qed.

(** The snapshot a read names holds the map that the map holds for it. *)
Lemma read_snapshot_spec sn d hist M :
  data_inv d hist M → next_seq_ d < 2 ^ 56 → is_Some (read_snapshot sn d) →
  ∃ s m, read_snapshot sn d = Some s ∧ map_at sn M = Some m ∧ readable d (read_point s) ∧ views (vsep_ d) hist (read_point s) m.
Proof.
  intros [Hd Hv Hl Hnow Hheld] Hn Hsn. destruct sn as [a|]; cbn [read_snapshot map_at] in *.
  2:{ exists None, (contents M). split_and!; [done|done|eapply readable_latest; [done|lia]|done]. }
  unfold live_snapshot in *. destruct (find (λ s, address s =? a) (snapshots_ d)) as [s|] eqn:E; [|by destruct Hsn].
  pose proof (find_elem _ _ _ E) as Hin.
  assert (∃ p, find (λ p, p.1 =? a) (held M) = Some p ∧ views (vsep_ d) hist (seq_ s) p.2) as (p & Ep & Hp).
  { clear Hsn Hin. induction Hheld as [|x p l ps [Ea Hx] _ IH]; [done|]. cbn [find] in *. rewrite Ea.
    destruct (address x =? a); [|by apply IH]. injection E as <-. by exists p. }
  exists (Some s), p.2. rewrite Ep. split_and!; [done|done|by eapply readable_snapshot|done].
Qed.

Lemma layered_hist d hist key s :
  db_inv d hist → readable d s → answer (layered (layers d) key s) = answer (read hist key s).
Proof.
  intros Hd [_ Hs]. rewrite layered_read.
  - by apply (di_reads _ _ Hd).
  - eapply coherent_sub; [apply (di_coherent _ _ Hd)|apply (di_sub _ _ Hd)].
  - apply (di_stacked _ _ Hd).
Qed.

Lemma data_cache d d' hist M :
  cache_only d d' → values_ok (next_file_number_ d) (vsep_ d') → data_inv d hist M → data_inv d' hist M.
Proof.
  intros [c ->] Hv' [Hd Hv [Hcl Hloc] Hnow Hheld]. split; [|done|by split|done|done].
  eapply same_data_inv; [|exact Hd]. split; try done; try lia. intros _. by apply values_ok_wf in Hv'.
Qed.

Section reads.
Context (hash : bytes → Z).

Lemma data_Get io key sn d hist M m :
  data_inv d hist M → len key < 2 ^ 32 - 8 → readable d (read_point sn) → views (vsep_ d) hist (read_point sn) m →
  ∃ s v d', Get hash io key sn d = Some (s, v, d') ∧ cache_only d d' ∧ data_inv d' hist M ∧
    match m !! key with
    | Some x => (ok s = true → v = Some x) ∧ (io_whole io → ok s = true)
    | None => code_ s = kNotFound
    end.
Proof.
  intros Hda Hk Hr Hvw. pose proof (da_db _ _ _ Hda) as Hd. unfold Get, Get_in, capture. cbn [view_mem view_imm view_version view_seq].
  rewrite LookupIn_layers by (apply Hd || apply Hr || done). cbn [mbind option_bind]. fold (layers d).
  pose proof (layered_hist d hist key _ Hd Hr) as Ha. specialize (Hvw key). rewrite <- Ha in Hvw.
  destruct (layered (layers d) key (read_point sn)) as [stored| |]; cbn [answer stands_for] in Hvw.
  - destruct Hvw as (x & -> & Hden).
    destruct (resolve_spec hash _ d (da_values _ _ _ Hda) io stored x Hden) as (s & r & d' & -> & Hc & Hv' & Hok & Hw).
    cbn [mbind option_bind]. exists s, (Some r), d'. split_and!; [done|done|by eapply data_cache|by intros ?%Hok; subst|done].
  - rewrite Hvw. eexists _, _, d. split_and!; [done|apply cache_only_refl|done|done].
  - rewrite Hvw. eexists _, _, d. split_and!; [done|apply cache_only_refl|done|done].
Qed.

Lemma data_Scan ios lo hi sn d hist M m :
  data_inv d hist M → len lo < 2 ^ 32 - 8 → readable d (read_point sn) → views (vsep_ d) hist (read_point sn) m →
  ∃ L s pairs d', range_of lo hi (λ k, m !! k) L ∧ Scan hash ios lo hi sn d = Some (s, pairs, d') ∧ cache_only d d' ∧
    data_inv d' hist M ∧ (∃ n, pairs = take n L) ∧ (ok s = true → pairs = L) ∧ (Forall io_whole ios → ok s = true).
Proof.
  intros Hda Hk Hr Hvw. pose proof (da_db _ _ _ Hda) as Hd.
  assert (coherent (concat (layers d))) as Hco by (eapply coherent_sub; [apply (di_coherent _ _ Hd)|apply (di_sub _ _ Hd)]).
  destruct (Scan_in_spec (capture sn d) (di_mem _ _ Hd) (di_imm _ _ Hd) (di_version _ _ Hd) Hco (proj1 Hr) hash
    (next_file_number_ d) ios lo hi d (λ k, m !! k) Hk (da_values _ _ _ Hda)) as (L & s & pairs & d' & HL & E & Hc & Hv' & Hn & Hf & Hw).
  { intros k. specialize (Hvw k). cbn [view_seq capture]. rewrite <- (layered_hist d hist k _ Hd Hr) in Hvw.
    by rewrite layered_read in Hvw by (done || apply (di_stacked _ _ Hd)). }
  exists L, s, pairs, d'. split_and!; try done. by eapply data_cache.
Qed.

End reads.

(** ** Snapshots *)

Lemma read_latest next vs k s s' :
  Forall (version_fits next) vs → next - 1 ≤ s → next - 1 ≤ s' → read vs k s = read vs k s'.
Proof.
  intros Hf Hs Hs'. unfold read. f_equal. induction Hf as [|v vs Hv _ IH]; [done|]. cbn [newest].
  assert (sees k s v = sees k s' v) as ->; [|by rewrite IH]. pose proof (vf_seq _ _ Hv).
  apply eq_true_iff_eq. rewrite !sees_spec. intuition lia.
Qed.

Lemma data_GetSnapshot d hist M :
  data_inv d hist M → next_seq_ d < 2 ^ 56 →
  data_inv (GetSnapshot d).2 hist (mkMap (contents M) (held M ++ [(address (GetSnapshot d).1, contents M)])).
Proof.
  intros [Hd Hv Hl Hnow Hheld] Hn. destruct (GetSnapshot_inv d hist Hd) as [Hd' Es]. split; [done|done|done|done|].
  cbn [GetSnapshot snd snapshots_ set_snapshots held]. apply Forall2_app; [done|]. constructor; [|constructor].
  split; [done|]. cbn [snd contents GetSnapshot seq_]. intros k. specialize (Hnow k).
  rewrite (read_latest (next_seq_ d) hist k _ kMaxSeq); [done|apply (di_hist _ _ Hd)|lia|unfold kMaxSeq; lia].
Qed.

Lemma fresh_address_above l s : s ∈ l → address s < fresh_address l.
Proof. unfold fresh_address. induction 1; cbn [foldr]; lia. Qed.

Lemma held_addresses (P : Snapshot → Z * gmap bytes bytes → Prop) l h :
  Forall2 (λ s p, p.1 = address s ∧ P s p) l h → h.*1 = address <$> l.
Proof. induction 1 as [|s p l h [E _] _ IH]; [done|]. rewrite !fmap_cons. by rewrite E, IH. Qed.

Lemma GetSnapshot_fresh d hist M : data_inv d hist M → address (GetSnapshot d).1 ∉ (held M).*1.
Proof.
  intros Hda. rewrite (held_addresses _ _ _ (da_held _ _ _ Hda)). intros (s & E & Hs)%list_elem_of_fmap.
  apply fresh_address_above in Hs. cbn in E. lia.
Qed.

Lemma data_Release a d hist M :
  data_inv d hist M → data_inv (ReleaseSnapshot a d) hist (mkMap (contents M) (release a (held M))).
Proof.
  intros [Hd Hv Hl Hnow Hheld]. split; [by apply ReleaseSnapshot_inv|done|done|done|].
  cbn [ReleaseSnapshot snapshots_ set_snapshots held]. induction Hheld as [|s p l h [E Hs] Hh IH]; [constructor|].
  cbn [erase_snapshot release]. rewrite E. destruct (address s =? a); [done|]. constructor; [done|]. exact IH.
Qed.
