(* ===== verification/DbOpen.v ===== *)
(** * Opening a new database

    [Open] in an empty directory, whichever system calls fail and whatever the
    reads of the new files return: if it hands out a database, the database is
    empty and in a good state ([Open_new]). *)

From S2P Require Import Prelude Status Ring FsUtil Encoding Log VLog LruCache InternalKey Mvcc Layers Iterator Block.
From S2P Require Import SSTable TableSize Manifest SkipList MemTable Merge Db DbRead DbInv DbFlush DbMerge DbCompact.
From S2P Require Import DbValues DbScan DbSystem DbLogs DbRefine.
Import db.

(** The kernel sizes the rings to powers of two, the submission ring to at
    least what was asked for. *)
Definition kernel_sizes (env : open_env) : Prop :=
  ∃ ks kc, 0 ≤ ks < 32 ∧ 0 ≤ kc < 32 ∧ 64 ≤ 2 ^ ks ∧ oe_ring_sizes env = (2 ^ ks, 2 ^ kc).

(** No file has bytes in it. *)
Definition all_empty (f : files) : Prop := ∀ path, default [] (f !! path) = [].

Lemma all_empty_insert path f : all_empty f → all_empty (<[path := []]> f).
Proof.
  intros H p. destruct (decide (p = path)) as [->|]; [by rewrite lookup_insert_eq|by rewrite lookup_insert_ne].
Qed.

Lemma all_empty_delete path f : all_empty f → all_empty (delete path f).
Proof.
  intros H p. destruct (decide (p = path)) as [->|]; [by rewrite lookup_delete_eq|by rewrite lookup_delete_ne].
Qed.

(** ** Reading an empty log *)

Lemma read_fill_nothing sched count : rd_data (read_fill sched count [] []) = [] ∧ rd_rest (read_fill sched count [] []) = [].
Proof.
  revert count. induction sched as [|o sched IH]; intros count; cbn [read_fill]; destruct (Z.leb_spec count 0); try done.
  - cbn [rd_data rd_rest app]. unfold slice, at_off. by rewrite !drop_nil, take_nil.
  - destruct o as [n| |e]; [|apply IH|done]. assert (read_amount n count [] = 0) as -> by (unfold read_amount; change (len (@nil byte)) with 0; lia). done.
Qed.

Lemma phys_loop_nothing fuel r :
  (0 < fuel)%nat → log.fd_rest r = [] → log.buffer_ r = [] → log.pos_ r = 0 →
  ∃ res r', log.phys_loop fuel r = Some (res, r') ∧ (res = log.PhysEof ∨ res = log.PhysCorruption).
Proof.
  destruct fuel as [|fuel]; [lia|]. intros _ Ef Eb Ep. cbn [log.phys_loop]. rewrite Eb, Ep. change (len (@nil byte) <? 0 + log.kHeaderSize) with true. cbv iota.
  destruct (log.eof_ r); [by eexists _, _; split; [|left]|]. cbv zeta. cbn [log.fd_sched log.fd_rest log.set_pos log.eof_]. rewrite Ef.
  destruct (read_fill_nothing (log.fd_sched r) log.kBlockSize) as [Ed _]. rewrite Ed. change (len (@nil byte) =? 0) with true. cbv iota.
  destruct (rd_end _); eexists _, _; (split; [done|]); auto.
Qed.

Lemma ForEachRecord_nothing {St} (step : St → bytes → St * bool) sched st :
  ∃ how, log.ForEachRecord step [] sched st = Some (st, how).
Proof.
  unfold log.ForEachRecord. cbn [length log.for_records]. unfold log.ReadRecord. cbn [log.rec_loop].
  unfold log.ReadPhysicalRecord. 
  match goal with |- context [log.phys_loop ?n ?r] => destruct (phys_loop_nothing n r) as (res & r' & -> & Hres); [lia|done..|] end.
  cbn [mbind option_bind]. destruct Hres as [->| ->]; by eexists.
Qed.

(** ** The parts of the new state *)

Lemma replay_nothing env dir numbers f st cut :
  all_empty f →
  ∃ f' r, replay_logs env dir numbers f st cut = Some (f', r) ∧ all_empty f' ∧
    match r with inl _ => True | inr (st', _) => st' = st end.
Proof.
  revert f cut. induction numbers as [|n numbers IH]; intros f cut Hf; cbn [replay_logs]; [by eexists _, _|].
  unfold replay_log. destruct (oe_log_open env n); [by eexists _, _|]. cbv zeta. rewrite (Hf (LogPath dir n)).
  destruct (ForEachRecord_nothing replay_step (oe_log_reads env n) st) as (how & ->). cbn [mbind option_bind].
  pose proof (all_empty_insert (LogPath dir n) f Hf) as Hf1.
  assert (∀ off, slice 0 off (@nil byte) = []) as Hsl by (intros; unfold slice; by rewrite drop_nil, take_nil).
  destruct how as [|off|off].
  - by apply IH.
  - destruct (oe_truncate env n); [by eexists _, _|]. rewrite Hsl. apply IH. by apply all_empty_insert.
  - destruct (oe_truncate env n); [by eexists _, _|]. rewrite Hsl. apply IH. by apply all_empty_insert.
Qed.

Lemma remove_orphans_empty removed dir live floor vlogs f :
  all_empty f → all_empty (RemoveOrphanFiles removed dir live floor vlogs f).
Proof.
  unfold RemoveOrphanFiles. generalize (dir_names dir f). intros names. revert f.
  induction names as [|n names IH]; intros f Hf; cbn [foldl]; [done|]. apply IH. destruct (orphan _ _ _ n); [|done].
  unfold unlink. destruct (removed _); [by apply all_empty_delete|done].
Qed.

Lemma attach_wf env dir o n cut f f' w :
  kernel_sizes env → attach_log env dir o n cut f = (f', inr w) → wal_wf w.
Proof.
  intros (ks & kc & Hks & Hkc & H64 & Es). unfold attach_log.
  assert (∀ rs r, (if enable_io_uring o
    then ring.Open (oe_ring_setup env) (oe_ring_mmap env) 64 (oe_ring_sizes env).1 (oe_ring_sizes env).2
    else (IOError (lit "not requested (Options::enable_io_uring)"), None)) = (rs, r) →
    match r with Some r => ring.ring_wf r | None => True end) as Hr.
  { intros rs r. destruct (enable_io_uring o); [|by intros [= _ <-]]. unfold ring.Open. rewrite Es.
    destruct (oe_ring_setup env); [by intros [= _ <-]|]. destruct (oe_ring_mmap env); intros [= _ <-]; [done|].
    eexists _, _, _, _. by apply ring.new_Ring_rep. }
  destruct (if enable_io_uring o then _ else _) as [rs r] eqn:E. specialize (Hr rs r eq_refl).
  destruct (oe_wal_open env); [done|]. intros [= _ <-]. exact Hr.
Qed.

(** Value logs as [Open] finds them in a new directory. *)
Definition new_vlogs (o : Options) : list vlog.VLog :=
  if enable_value_separation o then [vlog.mkVLog [] 1 0] else [].

Lemma new_values o next : 1 < next → values_ok next (open_vsep o (new_vlogs o)).
Proof.
  intros Hn. unfold open_vsep, new_vlogs.
  pose proof (new_cache_repr (Key := bytes) (Value := bytes) len 16 (Z.shiftl 32 20) ltac:(lia) ltac:(vm_compute; discriminate)) as Hc.
  destruct (enable_value_separation o); split; cbn [vlogs_ vsep_enabled_ vlog_cache_].
  - constructor; [|constructor]. cbn. split; [by split|lia].
  - apply NoDup_singleton.
  - intros _. by eexists.
  - eexists. split; [exact Hc|]. by intros i k x ?%not_elem_of_nil.
  - constructor.
  - constructor.
  - done.
  - eexists. split; [exact Hc|]. by intros i k x ?%not_elem_of_nil.
Qed.

Lemma new_logs o : logs_ok (open_vsep o (new_vlogs o)) [].
Proof.
  unfold open_vsep, new_vlogs. split; [|by intros _ k stored].
  destruct (enable_value_separation o); cbn; [|constructor]. constructor; [apply clean_new|constructor].
Qed.

Lemma new_data f dir o w next st :
  wal_wf w → 1 < next →
  data_inv (mkDB f dir o w new_MemTable None 0 0 (assemble []) 1 [] next (open_vsep o (new_vlogs o)) st false false Ok) []
    (mkMap ∅ []).
Proof.
  intros Hw Hn. pose proof (new_values o next Hn) as Hv. split; [|done|by apply new_logs|by intros k|constructor].
  assert (concat (replicate 6 (@nil version)) = []) as Ec by done.
  set (d := mkDB _ _ _ _ _ _ _ _ _ _ _ _ _ _ _ _ _).
  assert (layers d = [] :: [] :: replicate 6 []) as El by (unfold layers, view_layers; cbn [d mem_ imm_ current_]; by rewrite mem_versions_new).
  split; rewrite ?El; cbn [d mem_ imm_ current_ next_seq_ snapshots_ wal_ vsep_].
  - apply mem_ok_new.
  - done.
  - split; [constructor|]. apply Forall_forall. intros level Hin. assert (level = []) as ->; [|by split].
    assert (levels (assemble []) = replicate 6 []) as E by done. rewrite E in Hin. by apply elem_of_replicate in Hin as [-> _].
  - done.
  - cbn. unfold newer. repeat split; by intros u v ?%not_elem_of_nil.
  - cbn. by intros v ?%not_elem_of_nil.
  - by intros v u ?%not_elem_of_nil.
  - constructor.
  - lia.
  - constructor.
  - done.
  - split; cbn; [by repeat constructor|constructor|by intros [? ?]].
  - done.
  - by eapply values_ok_wf.
Qed.

(** Whatever fails, [Open] of an empty directory is defined, and a database it
    hands out is empty. *)
Lemma Open_new env dir o :
  kernel_sizes env →
  ∃ f r, Open env dir o ∅ = Some (f, r) ∧ match r with inl _ => True | inr d => data_inv d [] (mkMap ∅ []) end.
Proof.
  intros Hk. unfold Open. destruct (oe_mkdir env); [by eexists _, _|]. rewrite lookup_empty. cbn [mbind option_bind].
  cbn [ms_has_log_number negb ms_files open_tables mbind option_bind ms_vlogs ms_log_number fmap list_fmap foldl].
  assert (dir_names dir ∅ = []) as -> by done. cbn [existsb]. rewrite andb_false_r. cbn [andb].
  rewrite bool_decide_eq_false_2 by (intros H; by apply H). cbn [andb]. cbv zeta.
  set (live := if enable_value_separation o then _ else _).
  assert (∃ f1 vs, open_vlogs env dir ∅ live = (f1, vs) ∧ all_empty f1 ∧
    match vs with inl _ => True | inr vs => vs = new_vlogs o end) as (f1 & vs & -> & Hf1 & Hvs).
  { unfold live, new_vlogs. destruct (enable_value_separation o); cbn [open_vlogs]; [|by eexists _, _].
    unfold vlog.Open. destruct (oe_vlog_open env 1); [by eexists _, _|]. rewrite lookup_empty. cbn [default vlog.v_file].
    eexists _, _. split_and!; [done|by apply all_empty_insert|done]. }
  destruct vs as [e|vs]; [by eexists _, _|]. subst vs. unfold recover. destruct (negb (oe_opendir_logs env)); [by eexists _, _|].
  cbv zeta. cbn [ms_log_number ms_files]. set (f2 := if oe_opendir_orphans env then _ else _).
  assert (all_empty f2) as Hf2 by (unfold f2; destruct (oe_opendir_orphans env); [by apply remove_orphans_empty|done]).
  match goal with |- context [replay_logs env dir ?ns f2 ?st ?c] => destruct (replay_nothing env dir ns f2 st c Hf2) as (f3 & r & -> & Hf3 & Hr) end.
  cbn [mbind option_bind]. destruct r as [e|[st cut]]; [by eexists _, _|]. subst st. cbn [rp_mem mbind option_bind].
  destruct (attach_log _ _ _ _ _ _) as [f4 w] eqn:Ew. destruct w as [e|w]; [by eexists _, _|].
  apply attach_wf in Ew; [|done]. destruct (negb _); [by eexists _, _|]. eexists _, _. split; [done|].
  cbn [rp_max_seq]. change (max_table_seq (assemble []) 0 + 1) with 1. apply new_data; [done|].
  unfold live. destruct (enable_value_separation o); cbn; lia.
Qed.
