(* ===== verification/DbBackground.v ===== *)
(** * The background thread's invariant

    What is true of the state at each point of the background thread
    ([bg_inv]), that the users' calls keep it ([bg_inv_stable]), and the steps
    of a flush and of a compaction.  The steps of a collection are in
    DbCollect. *)

From S2P Require Import Prelude Status FsUtil Encoding VLog LruCache InternalKey Mvcc Layers Iterator Block.
From S2P Require Import SSTable TableSize SkipList MemTable Merge Db DbRead DbInv DbFlush DbPick DbMerge DbCompact.
From S2P Require Import DbValues DbScan DbSystem DbLogs DbRefine.
Import db.

(** ** The invariant *)

Definition flush_inv (d : DB) (f : Flushing) : Prop :=
  match f with
  | FlBuild imm _ n => imm_ d = Some imm ∧ n < next_file_number_ d
  | FlInstall _ r => ∃ imm n, imm_ d = Some imm ∧ table_of r n 0 (mem_versions imm) ∧ n < next_file_number_ d
  | FlDone s => ok s = true → ∃ imm r, imm_ d = Some imm ∧ r ∈ l0 (current_ d) ∧ ref_versions r = mem_versions imm
  end.

Definition compaction_versions (c : Compaction) : list version := level_versions (inputs_a c ++ inputs_b c).

(** No reader needs a version between the floor and the newest one below
    it. *)
Definition floor_ok (d : DB) (c : Compaction) (F : Z) : Prop :=
  F ≤ lowest d ∨ ∀ v, v ∈ compaction_versions c → v_seq v ≤ lowest d.

Definition merged_ok (d : DB) (c : Compaction) (outs : list TableRef) : Prop :=
  ∃ n0 n1 F, outputs_ok n0 n1 F c (compaction_versions c) outs ∧
    Forall (λ r, ref_number r < n0) (version_refs (current_ d)) ∧ n1 ≤ next_file_number_ d ∧ floor_ok d c F.

(** The entries of generations that have not been visited: generation, key and
    offset. *)
Definition unvisited (gen : Z) (es : list (bytes * bytes * Z)) : list (Z * bytes * Z) := (λ e, (gen, e.1.1, e.2)) <$> es.

Definition unscanned (gens : list vlog.VLog) : list (Z * bytes * Z) :=
  concat ((λ g, unvisited (vlog.number_ g) (gen_entries g)) <$> gens).

(** A retired generation does not change, and a latest pointer into it leads to
    an entry that has not been visited. *)
Record collecting_ok (d : DB) (hist : list version) (g : Collecting) (todo : list (Z * bytes * Z)) : Prop := {
  co_enabled : vsep_enabled_ (vsep_ d) = true;
  co_retired : ∀ v, v ∈ gc_retired g →
    find_vlog (vlog.number_ v) (vlogs_ (vsep_ d)) = Some v ∧ vlog_current_ (vsep_ d) ≠ Some (vlog.number_ v);
  co_rest : ∀ v, v ∈ gc_rest g → v ∈ gc_retired g;
  co_todo : ∀ k stored p, answer (read hist k kMaxSeq) = Some stored → pointer_shaped stored = true →
    DecodeValuePointer stored = Some p → vlog_number p ∈ vlog.number_ <$> gc_retired g → (vlog_number p, k, offset p) ∈ todo
}.

Record scanning_ok (d : DB) (hist : list version) (x : Scanning) : Prop := {
  sn_gc : collecting_ok d hist (sc_gc x) (unvisited (sc_gen x) (sc_entries x) ++ unscanned (gc_rest (sc_gc x)));
  sn_entries : ∃ v, v ∈ gc_retired (sc_gc x) ∧ vlog.number_ v = sc_gen x ∧ ∀ e, e ∈ sc_entries x → e ∈ gen_entries v
}.

Definition bg_inv (d : DB) (hist : list version) (b : Bg) : Prop :=
  match b with
  | BgIdle | BgCompacted _ | BgGcDone _ => True
  | BgFlush f => flush_inv d f
  | BgPicked c => picked_ok (current_ d) c
  | BgFloor c F => picked_ok (current_ d) c ∧ floor_ok d c F
  | BgMerged c outs => picked_ok (current_ d) c ∧ merged_ok d c outs
  | BgGcRotate => vsep_enabled_ (vsep_ d) = true
  | BgGcScan g => collecting_ok d hist g (unscanned (gc_rest g))
  | BgGcEntries x | BgGcDrain x => scanning_ok d hist x
  | BgGcFlush f x => flush_inv d f ∧ scanning_ok d hist x
  | BgGcRetire g => collecting_ok d hist g []
  end.

(** ** Stability *)

(** What the background thread sees of the others' steps. *)
Record others (d : DB) (hist : list version) (d' : DB) (hist' : list version) : Prop := {
  ot_current : current_ d' = current_ d;
  ot_lowest : lowest d ≤ lowest d';
  ot_files : next_file_number_ d ≤ next_file_number_ d';
  ot_imm : is_Some (imm_ d) → imm_ d' = imm_ d;
  ot_logs : entries_grow (vsep_ d) (vsep_ d');
  ot_latest : vsep_enabled_ (vsep_ d) = true → ∀ k stored p, answer (read hist' k kMaxSeq) = Some stored →
    pointer_shaped stored = true → DecodeValuePointer stored = Some p →
    answer (read hist k kMaxSeq) = Some stored ∨ vlog_current_ (vsep_ d) = Some (vlog_number p)
}.

Section stable.
Context (d d' : DB) (hist hist' : list version) (Ho : others d hist d' hist').

Lemma flush_inv_stable f : flush_inv d f → flush_inv d' f.
Proof using Ho.
  destruct Ho as [Hc _ Hf Hi _ _]. destruct f as [imm log n|log r|s]; cbn [flush_inv].
  - intros [E Hn]. split; [|lia]. by rewrite Hi by (by rewrite E).
  - intros (imm & n & E & Ht & Hn). exists imm, n. split_and!; [|done|lia]. by rewrite Hi by (by rewrite E).
  - intros H Hs. destruct (H Hs) as (imm & r & E & Hr & Hv). exists imm, r. rewrite Hc. split_and!; [|done|done].
    by rewrite Hi by (by rewrite E).
Qed.

Lemma floor_ok_stable c F : floor_ok d c F → floor_ok d' c F.
Proof using Ho.
  intros [H|H]; [left; pose proof (ot_lowest _ _ _ _ Ho); lia|right]. intros v Hv. specialize (H v Hv).
  pose proof (ot_lowest _ _ _ _ Ho). lia.
Qed.

Lemma merged_ok_stable c outs : merged_ok d c outs → merged_ok d' c outs.
Proof using Ho.
  intros (n0 & n1 & F & H1 & H2 & H3 & H4). exists n0, n1, F. rewrite (ot_current _ _ _ _ Ho).
  split_and!; [done|done| |by apply floor_ok_stable]. pose proof (ot_files _ _ _ _ Ho). lia.
Qed.

Lemma collecting_ok_stable g todo : collecting_ok d hist g todo → collecting_ok d' hist' g todo.
Proof using Ho.
  destruct Ho as [_ _ _ _ Hg Hl]. intros [He Hr Hs Ht]. split.
  - by rewrite (eg_enabled _ _ Hg).
  - intros v Hv. destruct (Hr v Hv) as [Hf Hc]. rewrite (eg_current _ _ Hg). split; [|done].
    pose proof (eg_logs _ _ Hg (vlog.number_ v)) as H. rewrite Hf in H.
    destruct (find_vlog _ (vlogs_ (vsep_ d'))) as [v'|]; [|done]. destruct H as [_ H]. by rewrite H.
  - done.
  - intros k stored p Ha Hp Hd Hin. destruct (Hl He k stored p Ha Hp Hd) as [Ha'|Hcur]; [by eapply Ht|].
    apply list_elem_of_fmap in Hin as (v & E & Hv). destruct (Hr v Hv) as [_ Hne]. by rewrite <- E in Hne.
Qed.

Lemma scanning_ok_stable x : scanning_ok d hist x → scanning_ok d' hist' x.
Proof using Ho. intros [H1 H2]. split; [by apply collecting_ok_stable|done]. Qed.

Lemma bg_inv_stable b : bg_inv d hist b → bg_inv d' hist' b.
Proof using Ho.
  pose proof (ot_current _ _ _ _ Ho) as Hc. destruct b; cbn [bg_inv]; rewrite ?Hc; try done.
  - apply flush_inv_stable.
  - intros [? ?]. split; [done|by apply floor_ok_stable].
  - intros [? ?]. split; [done|by apply merged_ok_stable].
  - by rewrite (eg_enabled _ _ (ot_logs _ _ _ _ Ho)).
  - apply collecting_ok_stable.
  - apply scanning_ok_stable.
  - apply scanning_ok_stable.
  - intros [? ?]. split; [by apply flush_inv_stable|by apply scanning_ok_stable].
  - apply collecting_ok_stable.
Qed.

End stable.

(** ** The users' steps *)

Record sys_inv (S : System) (hist : list version) (M : Map) : Prop := {
  sv_data : data_inv (sys_db S) hist M;
  sv_bg : bg_inv (sys_db S) hist (sys_bg S)
}.

Lemma others_write type key value d hist M s d' :
  write_result type key value d hist M s d' → same_tables d d' → (is_Some (imm_ d) → imm_ d' = imm_ d) →
  ∃ hist', others d hist d' hist' ∧ data_inv d' hist' (if ok s then written type key value M else M).
Proof.
  intros [Hg Hr] Ht Hi.
  assert (lowest d ≤ lowest d') as Hlow.
  { apply lowest_mono; [apply Ht|]. rewrite (st_snapshots _ _ Ht). by left. }
  destruct (ok s).
  - destruct Hr as (v & Ek & Hda & Hptr & Hother). exists (v :: hist). split; [|done].
    split; [apply Ht|done|apply Ht|done|done|]. intros He k stored p Ha Hp Hd.
    destruct (decide (k = key)) as [->|Hne]; [right; by eapply Hptr|left]. by rewrite <- Hother.
  - exists hist. split; [|done]. split; [apply Ht|done|apply Ht|done|done|]. intros _ k stored p Ha _ _. by left.
Qed.

Lemma others_cache d d' hist : cache_only d d' → others d hist d' hist.
Proof.
  intros [c ->]. split; [done| |done|done| |].
  - unfold lowest. cbn. lia.
  - by destruct (entries_grow_refl (vsep_ d)); split.
  - intros _ k stored p Ha _ _. by left.
Qed.

Lemma others_snapshots d hist l :
  (∀ s, s ∈ l → s ∈ snapshots_ d ∨ next_seq_ d - 1 ≤ seq_ s) → others d hist (set_snapshots l d) hist.
Proof.
  intros Hl. split; [done| |done|done|apply entries_grow_refl|].
  - apply lowest_mono; [done|exact Hl].
  - intros _ k stored p Ha _ _. by left.
Qed.

Section client.
Context (hash : bytes → Z) (strerror : Z → bytes).

Lemma write_simulates env type key value S hist M :
  sys_inv S hist M → db_limits (sys_db S) → write_limits env key value (sys_db S) →
  type = kTypeValue ∨ type = kTypeDeletion →
  ∃ r hist', write_op strerror env type key value (sys_db S) = Some r ∧
    let '(a, S') := write_answer r S in
    match a with
    | AWaiting => S' = S ∧ hist' = hist
    | AStatus s => sys_inv S' hist' (if ok s then written type key value M else M)
    | _ => False
    end.
Proof.
  intros [Hda Hb] Hl Hw Hty. destruct (imm_ (sys_db S)) as [m|] eqn:Ei.
  { exists None, hist. unfold write_op. by rewrite Ei. }
  destruct (data_write_op strerror env type key value _ hist M Hda Hl Hw Hty Ei) as (s & d' & E & Ht & Hr).
  destruct (others_write _ _ _ _ _ _ _ _ Hr Ht) as (hist' & Ho & Hda').
  { rewrite Ei. by intros [? ?]. }
  exists (Some (s, d')), hist'. split; [done|]. cbn [write_answer]. split; [done|]. cbn [sys_db sys_bg].
  by eapply bg_inv_stable.
Qed.

(** A user's call is answered as the map allows. *)
Lemma call_simulates c S hist M :
  sys_inv S hist M → limits c S → (∀ env, c ≠ CBackground env) →
  ∃ a S' hist' M', step hash strerror c S = Some (a, S') ∧ allowed c a M M' ∧ sys_inv S' hist' M'.
Proof.
  intros Hs [Hl Hc] Hnb. pose proof Hs as [Hda Hb]. destruct c as [env key value|env key|io key sn|ios lo hi sn| |a|env]; cbn [step].
  - destruct (write_simulates env kTypeValue key value S hist M Hs Hl Hc ltac:(by left)) as (r & hist' & E & H).
    unfold Put. rewrite E. cbn [mbind option_bind]. destruct (write_answer r S) as [a S'].
    destruct a; try done; [destruct H as [-> ->]; by exists AWaiting, S, hist, M|].
    exists (AStatus s), S', hist'. eexists. split_and!; [done|reflexivity|]. by destruct (ok s).
  - destruct (write_simulates env kTypeDeletion key [] S hist M Hs Hl Hc ltac:(by right)) as (r & hist' & E & H).
    unfold Delete. rewrite E. cbn [mbind option_bind]. destruct (write_answer r S) as [a S'].
    destruct a; try done; [destruct H as [-> ->]; by exists AWaiting, S, hist, M|].
    exists (AStatus s), S', hist'. eexists. split_and!; [done|reflexivity|]. by destruct (ok s).
  - destruct Hc as [Hk Hsn]. destruct (read_snapshot_spec sn _ hist M Hda (dl_seq _ Hl) Hsn) as (s & m & -> & Em & Hr & Hv).
    cbn [mbind option_bind]. destruct (data_Get hash io key s _ hist M m Hda Hk Hr Hv) as (st & v & d' & -> & Hco & Hda' & Hres).
    cbn [mbind option_bind]. exists (AValue st v), (mkSystem d' (sys_bg S)), hist, M. split_and!; [done|split; [done|]; by exists m|].
    split; [done|]. eapply bg_inv_stable; [by apply others_cache|done].
  - destruct Hc as [Hk Hsn]. destruct (read_snapshot_spec sn _ hist M Hda (dl_seq _ Hl) Hsn) as (s & m & -> & Em & Hr & Hv).
    cbn [mbind option_bind]. destruct (data_Scan hash ios lo hi s _ hist M m Hda Hk Hr Hv) as (L & st & ps & d' & HL & -> & Hco & Hda' & Hres).
    cbn [mbind option_bind]. exists (APairs st ps), (mkSystem d' (sys_bg S)), hist, M. split_and!; [done|split; [done|]; by exists m, L|].
    split; [done|]. eapply bg_inv_stable; [by apply others_cache|done].
  - pose proof (data_GetSnapshot (sys_db S) hist M Hda (dl_seq _ Hl)) as Hda'. pose proof (GetSnapshot_fresh (sys_db S) hist M Hda) as Hf.
    eexists _, _, hist, _. split_and!; [reflexivity|split; [exact Hf|reflexivity]|]. split; [exact Hda'|].
    eapply bg_inv_stable; [apply others_snapshots|exact Hb]. intros s [Hs'|Hs']%elem_of_app; [by left|right].
    apply list_elem_of_singleton in Hs' as ->. done.
  - pose proof (data_Release a _ hist M Hda) as Hda'. eexists _, _, hist, _. split_and!; [reflexivity|reflexivity|].
    split; [exact Hda'|]. eapply bg_inv_stable; [apply others_snapshots|exact Hb]. intros s Hs'. left. by eapply erase_snapshot_sub.
  - by destruct (Hnb env).
Qed.

End client.

(** ** A flush *)

(** The parts of the state a flush and a compaction leave alone. *)
Record tables_frame (d d' : DB) : Prop := {
  tf_vsep : vsep_ d' = vsep_ d;
  tf_snapshots : snapshots_ d' = snapshots_ d;
  tf_next : next_seq_ d' = next_seq_ d;
  tf_files : next_file_number_ d ≤ next_file_number_ d';
  tf_mem : mem_ d' = mem_ d
}.

Lemma data_tables d d' hist M : data_inv d hist M → db_inv d' hist → tables_frame d d' → data_inv d' hist M.
Proof. intros Hda Hd [? ? ? ? ?]. by eapply data_frame. Qed.

Lemma same_data_frame d d' : same_data d d' → vsep_ d' = vsep_ d → tables_frame d d'.
Proof. intros [] ?. by split. Qed.

Lemma imm_weight d imm : imm_ d = Some imm → total_weight (mem_versions imm) ≤ total_weight (concat (layers d)).
Proof.
  intros E. unfold layers, view_layers. rewrite E. cbn [concat imm_versions]. rewrite !total_weight_app.
  pose proof (total_weight_nonneg (mem_versions (mem_ d))). pose proof (total_weight_nonneg (concat (version_layers (current_ d)))). lia.
Qed.

Lemma imm_in_hist d hist imm v : db_inv d hist → imm_ d = Some imm → v ∈ mem_versions imm → v ∈ hist.
Proof.
  intros Hd E Hv. apply (di_sub _ _ Hd). unfold layers, view_layers. rewrite E. cbn [concat imm_versions].
  rewrite !elem_of_app. auto.
Qed.

Lemma flush_step_spec env f d hist M :
  data_inv d hist M → db_limits d → flush_inv d f →
  ∃ f' d', flush_step env f d = Some (f', d') ∧ data_inv d' hist M ∧ flush_inv d' f' ∧ tables_frame d d'.
Proof.
  intros Hda Hl Hf. pose proof (da_db _ _ _ Hda) as Hd. destruct f as [imm log n|log r|s]; cbn [flush_step flush_inv] in *.
  - destruct Hf as [E Hn]. pose proof (di_imm _ _ Hd) as Hi. rewrite E in Hi. pose proof (imm_weight d imm E). destruct Hl as [_ Hw _ _].
    destruct (flush_build_spec d hist Hd (fe_sst env) imm n Hi (λ v, imm_in_hist d hist imm v Hd E) ltac:(lia))
      as (s & r & d' & -> & Hsd & _ & Evs & _ & Hr). cbn [mbind option_bind].
    pose proof (same_data_frame _ _ Hsd Evs) as Hfr. eexists _, d'. split_and!; [done| | |done].
    + eapply data_tables; [done|by eapply same_data_inv|done].
    + destruct r as [r|]; cbn [flush_inv]; [|by rewrite (proj1 Hr)]. destruct Hr as (_ & Ht & _). exists imm, n.
      destruct Hsd. split_and!; [congruence|done|lia].
  - destruct Hf as (imm & n & E & Ht & Hn).
    destruct (flush_install_spec d hist Hd (fe_manifest env) (fe_unlink env) imm r n log E Ht Hn)
      as (s & d' & -> & Hd' & Ei & El & Enx & Esn & Evs & Em & _ & Enf).
    assert (tables_frame d d') as Hfr by (split; try done; lia).
    eexists _, d'. split_and!; [done|by eapply data_tables| |done]. cbn [flush_inv]. intros _. exists imm, r.
    rewrite El. split_and!; [done|apply list_elem_of_here|apply Ht].
  - eexists _, d. split_and!; [done|done|done|by split].
Qed.

(** The memtable is dropped once its table is installed. *)
Lemma drop_imm d hist M s :
  data_inv d hist M → flush_inv d (FlDone s) → ok s = true → data_inv (set_imm None d) hist M ∧ tables_frame d (set_imm None d).
Proof.
  intros Hda Hf Hs. destruct (Hf Hs) as (imm & r & E & Hr & Hv).
  assert (tables_frame d (set_imm None d)) as Hfr by by split. split; [|done].
  eapply data_tables; [done| |done]. by eapply release_imm_inv; [apply Hda|..].
Qed.

(** ** A compaction *)

Lemma SmallestSnapshotSeq_foldr d : SmallestSnapshotSeq d = foldr Z.min kMaxSeq (seq_ <$> snapshots_ d).
Proof.
  unfold SmallestSnapshotSeq. generalize kMaxSeq. induction (snapshots_ d) as [|s l IH]; intros z; [done|].
  cbn [foldl]. rewrite IH, fmap_cons. cbn [foldr]. clear IH.
  induction (seq_ <$> l) as [|y ys IH]; cbn [foldr] in *; lia.
Qed.

(** With live snapshots the floor is the oldest of them; without, nothing is
    newer than a latest read. *)
Lemma floor_now d hist c :
  db_inv d hist → next_seq_ d < 2 ^ 56 → (∀ v, v ∈ compaction_versions c → v ∈ hist) → floor_ok d c (SmallestSnapshotSeq d).
Proof.
  intros Hd Hn Hin. rewrite SmallestSnapshotSeq_foldr. unfold floor_ok. destruct (snapshots_ d) as [|s l] eqn:E.
  - right. intros v Hv. unfold lowest. rewrite E. cbn. pose proof (fits_seq _ _ v (di_hist _ _ Hd) (Hin v Hv)). lia.
  - left. unfold lowest. apply foldr_min_glb.
    + pose proof (di_snapshots _ _ Hd) as Hs. rewrite E in Hs. inversion Hs as [|? ? Hs1 _]; subst. rewrite fmap_cons. cbn [foldr].
      etrans; [apply Z.le_min_l|]. lia.
    + rewrite E. apply Forall_forall. intros x Hx. by apply foldr_min_elem.
Qed.

(** The inputs of a picked compaction are tables of the version. *)
Lemma picked_inputs v c r : picked_ok v c → r ∈ inputs_a c ++ inputs_b c → r ∈ version_refs v.
Proof.
  intros [Ho Hs Hb _]. unfold version_refs. rewrite !elem_of_app.
  assert (∀ i, r ∈ level_at v i → r ∈ concat (levels v)) as Hl.
  { intros i. unfold level_at. destruct (levels v !! i) as [level|] eqn:E; [|by intros ?%not_elem_of_nil].
    intros Hr. apply elem_of_concat. exists level. split; [by eapply list_elem_of_lookup_2|done]. }
  intros [Ha|Hr]; [|right; eapply Hl; by apply Hb]. destruct (source_level c) as [i|].
  - destruct Hs as (_ & r0 & rest & E & Ea). rewrite Ea in Ha. apply list_elem_of_singleton in Ha as ->.
    right. apply (Hl i). rewrite E. apply list_elem_of_here.
  - destruct Hs as [Ea _]. rewrite Ea in Ha. by left.
Qed.

Section compaction.
Context (d : DB) (hist : list version) (M : Map) (Hda : data_inv d hist M) (Hl : db_limits d).

Let Hd : db_inv d hist := da_db _ _ _ Hda.

Lemma inputs_ok c : picked_ok (current_ d) c → Forall ref_ok (inputs_a c ++ inputs_b c).
Proof using Hda.
  intros Hp. apply Forall_forall. intros r Hr%(picked_inputs _ _ _ Hp).
  pose proof (version_refs_ok (capture None d) (di_version _ _ Hd)) as H. rewrite Forall_forall in H. by apply H.
Qed.

Lemma inputs_in_layers c v : picked_ok (current_ d) c → v ∈ compaction_versions c → v ∈ concat (layers d).
Proof using.
  intros Hp (r & Hr & Hv)%level_versions_elem. apply view_versions_elem. right. right. exists r.
  split; [by eapply picked_inputs|done].
Qed.

Lemma pick_spec :
  CompactionNeeded d = true → ∃ c, PickCompaction d = Some c ∧ picked_ok (current_ d) c.
Proof using Hda Hl. intros Hn. by eapply PickCompaction_spec; [exact Hd|apply Hl|]. Qed.

Lemma floor_spec c : picked_ok (current_ d) c → floor_ok d c (SmallestSnapshotSeq d).
Proof using Hda Hl.
  intros Hp. eapply floor_now; [exact Hd|apply Hl|]. intros v Hv. apply (di_sub _ _ Hd). by eapply inputs_in_layers.
Qed.

Lemma merge_spec env c F :
  picked_ok (current_ d) c → floor_ok d c F →
  ∃ s outs d', compact_merge env F c d = Some (s, outs, d') ∧ data_inv d' hist M ∧ tables_frame d d' ∧
    current_ d' = current_ d ∧ (ok s = true → merged_ok d' c outs).
Proof using Hda Hl.
  intros Hp Hf.
  assert (coherent (concat (layers d))) as Hco by (eapply coherent_sub; [apply (di_coherent _ _ Hd)|apply (di_sub _ _ Hd)]).
  assert (Forall (version_fits (next_seq_ d)) (concat (layers d))) as Hfit by (eapply fits_sub; [apply (di_hist _ _ Hd)|apply (di_sub _ _ Hd)]).
  destruct (compact_merge_spec d (concat (layers d)) (next_seq_ d) Hfit (dl_weight _ Hl) Hco F c (inputs_ok c Hp)
    (λ v, inputs_in_layers c v Hp) env) as (s & outs & d' & E & Hfo & Hok).
  pose proof (same_data_frame _ _ (fo_data _ _ Hfo) (fo_vsep _ _ Hfo)) as Hfr.
  exists s, outs, d'. split_and!; [done| |done|apply Hfo|].
  - eapply data_tables; [done|eapply same_data_inv; [apply Hfo|exact Hd]|done].
  - intros Hs. eexists _, _, F. split_and!; [exact (Hok Hs)| |lia|].
    + rewrite (sd_current _ _ (fo_data _ _ Hfo)). apply (no_next _ (di_numbers _ _ Hd)).
    + unfold floor_ok in *. by rewrite (same_data_lowest _ _ (fo_data _ _ Hfo)).
Qed.

Lemma install_spec env c outs :
  picked_ok (current_ d) c → merged_ok d c outs →
  ∃ s d', compact_install env c outs d = (s, d') ∧ data_inv d' hist M.
Proof using Hda.
  intros Hp (n0 & n1 & F & Ho & Hold & Hn & Hf).
  destruct (compact_install_spec d hist Hd c outs n0 n1 F Hp Ho Hold Hn Hf env) as (s & d' & E & Hd' & _ & Hfo).
  exists s, d'. split; [done|]. pose proof (fo_data _ _ Hfo) as []. 
  eapply data_frame; [done|done|by rewrite (fo_vsep _ _ Hfo)|done|done].
Qed.

End compaction.
