(* ===== verification/DbCollect.v ===== *)
(** * Garbage collection of the value logs

    A collection opens a fresh generation, rewrites every entry of the older
    ones that a latest pointer still leads to, and drops them.  Between two
    entries the users go on writing.  Each step keeps [data_inv]: in
    particular no key loses its value when the generations are dropped
    ([retire_spec]). *)

From S2P Require Import Prelude Status FsUtil Encoding VLog LruCache InternalKey Mvcc Layers Iterator Block.
From S2P Require Import SSTable TableSize SkipList MemTable Merge Db DbRead DbInv DbFlush DbPick DbMerge DbCompact.
From S2P Require Import DbValues DbScan DbSystem DbLogs DbRefine DbBackground.
Import db.

(** ** Lists of logs *)

Lemma find_vlog_None n l : find_vlog n l = None ↔ n ∉ vlog.number_ <$> l.
Proof.
  unfold find_vlog. induction l as [|v l IH]; [by split; [intros _ ?%not_elem_of_nil|]|]. rewrite fmap_cons, not_elem_of_cons.
  cbn [find]. destruct (Z.eqb_spec (vlog.number_ v) n) as [->|]; [naive_solver|]. rewrite IH. naive_solver.
Qed.

Lemma find_vlog_elem l v : NoDup (vlog.number_ <$> l) → v ∈ l → find_vlog (vlog.number_ v) l = Some v.
Proof.
  unfold find_vlog. induction l as [|u l IH]; [by intros _ ?%not_elem_of_nil|]. rewrite fmap_cons.
  intros [Hn Hnd]%NoDup_cons [->|Hv]%elem_of_cons; cbn [find]; [by rewrite Z.eqb_refl|].
  destruct (Z.eqb_spec (vlog.number_ u) (vlog.number_ v)) as [E|]; [|by apply IH].
  destruct Hn. rewrite E. by apply list_elem_of_fmap_2.
Qed.

Lemma find_sort_insert lt v l n :
  vlog.number_ v ∉ vlog.number_ <$> l →
  find_vlog n (sort_insert lt v l) = if vlog.number_ v =? n then Some v else find_vlog n l.
Proof.
  unfold find_vlog. induction l as [|u l IH]; [done|]. rewrite fmap_cons, not_elem_of_cons. intros [Hne Hn].
  cbn [sort_insert]. destruct (lt v u); [done|]. cbn [find]. rewrite (IH Hn).
  destruct (Z.eqb_spec (vlog.number_ u) n), (Z.eqb_spec (vlog.number_ v) n); congruence.
Qed.

Lemma emplace_new v l : find_vlog (vlog.number_ v) l = None → emplace_vlog v l = sort_insert (λ a b, vlog.number_ a <? vlog.number_ b) v l.
Proof. intros E. unfold emplace_vlog. by rewrite E. Qed.

Lemma emplace_perm v l : find_vlog (vlog.number_ v) l = None → emplace_vlog v l ≡ₚ v :: l.
Proof. intros E. rewrite emplace_new by done. apply sort_insert_perm. Qed.

Lemma find_emplace v l n :
  find_vlog (vlog.number_ v) l = None → find_vlog n (emplace_vlog v l) = if vlog.number_ v =? n then Some v else find_vlog n l.
Proof. intros E. rewrite emplace_new by done. apply find_sort_insert. by apply find_vlog_None. Qed.

Lemma find_erase m l n : find_vlog n (erase_vlog m l) = if m =? n then None else find_vlog n l.
Proof.
  unfold find_vlog, erase_vlog. induction l as [|v l IH]; [by destruct (m =? n)|].
  rewrite filter_cons. destruct (decide (vlog.number_ v ≠ m)) as [Hne|He%dec_stable]; cbn [find].
  - rewrite IH. destruct (Z.eqb_spec (vlog.number_ v) n), (Z.eqb_spec m n); congruence.
  - rewrite IH. subst m. by destruct (vlog.number_ v =? n).
Qed.

(** Erasing what was just put in gives the list back. *)
Lemma erase_emplace v l : find_vlog (vlog.number_ v) l = None → erase_vlog (vlog.number_ v) (emplace_vlog v l) = l.
Proof.
  intros E. rewrite emplace_new by done. apply find_vlog_None in E. unfold erase_vlog. induction l as [|u l IH].
  - cbn [sort_insert]. rewrite filter_cons, decide_False by (intros H; by apply H). done.
  - rewrite fmap_cons, not_elem_of_cons in E. destruct E as [Hne Hn]. cbn [sort_insert]. destruct (_ <? _).
    + rewrite filter_cons, decide_False by (intros H; by apply H). apply filter_all, Forall_forall. intros w Hw E.
      assert (vlog.number_ v ∈ vlog.number_ <$> u :: l) as H by (rewrite <- E; by apply list_elem_of_fmap_2).
      rewrite fmap_cons in H. by apply elem_of_cons in H as [|].
    + rewrite filter_cons, decide_True by congruence. by rewrite IH.
Qed.

Lemma erase_all_find gens l n :
  find_vlog n (foldl (λ l g, erase_vlog (vlog.number_ g) l) l gens)
  = if bool_decide (n ∈ vlog.number_ <$> gens) then None else find_vlog n l.
Proof.
  revert l. induction gens as [|g gens IH]; intros l; [done|]. cbn [foldl]. rewrite IH, find_erase, fmap_cons.
  destruct (decide (n ∈ vlog.number_ <$> gens)) as [Hin|Hout].
  - rewrite !bool_decide_eq_true_2 by (done || apply elem_of_cons; by right). done.
  - rewrite (bool_decide_eq_false_2 (n ∈ vlog.number_ <$> gens)) by done.
    destruct (Z.eqb_spec (vlog.number_ g) n) as [->|Hne].
    + by rewrite bool_decide_eq_true_2 by apply list_elem_of_here.
    + by rewrite bool_decide_eq_false_2 by (rewrite elem_of_cons; intros [|]; congruence).
Qed.

Lemma erase_all_sublist gens l : foldl (λ l g, erase_vlog (vlog.number_ g) l) l gens `sublist_of` l.
Proof.
  revert l. induction gens as [|g gens IH]; intros l; [done|]. cbn [foldl]. etrans; [apply IH|]. apply sublist_filter.
Qed.

Lemma find_emplace_any g l n :
  find_vlog n (emplace_vlog g l) = match find_vlog n l with Some v => Some v | None => if vlog.number_ g =? n then Some g else None end.
Proof.
  destruct (find_vlog (vlog.number_ g) l) as [v|] eqn:E.
  - unfold emplace_vlog. rewrite E. destruct (find_vlog n l) eqn:En; [done|].
    destruct (Z.eqb_spec (vlog.number_ g) n) as [<-|]; [congruence|done].
  - rewrite find_emplace by done. destruct (Z.eqb_spec (vlog.number_ g) n) as [<-|]; [by rewrite E|].
    by destruct (find_vlog n l).
Qed.

Lemma emplace_all_find gens l n :
  find_vlog n (foldl (λ l g, emplace_vlog g l) l gens) = match find_vlog n l with Some v => Some v | None => find_vlog n gens end.
Proof.
  revert l. induction gens as [|g gens IH]; intros l; cbn [foldl]; [by destruct (find_vlog n l)|].
  rewrite IH, find_emplace_any. destruct (find_vlog n l); [done|]. unfold find_vlog at 2. cbn [find].
  by destruct (vlog.number_ g =? n).
Qed.

Lemma emplace_NoDup g l : NoDup (vlog.number_ <$> l) → NoDup (vlog.number_ <$> emplace_vlog g l).
Proof.
  intros Hnd. destruct (find_vlog (vlog.number_ g) l) as [v|] eqn:E; [unfold emplace_vlog; by rewrite E|].
  rewrite (emplace_perm g l E), fmap_cons. apply NoDup_cons. split; [by apply find_vlog_None|done].
Qed.

Lemma emplace_all_NoDup gens l : NoDup (vlog.number_ <$> l) → NoDup (vlog.number_ <$> foldl (λ l g, emplace_vlog g l) l gens).
Proof. revert l. induction gens as [|g gens IH]; intros l Hnd; [done|]. cbn [foldl]. by apply IH, emplace_NoDup. Qed.

(** ** Other logs in the state *)

Section logs.
Context (next next' : Z) (vs : Vsep) (l' : list vlog.VLog) (cur' : option Z).
Context (Hv : values_ok next vs) (Hnext : next ≤ next').

Let vs' : Vsep := set_vlogs l' cur' vs.

Lemma points_at_find stored x :
  (∀ p, DecodeValuePointer stored = Some p → find_vlog (vlog_number p) l' = find_vlog (vlog_number p) (vlogs_ vs)) →
  points_at vs stored x → points_at vs' stored x.
Proof using.
  intros He (p & vl & key & Hd & Hf & Hrest). exists p, vl, key. split_and!; [done| |apply Hrest..].
  by rewrite <- Hf, <- (He p Hd).
Qed.

(** A log may be added, and logs may go. *)
Lemma values_ok_logs :
  NoDup (vlog.number_ <$> l') → Forall (λ v, vlog.vlog_ok v ∧ 0 ≤ vlog.number_ v < next') l' →
  (∀ n, n < next → find_vlog n l' = find_vlog n (vlogs_ vs) ∨ find_vlog n l' = None) →
  (vsep_enabled_ vs = true → is_Some (current_vlog vs')) → values_ok next' vs'.
Proof using Hv Hnext.
  intros Hnd Hl Hf Hc. split; [done|done|done|]. destruct (vo_cache _ _ Hv) as (ls & Hls & Hok).
  exists ls. split; [done|]. intros i k x Hin. destruct (Hok i k x Hin) as [Hp|(p & Hd & Hn & Hlt)].
  - pose proof Hp as (p & vl & key & Hd & Hfp & _). destruct (find_vlog_ok _ _ _ _ Hv Hfp) as (_ & _ & Hr).
    destruct (Hf (vlog_number p) ltac:(lia)) as [E|E].
    + left. apply points_at_find; [|done]. intros p' Hd'. assert (p' = p) as -> by congruence. done.
    + right. exists p. split_and!; [done|done|lia].
  - right. exists p. split_and!; [done| |lia]. destruct (Hf (vlog_number p) ltac:(lia)) as [E|E]; [|done].
    by rewrite <- Hn.
Qed.

(** No log goes. *)
Context (Hext : ∀ n v, find_vlog n (vlogs_ vs) = Some v → find_vlog n l' = Some v).

Lemma den_extend stored x : den vs stored x → den vs' stored x.
Proof using Hext.
  unfold den. change (vsep_enabled_ vs') with (vsep_enabled_ vs). destruct (_ && _); [|done].
  intros (p & vl & key & Hd & Hf & Hrest). exists p, vl, key. split_and!; [done|by apply Hext|apply Hrest..].
Qed.

Lemma views_extend hist s m : views vs hist s m → views vs' hist s m.
Proof using Hext.
  intros Hw k. specialize (Hw k). destruct (answer _); [|done]. destruct Hw as (x & Hx & Hd).
  exists x. split; [done|by apply den_extend].
Qed.

Lemma located_extend hist : latest_located vs hist → latest_located vs' hist.
Proof using Hext.
  intros Hl He k stored Ha p Hp Hd. destruct (Hl He k stored Ha p Hp Hd) as (vl & x & Hf & Hin).
  exists vl, x. split; [by apply Hext|done].
Qed.

End logs.

Lemma set_vlogs_same vs : set_vlogs (vlogs_ vs) (vlog_current_ vs) vs = vs.
Proof. by destruct vs. Qed.

(** The data with other logs: nothing the users see changes. *)
Lemma data_extend d hist M l' cur' d' :
  data_inv d hist M → vsep_ d' = set_vlogs l' cur' (vsep_ d) → same_data d d' →
  NoDup (vlog.number_ <$> l') → Forall (λ v, clean v ∧ 0 ≤ vlog.number_ v < next_file_number_ d') l' →
  (∀ n, n < next_file_number_ d → find_vlog n l' = find_vlog n (vlogs_ (vsep_ d))) →
  (vsep_enabled_ (vsep_ d) = true → is_Some (n ← cur'; find_vlog n l')) → data_inv d' hist M.
Proof.
  intros [Hd Hv [Hcl Hloc] Hnow Hheld] Ev Hsd Hnd Hl Hf Hc.
  assert (∀ n v, find_vlog n (vlogs_ (vsep_ d)) = Some v → find_vlog n l' = Some v) as Hext.
  { intros n v E. rewrite Hf; [done|]. destruct (find_vlog_ok _ _ _ _ Hv E) as (_ & _ & ?). lia. }
  split; rewrite ?Ev.
  - by eapply same_data_inv.
  - eapply values_ok_logs; [exact Hv|apply Hsd|done| |by left; apply Hf|exact Hc].
    eapply Forall_impl; [exact Hl|]. intros v [[? _] ?]. done.
  - split; [|by apply located_extend]. eapply Forall_impl; [exact Hl|]. by intros v [? _].
  - by apply views_extend.
  - rewrite (sd_snapshots _ _ Hsd). eapply Forall2_impl; [exact Hheld|]. simpl. intros a b [? ?]. split; [done|by apply views_extend].
Qed.

(** A state that differs in its logs and in files. *)
Lemma logs_same_data d l' cur' f n :
  next_file_number_ d ≤ n → (vsep_enabled_ (vsep_ d) = true → is_Some (m ← cur'; find_vlog m l')) →
  same_data d (set_next_file n (set_vsep (set_vlogs l' cur' (vsep_ d)) (set_fs f d))).
Proof. intros Hn Hc. split; try done. intros [_ Hw]. split; [exact Hc|exact Hw]. Qed.

Lemma set_fs_twice f g d : set_fs f (set_fs g d) = set_fs f d.
Proof. done. Qed.

(** ** Step 1: a fresh generation *)

Section rotate.
Context (d : DB) (hist : list version) (M : Map) (Hda : data_inv d hist M).
Context (He : vsep_enabled_ (vsep_ d) = true).

Let number : Z := next_file_number_ d.
Let l : list vlog.VLog := vlogs_ (vsep_ d).
Let fresh : vlog.VLog := vlog.mkVLog [] number 0.

Lemma number_new : find_vlog number l = None.
Proof using Hda.
  destruct (find_vlog number l) as [v|] eqn:E; [|done].
  destruct (find_vlog_ok _ _ _ _ (da_values _ _ _ Hda) E) as (_ & _ & ?). unfold number in *. lia.
Qed.

Lemma number_nonneg : 0 ≤ number.
Proof using Hda He.
  destruct (vo_current _ _ (da_values _ _ _ Hda) He) as [cur Hc%find_current].
  destruct (find_vlog_ok _ _ _ _ (da_values _ _ _ Hda) Hc) as (_ & _ & ?). unfold number. lia.
Qed.

Lemma old_logs n : number ≤ n → Forall (λ v, clean v ∧ 0 ≤ vlog.number_ v < n) l.
Proof using Hda.
  intros Hn. pose proof (lg_clean _ _ (da_logs _ _ _ Hda)) as Hc. pose proof (vo_logs _ _ (da_values _ _ _ Hda)) as Hl.
  rewrite Forall_forall in Hc, Hl |- *. intros v Hv. destruct (Hl v Hv) as [_ ?]. split; [by apply Hc|unfold number in *; lia].
Qed.

(** The fresh generation is in place. *)
Lemma rotated_data f :
  data_inv (set_next_file (number + 1) (set_vsep (set_vlogs (emplace_vlog fresh l) (Some number) (vsep_ d)) (set_fs f d))) hist M.
Proof using Hda He.
  assert (∀ n, find_vlog n (emplace_vlog fresh l) = if vlog.number_ fresh =? n then Some fresh else find_vlog n l) as Hfe
    by (intros n; apply find_emplace, number_new).
  eapply (data_extend d hist M (emplace_vlog fresh l) (Some number)); [done|done| | | | |].
  - apply logs_same_data; [unfold number; lia|]. intros _. cbn [mbind option_bind]. rewrite Hfe. cbn [vlog.number_ fresh]. by rewrite Z.eqb_refl.
  - apply emplace_NoDup, (vo_numbers _ _ (da_values _ _ _ Hda)).
  - rewrite (emplace_perm fresh l number_new). constructor; [|apply old_logs; cbn; lia]. split; [apply clean_new|].
    pose proof number_nonneg. cbn. lia.
  - intros n Hn. rewrite Hfe. cbn [vlog.number_ fresh]. unfold number. rewrite (proj2 (Z.eqb_neq _ _)) by lia. done.
  - intros _. cbn [mbind option_bind]. rewrite Hfe. cbn [vlog.number_ fresh]. by rewrite Z.eqb_refl.
Qed.

(** Every latest pointer into an older generation is to be visited. *)
Lemma rotated_collecting d' :
  vsep_ d' = set_vlogs (emplace_vlog fresh l) (Some number) (vsep_ d) → collecting_ok d' hist (mkCollecting l l 0) (unscanned l).
Proof using Hda He.
  intros Ev. pose proof (vo_numbers _ _ (da_values _ _ _ Hda)) as Hnd. split; rewrite ?Ev; [done| |done|].
  - intros v Hv. cbn [gc_retired vlogs_ set_vlogs vlog_current_] in *. pose proof (find_vlog_elem _ _ Hnd Hv) as Hf. fold l in Hf.
    assert (vlog.number_ v ≠ number) as Hne by (intros E; rewrite E, number_new in Hf; done).
    split; [|congruence]. rewrite find_emplace by apply number_new. cbn [vlog.number_ fresh].
    by rewrite (proj2 (Z.eqb_neq _ _)) by congruence.
  - intros k stored p Ha Hp Hd _. destruct (lg_located _ _ (da_logs _ _ _ Hda) He k stored Ha p Hp Hd) as (vl & x & Hf & Hin).
    destruct (find_vlog_Some _ _ _ Hf) as [Hvl Hn]. unfold unscanned. apply elem_of_concat.
    exists (unvisited (vlog.number_ vl) (gen_entries vl)). split; [apply list_elem_of_fmap; by exists vl|].
    apply list_elem_of_fmap. exists (k, x, offset p). by rewrite Hn.
Qed.

Lemma last_log : ∃ v, list.last l = Some v ∧ v ∈ l.
Proof using Hda He.
  destruct (vo_current _ _ (da_values _ _ _ Hda) He) as [cur Hc%find_current%find_vlog_Some]. destruct Hc as [Hin _]. fold l in Hin.
  destruct (list.last l) as [v|] eqn:E; [exists v; split; [done|by apply last_Some_elem_of]|].
  apply last_None in E. rewrite E in Hin. by apply not_elem_of_nil in Hin.
Qed.

Lemma rotate_spec open_err env :
  default [] (fs d !! VlogPath (dir_ d) number) = [] →
  ∃ s gen d', gc_rotate open_err env d = Some (s, gen, d') ∧ data_inv d' hist M ∧
    match gen with
    | Some n => let retired := erase_vlog n (vlogs_ (vsep_ d')) in collecting_ok d' hist (mkCollecting retired retired 0) (unscanned retired)
    | None => True
    end.
Proof using Hda He.
  intros Hempty. unfold gc_rotate. destruct (snapshots_ d); [|by eexists _, None, d].
  unfold vlog.Open. destruct open_err as [e|]; [by eexists _, None, d|]. fold number. fold (VlogPath (dir_ d) number).
  change (dir_ d ++ lit "/" ++ vlog.FileName number) with (VlogPath (dir_ d) number). rewrite Hempty.
  change (vlog.mkVLog [] number (len (@nil byte))) with fresh. cbv zeta. fold l.
  set (d1 := set_next_file _ _). destruct (WriteManifest_keeps env d1) as (ms & f & ->).
  destruct (ok ms).
  - eexists _, _, _. split_and!; [done|exact (rotated_data f)|]. cbv zeta iota.
    change (vlogs_ (vsep_ (set_fs f d1))) with (emplace_vlog fresh l).
    change (erase_vlog number (emplace_vlog fresh l)) with (erase_vlog (vlog.number_ fresh) (emplace_vlog fresh l)).
    rewrite (erase_emplace fresh l number_new). by apply rotated_collecting.
  - change (vlogs_ (vsep_ (set_fs f d1))) with (emplace_vlog fresh l).
    change (erase_vlog number (emplace_vlog fresh l)) with (erase_vlog (vlog.number_ fresh) (emplace_vlog fresh l)).
    rewrite (erase_emplace fresh l number_new). destruct last_log as (v & -> & Hv). cbn [mbind option_bind].
    eexists _, None, _. split_and!; [done| |done].
    pose proof (find_vlog_elem _ _ (vo_numbers _ _ (da_values _ _ _ Hda)) Hv) as Hf.
    apply (data_extend d hist M l (Some (vlog.number_ v))); [done|done| |apply (vo_numbers _ _ (da_values _ _ _ Hda))|by apply old_logs|done|].
    + apply (logs_same_data d l (Some (vlog.number_ v)) f number); [unfold number; lia|]. intros _. cbn [mbind option_bind]. fold l in Hf. by rewrite Hf.
    + intros _. cbn [mbind option_bind]. fold l in Hf. by rewrite Hf.
Qed.

End rotate.

(** ** Step 2: the entries *)

Lemma decoded_shape stored p : DecodeValuePointer stored = Some p → pointer_shaped stored = true.
Proof.
  unfold DecodeValuePointer, pointer_shaped. destruct (_ =? _); [|done]. by destruct (bool_decide _).
Qed.

Lemma written_same key value M : contents M !! key = Some value → written kTypeValue key value M = M.
Proof. intros E. unfold written. cbn. rewrite insert_id by done. by destruct M. Qed.

Section entries.
Context (d : DB) (hist : list version) (M : Map) (Hda : data_inv d hist M).

(** A retired generation is one of the logs. *)
Lemma retired_clean g todo v : collecting_ok d hist g todo → v ∈ gc_retired g → clean v.
Proof using Hda.
  intros Hg Hv. destruct (co_retired _ _ _ _ Hg v Hv) as [Hf _]. apply find_vlog_Some in Hf as [Hin _].
  pose proof (lg_clean _ _ (da_logs _ _ _ Hda)) as H. rewrite Forall_forall in H. by apply H.
Qed.

Lemma scan_spec preads g gen rest :
  collecting_ok d hist g (unscanned (gc_rest g)) → gc_rest g = gen :: rest → vlog.full_reads preads →
  ∃ s es, vlog.ScanEntries preads gen (vlog.end_ gen) = Some (s, es) ∧
    scanning_ok d hist (mkScanning s (vlog.number_ gen) es (mkCollecting rest (gc_retired g) (gc_rewritten g))).
Proof using Hda.
  intros Hg Er Hp. assert (gen ∈ gc_retired g) as Hin by (apply (co_rest _ _ _ _ Hg); rewrite Er; apply list_elem_of_here).
  rewrite (clean_scan preads gen (retired_clean _ _ _ Hg Hin) Hp). eexists _, _. split; [done|].
  split; cbn [sc_gc sc_gen sc_entries gc_rest gc_retired]; [|by exists gen].
  destruct Hg as [H1 H2 H3 H4]. rewrite Er in H3, H4. split; [done|done| |].
  - intros v Hv. apply H3. by apply list_elem_of_further.
  - exact H4.
Qed.

Context (x : Scanning) (Hx : scanning_ok d hist x).
Context (key value : bytes) (off : Z) (es : list (bytes * bytes * Z)) (Ees : sc_entries x = (key, value, off) :: es).

(** The scan with the first entry done. *)
Definition advanced (rewritten : Z) : Scanning :=
  mkScanning (sc_status x) (sc_gen x) es (mkCollecting (gc_rest (sc_gc x)) (gc_retired (sc_gc x)) rewritten).

(** The first entry is done with when no latest pointer leads to it. *)
Lemma advance_ok d' hist' rewritten :
  scanning_ok d' hist' x →
  (∀ stored p, answer (read hist' key kMaxSeq) = Some stored → pointer_shaped stored = true → DecodeValuePointer stored = Some p →
     vlog_number p ∈ vlog.number_ <$> gc_retired (sc_gc x) → ¬ (vlog_number p = sc_gen x ∧ offset p = off)) →
  scanning_ok d' hist' (advanced rewritten).
Proof using Ees.
  intros [[H1 H2 H3 H4] (v & Hv & Hn & Hsub)] Hdone. rewrite Ees in H4, Hsub. split.
  - split; [done|done|done|]. intros k stored p Ha Hp Hd Hin. specialize (H4 k stored p Ha Hp Hd Hin).
    cbn [unvisited fmap list_fmap app fst snd] in H4. apply elem_of_cons in H4 as [[= E1 -> E2]|H4]; [|exact H4].
    by destruct (Hdone stored p Ha Hp Hd Hin).
  - exists v. split_and!; [done|done|]. intros e He. apply Hsub. by apply list_elem_of_further.
Qed.

Lemma entry_small : small_entry (key, value) ∧
  ∃ v, v ∈ gc_retired (sc_gc x) ∧ vlog.number_ v = sc_gen x ∧ find_vlog (sc_gen x) (vlogs_ (vsep_ d)) = Some v ∧ vlog.stored_at v off key value.
Proof using Hda Hx Ees.
  destruct Hx as [Hg (v & Hv & Hn & Hsub)]. destruct (gen_entries_stored v key value off) as [Hst Hsm].
  { by eapply retired_clean. }
  { apply Hsub. rewrite Ees. apply list_elem_of_here. }
  split; [done|]. exists v. split_and!; [done|done| |done]. rewrite <- Hn. by apply (co_retired _ _ _ _ Hg).
Qed.

(** What a live entry holds is what the key maps to. *)
Lemma live_value stored p :
  answer (read hist key kMaxSeq) = Some stored → DecodeValuePointer stored = Some p →
  vlog_number p = sc_gen x → offset p = off → contents M !! key = Some value.
Proof using Hda Hx Ees.
  intros Ha Hd Hn Ho. destruct entry_small as [[Hk1 Hs1] (v & Hv & Hvn & Hf & Hst)]. cbn [fst snd] in *.
  pose proof (da_now _ _ _ Hda key) as Hnow. rewrite Ha in Hnow. destruct Hnow as (y & -> & Hden). f_equal. unfold den in Hden.
  destruct Hx as [Hg _]. rewrite (co_enabled _ _ _ _ Hg), (decoded_shape _ _ Hd) in Hden. cbn [andb] in Hden.
  destruct Hden as (p' & vl & k' & Hd' & Hf' & Hst' & _ & Hk' & Hy). assert (p' = p) as -> by congruence.
  rewrite Hn in Hf'. assert (vl = v) as -> by congruence. rewrite Ho in Hst'. pose proof (len_nonneg key). pose proof (len_nonneg value).
  by destruct (stored_unique v off k' y key value) as [_ ?]; [lia|lia|lia|lia|done|done|].
Qed.

Lemma entry_spec strerror env :
  db_limits d → log_room (vsep_ d) (len key + len value) → whole_append env key value →
  ∃ s n d' hist', gc_entry strerror env (sc_gen x) key value off d = Some (s, n, d') ∧ data_inv d' hist' M ∧
    (is_Some n ∨ ok s = true → ∀ rewritten, scanning_ok d' hist' (advanced rewritten)).
Proof using Hda Hx Ees.
  intros Hl Hroom Happ. pose proof (da_db _ _ _ Hda) as Hd. destruct entry_small as [[Hk Hsz] (v & Hv & Hvn & _ & _)]. cbn [fst snd] in *.
  pose proof (readable_latest d hist Hd (Z.lt_le_incl _ _ (dl_seq _ Hl))) as Hr. pose proof (layered_hist d hist key kMaxSeq Hd Hr) as Ha.
  unfold gc_entry. rewrite LookupIn_layers by (apply Hd || apply Hr || done). cbn [mbind option_bind]. fold (layers d).
  cbv zeta. match goal with |- context [negb ?b] => destruct b eqn:El end; cbn [negb].
  - destruct (layered (layers d) key kMaxSeq) as [stored| |]; try done. cbn [answer] in Ha. symmetry in Ha.
    destruct (DecodeValuePointer stored) as [p|] eqn:Ep; [|done]. apply andb_true_iff in El as [En%Z.eqb_eq Eo%Z.eqb_eq].
    pose proof (live_value stored p Ha Ep En Eo) as HM. pose proof (dl_files _ Hl).
    destruct (data_write strerror env kTypeValue key value false d hist M Hda) as (s & d' & -> & Ht & Hi & Hres);
      [apply Hl|lia|done|done|done|done|by left|]. cbn [mbind option_bind].
    destruct (others_write _ _ _ _ _ _ _ _ Hres Ht) as (hist1 & Hot & _); [done|]. destruct Hres as [Hg Hres].
    destruct (ok s) eqn:Es; [|exists s, None, d', hist; rewrite Es; split_and!; [done|done|by intros [[]|]]].
    destruct Hres as (w & Ew & Hda' & Hptr & Hoth). rewrite (written_same _ _ _ HM) in Hda'.
    exists s, (Some (len value)), d', (w :: hist). split_and!; [done|done|]. intros _ rw. apply advance_ok.
    + eapply scanning_ok_stable; [|exact Hx]. destruct Hot. split; [done..|]. intros He k st q Hak Hsh Hdq.
      destruct (decide (k = key)) as [->|Hne]; [right; by eapply Hptr|left]. by rewrite <- Hoth.
    + intros st q Hak Hsh Hdq Hin _. destruct Hx as [Hc _].
      pose proof (Hptr (co_enabled _ _ _ _ Hc) st q Hak Hsh Hdq) as Hcur.
      apply list_elem_of_fmap in Hin as (u & Eu & Hu). destruct (co_retired _ _ _ _ Hc u Hu) as [_ Hne]. by rewrite <- Eu in Hne.
  - exists Ok, None, d, hist. split_and!; [done|done|]. intros _ rw. apply advance_ok; [exact Hx|].
    intros st q Hak Hsh Hdq _ [En Eo]. rewrite <- Ha in Hak. destruct (layered (layers d) key kMaxSeq) as [stored| |]; try done.
    injection Hak as ->. rewrite Hdq, En, Eo, !Z.eqb_refl in El. done.
Qed.

End entries.

(** ** Step 3: the old generations go *)

(** The settings of the collector do not matter. *)
Lemma data_like d d' hist M :
  data_inv d hist M → same_data d d' → vsep_enabled_ (vsep_ d') = vsep_enabled_ (vsep_ d) → vlogs_ (vsep_ d') = vlogs_ (vsep_ d) →
  vlog_current_ (vsep_ d') = vlog_current_ (vsep_ d) → vlog_cache_ (vsep_ d') = vlog_cache_ (vsep_ d) → data_inv d' hist M.
Proof.
  intros [Hd Hv [Hcl Hloc] Hnow Hheld] Hsd Ee El Ec Eca.
  assert (logs_grow (vsep_ d) (vsep_ d')) as Hg by (unfold logs_grow; rewrite Ee, El; apply logs_grow_refl).
  pose proof (sd_files _ _ Hsd) as Hf. split.
  - by eapply same_data_inv.
  - eapply (values_ok_mono _ _ _ Hf). destruct Hv as [H1 H2 H3 (ls & H4 & H5)]. split; unfold current_vlog in *; rewrite ?El, ?Ee, ?Ec, ?Eca; try done.
    exists ls. split; [done|]. intros i k x Hin. eapply cached_ok_grow; [done|exact Hg|by eapply H5].
  - split; [by rewrite El|]. intros He k stored Ha p Hp Hdp. unfold latest_located, located_in in Hloc. rewrite Ee in He. rewrite El. by eapply Hloc.
  - by eapply views_grow.
  - rewrite (sd_snapshots _ _ Hsd). eapply Forall2_impl; [exact Hheld|]. simpl. intros a b [? ?]. split; [done|by eapply views_grow].
Qed.

Section retire.
Context (d : DB) (hist : list version) (M : Map) (Hda : data_inv d hist M).
Context (g : Collecting) (Hg : collecting_ok d hist g []).

Let vs : Vsep := vsep_ d.
Let kept : list vlog.VLog := foldl (λ l g, erase_vlog (vlog.number_ g) l) (vlogs_ vs) (gc_retired g).
Let back : list vlog.VLog := foldl (λ l g, emplace_vlog g l) kept (gc_retired g).

Lemma kept_find n : n ∉ vlog.number_ <$> gc_retired g → find_vlog n kept = find_vlog n (vlogs_ vs).
Proof using. intros Hn. unfold kept. rewrite erase_all_find. by rewrite bool_decide_eq_false_2. Qed.

(** The current log is not retired. *)
Lemma current_not_retired n : vlog_current_ vs = Some n → n ∉ vlog.number_ <$> gc_retired g.
Proof using Hg. intros E (v & -> & Hv)%list_elem_of_fmap. by destruct (co_retired _ _ _ _ Hg v Hv) as [_ ?]. Qed.

Lemma current_kept : is_Some (n ← vlog_current_ vs; find_vlog n kept).
Proof using Hda Hg.
  destruct (vo_current _ _ (da_values _ _ _ Hda) (co_enabled _ _ _ _ Hg)) as [cur Hc]. fold vs in Hc.
  pose proof (current_number _ _ Hc) as En. rewrite En. cbn [mbind option_bind].
  rewrite kept_find by (by apply current_not_retired). exists cur. by apply find_current.
Qed.

Lemma kept_sublist : kept `sublist_of` vlogs_ vs.
Proof using. apply erase_all_sublist. Qed.

(** A latest pointer does not lead to a retired generation. *)
Lemma latest_kept k stored p :
  answer (read hist k kMaxSeq) = Some stored → DecodeValuePointer stored = Some p →
  find_vlog (vlog_number p) kept = find_vlog (vlog_number p) (vlogs_ vs).
Proof using Hg.
  intros Ha Hd. apply kept_find. intros Hin.
  pose proof (co_todo _ _ _ _ Hg k stored p Ha (decoded_shape _ _ Hd) Hd Hin) as H. by apply not_elem_of_nil in H.
Qed.

Lemma retired_data d' :
  snapshots_ d = [] → vsep_ d' = set_vlogs kept (vlog_current_ vs) vs → same_data d d' → data_inv d' hist M.
Proof using Hda Hg.
  intros Hs Ev Hsd. pose proof Hda as [Hd Hv [Hcl Hloc] Hnow Hheld].
  assert (∀ v, v ∈ kept → v ∈ vlogs_ vs) as Hsub by (intros v Hin; eapply elem_of_sublist; [exact Hin|apply kept_sublist]).
  split; rewrite ?Ev.
  - by eapply same_data_inv.
  - eapply values_ok_logs; [exact Hv|apply Hsd| | | |].
    + eapply sublist_NoDup; [apply Hv|]. apply sublist_fmap, kept_sublist.
    + pose proof (vo_logs _ _ Hv) as Hl. rewrite Forall_forall in Hl |- *. intros v Hin%Hsub. destruct (Hl v Hin) as [? ?].
      pose proof (sd_files _ _ Hsd). split; [done|lia].
    + intros n _. destruct (decide (n ∈ vlog.number_ <$> gc_retired g)) as [Hin|Hout].
      * right. unfold kept. rewrite erase_all_find. by rewrite bool_decide_eq_true_2.
      * left. by apply kept_find.
    + intros _. exact current_kept.
  - split; [rewrite Forall_forall in Hcl |- *; intros v Hin; by apply Hcl, Hsub|].
    intros He k stored Ha p Hp Hdp. destruct (Hloc He k stored Ha p Hp Hdp) as (vl & y & Hf & Hin). exists vl, y.
    split; [|done]. rewrite <- Hf. by eapply latest_kept.
  - intros k. specialize (Hnow k). destruct (answer (read hist k kMaxSeq)) as [stored|] eqn:Ha; [|done].
    destruct Hnow as (y & Hy & Hden). exists y. split; [done|]. unfold den in *.
    change (vsep_enabled_ (set_vlogs kept (vlog_current_ vs) vs)) with (vsep_enabled_ vs). fold vs in Hden.
    destruct (_ && _); [|done]. eapply points_at_find; [|done]. intros p Hdp. by eapply latest_kept.
  - rewrite (sd_snapshots _ _ Hsd), Hs in *. by inversion Hheld.
Qed.

(** If the MANIFEST cannot be written they come back. *)
Lemma back_find n : find_vlog n back = find_vlog n (vlogs_ vs).
Proof using Hda Hg.
  unfold back, kept. rewrite emplace_all_find, erase_all_find. destruct (decide (n ∈ vlog.number_ <$> gc_retired g)) as [Hin|Hout].
  - rewrite bool_decide_eq_true_2 by done. destruct (find_vlog n (gc_retired g)) as [v|] eqn:E.
    + destruct (find_vlog_Some _ _ _ E) as [Hv <-]. by destruct (co_retired _ _ _ _ Hg v Hv) as [Hf _].
    + by apply find_vlog_None in E.
  - rewrite bool_decide_eq_false_2 by done. destruct (find_vlog n (vlogs_ vs)); [done|]. by apply find_vlog_None.
Qed.

Lemma back_data d' : vsep_ d' = set_vlogs back (vlog_current_ vs) vs → same_data d d' → data_inv d' hist M.
Proof using Hda Hg.
  intros Ev Hsd. pose proof Hda as [Hd Hv [Hcl Hloc] Hnow Hheld].
  assert (NoDup (vlog.number_ <$> back)) as Hnd.
  { apply emplace_all_NoDup. eapply sublist_NoDup; [apply Hv|]. apply sublist_fmap, kept_sublist. }
  eapply (data_extend d hist M back (vlog_current_ vs)); [done|done|done|done| | |].
  - apply Forall_forall. intros v Hin. pose proof (find_vlog_elem _ _ Hnd Hin) as Hf. rewrite back_find in Hf.
    destruct (find_vlog_ok _ _ _ _ Hv Hf) as (_ & _ & ?). apply find_vlog_Some in Hf as [Hin' _].
    rewrite Forall_forall in Hcl. pose proof (sd_files _ _ Hsd). split; [by apply Hcl|lia].
  - intros n _. apply back_find.
  - intros He. destruct (vo_current _ _ Hv He) as [cur Hc]. exists cur. unfold current_vlog in Hc. fold vs in Hc.
    destruct (vlog_current_ vs) as [n|]; [|done]. cbn [mbind option_bind] in *. by rewrite back_find.
Qed.

End retire.

Lemma set_wal_data d w : wal_wf w → same_data d (set_wal w d).
Proof. by split. Qed.

Lemma collecting_ok_wal d hist g todo w : collecting_ok d hist g todo → collecting_ok (set_wal w d) hist g todo.
Proof. intros []. by split. Qed.

(** Dropping the generations loses nothing, whether or not it succeeds. *)
Lemma retire_spec strerror env d hist M g :
  data_inv d hist M → collecting_ok d hist g [] →
  ∃ s d', gc_retire strerror env (gc_retired g) (gc_rewritten g) d = Some (s, d') ∧ data_inv d' hist M.
Proof.
  intros Hda Hg. unfold gc_retire. destruct (snapshots_ d) as [|sn l] eqn:Esn; [|by exists Ok, d].
  destruct (ForceDurability_wf strerror (ge_sync env) (current_vlog (vsep_ d)) (wal_ d) (di_wal _ _ (da_db _ _ _ Hda))) as (s & w & -> & Hw).
  unfold and_then. cbn [mbind option_bind]. pose proof (set_wal_data d w Hw) as Hsd.
  assert (data_inv (set_wal w d) hist M) as Hda1 by (by eapply data_like).
  apply (collecting_ok_wal _ _ _ _ w) in Hg. destruct (ok s); [|by eexists _, _].
  clear Hda Hsd. cbv zeta. set (d1 := set_wal w d) in *. assert (snapshots_ d1 = []) as Es1 by done. clearbody d1. clear Esn.
  set (f := foldl _ (fs d1) _). set (kept := foldl (λ l g, erase_vlog _ _) _ _). set (d2 := set_vsep _ (set_fs f d1)).
  destruct (WriteManifest_keeps (ge_retire env) d2) as (ms & f' & ->).
  pose proof (current_kept d1 hist M Hda1 g Hg) as Hck. fold kept in Hck.
  destruct (ok ms); cbn [negb]; eexists _, _; (split; [done|]).
  - eapply (data_like (set_next_file (next_file_number_ d1) (set_vsep (set_vlogs kept (vlog_current_ (vsep_ d1)) (vsep_ d1)) (set_fs f d1)))); [|split; try done; intros [? ?]; by split|done..].
    eapply (retired_data d1 hist M Hda1 g Hg); [done|done|]. apply logs_same_data; [lia|]. by intros _.
  - set (back := foldl (λ l g, emplace_vlog g l) _ _).
    eapply (data_like (set_next_file (next_file_number_ d1) (set_vsep (set_vlogs back (vlog_current_ (vsep_ d1)) (vsep_ d1)) (set_fs f d1)))); [|split; try done; intros [? ?]; by split|done..].
    eapply (back_data d1 hist M Hda1 g Hg); [done|]. apply logs_same_data; [lia|]. intros He.
    destruct (vo_current _ _ (da_values _ _ _ Hda1) He) as [cur Hc]. exists cur. unfold current_vlog in Hc.
    destruct (vlog_current_ (vsep_ d1)) as [n|]; [|done]. cbn [mbind option_bind] in *.
    rewrite <- Hc. by apply (back_find d1 hist M Hda1 g Hg).
Qed.
