(* ===== verification/DbCorrect.v ===== *)
(** * The database is correct

    [bg_simulates]: every section of the background thread keeps the
    invariant, and so what the users see.  With the users' calls
    ([call_simulates]) this gives the main theorem, [database_refines_map]: in
    every run, whatever the interleaving and whichever system calls fail, every
    call returns and its answer is one a map with snapshots gives. *)

From S2P Require Import Prelude Status FsUtil Encoding VLog LruCache InternalKey Mvcc Layers Iterator Block.
From S2P Require Import SSTable TableSize SkipList MemTable Merge Db DbRead DbInv DbFlush DbPick DbMerge DbCompact.
From S2P Require Import DbValues DbScan DbSystem DbLogs DbRefine DbOpen DbBackground DbCollect.
Import db.

Section background.
Context (strerror : Z → bytes).
Context (env : bg_env) (d : DB) (hist : list version) (M : Map) (Hda : data_inv d hist M) (Hl : db_limits d).

(** A state that differs in settings the invariant does not mention. *)
Lemma set_error_data b s : data_inv (set_error b s d) hist M.
Proof using Hda. by eapply data_like. Qed.

Lemma gc_active_data a : data_inv (set_gc_active a d) hist M.
Proof using Hda. eapply data_like; [done| |done..]. split; try done. intros [? ?]. by split. Qed.

Lemma start_flush_inv imm : imm_ d = Some imm → flush_inv d (start_flush imm d).
Proof using Hda.
  intros E. split; [done|]. apply (no_imm _ (di_numbers _ _ (da_db _ _ _ Hda))). by rewrite E.
Qed.

Lemma bg_start_simulates : ∃ S', bg_start d = Some S' ∧ sys_inv S' hist M.
Proof using Hda Hl.
  unfold bg_start. destruct (exit_ d); [by eexists|]. destruct (imm_ d) as [imm|] eqn:Ei.
  { eexists. split; [done|]. split; [done|]. by apply start_flush_inv. }
  destruct (CompactionNeeded d) eqn:Ec.
  { destruct (pick_spec d hist M Hda Hl Ec) as (c & -> & Hp). by eexists. }
  destruct (VlogGcNeeded d) eqn:Eg; [|by eexists]. eexists. split; [done|]. split; [apply gc_active_data|].
  cbn. unfold VlogGcNeeded in Eg. destruct (current_vlog (vsep_ d)); [|done]. by destruct (vsep_enabled_ (vsep_ d)).
Qed.

Lemma gc_entry_simulates e x :
  scanning_ok d hist x →
  match sc_entries x with
  | (key, value, _) :: _ => log_room (vsep_ d) (len key + len value) ∧ whole_append e key value
  | [] => True
  end →
  ∃ S' hist', gc_entry_step strerror e x d = Some S' ∧ sys_inv S' hist' M.
Proof using Hda Hl.
  intros Hx He. unfold gc_entry_step. destruct (sc_entries x) as [|[[key value] off] es] eqn:Ees.
  - eexists _, hist. split; [done|]. split; [done|]. cbn [sys_bg sys_db]. destruct (ok (sc_status x)); [|done].
    destruct Hx as [Hg _]. by rewrite Ees in Hg.
  - destruct He as [Hroom Happ].
    destruct (entry_spec d hist M Hda x Hx key value off es Ees strerror e Hl Hroom Happ) as (s & n & d' & hist' & -> & Hda' & Hadv).
    cbn [mbind option_bind]. eexists _, hist'. split; [done|]. split; [done|]. cbn [sys_bg sys_db].
    destruct n as [n|]; [by apply Hadv; left|]. destruct (ok s) eqn:Es; [|done]. by apply Hadv; right.
Qed.

Lemma scanning_ok_frame x d' : tables_frame d d' → scanning_ok d hist x → scanning_ok d' hist x.
Proof using. intros [Ev _ _ _ _] [[H1 H2 H3 H4] H5]. split; [split; by rewrite ?Ev|done]. Qed.

End background.

(** The background thread never gets stuck, and what the users see does not
    change. *)
Lemma bg_simulates strerror env S hist M :
  sys_inv S hist M → db_limits (sys_db S) → bg_limits env S →
  ∃ S' hist', bg_step strerror env S = Some S' ∧ sys_inv S' hist' M.
Proof.
  destruct S as [d b]. intros [Hda Hb] Hl Hlim. cbn [sys_db sys_bg bg_limits] in *. unfold bg_step. cbn [sys_db sys_bg].
  destruct (default (quiet_entry, quiet_flush) (head (ge_entries (be_gc env)))) as [entry drain] eqn:Ee.
  destruct b as [|f|c|c F|c outs|s| |g|x|x|f x|g|s]; cbn [bg_inv] in Hb.
  - destruct (bg_start_simulates d hist M Hda Hl) as (S' & -> & Hs). by exists S', hist.
  - destruct f as [imm log n|log r|s]; try
      (destruct (flush_step_spec (be_flush env) _ d hist M Hda Hl Hb) as (f' & d' & -> & Hda' & Hf' & _); cbn [mbind option_bind];
       by exists (mkSystem d' (BgFlush f')), hist).
    eexists _, hist. split; [done|]. destruct (ok s) eqn:Es; split; try done; cbn [sys_db]; [|by apply set_error_data].
    by eapply drop_imm.
  - eexists _, hist. split; [done|]. split; [done|]. split; [done|]. by eapply floor_spec.
  - destruct Hb as [Hp Hf]. destruct (merge_spec d hist M Hda Hl (be_compact env) c F Hp Hf) as (s & outs & d' & -> & Hda' & _ & Ec & Hm).
    cbn [mbind option_bind]. eexists _, hist. split; [done|]. split; [done|]. cbn [sys_db sys_bg]. destruct (ok s) eqn:Es; [|done].
    cbn [bg_inv]. rewrite Ec. split; [done|by apply Hm].
  - destruct Hb as [Hp Hm]. destruct (install_spec d hist M Hda (be_compact env) c outs Hp Hm) as (s & d' & -> & Hda').
    by eexists _, hist.
  - eexists _, hist. split; [done|]. split; [|done]. cbn [sys_db]. destruct (ok s); [done|by apply set_error_data].
  - destruct (rotate_spec d hist M Hda Hb (ge_open (be_gc env)) (ge_publish (be_gc env)) Hlim) as (s & gen & d' & -> & Hda' & Hg).
    cbn [mbind option_bind]. eexists _, hist. split; [done|]. split; [done|]. by destruct gen.
  - destruct (gc_rest g) as [|gen rest] eqn:Er.
    + eexists _, hist. split; [done|]. split; [done|exact Hb].
    + rewrite <- Er in Hb. destruct (scan_spec d hist M Hda _ g gen rest Hb Er Hlim) as (s & es & -> & Hs).
      cbn [mbind option_bind]. by eexists _, hist.
  - apply (gc_entry_simulates strerror d hist M Hda Hl entry x Hb).
    unfold bg_limits in Hlim. cbn [sys_bg sys_db] in Hlim. by rewrite Ee in Hlim.
  - eexists _, hist. split; [done|]. split; [done|]. cbn [sys_db sys_bg]. destruct (imm_ d) as [imm|] eqn:Ei; [|done].
    split; [by eapply start_flush_inv|done].
  - destruct Hb as [Hf Hx]. destruct f as [imm log n|log r|s]; try
      (destruct (flush_step_spec drain _ d hist M Hda Hl Hf) as (f' & d' & -> & Hda' & Hf' & Hfr); cbn [mbind option_bind];
       exists (mkSystem d' (BgGcFlush f' x)), hist; split; [done|]; split; [done|]; split; [done|]; by eapply scanning_ok_frame).
    eexists _, hist. split; [done|]. destruct (ok s) eqn:Es; [|done].
    destruct (drop_imm d hist M s Hda Hf Es) as [Hda' Hfr]. split; [done|]. by eapply scanning_ok_frame.
  - destruct (retire_spec strerror (be_gc env) d hist M g Hda Hb) as (s & d' & -> & Hda'). cbn [mbind option_bind]. by eexists _, hist.
  - eexists _, hist. split; [done|]. split; [|done]. cbn [sys_db]. pose proof (gc_active_data d hist M Hda false) as H.
    destruct (ok s); [done|by eapply set_error_data].
Qed.

(** ** Runs *)

Lemma step_simulates hash strerror c S hist M :
  sys_inv S hist M → limits c S →
  ∃ a S' hist' M', step hash strerror c S = Some (a, S') ∧ allowed c a M M' ∧ sys_inv S' hist' M'.
Proof.
  intros Hs Hl. destruct c as [env key value|env key|io key sn|ios lo hi sn| |a|env]; try (apply (call_simulates hash strerror _ S hist M Hs Hl); by intros ? [=]).
  destruct Hl as [Hl Hc]. destruct (bg_simulates strerror env S hist M Hs Hl Hc) as (S' & hist' & E & Hs').
  exists ANone, S', hist', M. cbn [step]. by rewrite E.
Qed.

Lemma run_simulates hash strerror cs S hist M :
  sys_inv S hist M → within_limits hash strerror cs S →
  ∃ answers S' hist' M', run hash strerror cs S = Some (answers, S') ∧ converses cs answers M M' ∧ sys_inv S' hist' M'.
Proof.
  revert S hist M. induction cs as [|c cs IH]; intros S hist M Hs Hw; [by exists [], S, hist, M|]. destruct Hw as [Hl Hw].
  destruct (step_simulates hash strerror c S hist M Hs Hl) as (a & S1 & hist1 & M1 & E & Ha & Hs1).
  destruct (IH S1 hist1 M1 Hs1 (Hw _ _ E)) as (answers & S2 & hist2 & M2 & E2 & Hc & Hs2).
  exists (a :: answers), S2, hist2, M2. cbn [run]. rewrite E. cbn [mbind option_bind]. rewrite E2.
  split_and!; [done|by exists M1|done].
Qed.

Lemma opened_inv env dir o f d :
  kernel_sizes env → Open env dir o ∅ = Some (f, inr d) → sys_inv (mkSystem d BgIdle) [] (mkMap ∅ []).
Proof.
  intros Hk E. destruct (Open_new env dir o Hk) as (f' & r & E' & Hr). rewrite E in E'. injection E' as <- <-. by split.
Qed.

(** ** Properties *)


(** Every second write fills the memtable; two tables on level 0 are compacted;
    values of 64 bytes and more are separated. *)
Definition sample_Options : Options := mkOptions kSyncAlways 1 2 10 100 true 0 0 true.

Definition no_hash (_ : bytes) : Z := 0.
Definition no_strerror (_ : Z) : bytes := [].

Definition whole_io : io_outcome * io_outcome := (vlog.io_full, vlog.io_full).

(** A snapshot, a writer that has to wait, two flushes with a read in between,
    and a compaction below the snapshot. *)
Definition sample_calls : list Call :=
  [CPut quiet_put (lit "a") (lit "1"); CGetSnapshot; CPut quiet_put (lit "b") (replicate 70 Init.Byte.x78);
   CPut quiet_put (lit "c") (lit "3"); CBackground quiet_bg; CGet whole_io (lit "a") None]
  ++ replicate 3 (CBackground quiet_bg) ++ [CDelete quiet_put (lit "a")] ++ replicate 9 (CBackground quiet_bg)
  ++ [CGet whole_io (lit "b") None; CGet whole_io (lit "a") (Some 1); CScan [] (lit "a") (lit "z") None; CReleaseSnapshot 1].

Lemma quiet_kernel : kernel_sizes quiet_open.
Proof. exists 6, 7. split_and!; try lia. done. Qed.

Lemma sample_within :
  match Open quiet_open (lit "/db") sample_Options ∅ with
  | Some (_, inr d) => check_limits no_hash no_strerror sample_calls (mkSystem d BgIdle) = true
  | _ => False
  end.
Proof. vm_compute. reflexivity. Qed.


(** C5: the levels stay well formed: whatever the run, every table of the
    current version is readable as the sorted run it was built from, its
    recorded key range is that of its entries, and on each of the six levels
    below level 0 the tables are in key order, have disjoint ranges and
    different numbers. *)
Theorem levels_stay_well_formed (hash : bytes → Z) (strerror : Z → bytes) (env : open_env) (dir : bytes) (o : Options)
    (f : files) (d : DB) (cs : list Call) :
  kernel_sizes env → Open env dir o ∅ = Some (f, inr d) → within_limits hash strerror cs (mkSystem d BgIdle) →
  ∃ answers S, run hash strerror cs (mkSystem d BgIdle) = Some (answers, S) ∧
    let v := current_ (sys_db S) in
    version_ok v ∧ length (levels v) = 6%nat ∧ Forall (λ level, NoDup (ref_number <$> level)) (levels v).
Proof.
  intros Hk E Hw. destruct (run_simulates hash strerror cs _ [] _ (opened_inv env dir o f d Hk E) Hw)
    as (answers & S & hist & M & Er & _ & [[Hd _ _ _ _] _]).
  exists answers, S. split; [done|]. split_and!; [apply Hd|apply Hd|apply (no_levels _ (di_numbers _ _ Hd))].
Qed.

Lemma levels_stay_well_formed_witness :
  ∃ f d answers S, Open quiet_open (lit "/db") sample_Options ∅ = Some (f, inr d) ∧
    run no_hash no_strerror sample_calls (mkSystem d BgIdle) = Some (answers, S) ∧ version_ok (current_ (sys_db S)).
Proof.
  pose proof sample_within as Hw. destruct (Open quiet_open (lit "/db") sample_Options ∅) as [[f [s|d]]|] eqn:E; [destruct Hw| |destruct Hw].
  destruct (levels_stay_well_formed no_hash no_strerror quiet_open (lit "/db") sample_Options f d sample_calls quiet_kernel E
    (check_limits_within _ _ _ _ Hw)) as (answers & S & Hr & Hv & _).
  exists f, d, answers, S. split; [reflexivity|split; [exact Hr|exact Hv]].
Defined.

(** ** Compaction *)

Lemma RunCompaction_spec env c d hist M :
  data_inv d hist M → db_limits d → picked_ok (current_ d) c →
  ∃ s d', RunCompaction env c d = Some (s, d') ∧ data_inv d' hist M ∧ snapshots_ d' = snapshots_ d ∧ next_seq_ d' = next_seq_ d.
Proof.
  intros Hda Hl Hp. unfold RunCompaction. pose proof (floor_spec d hist M Hda Hl c Hp) as Hf.
  destruct (merge_spec d hist M Hda Hl env c _ Hp Hf) as (s & outs & d1 & -> & Hda1 & Hfr & Ec & Hm). cbn [mbind option_bind].
  destruct (ok s) eqn:Es; [|exists s, d1; split_and!; [done|done|apply Hfr|apply Hfr]]. rewrite <- Ec in Hp.
  destruct (Hm eq_refl) as (n0 & n1 & F & Ho & Hold & Hn & Hf1).
  destruct (compact_install_spec d1 hist (da_db _ _ _ Hda1) c outs n0 n1 F Hp Ho Hold Hn Hf1 env) as (s' & d' & E & Hd' & _ & Hfo).
  exists s', d'. rewrite E. destruct Hfo as [[] _ Ev _]. destruct Hfr.
  split_and!; [done|by eapply data_frame|by etrans|by etrans].
Qed.

(** What a point read of the state finds. *)
Definition finds (d : DB) (key : bytes) (sn : option Snapshot) : option (option bytes) :=
  res ← LookupIn (mem_ d) (imm_ d) (current_ d) key (read_point sn);
  match res with inl r => Some (answer r) | inr _ => None end.

Lemma finds_hist d hist M key sn :
  data_inv d hist M → next_seq_ d < 2 ^ 56 → (∀ s, sn = Some s → s ∈ snapshots_ d) → len key < 2 ^ 32 - 8 →
  finds d key sn = Some (answer (read hist key (read_point sn))).
Proof.
  intros Hda Hn Hsn Hk. pose proof (da_db _ _ _ Hda) as Hd. unfold finds.
  assert (readable d (read_point sn)) as Hr.
  { destruct sn as [s|]; [eapply readable_snapshot; eauto|eapply readable_latest; [done|lia]]. }
  rewrite LookupIn_layers by (apply Hd || apply Hr || done). cbn [mbind option_bind]. f_equal. by apply layered_hist.
Qed.

(** C4: a compaction picks its files in finitely many rounds and loses no
    version a reader can need: the picked set is closed (no file of the target
    level outside it meets its key range), the merge ends, and whether or not
    its calls succeed, every latest read and every read of a live snapshot
    finds after it what it found before. *)
Theorem compaction_preserves_reads (env : compact_env) (d : DB) (hist : list version) (M : Map) :
  data_inv d hist M → db_limits d → CompactionNeeded d = true →
  ∃ c s d', PickCompaction d = Some c ∧ picked_ok (current_ d) c ∧ RunCompaction env c d = Some (s, d') ∧ data_inv d' hist M ∧
    ∀ key sn, (∀ s, sn = Some s → s ∈ snapshots_ d) → len key < 2 ^ 32 - 8 →
      is_Some (finds d key sn) ∧ finds d' key sn = finds d key sn.
Proof.
  intros Hda Hl Hn. destruct (pick_spec d hist M Hda Hl Hn) as (c & Hc & Hp).
  destruct (RunCompaction_spec env c d hist M Hda Hl Hp) as (s & d' & E & Hda' & Es & En).
  exists c, s, d'. split_and!; [done|done|done|done|]. intros key sn Hsn Hk. pose proof (dl_seq _ Hl).
  rewrite (finds_hist d hist M), (finds_hist d' hist M) by (rewrite ?Es, ?En; done). done.
Qed.

(** The state after the first [n] calls of the sample run. *)
Definition sample_state (n : nat) : option DB :=
  match Open quiet_open (lit "/db") sample_Options ∅ with
  | Some (_, inr d) =>
      let cs := take n sample_calls in
      if check_limits no_hash no_strerror cs (mkSystem d BgIdle)
      then '(_, S1) ← run no_hash no_strerror cs (mkSystem d BgIdle); Some (sys_db S1)
      else None
  | _ => None
  end.

Lemma sample_state_inv n d : sample_state n = Some d → ∃ hist M, data_inv d hist M.
Proof.
  unfold sample_state. destruct (Open quiet_open (lit "/db") sample_Options ∅) as [[f [s|d0]]|] eqn:E; [discriminate| |discriminate].
  cbv zeta. destruct (check_limits _ _ _ _) eqn:Ec; [|discriminate]. apply check_limits_within in Ec.
  destruct (run_simulates no_hash no_strerror _ _ [] _ (opened_inv _ _ _ _ _ quiet_kernel E) Ec) as (a & S & hist & M & -> & _ & [Hda _]).
  cbn [mbind option_bind]. intros [= <-]. by exists hist, M.
Qed.

(** Two tables are on level 0, below a live snapshot. *)
Lemma sample_state_due :
  match sample_state 14 with
  | Some d => bool_decide (db_limits d) && CompactionNeeded d && negb (bool_decide (snapshots_ d = [])) = true
  | None => False
  end.
Proof. vm_compute. reflexivity. Qed.

Lemma compaction_preserves_reads_witness :
  ∃ d c s d', snapshots_ d ≠ [] ∧ PickCompaction d = Some c ∧ RunCompaction quiet_compact c d = Some (s, d') ∧
    finds d' (lit "a") None = finds d (lit "a") None.
Proof.
  pose proof sample_state_due as Hs. destruct (sample_state 14) as [d|] eqn:E; [|destruct Hs].
  destruct (sample_state_inv _ d E) as (hist & M & Hda).
  apply andb_true_iff in Hs as [[Hl%bool_decide_eq_true Hc]%andb_true_iff Hn%negb_true_iff%bool_decide_eq_false].
  destruct (compaction_preserves_reads quiet_compact d hist M Hda Hl Hc) as (c & s & d' & H1 & _ & H2 & _ & H3).
  exists d, c, s, d'. split; [exact Hn|]. split; [exact H1|]. split; [exact H2|].
  destruct (H3 (lit "a") None) as [_ H]; [discriminate|vm_compute; reflexivity|exact H].
Defined.
