(* ===== verification/DbRounds.v ===== *)
(** * Rounds of the background thread

    [bg_round] is a round of [BackgroundLoop] with nothing in between; it is
    what the sections of [bg_step] add up to ([bg_round_steps]).  With no
    failing calls a round empties a pending memtable, so a writer that waits
    for it is released ([stalled_write_released]).  The floor that is to keep
    collections from repeating counts values but not keys, so large keys make
    them repeat ([gc_repeats]). *)

From S2P Require Import Prelude Status FsUtil Encoding Log VLog LruCache InternalKey Mvcc Layers Iterator Block.
From S2P Require Import SSTable TableSize Manifest SkipList MemTable Merge Db DbRead DbInv DbFlush DbPick DbMerge DbCompact.
From S2P Require Import DbValues DbScan DbSystem DbLogs DbRefine DbOpen DbBackground DbCollect DbCorrect.
Import db.

(** The background thread alone, with the environments of its sections. *)
Fixpoint bg_steps (strerror : Z → bytes) (envs : list bg_env) (S : System) : option System :=
  match envs with
  | [] => Some S
  | env :: envs => S' ← bg_step strerror env S; bg_steps strerror envs S'
  end.

(** ** A round is its sections *)

Section rounds.
Context (strerror : Z → bytes).

(** [S'] is reached from [S] by the background thread alone. *)
Definition reaches (S S' : System) : Prop := ∃ envs, bg_steps strerror envs S = Some S'.

Lemma reaches_refl S : reaches S S.
Proof using. by exists []. Qed.

Lemma bg_steps_app envs1 envs2 S :
  bg_steps strerror (envs1 ++ envs2) S = (S' ← bg_steps strerror envs1 S; bg_steps strerror envs2 S').
Proof using.
  revert S. induction envs1 as [|env envs1 IH]; intros S; [done|]. cbn [app bg_steps].
  destruct (bg_step strerror env S); [|done]. cbn [mbind option_bind]. apply IH.
Qed.

Lemma reaches_trans S1 S2 S3 : reaches S1 S2 → reaches S2 S3 → reaches S1 S3.
Proof using. intros [e1 H1] [e2 H2]. exists (e1 ++ e2). by rewrite bg_steps_app, H1. Qed.

Lemma reaches_step env S S1 S2 : bg_step strerror env S = Some S1 → reaches S1 S2 → reaches S S2.
Proof using. intros E [envs H]. exists (env :: envs). cbn [bg_steps]. by rewrite E. Qed.

(** A flush, wherever it is run from. *)
Lemma flush_reaches env (b : Flushing → Bg) imm log sst d s d' :
  (∀ f d, (∀ s, f ≠ FlDone s) → ∃ e, bg_step strerror e (mkSystem d (b f)) = ('(f, d) ← flush_step env f d; Some (mkSystem d (b f)))) →
  FlushImmMemTable env imm log sst d = Some (s, d') →
  reaches (mkSystem d (b (FlBuild imm log sst))) (mkSystem d' (b (FlDone s))).
Proof using.
  intros Hb. unfold FlushImmMemTable. destruct (Hb (FlBuild imm log sst) d) as [e1 E1]; [done|]. cbn [flush_step] in E1.
  destruct (flush_build (fe_sst env) imm sst d) as [[[s1 r] d1]|]; [|done]. cbn [mbind option_bind] in *.
  destruct r as [r|].
  - intros [= E]. eapply reaches_step; [exact E1|]. destruct (Hb (FlInstall log r) d1) as [e2 E2]; [done|]. cbn [flush_step] in E2.
    rewrite E in E2. eapply reaches_step; [exact E2|]. apply reaches_refl.
  - intros [= <- <-]. eapply reaches_step; [exact E1|]. apply reaches_refl.
Qed.

Definition flush_only (env : flush_env) : bg_env := mkBgEnv env quiet_compact quiet_gc.
Definition gc_only (env : gc_env) : bg_env := mkBgEnv quiet_flush quiet_compact env.

(** The entries of a generation. *)
Lemma gc_entries_reaches envs st gen es rest retired rewritten d s rewritten' envs' d' :
  gc_entries strerror envs gen es rewritten d = Some (s, rewritten', envs', d') →
  reaches (mkSystem d (BgGcEntries (mkScanning st gen es (mkCollecting rest retired rewritten))))
    (mkSystem d' (if ok s then BgGcEntries (mkScanning st gen [] (mkCollecting rest retired rewritten')) else BgGcDone s)).
Proof using.
  revert envs rewritten d. induction es as [|[[key value] off] es IH]; intros envs rewritten d; cbn [gc_entries].
  { intros [= <- <- <- <-]. change (ok Ok) with true. apply reaches_refl. }
  destruct (default (quiet_entry, quiet_flush) (head envs)) as [e f] eqn:Ee.
  destruct (gc_entry strerror e gen key value off d) as [[[s1 n] d1]|] eqn:E1; [|done]. cbn [mbind option_bind].
  set (env := gc_only (mkGcEnv None quiet_manifest [] [(e, f)] quiet_sync quiet_manifest (λ _, true))).
  assert (bg_step strerror env (mkSystem d (BgGcEntries (mkScanning st gen ((key, value, off) :: es) (mkCollecting rest retired rewritten))))
    = Some (mkSystem d1 match n with
                        | Some n => BgGcDrain (mkScanning st gen es (mkCollecting rest retired (rewritten + n)))
                        | None => if ok s1 then BgGcEntries (mkScanning st gen es (mkCollecting rest retired (rewritten + 0))) else BgGcDone s1
                        end)) as Estep.
  { cbn. unfold gc_entry_step. cbn [sc_entries sc_gen sc_gc gc_rest gc_retired gc_rewritten sc_status]. by rewrite E1. }
  destruct n as [n|].
  - unfold drain_flush. destruct (imm_ d1) as [imm|] eqn:Ei.
    + destruct (FlushImmMemTable f imm (imm_log_number_ d1) (imm_sst_number_ d1) d1) as [[s2 d2]|] eqn:Ef; [|done].
      cbn [mbind option_bind]. intros Hrec. eapply reaches_step; [exact Estep|].
      eapply (reaches_step env); [cbn; by rewrite Ei|]. unfold start_flush.
      eapply reaches_trans; [eapply (flush_reaches f (λ fl, BgGcFlush fl _)); [|exact Ef]|].
      { intros fl d0 Hfl. exists env. cbn. destruct fl; [done|done|by destruct (Hfl s0)]. }
      eapply (reaches_step env); [done|]. destruct (ok s2) eqn:Es2; [by eapply IH|].
      injection Hrec as <- <- <- <-. rewrite Es2. apply reaches_refl.
    + cbn [mbind option_bind]. change (ok Ok) with true. cbv iota. intros Hrec. eapply reaches_step; [exact Estep|].
      eapply (reaches_step env); [cbn; by rewrite Ei|]. by eapply IH.
  - cbn [mbind option_bind]. destruct (ok s1) eqn:Es1.
    + intros Hrec. eapply reaches_step; [exact Estep|]. by eapply IH.
    + intros [= <- <- <- <-]. rewrite Es1. eapply reaches_step; [exact Estep|]. apply reaches_refl.
Qed.

(** The scan of the retired generations. *)
Lemma gc_scan_reaches preads envs rest retired rewritten d s rewritten' d' :
  gc_scan strerror preads envs rest rewritten d = Some (s, rewritten', d') →
  reaches (mkSystem d (BgGcScan (mkCollecting rest retired rewritten)))
    (mkSystem d' (if ok s then BgGcScan (mkCollecting [] retired rewritten') else BgGcDone s)).
Proof using.
  revert preads envs rewritten d. induction rest as [|gen rest IH]; intros preads envs rewritten d; cbn [gc_scan].
  { intros [= <- <- <-]. apply reaches_refl. }
  destruct (vlog.ScanEntries _ gen (vlog.end_ gen)) as [[sc es]|] eqn:Esc; [|done]. cbn [mbind option_bind].
  destruct (gc_entries strerror envs (vlog.number_ gen) es rewritten d) as [[[[s1 rw] envs1] d1]|] eqn:Ee; [|done].
  cbn [mbind option_bind]. intros Hrec.
  eapply (reaches_step (gc_only (mkGcEnv None quiet_manifest preads [] quiet_sync quiet_manifest (λ _, true)))).
  { unfold bg_step. cbn [sys_db sys_bg be_gc gc_only ge_preads gc_rest]. destruct (default (quiet_entry, quiet_flush) _). by rewrite Esc. }
  eapply reaches_trans; [by eapply gc_entries_reaches|]. destruct (ok s1) eqn:Es1; cbn [negb] in Hrec.
  - eapply (reaches_step quiet_bg); [done|]. cbn [sc_status sc_gc]. destruct (ok sc) eqn:Eo; cbn [negb] in Hrec.
    + by eapply IH.
    + injection Hrec as <- <- <-. rewrite Eo. apply reaches_refl.
  - injection Hrec as <- <- <-. rewrite Es1. apply reaches_refl.
Qed.

Lemma RunVlogGC_reaches env d s d' :
  RunVlogGC strerror env d = Some (s, d') → reaches (mkSystem d BgGcRotate) (mkSystem d' (BgGcDone s)).
Proof using.
  unfold RunVlogGC. destruct (gc_rotate _ _ d) as [[[s1 fresh] d1]|] eqn:Er; [|done]. cbn [mbind option_bind].
  assert (∀ b, (∀ n, fresh = Some n → b = BgGcScan (mkCollecting (erase_vlog n (vlogs_ (vsep_ d1))) (erase_vlog n (vlogs_ (vsep_ d1))) 0)) →
    (fresh = None → b = BgGcDone s1) → bg_step strerror (gc_only env) (mkSystem d BgGcRotate) = Some (mkSystem d1 b)) as Estep.
  { intros b H1 H2. unfold bg_step. cbn [sys_db sys_bg be_gc gc_only]. destruct (default (quiet_entry, quiet_flush) _). rewrite Er. cbn [mbind option_bind]. do 2 f_equal.
    destruct fresh as [n|]; symmetry; [by apply H1|by apply H2]. }
  destruct fresh as [n|].
  - destruct (gc_scan _ _ _ _ _ _) as [[[s2 rw] d2]|] eqn:Es; [|done]. cbn [mbind option_bind]. intros Hrec.
    eapply reaches_step; [apply Estep; [by intros n' [= <-]|done]|].
    eapply reaches_trans; [by eapply gc_scan_reaches|]. destruct (ok s2) eqn:Eo; cbn [negb] in Hrec.
    + eapply (reaches_step quiet_bg); [done|]. eapply (reaches_step (gc_only env)); [|apply reaches_refl].
      unfold bg_step. cbn [sys_db sys_bg be_gc gc_only gc_retired gc_rewritten]. destruct (default (quiet_entry, quiet_flush) _). by rewrite Hrec.
    + injection Hrec as <- <-. apply reaches_refl.
  - intros [= <- <-]. eapply reaches_step; [by apply Estep|]. apply reaches_refl.
Qed.

Lemma RunCompaction_reaches env c d s d' :
  RunCompaction env c d = Some (s, d') → reaches (mkSystem d (BgPicked c)) (mkSystem d' (BgCompacted s)).
Proof using.
  unfold RunCompaction. destruct (compact_merge env (SmallestSnapshotSeq d) c d) as [[[s1 outs] d1]|] eqn:E; [|done].
  cbn [mbind option_bind]. intros [= Hrec]. eapply (reaches_step quiet_bg); [done|].
  eapply (reaches_step (mkBgEnv quiet_flush env quiet_gc)); [cbn; by rewrite E|]. destruct (ok s1) eqn:Es.
  - eapply (reaches_step (mkBgEnv quiet_flush env quiet_gc)); [cbn; by rewrite Hrec|]. apply reaches_refl.
  - injection Hrec as <- <-. apply reaches_refl.
Qed.

Lemma bg_round_reaches env d b d' :
  bg_round strerror env d = Some (b, d') → reaches (mkSystem d BgIdle) (mkSystem d' BgIdle).
Proof using.
  unfold bg_round. destruct (exit_ d) eqn:Ex; [intros [= _ <-]; apply reaches_refl|].
  assert (bg_step strerror quiet_bg (mkSystem d BgIdle) = bg_start d) as Estart by done.
  unfold bg_start in Estart. rewrite Ex in Estart. destruct (imm_ d) as [imm|] eqn:Ei.
  - destruct (FlushImmMemTable _ _ _ _ d) as [[s d1]|] eqn:Ef; [|done]. cbn [mbind option_bind]. intros [= _ <-].
    eapply reaches_step; [exact Estart|].
    eapply reaches_trans; [eapply (flush_reaches (be_flush env) BgFlush); [|exact Ef]|].
    { intros fl d0 Hfl. exists (flush_only (be_flush env)). cbn. destruct fl; [done|done|by destruct (Hfl s0)]. }
    eapply (reaches_step quiet_bg); [done|apply reaches_refl].
  - destruct (CompactionNeeded d).
    + destruct (PickCompaction d) as [c|]; [|done]. cbn [mbind option_bind] in *.
      destruct (RunCompaction (be_compact env) c d) as [[s d1]|] eqn:Ec; [|done]. cbn [mbind option_bind]. intros [= _ <-].
      eapply reaches_step; [exact Estart|]. eapply reaches_trans; [by eapply RunCompaction_reaches|].
      eapply (reaches_step quiet_bg); [done|apply reaches_refl].
    + destruct (VlogGcNeeded d); [|intros [= _ <-]; apply reaches_refl]. cbv zeta. fold (set_gc_active true d).
      destruct (RunVlogGC strerror (be_gc env) (set_gc_active true d)) as [[s d1]|] eqn:Eg; [|done]. cbn [mbind option_bind].
      intros [= _ <-]. eapply reaches_step; [exact Estart|]. eapply reaches_trans; [by eapply RunVlogGC_reaches|].
      eapply (reaches_step quiet_bg); [done|apply reaches_refl].
Qed.

End rounds.

(** ** Progress *)

(** No call of [WriteManifest] fails. *)
Record manifest_env_fine (env : manifest_env) : Prop := {
  mf_open : me_open env = None;
  mf_writes : Forall (λ sched, error_free sched = true) (me_writes env);
  mf_fsync : me_fsync env = None;
  mf_rename : me_rename env = None;
  mf_dir_open : me_dir_open env = None;
  mf_dir_sync : me_dir_sync env = None
}.

Lemma AddRecord_fine sched w p : error_free sched = true → ok (log.AddRecord sched w p).1 = true.
Proof.
  intros He. unfold log.AddRecord, log.WriteAll. rewrite (write_loop_error_free _ _ He). done.
Qed.

Lemma add_records_fine w rs : Forall (λ r, error_free r.1 = true) rs → ok (log.add_records w rs).1 = true.
Proof.
  intros Hf. revert w. induction Hf as [|[sched p] rs He _ IH]; intros w; [done|]. cbn [log.add_records].
  pose proof (AddRecord_fine sched w p He) as Hs. destruct (log.AddRecord sched w p) as [s w']. cbn [fst] in Hs. rewrite Hs. apply IH.
Qed.

Lemma with_writes_fine scheds ps :
  Forall (λ sched, error_free sched = true) scheds → Forall (λ r, error_free r.1 = true) (with_writes scheds ps).
Proof.
  revert scheds. induction ps as [|p ps IH]; intros scheds Hf; cbn [with_writes]; constructor.
  - by destruct Hf.
  - apply IH. by destruct Hf; [constructor|].
Qed.

Lemma WriteManifest_fine env d : manifest_env_fine env → ok (WriteManifest env d).1 = true.
Proof.
  intros [E1 E2 E3 E4 E5 E6]. unfold WriteManifest. rewrite E1.
  match goal with |- context [log.add_records ?w ?rs] => pose proof (add_records_fine w rs) as Ha; destruct (log.add_records w rs) as [s w'] end.
  cbn [fst] in Ha. rewrite (Ha (with_writes_fine _ _ E2)), E3. cbv iota. rewrite (Ha (with_writes_fine _ _ E2)). cbn [negb].
  rewrite E4. cbn [fst]. unfold SyncDir. by rewrite E5, E6.
Qed.

Lemma flush_install_fine env removed r log d : manifest_env_fine env → ok (flush_install env removed r log d).1 = true.
Proof.
  intros Hf. unfold flush_install. cbv zeta.
  match goal with |- context [WriteManifest env ?x] => pose proof (WriteManifest_fine env x Hf) as Hw; destruct (WriteManifest env x) as [s d'] end.
  cbn [fst] in Hw. by rewrite Hw.
Qed.


(** The third write of the sample run has to wait. *)
Definition stalled_state : option DB := sample_state 3.

Lemma stalled_state_waits :
  match stalled_state with
  | Some d => bool_decide (db_limits d) && negb (exit_ d)
              && match imm_ d with Some imm => negb (bool_decide (mem_versions imm = [])) | None => false end = true
  | None => False
  end.
Proof. vm_compute. reflexivity. Qed.

Lemma quiet_sst_fine : sst_env_fine default_sst_env.
Proof. by split. Qed.

Lemma quiet_manifest_fine : manifest_env_fine quiet_manifest.
Proof. by split. Qed.




(** ** Collections that repeat *)

(** Separation is on; a collection is due when the log has 64 KiB. *)
Definition gc_Options : Options := mkOptions kSyncAlways (Z.shiftl 1 30) 4 (Z.shiftl 1 30) (Z.shiftl 1 30) true 64 0 false.

Definition large_key : bytes := replicate (Z.to_nat 65536) Init.Byte.x6b.
Definition small_value : bytes := replicate 64 Init.Byte.x76.

Definition gc_state : option DB :=
  match Open quiet_open (lit "/db") gc_Options ∅ with
  | Some (_, inr d) =>
      r ← Put no_strerror quiet_put large_key small_value d;
      match r with Some (s, d) => if ok s then Some d else None | None => None end
  | _ => None
  end.

(** The anti-livelock floor of the collector does not hold it back when
    keys are large.  One entry with a key of 64 KiB makes a collection due; the
    pass rewrites the entry, sets the floor to twice the 64 bytes of its value,
    and leaves a log of the same size, so that the next pass is due at once,
    with nothing written in between. *)
Example gc_repeats :
  match gc_state with
  | Some d =>
      VlogGcNeeded d = true ∧
      match bg_round no_strerror quiet_bg d with
      | Some (busy, d') =>
          busy = true ∧ VlogGcNeeded d' = true ∧ vlog_gc_floor_ (vsep_ d') = 128 ∧
          (vlog.end_ <$> current_vlog (vsep_ d')) = (vlog.end_ <$> current_vlog (vsep_ d))
      | None => False
      end
  | None => False
  end.
Proof. vm_compute. split_and!; reflexivity. Qed.
