(* ===== verification/DbFiles.v ===== *)
(** * The files of a database

    The names of the engine's files are distinct ([path_of_inj]) and the
    directory listing recognises them, so what [Open] finds is what was
    written: [logs_to_replay_spec] and [RemoveOrphanFiles_spec].  [known] says
    that a directory holds nothing but the engine's own files. *)

From S2P Require Import Prelude Status FsUtil Encoding VLog InternalKey Mvcc SSTable Manifest Db DbCompact.
Import db.

(** ** Names *)

Inductive file_name :=
| FnManifest
| FnTmp
| FnSst (n : Z)
| FnLog (n : Z)
| FnVlog (n : Z).

#[export] Instance file_name_eq_dec : EqDecision file_name.
Proof. solve_decision. Defined.

Definition base_name (x : file_name) : bytes :=
  match x with
  | FnManifest => kManifestFileName
  | FnTmp => kManifestTmpFileName
  | FnSst n => SstFileName n
  | FnLog n => LogFileName n
  | FnVlog n => vlog.FileName n
  end.

Definition path_of (dir : bytes) (x : file_name) : bytes := dir ++ lit "/" ++ base_name x.

(** The number fits the 64 bits of the program. *)
Definition numbered (x : file_name) : Prop :=
  match x with FnSst n | FnLog n | FnVlog n => 0 ≤ n < 2 ^ 64 | _ => True end.

Definition sst_number (x : file_name) : option Z := match x with FnSst n => Some n | _ => None end.
Definition log_number (x : file_name) : option Z := match x with FnLog n => Some n | _ => None end.
Definition vlog_file_number (x : file_name) : option Z := match x with FnVlog n => Some n | _ => None end.

(** A directory with nothing but the engine's files. *)
Definition known (dir : bytes) (f : files) : Prop :=
  ∀ path, is_Some (f !! path) → ∃ x, numbered x ∧ path = path_of dir x.

Lemma zero_pad6_last n : 0 ≤ n < 2 ^ 64 → ∃ base c, zero_pad6 n = base ++ [c] ∧ is_digit c = true.
Proof.
  intros Hn. destruct (zero_pad6_spec n Hn) as (Hne & _ & Hd & _).
  destruct (zero_pad6 n) as [|c base _] using rev_ind; [done|]. exists base, c. split; [done|].
  apply Forall_app in Hd as [_ Hd]. by inversion Hd.
Qed.

(** Parsing by suffix tells the kinds apart. *)
Lemma parse_sst x : numbered x → ParseNumberedFile (base_name x) (lit ".sst") = sst_number x.
Proof.
  destruct x as [| |n|n|n]; intros Hn; [done|done|by apply ParseNumberedFile_name|by apply ParseNumberedFile_other|].
  cbn [base_name]. unfold vlog.FileName.
  change (lit ".vlog") with (lit "." ++ lit "vlog"). rewrite app_assoc. by apply ParseNumberedFile_other.
Qed.

Lemma parse_log x : numbered x → ParseNumberedFile (base_name x) (lit ".log") = log_number x.
Proof.
  destruct x as [| |n|n|n]; intros Hn; [done|done|by apply ParseNumberedFile_other|by apply ParseNumberedFile_name|].
  cbn [base_name]. unfold vlog.FileName.
  change (lit ".vlog") with (lit "." ++ lit "vlog"). rewrite app_assoc. by apply ParseNumberedFile_other.
Qed.

Lemma parse_vlog x : numbered x → ParseNumberedFile (base_name x) (lit ".vlog") = vlog_file_number x.
Proof.
  destruct x as [| |n|n|n]; intros Hn; [done|done| | |by apply ParseNumberedFile_name]; cbn [base_name].
  - unfold SstFileName. destruct (zero_pad6_last n Hn) as (base & c & -> & Hc). rewrite <- app_assoc.
    by apply ParseNumberedFile_other.
  - unfold LogFileName. destruct (zero_pad6_last n Hn) as (base & c & -> & Hc). rewrite <- app_assoc.
    by apply ParseNumberedFile_other.
Qed.

Lemma base_name_inj x y : numbered x → numbered y → base_name x = base_name y → x = y.
Proof.
  intros Hx Hy E. pose proof (parse_sst x Hx) as S1. pose proof (parse_log x Hx) as L1. pose proof (parse_vlog x Hx) as V1.
  rewrite E in S1, L1, V1. rewrite (parse_sst y Hy) in S1. rewrite (parse_log y Hy) in L1. rewrite (parse_vlog y Hy) in V1.
  destruct x, y; cbn in *; congruence || done.
Qed.

Lemma path_of_inj dir x y : numbered x → numbered y → path_of dir x = path_of dir y → x = y.
Proof. intros Hx Hy E. unfold path_of in E. apply app_inv_head, app_inv_head in E. by apply base_name_inj. Qed.

Lemma base_name_slash x : numbered x → slash ∉ base_name x.
Proof.
  assert (∀ n suffix, 0 ≤ n < 2 ^ 64 → slash ∉ suffix → slash ∉ zero_pad6 n ++ suffix) as H.
  { intros n suffix Hn Hs [Hin|Hin]%elem_of_app; [|done]. destruct (zero_pad6_spec n Hn) as (_ & _ & Hd & _).
    rewrite Forall_forall in Hd. by specialize (Hd slash Hin). }
  destruct x; intros Hn; cbn [base_name]; try (apply H; [done|]); by apply (bool_decide_eq_true_1 (slash ∉ _)).
Qed.

(** ** Listing the directory *)

Lemma dir_entry_spec dir path name :
  dir_entry dir path = Some name ↔ path = dir ++ lit "/" ++ name ∧ slash ∉ name.
Proof.
  unfold dir_entry. split.
  - destruct (bytes_eqb _ _) eqn:E; [|done]. apply bytes_eqb_eq in E. case_bool_decide as Hs; [done|]. intros [= <-].
    split; [|done]. rewrite app_assoc, <- E at 1. unfold slice, at_off. change (Z.to_nat 0) with 0%nat. by rewrite drop_0, take_drop.
  - intros [-> Hs]. rewrite app_assoc.
    assert (slice 0 (len (dir ++ lit "/")) ((dir ++ lit "/") ++ name) = dir ++ lit "/") as ->.
    { rewrite slice_app_l by (pose proof (len_nonneg (dir ++ lit "/")); lia). apply slice_full. }
    rewrite at_off_app by done. rewrite (proj2 (bytes_eqb_eq _ _)) by done. by rewrite bool_decide_eq_false_2.
Qed.

Lemma dir_names_elem dir f name :
  name ∈ dir_names dir f ↔ is_Some (f !! (dir ++ lit "/" ++ name)) ∧ slash ∉ name.
Proof.
  unfold dir_names. rewrite list_elem_of_omap. split.
  - intros (path & Hp & [-> Hs]%dir_entry_spec). split; [|done].
    apply list_elem_of_fmap in Hp as ([p data] & E & Hp). cbn [fst] in E. subst p. apply elem_of_map_to_list in Hp. by exists data.
  - intros [[data Hd] Hs]. exists (dir ++ lit "/" ++ name). split; [|by apply dir_entry_spec].
    apply list_elem_of_fmap. exists (dir ++ lit "/" ++ name, data). split; [done|]. by apply elem_of_map_to_list.
Qed.

Lemma NoDup_omap_inj {A B} (g : A → option B) (l : list A) :
  (∀ x y b, g x = Some b → g y = Some b → x ∈ l → y ∈ l → x = y) → NoDup l → NoDup (omap g l).
Proof.
  intros Hinj Hnd. induction Hnd as [|x l Hx Hnd IH]; [constructor|]. cbn [omap list_omap].
  assert (NoDup (omap g l)) as IH'.
  { apply IH. intros. eapply Hinj; [done|done|by apply list_elem_of_further..]. }
  destruct (g x) as [b|] eqn:E; [|done]. constructor; [|done]. intros (y & Hy & E')%list_elem_of_omap.
  assert (x = y) as -> by (eapply Hinj; [done|done|apply list_elem_of_here|by apply list_elem_of_further]). done.
Qed.

Lemma NoDup_dir_names dir f : NoDup (dir_names dir f).
Proof.
  apply NoDup_omap_inj; [|apply NoDup_fst_map_to_list]. intros x y b [-> _]%dir_entry_spec [-> _]%dir_entry_spec _ _. done.
Qed.

(** In a known directory the names are those of the files. *)
Lemma known_name dir f name : known dir f → name ∈ dir_names dir f → ∃ x, numbered x ∧ name = base_name x.
Proof.
  intros Hk [Hp _]%dir_names_elem. destruct (Hk _ Hp) as (x & Hn & E). exists x. split; [done|].
  unfold path_of in E. by apply app_inv_head, app_inv_head in E.
Qed.

Lemma name_listed dir f x : numbered x → is_Some (f !! path_of dir x) → base_name x ∈ dir_names dir f.
Proof. intros Hn Hs. apply dir_names_elem. split; [done|by apply base_name_slash]. Qed.

(** ** The logs to replay *)

Lemma sort_by_keys {A} (key : A → Z) (lt : A → A → bool) l :
  (∀ a b, lt a b = (key a <? key b)) → NoDup (key <$> l) → sorted_by lt (sort_by lt l).
Proof.
  intros Hlt. induction l as [|x l IH]; [done|]. rewrite fmap_cons. intros [Hx Hnd]%NoDup_cons. specialize (IH Hnd).
  cbn [sort_by foldr]. fold (sort_by lt l).
  assert (∀ y, y ∈ sort_by lt l → key y ≠ key x) as Hx'.
  { intros y Hy E. apply Hx. rewrite <- E. apply list_elem_of_fmap_2. by rewrite sort_by_perm in Hy. }
  revert IH Hx'. generalize (sort_by lt l). clear -Hlt. intros l.
  induction l as [|y l IH]; intros Hs Hx; [done|]. destruct Hs as [Hy Hs]. cbn [sort_insert].
  rewrite Hlt. destruct (Z.ltb_spec (key x) (key y)) as [Hxy|Hxy].
  - split; [|done]. constructor; [rewrite Hlt; by apply Z.ltb_lt|]. eapply Forall_impl; [exact Hy|]. simpl. intros z.
    rewrite !Hlt, !Z.ltb_lt. lia.
  - specialize (Hx y (list_elem_of_here _ _)) as Hne. split; [|apply IH; [done|intros z Hz; apply Hx; by apply list_elem_of_further]].
    rewrite sort_insert_perm. constructor; [rewrite Hlt; apply Z.ltb_lt; lia|done].
Qed.

Lemma sort_by_ltb l : NoDup l → sorted_by Z.ltb (sort_by Z.ltb l).
Proof. intros H. apply (sort_by_keys id); [done|]. by rewrite list_fmap_id. Qed.

(** Two sorted lists with the same elements are equal. *)
Lemma sorted_unique {A} (lt : A → A → bool) (l k : list A) :
  (∀ x y, x ∈ l → y ∈ l → lt x y = true → lt y x = false) →
  sorted_by lt l → sorted_by lt k → (∀ x, x ∈ l ↔ x ∈ k) → l = k.
Proof.
  revert k. induction l as [|x l IH]; intros k Has Hl Hk He.
  { destruct k as [|y k]; [done|]. destruct (not_elem_of_nil y). by apply He, list_elem_of_here. }
  destruct k as [|y k]. { destruct (not_elem_of_nil x). by apply He, list_elem_of_here. }
  assert (∀ z, z ∈ x :: l → lt z z ≠ true) as Hirr by (intros z Hz E; by rewrite (Has z z Hz Hz E) in E).
  destruct Hl as [Hx Hl], Hk as [Hy Hk]. rewrite Forall_forall in Hx, Hy.
  pose proof (proj2 (He y) (list_elem_of_here _ _)) as Hyl.
  assert (x = y) as <-.
  { destruct (proj1 (elem_of_cons _ _ _) (proj1 (He x) (list_elem_of_here _ _))) as [|Hxk]; [done|].
    destruct (proj1 (elem_of_cons _ _ _) Hyl) as [|Hyl']; [done|].
    specialize (Hx y Hyl'). specialize (Hy x Hxk). apply Has in Hx; [congruence|apply list_elem_of_here|done]. }
  f_equal. apply IH; [|done|done|].
  { intros a b Ha Hb. apply Has; by apply list_elem_of_further. }
  intros z. specialize (He z). rewrite !elem_of_cons in He. split; intros Hz.
  - destruct (proj1 He (or_intror Hz)) as [->|]; [|done]. by destruct (Hirr x (list_elem_of_here _ _) (Hx _ Hz)).
  - destruct (proj2 He (or_intror Hz)) as [->|]; [|done]. by destruct (Hirr x (list_elem_of_here _ _) (Hy _ Hz)).
Qed.

Lemma logs_to_replay_spec dir floor f ns :
  known dir f → ns ≠ [] → sorted_by Z.ltb ns →
  (∀ n, n ∈ ns ↔ floor ≤ n ∧ 0 ≤ n < 2 ^ 64 ∧ is_Some (f !! LogPath dir n)) →
  logs_to_replay dir floor f = ns.
Proof.
  intros Hk Hne Hs Hns. unfold logs_to_replay.
  set (g := λ name, n ← ParseNumberedFile name (lit ".log"); if floor <=? n then Some n else None).
  assert (∀ x n, numbered x → g (base_name x) = Some n ↔ x = FnLog n ∧ floor ≤ n) as Hg.
  { intros x n Hx. unfold g. rewrite (parse_log x Hx). destruct x; cbn; try (split; [done|by intros [[=] _]]).
    destruct (Z.leb_spec floor n0); (split; [by intros [= ->]|intros [[= ->] ?]; done || lia]). }
  assert (sort_by Z.ltb (omap g (dir_names dir f)) = ns) as ->; [|by destruct ns].
  apply (sorted_unique Z.ltb); [intros x y _ _ ?%Z.ltb_lt; apply Z.ltb_ge; lia| |done|].
  - apply sort_by_ltb, NoDup_omap_inj; [|apply NoDup_dir_names]. intros x y b Hx Hy Hxl Hyl.
    destruct (known_name _ _ _ Hk Hxl) as (x' & Hx' & ->). destruct (known_name _ _ _ Hk Hyl) as (y' & Hy' & ->).
    apply Hg in Hx as [-> _]; [|done]. by apply Hg in Hy as [-> _].
  - intros n. rewrite sort_by_perm, Hns, list_elem_of_omap. split.
    + intros (name & Hl & E). destruct (known_name _ _ _ Hk Hl) as (x & Hx & ->). apply Hg in E as [-> Hf]; [|done].
      split_and!; [done|apply Hx..|]. by apply dir_names_elem in Hl as [? _].
    + intros (Hf & Hn & Hl). exists (base_name (FnLog n)). split; [by apply name_listed|]. by apply Hg.
Qed.

Lemma no_vlogs_listed dir f :
  known dir f → (∀ n, 0 ≤ n < 2 ^ 64 → f !! VlogPath dir n = None) →
  existsb (λ name, match ParseNumberedFile name (lit ".vlog") with Some _ => true | None => false end) (dir_names dir f) = false.
Proof.
  intros Hk Hv. apply not_true_iff_false. intros (name & Hin & Hp)%existsb_exists. apply list_elem_of_In in Hin.
  destruct (known_name _ _ _ Hk Hin) as (x & Hx & ->). rewrite (parse_vlog x Hx) in Hp. destruct x; try done.
  apply dir_names_elem in Hin as [[data Hd] _]. change (f !! VlogPath dir n = Some data) in Hd. by rewrite (Hv n Hx) in Hd.
Qed.

(** ** Orphans *)

(** What [Open] needs is kept; what it removes is one of the engine's files. *)
Definition needed (live_sst : list Z) (floor : Z) (live_vlogs : list Z) (x : file_name) : Prop :=
  match x with
  | FnManifest => True
  | FnTmp => False
  | FnSst n => n ∈ live_sst
  | FnLog n => floor ≤ n
  | FnVlog n => n ∈ live_vlogs
  end.

Lemma orphan_needed live_sst floor live_vlogs x :
  numbered x → orphan live_sst floor live_vlogs (base_name x) = false ↔ needed live_sst floor live_vlogs x.
Proof.
  intros Hx. unfold orphan. rewrite (parse_sst x Hx), (parse_log x Hx), (parse_vlog x Hx).
  assert (bytes_eqb (base_name x) kManifestTmpFileName = bool_decide (x = FnTmp)) as ->.
  { case_bool_decide as E; [subst x; by apply bytes_eqb_eq|]. apply not_true_iff_false. intros E'%bytes_eqb_eq.
    apply E. by apply base_name_inj. }
  destruct x as [| |n|n|n]; cbn.
  - done.
  - rewrite bool_decide_eq_true_2 by done. done.
  - rewrite bool_decide_eq_false_2 by done. rewrite !orb_false_r. cbn. rewrite bool_decide_eq_false. split; [apply dec_stable|tauto].
  - rewrite bool_decide_eq_false_2 by done. cbn. rewrite orb_false_r. apply Z.ltb_ge.
  - rewrite bool_decide_eq_false_2 by done. cbn. rewrite bool_decide_eq_false. split; [apply dec_stable|tauto].
Qed.

Lemma RemoveOrphanFiles_spec removed dir live floor live_vlogs f :
  known dir f →
  let f' := RemoveOrphanFiles removed dir live floor live_vlogs f in
  (∀ path, is_Some (f' !! path) → f' !! path = f !! path) ∧
  (∀ x, numbered x → needed (sst.file_number <$> live) floor live_vlogs x → f' !! path_of dir x = f !! path_of dir x).
Proof.
  intros Hk. unfold RemoveOrphanFiles.
  assert (∀ name, name ∈ dir_names dir f → ∃ x, numbered x ∧ name = base_name x) as Hn by (intros; by eapply known_name).
  revert Hn. generalize (dir_names dir f). clear Hk. intros names. revert f.
  induction names as [|name names IH]; intros f Hn; cbn [foldl]; [done|].
  assert (∀ name, name ∈ names → ∃ x, numbered x ∧ name = base_name x) as Hn' by (intros; by apply Hn, list_elem_of_further).
  destruct (orphan _ _ _ name) eqn:Eo; [|by apply IH].
  destruct (IH (unlink removed (dir ++ lit "/" ++ name) f) Hn') as [H1 H2]. unfold unlink in *.
  destruct (removed _); [|done]. split.
  - intros path Hs. rewrite (H1 path Hs) in Hs |- *. destruct (decide (path = dir ++ lit "/" ++ name)) as [->|Hne].
    + rewrite lookup_delete_eq in Hs. by destruct Hs.
    + by rewrite lookup_delete_ne.
  - intros x Hx Hneed. rewrite (H2 x Hx Hneed). apply lookup_delete_ne. intros E.
    destruct (Hn name (list_elem_of_here _ _)) as (y & Hy & ->). apply (path_of_inj dir y x Hy Hx) in E as ->.
    apply (orphan_needed _ _ _ x Hx) in Hneed. congruence.
Qed.
