(* ===== verification/DbDisk.v ===== *)
(** * What is on disk, and recovery

    [on_disk f dir v vs sep floor logs]: the directory holds a MANIFEST that
    names the tables of [v], the value logs [vs] and the replay floor, all these
    files, and from the floor on the logs [logs] with their records;
    [on_disk_with img] allows logs with a torn end.  [Open] then succeeds if its
    calls do, and gives back the version, the value logs and a memtable of the
    records ([Open_recovers]). *)

From S2P Require Import Prelude Status FsUtil Encoding Log VLog LruCache InternalKey Mvcc Layers Iterator Block.
From S2P Require Import SSTable Manifest SkipList MemTable Merge Db DbRead DbInv DbFlush DbCompact DbFiles.
Import db.

(** ** The state of the directory *)

(** The table is what its file holds. *)
Definition on_file (dir : bytes) (f : files) (r : TableRef) : Prop :=
  ∃ data, f !! SstPath dir (ref_number r) = Some data ∧ sst.open_data (ref_number r) data = Some (inr (table r)).

(** A version that the MANIFEST can name. *)
Record filed (v : Version) : Prop := {
  fv_levels : length (levels v) = 6%nat;
  fv_l0 : Forall (λ r, sst.level (meta r) = 0) (l0 v);
  fv_placed : ∀ i level, levels v !! i = Some level → Forall (λ r, sst.level (meta r) = Z.of_nat i + 1) level;
  fv_metas : Forall (λ r, meta_ok (meta r)) (version_refs v);
  fv_numbers : NoDup (ref_number <$> version_refs v);
  fv_newest : sorted_by number_greater (l0 v);
  fv_seqs : ∀ r u, r ∈ version_refs v → u ∈ ref_versions r → v_seq u ≤ sst.largest_seq (meta r)
}.

(** The log record of a version. *)
Definition payload (v : version) : bytes := wal_payload (v_seq v) (v_type v) (v_key v) (v_value v).

Record record_ok (v : version) : Prop := {
  rk_wf : wf_version v;
  rk_seq : 1 ≤ v_seq v;
  rk_key : len (v_key v) < 2 ^ 32 - 8;
  rk_value : len (v_value v) < 2 ^ 32;
  rk_deletion : v_type v = kTypeDeletion → v_value v = []
}.

Definition log_image (vs : list version) : bytes := log.wal_image [] (payload <$> vs).

(** Records in the order of their sequence numbers. *)
Definition in_order (vs : list version) : Prop := sorted_by (λ v w, v_seq v <? v_seq w) vs.

(** A log with its records, whole or with a torn tail that the reader
    reports. *)
Definition torn_log (vs : list version) (data : bytes) : Prop :=
  data = log_image vs ∨
  (log.log_rel data 0 (payload <$> vs) true (len (log_image vs)) ∧ slice 0 (len (log_image vs)) data = log_image vs).

(** [img n vs] is the file of log [n] with the records [vs]. *)
Record on_disk_with (img : Z → list version → bytes) (f : files) (dir : bytes) (v : Version) (vs : list vlog.VLog) (sep : bool)
    (floor : Z) (logs : list (Z * list version)) : Prop := {
  od_known : known dir f;
  od_manifest :
    match f !! ManifestPath dir with
    | Some data => data = log.wal_image [] (manifest_records (manifest_metas v) (vlog.number_ <$> vs) floor)
    | None => version_refs v = [] ∧ floor = 1 ∧ vlog.number_ <$> vs = if sep then [1] else []
    end;
  od_tables : Forall (on_file dir f) (version_refs v);
  od_vlogs : Forall (λ x, default [] (f !! VlogPath dir (vlog.number_ x)) = vlog.v_file x ∧ vlog.vlog_ok x) vs;
  od_vnumbers : ascending 0 (vlog.number_ <$> vs) ∧ Forall (λ n, n < 2 ^ 64) (vlog.number_ <$> vs);
  od_sep : if sep then vs ≠ [] else vs = [] ∧ ∀ n, 0 ≤ n < 2 ^ 64 → f !! VlogPath dir n = None;
  od_floor : 1 ≤ floor < 2 ^ 64;
  od_logs : ∀ n, n ∈ logs.*1 ↔ floor ≤ n ∧ 0 ≤ n < 2 ^ 64 ∧ is_Some (f !! LogPath dir n);
  od_sorted : sorted_by Z.ltb logs.*1;
  od_images : Forall (λ p, f !! LogPath dir p.1 = Some (img p.1 p.2)) logs;
  od_order : in_order (concat logs.*2);
  od_records : Forall record_ok (concat logs.*2)
}.

Arguments od_known {img} _ _ _ _ _ _ _ _.
Arguments od_manifest {img} _ _ _ _ _ _ _ _.
Arguments od_tables {img} _ _ _ _ _ _ _ _.
Arguments od_vlogs {img} _ _ _ _ _ _ _ _.
Arguments od_vnumbers {img} _ _ _ _ _ _ _ _.
Arguments od_sep {img} _ _ _ _ _ _ _ _.
Arguments od_floor {img} _ _ _ _ _ _ _ _.
Arguments od_logs {img} _ _ _ _ _ _ _ _.
Arguments od_sorted {img} _ _ _ _ _ _ _ _.
Arguments od_images {img} _ _ _ _ _ _ _ _.
Arguments od_order {img} _ _ _ _ _ _ _ _.
Arguments od_records {img} _ _ _ _ _ _ _ _.

Definition whole (n : Z) (vs : list version) : bytes := log_image vs.

Notation on_disk := (on_disk_with whole).

(** The logs below the current one, its records, and later logs without
    any. *)
Definition empty_logs (ns : list Z) : list (Z * list version) := (λ n, (n, [])) <$> ns.

Definition all_logs (n : Z) (old : list (Z * list version)) (cur : list version) (later : list Z) : list (Z * list version) :=
  old ++ (n, cur) :: empty_logs later.

(** The calls of [Open] succeed; reads may be split and interrupted, and
    leftovers may stay. *)
Record open_fine (env : open_env) : Prop := {
  of_mkdir : oe_mkdir env = None;
  of_manifest_open : oe_manifest_open env = None;
  of_manifest_reads : error_free (oe_manifest_reads env) = true;
  of_table_reads : ∀ n, error_free (oe_table_reads env n) = true;
  of_vlog_open : ∀ n, oe_vlog_open env n = None;
  of_opendir_logs : oe_opendir_logs env = true;
  of_log_open : ∀ n, oe_log_open env n = None;
  of_log_reads : ∀ n, error_free (oe_log_reads env n) = true;
  of_truncate : ∀ n, oe_truncate env n = None;
  of_wal_open : oe_wal_open env = None;
  of_dir_open : oe_dir_open env = None;
  of_dir_sync : oe_dir_sync env = None
}.

(** ** Replaying a log *)

Definition replayed (st : replaying) (v : version) : replaying := (replay_step st (payload v)).1.

Definition version_op (v : version) : mem_op :=
  if v_type v =? kTypeValue then MPut (v_seq v) (v_key v) (v_value v) else MDelete (v_seq v) (v_key v).

Lemma version_op_version v : record_ok v → op_version (version_op v) = v.
Proof.
  intros [[_ [Ht|Ht]] _ _ _ Hd]; unfold version_op; rewrite Ht.
  - change (kTypeDeletion =? kTypeValue) with false. destruct v; cbn in *. by rewrite Hd, Ht.
  - change (kTypeValue =? kTypeValue) with true. destruct v; cbn in *. by rewrite Ht.
Qed.

Lemma replay_step_spec st v :
  record_ok v →
  replay_step st (payload v)
  = (mkReplaying (m ← rp_mem st; mem_apply (default [] (head (rp_coins st))) m (version_op v))
       (Z.max (rp_max_seq st) (v_seq v)) (tail (rp_coins st)), true).
Proof.
  intros Hv. pose proof Hv as [[Hs Ht] H1 Hk Hl Hd]. unfold replay_step, payload.
  rewrite wal_payload_roundtrip; [|lia| |lia|done].
  - cbn [mjoin option_join]. unfold version_op. do 2 f_equal. destruct (rp_mem st); [|done]. cbn [mbind option_bind].
    by destruct (v_type v =? kTypeValue).
  - destruct Ht as [Ht|Ht]; [right; split; [done|by apply Hd]|by left].
Qed.

(** The memtable holds the records, and the largest sequence number is
    known. *)
Lemma replay_records st m vs :
  rp_mem st = Some m → mem_ok m → in_order vs → Forall record_ok vs →
  (∀ u v, u ∈ mem_versions m → v ∈ vs → v_seq u < v_seq v) →
  ∃ m', rp_mem (foldl replayed st vs) = Some m' ∧ mem_ok m' ∧ mem_versions m' ≡ₚ vs ++ mem_versions m ∧
    rp_max_seq st ≤ rp_max_seq (foldl replayed st vs) ∧
    ∀ v, v ∈ vs → v_seq v ≤ rp_max_seq (foldl replayed st vs).
Proof.
  revert st m. induction vs as [|v vs IH]; intros st m Em Hm Ho Hr Hlt.
  { exists m. cbn [foldl app]. split_and!; [done..|]. by intros v ?%not_elem_of_nil. }
  destruct Ho as [Hv Ho]. inversion Hr as [|? ? Hrv Hr']; subst. pose proof Hrv as [[Hs _] _ Hk _ _].
  pose proof (version_op_version v Hrv) as Ev. cbn [foldl]. unfold replayed at 2 4 6. rewrite (replay_step_spec st v Hrv), Em.
  destruct (mem_apply_ok (default [] (head (rp_coins st))) m (version_op v) Hm) as (m1 & E1 & Hm1 & Hp1); rewrite ?Ev; [|done|done|].
  { intros u Hu. apply Hlt; [done|apply list_elem_of_here]. }
  cbn [mbind option_bind fst]. rewrite E1, Ev in *.
  destruct (IH (mkReplaying (Some m1) (Z.max (rp_max_seq st) (v_seq v)) (tail (rp_coins st))) m1) as (m' & Em' & Hm' & Hp' & Hmax & Hall);
    [done|done|done|done| |].
  { intros u w Hu Hw. rewrite Hp1 in Hu. apply elem_of_cons in Hu as [->|Hu].
    - rewrite Forall_forall in Hv. by apply Z.ltb_lt, Hv.
    - apply Hlt; [done|by apply list_elem_of_further]. }
  cbn [rp_max_seq] in Hmax. exists m'. split_and!; [done|done| |lia|].
  - rewrite Hp', Hp1. cbn [app]. by rewrite Permutation_middle.
  - intros w [->|Hw]%elem_of_cons; [lia|by apply Hall].
Qed.

Lemma replay_accepts vs st pre p post :
  Forall record_ok vs → payload <$> vs = pre ++ p :: post →
  (replay_step (foldl (λ s q, (replay_step s q).1) st pre) p).2 = true.
Proof.
  intros Hr E. assert (p ∈ payload <$> vs) as (v & -> & Hv)%list_elem_of_fmap.
  { rewrite E. apply elem_of_app. right. apply list_elem_of_here. }
  rewrite Forall_forall in Hr. by rewrite (replay_step_spec _ v (Hr v Hv)).
Qed.

Lemma replay_log_torn env dir n f vs data st :
  open_fine env → Forall record_ok vs → default [] (f !! LogPath dir n) = data → torn_log vs data →
  ∃ cut, replay_log env dir n f st = Some (<[LogPath dir n := log_image vs]> f, inr (foldl replayed st vs, cut)).
Proof.
  intros He Hr Hf Ht. assert (∃ torn, log.log_rel data 0 (payload <$> vs) torn (len (log_image vs)) ∧
    (if torn then slice 0 (len (log_image vs)) data else data) = log_image vs) as (torn & Hrel & Hdata).
  { destruct Ht as [->|[H1 H2]]; [exists false|by exists true]. split; [|done]. by apply (log.wal_image_log [] []), log.log_rel_nil. }
  exists torn. unfold replay_log. rewrite (of_log_open _ He), Hf.
  rewrite (log.ForEachRecord_rel replay_step _ _ st (payload <$> vs) torn (len (log_image vs)) (of_log_reads _ He n) Hrel)
    by (intros pre p post E; by eapply replay_accepts).
  assert (∀ s, foldl (λ s q, (replay_step s q).1) s (payload <$> vs) = foldl replayed s vs) as ->.
  { clear. induction vs as [|v vs IH]; intros s; [done|]. rewrite fmap_cons. cbn [foldl]. apply IH. }
  cbn [mbind option_bind]. rewrite (of_truncate _ He). destruct torn; rewrite Hdata; [by rewrite insert_insert_eq|done].
Qed.

(** ** The tables of the MANIFEST *)

Lemma open_tables_spec env dir f rs :
  open_fine env → Forall (on_file dir f) rs → open_tables env dir f (meta <$> rs) = Some (inr rs).
Proof.
  intros He. induction 1 as [|r rs (data & Hf & Ho) _ IH]; [done|]. rewrite fmap_cons. cbn [open_tables].
  change (sst.file_number (meta r)) with (ref_number r). unfold sst.Open, ReadFileToString. rewrite Hf.
  rewrite read_to_end_spec by (apply He || lia). cbn [mbind option_bind app negb ok]. change (ok Ok) with true. cbn [negb].
  rewrite Ho. cbn [mbind option_bind]. rewrite IH. cbn [mbind option_bind]. by destruct r.
Qed.

Definition by_number (v : Version) : list TableRef :=
  sort_by (λ a b, sst.file_number (meta a) <? sst.file_number (meta b)) (version_refs v).

Lemma by_number_elem v r : r ∈ by_number v ↔ r ∈ l0 v ∨ ∃ i level, levels v !! i = Some level ∧ r ∈ level.
Proof.
  unfold by_number. rewrite sort_by_perm. unfold version_refs. rewrite elem_of_app, elem_of_concat. split.
  - intros [?|(level & [i Hi]%list_elem_of_lookup & Hr)]; [by left|right]. by exists i, level.
  - intros [?|(i & level & Hi & Hr)]; [by left|right]. exists level. split; [by eapply list_elem_of_lookup_2|done].
Qed.

Lemma numbers_sublist v i level : levels v !! i = Some level → ref_number <$> level `sublist_of` (ref_number <$> version_refs v).
Proof.
  intros Hi. apply fmap_sublist. unfold version_refs. apply sublist_inserts_l.
  rewrite <- (take_drop_middle _ _ _ Hi), concat_app. cbn [concat]. apply sublist_inserts_l, sublist_inserts_r. done.
Qed.

Lemma NoDup_refs v : filed v → NoDup (version_refs v).
Proof. intros Hf. apply (NoDup_fmap_1 ref_number), Hf. Qed.

Lemma all_apart_perm rs ss : rs ≡ₚ ss → all_apart rs → all_apart ss.
Proof.
  induction 1 as [|r rs ss Hp IH|x y rs|a b c _ IH1 _ IH2]; [done| | |by auto].
  - intros [H1 H2]. split; [by rewrite <- Hp|by apply IH].
  - intros (H1 & H2 & H3). inversion H1 as [|? ? Hyx H1']; subst. cbn. split_and!; [|done|done].
    constructor; [destruct Hyx; [by right|by left]|done].
Qed.

(** Putting the files where their metadata says gives the version back. *)
Lemma assemble_spec v : version_ok v → filed v → assemble (by_number v) = v.
Proof.
  intros [Hl0 Hlv] Hf. pose proof (NoDup_refs v Hf) as Hnd. unfold assemble.
  assert (NoDup (by_number v)) as Hnd' by (unfold by_number; by rewrite sort_by_perm).
  assert (∀ (P : TableRef → Prop) `{!∀ r, Decision (P r)}, NoDup (ref_number <$> filter P (by_number v))) as Hnum.
  { intros P HP. eapply sublist_NoDup; [|apply fmap_sublist, sublist_filter].
    unfold by_number. rewrite sort_by_perm. apply Hf. }
  destruct v as [a ls]. cbn [l0 levels] in *. f_equal.
  - apply (sorted_unique number_greater).
    + intros x y _ _. unfold number_greater. rewrite Z.ltb_lt, Z.ltb_ge. lia.
    + apply (sort_by_keys (λ r, - ref_number r)); [intros x y; unfold number_greater, ref_number; apply eq_true_iff_eq; rewrite !Z.ltb_lt; lia|].
      rewrite (list_fmap_compose ref_number Z.opp). apply NoDup_fmap_2; [intros x y; lia|apply Hnum].
    + apply Hf.
    + intros r. rewrite sort_by_perm, list_elem_of_filter, by_number_elem. cbn [l0 levels]. split.
      * intros [E [?|(i & level & Hi & Hr)]]; [done|]. pose proof (fv_placed _ Hf i level Hi) as Hp. rewrite Forall_forall in Hp.
        specialize (Hp r Hr). lia.
      * intros Hr. split; [|by left]. pose proof (fv_l0 _ Hf) as Hp. rewrite Forall_forall in Hp. by apply Hp.
  - apply list_eq. intros i. pose proof (fv_levels _ Hf) as H6. cbn [levels] in H6. change (Z.to_nat (kMaxLevels - 1)) with 6%nat. rewrite list_lookup_fmap.
    destruct (ls !! i) as [level|] eqn:Ei.
    2:{ apply lookup_ge_None_1 in Ei. rewrite lookup_seq_ge by lia. done. }
    pose proof (lookup_lt_Some _ _ _ Ei) as Hi. rewrite lookup_seq_lt by lia. cbn [fmap option_fmap option_map].
    f_equal. rewrite Nat.add_0_l. rewrite Forall_lookup in Hlv. destruct (Hlv i level Ei) as [Hrefs Hs].
    assert (∀ r, r ∈ filter (λ r, sst.level (meta r) = Z.of_nat i + 1) (by_number (mkVersionSet a ls)) ↔ r ∈ level) as Hel.
    { intros r. rewrite list_elem_of_filter, by_number_elem. cbn [l0 levels]. split.
      - intros [E [Hr|(j & level' & Hj & Hr)]].
        + pose proof (fv_l0 _ Hf) as Hp. rewrite Forall_forall in Hp. specialize (Hp r Hr). lia.
        + pose proof (fv_placed _ Hf j level' Hj) as Hp. rewrite Forall_forall in Hp. specialize (Hp r Hr).
          assert (j = i) as -> by lia. cbn [levels] in Hj. congruence.
      - intros Hr. split; [|right; by exists i, level]. pose proof (fv_placed _ Hf i level Ei) as Hp. rewrite Forall_forall in Hp. by apply Hp. }
    assert (NoDup level) as Hndl by (eapply NoDup_fmap_1, sublist_NoDup; [apply Hf|by eapply (numbers_sublist (mkVersionSet a ls))]).
    assert (filter (λ r, sst.level (meta r) = Z.of_nat i + 1) (by_number (mkVersionSet a ls)) ≡ₚ level) as Hp.
    { apply NoDup_Permutation; [by apply NoDup_filter|done|exact Hel]. }
    apply (sorted_unique before).
    + intros x y Hx Hy Hb. rewrite sort_by_perm, Hel in Hx. rewrite sort_by_perm, Hel in Hy. rewrite Forall_forall in Hrefs.
      destruct (before y x) eqn:E; [|done]. apply before_smaller in Hb; [|by apply Hrefs]. apply before_smaller in E; [|by apply Hrefs].
      by rewrite (sw_asym bytes_ltb _ _ Hb : smallest_less y x = false) in E.
    + apply sort_by_before; [by rewrite Hp|]. eapply all_apart_perm; [symmetry; exact Hp|]. by apply sorted_apart.
    + done.
    + intros r. rewrite sort_by_perm. apply Hel.
Qed.

(** ** The MANIFEST *)

Lemma sorted_ascending lo ns : Forall (λ n, lo < n) ns → sorted_by Z.ltb ns → ascending lo ns.
Proof.
  revert lo. induction ns as [|n ns IH]; intros lo Hlo Hs; [done|]. inversion Hlo as [|? ? Hn _]; subst. destruct Hs as [Hl Hs].
  split; [done|]. apply IH; [|done]. eapply Forall_impl; [exact Hl|]. intros m ?%Z.ltb_lt. done.
Qed.

Lemma ascending_sorted lo ns : ascending lo ns → sorted_by Z.ltb ns ∧ Forall (λ n, lo < n) ns.
Proof.
  revert lo. induction ns as [|n ns IH]; intros lo; [done|]. intros [Hn [Hs Hf]%IH]. split.
  - split; [|done]. eapply Forall_impl; [exact Hf|]. intros m ?. by apply Z.ltb_lt.
  - constructor; [done|]. eapply Forall_impl; [exact Hf|]. simpl. lia.
Qed.

Lemma ascending_NoDup lo ns : ascending lo ns → NoDup ns.
Proof.
  intros [Hs _]%ascending_sorted. induction ns as [|n ns IH]; [constructor|]. destruct Hs as [Hn Hs]. constructor; [|by apply IH].
  intros Hin. rewrite Forall_forall in Hn. specialize (Hn n Hin). by rewrite Z.ltb_irrefl in Hn.
Qed.

Lemma metas_ascending v : filed v → ascending 0 (sst.file_number <$> manifest_metas v).
Proof.
  intros Hf. unfold manifest_metas. fold (by_number v). rewrite <- list_fmap_compose. apply sorted_ascending.
  - apply Forall_fmap. unfold by_number. rewrite sort_by_perm. eapply Forall_impl; [exact (fv_metas _ Hf)|]. intros r Hm. apply (mo_number _ Hm).
  - apply sorted_by_fmap. eapply sorted_by_ext; [|apply (sort_by_keys ref_number); [|apply Hf]]; done.
Qed.

Lemma metas_ok v : filed v → Forall meta_ok (manifest_metas v).
Proof. intros Hf. unfold manifest_metas. apply Forall_fmap. rewrite sort_by_perm. apply Hf. Qed.

Section disk.
Context {img : Z → list version → bytes} (f : files) (dir : bytes) (v : Version) (vs : list vlog.VLog) (sep : bool) (floor : Z) (logs : list (Z * list version)).
Context (Hd : on_disk_with img f dir v vs sep floor logs) (Hv : filed v).

Definition live_vlogs (named : list Z) : list Z := if sep then match named with [] => [1] | n :: l => n :: l end else [].

Lemma manifest_read env :
  open_fine env →
  ∃ named, (match f !! ManifestPath dir with
            | Some _ => ParseManifest (oe_manifest_open env) (oe_manifest_reads env) f (ManifestPath dir)
            | None => Some (Some (mkManifestState [] [] 1 true))
            end) = Some (Some (mkManifestState (manifest_metas v) named floor true)) ∧
    live_vlogs named = vlog.number_ <$> vs ∧ (sep = false → named = []).
Proof using Hd Hv.
  intros He. pose proof (od_manifest _ _ _ _ _ _ _ Hd) as Hm. destruct (f !! ManifestPath dir) as [data|] eqn:Ef.
  - subst data. exists (vlog.number_ <$> vs). pose proof (od_vnumbers _ _ _ _ _ _ _ Hd) as [Ha Hb].
    pose proof (od_floor _ _ _ _ _ _ _ Hd). rewrite (of_manifest_open _ He).
    rewrite (ParseManifest_written (manifest_metas v) (vlog.number_ <$> vs) floor);
      [|by apply metas_ok|by apply metas_ascending|done|done|lia|apply He|done].
    split; [done|]. pose proof (od_sep _ _ _ _ _ _ _ Hd) as Hs. unfold live_vlogs. destruct sep.
    + split; [|done]. by destruct vs.
    + destruct Hs as [-> _]. done.
  - destruct Hm as (Hr & -> & Hn). exists []. split.
    + unfold manifest_metas. rewrite Hr. done.
    + unfold live_vlogs. rewrite Hn. by destruct sep.
Qed.

Lemma ref_numbered r : r ∈ version_refs v → numbered (FnSst (ref_number r)).
Proof using Hv.
  intros Hr. pose proof (fv_metas _ Hv) as Hm. rewrite Forall_forall in Hm. pose proof (mo_number _ (Hm r Hr)) as Hn.
  cbn. change (sst.file_number (meta r)) with (ref_number r) in Hn. lia.
Qed.

Lemma vlog_numbered x : x ∈ vs → numbered (FnVlog (vlog.number_ x)).
Proof using Hd.
  intros Hx. pose proof (od_vnumbers _ _ _ _ _ _ _ Hd) as [[_ Ha]%ascending_sorted Hb]. rewrite Forall_forall in Ha, Hb.
  specialize (Ha _ (list_elem_of_fmap_2 _ _ _ Hx)). specialize (Hb _ (list_elem_of_fmap_2 _ _ _ Hx)). cbn in *. lia.
Qed.

(** Only the files that [Open] needs matter. *)
Lemma on_disk_agree f' :
  known dir f' → f' !! ManifestPath dir = f !! ManifestPath dir →
  (∀ r, r ∈ version_refs v → f' !! SstPath dir (ref_number r) = f !! SstPath dir (ref_number r)) →
  (∀ n, floor ≤ n < 2 ^ 64 → f' !! LogPath dir n = f !! LogPath dir n) →
  (∀ x, x ∈ vs → default [] (f' !! VlogPath dir (vlog.number_ x)) = default [] (f !! VlogPath dir (vlog.number_ x))) →
  (sep = false → ∀ n, 0 ≤ n < 2 ^ 64 → f' !! VlogPath dir n = None) →
  on_disk_with img f' dir v vs sep floor logs.
Proof using Hd.
  intros Hk Hm Ht Hl Hvl Hs. destruct Hd as [D1 D2 D3 D4 D5 D6 D7 D8 D9 D10 D11 D12]. split; try done.
  - by rewrite Hm.
  - rewrite Forall_forall in D3 |- *. intros r Hr. destruct (D3 r Hr) as (data & Hdata & Ho). exists data. by rewrite (Ht r Hr).
  - rewrite Forall_forall in D4 |- *. intros x Hx. rewrite (Hvl x Hx). by apply D4.
  - destruct sep; [done|]. split; [apply D6|by apply Hs].
  - intros n. rewrite D8. split; intros (H1 & H2 & H3); (split_and!; [done|lia|lia|]); (rewrite (Hl n) in * by lia); done.
  - rewrite Forall_forall in D10 |- *. intros p Hp. rewrite (Hl p.1); [by apply D10|].
    pose proof (proj1 (D8 p.1) (list_elem_of_fmap_2 fst _ _ Hp)). lia.
Qed.

(** Other logs. *)
Lemma on_disk_logs {img'} f' logs' :
  known dir f' → (∀ x, numbered x → log_number x = None → f' !! path_of dir x = f !! path_of dir x) →
  (∀ n, n ∈ logs'.*1 ↔ floor ≤ n ∧ 0 ≤ n < 2 ^ 64 ∧ is_Some (f' !! LogPath dir n)) → sorted_by Z.ltb logs'.*1 →
  Forall (λ p, f' !! LogPath dir p.1 = Some (img' p.1 p.2)) logs' → in_order (concat logs'.*2) →
  Forall record_ok (concat logs'.*2) → on_disk_with img' f' dir v vs sep floor logs'.
Proof using Hd Hv.
  intros Hk Hne Hl Hs Hi Ho Hr. pose proof vlog_numbered as Hvn.
  destruct Hd as [D1 D2 D3 D4 D5 D6 D7 D8 D9 D10 D11 D12]. split; try done.
  - pose proof (Hne FnManifest I eq_refl) as E. change (path_of dir FnManifest) with (ManifestPath dir) in E. by rewrite E.
  - rewrite Forall_forall in D3 |- *. intros r Hin. destruct (D3 r Hin) as (data & Hdata & Hopen). exists data. split; [|done].
    rewrite <- Hdata. apply (Hne (FnSst (ref_number r))); [by eapply ref_numbered|done].
  - rewrite Forall_forall in D4 |- *. intros x Hx. destruct (D4 x Hx) as [<- ?]. split; [|done]. f_equal.
    apply (Hne (FnVlog (vlog.number_ x))); [by apply Hvn|done].
  - destruct sep; [done|]. split; [apply D6|]. intros n Hn. destruct D6 as [_ D6]. rewrite <- (D6 n Hn). by apply (Hne (FnVlog n)).
Qed.

End disk.

(** ** Value logs and logs *)

Definition write_vlogs (dir : bytes) (vs : list vlog.VLog) (f : files) : files :=
  foldl (λ f x, <[VlogPath dir (vlog.number_ x) := vlog.v_file x]> f) f vs.

Lemma write_vlogs_other dir vs f path :
  (∀ x, x ∈ vs → path ≠ VlogPath dir (vlog.number_ x)) → write_vlogs dir vs f !! path = f !! path.
Proof.
  revert f. induction vs as [|x vs IH]; intros f Hp; [done|]. unfold write_vlogs. cbn [foldl].
  fold (write_vlogs dir vs (<[VlogPath dir (vlog.number_ x) := vlog.v_file x]> f)). rewrite IH.
  - apply lookup_insert_ne. intros E. by apply (Hp x (list_elem_of_here _ _)).
  - intros y Hy. apply Hp. by apply list_elem_of_further.
Qed.

Lemma vlog_path_ne dir n m : 0 ≤ n < 2 ^ 64 → 0 ≤ m < 2 ^ 64 → n ≠ m → VlogPath dir n ≠ VlogPath dir m.
Proof. intros Hn Hm Hne E. apply (path_of_inj dir (FnVlog n) (FnVlog m)) in E; [congruence|done|done]. Qed.

Lemma write_vlogs_in dir vs f x :
  NoDup (vlog.number_ <$> vs) → Forall (λ x, 0 ≤ vlog.number_ x < 2 ^ 64) vs → x ∈ vs →
  write_vlogs dir vs f !! VlogPath dir (vlog.number_ x) = Some (vlog.v_file x).
Proof.
  revert f. induction vs as [|y vs IH]; intros f Hnd Hn Hx; [by apply not_elem_of_nil in Hx|].
  rewrite fmap_cons in Hnd. apply NoDup_cons in Hnd as [Hy Hnd]. inversion Hn as [|? ? Hny Hn']; subst.
  unfold write_vlogs. cbn [foldl]. fold (write_vlogs dir vs (<[VlogPath dir (vlog.number_ y) := vlog.v_file y]> f)).
  apply elem_of_cons in Hx as [->|Hx]; [|by apply IH]. rewrite write_vlogs_other; [apply lookup_insert_eq|].
  intros z Hz. rewrite Forall_forall in Hn'. apply vlog_path_ne; [done|by apply Hn'|]. intros E. apply Hy. rewrite E.
  by apply list_elem_of_fmap_2.
Qed.

Lemma open_vlogs_spec env dir vs f :
  open_fine env → NoDup (vlog.number_ <$> vs) → Forall (λ x, 0 ≤ vlog.number_ x < 2 ^ 64) vs →
  Forall (λ x, default [] (f !! VlogPath dir (vlog.number_ x)) = vlog.v_file x ∧ vlog.vlog_ok x) vs →
  open_vlogs env dir f (vlog.number_ <$> vs) = (write_vlogs dir vs f, inr vs).
Proof.
  intros He. revert f. induction vs as [|x vs IH]; intros f Hnd Hn Hf; [done|].
  rewrite fmap_cons in *. apply NoDup_cons in Hnd as [Hx Hnd]. inversion Hn as [|? ? Hnx Hn']; subst. inversion Hf as [|? ? [Hfx [Hok _]] Hf']; subst.
  cbn [open_vlogs]. unfold vlog.Open. rewrite (of_vlog_open _ He). fold (VlogPath dir (vlog.number_ x)). rewrite Hfx.
  assert (vlog.mkVLog (vlog.v_file x) (vlog.number_ x) (len (vlog.v_file x)) = x) as -> by (destruct x; cbn in *; by rewrite Hok).
  rewrite IH; [done|done|done|]. rewrite Forall_forall in Hf', Hn' |- *. intros y Hy. rewrite lookup_insert_ne; [by apply Hf'|].
  apply vlog_path_ne; [done|by apply Hn'|]. intros E. apply Hx. rewrite E. by apply list_elem_of_fmap_2.
Qed.

(** The torn tails are gone. *)
Definition write_logs (dir : bytes) (logs : list (Z * list version)) (f : files) : files :=
  foldl (λ f p, <[LogPath dir p.1 := log_image p.2]> f) f logs.

Lemma write_logs_other dir logs f path :
  (∀ p, p ∈ logs → path ≠ LogPath dir p.1) → write_logs dir logs f !! path = f !! path.
Proof.
  revert f. induction logs as [|p logs IH]; intros f Hp; [done|]. unfold write_logs. cbn [foldl].
  fold (write_logs dir logs (<[LogPath dir p.1 := log_image p.2]> f)). rewrite IH.
  - apply lookup_insert_ne. intros E. by apply (Hp p (list_elem_of_here _ _)).
  - intros q Hq. apply Hp. by apply list_elem_of_further.
Qed.

Lemma log_path_ne dir n m : 0 ≤ n < 2 ^ 64 → 0 ≤ m < 2 ^ 64 → n ≠ m → LogPath dir n ≠ LogPath dir m.
Proof. intros Hn Hm Hne E. apply (path_of_inj dir (FnLog n) (FnLog m)) in E; [congruence|done|done]. Qed.

Lemma write_logs_in dir logs f :
  sorted_by Z.ltb logs.*1 → Forall (λ n, 0 ≤ n < 2 ^ 64) logs.*1 →
  Forall (λ p, write_logs dir logs f !! LogPath dir p.1 = Some (log_image p.2)) logs.
Proof.
  revert f. induction logs as [|p logs IH]; intros f Hs Hn; [constructor|]. rewrite fmap_cons in *. destruct Hs as [Hlt Hs].
  inversion Hn as [|? ? Hp Hn']; subst. unfold write_logs. cbn [foldl]. constructor; [|by apply IH].
  fold (write_logs dir logs (<[LogPath dir p.1 := log_image p.2]> f)). rewrite write_logs_other; [apply lookup_insert_eq|].
  intros q Hq. pose proof (list_elem_of_fmap_2 fst _ _ Hq) as Hq1. rewrite Forall_forall in Hlt, Hn'. specialize (Hlt _ Hq1).
  apply log_path_ne; [done|by apply Hn'|]. intros E. rewrite E, Z.ltb_irrefl in Hlt. done.
Qed.

Lemma replay_logs_spec env dir f (logs : list (Z * list version)) st cut :
  open_fine env → sorted_by Z.ltb logs.*1 → Forall (λ n, 0 ≤ n < 2 ^ 64) logs.*1 →
  Forall (λ p, ∃ data, f !! LogPath dir p.1 = Some data ∧ torn_log p.2 data) logs → Forall record_ok (concat logs.*2) →
  ∃ cut', replay_logs env dir logs.*1 f st cut = Some (write_logs dir logs f, inr (foldl replayed st (concat logs.*2), cut')).
Proof.
  intros He. revert f st cut. induction logs as [|[n ws] logs IH]; intros f st cut Hs Hn Hf Hr; [by exists cut|].
  rewrite !fmap_cons in *. cbn [fst snd concat] in *. destruct Hs as [Hlt Hs]. inversion Hn as [|? ? Hnn Hn']; subst.
  inversion Hf as [|? ? (data & Hdata & Ht) Hf']; subst. cbn [fst snd] in *. apply Forall_app in Hr as [Hr1 Hr2].
  destruct (replay_log_torn env dir n f ws data st He Hr1) as (c & E); [by rewrite Hdata|done|].
  cbn [replay_logs]. rewrite E. cbn [mbind option_bind].
  destruct (IH (<[LogPath dir n := log_image ws]> f) (foldl replayed st ws) (cut || c)) as (c' & E'); [done|done| |done|].
  - rewrite Forall_forall in Hlt, Hn'. rewrite Forall_forall in Hf' |- *. intros q Hq. pose proof (list_elem_of_fmap_2 fst _ _ Hq) as Hq1. rewrite lookup_insert_ne; [by apply Hf'|].
    specialize (Hlt _ Hq1). apply log_path_ne; [done|by apply Hn'|]. intros E1. rewrite E1, Z.ltb_irrefl in Hlt. done.
  - exists c'. rewrite E', foldl_app. done.
Qed.

(** A directory without logs gets its first one. *)
Definition first_log (floor : Z) (logs : list (Z * list version)) : list (Z * list version) :=
  match logs with [] => [(floor, [])] | _ => logs end.

Lemma known_insert dir f x data : known dir f → numbered x → known dir (<[path_of dir x := data]> f).
Proof.
  intros Hk Hx path. destruct (decide (path = path_of dir x)) as [->|Hne]; [intros _; by exists x|].
  rewrite lookup_insert_ne by done. apply Hk.
Qed.

Lemma known_sub dir f f' : known dir f → (∀ path, is_Some (f' !! path) → is_Some (f !! path)) → known dir f'.
Proof. intros Hk Hs path Hp. by apply Hk, Hs. Qed.

Lemma path_ne dir x y : numbered x → numbered y → x ≠ y → path_of dir x ≠ path_of dir y.
Proof. intros Hx Hy Hne E. by apply path_of_inj in E. Qed.

Lemma replay_first {img} env dir f v vs sep floor logs st :
  open_fine env → on_disk_with img f dir v vs sep floor logs → Forall (λ p, torn_log p.2 (img p.1 p.2)) logs → filed v →
  let logs1 := first_log floor logs in
  ∃ f' cut, logs_to_replay dir floor f = logs1.*1 ∧
    replay_logs env dir logs1.*1 f st false = Some (f', inr (foldl replayed st (concat logs1.*2), cut)) ∧
    on_disk f' dir v vs sep floor logs1 ∧ ∀ n, 0 ≤ n < 2 ^ 64 → f' !! VlogPath dir n = f !! VlogPath dir n.
Proof.
  intros He Hd Himg Hv. cbv zeta. destruct logs as [|p logs].
  - pose proof (od_floor _ _ _ _ _ _ _ Hd) as Hfl. pose proof (od_logs _ _ _ _ _ _ _ Hd) as Hl.
    assert (∀ n, floor ≤ n < 2 ^ 64 → f !! LogPath dir n = None) as Hnone.
    { intros n Hn. destruct (f !! LogPath dir n) eqn:E; [|done]. destruct (not_elem_of_nil n). apply Hl. split_and!; [lia..|by rewrite E]. }
    destruct (replay_log_torn env dir floor f [] [] st He) as (cut & Er); [done|by rewrite Hnone by lia|by left|].
    exists (<[LogPath dir floor := []]> f), cut. cbn [first_log fmap list_fmap fst snd concat app foldl]. split_and!.
    + unfold logs_to_replay. destruct (sort_by Z.ltb _) as [|n ns] eqn:E; [done|]. exfalso.
      assert (n ∈ n :: ns) as Hin by apply list_elem_of_here. rewrite <- E, sort_by_perm in Hin.
      apply list_elem_of_omap in Hin as (name & Hname & Hn). destruct (known_name _ _ _ (od_known _ _ _ _ _ _ _ Hd) Hname) as (x & Hx & ->).
      rewrite (parse_log x Hx) in Hn. destruct x; try done. cbn in Hn. destruct (Z.leb_spec floor n0); [|done]. injection Hn as ->.
      apply dir_names_elem in Hname as [[data Hdata] _]. change (f !! LogPath dir n = Some data) in Hdata. cbn in Hx. rewrite Hnone in Hdata by lia. done.
    + cbn [replay_logs]. rewrite Er. done.
    + assert (∀ x, numbered x → x ≠ FnLog floor → <[LogPath dir floor := []]> f !! path_of dir x = f !! path_of dir x) as Hne.
      { intros x Hx Hne. apply lookup_insert_ne. apply (path_ne dir (FnLog floor) x); [cbn; lia|done|done]. }
      apply (on_disk_logs f _ _ _ _ _ _ Hd Hv); try done; [| | |by constructor; [apply lookup_insert_eq|constructor]].
      * apply (known_insert dir f (FnLog floor)); [apply Hd|cbn; lia].
      * intros x Hx Hxl. apply Hne; [done|by intros ->].
      * intros n. cbn [fmap list_fmap fst]. rewrite list_elem_of_singleton. split.
        -- intros ->. split_and!; [lia..|]. by rewrite lookup_insert_eq.
        -- intros (H1 & H2 & [data Hdata]). destruct (decide (n = floor)) as [|Hnf]; [done|].
           pose proof (Hne (FnLog n) ltac:(cbn; lia) ltac:(congruence)) as E. change (path_of dir (FnLog n)) with (LogPath dir n) in E.
           rewrite E, Hnone in Hdata by lia. done.
    + intros n Hn. apply lookup_insert_ne. apply (path_ne dir (FnLog floor) (FnVlog n)); [cbn; lia|done|done].
  - cbn [first_log]. set (logs1 := p :: logs) in *. pose proof (od_logs _ _ _ _ _ _ _ Hd) as D8.
    assert (Forall (λ n, 0 ≤ n < 2 ^ 64) logs1.*1) as Hn by (apply Forall_forall; intros n Hn; apply D8 in Hn; lia).
    pose proof (od_sorted _ _ _ _ _ _ _ Hd) as D9. pose proof (write_logs_in dir logs1 f D9 Hn) as Hin.
    assert (∀ x, numbered x → log_number x = None → write_logs dir logs1 f !! path_of dir x = f !! path_of dir x) as Hne.
    { intros x Hx Hxl. apply write_logs_other. intros q Hq. rewrite Forall_forall in Hn.
      apply (path_ne dir x (FnLog q.1)); [done|by apply (Hn q.1), list_elem_of_fmap_2|by intros ->]. }
    destruct (replay_logs_spec env dir f logs1 st false He D9 Hn) as (cut & Er); [|apply Hd|].
    { pose proof (od_images _ _ _ _ _ _ _ Hd) as D10. rewrite Forall_forall in D10, Himg |- *. intros q Hq. exists (img q.1 q.2).
      split; [by apply D10|by apply Himg]. }
    exists (write_logs dir logs1 f), cut. split_and!; [by apply logs_to_replay_spec; [apply Hd|..]|done| |intros n Hv'; by apply (Hne (FnVlog n))].
    assert (∀ n, 0 ≤ n < 2 ^ 64 → is_Some (write_logs dir logs1 f !! LogPath dir n) ↔ is_Some (f !! LogPath dir n)) as Hdom.
    { intros n Hr. destruct (decide (n ∈ logs1.*1)) as [Hl|Hl].
      - pose proof (proj1 (D8 n) Hl) as (_ & _ & Hs). apply list_elem_of_fmap in Hl as (q & -> & Hq). rewrite Forall_forall in Hin.
        rewrite (Hin q Hq). split; [done|by eexists].
      - rewrite write_logs_other; [done|]. intros q Hq. rewrite Forall_forall in Hn. pose proof (list_elem_of_fmap_2 fst _ _ Hq) as Hq1.
        apply log_path_ne; [done|by apply Hn|]. by intros ->. }
    apply (on_disk_logs f _ _ _ _ _ _ Hd Hv); try done; [| |apply Hd|apply Hd].
    + intros path Hp. destruct (decide (path ∈ (λ q, LogPath dir q.1) <$> logs1)) as [(q & -> & Hq)%list_elem_of_fmap|Hno].
      * exists (FnLog q.1). rewrite Forall_forall in Hn. split; [by apply (Hn q.1), list_elem_of_fmap_2|done].
      * apply (od_known _ _ _ _ _ _ _ Hd). rewrite write_logs_other in Hp; [done|]. intros q Hq ->. apply Hno.
        by apply (list_elem_of_fmap_2 (λ q, LogPath dir q.1)).
    + intros n. rewrite D8. split; intros (H1 & H2 & H3); (split_and!; [done|lia|lia|]); by apply (Hdom n H2).
Qed.

(** ** Opening *)

Lemma foldl_max_le z ns : z ≤ foldl Z.max z ns ∧ Forall (λ n, n ≤ foldl Z.max z ns) ns.
Proof.
  revert z. induction ns as [|n ns IH]; intros z; cbn [foldl]; [split; [lia|constructor]|]. destruct (IH (Z.max z n)) as [H1 H2].
  split; [lia|]. constructor; [lia|done].
Qed.

Lemma max_table_seq_spec v m :
  m ≤ max_table_seq v m ∧ ∀ r, r ∈ version_refs v → sst.largest_seq (meta r) ≤ max_table_seq v m.
Proof.
  unfold max_table_seq. revert m. induction (version_refs v) as [|r rs IH]; intros m; cbn [foldl].
  { split; [lia|]. by intros r ?%not_elem_of_nil. }
  destruct (IH (Z.max m (sst.largest_seq (meta r)))) as [H1 H2]. split; [lia|].
  intros r' [->|Hr]%elem_of_cons; [lia|by apply H2].
Qed.

(** What [Open] hands out. *)
Record recovered (dir : bytes) (o : Options) (v : Version) (vs : list vlog.VLog) (floor : Z) (logs : list (Z * list version))
    (d : DB) : Prop := {
  rc_dir : dir_ d = dir;
  rc_options : options_ d = o;
  rc_mem : mem_ok (mem_ d);
  rc_versions : mem_versions (mem_ d) ≡ₚ concat logs.*2;
  rc_imm : imm_ d = None;
  rc_current : current_ d = v;
  rc_snapshots : snapshots_ d = [];
  rc_vsep : vsep_ d = open_vsep o vs;
  rc_ring : ring_ (wal_ d) = None;
  rc_log : list.last logs.*1 = Some (log_number_ (wal_ d));
  rc_writer : fs d !! LogPath dir (log_number_ (wal_ d)) = Some (log.w_file (log_writer_ (wal_ d)));
  rc_offset : log.writer_ok (log_writer_ (wal_ d));
  rc_next : 1 ≤ next_seq_ d;
  rc_log_seqs : ∀ u, u ∈ concat logs.*2 → v_seq u < next_seq_ d;
  rc_table_seqs : ∀ r u, r ∈ version_refs v → u ∈ ref_versions r → v_seq u < next_seq_ d;
  rc_numbers : Forall (λ r, ref_number r < next_file_number_ d) (version_refs v);
  rc_vnumbers : Forall (λ x, vlog.number_ x < next_file_number_ d) vs;
  rc_lognumbers : log_number_ (wal_ d) < next_file_number_ d;
  rc_vfiles : enable_value_separation o = true → Forall (λ x, fs d !! VlogPath dir (vlog.number_ x) = Some (vlog.v_file x)) vs;
  rc_disk : on_disk (fs d) dir v vs (enable_value_separation o) floor logs
}.

Lemma on_disk_vnumbers {img} f dir v vs sep floor logs :
  on_disk_with img f dir v vs sep floor logs → NoDup (vlog.number_ <$> vs) ∧ Forall (λ x, 0 ≤ vlog.number_ x < 2 ^ 64) vs.
Proof.
  intros Hd. split; [by eapply ascending_NoDup, Hd|]. apply Forall_forall. intros x Hx.
  pose proof (vlog_numbered _ _ _ _ _ _ _ Hd x Hx) as Hn. exact Hn.
Qed.

(** The value logs exist after the first step. *)
Lemma on_disk_vlogs {img} f dir v vs sep floor logs :
  on_disk_with img f dir v vs sep floor logs → filed v → on_disk_with img (write_vlogs dir vs f) dir v vs sep floor logs.
Proof.
  intros Hd Hv. destruct (on_disk_vnumbers _ _ _ _ _ _ _ Hd) as [Hnd Hn]. pose proof Hn as Hn'. rewrite Forall_forall in Hn'.
  assert (∀ x, numbered x → vlog_file_number x = None → write_vlogs dir vs f !! path_of dir x = f !! path_of dir x) as Hne.
  { intros x Hx Hk. apply write_vlogs_other. intros y Hy. apply (path_ne dir x (FnVlog (vlog.number_ y))); [done|by apply Hn'|by intros ->]. }
  apply (on_disk_agree f); [done| | | | | |].
  - intros path Hp. destruct (decide (path ∈ (λ x, VlogPath dir (vlog.number_ x)) <$> vs)) as [(x & -> & Hx)%list_elem_of_fmap|Hno].
    + exists (FnVlog (vlog.number_ x)). split; [by apply Hn'|done].
    + apply (od_known _ _ _ _ _ _ _ Hd). rewrite write_vlogs_other in Hp; [done|]. intros x Hx ->. apply Hno. by apply (list_elem_of_fmap_2 (λ x, VlogPath dir (vlog.number_ x))).
  - by apply (Hne FnManifest).
  - intros r Hr. apply (Hne (FnSst (ref_number r))); [by eapply ref_numbered|done].
  - intros n Hl. pose proof (od_floor _ _ _ _ _ _ _ Hd). apply (Hne (FnLog n)); [cbn; lia|done].
  - intros x Hx. rewrite write_vlogs_in by done. pose proof (od_vlogs _ _ _ _ _ _ _ Hd) as Hvl. rewrite Forall_forall in Hvl.
    cbn. symmetry. by apply Hvl.
  - intros -> n Hl. pose proof (od_sep _ _ _ _ _ _ _ Hd) as [-> Hs]. by apply Hs.
Qed.

Lemma on_disk_orphans {img} removed f dir v vs sep floor logs :
  on_disk_with img f dir v vs sep floor logs → filed v →
  on_disk_with img (RemoveOrphanFiles removed dir (manifest_metas v) floor (vlog.number_ <$> vs) f) dir v vs sep floor logs.
Proof.
  intros Hd Hv. pose proof (od_floor _ _ _ _ _ _ _ Hd) as Hfl.
  destruct (RemoveOrphanFiles_spec removed dir (manifest_metas v) floor (vlog.number_ <$> vs) f (od_known _ _ _ _ _ _ _ Hd)) as [H1 H2].
  apply (on_disk_agree f); [done| | | | | |].
  - eapply known_sub; [apply Hd|]. intros path Hp. by rewrite <- (H1 path Hp).
  - by apply (H2 FnManifest).
  - intros r Hr. apply (H2 (FnSst (ref_number r))); [by eapply ref_numbered|]. cbn. unfold manifest_metas.
    rewrite <- list_fmap_compose. apply (list_elem_of_fmap_2 (sst.file_number ∘ meta)). by rewrite sort_by_perm.
  - intros n Hl. apply (H2 (FnLog n)); cbn; lia.
  - intros x Hx. f_equal. apply (H2 (FnVlog (vlog.number_ x))); [by eapply vlog_numbered|]. cbn. by apply list_elem_of_fmap_2.
  - intros -> n Hl. pose proof (od_sep _ _ _ _ _ _ _ Hd) as [_ Hs].
    destruct (RemoveOrphanFiles _ _ _ _ _ _ !! VlogPath dir n) eqn:E; [|done].
    rewrite (H1 (VlogPath dir n)), (Hs n Hl) in E by (by rewrite E). done.
Qed.

Lemma recover_spec {img} env dir o f v vs floor logs named max_seen :
  open_fine env → enable_io_uring o = false → on_disk_with img f dir v vs (enable_value_separation o) floor logs →
  Forall (λ p, torn_log p.2 (img p.1 p.2)) logs → version_ok v → filed v →
  Forall (λ x, f !! VlogPath dir (vlog.number_ x) = Some (vlog.v_file x)) vs →
  Forall (λ r, ref_number r ≤ max_seen) (version_refs v) → Forall (λ x, vlog.number_ x ≤ max_seen) vs →
  ∃ f' d, recover env dir o (mkManifestState (manifest_metas v) named floor true) (vlog.number_ <$> vs) v vs max_seen f
          = Some (f', inr d) ∧ fs d = f' ∧ recovered dir o v vs floor (first_log floor logs) d.
Proof.
  intros He Hu Hd Himg Hok Hv Hvf Hmax Hvmax. unfold recover. rewrite (of_opendir_logs _ He). cbn [negb ms_log_number ms_files]. cbv zeta.
  set (f2 := if oe_opendir_orphans env then _ else f).
  assert (on_disk_with img f2 dir v vs (enable_value_separation o) floor logs ∧
    Forall (λ x, f2 !! VlogPath dir (vlog.number_ x) = Some (vlog.v_file x)) vs) as [Hd2 Hvf2].
  { unfold f2. destruct (oe_opendir_orphans env); [|done]. split; [by apply on_disk_orphans|].
    destruct (RemoveOrphanFiles_spec (oe_unlink env) dir (manifest_metas v) floor (vlog.number_ <$> vs) f (od_known _ _ _ _ _ _ _ Hd)) as [_ H2].
    rewrite Forall_forall in Hvf |- *. intros x Hx. rewrite <- (Hvf x Hx). apply (H2 (FnVlog (vlog.number_ x))); [by eapply vlog_numbered|].
    cbn. by apply list_elem_of_fmap_2. }
  set (st := mkReplaying (Some new_MemTable) 0 (oe_coins env)).
  destruct (replay_first env dir f v vs _ floor logs st He Hd Himg Hv) as (f0 & cut0 & El & _ & _ & _).
  destruct (replay_first env dir f2 v vs _ floor logs st He Hd2 Himg Hv) as (f3 & cut & _ & Er & Hd3 & Hv3). rewrite El, Er. cbn [mbind option_bind].
  set (logs1 := first_log floor logs) in *.
  destruct (replay_records st new_MemTable (concat logs1.*2)) as (m & Em & Hm & Hp & Hm0 & Hmall);
    [done|apply mem_ok_new|apply Hd3|apply Hd3|by rewrite mem_versions_new; intros u w ?%not_elem_of_nil|].
  rewrite Em. cbn [mbind option_bind]. unfold attach_log. rewrite Hu, (of_wal_open _ He).
  set (newest := default floor (list.last logs1.*1)).
  assert (list.last logs1.*1 = Some newest) as Elast.
  { unfold newest, logs1, first_log. destruct logs as [|p logs']; [done|]. destruct (list.last (p :: logs').*1) eqn:E; [done|]. by apply last_None in E. }
  assert (newest ∈ logs1.*1) as Hnew by by apply last_Some_elem_of.
  destruct (proj1 (od_logs _ _ _ _ _ _ _ Hd3 newest) Hnew) as (_ & Hnn & [data Hdata]). rewrite Hdata. cbn [default].
  unfold SyncDir. rewrite (of_dir_open _ He), (of_dir_sync _ He). change (ok Ok) with true. cbn [negb].
  rewrite insert_id by done. eexists f3, _. split; [done|]. split; [done|].
  rewrite mem_versions_new, app_nil_r in Hp. destruct (max_table_seq_spec v (rp_max_seq (foldl replayed st (concat logs1.*2)))) as [Hs1 Hs2].
  split; cbn [dir_ options_ mem_ imm_ current_ snapshots_ vsep_ wal_ ring_ log_number_ log_writer_ fs next_seq_ next_file_number_ log.w_file]; try done.
  - cbn [rp_max_seq] in Hm0. change (rp_max_seq st) with 0 in Hm0. lia.
  - intros u Hu'. specialize (Hmall u Hu'). lia.
  - intros r u Hr Hu'. specialize (Hs2 r Hr). pose proof (fv_seqs _ Hv r u Hr Hu'). lia.
  - eapply Forall_impl; [exact Hmax|]. simpl. intros r ?. lia.
  - eapply Forall_impl; [exact Hvmax|]. simpl. intros r ?. lia.
  - lia.
  - intros _. destruct (on_disk_vnumbers _ _ _ _ _ _ _ Hd3) as [_ Hn]. rewrite Forall_forall in Hn, Hvf2 |- *. intros x Hx.
    rewrite <- (Hvf2 x Hx). by apply Hv3, Hn.
Qed.

Lemma Open_recovers {img} env dir o f v vs floor logs :
  open_fine env → enable_io_uring o = false → on_disk_with img f dir v vs (enable_value_separation o) floor logs →
  Forall (λ p, torn_log p.2 (img p.1 p.2)) logs → version_ok v → filed v →
  ∃ f' d, Open env dir o f = Some (f', inr d) ∧ fs d = f' ∧ recovered dir o v vs floor (first_log floor logs) d.
Proof.
  intros He Hu Hd Himg Hok Hv. unfold Open. rewrite (of_mkdir _ He).
  destruct (manifest_read f dir v vs _ floor logs Hd Hv env He) as (named & -> & Hlive & Hsep). cbn [mbind option_bind ms_has_log_number negb ms_files].
  change (open_tables env dir f (manifest_metas v)) with (open_tables env dir f (meta <$> by_number v)). rewrite open_tables_spec; [|done|unfold by_number; rewrite sort_by_perm; apply Hd].
  cbn [mbind option_bind ms_log_number ms_vlogs]. cbv zeta.
  assert (oe_opendir_vlogs env && existsb (λ name, match ParseNumberedFile name (lit ".vlog") with Some _ => true | None => false end)
    (dir_names dir f) && negb (enable_value_separation o) = false) as ->.
  { destruct (enable_value_separation o) eqn:Es; [by rewrite andb_false_r|]. pose proof (od_sep _ _ _ _ _ _ _ Hd) as [_ Hs].
    rewrite no_vlogs_listed by (done || apply Hd). by rewrite andb_false_r. }
  assert (bool_decide (named ≠ []) && negb (enable_value_separation o) = false) as ->.
  { destruct (enable_value_separation o) eqn:Es; [by rewrite andb_false_r|]. rewrite Hsep by done. done. }
  unfold live_vlogs in Hlive. cbn [ms_vlogs].
  rewrite Hlive. destruct (on_disk_vnumbers _ _ _ _ _ _ _ Hd) as [Hnd Hn].
  rewrite open_vlogs_spec; [|done|done|done|apply Hd]. rewrite assemble_spec by done.
  destruct (foldl_max_le floor (sst.file_number <$> manifest_metas v)) as [Hm1 Hm2].
  destruct (foldl_max_le (foldl Z.max floor (sst.file_number <$> manifest_metas v)) (vlog.number_ <$> vs)) as [Hm3 Hm4].
  apply (recover_spec (img := img)); [done|done|by apply on_disk_vlogs|done|done|done| | |].
  - apply Forall_forall. intros x Hx. by apply write_vlogs_in.
  - apply Forall_forall. intros r Hr. etrans; [|exact Hm3]. apply (proj1 (Forall_forall _ _) Hm2). unfold manifest_metas.
    rewrite <- list_fmap_compose. apply (list_elem_of_fmap_2 (sst.file_number ∘ meta)). by rewrite sort_by_perm.
  - by rewrite Forall_fmap in Hm4.
Qed.

(** ** Changing the directory *)

Lemma concat_fmap_filter_sublist {A} (P : Z * list A → Prop) `{!∀ p, Decision (P p)} (l : list (Z * list A)) :
  concat (filter P l).*2 `sublist_of` concat l.*2.
Proof.
  induction l as [|p l IH]; [done|]. rewrite filter_cons. destruct (decide (P p)); rewrite ?fmap_cons; cbn [concat].
  - by apply sublist_app.
  - by apply sublist_inserts_l.
Qed.

Section change.
Context (f : files) (dir : bytes) (v : Version) (vs : list vlog.VLog) (sep : bool) (floor : Z) (logs : list (Z * list version)).
Context (Hd : on_disk f dir v vs sep floor logs) (Hv : filed v).

(** Other contents of the value logs. *)
Lemma on_disk_values f' vs' :
  known dir f' → vlog.number_ <$> vs' = vlog.number_ <$> vs →
  (∀ x, numbered x → vlog_file_number x = None → f' !! path_of dir x = f !! path_of dir x) →
  Forall (λ x, default [] (f' !! VlogPath dir (vlog.number_ x)) = vlog.v_file x ∧ vlog.vlog_ok x) vs' →
  (sep = false → ∀ n, 0 ≤ n < 2 ^ 64 → f' !! VlogPath dir n = None) → on_disk f' dir v vs' sep floor logs.
Proof using Hd Hv.
  intros Hk Hn Hne Hvl Hs. destruct Hd as [D1 D2 D3 D4 D5 D6 D7 D8 D9 D10 D11 D12].
  assert (∀ n, 0 ≤ n < 2 ^ 64 → f' !! LogPath dir n = f !! LogPath dir n) as Hlog by (intros n Hr; by apply (Hne (FnLog n))).
  split; rewrite ?Hn; try done.
  - pose proof (Hne FnManifest I eq_refl) as E. change (path_of dir FnManifest) with (ManifestPath dir) in E. by rewrite E.
  - rewrite Forall_forall in D3 |- *. intros r Hin. destruct (D3 r Hin) as (data & Hdata & Hopen). exists data. split; [|done].
    rewrite <- Hdata. apply (Hne (FnSst (ref_number r))); [by eapply ref_numbered|done].
  - destruct sep.
    + intros ->. by destruct vs.
    + destruct D6 as [-> _]. split; [by destruct vs'|by apply Hs].
  - intros n. rewrite D8. split; intros (H1 & H2 & H3); (split_and!; [done|lia|lia|]); (rewrite (Hlog n) in * by lia); done.
  - rewrite Forall_forall in D10 |- *. intros p Hp. rewrite Hlog; [by apply D10|].
    pose proof (proj1 (D8 p.1) (list_elem_of_fmap_2 fst _ _ Hp)). lia.
Qed.

(** A new MANIFEST, with a floor that hides nothing but what it may. *)
Lemma on_disk_publish f' v' vs' floor' :
  known dir f' → (∀ x, numbered x → x ≠ FnManifest → x ≠ FnTmp → f' !! path_of dir x = f !! path_of dir x) →
  f' !! ManifestPath dir = Some (log.wal_image [] (manifest_records (manifest_metas v') (vlog.number_ <$> vs') floor')) →
  filed v' → Forall (on_file dir f) (version_refs v') →
  Forall (λ x, default [] (f !! VlogPath dir (vlog.number_ x)) = vlog.v_file x ∧ vlog.vlog_ok x) vs' →
  ascending 0 (vlog.number_ <$> vs') → Forall (λ n, n < 2 ^ 64) (vlog.number_ <$> vs') →
  (if sep then vs' ≠ [] else vs' = []) → floor ≤ floor' < 2 ^ 64 →
  on_disk f' dir v' vs' sep floor' (filter (λ p, floor' ≤ p.1) logs).
Proof using Hd.
  intros Hk Hne Hm Hv' Ht Hvl Ha Hb Hs Hfl. destruct Hd as [D1 D2 D3 D4 D5 D6 D7 D8 D9 D10 D11 D12].
  assert (∀ p, p ∈ filter (λ p, floor' ≤ p.1) logs → p ∈ logs) as Hsub by (intros p [_ ?]%list_elem_of_filter; done).
  assert (∀ n, 0 ≤ n < 2 ^ 64 → f' !! LogPath dir n = f !! LogPath dir n) as Hlog by (intros n Hn; by apply (Hne (FnLog n))).
  split; [done|by rewrite Hm| | |done| |lia| | | | |].
  - rewrite Forall_forall in Ht |- *. intros r Hr. destruct (Ht r Hr) as (data & Hdata & Ho). exists data. split; [|done].
    rewrite <- Hdata. apply (Hne (FnSst (ref_number r))); [by eapply ref_numbered|done|done].
  - rewrite Forall_forall in Hb. rewrite Forall_forall in Hvl |- *. intros x Hx. destruct (Hvl x Hx) as [<- ?]. split; [|done]. f_equal.
    pose proof (proj2 (ascending_sorted _ _ Ha)) as Hpos. rewrite Forall_forall in Hpos.
    specialize (Hpos _ (list_elem_of_fmap_2 _ _ _ Hx)). specialize (Hb _ (list_elem_of_fmap_2 _ _ _ Hx)). cbn in Hpos, Hb.
    apply (Hne (FnVlog (vlog.number_ x))); [cbn; lia|done|done].
  - destruct sep; [done|]. split; [done|]. intros n Hn. destruct D6 as [_ D6]. rewrite <- (D6 n Hn). by apply (Hne (FnVlog n)).
  - intros n. split.
    + intros (p & -> & [Hp Hin]%list_elem_of_filter)%list_elem_of_fmap. destruct (proj1 (D8 p.1) (list_elem_of_fmap_2 fst _ _ Hin)) as (? & ? & ?).
      split_and!; [done|lia|lia|]. by rewrite Hlog.
    + intros (Hn & Hr & Hl). rewrite Hlog in Hl by done. assert (n ∈ logs.*1) as Hin by (apply D8; split_and!; [lia|lia|lia|done]).
      apply list_elem_of_fmap in Hin as (p & -> & Hin). apply (list_elem_of_fmap_2 fst). by apply list_elem_of_filter.
  - eapply sorted_by_sublist; [|exact D9]. apply fmap_sublist, sublist_filter.
  - rewrite Forall_forall in D10 |- *. intros p Hp. rewrite Hlog; [by apply D10, Hsub|].
    pose proof (proj1 (D8 p.1) (list_elem_of_fmap_2 fst _ _ (Hsub p Hp))). lia.
  - eapply sorted_by_sublist; [|exact D11]. apply concat_fmap_filter_sublist.
  - rewrite Forall_forall in D12 |- *. intros u (ws & (p & -> & Hp)%list_elem_of_fmap & Hu)%elem_of_concat. apply D12, elem_of_concat.
    exists p.2. split; [by apply (list_elem_of_fmap_2 snd), Hsub|done].
Qed.

End change.

(** ** Records at the end of the log *)

Lemma concat_empty_logs ns : concat (empty_logs ns).*2 = [].
Proof. unfold empty_logs. induction ns as [|n ns IH]; [done|]. exact IH. Qed.

Lemma concat_all_logs n o c l : concat (all_logs n o c l).*2 = concat o.*2 ++ c.
Proof.
  unfold all_logs. rewrite fmap_app, fmap_cons, concat_app. cbn [concat snd]. by rewrite concat_empty_logs, app_nil_r.
Qed.

Lemma all_logs_numbers n old cur later : (all_logs n old cur later).*1 = old.*1 ++ n :: later.
Proof.
  unfold all_logs. rewrite fmap_app, fmap_cons. cbn [fst]. do 2 f_equal. unfold empty_logs. rewrite <- list_fmap_compose.
  apply list_fmap_id.
Qed.

Lemma all_logs_other n (old : list (Z * list version)) later p :
  sorted_by Z.ltb (old.*1 ++ n :: later) → p ∈ old ++ empty_logs later → p.1 ≠ n.
Proof.
  intros (_ & [H2 _] & H3)%sorted_by_app Hp E. subst n. apply elem_of_app in Hp as [Hp|Hp].
  - specialize (H3 p.1 p.1 (list_elem_of_fmap_2 fst _ _ Hp) (list_elem_of_here _ _)). by rewrite Z.ltb_irrefl in H3.
  - apply list_elem_of_fmap in Hp as (m & -> & Hm). rewrite Forall_forall in H2. specialize (H2 m Hm). by rewrite Z.ltb_irrefl in H2.
Qed.

Lemma on_disk_append f dir v vs sep floor n old cur later f' vs' new :
  on_disk f dir v vs sep floor (all_logs n old cur later) → filed v →
  known dir f' → vlog.number_ <$> vs' = vlog.number_ <$> vs →
  (∀ x, numbered x → x ≠ FnLog n → vlog_file_number x = None → f' !! path_of dir x = f !! path_of dir x) →
  f' !! LogPath dir n = Some (log_image (cur ++ new)) →
  Forall (λ x, default [] (f' !! VlogPath dir (vlog.number_ x)) = vlog.v_file x ∧ vlog.vlog_ok x) vs' →
  (sep = false → ∀ n, 0 ≤ n < 2 ^ 64 → f' !! VlogPath dir n = None) →
  Forall record_ok new → in_order (concat old.*2 ++ cur ++ new) →
  on_disk f' dir v vs' sep floor (all_logs n old (cur ++ new) later).
Proof.
  intros [D1 D2 D3 D4 D5 D6 D7 D8 D9 D10 D11 D12] Hv Hk Hn Hne Hlog Hvl Hs Hr Ho.
  assert (∀ m, 0 ≤ m < 2 ^ 64 → m ≠ n → f' !! LogPath dir m = f !! LogPath dir m) as Hother.
  { intros m Hm Hmn. apply (Hne (FnLog m)); [done|congruence|done]. }
  rewrite all_logs_numbers in *. rewrite concat_all_logs in *.
  split; rewrite ?all_logs_numbers, ?concat_all_logs, ?Hn; try done.
  - pose proof (Hne FnManifest I ltac:(done) eq_refl) as E. change (path_of dir FnManifest) with (ManifestPath dir) in E. by rewrite E.
  - rewrite Forall_forall in D3 |- *. intros r Hin. destruct (D3 r Hin) as (data & Hdata & Hopen). exists data. split; [|done].
    rewrite <- Hdata. apply (Hne (FnSst (ref_number r))); [by eapply ref_numbered|done|done].
  - destruct sep.
    + intros ->. by destruct vs.
    + destruct D6 as [-> _]. split; [by destruct vs'|by apply Hs].
  - intros m. rewrite D8. destruct (decide (m = n)) as [->|Hmn].
    + rewrite Hlog. assert (n ∈ old.*1 ++ n :: later) as (_ & _ & Hin)%D8 by (apply elem_of_app; right; apply list_elem_of_here).
      split; intros (? & ? & _); (split_and!; [done|lia|lia|]); [by eexists|done].
    + split; intros (H1 & H2 & H3); (split_and!; [done|lia|lia|]); by rewrite (Hother m) in *.
  - assert (∀ p, p ∈ old ++ empty_logs later → f !! LogPath dir p.1 = Some (log_image p.2) → f' !! LogPath dir p.1 = Some (log_image p.2)) as Hmove.
    { intros p Hp <-. assert (p.1 ∈ old.*1 ++ n :: later) as (_ & Hin & _)%D8.
      { rewrite <- (all_logs_numbers n old cur later). apply (list_elem_of_fmap_2 fst). unfold all_logs. rewrite elem_of_app in *. rewrite elem_of_cons. tauto. }
      apply Hother; [done|by eapply all_logs_other]. }
    unfold all_logs in *. rewrite Forall_app, Forall_cons in *. destruct D10 as (H1 & _ & H3). split_and!; [|done|].
    + rewrite Forall_forall in H1 |- *. intros p Hp. apply Hmove; [apply elem_of_app; by left|by apply H1].
    + rewrite Forall_forall in H3 |- *. intros p Hp. apply Hmove; [apply elem_of_app; by right|by apply H3].
  - rewrite app_assoc. by apply Forall_app.
Qed.
