(* ===== verification/DbDurable.v ===== *)
(** * Nothing is lost on disk

    [durable S floor old cur later]: at this point of the run the directory
    holds what recovery needs: the tables and value logs of the state, and the
    records of the memtables in the logs from the floor on ([old] below the
    current log, [cur] in it, [later] logs that are still empty).  Here: the
    users' writes keep it ([durable_write_op]), with or without a new log; the
    background thread is in DbInstall, whole runs in DbRecover. *)

From S2P Require Import Prelude Status FsUtil Encoding Log VLog LruCache InternalKey Mvcc Layers Iterator Block.
From S2P Require Import SSTable TableSize Manifest SkipList MemTable Merge Db DbRead DbInv DbFlush DbPick DbMerge DbCompact.
From S2P Require Import DbValues DbScan DbSystem DbLogs DbRefine DbOpen DbBackground DbCollect DbCorrect DbRounds DbFiles DbDisk.
Import db.

(** ** The invariant *)

(** The flushed memtable is about to be dropped. *)
Definition flushed (b : Bg) : bool :=
  match b with BgFlush (FlDone s) | BgGcFlush (FlDone s) _ => ok s | _ => false end.

(** The number of a table is free, and newer than level 0. *)
Definition fresh_sst (n : Z) (d : DB) : Prop :=
  0 < n < next_file_number_ d ∧ (n ∉ ref_number <$> version_refs (current_ d)) ∧ Forall (λ r, ref_number r < n) (l0 (current_ d)).

(** A table that is written but not yet in the MANIFEST. *)
Definition ready (d : DB) (r : TableRef) : Prop := 0 < ref_number r < 2 ^ 64 ∧ on_file (dir_ d) (disk d) r.

(** What the flush has in hand. *)
Definition flush_files (d : DB) (f : Flushing) : Prop :=
  match f with
  | FlBuild _ log n => 0 ≤ log < log_number_ (wal_ d) ∧ n = imm_sst_number_ d
  | FlInstall log r => 0 ≤ log < log_number_ (wal_ d) ∧ ref_number r = imm_sst_number_ d ∧ ready d r
  | FlDone _ => True
  end.

Definition bg_files (d : DB) (b : Bg) : Prop :=
  match b with
  | BgFlush f | BgGcFlush f _ => flush_files d f
  | BgMerged _ outs => Forall (ready d) outs
  | _ => True
  end.

Record durable (S : System) (floor : Z) (old : list (Z * list version)) (cur : list version) (later : list Z) : Prop := {
  du_disk : on_disk (disk (sys_db S)) (dir_ (sys_db S)) (current_ (sys_db S)) (vlogs_ (vsep_ (sys_db S)))
              (vsep_enabled_ (vsep_ (sys_db S))) floor (all_logs (log_number_ (wal_ (sys_db S))) old cur later);
  du_filed : filed (current_ (sys_db S));
  du_ring : ring_ (wal_ (sys_db S)) = None;
  du_writer : log.writer_ok (log_writer_ (wal_ (sys_db S)));
  du_number : log_number_ (wal_ (sys_db S)) < next_file_number_ (sys_db S);
  du_later : Forall (λ n, n ≤ next_file_number_ (sys_db S)) later;
  du_files : next_file_number_ (sys_db S) < 2 ^ 63;
  du_mem :
    match imm_ (sys_db S) with
    | None => mem_versions (mem_ (sys_db S)) ≡ₚ concat old.*2 ++ cur
    | Some imm =>
        mem_versions (mem_ (sys_db S)) ≡ₚ cur ∧ 0 ≤ imm_log_number_ (sys_db S) < log_number_ (wal_ (sys_db S)) ∧
        if flushed (sys_bg S) then old = []
        else mem_versions imm ≡ₚ concat old.*2 ∧ fresh_sst (imm_sst_number_ (sys_db S)) (sys_db S)
    end;
  du_bg : bg_files (sys_db S) (sys_bg S)
}.

(** ** The files of a state *)

Lemma disk_vlogs d :
  disk d = write_vlogs (dir_ d) (vlogs_ (vsep_ d)) (<[LogPath (dir_ d) (log_number_ (wal_ d)) := log.w_file (log_writer_ (wal_ d))]> (fs d)).
Proof. done. Qed.

Lemma write_vlogs_ext dir vs f f' path : f' !! path = f !! path → write_vlogs dir vs f' !! path = write_vlogs dir vs f !! path.
Proof.
  revert f f'. induction vs as [|x vs IH]; intros f f' E; [done|]. unfold write_vlogs. cbn [foldl]. apply IH.
  destruct (decide (path = VlogPath dir (vlog.number_ x))) as [->|Hne]; [by rewrite !lookup_insert_eq|by rewrite !lookup_insert_ne].
Qed.

Lemma write_vlogs_known dir vs f :
  Forall (λ x, 0 ≤ vlog.number_ x < 2 ^ 64) vs → known dir f → known dir (write_vlogs dir vs f).
Proof.
  revert f. induction vs as [|x vs IH]; intros f Hn Hk; [done|]. inversion Hn as [|? ? Hx Hn']; subst. unfold write_vlogs. cbn [foldl].
  apply IH; [done|]. by apply (known_insert dir f (FnVlog (vlog.number_ x))).
Qed.

(** The paths of the open logs. *)
Definition open_path (d : DB) (path : bytes) : Prop :=
  path = LogPath (dir_ d) (log_number_ (wal_ d)) ∨ ∃ x, x ∈ vlogs_ (vsep_ d) ∧ path = VlogPath (dir_ d) (vlog.number_ x).

Lemma disk_closed d path : ¬ open_path d path → disk d !! path = fs d !! path.
Proof.
  intros H. rewrite disk_vlogs, write_vlogs_other.
  - apply lookup_insert_ne. intros <-. apply H. by left.
  - intros x Hx ->. apply H. right. by exists x.
Qed.

Lemma disk_fs d path : is_Some (fs d !! path) → is_Some (disk d !! path).
Proof.
  intros Hs. rewrite disk_vlogs. generalize (vlogs_ (vsep_ d)). intros vs.
  assert (is_Some (<[LogPath (dir_ d) (log_number_ (wal_ d)):=log.w_file (log_writer_ (wal_ d))]> (fs d) !! path)) as H.
  { destruct (decide (path = LogPath (dir_ d) (log_number_ (wal_ d)))) as [->|Hne]; [by rewrite lookup_insert_eq|by rewrite lookup_insert_ne]. }
  revert H. generalize (<[LogPath (dir_ d) (log_number_ (wal_ d)):=log.w_file (log_writer_ (wal_ d))]> (fs d)). clear Hs.
  induction vs as [|x vs IH]; intros f H; [done|]. unfold write_vlogs. cbn [foldl]. apply IH.
  destruct (decide (path = VlogPath (dir_ d) (vlog.number_ x))) as [->|Hne]; [by rewrite lookup_insert_eq|by rewrite lookup_insert_ne].
Qed.

(** Another table of files under the same open logs. *)
Lemma disk_set_fs d g path : g !! path = fs d !! path → disk (set_fs g d) !! path = disk d !! path.
Proof.
  intros E. rewrite !disk_vlogs. cbn [set_fs dir_ vsep_ wal_ fs]. apply write_vlogs_ext.
  destruct (decide (path = LogPath (dir_ d) (log_number_ (wal_ d)))) as [->|Hne]; [by rewrite !lookup_insert_eq|by rewrite !lookup_insert_ne].
Qed.

Lemma disk_set_fs_closed d g path : ¬ open_path d path → disk (set_fs g d) !! path = g !! path.
Proof. intros H. by rewrite disk_closed. Qed.

Section durable.
Context (S : System) (floor : Z) (old : list (Z * list version)) (cur : list version) (later : list Z).
Context (Hdu : durable S floor old cur later).

Let d := sys_db S.
Let logs := all_logs (log_number_ (wal_ d)) old cur later.
Let Hod : on_disk (disk d) (dir_ d) (current_ d) (vlogs_ (vsep_ d)) (vsep_enabled_ (vsep_ d)) floor logs := du_disk _ _ _ _ _ Hdu.

Lemma log_number_ok : floor ≤ log_number_ (wal_ d) ∧ 0 ≤ log_number_ (wal_ d) < 2 ^ 64.
Proof using Hdu.
  destruct (proj1 (od_logs _ _ _ _ _ _ _ Hod (log_number_ (wal_ d)))) as (? & ? & _); [|by split].
  unfold logs, all_logs. rewrite fmap_app, fmap_cons. apply elem_of_app. right. apply list_elem_of_here.
Qed.

Lemma open_path_log path : open_path d path → ∃ x, numbered x ∧ path = path_of (dir_ d) x ∧ sst_number x = None ∧ x ≠ FnManifest ∧ x ≠ FnTmp.
Proof using Hdu.
  intros [->|(x & Hx & ->)].
  - exists (FnLog (log_number_ (wal_ d))). split_and!; [apply log_number_ok|done..].
  - exists (FnVlog (vlog.number_ x)). split_and!; [|done..]. by eapply vlog_numbered.
Qed.

(** Tables and the MANIFEST are not open. *)
Lemma closed_path x : numbered x → (is_Some (sst_number x) ∨ x = FnManifest ∨ x = FnTmp) → ¬ open_path d (path_of (dir_ d) x).
Proof using Hdu.
  intros Hx Hk (y & Hy & E & Hs & H1 & H2)%open_path_log. apply path_of_inj in E; [|done|done]. subst y.
  destruct Hk as [[? Hk]|[?|?]]; [by rewrite Hs in Hk|done|done].
Qed.

Lemma known_fs : known (dir_ d) (fs d).
Proof using Hdu. eapply known_sub; [apply Hod|apply disk_fs]. Qed.

Lemma known_disk g : known (dir_ d) g → known (dir_ d) (disk (set_fs g d)).
Proof using Hdu.
  intros Hk. rewrite disk_vlogs. cbn [set_fs dir_ vsep_ wal_ fs]. apply write_vlogs_known; [by eapply on_disk_vnumbers|].
  apply (known_insert _ _ (FnLog (log_number_ (wal_ d)))); [done|]. apply log_number_ok.
Qed.

Lemma vlog_numbers : Forall (λ x, 0 ≤ vlog.number_ x < 2 ^ 64) (vlogs_ (vsep_ d)).
Proof using Hdu. by eapply on_disk_vnumbers. Qed.

(** The current log holds [cur]. *)
Lemma current_log : log.w_file (log_writer_ (wal_ d)) = log_image cur.
Proof using Hdu.
  pose proof (od_images _ _ _ _ _ _ _ Hod) as Hi. unfold logs, all_logs in Hi. apply Forall_app in Hi as [_ Hi].
  inversion Hi as [|? ? E _]; subst. cbn [fst snd] in E. rewrite disk_vlogs, write_vlogs_other, lookup_insert_eq in E; [by injection E|].
  intros x Hx. apply (path_ne (dir_ d) (FnLog _) (FnVlog _)); [apply log_number_ok|by eapply vlog_numbered|done].
Qed.

End durable.

(** ** Frames *)

Lemma on_file_same dir f f' r : f' !! SstPath dir (ref_number r) = f !! SstPath dir (ref_number r) → on_file dir f r → on_file dir f' r.
Proof. intros E (data & Hd & Ho). exists data. by rewrite E. Qed.

(** The part of the state the disk and the flush see. *)
Record same_files (d d' : DB) : Prop := {
  sf_fs : fs d' = fs d;
  sf_dir : dir_ d' = dir_ d;
  sf_log : log_number_ (wal_ d') = log_number_ (wal_ d);
  sf_ring : ring_ (wal_ d') = ring_ (wal_ d);
  sf_current : current_ d' = current_ d;
  sf_imm : imm_ d' = imm_ d;
  sf_imm_sst : imm_sst_number_ d' = imm_sst_number_ d;
  sf_imm_log : imm_log_number_ d' = imm_log_number_ d;
  sf_files : next_file_number_ d' = next_file_number_ d;
  sf_enabled : vsep_enabled_ (vsep_ d') = vsep_enabled_ (vsep_ d);
  sf_vnumbers : vlog.number_ <$> vlogs_ (vsep_ d') = vlog.number_ <$> vlogs_ (vsep_ d)
}.

(** The disk of such a state differs in the open logs only. *)
Lemma same_files_open d d' path : same_files d d' → open_path d' path ↔ open_path d path.
Proof.
  intros Hs. unfold open_path. rewrite (sf_dir _ _ Hs), (sf_log _ _ Hs). f_equiv.
  assert (∀ vs : list vlog.VLog, (∃ x, x ∈ vs ∧ path = VlogPath (dir_ d) (vlog.number_ x)) ↔ ∃ n, n ∈ (vlog.number_ <$> vs) ∧ path = VlogPath (dir_ d) n) as H.
  { intros vs. split.
    - intros (x & Hx & ->). exists (vlog.number_ x). split; [by apply list_elem_of_fmap_2|done].
    - intros (n & (x & -> & Hx)%list_elem_of_fmap & ->). by exists x. }
  by rewrite !H, (sf_vnumbers _ _ Hs).
Qed.

Lemma same_files_disk d d' path : same_files d d' → ¬ open_path d path → disk d' !! path = disk d !! path.
Proof.
  intros Hs Hp. rewrite (disk_closed d path Hp), (disk_closed d'), (sf_fs _ _ Hs); [done|]. by rewrite same_files_open.
Qed.

Section append.
Context (S : System) (floor : Z) (old : list (Z * list version)) (cur : list version) (later : list Z).
Context (Hdu : durable S floor old cur later).

Let d := sys_db S.
Let n := log_number_ (wal_ d).
Let Hod : on_disk (disk d) (dir_ d) (current_ d) (vlogs_ (vsep_ d)) (vsep_enabled_ (vsep_ d)) floor (all_logs n old cur later) :=
  du_disk _ _ _ _ _ Hdu.

(** New records at the end of the log, new contents of the value logs. *)
Lemma append_disk d' new :
  same_files d d' → log.w_file (log_writer_ (wal_ d')) = log_image (cur ++ new) → Forall vlog.vlog_ok (vlogs_ (vsep_ d')) →
  Forall record_ok new → in_order (concat old.*2 ++ cur ++ new) →
  on_disk (disk d') (dir_ d) (current_ d) (vlogs_ (vsep_ d')) (vsep_enabled_ (vsep_ d)) floor (all_logs n old (cur ++ new) later).
Proof using Hdu.
  intros Hs Hw Hok Hr Ho. pose proof (du_filed _ _ _ _ _ Hdu) as Hfiled. fold d in Hfiled.
  pose proof (log_number_ok _ _ _ _ _ Hdu) as [Hfl Hnum]. fold d n in Hfl, Hnum.
  pose proof (vlog_numbers _ _ _ _ _ Hdu) as Hvn. fold d in Hvn.
  assert (Forall (λ x, 0 ≤ vlog.number_ x < 2 ^ 64) (vlogs_ (vsep_ d'))) as Hvn'.
  { assert (Forall (λ m, 0 ≤ m < 2 ^ 64) (vlog.number_ <$> vlogs_ (vsep_ d'))) as H; [|by rewrite Forall_fmap in H].
    rewrite (sf_vnumbers _ _ Hs). by apply Forall_fmap. }
  assert (NoDup (vlog.number_ <$> vlogs_ (vsep_ d'))) as Hnd by (rewrite (sf_vnumbers _ _ Hs); by eapply on_disk_vnumbers).
  apply (on_disk_append (disk d) _ _ (vlogs_ (vsep_ d))); [done|done| |apply Hs| | | | |done|done].
  - rewrite disk_vlogs, (sf_dir _ _ Hs), (sf_fs _ _ Hs), (sf_log _ _ Hs). apply write_vlogs_known; [done|].
    apply (known_insert _ _ (FnLog _)); [|done]. by eapply known_fs.
  - intros x Hx Hxl Hxv. apply same_files_disk; [done|]. intros [E|(y & Hy & E)].
    + by apply (path_of_inj _ x (FnLog n)) in E.
    + rewrite Forall_forall in Hvn. apply (path_of_inj _ x (FnVlog _)) in E; [by subst x|done|by apply Hvn].
  - rewrite disk_vlogs, (sf_dir _ _ Hs), (sf_log _ _ Hs), write_vlogs_other; [rewrite Hw; apply lookup_insert_eq|]. intros x Hx.
    rewrite Forall_forall in Hvn'. apply (path_ne (dir_ d) (FnLog _) (FnVlog _)); [done|by apply Hvn'|done].
  - rewrite Forall_forall in Hok |- *. intros x Hx. split; [|by apply Hok]. by rewrite disk_vlogs, (sf_dir _ _ Hs), write_vlogs_in.
  - intros Hsep m Hm. pose proof (od_sep _ _ _ _ _ _ _ Hod) as Hs'. rewrite Hsep in Hs'. destruct Hs' as [Hno Hall].
    rewrite <- (Hall m Hm). apply same_files_disk; [done|]. intros [E|(y & Hy & _)].
    + by apply (path_of_inj _ (FnVlog m) (FnLog n)) in E.
    + rewrite Hno in Hy. by apply not_elem_of_nil in Hy.
Qed.

(** The tables in hand stay. *)
Lemma same_files_bg d' b : same_files d d' → bg_files d b → bg_files d' b.
Proof using Hdu.
  intros Hs. assert (∀ r, ready d r → ready d' r) as Hr.
  { intros r [Hn Ho]. split; [done|]. rewrite (sf_dir _ _ Hs). eapply on_file_same; [|exact Ho].
    apply same_files_disk; [done|]. eapply (closed_path _ _ _ _ _ Hdu (FnSst (ref_number r))); [cbn; lia|by left]. }
  assert (∀ f, flush_files d f → flush_files d' f) as Hf.
  { intros [imm l m|l r|s]; cbn [flush_files]; rewrite ?(sf_log _ _ Hs), ?(sf_imm_sst _ _ Hs); [done| |done].
    intros (? & ? & ?). split; [done|]. split; [done|by apply Hr]. }
  destruct b; cbn [bg_files]; try done; [apply Hf| |apply Hf]. intros H. eapply Forall_impl; [exact H|exact Hr].
Qed.

Lemma durable_append d' new :
  same_files d d' → log.w_file (log_writer_ (wal_ d')) = log_image (cur ++ new) → log.writer_ok (log_writer_ (wal_ d')) →
  Forall vlog.vlog_ok (vlogs_ (vsep_ d')) → Forall record_ok new → in_order (concat old.*2 ++ cur ++ new) →
  mem_versions (mem_ d') ≡ₚ new ++ mem_versions (mem_ d) → durable (mkSystem d' (sys_bg S)) floor old (cur ++ new) later.
Proof using Hdu.
  intros Hs Hw Hwo Hok Hr Ho Hm. pose proof (append_disk d' new Hs Hw Hok Hr Ho) as Hd'.
  pose proof Hdu as [_ D2 D3 D4 D5 D6 D7 D8 D9]. fold d in D2, D3, D4, D5, D6, D7, D8, D9.
  pose proof Hs as []. split; cbn [sys_db sys_bg]; try congruence.
  - rewrite sf_dir0, sf_current0, sf_enabled0, sf_log0. exact Hd'.
  - by rewrite sf_files0.
  - rewrite sf_imm0, sf_imm_sst0, sf_imm_log0, sf_log0. unfold fresh_sst in *. rewrite sf_files0, sf_current0.
    destruct (imm_ d) as [imm|].
    + destruct D8 as (E & ? & ?). split; [|done]. by rewrite Hm, E, (Permutation_app_comm new).
    + rewrite Hm, D8. by rewrite (Permutation_app_comm new), app_assoc.
  - by apply same_files_bg.
Qed.

End append.

(** The background thread moves on and the files stay. *)
Lemma durable_move S floor old cur later d' b' :
  durable S floor old cur later → same_files (sys_db S) d' → log_writer_ (wal_ d') = log_writer_ (wal_ (sys_db S)) →
  vlogs_ (vsep_ d') = vlogs_ (vsep_ (sys_db S)) → mem_ d' = mem_ (sys_db S) → flushed b' = flushed (sys_bg S) →
  bg_files (sys_db S) b' → durable (mkSystem d' b') floor old cur later.
Proof.
  intros Hdu Hs Hw Hv Hm Hfl Hb.
  assert (disk d' = disk (sys_db S)) as Ed.
  { rewrite !disk_vlogs, (sf_dir _ _ Hs), (sf_fs _ _ Hs), (sf_log _ _ Hs), Hw, Hv. done. }
  pose proof (same_files_bg _ _ _ _ _ Hdu d' b' Hs Hb) as Hb'.
  destruct Hdu as [D1 D2 D3 D4 D5 D6 D7 D8 _], Hs. split; cbn [sys_db sys_bg]; try congruence.
  - by rewrite sf_files0.
  - rewrite sf_imm0, sf_imm_sst0, sf_imm_log0, sf_log0, Hm, Hfl. unfold fresh_sst in *. by rewrite sf_files0, sf_current0.
Qed.

(** ** Writes *)

(** The record reaches the log and is synced. *)
Definition reliable_entry (env : entry_env) : Prop :=
  error_free (ee_wal_writes env) = true ∧ se_vlog_fsync (ee_sync env) = None ∧ se_log_fsync (ee_sync env) = None.

#[export] Instance reliable_entry_dec env : Decision (reliable_entry env).
Proof. unfold reliable_entry. apply _. Defined.

(** The log does not take a byte of it. *)
Definition refused_entry (env : entry_env) : Prop := match ee_wal_writes env with IoError _ :: _ => True | _ => False end.

Definition clean_entry (env : entry_env) : Prop := reliable_entry env ∨ refused_entry env.

#[export] Instance clean_entry_dec env : Decision (clean_entry env).
Proof. unfold clean_entry, refused_entry. destruct (ee_wal_writes env) as [|[]]; apply _. Defined.

Lemma same_files_refl d : same_files d d.
Proof. by split. Qed.

Lemma same_files_trans a b c : same_files a b → same_files b c → same_files a c.
Proof. intros [] []. split; congruence. Qed.

#[export] Instance same_files_preorder : PreOrder same_files.
Proof. split; [exact same_files_refl|exact same_files_trans]. Qed.

Lemma separate_files env type key value d s stored d1 :
  separate env type key value d = Some (s, stored, d1) →
  same_files d d1 ∧ log_writer_ (wal_ d1) = log_writer_ (wal_ d) ∧ mem_ d1 = mem_ d ∧ next_seq_ d1 = next_seq_ d ∧
  options_ d1 = options_ d ∧ (stored = value ∨ len stored ≤ kValuePointerSize).
Proof.
  unfold separate. destruct (separated type value (vsep_ d)).
  - destruct (current_vlog (vsep_ d)) as [cv|]; [|done]. cbn [mbind option_bind].
    destruct (vlog.Append _ _ cv key value) as [[[s' cv'] off] n]. cbv zeta.
    destruct (ok s'); cbn [negb]; intros [= <- <- <-]; (split_and!; [|done..|]).
    + split; try done. apply update_numbers.
    + right. pose proof (pointer_shaped_Encode (mkValuePointer (vlog.number_ cv) off (u32 (len value)))) as Hp. unfold pointer_shaped in Hp.
      apply andb_prop in Hp as [Hp%Z.eqb_eq _]. by rewrite Hp.
    + split; try done. apply update_numbers.
    + right. done.
  - intros [= <- <- <-]. split_and!; [by split|done..|by left].
Qed.

Lemma sync_fine strerror env mode cv w :
  ring_ w = None → se_vlog_fsync env = None → se_log_fsync env = None →
  ∃ w', MaybeSync strerror env mode cv w = Some (Ok, w') ∧ log_writer_ w' = log_writer_ w ∧ ring_ w' = None ∧
    log_number_ w' = log_number_ w.
Proof.
  intros Hr E1 E2. assert (∀ need, ∃ w', sync_if strerror env need cv w = Some (Ok, w') ∧ log_writer_ w' = log_writer_ w ∧ ring_ w' = None ∧
    log_number_ w' = log_number_ w) as H.
  { intros need. unfold sync_if, io_uring_active_. rewrite Hr. destruct need; [|by eexists]. unfold sync_files, vlog.Sync. rewrite E1, E2.
    destruct cv; by eexists. }
  destruct mode; [apply H|apply H|by eexists].
Qed.

Section write.
Context (strerror : Z → bytes).

Lemma WriteEntry_files env type key value count d s d' :
  ring_ (wal_ d) = None → reliable_entry env → WriteEntry strerror env type key value count d = Some (s, d') →
  ∃ s1 stored d1, separate env type key value d = Some (s1, stored, d1) ∧ same_files d d' ∧ vsep_ d' = vsep_ d1 ∧ ok s = ok s1 ∧
    (stored = value ∨ len stored ≤ kValuePointerSize) ∧
    if ok s
    then log_writer_ (wal_ d') = (log.AddRecord (ee_wal_writes env) (log_writer_ (wal_ d)) (wal_payload (next_seq_ d) type key stored)).2 ∧
      mem_apply (ee_coins env) (mem_ d) (entry_op type (next_seq_ d) key stored) = Some (mem_ d')
    else log_writer_ (wal_ d') = log_writer_ (wal_ d) ∧ mem_ d' = mem_ d.
Proof.
  intros Hr (He & Ev & El). unfold WriteEntry. destruct (separate env type key value d) as [[[s1 stored] d1]|] eqn:Es; [|done].
  cbn [mbind option_bind]. destruct (separate_files _ _ _ _ _ _ _ _ Es) as (Hs1 & Hw1 & Hm1 & Hn1 & Ho1 & Hst).
  intros E. exists s1, stored, d1. split; [done|]. destruct (ok s1) eqn:Eok; cbn [negb] in E.
  2:{ injection E as <- <-. rewrite Eok. by split_and!. }
  rewrite (sf_ring _ _ Hs1), Hr in E. unfold append_file in E. rewrite Hw1, Hn1 in E.
  pose proof (AddRecord_fine (ee_wal_writes env) (log_writer_ (wal_ d)) (wal_payload (next_seq_ d) type key stored) He) as Ha.
  destruct (log.AddRecord _ _ _) as [sa lw]. cbn [fst snd] in *. rewrite Ha in E. cbn [negb] in E. unfold and_then in E. cbn [mbind option_bind] in E.
  change (ok Ok) with true in E. cbv iota in E.
  match type of E with context [MaybeSync strerror ?e ?m ?c ?w] =>
    assert (ring_ w = None ∧ log_writer_ w = lw ∧ log_number_ w = log_number_ (wal_ d)) as (R1 & R2 & R3);
    [destruct count; (split_and!; [cbn; rewrite (sf_ring _ _ Hs1); done|done|cbn; apply Hs1])|];
    destruct (sync_fine strerror e m c w R1 Ev El) as (w' & Ew & W1 & W2 & W3); rewrite Ew in E end.
  cbn [mbind option_bind] in E. change (negb (ok Ok)) with false in E. cbv iota in E.
  match type of E with context [set_wal w' ?x] => assert (mem_ x = mem_ d ∧ next_seq_ x = next_seq_ d ∧ vsep_ x = vsep_ d1 ∧ same_files d (set_wal w' x)) as (M1 & M2 & M3 & M4) end.
  { destruct count; (split_and!; [done|done|done|]); destruct Hs1; split; cbn; congruence. }
  cbn [set_wal mem_ next_seq_] in E. rewrite M1, M2 in E.
  assert ((if type =? kTypeValue then mem_Put (ee_coins env) (mem_ d) (next_seq_ d) key stored
           else mem_Delete (ee_coins env) (mem_ d) (next_seq_ d) key)
          = mem_apply (ee_coins env) (mem_ d) (entry_op type (next_seq_ d) key stored)) as Em.
  { unfold entry_op. by destruct (type =? kTypeValue). }
  rewrite Em in E. destruct (mem_apply _ _ _) as [m|]; [|done]. cbn [mbind option_bind] in E. injection E as <- <-.
  change (ok Ok) with true. cbv iota. split_and!; [|done|done|done|cbn [set_mem set_wal wal_]; congruence|done].
  destruct M4. by split.
Qed.

Lemma AddRecord_refused e sched w p : log.AddRecord (IoError e :: sched) w p = (IOError (lit "WAL write failed: " ++ e), w).
Proof using.
  unfold log.AddRecord, log.WriteAll. pose proof (log.EncodeRecord_nonempty p (log.file_offset_ w)) as Hne.
  destruct (log.EncodeRecord p (log.file_offset_ w)) as [|x data]; [done|]. cbn [write_loop]. rewrite app_nil_r. by destruct w.
Qed.

Lemma WriteEntry_refused env type key value count d s d' :
  ring_ (wal_ d) = None → refused_entry env → WriteEntry strerror env type key value count d = Some (s, d') →
  same_files d d' ∧ log_writer_ (wal_ d') = log_writer_ (wal_ d) ∧ mem_ d' = mem_ d.
Proof.
  intros Hr He. unfold WriteEntry. destruct (separate env type key value d) as [[[s1 stored] d1]|] eqn:Es; [|done].
  cbn [mbind option_bind]. destruct (separate_files _ _ _ _ _ _ _ _ Es) as (Hs1 & Hw1 & Hm1 & Hn1 & Ho1 & Hst).
  destruct (ok s1); cbn [negb]; [|by intros [= <- <-]]. rewrite (sf_ring _ _ Hs1), Hr. unfold append_file, refused_entry in *.
  destruct (ee_wal_writes env) as [|[| |e] sched]; try done. rewrite AddRecord_refused. unfold and_then. cbn [mbind option_bind].
  change (ok (IOError (lit "WAL write failed: " ++ e))) with false. cbn [negb]. change (ok (IOError (lit "WAL write failed: " ++ e))) with false. cbv iota.
  intros [= <- <-]. split_and!; [|done|done]. etrans; [exact Hs1|]. split; done.
Qed.

Lemma WriteEntry_same env type key value count d s d' :
  ring_ (wal_ d) = None → clean_entry env → WriteEntry strerror env type key value count d = Some (s, d') → same_files d d'.
Proof.
  intros Hr [He|He] E; [|by eapply WriteEntry_refused].
  by destruct (WriteEntry_files env type key value count d s d' Hr He E) as (_ & _ & _ & _ & Hs & _).
Qed.

End write.

(** Files and their numbers fit the types of the program. *)
Record sized (d : DB) : Prop := {
  sz_number : next_file_number_ d < 2 ^ 63;
  sz_log : len (log.w_file (log_writer_ (wal_ d))) < 2 ^ 63;
  sz_files : map_Forall (λ _ data, len data < 2 ^ 63) (fs d)
}.

#[export] Instance sized_dec d : Decision (sized d).
Proof.
  refine (cast_if_and3 (decide (next_file_number_ d < 2 ^ 63)) (decide (len (log.w_file (log_writer_ (wal_ d))) < 2 ^ 63))
    (decide (map_Forall (λ _ data, len data < 2 ^ 63) (fs d)))); [by split|by intros []..].
Defined.

Lemma AddRecord_file sched w p :
  log.writer_ok w → ok (log.AddRecord sched w p).1 = true → len (log.w_file (log.AddRecord sched w p).2) < 2 ^ 64 →
  (log.AddRecord sched w p).2 = log.mkWriter (log.wal_image (log.w_file w) [p]) (len (log.wal_image (log.w_file w) [p])).
Proof.
  intros Hw Hok Hl. apply log.AddRecord_spec; [done|done|]. unfold log.AddRecord, log.WriteAll in *. rewrite Hw in *.
  destruct (write_loop_spec sched (log.EncodeRecord p (len (log.w_file w)))) as (rest & Hd & Hr).
  destruct (write_loop sched _) as [out err]. cbn [fst snd] in *. destruct err as [e|]; [done|]. rewrite Hr, app_nil_r in Hd by done.
  by rewrite Hd.
Qed.

Lemma log_image_snoc vs v : log_image (vs ++ [v]) = log.wal_image (log_image vs) [payload v].
Proof. unfold log_image, log.wal_image. by rewrite fmap_app, foldl_app. Qed.

Lemma payload_entry type seq key stored :
  type = kTypeValue ∨ type = kTypeDeletion → payload (op_version (entry_op type seq key stored)) = wal_payload seq type key stored.
Proof. by intros [->| ->]. Qed.

(** The records of the logs are in the memtables. *)
Lemma logs_in_layers S floor old cur later u :
  durable S floor old cur later → u ∈ concat old.*2 ++ cur → u ∈ concat (layers (sys_db S)).
Proof.
  intros Hdu Hu. pose proof (du_mem _ _ _ _ _ Hdu) as Hm. unfold layers, view_layers. destruct (imm_ (sys_db S)) as [imm|].
  - destruct Hm as (Hm & _ & Hi). cbn [concat imm_versions]. apply elem_of_app in Hu as [Hu|Hu].
    + destruct (flushed (sys_bg S)); [subst old; by apply not_elem_of_nil in Hu|]. destruct Hi as [Hi _]. rewrite !elem_of_app, Hi. auto.
    + rewrite elem_of_app, Hm. auto.
  - cbn [concat]. rewrite elem_of_app, Hm. auto.
Qed.

Lemma in_order_snoc vs v : in_order vs → (∀ u, u ∈ vs → v_seq u < v_seq v) → in_order (vs ++ [v]).
Proof.
  intros Ho Hlt. apply sorted_by_app. split_and!; [done|by split; [constructor|]|].
  intros u w Hu ->%list_elem_of_singleton. by apply Z.ltb_lt, Hlt.
Qed.

Lemma durable_entry strerror S floor old cur later hist M env type key value count s d' :
  durable S floor old cur later → data_inv (sys_db S) hist M → next_seq_ (sys_db S) < 2 ^ 56 →
  len key < 2 ^ 32 - 8 → len key + len value < 2 ^ 32 → clean_entry env → type = kTypeValue ∨ type = kTypeDeletion →
  WriteEntry strerror env type key value count (sys_db S) = Some (s, d') → Forall vlog.vlog_ok (vlogs_ (vsep_ d')) → sized d' →
  ∃ cur', durable (mkSystem d' (sys_bg S)) floor old cur' later.
Proof.
  intros Hdu Hda Hseq Hk Hkv He Hty E Hok Hz. set (d := sys_db S) in *. pose proof (da_db _ _ _ Hda) as Hdb.
  assert (same_files d d' → log_writer_ (wal_ d') = log_writer_ (wal_ d) → mem_ d' = mem_ d → ∃ cur', durable (mkSystem d' (sys_bg S)) floor old cur' later) as Hkeep.
  { intros Hs Hw Hm. exists (cur ++ []). apply (durable_append S); try done; rewrite ?app_nil_r, ?Hw, ?Hm; try done.
    - by apply (current_log _ _ _ _ _ Hdu).
    - apply Hdu.
    - pose proof (od_order _ _ _ _ _ _ _ (du_disk _ _ _ _ _ Hdu)) as Ho. by rewrite concat_all_logs in Ho. }
  destruct He as [He|He]; [|by destruct (WriteEntry_refused strerror env type key value count d s d' (du_ring _ _ _ _ _ Hdu) He E) as (? & ? & ?); apply Hkeep].
  destruct (WriteEntry_files strerror env type key value count d s d' (du_ring _ _ _ _ _ Hdu) He E) as (s1 & stored & d1 & _ & Hs & _ & _ & Hst & Hres).
  pose proof (current_log _ _ _ _ _ Hdu) as Hcl. fold d in Hcl. pose proof (du_writer _ _ _ _ _ Hdu) as Hwo. fold d in Hwo.
  pose proof (od_order _ _ _ _ _ _ _ (du_disk _ _ _ _ _ Hdu)) as Ho. rewrite concat_all_logs in Ho.
  destruct (ok s).
  - destruct Hres as [Hw Hm]. set (v := op_version (entry_op type (next_seq_ d) key stored)).
    assert (v_seq v = next_seq_ d ∧ v_key v = key) as [Ev Ek] by (unfold v; by destruct Hty as [->| ->]).
    pose proof (di_next _ _ Hdb). pose proof (len_nonneg key). pose proof (len_nonneg value).
    assert (∀ u, u ∈ concat (layers d) → v_seq u < v_seq v) as Htop.
    { intros u Hu. rewrite Ev. eapply fits_seq; [apply (di_hist _ _ Hdb)|]. by apply (di_sub _ _ Hdb). }
    destruct (mem_apply_ok (ee_coins env) (mem_ d) (entry_op type (next_seq_ d) key stored) (di_mem _ _ Hdb)) as (m & Em & _ & Hp).
    { intros u Hu. apply Htop. unfold layers, view_layers. cbn [concat]. apply elem_of_app. by left. }
    { fold v. lia. } { fold v. by rewrite Ek. }
    rewrite Hm in Em. injection Em as <-. fold v in Hp.
    assert (record_ok v) as Hrk.
    { assert (len stored < 2 ^ 32) by (destruct Hst as [->|?]; [lia|unfold kValuePointerSize in *; lia]).
      split; [apply op_version_wf; fold v; lia|lia|by rewrite Ek| |]; unfold v; destruct Hty as [->| ->]; cbn; done || lia. }
    rewrite <- (payload_entry type _ _ _ Hty) in Hw. fold v in Hw.
    pose proof (AddRecord_file (ee_wal_writes env) (log_writer_ (wal_ d)) (payload v) Hwo (AddRecord_fine _ _ _ (proj1 He))) as Ha.
    rewrite <- Hw in Ha. pose proof (sz_log _ Hz). specialize (Ha ltac:(lia)). rewrite Hcl, <- log_image_snoc in Ha.
    exists (cur ++ [v]). apply (durable_append S); [done|done|by rewrite Ha|by rewrite Ha|done|by constructor| |done].
    rewrite app_assoc. apply in_order_snoc; [done|]. intros u Hu. apply Htop. by eapply logs_in_layers.
  - destruct Hres as [Hw Hm]. by apply Hkeep.
Qed.

(** ** Rotation *)

Definition add_log (n : Z) (later : list Z) : list Z := filter (λ m, m ≠ n) later ++ [n].

Lemma add_log_elem n later m : m ∈ add_log n later ↔ m ∈ later ∨ m = n.
Proof.
  unfold add_log. rewrite elem_of_app, list_elem_of_filter, list_elem_of_singleton. split; [tauto|].
  intros [?|?]; [|by right]. destruct (decide (m = n)); [by right|by left].
Qed.

(** The file of a new log is there. *)
Lemma on_disk_new_log f dir v vs sep floor n old cur later f' N :
  on_disk f dir v vs sep floor (all_logs n old cur later) → filed v →
  Forall (λ m, m ≤ N) later → n < N < 2 ^ 64 → f' !! LogPath dir N = Some [] →
  (∀ path, path ≠ LogPath dir N → f' !! path = f !! path) →
  on_disk f' dir v vs sep floor (all_logs n old cur (add_log N later)).
Proof.
  intros Hod Hv Hl HN Hnew Hsame. pose proof Hod as [D1 D2 D3 D4 D5 D6 D7 D8 D9 D10 D11 D12]. rewrite all_logs_numbers in D8, D9. rewrite concat_all_logs in D11, D12.
  assert (0 ≤ n ∧ floor ≤ n) as [Hn0 Hnf].
  { destruct (proj1 (D8 n)) as (? & ? & _); [|lia]. apply elem_of_app. right. apply list_elem_of_here. }
  assert (∀ x, numbered x → x ≠ FnLog N → f' !! path_of dir x = f !! path_of dir x) as Hne.
  { intros x Hx HxN. apply Hsame. apply (path_ne dir x (FnLog N)); [done|cbn; lia|done]. }
  apply (on_disk_logs f _ _ _ _ _ _ Hod Hv); rewrite ?all_logs_numbers, ?concat_all_logs; [| | | | |done|done].
  - intros path Hp. destruct (decide (path = LogPath dir N)) as [->|HpN]; [exists (FnLog N); split; [cbn; lia|done]|].
    apply D1. by rewrite Hsame in Hp.
  - intros x Hx Hxl. apply Hne; [done|by intros ->].
  - intros m. specialize (D8 m). rewrite elem_of_app, elem_of_cons in *. rewrite add_log_elem.
    destruct (decide (m = N)) as [->|HmN].
    + rewrite Hnew. split; [|tauto]. intros _. split_and!; [lia|lia|lia|by eexists].
    + split.
      * intros Hm. destruct (proj1 D8) as (H1 & H2 & H3); [tauto|]. split_and!; [lia|lia|lia|].
        pose proof (Hne (FnLog m) H2 ltac:(congruence)) as E. change (path_of dir (FnLog m)) with (LogPath dir m) in E. by rewrite E.
      * intros (H1 & H2 & H3). pose proof (Hne (FnLog m) H2 ltac:(congruence)) as E. change (path_of dir (FnLog m)) with (LogPath dir m) in E.
        rewrite E in H3. destruct (proj2 D8) as [?|[?|?]]; tauto.
  - apply sorted_by_app in D9 as (S1 & [S2 S3] & S4). rewrite Forall_forall in Hl, S2. apply sorted_by_app. split_and!; [done| |].
    + split; [apply Forall_forall; intros m [Hm| ->]%add_log_elem; [by apply S2|apply Z.ltb_lt; lia]|].
      apply sorted_by_app. split; [eapply sorted_by_sublist; [apply sublist_filter|done]|]. split; [by split; [constructor|]|].
      intros a b [Ha1 Ha2]%list_elem_of_filter ->%list_elem_of_singleton. specialize (Hl a Ha2). apply Z.ltb_lt. lia.
    + assert (∀ a, a ∈ old.*1 → a < n) as Hon by (intros a Ha; apply Z.ltb_lt, S4; [done|apply list_elem_of_here]).
      intros a b Ha [->|Hb]%elem_of_cons; [by apply Z.ltb_lt, Hon|]. apply add_log_elem in Hb as [Hb| ->].
      * apply S4; [done|by apply list_elem_of_further].
      * specialize (Hon a Ha). apply Z.ltb_lt. lia.
  - assert (∀ p, p ∈ all_logs n old cur later → p.1 = N → p.2 = []) as HpN.
    { unfold all_logs. intros p [Hp|[->|Hp]%elem_of_cons]%elem_of_app E.
      - apply sorted_by_app in D9 as (_ & _ & S4). specialize (S4 p.1 n (list_elem_of_fmap_2 fst _ _ Hp) (list_elem_of_here _ _)).
        apply Z.ltb_lt in S4. lia.
      - cbn in E. lia.
      - by apply list_elem_of_fmap in Hp as (m & -> & _). }
    assert (∀ p, p ∈ all_logs n old cur later → f' !! LogPath dir p.1 = Some (log_image p.2)) as Hkeep.
    { intros p Hp. rewrite Forall_forall in D10. destruct (decide (p.1 = N)) as [E|E]; [rewrite E, (HpN p Hp E); done|].
      etrans; [|exact (D10 p Hp)]. apply (Hne (FnLog p.1)); [|congruence]. pose proof (list_elem_of_fmap_2 fst _ _ Hp) as Hin.
      rewrite all_logs_numbers in Hin. apply D8 in Hin. apply Hin. }
    apply Forall_forall. unfold all_logs in *. intros p [Hp|[->|Hp]%elem_of_cons]%elem_of_app.
    + apply Hkeep, elem_of_app. by left.
    + apply Hkeep, elem_of_app. right. apply list_elem_of_here.
    + apply list_elem_of_fmap in Hp as (m & -> & [Hm| ->]%add_log_elem); [|done]. apply (Hkeep (m, [])), elem_of_app. right. apply list_elem_of_further.
      by apply (list_elem_of_fmap_2 (λ n, (n, []))).
Qed.

(** No flush is under way. *)
Definition not_flushing (b : Bg) : Prop :=
  match b with BgFlush f | BgGcFlush f _ => ∃ s, f = FlDone s ∧ ok s = false | _ => True end.

Lemma idle_not_flushing d hist b : bg_inv d hist b → imm_ d = None → not_flushing b.
Proof.
  intros Hb Hi. assert (∀ f, flush_inv d f → ∃ s, f = FlDone s ∧ ok s = false) as H.
  { intros [imm l n|l r|s]; cbn [flush_inv].
    - rewrite Hi. by intros [? _].
    - rewrite Hi. by intros (? & ? & ? & _).
    - intros Hs. exists s. split; [done|]. destruct (ok s); [|done]. destruct (Hs eq_refl) as (? & ? & E & _). by rewrite Hi in E. }
  destruct b; cbn [bg_inv not_flushing] in *; try done; [by apply H|]. destruct Hb as [Hf _]. by apply H.
Qed.

Lemma not_flushing_flushed b : not_flushing b → flushed b = false.
Proof. destruct b; cbn; try done; intros (s & -> & Hs); done. Qed.

Lemma not_flushing_files d d' b : not_flushing b → (∀ r, ready d r → ready d' r) → bg_files d b → bg_files d' b.
Proof.
  intros Hn Hr. destruct b; cbn [bg_files not_flushing] in *; try done.
  - by destruct Hn as (s & -> & _).
  - intros H. eapply Forall_impl; [exact H|exact Hr].
  - by destruct Hn as (s & -> & _).
Qed.

(** Tables stay when only logs change. *)
Lemma ready_same d d' r :
  dir_ d' = dir_ d → (0 < ref_number r < 2 ^ 64 → disk d' !! SstPath (dir_ d) (ref_number r) = disk d !! SstPath (dir_ d) (ref_number r)) →
  ready d r → ready d' r.
Proof. intros Ed Hs [Hn Ho]. split; [done|]. rewrite Ed. eapply on_file_same; [by apply Hs|done]. Qed.

Section rotate.
Context (S : System) (floor : Z) (old : list (Z * list version)) (cur : list version) (later : list Z).
Context (Hdu : durable S floor old cur later) (Hnf : not_flushing (sys_bg S)) (Himm : imm_ (sys_db S) = None).
Context (Hno : numbers_ok (sys_db S)).

Let d := sys_db S.
Let n := log_number_ (wal_ d).
Let N := next_file_number_ d.

Lemma new_log_bounds : n < N < 2 ^ 64 ∧ 0 ≤ n.
Proof using Hdu.
  pose proof (du_number _ _ _ _ _ Hdu). pose proof (du_files _ _ _ _ _ Hdu). pose proof (log_number_ok _ _ _ _ _ Hdu) as [_ ?].
  unfold n, N, d. lia.
Qed.

(** The new file is on disk, whether it becomes the log or not. *)
Lemma created_disk f' :
  f' !! LogPath (dir_ d) N = Some [] → (∀ path, path ≠ LogPath (dir_ d) N → f' !! path = disk d !! path) →
  on_disk f' (dir_ d) (current_ d) (vlogs_ (vsep_ d)) (vsep_enabled_ (vsep_ d)) floor (all_logs n old cur (add_log N later)) ∧
  ∀ r, 0 < ref_number r < 2 ^ 64 → f' !! SstPath (dir_ d) (ref_number r) = disk d !! SstPath (dir_ d) (ref_number r).
Proof using Hdu.
  intros H1 H2. pose proof new_log_bounds. split.
  - eapply on_disk_new_log; [apply Hdu|apply Hdu|apply Hdu|lia|done|done].
  - intros r Hr. apply H2. apply (path_ne (dir_ d) (FnSst _) (FnLog _)); [cbn; lia|cbn; lia|done].
Qed.

Lemma not_open_new : ¬ open_path d (LogPath (dir_ d) N).
Proof using Hdu.
  pose proof new_log_bounds. intros [E|(x & Hx & E)].
  - apply (path_of_inj _ (FnLog N) (FnLog _)) in E; [injection E; fold n; lia|cbn; lia|cbn; fold n; lia].
  - apply (path_of_inj _ (FnLog N) (FnVlog _)) in E; [done|cbn; lia|]. by eapply (vlog_numbered _ _ _ _ _ _ _ (du_disk _ _ _ _ _ Hdu)).
Qed.

Lemma durable_created :
  durable (mkSystem (set_fs (<[LogPath (dir_ d) N := []]> (fs d)) d) (sys_bg S)) floor old cur (add_log N later).
Proof using Hdu Hnf Himm.
  set (d' := set_fs _ d).
  destruct (created_disk (disk d')) as [Hod Hsst].
  { unfold d'. rewrite disk_set_fs_closed by apply not_open_new. apply lookup_insert_eq. }
  { intros path Hp. unfold d'. apply disk_set_fs. by apply lookup_insert_ne. }
  pose proof Hdu as [_ D2 D3 D4 D5 D6 D7 D8 D9]. split; cbn [sys_db sys_bg]; try done.
  - rewrite Forall_forall in D6 |- *. intros m [Hm| ->]%add_log_elem; [by apply D6|done].
  - eapply not_flushing_files; [done| |exact D9]. intros r. apply ready_same; [done|]. apply Hsst.
Qed.

Lemma durable_rotated w' seq :
  log_number_ w' = N → log_writer_ w' = log.mkWriter [] 0 → ring_ w' = None → seq = next_seq_ d → N + 2 < 2 ^ 63 →
  durable (mkSystem (mkDB (<[LogPath (dir_ d) n := log.w_file (log_writer_ (wal_ d))]> (<[LogPath (dir_ d) N := []]> (fs d)))
                      (dir_ d) (options_ d) w' new_MemTable (Some (mem_ d)) n (N + 1) (current_ d) seq (snapshots_ d)
                      (N + 2) (vsep_ d) (stats_ d) (exit_ d) (compaction_disabled_ d) (last_error_ d)) (sys_bg S))
    floor (old ++ (n, cur) :: empty_logs (filter (λ m, m ≠ N) later)) [] [].
Proof using Hdu Hnf Himm Hno.
  intros Hn Hw Hr Hs HN. set (d' := mkDB _ _ _ _ _ _ _ _ _ _ _ _ _ _ _ _ _). pose proof new_log_bounds as Hb.
  assert (∀ path, path ≠ LogPath (dir_ d) N → disk d' !! path = disk d !! path) as Hsame.
  { intros path Hp. rewrite !disk_vlogs. cbn [d' dir_ vsep_ wal_ fs]. rewrite Hn, Hw. fold n. apply write_vlogs_ext.
    rewrite lookup_insert_ne by done. destruct (decide (path = LogPath (dir_ d) n)) as [->|Hpn]; [by rewrite !lookup_insert_eq|].
    by rewrite !lookup_insert_ne. }
  assert (disk d' !! LogPath (dir_ d) N = Some []) as Hnew.
  { rewrite disk_vlogs, write_vlogs_other; cbn [d' dir_ vsep_ wal_]; [rewrite Hn, Hw; apply lookup_insert_eq|].
    intros x Hx E. apply not_open_new. right. by exists x. }
  destruct (created_disk (disk d') Hnew Hsame) as [Hod Hsst].
  pose proof Hdu as [_ D2 D3 D4 D5 D6 D7 D8 D9]. rewrite Himm in D8. fold d in D8.
  split; cbn [sys_db sys_bg]; try done.
  - cbn [d' wal_ dir_ current_ vsep_]. rewrite Hn. unfold all_logs, add_log, empty_logs in *. rewrite fmap_app in Hod. cbn [fmap list_fmap] in Hod.
    by rewrite <- app_assoc.
  - cbn [d' wal_]. by rewrite Hw.
  - cbn [d' wal_ next_file_number_]. lia.
  - cbn [d' imm_ mem_ imm_log_number_ imm_sst_number_ wal_]. rewrite (not_flushing_flushed _ Hnf), mem_versions_new, Hn. split; [done|]. split; [lia|]. split.
    + rewrite D8, fmap_app, fmap_cons, concat_app. cbn [concat snd]. by rewrite concat_empty_logs, app_nil_r.
    + unfold fresh_sst. cbn [d' current_ next_file_number_]. pose proof (no_next _ Hno) as Hnx. fold d N in Hnx. rewrite Forall_forall in Hnx.
      split; [lia|]. split.
      * intros (r & E & Hr')%list_elem_of_fmap. specialize (Hnx r Hr'). lia.
      * apply Forall_forall. intros r Hr'. specialize (Hnx r ltac:(apply elem_of_app; by left)). lia.
  - eapply not_flushing_files; [done| |exact D9]. intros r. apply ready_same; [done|]. apply Hsst.
Qed.

Lemma durable_rotate strerror env s d' :
  RotateForFlush strerror env d = Some (s, d') → sized d' →
  ∃ old' cur' later', durable (mkSystem d' (sys_bg S)) floor old' cur' later'.
Proof using Hdu Hnf Himm Hno.
  pose proof (du_ring _ _ _ _ _ Hdu) as Hr. fold d in Hr. unfold RotateForFlush, io_uring_active_. rewrite Hr. unfold and_then. cbn [mbind option_bind].
  change (ok Ok) with true. cbv iota zeta. fold N n. intros E Hz.
  assert (durable (mkSystem d (sys_bg S)) floor old cur later) as Hsame by (unfold d; by destruct S).
  destruct (ro_open env); [injection E as <- <-; by exists old, cur, later|].
  destruct (ro_fsync env); [injection E as <- <-; exists old, cur, (add_log N later); apply durable_created|].
  destruct (ok (SyncDir _ _ _)); cbn [negb] in E; injection E as <- <-.
  - eexists _, _, _. eapply durable_rotated; try done. apply (sz_number _ Hz).
  - exists old, cur, (add_log N later). apply durable_created.
Qed.

End rotate.

(** ** The users' calls *)

Lemma rotated_wal strerror env d s d' :
  ring_ (wal_ d) = None → RotateForFlush strerror env d = Some (s, d') → ok s = true →
  log_writer_ (wal_ d') = log.mkWriter [] 0 ∧ ring_ (wal_ d') = None.
Proof.
  intros Hr. unfold RotateForFlush, io_uring_active_. rewrite Hr. unfold and_then. cbn [mbind option_bind]. change (ok Ok) with true. cbv iota zeta.
  destruct (ro_open env); [by intros [= <- <-]|]. destruct (ro_fsync env); [by intros [= <- <-]|].
  destruct (ok (SyncDir _ _ _)) eqn:Es; cbn [negb]; intros [= <- <-]; [done|]. intros H. cbn [set_fs dir_] in Es. congruence.
Qed.

Lemma vlogs_ok_of next vs : values_ok next vs → Forall vlog.vlog_ok (vlogs_ vs).
Proof. intros Hv. eapply Forall_impl; [apply Hv|]. by intros x [? _]. Qed.

Lemma durable_write_op strerror S floor old cur later hist M env type key value s d' :
  durable S floor old cur later → sys_inv S hist M → db_limits (sys_db S) → write_limits env key value (sys_db S) →
  clean_entry (pe_entry env) → type = kTypeValue ∨ type = kTypeDeletion →
  write_op strerror env type key value (sys_db S) = Some (Some (s, d')) → sized d' → Forall vlog.vlog_ok (vlogs_ (vsep_ d')) →
  ∃ old' cur' later', durable (mkSystem d' (sys_bg S)) floor old' cur' later'.
Proof.
  intros Hdu [Hda Hb] Hl (Hk & Hkv & Hroom & Happ) He Hty E Hz Hok. unfold write_op in E. destruct (imm_ (sys_db S)) as [m|] eqn:Hi; [done|].
  pose proof (idle_not_flushing _ _ _ Hb Hi) as Hnf. unfold and_then in E.
  pose proof (λ d' s, durable_rotate S floor old cur later Hdu Hnf Hi (di_numbers _ _ (da_db _ _ _ Hda)) strerror (pe_rotate env) s d') as Hrot.
  destruct (write_buffer_size (options_ (sys_db S)) <=? mem_ApproximateSize (mem_ (sys_db S))).
  - destruct (RotateForFlush_inv strerror (pe_rotate env) (sys_db S) hist (da_db _ _ _ Hda) Hi) as (s0 & d0 & E0 & Hd0 & Ht0 & Ev0 & En0 & _).
    rewrite E0 in E. cbn [mbind option_bind] in E. destruct (ok s0) eqn:Es0.
    + destruct (WriteEntry _ _ _ _ _ _ _) as [[s1 d1]|] eqn:Ew; [|done]. cbn [mbind option_bind] in E. injection E as <- <-.
      destruct (rotated_wal _ _ _ _ _ (du_ring _ _ _ _ _ Hdu) E0 Es0) as [Hw0 Hr0].
      pose proof (WriteEntry_same strerror (pe_entry env) type key value true d0 s1 d1 Hr0 He Ew) as Hs.
      assert (sized d0) as Hz0.
      { destruct Hz as [Z1 _ Z3], Hs. split; [by rewrite <- sf_files0|by rewrite Hw0|by rewrite <- sf_fs0]. }
      destruct (Hrot d0 s0 E0 Hz0) as (o & c & l & H0).
      assert (data_inv d0 hist M) as Hda0 by (eapply data_frame; [done|done|done|apply Ht0|apply Ht0]).
      destruct (durable_entry strerror (mkSystem d0 (sys_bg S)) floor o c l hist M (pe_entry env) type key value true s1 d1 H0 Hda0) as (c' & H);
        [cbn; rewrite En0; apply Hl|done..|]. by exists o, c', l.
    + injection E as <- <-. by apply (Hrot d0 s0).
  - cbn [mbind option_bind] in E. change (ok Ok) with true in E. cbv iota in E. destruct (WriteEntry _ _ _ _ _ _ _) as [[s1 d1]|] eqn:Ew; [|done].
    cbn [mbind option_bind] in E. injection E as <- <-.
    destruct (durable_entry strerror S floor old cur later hist M (pe_entry env) type key value true s1 d1 Hdu Hda (dl_seq _ Hl) Hk Hkv He Hty Ew Hok Hz) as (c & H).
    by exists old, c, later.
Qed.
