(* ===== verification/DbInstall.v ===== *)
(** * The background thread and the directory

    Every section of the background thread leaves the directory recoverable:
    tables are written before the MANIFEST names them ([durable_flush_build],
    [durable_merge]), the MANIFEST is replaced in one step, and files are
    unlinked when it no longer names them ([durable_flush_install],
    [durable_compact_install], [durable_gc_rotate], [durable_gc_retire]). *)

From S2P Require Import Prelude Status FsUtil Encoding Log VLog LruCache InternalKey Mvcc Layers Iterator Block.
From S2P Require Import SSTable TableSize Manifest SkipList MemTable Merge Db DbRead DbInv DbFlush DbPick DbMerge DbCompact.
From S2P Require Import DbValues DbScan DbSystem DbLogs DbRefine DbOpen DbBackground DbCollect DbCorrect DbRounds DbFiles DbDisk DbDurable.
Import db.

(** ** Writing tables *)

(** Nothing changes but the files of tables with numbers in [P], and
    counters. *)
Record ssts_written (P : Z → Prop) (d d' : DB) : Prop := {
  sw_dir : dir_ d' = dir_ d;
  sw_wal : wal_ d' = wal_ d;
  sw_vsep : vsep_ d' = vsep_ d;
  sw_mem : mem_ d' = mem_ d;
  sw_imm : imm_ d' = imm_ d;
  sw_imm_sst : imm_sst_number_ d' = imm_sst_number_ d;
  sw_imm_log : imm_log_number_ d' = imm_log_number_ d;
  sw_current : current_ d' = current_ d;
  sw_files : next_file_number_ d ≤ next_file_number_ d';
  sw_fs : ∀ path, fs d' !! path = fs d !! path ∨ ∃ m, P m ∧ path = SstPath (dir_ d) m
}.

Lemma ssts_written_trans P a b c : ssts_written P a b → ssts_written P b c → ssts_written P a c.
Proof.
  intros [] []. split; try congruence; [lia|]. intros path. destruct (sw_fs1 path) as [->|(m & Hm & ->)]; [apply sw_fs0|right].
  exists m. by rewrite sw_dir0.
Qed.

Lemma ssts_written_mono (P Q : Z → Prop) d d' : (∀ m, P m → Q m) → ssts_written P d d' → ssts_written Q d d'.
Proof.
  intros Hpq []. split; try done. intros path. destruct (sw_fs0 path) as [?|(m & Hm & ?)]; [by left|right]. exists m. auto.
Qed.

Lemma WriteFileDurable_other env f path data p : p ≠ path → (WriteFileDurable env f path data).2 !! p = f !! p.
Proof.
  intros Hp. unfold WriteFileDurable. destruct (we_open env); [done|]. destruct (write_loop _ data) as [out err].
  destruct err; [by apply lookup_insert_ne|]. destruct (we_fsync env); by apply lookup_insert_ne.
Qed.

Lemma finish_table_files env b number level what d s r d' :
  finish_table env b number level what d = Some (s, r, d') →
  ssts_written (λ m, m = number) d d' ∧ next_file_number_ d' = next_file_number_ d ∧
  match r with
  | Some r => ref_number r = number ∧ ∃ data, fs d' !! SstPath (dir_ d) number = Some data ∧ sst.open_data number data = Some (inr (table r))
  | None => True
  end.
Proof.
  unfold finish_table, sst.Finish. destruct (sst.finish_image b) as [file b']. cbv zeta.
  pose proof (WriteFileDurable_other (te_write env) (fs d) (SstPath (dir_ d) number) file) as Hother.
  pose proof (WriteFileDurable_ok_aux (te_write env) (fs d) (SstPath (dir_ d) number) file) as Hw.
  destruct (WriteFileDurable _ _ _ file) as [sw f]. cbn [fst snd] in *.
  assert (ssts_written (λ m, m = number) d (set_fs f d)) as Hs.
  { split; try done. intros path. destruct (decide (path = SstPath (dir_ d) number)) as [->|Hp]; [right; by exists number|left]. by apply Hother. }
  destruct (ok sw); cbn [negb]; [|by intros [= <- <- <-]]. unfold sst.Open. cbn [fs set_fs].
  assert (f !! SstPath (dir_ d) number = Some file) as Hf by (rewrite Hw by done; apply lookup_insert_eq).
  destruct (ReadFileToString_any (te_reads env) f _ _ (te_open env) [] Hf) as (o & s2 & -> & Hok). cbn [mbind option_bind].
  destruct (ok s2); cbn [negb mbind option_bind]; [|by intros [= <- <- <-]]. destruct (Hok eq_refl) as [-> _].
  destruct (sst.open_data number file) as [[msg|t]|] eqn:Eo; cbn [mbind option_bind]; [by intros [= <- <- <-]| |done].
  intros [= <- <- <-]. split_and!; [done|done|done|]. by exists file.
Qed.

Lemma unlink_other removed path f p : p ≠ path → unlink removed path f !! p = f !! p.
Proof. intros Hp. unfold unlink. destruct (removed path); [by apply lookup_delete_ne|done]. Qed.

Lemma unlink_gone removed path f p : unlink removed path f !! p = f !! p ∨ (unlink removed path f !! p = None ∧ p = path).
Proof.
  destruct (decide (p = path)) as [->|Hp]; [|left; by apply unlink_other]. unfold unlink.
  destruct (removed path); [right; by rewrite lookup_delete_eq|by left].
Qed.

Lemma flush_build_files env imm n d s r d' :
  flush_build env imm n d = Some (s, r, d') →
  ssts_written (λ m, m = n) d d' ∧ next_file_number_ d' = next_file_number_ d ∧
  match r with
  | Some r => ref_number r = n ∧ ∃ data, fs d' !! SstPath (dir_ d) n = Some data ∧ sst.open_data n data = Some (inr (table r))
  | None => True
  end.
Proof.
  unfold flush_build. destruct (ForEach imm) as [args|]; [|done]. cbn [mbind option_bind]. destruct (add_foreach _ args) as [s0 b].
  assert (∀ d1, ssts_written (λ m, m = n) d d1 → next_file_number_ d1 = next_file_number_ d →
    ssts_written (λ m, m = n) d (set_fs (unlink (te_unlink env) (SstPath (dir_ d1) n) (fs d1)) d1)) as Hun.
  { intros d1 [] _. split; try done. intros path. cbn [set_fs fs]. rewrite sw_dir0.
    destruct (decide (path = SstPath (dir_ d) n)) as [->|Hp]; [right; by exists n|]. rewrite unlink_other by done. apply sw_fs0. }
  destruct (ok s0).
  - destruct (finish_table _ _ _ _ _ _) as [[[s1 r1] d1]|] eqn:E; [|done]. cbn [mbind option_bind].
    destruct (finish_table_files _ _ _ _ _ _ _ _ _ E) as (Hs & Hn & Hr). destruct r1 as [r1|]; intros [= <- <- <-].
    + split_and!; [by destruct Hs|done|apply Hr|apply Hr].
    + split_and!; [by apply Hun|done|done].
  - cbn [mbind option_bind]. intros [= <- <- <-]. split_and!; [|done|done]. apply (Hun d); [split; try done|done]. intros path. by left.
Qed.

Section tables.
Context (S : System) (floor : Z) (old : list (Z * list version)) (cur : list version) (later : list Z).
Context (Hdu : durable S floor old cur later).

Let d := sys_db S.

Lemma ssts_disk P d' path :
  ssts_written P d d' → (∀ m, P m → 0 < m < 2 ^ 64) → disk d' !! path = disk d !! path ∨ ∃ m, P m ∧ path = SstPath (dir_ d) m.
Proof using Hdu.
  intros Hs HP. destruct (sw_fs _ _ _ Hs path) as [E|H]; [left|by right].
  assert (disk d' = disk (set_fs (fs d') d)) as ->; [|by apply disk_set_fs].
  rewrite !disk_vlogs. cbn [set_fs fs dir_ vsep_ wal_]. by rewrite (sw_dir _ _ _ Hs), (sw_wal _ _ _ Hs), (sw_vsep _ _ _ Hs).
Qed.

Lemma ssts_closed P d' m : ssts_written P d d' → 0 ≤ m < 2 ^ 64 → disk d' !! SstPath (dir_ d) m = fs d' !! SstPath (dir_ d) m.
Proof using Hdu.
  intros Hs Hm. apply disk_closed. unfold open_path. rewrite (sw_dir _ _ _ Hs), (sw_wal _ _ _ Hs), (sw_vsep _ _ _ Hs).
  apply (closed_path S floor old cur later Hdu (FnSst m)); [done|by left].
Qed.

Lemma ssts_ready P d' r :
  ssts_written P d d' → (∀ m, P m → 0 < m < 2 ^ 64) → ¬ P (ref_number r) → ready d r → ready d' r.
Proof using Hdu.
  intros Hs HP Hr. apply ready_same; [apply Hs|]. intros Hn. destruct (ssts_disk P d' (SstPath (dir_ d) (ref_number r)) Hs HP) as [?|(m & Hm & E)]; [done|].
  apply (path_of_inj _ (FnSst _) (FnSst _)) in E; [injection E as E; by rewrite E in Hr|cbn; lia|]. specialize (HP m Hm). cbn. lia.
Qed.

Lemma durable_ssts P d' b' :
  ssts_written P d d' → (∀ m, P m → 0 < m < 2 ^ 64 ∧ m ∉ ref_number <$> version_refs (current_ d)) →
  next_file_number_ d' < 2 ^ 63 → flushed b' = flushed (sys_bg S) → bg_files d' b' → durable (mkSystem d' b') floor old cur later.
Proof using Hdu.
  intros Hs HP Hn Hfl Hb. assert (∀ m, P m → 0 < m < 2 ^ 64) as HP' by (intros m Hm; by apply HP).
  pose proof (du_disk _ _ _ _ _ Hdu) as Hod. fold d in Hod.
  assert (∀ x, numbered x → (∀ m, P m → x ≠ FnSst m) → disk d' !! path_of (dir_ d) x = disk d !! path_of (dir_ d) x) as Hne.
  { intros x Hx Hxm. destruct (ssts_disk P d' (path_of (dir_ d) x) Hs HP') as [?|(m & Hm & E)]; [done|].
    apply (path_of_inj _ x (FnSst m)) in E; [by destruct (Hxm m Hm)|done|]. specialize (HP' m Hm). cbn. lia. }
  assert (on_disk (disk d') (dir_ d) (current_ d) (vlogs_ (vsep_ d)) (vsep_enabled_ (vsep_ d)) floor (all_logs (log_number_ (wal_ d)) old cur later)) as Hod'.
  { apply (on_disk_agree (disk d)); [done| | | | | |].
    - intros path Hp. destruct (ssts_disk P d' path Hs HP') as [E|(m & Hm & ->)].
      + rewrite E in Hp. by apply (od_known _ _ _ _ _ _ _ Hod).
      + exists (FnSst m). split; [specialize (HP' m Hm); cbn; lia|done].
    - by apply (Hne FnManifest).
    - intros r Hr. apply (Hne (FnSst (ref_number r))); [by eapply ref_numbered; [apply Hdu|]|]. intros m Hm [= E].
      destruct (HP m Hm) as [_ Hno]. apply Hno. rewrite <- E. by apply list_elem_of_fmap_2.
    - intros m Hm. pose proof (od_floor _ _ _ _ _ _ _ Hod). apply (Hne (FnLog m)); [cbn; lia|done].
    - intros x Hx. f_equal. apply (Hne (FnVlog (vlog.number_ x))); [by eapply vlog_numbered|done].
    - intros Hsep m Hm. pose proof (od_sep _ _ _ _ _ _ _ Hod) as Hsp. rewrite Hsep in Hsp. destruct Hsp as [_ Hsp]. rewrite <- (Hsp m Hm).
      by apply (Hne (FnVlog m)). }
  pose proof Hdu as [_ D2 D3 D4 D5 D6 D7 D8 _]. fold d in D2, D3, D4, D5, D6, D7, D8. destruct Hs.
  split; cbn [sys_db sys_bg]; try congruence.
  - rewrite sw_wal0. lia.
  - eapply Forall_impl; [exact D6|]. simpl. intros m ?. lia.
  - rewrite sw_imm0, sw_mem0, sw_imm_log0, sw_imm_sst0, sw_wal0, Hfl. destruct (imm_ d); [|done]. destruct D8 as (? & ? & D8). split; [done|]. split; [done|].
    destruct (flushed (sys_bg S)); [done|]. destruct D8 as [? (? & ? & ?)]. split; [done|]. unfold fresh_sst. rewrite sw_current0. split_and!; [lia|lia|done|done].
Qed.

End tables.

(** ** A new MANIFEST *)

Lemma AddRecord_grows sched w p : len (log.w_file w) ≤ len (log.w_file (log.AddRecord sched w p).2).
Proof.
  unfold log.AddRecord, log.WriteAll. destruct (write_loop sched _) as [out err].
  assert (len (log.w_file w) ≤ len (log.w_file w ++ out)) by (rewrite len_app; pose proof (len_nonneg out); lia). by destruct err.
Qed.

Lemma add_records_grows w rs : len (log.w_file w) ≤ len (log.w_file (log.add_records w rs).2).
Proof.
  revert w. induction rs as [|[sched p] rs IH]; intros w; [done|]. cbn [log.add_records].
  pose proof (AddRecord_grows sched w p). destruct (log.AddRecord sched w p) as [s w']. cbn [snd] in *.
  destruct (ok s); [|done]. by etrans.
Qed.

Lemma add_records_file w rs :
  log.writer_ok w → ok (log.add_records w rs).1 = true → len (log.w_file (log.add_records w rs).2) < 2 ^ 64 →
  log.w_file (log.add_records w rs).2 = log.wal_image (log.w_file w) rs.*2.
Proof.
  revert w. induction rs as [|[sched p] rs IH]; intros w Hw Hok Hlt; [done|]. cbn [log.add_records] in *.
  pose proof (AddRecord_file sched w p Hw) as Hadd. destruct (log.AddRecord sched w p) as [s w']. cbn [fst snd] in Hadd.
  destruct (ok s) eqn:Es; [|cbn [fst] in Hok; congruence]. pose proof (add_records_grows w' rs).
  specialize (Hadd eq_refl ltac:(lia)). rewrite IH; [by rewrite Hadd|by rewrite Hadd|done|done].
Qed.

Lemma with_writes_payloads scheds ps : (with_writes scheds ps).*2 = ps.
Proof. revert scheds. induction ps as [|p ps IH]; intros scheds; [done|]. cbn [with_writes]. rewrite fmap_cons, IH. done. Qed.

(** The MANIFEST of a state. *)
Definition manifest_image (d : DB) : bytes :=
  log.wal_image [] (manifest_records (manifest_metas (current_ d)) (vlog.number_ <$> vlogs_ (vsep_ d)) (log_number_ (wal_ d))).

Definition with_manifest (d : DB) (f : files) : files := <[ManifestPath (dir_ d) := manifest_image d]> (delete (ManifestTmpPath (dir_ d)) f).

Lemma WriteManifest_files env d :
  manifest_env_fine env → (∀ data, fs (WriteManifest env d).2 !! ManifestPath (dir_ d) = Some data → len data < 2 ^ 63) →
  WriteManifest env d = (Ok, set_fs (with_manifest d (fs d)) d).
Proof.
  intros Hf. pose proof (WriteManifest_fine env d Hf) as Hok. destruct Hf as [E1 E2 E3 E4 E5 E6]. revert Hok. unfold WriteManifest. rewrite E1.
  pose proof (add_records_fine (log.mkWriter [] 0) _ (with_writes_fine (me_writes env)
    (manifest_records (manifest_metas (current_ d)) (vlog.number_ <$> vlogs_ (vsep_ d)) (log_number_ (wal_ d))) E2)) as Ha.
  pose proof (add_records_file (log.mkWriter [] 0) (with_writes (me_writes env)
    (manifest_records (manifest_metas (current_ d)) (vlog.number_ <$> vlogs_ (vsep_ d)) (log_number_ (wal_ d)))) eq_refl Ha) as Hw.
  destruct (log.add_records _ _) as [result writer]. cbn [fst snd] in *. cbv zeta. rewrite Ha, E3. cbv iota. rewrite Ha. cbn [negb].
  rewrite E4. unfold SyncDir. rewrite E5, E6. intros _ Hl. cbn [snd set_fs fs] in Hl. rewrite lookup_insert_eq in Hl. specialize (Hl _ eq_refl).
  rewrite Hw by lia. rewrite with_writes_payloads. unfold with_manifest, manifest_image. by rewrite delete_insert_eq.
Qed.

Lemma with_manifest_at d f : with_manifest d f !! ManifestPath (dir_ d) = Some (manifest_image d).
Proof. apply lookup_insert_eq. Qed.

Lemma with_manifest_other d f x :
  numbered x → x ≠ FnManifest → x ≠ FnTmp → with_manifest d f !! path_of (dir_ d) x = f !! path_of (dir_ d) x.
Proof.
  intros Hx H1 H2. unfold with_manifest. rewrite lookup_insert_ne, lookup_delete_ne; [done| |].
  - intros E. apply (path_of_inj _ FnTmp x) in E; [by subst|done|done].
  - intros E. apply (path_of_inj _ FnManifest x) in E; [by subst|done|done].
Qed.

Lemma with_manifest_known d f : known (dir_ d) f → known (dir_ d) (with_manifest d f).
Proof. intros Hk. unfold with_manifest. apply (known_insert _ _ FnManifest _); [|done]. apply (known_sub _ f); [done|]. intros path Hp. by apply lookup_delete_is_Some in Hp as [_ ?]. Qed.

Lemma filter_all_logs n old cur later :
  sorted_by Z.ltb (all_logs n old cur later).*1 → filter (λ p, n ≤ p.1) (all_logs n old cur later) = all_logs n [] cur later.
Proof.
  rewrite all_logs_numbers. intros Hs. unfold all_logs. rewrite filter_app. cbn [app].
  assert (∀ m, m ∈ old.*1 → m < n) as Hlo.
  { intros m Hm. apply Z.ltb_lt. apply sorted_by_app in Hs as (_ & _ & Hs). apply Hs; [done|apply list_elem_of_here]. }
  assert (∀ m, m ∈ later → n < m) as Hhi.
  { intros m Hm. apply Z.ltb_lt. apply sorted_by_app in Hs as (_ & [Hs _] & _). rewrite Forall_forall in Hs. by apply Hs. }
  replace (filter (λ p : Z * list version, n ≤ p.1) old) with (@nil (Z * list version)).
  - rewrite app_nil_l, filter_cons_True by (cbn; lia). f_equal. apply filter_all, Forall_forall. intros p (m & -> & Hm)%list_elem_of_fmap. cbn. specialize (Hhi m Hm). lia.
  - symmetry. apply filter_none, Forall_forall. intros p Hp. specialize (Hlo p.1 (list_elem_of_fmap_2 fst _ _ Hp)). lia.
Qed.

Section publish.
Context (S : System) (floor : Z) (old : list (Z * list version)) (cur : list version) (later : list Z).
Context (Hdu : durable S floor old cur later).

Let d := sys_db S.
Let n := log_number_ (wal_ d).

(** The directory after a MANIFEST that names [v'] and [vs'] and hides the
    older logs. *)
Lemma publish_disk f' v' vs' :
  known (dir_ d) f' →
  f' !! ManifestPath (dir_ d) = Some (log.wal_image [] (manifest_records (manifest_metas v') (vlog.number_ <$> vs') n)) →
  filed v' → Forall (on_file (dir_ d) (disk d)) (version_refs v') →
  (∀ r, r ∈ version_refs v' → f' !! SstPath (dir_ d) (ref_number r) = disk d !! SstPath (dir_ d) (ref_number r)) →
  (∀ m, n ≤ m < 2 ^ 64 → f' !! LogPath (dir_ d) m = disk d !! LogPath (dir_ d) m) →
  Forall (λ x, default [] (disk d !! VlogPath (dir_ d) (vlog.number_ x)) = vlog.v_file x ∧ vlog.vlog_ok x) vs' →
  (∀ x, x ∈ vs' → default [] (f' !! VlogPath (dir_ d) (vlog.number_ x)) = default [] (disk d !! VlogPath (dir_ d) (vlog.number_ x))) →
  ascending 0 (vlog.number_ <$> vs') → Forall (λ n, n < 2 ^ 64) (vlog.number_ <$> vs') →
  (if vsep_enabled_ (vsep_ d) then vs' ≠ [] else vs' = []) →
  (vsep_enabled_ (vsep_ d) = false → ∀ m, 0 ≤ m < 2 ^ 64 → f' !! VlogPath (dir_ d) m = None) →
  on_disk f' (dir_ d) v' vs' (vsep_enabled_ (vsep_ d)) n (all_logs n [] cur later).
Proof using Hdu.
  intros Hk Hm Hv Ho Ht Hl Hvl Hvs Ha Hb Hsep Hnone. pose proof (du_disk _ _ _ _ _ Hdu) as Hod. fold d n in Hod.
  pose proof (log_number_ok _ _ _ _ _ Hdu) as [Hf Hn]. fold d n in Hf, Hn.
  set (d0 := set_vsep (set_vlogs vs' None (vsep_ d)) (set_current v' d)).
  rewrite <- (filter_all_logs n old) by apply Hod.
  apply (on_disk_agree (with_manifest d0 (disk d))); try done.
  - apply (on_disk_publish _ _ _ _ _ _ _ Hod); try done.
    + apply (with_manifest_known d0), Hod.
    + intros x. apply (with_manifest_other d0).
    + apply (with_manifest_at d0).
    + lia.
  - rewrite Hm. symmetry. apply (with_manifest_at d0).
  - intros r Hr. rewrite Ht by done. symmetry. apply (with_manifest_other d0 (disk d) (FnSst (ref_number r))); [by eapply ref_numbered|done|done].
  - intros m Hmm. rewrite Hl by done. symmetry. apply (with_manifest_other d0 (disk d) (FnLog m)); [cbn; lia|done|done].
  - intros x Hx. rewrite Hvs by done. f_equal. symmetry. apply (with_manifest_other d0 (disk d) (FnVlog (vlog.number_ x))); [|done|done].
    pose proof (proj2 (ascending_sorted _ _ Ha)) as Hpos. rewrite Forall_forall in Hpos, Hb.
    specialize (Hpos _ (list_elem_of_fmap_2 _ _ _ Hx)). specialize (Hb _ (list_elem_of_fmap_2 _ _ _ Hx)). cbn in *. lia.
Qed.

(** The state after it. *)
Lemma durable_published d' b' :
  on_disk (disk d') (dir_ d) (current_ d') (vlogs_ (vsep_ d')) (vsep_enabled_ (vsep_ d)) n (all_logs n [] cur later) →
  filed (current_ d') → dir_ d' = dir_ d → log_number_ (wal_ d') = n → log_writer_ (wal_ d') = log_writer_ (wal_ d) → ring_ (wal_ d') = None →
  vsep_enabled_ (vsep_ d') = vsep_enabled_ (vsep_ d) → next_file_number_ d ≤ next_file_number_ d' < 2 ^ 63 →
  mem_ d' = mem_ d → imm_ d' = imm_ d → imm_log_number_ d' = imm_log_number_ d → bg_files d' b' →
  (imm_ d = None ∧ concat old.*2 = []) ∨ (is_Some (imm_ d) ∧ flushed b' = true) →
  durable (mkSystem d' b') n [] cur later.
Proof using Hdu.
  intros Hod Hv Ed En Ew Er Es Hnx Em Ei El Hb Hor. pose proof Hdu as [_ _ _ D4 D5 D6 D7 D8 _]. fold d n in D4, D5, D6, D7, D8.
  split; cbn [sys_db sys_bg]; try congruence.
  - rewrite En. lia.
  - eapply Forall_impl; [exact D6|]. simpl. intros m ?. lia.
  - lia.
  - rewrite Ei, Em, El, En. destruct Hor as [[Hi Ho]|[[imm Hi] Hfl]].
    + rewrite Hi in *. cbn [fmap list_fmap concat app]. by rewrite Ho in D8.
    + rewrite Hi in *. destruct D8 as (? & ? & _). by rewrite Hfl.
Qed.

End publish.

(** *** A new version *)

Lemma table_meta_ok r num level vs next :
  table_of r num level vs → Forall (version_fits next) vs → next < 2 ^ 64 → 0 < num < 2 ^ 64 → 0 ≤ level < kMaxLevels → meta_ok (meta r).
Proof.
  intros [_ _ Hn Hl _ [Hs1 Hs2] (Hc & Hc' & Hz) [Hk1 Hk2]] Hf Hnext Hnum Hlev. rewrite Forall_forall in Hf.
  assert (∀ s, s ∈ v_seq <$> vs → 0 ≤ s < 2 ^ 64) as Hseq by (intros s (v & -> & Hv)%list_elem_of_fmap; destruct (Hf v Hv); lia).
  assert (∀ k, k ∈ v_key <$> vs → len k < 2 ^ 32) as Hkey by (intros k (v & -> & Hv)%list_elem_of_fmap; destruct (Hf v Hv); lia).
  split.
  - unfold ref_number in Hn. lia.
  - lia.
  - split; by apply Hseq.
  - pose proof (len_nonneg vs). lia.
  - split; apply Hkey; [|by apply last_Some_elem_of]. destruct (v_key <$> vs); [done|]. injection Hk1 as ->. apply list_elem_of_here.
Qed.

Lemma filed_flush v r n vs next :
  filed v → table_of r n 0 vs → Forall (version_fits next) vs → next < 2 ^ 64 → 0 < n < 2 ^ 64 →
  n ∉ ref_number <$> version_refs v → Forall (λ r, ref_number r < n) (l0 v) → filed (mkVersionSet (r :: l0 v) (levels v)).
Proof.
  intros [F1 F2 F3 F4 F5 F6 F7] Ht Hf Hnext Hn Hnew Hlt. pose proof (to_number _ _ _ _ Ht) as En.
  split; cbn [l0 levels]; try done.
  - constructor; [by rewrite (to_level _ _ _ _ Ht)|done].
  - constructor; [|done]. by eapply table_meta_ok.
  - unfold version_refs. cbn [l0 levels app]. rewrite fmap_cons, En. by constructor.
  - split; [|done]. eapply Forall_impl; [exact Hlt|]. intros x Hx. cbn in Hx. unfold number_greater, ref_number in *. apply Z.ltb_lt. lia.
  - intros x u [->|Hx]%elem_of_cons Hu; [|by eapply F7]. rewrite (to_versions _ _ _ _ Ht) in Hu. pose proof (to_seqs _ _ _ _ Ht) as Hs.
    rewrite Forall_forall in Hs. by apply Hs.
Qed.

(** Other tables, the same logs. *)
Record reversioned (d d' : DB) : Prop := {
  rv_dir : dir_ d' = dir_ d;
  rv_wal : wal_ d' = wal_ d;
  rv_vsep : vsep_ d' = vsep_ d;
  rv_mem : mem_ d' = mem_ d;
  rv_imm : imm_ d' = imm_ d;
  rv_imm_log : imm_log_number_ d' = imm_log_number_ d;
  rv_files : next_file_number_ d' = next_file_number_ d
}.

Section version.
Context (S : System) (floor : Z) (old : list (Z * list version)) (cur : list version) (later : list Z).
Context (Hdu : durable S floor old cur later).

Let d := sys_db S.
Let n := log_number_ (wal_ d).

Lemma durable_version d' b' :
  reversioned d d' → filed (current_ d') → Forall (on_file (dir_ d) (disk d)) (version_refs (current_ d')) →
  known (dir_ d) (fs d') → fs d' !! ManifestPath (dir_ d) = Some (manifest_image d') →
  (∀ r, r ∈ version_refs (current_ d') → fs d' !! SstPath (dir_ d) (ref_number r) = fs d !! SstPath (dir_ d) (ref_number r)) →
  (∀ m, n ≤ m < 2 ^ 64 → fs d' !! LogPath (dir_ d) m = fs d !! LogPath (dir_ d) m) →
  (∀ m, 0 ≤ m < 2 ^ 64 → fs d' !! VlogPath (dir_ d) m = fs d !! VlogPath (dir_ d) m) → bg_files d' b' →
  (imm_ d = None ∧ concat old.*2 = []) ∨ (is_Some (imm_ d) ∧ flushed b' = true) →
  durable (mkSystem d' b') n [] cur later.
Proof using Hdu.
  intros [R1 R2 R3 R4 R5 R6 R7] Hv Ho Hk Hm Hs Hl Hvl Hb Hor. pose proof (du_disk _ _ _ _ _ Hdu) as Hod. fold d n in Hod.
  assert (disk d' = disk (set_fs (fs d') d)) as Ed by (rewrite !disk_vlogs, R1, R2, R3; done).
  assert (∀ path, fs d' !! path = fs d !! path → disk d' !! path = disk d !! path) as Hsame by (intros path E; rewrite Ed; by apply disk_set_fs).
  pose proof (du_files _ _ _ _ _ Hdu) as Hnx. fold d in Hnx. pose proof (log_number_ok _ _ _ _ _ Hdu) as [_ Hn]. fold d n in Hn.
  eapply durable_published; try done; try (rewrite ?R2, ?R3; done).
  - fold d n. rewrite R3. apply (publish_disk S floor old cur later Hdu); fold d n; try done.
    + rewrite Ed. by apply (known_disk _ _ _ _ _ Hdu).
    + rewrite Ed, disk_set_fs_closed; [|by eapply (closed_path _ _ _ _ _ Hdu FnManifest); [|right; left]]. rewrite Hm. unfold manifest_image. by rewrite R2, R3.
    + intros r Hr. by apply Hsame, Hs.
    + intros m Hmm. by apply Hsame, Hl.
    + apply Hod.
    + intros x Hx. f_equal. apply Hsame, Hvl. eapply vlog_numbered in Hx; [|exact Hod]. cbn in Hx. lia.
    + apply Hod.
    + apply Hod.
    + pose proof (od_sep _ _ _ _ _ _ _ Hod) as Hsep. destruct (vsep_enabled_ (vsep_ d)); [done|apply Hsep].
    + intros He m Hmm. rewrite (Hsame _ (Hvl m Hmm)). pose proof (od_sep _ _ _ _ _ _ _ Hod) as Hsep. rewrite He in Hsep. by apply Hsep.
  - rewrite R2. apply Hdu.
  - rewrite R7. fold d. lia.
Qed.

(** A MANIFEST for new tables, and files removed that it does not name. *)
Lemma durable_installed env d1 s d2 d' b' (gone : file_name → Prop) :
  manifest_env_fine env → reversioned d d1 → fs d1 = fs d → WriteManifest env d1 = (s, d2) → reversioned d2 d' → current_ d' = current_ d2 →
  (∀ path, fs d' !! path = fs d2 !! path ∨ (fs d' !! path = None ∧ ∃ x, gone x ∧ path = path_of (dir_ d) x)) →
  (∀ x, gone x → numbered x ∧ match x with FnSst m => m ∉ ref_number <$> version_refs (current_ d1) | FnLog m => m < n | _ => False end) →
  sized d' → filed (current_ d1) → Forall (on_file (dir_ d) (disk d)) (version_refs (current_ d1)) → bg_files d' b' →
  (imm_ d = None ∧ concat old.*2 = []) ∨ (is_Some (imm_ d) ∧ flushed b' = true) →
  durable (mkSystem d' b') n [] cur later.
Proof using Hdu.
  intros Hfine R1 Ef Ew R2 Ec Hgone Hok Hz Hv Ho Hb Hor. pose proof (rv_dir _ _ R1) as Ed.
  assert (∀ x, numbered x → ¬ gone x → fs d' !! path_of (dir_ d) x = fs d2 !! path_of (dir_ d) x) as Hkept.
  { intros x Hx Hng. destruct (Hgone (path_of (dir_ d) x)) as [?|(_ & y & Hy & E)]; [done|].
    apply path_of_inj in E as ->; [done|done|by apply Hok]. }
  assert ((s, d2) = (Ok, set_fs (with_manifest d1 (fs d1)) d1)) as [= -> ->].
  { rewrite <- Ew. apply WriteManifest_files; [done|]. rewrite Ew, Ed. cbn [snd]. intros data Hdata. apply (sz_files _ Hz (ManifestPath (dir_ d))).
    rewrite <- Hdata. apply (Hkept FnManifest); [done|]. by intros [_ ?]%Hok. }
  assert (∀ x, numbered x → ¬ gone x → x ≠ FnManifest → x ≠ FnTmp → fs d' !! path_of (dir_ d) x = fs d !! path_of (dir_ d) x) as Hsame.
  { intros x Hx H1 H2 H3. rewrite Hkept by done. cbn [set_fs fs]. rewrite Ef, <- Ed. by apply with_manifest_other. }
  assert (reversioned d d') as R by (destruct R1, R2; split; etrans; [|eassumption| |eassumption| |eassumption| |eassumption| |eassumption| |eassumption| |eassumption]; done).
  assert (current_ d' = current_ d1) as Ec1 by (by rewrite Ec).
  apply durable_version; rewrite ?Ec1; try done.
  - apply (known_sub _ (with_manifest d1 (fs d))); [rewrite <- Ed; apply with_manifest_known; rewrite Ed; apply (known_fs _ _ _ _ _ Hdu)|].
    intros path Hp. destruct (Hgone path) as [E|[E _]]; rewrite E in Hp; [by rewrite <- Ef|by destruct Hp].
  - etrans; [apply (Hkept FnManifest); [done|by intros [_ ?]%Hok]|]. change (path_of (dir_ d) FnManifest) with (ManifestPath (dir_ d)).
    rewrite <- Ed. cbn [set_fs fs]. rewrite with_manifest_at. unfold manifest_image. by rewrite Ec1, (rv_wal _ _ R2), (rv_vsep _ _ R2).
  - intros r Hr. apply (Hsame (FnSst (ref_number r))); [by eapply ref_numbered| |done|done]. intros [_ Hg]%Hok. apply Hg. by apply list_elem_of_fmap_2.
  - intros m Hm. pose proof (log_number_ok _ _ _ _ _ Hdu) as [_ Hn]. fold d n in Hn. apply (Hsame (FnLog m)); [cbn; lia| |done|done].
    intros [_ Hg]%Hok. lia.
  - intros m Hm. apply (Hsame (FnVlog m)); [done| |done|done]. by intros [_ Hg]%Hok.
Qed.

End version.

(** ** The flush *)

(** The flush of the loop, or of a collection. *)
Definition flush_phase (wrap : Flushing → Bg) : Prop :=
  ∀ f, flushed (wrap f) = match f with FlDone s => ok s | _ => false end ∧ ∀ d, bg_files d (wrap f) = flush_files d f.

Lemma loop_flush_phase : flush_phase BgFlush.
Proof. by intros [| |]. Qed.

Lemma gc_flush_phase x : flush_phase (λ f, BgGcFlush f x).
Proof. by intros [| |]. Qed.

Section flush.
Context (S : System) (floor : Z) (old : list (Z * list version)) (cur : list version) (later : list Z).
Context (Hdu : durable S floor old cur later) (hist : list version) (M : Map) (Hda : data_inv (sys_db S) hist M) (Hlim : db_limits (sys_db S)).
Context (wrap : Flushing → Bg) (Hwrap : flush_phase wrap).

Let d := sys_db S.
Let n := log_number_ (wal_ d).

Lemma durable_flush_build env imm log m f' d' :
  sys_bg S = wrap (FlBuild imm log m) → flush_inv d (FlBuild imm log m) → flush_step env (FlBuild imm log m) d = Some (f', d') →
  durable (mkSystem d' (wrap f')) floor old cur later.
Proof using Hdu Hda Hlim Hwrap.
  intros Eb [Ei _] E. pose proof (da_db _ _ _ Hda) as Hd. fold d in Hd. pose proof (di_imm _ _ Hd) as Hi. rewrite Ei in Hi.
  pose proof (imm_weight d imm Ei). pose proof (dl_weight _ Hlim) as Hw. fold d in Hw.
  destruct (flush_build_spec d hist Hd (fe_sst env) imm m Hi (λ v, imm_in_hist d hist imm v Hd Ei) ltac:(lia)) as (s & r & d1 & E1 & _ & _ & _ & _ & Hr).
  cbn [flush_step] in E. rewrite E1 in E. cbn [mbind option_bind] in E. injection E as <- <-.
  destruct (flush_build_files _ _ _ _ _ _ _ E1) as (Hs & En & Hf).
  pose proof (du_bg _ _ _ _ _ Hdu) as Hb. rewrite Eb in Hb. rewrite (proj2 (Hwrap _)) in Hb. cbn [flush_files] in Hb. fold d n in Hb. destruct Hb as [Hlog ->].
  pose proof (du_mem _ _ _ _ _ Hdu) as Hm. fold d in Hm. rewrite Ei, Eb, (proj1 (Hwrap _)) in Hm. destruct Hm as (_ & _ & _ & (Hb & Hnew & _)).
  pose proof (du_files _ _ _ _ _ Hdu) as Hnx. fold d in Hnx.
  apply (durable_ssts S floor old cur later Hdu (λ x, x = imm_sst_number_ d)); fold d; [done| |lia| |].
  - intros x ->. split; [lia|done].
  - rewrite Eb, !(proj1 (Hwrap _)). destruct r as [r|]; [done|apply Hr].
  - rewrite (proj2 (Hwrap _)). destruct r as [r|]; [|done]. destruct Hf as (Hnum & data & Hdata & Hopen).
    pose proof (ssts_closed S floor old cur later Hdu _ d1 (imm_sst_number_ d) Hs ltac:(lia)) as Hc. fold d in Hc.
    destruct Hs. cbn [flush_files]. rewrite sw_wal0, sw_imm_sst0. fold n. split; [done|]. split; [done|]. split; [lia|].
    exists data. by rewrite Hnum, sw_dir0, Hc.
Qed.

Lemma durable_flush_install env log r f' d' :
  sys_bg S = wrap (FlInstall log r) → flush_inv d (FlInstall log r) → flush_step env (FlInstall log r) d = Some (f', d') →
  manifest_env_fine (fe_manifest env) → sized d' → durable (mkSystem d' (wrap f')) n [] cur later.
Proof using Hdu Hda Hlim Hwrap.
  intros Eb (imm & m & Ei & Ht & Hm) E Hfine Hz. cbn [flush_step] in E. unfold flush_install in E.
  set (d1 := set_current _ d) in E. pose proof (WriteManifest_fine (fe_manifest env) d1 Hfine) as Hok.
  pose proof (du_bg _ _ _ _ _ Hdu) as Hb. rewrite Eb in Hb. rewrite (proj2 (Hwrap _)) in Hb. cbn [flush_files] in Hb. fold d n in Hb.
  destruct Hb as (Hlog & Hnum & [Hr Hfile]).
  pose proof (du_mem _ _ _ _ _ Hdu) as Hmem. fold d in Hmem. rewrite Ei, Eb, (proj1 (Hwrap _)) in Hmem. destruct Hmem as (_ & _ & _ & (_ & Hnew & Hlt)).
  pose proof (log_number_ok _ _ _ _ _ Hdu) as [_ Hn]. fold d n in Hn. pose proof (to_number _ _ _ _ Ht) as Em.
  destruct (WriteManifest (fe_manifest env) d1) as [s d2] eqn:E2. cbn [fst] in Hok. rewrite Hok in E. cbn [negb] in E. injection E as <- <-.
  pose proof (da_db _ _ _ Hda) as Hdi. fold d in Hdi. pose proof (dl_seq _ Hlim) as Hsq. fold d in Hsq.
  assert (dir_ d2 = dir_ d) as Ed by (destruct (WriteManifest_keeps (fe_manifest env) d1) as (? & ? & E3); rewrite E2 in E3; by injection E3 as _ ->).
  apply (durable_installed S floor old cur later Hdu (fe_manifest env) d1 s d2 _ _ (λ x, x = FnLog log)); try done; fold d n.
  - intros path. cbn [set_fs fs]. rewrite Ed. destruct (unlink_gone (fe_unlink env) (LogPath (dir_ d) log) (fs d2) path) as [?|[? ->]]; [by left|right].
    split; [done|]. by exists (FnLog log).
  - intros x ->. cbn. lia.
  - eapply (filed_flush (current_ d) r m (mem_versions imm)); [apply Hdu|done| | |lia|by rewrite <- Em, Hnum|by rewrite <- Em, Hnum].
    + eapply fits_sub; [apply (di_hist _ _ Hdi)|]. intros v. by eapply imm_in_hist.
    + lia.
  - constructor; [done|]. apply (du_disk _ _ _ _ _ Hdu).
  - by rewrite (proj2 (Hwrap _)).
  - right. by rewrite Ei, (proj1 (Hwrap _)).
Qed.

End flush.

(** The flushed memtable goes. *)
Lemma durable_drop S floor old cur later b' :
  durable S floor old cur later → is_Some (imm_ (sys_db S)) → flushed (sys_bg S) = true → bg_files (set_imm None (sys_db S)) b' →
  durable (mkSystem (set_imm None (sys_db S)) b') floor old cur later.
Proof.
  intros [D1 D2 D3 D4 D5 D6 D7 D8 _] [imm Ei] Hfl Hb. rewrite Ei, Hfl in D8. destruct D8 as (Hm & _ & ->). by split.
Qed.

(** ** Merging *)

Section merge.
Context (base : DB).

Context (Hbase : 0 ≤ next_file_number_ base).

Definition written_by (m : merging) (r : TableRef) : Prop :=
  next_file_number_ base ≤ ref_number r < next_file_number_ (m_db m) ∧
  ∃ data, fs (m_db m) !! SstPath (dir_ base) (ref_number r) = Some data ∧ sst.open_data (ref_number r) data = Some (inr (table r)).

(** What the merge has written so far: tables with new numbers. *)
Record merge_files (m : merging) : Prop := {
  mf_written : ssts_written (λ x, next_file_number_ base ≤ x < next_file_number_ (m_db m)) base (m_db m);
  mf_outputs : next_file_number_ (m_db m) ≤ 2 ^ 64 → Forall (written_by m) (m_outputs m)
}.

Lemma merge_files_same m m' : m_db m' = m_db m → m_outputs m' = m_outputs m → merge_files m → merge_files m'.
Proof using. intros E1 E2 []. unfold written_by in *. split; rewrite ?E2, E1; [done|]. intros Hn. specialize (mf_outputs0 Hn). unfold written_by. by rewrite E1. Qed.

Lemma seal_files out m m' : seal out m = Some m' → merge_files m → merge_files m'.
Proof using Hbase.
  unfold seal. destruct (_ || _); [by intros [= <-]|]. cbv zeta.
  destruct (finish_table _ _ _ _ _ _) as [[[s r] d]|] eqn:E; [|done]. cbn [mbind option_bind]. intros E' [Hw Ho].
  destruct (finish_table_files _ _ _ _ _ _ _ _ _ E) as (Hs & En & Hr).
  set (d0 := set_next_file _ _) in *. cbn [d0 set_next_file next_file_number_] in En. pose proof (sw_files _ _ _ Hw) as Hle.
  assert (ssts_written (λ x, next_file_number_ base ≤ x < next_file_number_ d) base d) as H1.
  { rewrite En. apply (ssts_written_trans _ _ d0); [|eapply ssts_written_mono; [|exact Hs]; simpl; lia].
    apply (ssts_written_trans _ _ (m_db m)); [eapply ssts_written_mono; [|exact Hw]; simpl; lia|].
    split; try done; [cbn; lia|]. intros path. by left. }
  assert (next_file_number_ d ≤ 2 ^ 64 → ∀ x, next_file_number_ base ≤ x < next_file_number_ (m_db m) →
    fs d !! SstPath (dir_ base) x = fs (m_db m) !! SstPath (dir_ base) x) as H2.
  { intros Hd x Hx. destruct (sw_fs _ _ _ Hs (SstPath (dir_ base) x)) as [?|(y & -> & Ep)]; [done|].
    change (dir_ d0) with (dir_ (m_db m)) in Ep. rewrite (sw_dir _ _ _ Hw) in Ep.
    apply (path_of_inj _ (FnSst _) (FnSst _)) in Ep; [injection Ep; lia|cbn; lia..]. }
  assert (∀ m1, m_db m1 = d → next_file_number_ d ≤ 2 ^ 64 → Forall (written_by m1) (m_outputs m)) as H3.
  { intros m1 E1 Hd. eapply Forall_impl; [apply Ho; lia|]. intros x [Hx (data & Hdata & Hopen)]. rewrite <- (H2 Hd) in Hdata by done.
    unfold written_by. rewrite E1. split; [lia|by exists data]. }
  destruct r as [r|]; injection E' as <-; split; cbn [m_db m_outputs].
  - destruct H1. by split.
  - intros Hd. cbn [add_sst_bytes set_stats next_file_number_] in Hd. apply Forall_app. split.
    + eapply Forall_impl; [by apply (H3 (mkMerging [] (m_builder m) true None false s [] d))|]. by intros x [Hx Hf].
    + apply Forall_singleton. destruct Hr as (Hnum & data & Hdata & Hopen). unfold written_by. cbn. rewrite Hnum, En. split; [lia|].
      exists data. split; [|done]. change (dir_ d0) with (dir_ (m_db m)) in Hdata. by rewrite (sw_dir _ _ _ Hw) in Hdata.
  - done.
  - intros Hd. by apply H3.
Qed.

Lemma merge_switch_files out max_size user m m' : merge_switch out max_size user m = Some m' → merge_files m → merge_files m'.
Proof using Hbase.
  unfold merge_switch. destruct (bool_decide _); [by intros [= <-]|]. intros E Hm.
  destruct (if _ : bool then seal out m else Some m) as [m1|] eqn:E1; [|done]. cbn [mbind option_bind] in E. injection E as <-.
  assert (merge_files m1) as Hm1 by (destruct (_ && _ && _); [by eapply seal_files|by injection E1 as <-]).
  destruct (ok (m_status m1)); [|done]. by apply (merge_files_same m1).
Qed.

Lemma merge_entry_files floor out max_size key value m m' : merge_entry floor out max_size key value m = Some m' → merge_files m → merge_files m'.
Proof using Hbase.
  unfold merge_entry. destruct (merge_switch _ _ _ m) as [m1|] eqn:E1; [|done]. cbn [mbind option_bind]. intros E Hm.
  pose proof (merge_switch_files _ _ _ _ _ E1 Hm) as Hm1. destruct (negb _); [by injection E as <-|]. cbv zeta in E.
  destruct (retain _ _ _ _ _) as [[] seen]; [destruct (sst.Add _ _ _ _ _)|]; injection E as <-; by apply (merge_files_same m1).
Qed.

Lemma merge_loop_files fuel floor out max_size iter m m' : merge_loop fuel floor out max_size iter m = Some m' → merge_files m → merge_files m'.
Proof using Hbase.
  revert iter m. induction fuel as [|fuel IH]; intros iter m; [done|]. cbn [merge_loop]. destruct (_ && _); [|by intros [= <-]].
  destruct (merge_entry _ _ _ _ _ m) as [m1|] eqn:E1; [|done]. cbn [mbind option_bind]. intros E Hm.
  pose proof (merge_entry_files _ _ _ _ _ _ _ E1 Hm) as Hm1. destruct (negb _); [by injection E as <-|].
  destruct (merge_Next iter) as [iter'|]; [|done]. cbn [mbind option_bind] in E. by eapply IH.
Qed.

End merge.

Lemma unlink_all_gone {A} removed (path : A → bytes) xs f p :
  let f' := foldl (λ f x, unlink removed (path x) f) f xs in f' !! p = f !! p ∨ (f' !! p = None ∧ ∃ x, x ∈ xs ∧ p = path x).
Proof.
  cbv zeta. revert f. induction xs as [|x xs IH]; intros f; [by left|]. cbn [foldl].
  destruct (IH (unlink removed (path x) f)) as [->|[-> (y & Hy & ->)]].
  - destruct (unlink_gone removed (path x) f p) as [?|[? ->]]; [by left|right]. split; [done|]. exists x. split; [apply list_elem_of_here|done].
  - right. split; [done|]. exists y. split; [by apply list_elem_of_further|done].
Qed.

Lemma unlink_ssts_written removed rs d :
  ssts_written (λ m, m ∈ ref_number <$> rs) d (unlink_ssts removed rs d).
Proof.
  split; try done. intros path. unfold unlink_ssts. cbn [set_fs fs].
  destruct (unlink_all_gone removed (λ r, SstPath (dir_ d) (sst.file_number (meta r))) rs (fs d) path) as [?|[_ (r & Hr & ->)]]; [by left|right].
  exists (ref_number r). split; [by apply list_elem_of_fmap_2|done].
Qed.

Lemma compact_merge_files env F c d s outs d' :
  0 ≤ next_file_number_ d → compact_merge env F c d = Some (s, outs, d') → next_file_number_ d' ≤ 2 ^ 64 →
  ssts_written (λ x, next_file_number_ d ≤ x < next_file_number_ d') d d' ∧
  Forall (λ r, next_file_number_ d ≤ ref_number r < next_file_number_ d' ∧
    ∃ data, fs d' !! SstPath (dir_ d) (ref_number r) = Some data ∧ sst.open_data (ref_number r) data = Some (inr (table r))) outs.
Proof.
  intros Hb. unfold compact_merge. destruct (mapM table_iter _) as [children|]; [|done]. cbn [mbind option_bind].
  destruct (merge_SeekToFirst _) as [iter|]; [|done]. cbn [mbind option_bind].
  destruct (merge_loop _ _ _ _ _ _) as [m|] eqn:El; [|done]. cbn [mbind option_bind].
  apply (merge_loop_files d Hb) in El; [|split; [split; try done; intros path; by left|constructor]].
  destruct (if ok (m_status m) then _ else _) as [m1|] eqn:Em; [|done]. cbn [mbind option_bind].
  assert (merge_files d m1) as [Hw Ho] by (destruct (ok (m_status m)); [by eapply seal_files|by injection Em as <-]).
  destruct (negb _); intros [= <- <- <-] Hn; [|split; [done|by apply Ho]]. split; [|constructor].
  eapply ssts_written_trans; [exact Hw|]. eapply ssts_written_mono; [|apply unlink_ssts_written].
  intros x (r & -> & Hr)%list_elem_of_fmap. specialize (Ho Hn). rewrite Forall_forall in Ho. by apply Ho.
Qed.

(** *** The compacted version *)

Lemma concat_insert {A} i (x y : list A) ls : ls !! i = Some y → concat (<[i := x]> ls) ≡ₚ x ++ concat (delete i ls) ∧ concat ls ≡ₚ y ++ concat (delete i ls).
Proof.
  intros Hi. rewrite insert_take_drop by by eapply lookup_lt_Some. rewrite delete_take_drop, !concat_app. cbn [concat]. split; [solve_Permutation|].
  rewrite <- (take_drop_middle _ _ _ Hi) at 1. rewrite concat_app. cbn [concat]. solve_Permutation.
Qed.

Lemma set_level_refs i x gone add v :
  gone ++ x ⊆+ add ++ level_at v i → (i < length (levels v))%nat → gone ++ version_refs (set_level i x v) ⊆+ add ++ version_refs v.
Proof.
  intros Hx [y Hi]%lookup_lt_is_Some. unfold level_at in Hx. rewrite Hi in Hx. cbn [default] in Hx.
  destruct (concat_insert i x y (levels v) Hi) as [H1 H2]. unfold version_refs, set_level. cbn [l0 levels]. rewrite H1, H2.
  transitivity (l0 v ++ (gone ++ x) ++ concat (delete i (levels v))); [apply Permutation_submseteq; solve_Permutation|].
  transitivity (l0 v ++ (add ++ y) ++ concat (delete i (levels v))); [apply submseteq_app; [done|]; by apply submseteq_app|].
  apply Permutation_submseteq. solve_Permutation.
Qed.

(** What [remove_numbers] removes. *)
Definition removed_from (level removed : list TableRef) : list TableRef :=
  filter (λ r, ¬ (sst.file_number (meta r) ∉ (sst.file_number ∘ meta <$> removed))) level.

Lemma removed_perm level removed : removed_from level removed ++ remove_numbers level removed ≡ₚ level.
Proof. unfold removed_from, remove_numbers. rewrite Permutation_app_comm. apply filter_app_complement. Qed.

Lemma removed_elem level removed r : r ∈ removed → r ∈ level → r ∈ removed_from level removed.
Proof.
  intros Hr Hl. apply list_elem_of_filter. split; [|done]. intros H. apply H. by apply (list_elem_of_fmap_2 (sst.file_number ∘ meta)).
Qed.

(** The inputs leave, the outputs come. *)
Lemma compacted_sub c outs v :
  picked_ok v c →
  ∃ gone, (∀ r, r ∈ inputs_a c ++ inputs_b c → r ∈ gone) ∧ gone ++ version_refs (compacted c outs v) ⊆+ outs ++ version_refs v.
Proof.
  intros [Ho Hsrc Hb _]. unfold compacted. cbv zeta. set (v1 := match source_level c with None => _ | _ => _ end).
  assert (∃ gone, (∀ r, r ∈ inputs_a c → r ∈ gone) ∧ gone ++ version_refs v1 ⊆+ version_refs v ∧
    length (levels v1) = length (levels v) ∧ level_at v1 (output_level c) = level_at v (output_level c)) as (gone & Hg & H1 & H2 & H3).
  { unfold v1. destruct (source_level c) as [i|].
    - destruct Hsrc as (E & r & rest & Elv & Ea). exists (removed_from (level_at v i) (inputs_a c)). split_and!.
      + intros x Hx. apply removed_elem; [done|]. rewrite Elv, Ea in *. apply list_elem_of_singleton in Hx as ->. apply list_elem_of_here.
      + apply (set_level_refs i _ _ []); [|lia]. apply Permutation_submseteq, removed_perm.
      + apply length_insert.
      + unfold level_at, set_level. cbn [levels]. rewrite list_lookup_insert_ne by lia. done.
    - destruct Hsrc as [Ea _]. exists (removed_from (l0 v) (inputs_a c)). split_and!; [|..]; try done.
      + intros x Hx. apply removed_elem; [done|by rewrite <- Ea].
      + unfold version_refs. cbn [l0 levels]. by rewrite app_assoc, removed_perm. }
  set (rem := removed_from (level_at v1 (output_level c)) (inputs_b c)). exists (gone ++ rem). split.
  - intros r [Hr|Hr]%elem_of_app; apply elem_of_app; [left; by apply Hg|right]. apply removed_elem; [done|]. rewrite H3. by apply Hb.
  - transitivity (gone ++ outs ++ version_refs v1); [|rewrite (Permutation_app_swap_app gone); by apply submseteq_app].
    rewrite <- app_assoc. apply submseteq_app; [done|]. apply set_level_refs; [|lia]. rewrite sort_by_perm, app_assoc. unfold rem.
    rewrite removed_perm, (Permutation_app_comm outs). done.
Qed.

Lemma level_at_elem v i r : r ∈ level_at v i → ∃ level, levels v !! i = Some level ∧ r ∈ level.
Proof. unfold level_at. destruct (levels v !! i) as [level|]; [by exists level|]. intros H. by apply not_elem_of_nil in H. Qed.

Lemma set_level_elem i x v j level r :
  levels (set_level i x v) !! j = Some level → r ∈ level → (∃ level, levels v !! j = Some level ∧ r ∈ level) ∨ (j = i ∧ r ∈ x).
Proof. cbn [set_level levels]. intros [(<- & -> & _)|[_ H]]%list_lookup_insert_Some Hr; [by right|left; by exists level]. Qed.

Lemma compacted_elem c outs v j level r :
  levels (compacted c outs v) !! j = Some level → r ∈ level → (∃ level, levels v !! j = Some level ∧ r ∈ level) ∨ (j = output_level c ∧ r ∈ outs).
Proof.
  unfold compacted. cbv zeta. set (v1 := match source_level c with None => _ | _ => _ end).
  assert (∀ j r, (∃ level, levels v1 !! j = Some level ∧ r ∈ level) → ∃ level, levels v !! j = Some level ∧ r ∈ level) as H1.
  { intros j' r'. unfold v1. destruct (source_level c) as [i|]; [|done]. intros (l & Hl & Hr).
    destruct (set_level_elem _ _ _ _ _ _ Hl Hr) as [?|[-> [Hin _]%remove_numbers_elem]]; [done|]. by apply level_at_elem. }
  intros Hl Hr. destruct (set_level_elem _ _ _ _ _ _ Hl Hr) as [H|[-> Hin]]; [left; by apply H1|].
  rewrite sort_by_perm in Hin. apply elem_of_app in Hin as [[Hin _]%remove_numbers_elem|Hin]; [left; by apply H1, level_at_elem|by right].
Qed.

Lemma compacted_unique c outs v :
  picked_ok v c → NoDup (ref_number <$> outs ++ version_refs v) →
  NoDup (ref_number <$> version_refs (compacted c outs v)) ∧
  ∀ r x, r ∈ version_refs (compacted c outs v) → x ∈ inputs_a c ++ inputs_b c → ref_number r ≠ ref_number x.
Proof.
  intros Hp Hnd. destruct (compacted_sub c outs v Hp) as (gone & Hg & [rest Hrest]%submseteq_Permutation).
  rewrite Hrest, !fmap_app in Hnd. apply NoDup_app in Hnd as (Hnd & _ & _). apply NoDup_app in Hnd as (_ & Hd & Hnd). split; [done|].
  intros r x Hr Hx E. apply (Hd (ref_number x)); [by apply list_elem_of_fmap_2, Hg|]. rewrite <- E. by apply list_elem_of_fmap_2.
Qed.

Lemma outputs_unique n0 n1 F c ins outs v :
  NoDup (ref_number <$> version_refs v) → outputs_ok n0 n1 F c ins outs → Forall (λ r, ref_number r < n0) (version_refs v) →
  NoDup (ref_number <$> outs ++ version_refs v).
Proof.
  intros Hv [_ _ Hn Hf _] Hold. rewrite Forall_forall in Hold. rewrite Forall_forall in Hf. rewrite fmap_app. apply NoDup_app.
  split_and!; [done| |done]. intros m (r & -> & Hr)%list_elem_of_fmap (r' & E & Hr')%list_elem_of_fmap.
  specialize (Hf r Hr). specialize (Hold r' Hr'). cbn beta in *. lia.
Qed.

Lemma filed_compacted c outs v n0 n1 F next :
  filed v → picked_ok v c → length (levels (compacted c outs v)) = 6%nat → l0 (compacted c outs v) `sublist_of` l0 v →
  outputs_ok n0 n1 F c (compaction_versions c) outs → Forall (λ r, ref_number r < n0) (version_refs v) →
  Forall (λ r, 0 < ref_number r < 2 ^ 64) outs → Forall (λ r, Forall (version_fits next) (ref_versions r)) outs → next < 2 ^ 64 → filed (compacted c outs v).
Proof.
  intros [F1 F2 F3 F4 F5 F6 F7] Hp Hlen Hl0 Hops Hold Hnum Hfit Hnext.
  pose proof (compacted_unique _ _ _ Hp (outputs_unique _ _ _ _ _ _ _ F5 Hops Hold)) as [Hun _]. destruct Hops as [O1 _ O3 O4 _]. destruct (compacted_sub c outs v Hp) as (gone & _ & Hsub).
  assert (∀ r, r ∈ version_refs (compacted c outs v) → r ∈ version_refs v ∨ r ∈ outs) as Hel.
  { intros r Hr. assert (r ∈ outs ++ version_refs v) as Hin by (eapply elem_of_submseteq; [|exact Hsub]; apply elem_of_app; by right).
    apply elem_of_app in Hin. tauto. }
  rewrite Forall_forall in O1, O4, Hold, Hfit, Hnum. pose proof (pk_out _ _ Hp) as Hout. rewrite F1 in Hout.
  split; [done| | | | | |].
  - rewrite Forall_forall in F2 |- *. intros r Hr. apply F2. by eapply elem_of_sublist.
  - intros i level Hi. apply Forall_forall. intros r Hr. destruct (compacted_elem c outs v i level r Hi Hr) as [(l' & Hl' & Hr')|[-> Hr']].
    + specialize (F3 i l' Hl'). rewrite Forall_forall in F3. by apply F3.
    + apply (O1 r Hr').
  - rewrite Forall_forall in F4 |- *. intros r [Hr|Hr]%Hel; [by apply F4|]. eapply table_meta_ok; [by apply O1|by apply Hfit|done|by apply Hnum|].
    unfold kMaxLevels. lia.
  - done.
  - by eapply sorted_by_sublist.
  - intros r u [Hr|Hr]%Hel Hu; [by eapply F7|]. pose proof (to_seqs _ _ _ _ (O1 r Hr)) as Hs. rewrite Forall_forall in Hs. by apply Hs.
Qed.

Section compaction.
Context (S : System) (floor : Z) (old : list (Z * list version)) (cur : list version) (later : list Z).
Context (Hdu : durable S floor old cur later) (hist : list version) (M : Map) (Hda : data_inv (sys_db S) hist M) (Hlim : db_limits (sys_db S)).

Let d := sys_db S.
Let n := log_number_ (wal_ d).

Lemma durable_merge env F c s outs d' :
  sys_bg S = BgFloor c F → compact_merge env F c d = Some (s, outs, d') → sized d' →
  durable (mkSystem d' (if ok s then BgMerged c outs else BgCompacted s)) floor old cur later.
Proof using Hdu Hda.
  intros Eb E [Hz _ _]. pose proof (log_number_ok _ _ _ _ _ Hdu) as [_ Hn]. pose proof (du_number _ _ _ _ _ Hdu) as Hnx. fold d n in Hn, Hnx.
  destruct (compact_merge_files env F c d s outs d' ltac:(lia) E ltac:(lia)) as [Hs Ho].
  pose proof (no_next _ (di_numbers _ _ (da_db _ _ _ Hda))) as Hno. fold d in Hno. rewrite Forall_forall in Hno.
  apply (durable_ssts S floor old cur later Hdu (λ x, next_file_number_ d ≤ x < next_file_number_ d')); fold d; [done| |lia| |].
  - intros m Hm. split; [lia|]. intros (r & -> & Hr)%list_elem_of_fmap. specialize (Hno r Hr). lia.
  - rewrite Eb. by destruct (ok s).
  - destruct (ok s); [|done]. eapply Forall_impl; [exact Ho|]. intros r [Hr (data & Hdata & Hopen)].
    pose proof (ssts_closed S floor old cur later Hdu _ d' (ref_number r) Hs ltac:(lia)) as Hc. fold d in Hc.
    split; [lia|]. exists data. by rewrite (sw_dir _ _ _ Hs), Hc.
Qed.

Lemma durable_compact_install env c outs s d' :
  sys_bg S = BgMerged c outs → bg_inv d hist (BgMerged c outs) → compact_install env c outs d = (s, d') →
  manifest_env_fine (ce_manifest env) → imm_ d = None → concat old.*2 = [] → sized d' →
  durable (mkSystem d' (BgCompacted s)) n [] cur later.
Proof using Hdu Hda Hlim.
  intros Eb [Hp (n0 & n1 & F & Hout & Hold & Hn1 & Hlo)] E Hfine Hi Ho Hz. unfold compact_install in E.
  set (d1 := set_current _ d) in E. pose proof (WriteManifest_fine (ce_manifest env) d1 Hfine) as Hok.
  pose proof (du_bg _ _ _ _ _ Hdu) as Hb. rewrite Eb in Hb. cbn [bg_files] in Hb. fold d in Hb.
  pose proof (da_db _ _ _ Hda) as Hdi. fold d in Hdi. pose proof (du_filed _ _ _ _ _ Hdu) as Hv. fold d in Hv.
  destruct (compacted_unique c outs (current_ d) Hp (outputs_unique _ _ _ _ _ _ _ (fv_numbers _ Hv) Hout Hold)) as [_ Hun].
  destruct (compacted_levels d hist Hdi c outs Hp) as (_ & Hl0 & Hlen). rewrite (fv_levels _ Hv) in Hlen.
  destruct (WriteManifest (ce_manifest env) d1) as [s0 d2] eqn:E2. cbn [fst] in Hok. rewrite Hok in E. cbn [negb] in E. injection E as <- <-.
  assert (dir_ d2 = dir_ d) as Ed by (destruct (WriteManifest_keeps (ce_manifest env) d1) as (? & ? & E3); rewrite E2 in E3; by injection E3 as _ ->).
  apply (durable_installed S floor old cur later Hdu (ce_manifest env) d1 s0 d2 _ _ (λ x, ∃ r, r ∈ inputs_a c ++ inputs_b c ∧ x = FnSst (ref_number r)));
    try done; fold d n; [| | | |by left].
  - intros path. unfold unlink_ssts. cbn [set_fs fs set_stats dir_]. rewrite Ed.
    destruct (unlink_all_gone (ce_unlink env) (λ r, SstPath (dir_ d) (sst.file_number (meta r))) (inputs_a c ++ inputs_b c) (fs d2) path) as [?|[? (r & Hr & ->)]];
      [by left|right].
    split; [done|]. exists (FnSst (ref_number r)). split; [by exists r|done].
  - intros x (r & Hr & ->). split; [by eapply ref_numbered, picked_inputs|]. intros (r' & E & Hr')%list_elem_of_fmap. by apply (Hun r' r Hr' Hr).
  - eapply filed_compacted; try done.
    + eapply Forall_impl; [exact Hb|]. by intros r [? _].
    + apply Forall_forall. intros r Hr. eapply fits_sub; [apply (di_hist _ _ Hdi)|]. intros w Hw. apply (di_sub _ _ Hdi).
      eapply inputs_in_layers; [exact Hp|]. by eapply out_ok.
    + pose proof (dl_seq _ Hlim) as Hsq. fold d in Hsq. lia.
  - apply Forall_forall. intros r Hr. pose proof (od_tables _ _ _ _ _ _ _ (du_disk _ _ _ _ _ Hdu)) as Hod. fold d in Hod.
    rewrite Forall_forall in Hod. rewrite Forall_forall in Hb. destruct (compacted_refs d hist Hdi c outs Hp r Hr) as [Hr'|Hr']; [by apply Hod|apply (Hb r Hr')].
Qed.

End compaction.

(** ** Collecting the value logs *)

Lemma ascending_sublist lo ns ns' : ns' `sublist_of` ns → ascending lo ns → ascending lo ns'.
Proof.
  intros Hs [H1 H2]%ascending_sorted. apply sorted_ascending; [|by eapply sorted_by_sublist].
  rewrite Forall_forall in H2 |- *. intros n Hn. apply H2. by eapply elem_of_sublist.
Qed.

Lemma emplace_last x l :
  Forall (λ y, vlog.number_ y < vlog.number_ x) l → emplace_vlog x l = l ++ [x].
Proof.
  intros Hl. rewrite emplace_new.
  - induction Hl as [|y l Hy _ IH]; [done|]. cbn [sort_insert app]. assert ((vlog.number_ x <? vlog.number_ y) = false) as -> by lia. by rewrite IH.
  - induction Hl as [|y l Hy _ IH]; [done|]. cbn. assert ((vlog.number_ y =? vlog.number_ x) = false) as -> by lia. done.
Qed.

Lemma not_value_log x : is_Some (sst_number x) ∨ is_Some (log_number x) → vlog_file_number x = None.
Proof. destruct x; cbn; try done. by intros [[? ?]|[? ?]]. Qed.

Section generations.
Context (S : System) (floor : Z) (old : list (Z * list version)) (cur : list version) (later : list Z).
Context (Hdu : durable S floor old cur later) (Himm : imm_ (sys_db S) = None) (Hold : concat old.*2 = []).
Context (Hen : vsep_enabled_ (vsep_ (sys_db S)) = true).

Let d := sys_db S.
Let n := log_number_ (wal_ d).

(** A MANIFEST for other value logs. *)
Lemma durable_generations d' b' :
  dir_ d' = dir_ d → log_number_ (wal_ d') = n → log_writer_ (wal_ d') = log_writer_ (wal_ d) → ring_ (wal_ d') = None →
  vsep_enabled_ (vsep_ d') = true → current_ d' = current_ d → mem_ d' = mem_ d → imm_ d' = imm_ d → imm_log_number_ d' = imm_log_number_ d →
  next_file_number_ d ≤ next_file_number_ d' < 2 ^ 63 → bg_files d' b' →
  known (dir_ d) (fs d') → fs d' !! ManifestPath (dir_ d) = Some (manifest_image d') →
  (∀ x, numbered x → is_Some (sst_number x) ∨ is_Some (log_number x) → fs d' !! path_of (dir_ d) x = fs d !! path_of (dir_ d) x) →
  Forall (λ x, default [] (disk d !! VlogPath (dir_ d) (vlog.number_ x)) = vlog.v_file x ∧ vlog.vlog_ok x) (vlogs_ (vsep_ d')) →
  ascending 0 (vlog.number_ <$> vlogs_ (vsep_ d')) → Forall (λ n, n < 2 ^ 64) (vlog.number_ <$> vlogs_ (vsep_ d')) → vlogs_ (vsep_ d') ≠ [] →
  durable (mkSystem d' b') n [] cur later.
Proof using Hdu Himm Hold Hen.
  intros E1 E2 E3 E4 E5 E6 E7 E8 E9 Hnx Hb Hk Hm Hsame Hvl Ha Hlt Hne. pose proof (du_disk _ _ _ _ _ Hdu) as Hod. fold d n in Hod.
  set (vs' := vlogs_ (vsep_ d')) in *. pose proof (log_number_ok _ _ _ _ _ Hdu) as [_ Hn]. fold d n in Hn.
  assert (disk d' = write_vlogs (dir_ d) vs' (<[LogPath (dir_ d) n := log.w_file (log_writer_ (wal_ d))]> (fs d'))) as Ed.
  { rewrite disk_vlogs, E1, E2, E3. done. }
  assert (Forall (λ x, 0 ≤ vlog.number_ x < 2 ^ 64) vs') as Hbd.
  { pose proof (proj2 (ascending_sorted _ _ Ha)) as Hpos. rewrite Forall_forall in Hpos. rewrite Forall_forall in Hlt. apply Forall_forall. intros x Hx.
    specialize (Hpos _ (list_elem_of_fmap_2 _ _ _ Hx)). specialize (Hlt _ (list_elem_of_fmap_2 _ _ _ Hx)). cbn in *. lia. }
  assert (∀ x, numbered x → vlog_file_number x = None → ∀ l f, Forall (λ x, 0 ≤ vlog.number_ x < 2 ^ 64) l →
    write_vlogs (dir_ d) l f !! path_of (dir_ d) x = f !! path_of (dir_ d) x) as Hout.
  { intros x Hx Hxv l f Hl. apply write_vlogs_other. intros y Hy. rewrite Forall_forall in Hl.
    apply (path_ne (dir_ d) x (FnVlog (vlog.number_ y))); [done|by apply Hl|]. by intros ->. }
  assert (∀ x, numbered x → is_Some (sst_number x) ∨ is_Some (log_number x) → disk d' !! path_of (dir_ d) x = disk d !! path_of (dir_ d) x) as Hd'.
  { intros x Hx Hxx. pose proof (not_value_log x Hxx) as Hxv.
    rewrite Ed, disk_vlogs, !Hout; [|done..|apply (vlog_numbers _ _ _ _ _ Hdu)|done|done|done]. fold n.
    destruct (decide (path_of (dir_ d) x = LogPath (dir_ d) n)) as [->|Hp]; [by rewrite !lookup_insert_eq|].
    rewrite !lookup_insert_ne by done. by apply Hsame. }
  apply (durable_published S floor old cur later Hdu); fold d n; try done; try congruence; [|rewrite E6; apply Hdu|by rewrite E5|by left].
  rewrite E6. apply (publish_disk S floor old cur later Hdu); fold d n; try done.
  - rewrite Ed. apply write_vlogs_known; [done|]. by apply (known_insert _ _ (FnLog n)).
  - rewrite Ed, (Hout FnManifest) by done. rewrite lookup_insert_ne; [|by apply (path_ne _ (FnLog n) FnManifest)].
    change (path_of (dir_ d) FnManifest) with (ManifestPath (dir_ d)). rewrite Hm. unfold manifest_image. by rewrite E6, E2.
  - apply Hdu.
  - apply Hod.
  - intros r Hr. apply (Hd' (FnSst (ref_number r))); [by eapply ref_numbered; [apply Hdu|]|left; by eexists].
  - intros m Hm'. apply (Hd' (FnLog m)); [cbn; lia|right; by eexists].
  - intros x Hx. rewrite Ed, write_vlogs_in; [|by eapply ascending_NoDup|done|done]. rewrite Forall_forall in Hvl. by rewrite (proj1 (Hvl x Hx)).
  - unfold d. by rewrite Hen.
  - unfold d. by rewrite Hen.
Qed.

Lemma kept_other f x :
  numbered x → is_Some (sst_number x) ∨ is_Some (log_number x) → ∀ d0, dir_ d0 = dir_ d →
  with_manifest d0 f !! path_of (dir_ d) x = f !! path_of (dir_ d) x.
Proof using.
  intros Hx Hxx d0 <-. apply with_manifest_other; [done|..]; intros ->; destruct Hxx as [[? ?]|[? ?]]; done.
Qed.

Lemma durable_gc_rotate open_err env s gen d' b' hist M :
  data_inv d hist M → default [] (fs d !! VlogPath (dir_ d) (next_file_number_ d)) = [] →
  gc_rotate open_err env d = Some (s, gen, d') → manifest_env_fine env → sized d' → flushed (sys_bg S) = false → flushed b' = false →
  (∀ d, bg_files d b') → ∃ floor' old', durable (mkSystem d' b') floor' old' cur later.
Proof using Hdu Himm Hold Hen.
  intros Hda Hempty E Hfine Hz Hf Hf' Hb. unfold gc_rotate in E.
  assert (durable (mkSystem d b') floor old cur later) as Hstay by (by apply (durable_move S); [|..|rewrite Hf|]).
  destruct (snapshots_ d); [|injection E as <- <- <-; by exists floor, old].
  unfold vlog.Open in E. destruct open_err as [e|]; [injection E as <- <- <-; by exists floor, old|].
  change (dir_ d ++ lit "/" ++ vlog.FileName (next_file_number_ d)) with (VlogPath (dir_ d) (next_file_number_ d)) in E. rewrite Hempty in E.
  set (fresh := vlog.mkVLog [] (next_file_number_ d) (len (@nil byte))) in *. cbv zeta in E. set (d1 := set_next_file _ _) in E.
  pose proof (WriteManifest_fine env d1 Hfine) as Hok. pose proof (WriteManifest_files env d1 Hfine) as Hw.
  destruct (WriteManifest env d1) as [ms d2]. cbn [fst snd] in Hok, Hw. rewrite Hok in E. injection E as <- <- <-.
  assert ((ms, d2) = (Ok, set_fs (with_manifest d1 (fs d1)) d1)) as [= -> ->] by (apply Hw; intros data; apply (sz_files _ Hz)).
  pose proof (da_values _ _ _ Hda) as Hv. pose proof (vo_logs _ _ Hv) as Hlogs. pose proof (log_number_ok _ _ _ _ _ Hdu) as [_ Hn]. fold d n in Hn.
  pose proof (du_disk _ _ _ _ _ Hdu) as Hod. pose proof (du_number _ _ _ _ _ Hdu) as Hnx. fold d n in Hod, Hnx. pose proof (sz_number _ Hz) as Hz1.
  cbn [set_fs next_file_number_ d1 set_next_file] in Hz1.
  assert (emplace_vlog fresh (vlogs_ (vsep_ d)) = vlogs_ (vsep_ d) ++ [fresh]) as Ev.
  { apply emplace_last. eapply Forall_impl; [exact Hlogs|]. by intros x (_ & _ & ?). }
  assert (disk d !! VlogPath (dir_ d) (next_file_number_ d) = fs d !! VlogPath (dir_ d) (next_file_number_ d)) as Hnew.
  { apply disk_closed. intros [E|(x & Hx & E)].
    - apply (path_of_inj _ (FnVlog _) (FnLog _)) in E; [done|cbn; lia|cbn; fold n; lia].
    - rewrite Forall_forall in Hlogs. destruct (Hlogs x Hx) as [_ Hxn].
      apply (path_of_inj _ (FnVlog _) (FnVlog _)) in E; [injection E; lia|cbn; lia|cbn; lia]. }
  exists n, []. apply durable_generations; try done; try apply Hdu; cbn [set_fs d1 set_next_file set_vsep vsep_ set_vlogs vlogs_ fs next_file_number_]; rewrite ?Ev.
  - lia.
  - apply (with_manifest_known d1). apply (known_insert _ _ (FnVlog (next_file_number_ d))); [apply (known_fs _ _ _ _ _ Hdu)|cbn; lia].
  - rewrite (with_manifest_at d1). done.
  - intros x Hx Hxx. rewrite kept_other by done. cbn [d1 set_next_file set_vsep set_fs fs]. rewrite lookup_insert_ne; [done|].
    apply (path_ne _ (FnVlog _) x); [cbn; lia|done|]. intros <-. destruct Hxx as [[? ?]|[? ?]]; done.
  - apply Forall_app. split; [apply Hod|]. apply Forall_singleton. cbn [fresh vlog.number_ vlog.v_file]. by rewrite Hnew, Hempty.
  - rewrite fmap_app. apply sorted_ascending.
    + apply Forall_app. split; [apply (ascending_sorted 0), Hod|]. apply Forall_singleton. cbn. lia.
    + apply sorted_by_app. split; [apply (ascending_sorted 0), Hod|]. split; [by split|].
      intros y z (x & -> & Hx)%list_elem_of_fmap ->%list_elem_of_singleton. rewrite Forall_forall in Hlogs. destruct (Hlogs x Hx). cbn. lia.
  - rewrite fmap_app. apply Forall_app. split; [apply Hod|]. apply Forall_singleton. cbn. lia.
  - by destruct (vlogs_ (vsep_ d)).
Qed.

(** Without the ring a sync leaves the log alone. *)
Lemma force_same strerror env cv w s w' :
  ring_ w = None → ForceDurabilityLocked strerror env cv w = Some (s, w') →
  log_writer_ w' = log_writer_ w ∧ ring_ w' = None ∧ log_number_ w' = log_number_ w.
Proof using.
  intros Hr. unfold ForceDurabilityLocked, io_uring_active_. rewrite Hr. unfold sync_files, vlog.Sync. intros [= E]. revert E.
  repeat case_match; intros; simplify_eq; done.
Qed.

Lemma durable_gc_retire strerror env g s d' b' hist M :
  data_inv d hist M → collecting_ok d hist g [] → gc_retire strerror env (gc_retired g) (gc_rewritten g) d = Some (s, d') →
  manifest_env_fine (ge_retire env) → sized d' → flushed (sys_bg S) = false → flushed b' = false →
  (∀ d, bg_files d b') → ∃ floor' old', durable (mkSystem d' b') floor' old' cur later.
Proof using Hdu Himm Hold Hen.
  intros Hda Hg E Hfine Hz Hf Hf' Hb. unfold gc_retire in E.
  destruct (snapshots_ d); [|injection E as <- <-; exists floor, old; by apply (durable_move S); [|..|rewrite Hf|]].
  destruct (ForceDurabilityLocked strerror (ge_sync env) (current_vlog (vsep_ d)) (wal_ d)) as [[s0 w]|] eqn:Ew; [|done].
  destruct (force_same _ _ _ _ _ _ (du_ring _ _ _ _ _ Hdu) Ew) as (W1 & W2 & W3). unfold and_then in E. cbn [mbind option_bind] in E.
  destruct (ok s0); [|injection E as <- <-; exists floor, old; apply (durable_move S); [done|split; try done; cbn; by rewrite W2, (du_ring _ _ _ _ _ Hdu)|done..|by rewrite Hf|done]].
  cbv zeta in E. pose proof (current_kept d hist M Hda g Hg) as Hck.
  set (f := foldl _ (fs (set_wal w d)) _) in E. cbn [set_wal vsep_] in E. set (kept := foldl (λ l g, erase_vlog _ _) _ _) in *.
  set (d2 := set_vsep _ (set_fs f (set_wal w d))) in E.
  pose proof (WriteManifest_fine (ge_retire env) d2 Hfine) as Hok. pose proof (WriteManifest_files (ge_retire env) d2 Hfine) as Hw.
  assert (dir_ (WriteManifest (ge_retire env) d2).2 = dir_ d) as Ed by (by destruct (WriteManifest_keeps (ge_retire env) d2) as (? & ? & ->)).
  destruct (WriteManifest (ge_retire env) d2) as [ms d3]. cbn [fst snd] in Hok, Hw, Ed. rewrite Hok in E. cbn [negb] in E. injection E as <- <-.
  rewrite Ed in *. set (f' := foldl _ (fs d3) _) in *.
  pose proof (du_disk _ _ _ _ _ Hdu) as Hod. pose proof (log_number_ok _ _ _ _ _ Hdu) as [_ Hn]. pose proof (du_files _ _ _ _ _ Hdu) as Hnx. fold d n in Hod, Hn, Hnx.
  assert (Forall (λ v, 0 ≤ vlog.number_ v < 2 ^ 64) (gc_retired g)) as Hret.
  { apply Forall_forall. intros v Hv. destruct (co_retired _ _ _ _ Hg v Hv) as [[Hin _]%find_vlog_Some _]. by apply (vlog_numbered _ _ _ _ _ _ _ Hod). }
  assert (∀ path, f' !! path = fs d3 !! path ∨ (f' !! path = None ∧ ∃ v, v ∈ gc_retired g ∧ path = VlogPath (dir_ d) (vlog.number_ v))) as Hgone
    by (intros path; apply unlink_all_gone).
  assert (∀ x, numbered x → vlog_file_number x = None → f' !! path_of (dir_ d) x = fs d3 !! path_of (dir_ d) x) as Hkept.
  { intros x Hx Hxv. destruct (Hgone (path_of (dir_ d) x)) as [?|[_ (v & Hv & E)]]; [done|]. rewrite Forall_forall in Hret.
    apply (path_of_inj _ x (FnVlog (vlog.number_ v))) in E; [by subst x|done|by apply Hret]. }
  assert (∀ x, numbered x → vlog_file_number x = None → f !! path_of (dir_ d) x = fs d !! path_of (dir_ d) x) as Hf0.
  { intros x Hx Hxv. apply (write_vlogs_other (dir_ d) (gc_retired g)). intros v Hv. rewrite Forall_forall in Hret.
    apply (path_ne (dir_ d) x (FnVlog (vlog.number_ v))); [done|by apply Hret|]. by intros ->. }
  assert ((ms, d3) = (Ok, set_fs (with_manifest d2 (fs d2)) d2)) as [= -> ->].
  { apply Hw. intros data Hdata. apply (sz_files _ Hz (ManifestPath (dir_ d))). cbn [set_stats set_fs fs]. etrans; [apply (Hkept FnManifest)|]; done. }
  assert (kept `sublist_of` vlogs_ (vsep_ d)) as Hsub by apply erase_all_sublist.
  exists n, []. apply durable_generations; try done; cbn [set_stats set_fs fs d2 set_vsep vsep_ set_gc set_vlogs vlogs_].
  - apply (known_sub _ (with_manifest d2 f)); [|intros path Hp; destruct (Hgone path) as [Eg|[Eg _]]; rewrite Eg in Hp; [done|by destruct Hp]].
    apply (with_manifest_known d2). apply (write_vlogs_known (dir_ d) (gc_retired g)); [done|apply (known_fs _ _ _ _ _ Hdu)].
  - etrans; [by apply (Hkept FnManifest)|]. apply (with_manifest_at d2).
  - intros x Hx Hxx. pose proof (not_value_log x Hxx) as Hxv.
    rewrite Hkept by done. cbn [set_fs fs]. rewrite kept_other by done. by apply Hf0.
  - pose proof (od_vlogs _ _ _ _ _ _ _ Hod) as Hvl. rewrite Forall_forall in Hvl |- *. intros x Hx. apply Hvl. by eapply elem_of_sublist.
  - eapply ascending_sublist; [by apply sublist_fmap|apply Hod].
  - destruct (od_vnumbers _ _ _ _ _ _ _ Hod) as [_ Hlt]. rewrite Forall_forall in Hlt |- *. intros m Hm. apply Hlt.
    eapply elem_of_sublist; [exact Hm|]. by apply sublist_fmap.
  - intros E. rewrite E in Hck. destruct (vlog_current_ (vsep_ d)); by destruct Hck.
Qed.

End generations.
