(* ===== verification/DbRecover.v ===== *)
(** * Recovery

    [recoverable_step]: every step of a run whose calls reach the disk, or fail
    before they touch the log, keeps the directory recoverable, if no MANIFEST is
    installed while a log below the current one holds records that are in no
    table ([settled]; that restriction is necessary, see DbBugs).
    [crash_resting] and [open_resting]: what such a state leaves stands for the
    map, and [Open] finds it. *)

From S2P Require Import Prelude Status FsUtil Encoding Log VLog LruCache InternalKey Mvcc Layers Iterator Block.
From S2P Require Import SSTable TableSize Manifest SkipList MemTable Merge Db DbRead DbInv DbFlush DbPick DbMerge DbCompact.
From S2P Require Import DbValues DbScan DbSystem DbLogs DbRefine DbOpen DbBackground DbCollect DbCorrect DbRounds DbFiles DbDisk DbDurable DbInstall.
Import db.

(** ** Calls that reach the disk *)

(** The first log a recovery would replay now. *)
Definition replay_floor (d : DB) : Z :=
  match disk d !! ManifestPath (dir_ d) with
  | None => 1
  | Some _ => match ParseManifest None [] (disk d) (ManifestPath (dir_ d)) with Some (Some ms) => ms_log_number ms | _ => 0 end
  end.

(** No record is only in a log below the current one. *)
Definition settled (d : DB) : Prop :=
  imm_ d = None ∧
  Forall (λ n, log_number_ (wal_ d) ≤ n ∨ disk d !! LogPath (dir_ d) n = Some []) (logs_to_replay (dir_ d) (replay_floor d) (disk d)).

(** The environments of the first entry of a collection. *)
Definition first_entry (env : bg_env) : entry_env * flush_env := default (quiet_entry, quiet_flush) (head (ge_entries (be_gc env))).

(** Records reach the log or leave it alone, and a MANIFEST is replaced when it
    may be. *)
Definition reliable (c : Call) (S : System) : Prop :=
  match c with
  | CPut env _ _ | CDelete env _ => clean_entry (pe_entry env)
  | CBackground env =>
      match sys_bg S with
      | BgFlush (FlInstall _ _) => manifest_env_fine (fe_manifest (be_flush env))
      | BgGcFlush (FlInstall _ _) _ => manifest_env_fine (fe_manifest (first_entry env).2)
      | BgMerged _ _ => settled (sys_db S) ∧ manifest_env_fine (ce_manifest (be_compact env))
      | BgGcRotate => settled (sys_db S) ∧ manifest_env_fine (ge_publish (be_gc env))
      | BgGcEntries _ => clean_entry (first_entry env).1
      | BgGcRetire _ => settled (sys_db S) ∧ manifest_env_fine (ge_retire (be_gc env))
      | _ => True
      end
  | _ => True
  end.

#[export] Instance manifest_env_fine_dec env : Decision (manifest_env_fine env).
Proof.
  refine (cast_if_and6 (decide (me_open env = None)) (decide (Forall (λ sched, error_free sched = true) (me_writes env)))
    (decide (me_fsync env = None)) (decide (me_rename env = None)) (decide (me_dir_open env = None)) (decide (me_dir_sync env = None)));
    [by split|by intros []..].
Defined.

#[export] Instance settled_dec d : Decision (settled d).
Proof. unfold settled. apply _. Defined.

#[export] Instance reliable_dec c S : Decision (reliable c S).
Proof. unfold reliable. destruct c; try apply _. destruct (sys_bg S) as [|[]| | | | | | | | |[] ?| |]; apply _. Defined.

Definition recoverable (S : System) : Prop := ∃ floor old cur later, durable S floor old cur later.

(** ** Settled states *)

Lemma log_image_nil vs : log_image vs = [] → vs = [].
Proof.
  intros E. unfold log_image in E. pose proof (log.wal_image_log [] [] (payload <$> vs) log.log_rel_nil) as H. rewrite E in H.
  destruct (log.log_rel_fun _ _ _ _ _ _ _ _ H log.log_rel_nil) as (Ep & _ & _). by destruct vs.
Qed.

Lemma quiet_open_fine : open_fine quiet_open.
Proof. by split. Qed.

Lemma replay_floor_eq S floor old cur later : durable S floor old cur later → replay_floor (sys_db S) = floor.
Proof.
  intros Hdu. destruct (manifest_read _ _ _ _ _ _ _ (du_disk _ _ _ _ _ Hdu) (du_filed _ _ _ _ _ Hdu) quiet_open quiet_open_fine) as (named & E & _).
  unfold replay_floor. destruct (disk (sys_db S) !! _); [|by injection E]. cbn [quiet_open oe_manifest_open oe_manifest_reads] in E. by rewrite E.
Qed.

Lemma settled_old S floor old cur later : durable S floor old cur later → settled (sys_db S) → concat old.*2 = [].
Proof.
  intros Hdu [_ Hs]. pose proof (du_disk _ _ _ _ _ Hdu) as Hod. rewrite (replay_floor_eq _ _ _ _ _ Hdu) in Hs.
  rewrite (logs_to_replay_spec _ _ _ (all_logs (log_number_ (wal_ (sys_db S))) old cur later).*1 (od_known _ _ _ _ _ _ _ Hod)) in Hs; [|by rewrite all_logs_numbers; destruct old|apply Hod|apply Hod].
  rewrite all_logs_numbers in Hs. apply Forall_app in Hs as [Hs _].
  pose proof (od_sorted _ _ _ _ _ _ _ Hod) as Hso. rewrite all_logs_numbers in Hso. apply sorted_by_app in Hso as (_ & _ & Hlt).
  pose proof (od_images _ _ _ _ _ _ _ Hod) as Hi. apply Forall_app in Hi as [Hi _]. rewrite Forall_forall in Hs. rewrite Forall_forall in Hi.
  assert (∀ p, p ∈ old → p.2 = []) as H.
  { intros p Hp. pose proof (list_elem_of_fmap_2 fst _ _ Hp) as Hp1. specialize (Hlt p.1 _ Hp1 (list_elem_of_here _ _)).
    destruct (Hs p.1 Hp1) as [Hle|E]; [lia|]. rewrite (Hi p Hp) in E. injection E as E. by apply log_image_nil. }
  clear - H. induction old as [|p old IH]; [done|]. rewrite fmap_cons. cbn [concat]. rewrite (H p (list_elem_of_here _ _)). apply IH.
  intros q Hq. apply H. by apply list_elem_of_further.
Qed.

(** ** Steps *)

(** Moving on without touching a file. *)
Lemma recoverable_move S d' b' :
  recoverable S → same_files (sys_db S) d' → wal_ d' = wal_ (sys_db S) → vlogs_ (vsep_ d') = vlogs_ (vsep_ (sys_db S)) →
  mem_ d' = mem_ (sys_db S) → flushed b' = flushed (sys_bg S) → bg_files (sys_db S) b' → recoverable (mkSystem d' b').
Proof.
  intros (floor & old & cur & later & Hdu) Hs Hw Hv Hm Hf Hb. exists floor, old, cur, later. apply (durable_move S); try done. by rewrite Hw.
Qed.

Lemma recoverable_files S : recoverable S → bg_files (sys_db S) (sys_bg S).
Proof. intros (? & ? & ? & ? & Hdu). apply Hdu. Qed.

Lemma recoverable_cache S d' : recoverable S → cache_only (sys_db S) d' → recoverable (mkSystem d' (sys_bg S)).
Proof. intros Hr [c ->]. apply (recoverable_move S); try done. by apply recoverable_files. Qed.

Lemma recoverable_write strerror S hist M env type key value r :
  recoverable S → sys_inv S hist M → db_limits (sys_db S) → write_limits env key value (sys_db S) → clean_entry (pe_entry env) →
  type = kTypeValue ∨ type = kTypeDeletion → write_op strerror env type key value (sys_db S) = Some r →
  let S' := (write_answer r S).2 in
  sized (sys_db S') → Forall vlog.vlog_ok (vlogs_ (vsep_ (sys_db S'))) → recoverable S'.
Proof.
  intros Hr Hs Hl Hw He Ht E. destruct r as [[s d']|]; [|done]. cbn [write_answer snd sys_db]. intros Hz Hok.
  destruct Hr as (floor & old & cur & later & Hdu).
  destruct (durable_write_op strerror S floor old cur later hist M env type key value s d' Hdu Hs Hl Hw He Ht E Hz Hok) as (old' & cur' & later' & H).
  by exists floor, old', cur', later'.
Qed.

Section steps.
Context (hash : bytes → Z) (strerror : Z → bytes).

(** Reads change the cache and nothing else. *)
Lemma read_step c S hist M a S' :
  data_inv (sys_db S) hist M → db_limits (sys_db S) →
  match c with CGet _ key sn | CScan _ key _ sn => read_limits key sn (sys_db S) | _ => False end →
  step hash strerror c S = Some (a, S') →
  cache_only (sys_db S) (sys_db S') ∧ S' = mkSystem (sys_db S') (sys_bg S).
Proof.
  intros Hda Hl Hc E. destruct c as [env key value|env key|io key sn|ios lo hi sn| |x|env]; try done; cbn [step] in E; destruct Hc as [Hlen Hsn];
    destruct (read_snapshot_spec sn _ hist M Hda (dl_seq _ Hl) Hsn) as (s & m & E1 & _ & Hrd & Hv); rewrite E1 in E; cbn [mbind option_bind] in E.
  - destruct (data_Get hash io key s _ hist M m Hda Hlen Hrd Hv) as (st & v & d' & E2 & Hco & _).
    rewrite E2 in E. cbn [mbind option_bind] in E. by injection E as <- <-.
  - destruct (data_Scan hash ios lo hi s _ hist M m Hda Hlen Hrd Hv) as (L & st & ps & d' & _ & E2 & Hco & _).
    rewrite E2 in E. cbn [mbind option_bind] in E. by injection E as <- <-.
Qed.

Lemma recoverable_call c S hist M a S' hist' M' :
  recoverable S → sys_inv S hist M → limits c S → reliable c S → (∀ env, c ≠ CBackground env) →
  step hash strerror c S = Some (a, S') → sys_inv S' hist' M' → sized (sys_db S') → recoverable S'.
Proof.
  intros Hr Hs [Hl Hc] He Hnb E [Hda' _] Hz. pose proof (vlogs_ok_of _ _ (da_values _ _ _ Hda')) as Hok. pose proof Hs as [Hda Hb].
  destruct c as [env key value|env key|io key sn|ios lo hi sn| |x|env]; cbn [step reliable] in *.
  - unfold Put in E. destruct (write_op _ _ _ _ _ _) as [r|] eqn:Ew; [|done]. cbn [mbind option_bind] in E.
    pose proof (recoverable_write strerror S hist M env kTypeValue key value r Hr Hs Hl Hc He ltac:(by left) Ew) as H.
    destruct (write_answer r S) as [? ?]. injection E as <- <-. by apply H.
  - unfold Delete in E. destruct (write_op _ _ _ _ _ _) as [r|] eqn:Ew; [|done]. cbn [mbind option_bind] in E.
    pose proof (recoverable_write strerror S hist M env kTypeDeletion key [] r Hr Hs Hl Hc He ltac:(by right) Ew) as H.
    destruct (write_answer r S) as [? ?]. injection E as <- <-. by apply H.
  - destruct (read_step (CGet io key sn) S hist M a S' Hda Hl Hc E) as [Hco ->]. by apply recoverable_cache.
  - destruct (read_step (CScan ios lo hi sn) S hist M a S' Hda Hl Hc E) as [Hco ->]. by apply recoverable_cache.
  - injection E as <- <-. apply (recoverable_move S); try done. by apply recoverable_files.
  - injection E as <- <-. apply (recoverable_move S); try done. by apply recoverable_files.
  - by destruct (Hnb env).
Qed.

(** The loop looks for work. *)
Lemma recoverable_start S S' : recoverable S → sys_bg S = BgIdle → bg_start (sys_db S) = Some S' → recoverable S'.
Proof.
  intros Hr Eb. assert (∀ b', flushed b' = false → bg_files (sys_db S) b' → recoverable (mkSystem (sys_db S) b')) as Hmove.
  { intros b' Hf Hb. apply (recoverable_move S); try done. by rewrite Eb. }
  unfold bg_start. destruct (exit_ (sys_db S)); [intros [= <-]; by apply Hmove|].
  destruct (imm_ (sys_db S)) as [imm|] eqn:Ei.
  { intros [= <-]. apply Hmove; [done|]. split; [|done]. destruct Hr as (? & ? & ? & ? & Hdu). pose proof (du_mem _ _ _ _ _ Hdu) as Hm.
    rewrite Ei in Hm. apply Hm. }
  destruct (CompactionNeeded (sys_db S)).
  { destruct (PickCompaction (sys_db S)) as [c|]; [|done]. cbn [mbind option_bind]. intros [= <-]. by apply Hmove. }
  destruct (VlogGcNeeded (sys_db S)); intros [= <-]; [|by apply Hmove]. apply (recoverable_move S); try done. by rewrite Eb.
Qed.

Lemma recoverable_flush wrap env f f' d' S hist M :
  flush_phase wrap → recoverable S → data_inv (sys_db S) hist M → db_limits (sys_db S) → sys_bg S = wrap f → flush_inv (sys_db S) f →
  (∀ s, f ≠ FlDone s) → match f with FlInstall _ _ => manifest_env_fine (fe_manifest env) | _ => True end →
  flush_step env f (sys_db S) = Some (f', d') → sized d' → recoverable (mkSystem d' (wrap f')).
Proof.
  intros Hp (floor & old & cur & later & Hdu) Hda Hl Eb Hf Hnd Hfine E Hz. destruct f as [imm log m|log r|s]; [| |by destruct (Hnd s)].
  - exists floor, old, cur, later. by eapply (durable_flush_build S floor old cur later Hdu hist M Hda Hl wrap Hp).
  - eexists _, _, cur, later. by eapply (durable_flush_install S floor old cur later Hdu hist M Hda Hl wrap Hp).
Qed.

(** The flush ends. *)
Lemma recoverable_flushed wrap s d' b' S :
  flush_phase wrap → recoverable S → sys_bg S = wrap (FlDone s) → flush_inv (sys_db S) (FlDone s) →
  (if ok s then d' = set_imm None (sys_db S) else d' = sys_db S ∨ d' = set_error false s (sys_db S)) →
  flushed b' = false → (∀ d, bg_files d b') → recoverable (mkSystem d' b').
Proof.
  intros Hp Hr Eb Hf Hd Hb Hbf. destruct (ok s) eqn:Es.
  - subst d'. destruct Hr as (floor & old & cur & later & Hdu). exists floor, old, cur, later. apply durable_drop; [done| | |apply Hbf].
    + destruct (Hf Es) as (imm & r & -> & _). done.
    + by rewrite Eb, (proj1 (Hp _)).
  - apply (recoverable_move S); try done; try (by destruct Hd as [->| ->]). by rewrite Eb, (proj1 (Hp _)), Es.
Qed.

Lemma recoverable_entry e x S S' hist M hist' M' :
  recoverable S → data_inv (sys_db S) hist M → db_limits (sys_db S) → sys_bg S = BgGcEntries x → scanning_ok (sys_db S) hist x →
  clean_entry e → gc_entry_step strerror e x (sys_db S) = Some S' → sys_inv S' hist' M' → sized (sys_db S') → recoverable S'.
Proof.
  intros Hr Hda Hl Eb Hx He E [Hda' _] Hz. pose proof (vlogs_ok_of _ _ (da_values _ _ _ Hda')) as Hok. unfold gc_entry_step in E.
  assert (∀ d b', recoverable (mkSystem d (BgGcEntries x)) → flushed b' = false → (∀ d, bg_files d b') → recoverable (mkSystem d b')) as Hmove.
  { intros d b' Hd Hb Hbf. by apply (recoverable_move (mkSystem d (BgGcEntries x))). }
  assert (recoverable (mkSystem (sys_db S) (BgGcEntries x))) as Hstay by (rewrite <- Eb; by destruct S).
  destruct (sc_entries x) as [|[[key value] off] es] eqn:Ees; [injection E as <-; apply Hmove; by destruct (ok (sc_status x))|].
  destruct (gc_entry _ _ _ _ _ _ _) as [[[s n] d']|] eqn:Eg; [|done]. cbn [mbind option_bind] in E. injection E as <-. cbn [sys_db] in *.
  apply Hmove; [|by destruct n; [|destruct (ok s)]..]. unfold gc_entry in Eg.
  destruct (LookupIn _ _ _ _ _) as [res|]; [|done]. cbn [mbind option_bind] in Eg. cbv zeta in Eg.
  destruct (negb _); [by injection Eg as <- <- <-|]. destruct (WriteEntry _ _ _ _ _ _ _) as [[s1 d1]|] eqn:Ew; [|done].
  cbn [mbind option_bind] in Eg. injection Eg as <- <- <-.
  destruct (entry_small _ hist M Hda x Hx key value off es Ees) as [[Hk Hkv] _]. cbn [fst snd] in *.
  destruct Hr as (floor & old & cur & later & Hdu).
  destruct (durable_entry strerror S floor old cur later hist M e kTypeValue key value false s1 d1 Hdu Hda (dl_seq _ Hl) ltac:(lia) ltac:(lia) He ltac:(by left) Ew Hok Hz)
    as (cur' & H).
  exists floor, old, cur', later. by rewrite Eb in H.
Qed.

Lemma recoverable_bg env S hist M S' hist' M' :
  recoverable S → sys_inv S hist M → db_limits (sys_db S) → bg_limits env S → reliable (CBackground env) S →
  bg_step strerror env S = Some S' → sys_inv S' hist' M' → sized (sys_db S') → recoverable S'.
Proof.
  intros Hr [Hda Hb] Hl Hlim He E Hs' Hz. pose proof Hr as (floor & old & cur & later & Hdu).
  pose proof (recoverable_files S Hr) as Hbf. unfold bg_limits in Hlim. cbn [reliable] in He.
  unfold bg_step in E. fold (first_entry env) in E. destruct (first_entry env) as [entry drain] eqn:Ef. cbn [fst snd] in He.
  assert (∀ b', flushed b' = flushed (sys_bg S) → bg_files (sys_db S) b' → recoverable (mkSystem (sys_db S) b')) as Hmove.
  { intros b' Hf Hb'. by apply (recoverable_move S). }
  destruct (sys_bg S) as [|f|c|c F|c outs|s| |g|x|x|f x|g|s] eqn:Eb; cbn [bg_inv] in Hb; cbn [bg_files] in Hbf.
  - by eapply recoverable_start.
  - destruct f as [imm log n|log r|s].
    3:{ injection E as <-. eapply (recoverable_flushed BgFlush s); [apply loop_flush_phase|done|done|done|destruct (ok s); [done|by right]|done|done]. }
    all: destruct (flush_step _ _ _) as [[f' d']|] eqn:E1; [|done]; cbn [mbind option_bind] in E; injection E as <-;
      by eapply (recoverable_flush BgFlush (be_flush env)); [apply loop_flush_phase|..].
  - injection E as <-. by apply Hmove.
  - destruct (compact_merge _ _ _ _) as [[[s outs] d']|] eqn:E1; [|done]. cbn [mbind option_bind] in E. injection E as <-.
    exists floor, old, cur, later. by eapply (durable_merge S floor old cur later Hdu hist M Hda).
  - destruct (compact_install _ _ _ _) as [s d'] eqn:E1. injection E as <-. destruct He as [Hse Hm]. eexists _, _, cur, later.
    eapply (durable_compact_install S floor old cur later Hdu hist M Hda Hl); try done; [apply Hse|by eapply settled_old].
  - injection E as <-. destruct (ok s); [by apply Hmove|]. by apply (recoverable_move S); try done; rewrite ?Eb.
  - destruct He as [Hse Hm]. destruct (gc_rotate _ _ _) as [[[s fresh] d']|] eqn:E1; [|done]. cbn [mbind option_bind] in E. injection E as <-.
    cbn [sys_db] in *. destruct (durable_gc_rotate S floor old cur later Hdu (proj1 Hse) (settled_old _ _ _ _ _ Hdu Hse) Hb _ _ _ _ _
      (match fresh with None => BgGcDone s | Some n => let retired := erase_vlog n (vlogs_ (vsep_ d')) in BgGcScan (mkCollecting retired retired 0) end)
      hist M Hda Hlim E1 Hm Hz) as (floor' & old' & H); [by rewrite Eb|by destruct fresh|by destruct fresh|by exists floor', old', cur, later].
  - destruct (gc_rest g) as [|gen rest]; [injection E as <-; by apply Hmove|].
    destruct (vlog.ScanEntries _ _ _) as [[s es]|]; [|done]. cbn [mbind option_bind] in E. injection E as <-. by apply Hmove.
  - by eapply recoverable_entry.
  - injection E as <-. destruct (imm_ (sys_db S)) as [imm|] eqn:Ei; [|by apply Hmove]. apply Hmove; [done|]. split; [|done].
    pose proof (du_mem _ _ _ _ _ Hdu) as Hm. rewrite Ei in Hm. apply Hm.
  - destruct Hb as [Hf Hx]. destruct f as [imm log n|log r|s].
    3:{ injection E as <-. pose proof (recoverable_flushed (λ f, BgGcFlush f x) s) as Hend. destruct (ok s) eqn:Es.
        - eapply Hend; [apply gc_flush_phase|done|done|done|done|done|done].
        - eapply Hend; [apply gc_flush_phase|done|done|done|by left|done|done]. }
    all: destruct (flush_step _ _ _) as [[f' d']|] eqn:E1; [|done]; cbn [mbind option_bind] in E; injection E as <-;
      by eapply (recoverable_flush (λ f, BgGcFlush f x) drain); [apply gc_flush_phase|..].
  - destruct He as [Hse Hm]. destruct (gc_retire _ _ _ _ _) as [[s d']|] eqn:E1; [|done]. cbn [mbind option_bind] in E. injection E as <-.
    destruct (durable_gc_retire S floor old cur later Hdu (proj1 Hse) (settled_old _ _ _ _ _ Hdu Hse) (co_enabled _ _ _ _ Hb) strerror _ _ _ _ (BgGcDone s)
      hist M Hda Hb E1 Hm Hz) as (floor' & old' & H); [by rewrite Eb|done|done|by exists floor', old', cur, later].
  - injection E as <-. destruct (ok s); by apply (recoverable_move S); try done; rewrite ?Eb.
Qed.

Lemma recoverable_step c S hist M a S' hist' M' :
  recoverable S → sys_inv S hist M → limits c S → reliable c S → step hash strerror c S = Some (a, S') → sys_inv S' hist' M' →
  sized (sys_db S') → recoverable S'.
Proof.
  intros Hr Hs Hl He E Hs' Hz. destruct c as [env key value|env key|io key sn|ios lo hi sn| |x|env]; try (by eapply recoverable_call).
  destruct Hl as [Hl Hc]. cbn [step] in E. destruct (bg_step strerror env S) as [S1|] eqn:E1; [|done]. cbn [mbind option_bind] in E. injection E as <- <-.
  by eapply recoverable_bg.
Qed.

End steps.

(** ** The directory and the separation of values stay *)

Section home.
Context (hash : bytes → Z) (strerror : Z → bytes).

Definition home (d : DB) : bytes * bool := (dir_ d, vsep_enabled_ (vsep_ d)).

Lemma home_same_files d d' : same_files d d' → home d' = home d.
Proof using. intros []. unfold home. congruence. Qed.

Lemma home_written P d d' : ssts_written P d d' → home d' = home d.
Proof using. intros []. unfold home. congruence. Qed.

Lemma home_manifest env d : home (WriteManifest env d).2 = home d.
Proof using. by destruct (WriteManifest_keeps env d) as (s & f & ->). Qed.

Lemma home_write env type key value S r :
  recoverable S → clean_entry (pe_entry env) → write_op strerror env type key value (sys_db S) = Some r → home (sys_db (write_answer r S).2) = home (sys_db S).
Proof using.
  intros (? & ? & ? & ? & Hdu) He. pose proof (du_ring _ _ _ _ _ Hdu) as Hr. unfold write_op. destruct (imm_ (sys_db S)); [by intros [= <-]|].
  unfold and_then. destruct (if _ : bool then _ else _) as [[s d0]|] eqn:E0; [|done]. cbn [mbind option_bind].
  assert (home d0 = home (sys_db S) ∧ (ok s = true → ring_ (wal_ d0) = None)) as [Hh Hr0].
  { destruct (_ <=? _); [|by injection E0 as <- <-]. split; [|intros Hs; by eapply rotated_wal]. unfold RotateForFlush, io_uring_active_ in E0. rewrite Hr in E0.
    unfold and_then in E0. cbn [mbind option_bind] in E0. change (ok Ok) with true in E0. cbv iota zeta in E0. repeat case_match; simplify_eq; done. }
  destruct (ok s); [|by intros [= <-]]. destruct (WriteEntry _ _ _ _ _ _ _) as [[s1 d1]|] eqn:Ew; [|done]. cbn [mbind option_bind]. intros [= <-].
  pose proof (WriteEntry_same strerror (pe_entry env) type key value true d0 s1 d1 (Hr0 eq_refl) He Ew) as Hsf.
  cbn. by rewrite (home_same_files _ _ Hsf).
Qed.

Lemma home_flush env f d f' d' : flush_step env f d = Some (f', d') → home d' = home d.
Proof using.
  destruct f as [imm log n|log r|s]; cbn [flush_step].
  - destruct (flush_build _ _ _ _) as [[[s r] d1]|] eqn:E; [|done]. cbn [mbind option_bind]. intros [= <- <-].
    destruct (flush_build_files _ _ _ _ _ _ _ E) as [Hs _]. by eapply home_written.
  - unfold flush_install. set (d1 := set_current _ d). pose proof (home_manifest (fe_manifest env) d1) as Hm. destruct (WriteManifest _ d1) as [s d2].
    cbn [snd] in Hm. destruct (negb (ok s)); by intros [= <- <-].
  - by intros [= <- <-].
Qed.

Lemma home_merge env F c d s outs d' : 0 ≤ next_file_number_ d → compact_merge env F c d = Some (s, outs, d') → home d' = home d.
Proof using.
  intros Hb. unfold compact_merge. destruct (mapM table_iter _) as [children|]; [|done]. cbn [mbind option_bind].
  destruct (merge_SeekToFirst _) as [iter|]; [|done]. cbn [mbind option_bind].
  destruct (merge_loop _ _ _ _ _ _) as [m|] eqn:El; [|done]. cbn [mbind option_bind].
  apply (merge_loop_files d Hb) in El; [|split; [split; try done; intros path; by left|constructor]].
  destruct (if ok (m_status m) then _ else _) as [m1|] eqn:Em; [|done]. cbn [mbind option_bind].
  assert (merge_files d m1) as [Hw%home_written _] by (destruct (ok (m_status m)); [by eapply seal_files|by injection Em as <-]).
  destruct (negb _); by intros [= <- <- <-].
Qed.

Lemma home_install env c outs d s d' : compact_install env c outs d = (s, d') → home d' = home d.
Proof using.
  unfold compact_install. set (d1 := set_current _ d). pose proof (home_manifest (ce_manifest env) d1) as Hm. destruct (WriteManifest _ d1) as [s0 d2].
  cbn [snd] in Hm. destruct (negb (ok s0)); by intros [= <- <-].
Qed.

Lemma home_gc_rotate open_err env d s gen d' : gc_rotate open_err env d = Some (s, gen, d') → home d' = home d.
Proof using.
  unfold gc_rotate. destruct (snapshots_ d); [|by intros [= <- <- <-]]. destruct (vlog.Open _ _ _ _) as [s0 [fresh|]]; [|by intros [= <- <- <-]].
  cbv zeta. set (d1 := set_next_file _ _). pose proof (home_manifest env d1) as Hm. destruct (WriteManifest env d1) as [s1 d2]. cbn [snd] in Hm.
  destruct (ok s1); [by intros [= <- <- <-]|]. destruct (list.last _); [|done]. cbn [mbind option_bind]. by intros [= <- <- <-].
Qed.

Lemma home_gc_entry env gen key value off d s n d' :
  ring_ (wal_ d) = None → clean_entry env → gc_entry strerror env gen key value off d = Some (s, n, d') → home d' = home d.
Proof using.
  intros Hr He. unfold gc_entry. destruct (LookupIn _ _ _ _ _); [|done]. cbn [mbind option_bind]. cbv zeta. destruct (negb _); [by intros [= <- <- <-]|].
  destruct (WriteEntry _ _ _ _ _ _ _) as [[s1 d1]|] eqn:Ew; [|done]. cbn [mbind option_bind]. intros [= <- <- <-].
  apply home_same_files. by eapply WriteEntry_same.
Qed.

Lemma home_gc_retire env retired rewritten d s d' : gc_retire strerror env retired rewritten d = Some (s, d') → home d' = home d.
Proof using.
  unfold gc_retire. destruct (snapshots_ d); [|by intros [= <- <-]]. destruct (ForceDurabilityLocked _ _ _ _) as [[s0 w]|]; [|done].
  unfold and_then. cbn [mbind option_bind]. destruct (ok s0); [|by intros [= <- <-]]. cbv zeta. set (d1 := set_vsep _ _).
  pose proof (home_manifest (ge_retire env) d1) as Hm. destruct (WriteManifest (ge_retire env) d1) as [s1 d2]. cbn [snd] in Hm.
  destruct (negb (ok s1)); by intros [= <- <-].
Qed.

Lemma home_bg env S S' :
  recoverable S → reliable (CBackground env) S → bg_step strerror env S = Some S' → home (sys_db S') = home (sys_db S).
Proof using.
  intros (floor & old & cur & later & Hdu) He. cbn [reliable] in He. pose proof (log_number_ok _ _ _ _ _ Hdu) as [_ Hn]. pose proof (du_number _ _ _ _ _ Hdu) as Hnx.
  unfold bg_step. fold (first_entry env). destruct (first_entry env) as [entry drain]. cbn [fst snd] in He.
  destruct (sys_bg S) as [|f|c|c F|c outs|s| |g|x|x|f x|g|s].
  - unfold bg_start. repeat case_match; intros; simplify_option_eq; done.
  - destruct f as [imm log n|log r|s]; [| |by intros [= <-]; destruct (ok s)].
    all: destruct (flush_step _ _ _) as [[f' d']|] eqn:E; [|done]; cbn [mbind option_bind]; intros [= <-]; by eapply home_flush.
  - by intros [= <-].
  - destruct (compact_merge _ _ _ _) as [[[s outs] d']|] eqn:E; [|done]. cbn [mbind option_bind]. intros [= <-]. eapply home_merge; [|exact E]. lia.
  - destruct (compact_install _ _ _ _) as [s d'] eqn:E. intros [= <-]. by eapply home_install.
  - intros [= <-]. by destruct (ok s).
  - destruct (gc_rotate _ _ _) as [[[s gen] d']|] eqn:E; [|done]. cbn [mbind option_bind]. intros [= <-]. by eapply home_gc_rotate.
  - destruct (gc_rest g); [by intros [= <-]|]. destruct (vlog.ScanEntries _ _ _) as [[s es]|]; [|done]. cbn [mbind option_bind]. by intros [= <-].
  - unfold gc_entry_step. destruct (sc_entries x) as [|[[key value] off] es]; [by intros [= <-]|].
    destruct (gc_entry _ _ _ _ _ _ _) as [[[s n] d']|] eqn:E; [|done]. cbn [mbind option_bind]. intros [= <-].
    eapply home_gc_entry; [apply Hdu|done|exact E].
  - by intros [= <-].
  - destruct f as [imm log n|log r|s]; [| |by intros [= <-]; destruct (ok s)].
    all: destruct (flush_step _ _ _) as [[f' d']|] eqn:E; [|done]; cbn [mbind option_bind]; intros [= <-]; by eapply home_flush.
  - destruct (gc_retire _ _ _ _ _) as [[s d']|] eqn:E; [|done]. cbn [mbind option_bind]. intros [= <-]. by eapply home_gc_retire.
  - intros [= <-]. by destruct (ok s).
Qed.

Lemma home_step c S hist M a S' :
  recoverable S → sys_inv S hist M → limits c S → reliable c S → step hash strerror c S = Some (a, S') → home (sys_db S') = home (sys_db S).
Proof using.
  intros Hr [Hda _] [Hl Hc] He E. destruct c as [env key value|env key|io key sn|ios lo hi sn| |x|env]; cbn [step] in E.
  - unfold Put in E. destruct (write_op _ _ _ _ _ _) as [r|] eqn:Ew; [|done]. cbn [mbind option_bind] in E.
    pose proof (home_write env kTypeValue key value S r Hr He Ew) as H. destruct (write_answer r S). by injection E as <- <-.
  - unfold Delete in E. destruct (write_op _ _ _ _ _ _) as [r|] eqn:Ew; [|done]. cbn [mbind option_bind] in E.
    pose proof (home_write env kTypeDeletion key [] S r Hr He Ew) as H. destruct (write_answer r S). by injection E as <- <-.
  - destruct (read_step hash strerror (CGet io key sn) S hist M a S' Hda Hl Hc E) as [[? Eq] _]. by rewrite Eq.
  - destruct (read_step hash strerror (CScan ios lo hi sn) S hist M a S' Hda Hl Hc E) as [[? Eq] _]. by rewrite Eq.
  - by injection E as <- <-.
  - by injection E as <- <-.
  - destruct (bg_step strerror env S) as [S1|] eqn:E1; [|done]. cbn [mbind option_bind] in E. injection E as <- <-. by eapply home_bg.
Qed.

End home.

(** ** A directory at rest *)

(** The tables, value logs and log records stand for the map. *)
Record rest_ok (v : Version) (w : Vsep) (recs : list version) (m : gmap bytes bytes) : Prop := {
  rs_version : version_ok v;
  rs_filed : filed v;
  rs_stacked : stacked (recs :: version_layers v);
  rs_coherent : coherent (recs ++ concat (version_layers v));
  rs_fits : ∃ next, Forall (version_fits next) (recs ++ concat (version_layers v));
  rs_logs : logs_ok w (recs ++ concat (version_layers v));
  rs_now : views w (recs ++ concat (version_layers v)) kMaxSeq m
}.

(** What a crash leaves, and [Open] finds. *)
Definition resting (f : files) (dir : bytes) (sep : bool) (m : gmap bytes bytes) : Prop :=
  ∃ img v w floor logs, on_disk_with img f dir v (vlogs_ w) sep floor logs ∧ Forall (λ p, torn_log p.2 (img p.1 p.2)) logs ∧
    vsep_enabled_ w = sep ∧ rest_ok v w (concat logs.*2) m.

Lemma whole_logs (logs : list (Z * list version)) : Forall (λ p, torn_log p.2 (whole p.1 p.2)) logs.
Proof. apply Forall_forall. intros p _. by left. Qed.

Lemma views_reads w vs ws m : (∀ k, answer (read vs k kMaxSeq) = answer (read ws k kMaxSeq)) → views w ws kMaxSeq m → views w vs kMaxSeq m.
Proof. intros E H k. rewrite E. apply H. Qed.

Lemma logs_ok_reads w vs ws : (∀ k, answer (read vs k kMaxSeq) = answer (read ws k kMaxSeq)) → logs_ok w ws → logs_ok w vs.
Proof. intros E [H1 H2]. split; [done|]. intros He k stored. rewrite E. by apply H2. Qed.

(** The memtables and their log records are the same versions. *)
Lemma records_layers S floor old cur later hist M :
  durable S floor old cur later → sys_inv S hist M →
  let recs := concat old.*2 ++ cur in let layer := version_layers (current_ (sys_db S)) in
  stacked (recs :: layer) ∧ ∀ u, u ∈ recs ++ concat layer ↔ u ∈ concat (layers (sys_db S)).
Proof.
  intros Hdu [Hda Hb]. cbv zeta. set (d := sys_db S) in *. pose proof (di_stacked _ _ (da_db _ _ _ Hda)) as Hst.
  pose proof (du_mem _ _ _ _ _ Hdu) as Hm. fold d in Hm. unfold layers, view_layers in *. destruct (imm_ d) as [imm|] eqn:Ei; cbn [imm_versions stacked concat] in *.
  - destruct Hm as (Hm & _ & Hm'). destruct Hst as (H1 & H2 & H3). destruct (flushed (sys_bg S)) eqn:Ef.
    + subst old. cbn [fmap list_fmap concat app]. assert (∀ u, u ∈ mem_versions imm → u ∈ concat (version_layers (current_ d))) as Hin.
      { assert (∃ s, flush_inv d (FlDone s) ∧ ok s = true) as (s & Hf & Hs).
        { unfold flushed in Ef. destruct (sys_bg S); try done; destruct f; try done; eexists; (split; [|exact Ef]); cbn [bg_inv] in Hb; [done|apply Hb]. }
        destruct (Hf Hs) as (imm' & r & Ei' & Hr & Hv). rewrite Ei in Ei'. injection Ei' as <-. intros u Hu. apply elem_of_concat. exists (ref_versions r).
        split; [|by rewrite Hv]. unfold version_layers. apply elem_of_app. left. by apply list_elem_of_fmap_2. }
      split; [split; [|done]|].
      * intros u w Hu Hw Hk. rewrite <- Hm in *. apply (H1 u w); [done|apply elem_of_app; by right|done].
      * intros u. rewrite <- Hm, !elem_of_app. pose proof (Hin u). tauto.
    + destruct Hm' as [Hm' _]. split; [split; [|done]|].
      * intros u w Hu Hw Hk. rewrite <- Hm, <- Hm' in *. apply elem_of_app in Hu as [Hu|Hu].
        -- destruct (H2 u w Hu Hw Hk) as [?|?]; [by left|right]. apply elem_of_app. by left.
        -- destruct (H1 u w Hu ltac:(apply elem_of_app; by right) Hk) as [?|?]; [by left|right]. apply elem_of_app. by right.
      * intros u. rewrite <- Hm, <- Hm', !elem_of_app. tauto.
  - destruct Hst as (H1 & _ & H3). cbn [app] in H1. split; [split; [|done]|].
    + intros u w Hu Hw Hk. rewrite <- Hm in *. by apply (H1 u w).
    + intros u. by rewrite <- Hm.
Qed.

Lemma durable_rest_ok S floor old cur later hist M :
  durable S floor old cur later → sys_inv S hist M → next_seq_ (sys_db S) ≤ 2 ^ 56 →
  rest_ok (current_ (sys_db S)) (vsep_ (sys_db S)) (concat old.*2 ++ cur) (contents M).
Proof.
  intros Hdu Hs Hn. destruct (records_layers _ _ _ _ _ _ _ Hdu Hs) as [Hst Hel].
  destruct Hs as [Hda _]. set (d := sys_db S) in *. pose proof (da_db _ _ _ Hda) as Hd. set (recs := concat old.*2 ++ cur) in *.
  assert (coherent (concat (layers d))) as Hco by (eapply coherent_sub; [apply (di_coherent _ _ Hd)|apply (di_sub _ _ Hd)]).
  assert (∀ k, answer (read (recs ++ concat (version_layers (current_ d))) k kMaxSeq) = answer (read hist k kMaxSeq)) as Hrd.
  { intros k. rewrite (read_ext_coherent _ (concat (layers d))) by done. apply (di_reads _ _ Hd).
    destruct (readable_latest d hist Hd Hn) as [_ H]. exact H. }
  split; [apply Hd|apply Hdu|done| | |by eapply logs_ok_reads, Hda|by eapply views_reads, Hda].
  - eapply coherent_sub; [exact Hco|]. intros u. by rewrite Hel.
  - exists (next_seq_ d). eapply fits_sub; [apply (di_hist _ _ Hd)|]. intros u Hu. apply (di_sub _ _ Hd). by apply Hel.
Qed.

(** A crash at any point of a run. *)
Lemma crash_resting S hist M :
  recoverable S → sys_inv S hist M → next_seq_ (sys_db S) ≤ 2 ^ 56 →
  resting (disk (sys_db S)) (dir_ (sys_db S)) (vsep_enabled_ (vsep_ (sys_db S))) (contents M).
Proof.
  intros (floor & old & cur & later & Hdu) Hs Hn. exists whole, (current_ (sys_db S)), (vsep_ (sys_db S)), floor, (all_logs (log_number_ (wal_ (sys_db S))) old cur later).
  split; [apply Hdu|]. split; [apply whole_logs|]. split; [done|]. rewrite concat_all_logs. by eapply durable_rest_ok.
Qed.

Lemma resting_empty dir o : resting ∅ dir (enable_value_separation o) ∅.
Proof.
  assert (vlogs_ (open_vsep o (new_vlogs o)) = new_vlogs o) as Ev by (unfold open_vsep, new_vlogs; by destruct (enable_value_separation o)).
  exists whole, (assemble []), (open_vsep o (new_vlogs o)), 1, []. rewrite Ev. split; [|split; [constructor|split; [unfold open_vsep; by destruct (enable_value_separation o)|]]].
  - split; rewrite ?lookup_empty; try done.
    + intros path [? E]. by rewrite lookup_empty in E.
    + split_and!; [done|done|]. unfold new_vlogs. by destruct (enable_value_separation o).
    + unfold new_vlogs. destruct (enable_value_separation o); [|constructor]. apply Forall_singleton. by rewrite lookup_empty.
    + unfold new_vlogs. destruct (enable_value_separation o); (split; [|by repeat constructor]); cbn; lia.
    + unfold new_vlogs. destruct (enable_value_separation o); [done|]. split; [done|]. intros n _. by rewrite lookup_empty.
    + intros n. split; [by intros ?%not_elem_of_nil|]. intros (_ & _ & [? E]). by rewrite lookup_empty in E.
  - assert (version_layers (assemble []) = replicate 6 []) as El by done. split; rewrite ?El; cbn [fmap list_fmap concat app replicate].
    + split; [constructor|]. apply Forall_forall. intros level Hin. assert (level = []) as ->; [|by split].
      assert (levels (assemble []) = replicate 6 []) as E by done. rewrite E in Hin. by apply elem_of_replicate in Hin as [-> _].
    + split; try done; try constructor.
      * intros i level Hi. assert (levels (assemble []) = replicate 6 []) as E by done. rewrite E in Hi. apply lookup_replicate in Hi as [-> _]. constructor.
      * by intros r u ?%not_elem_of_nil.
    + cbn. unfold newer. repeat split; by intros u v ?%not_elem_of_nil.
    + by intros u v ?%not_elem_of_nil.
    + by exists 0.
    + apply new_logs.
    + by intros k.
Qed.

(** ** Opening it *)

Lemma version_layers_refs v u : u ∈ concat (version_layers v) → ∃ r, r ∈ version_refs v ∧ u ∈ ref_versions r.
Proof.
  unfold version_layers, version_refs. rewrite concat_app, elem_of_app. intros [Hu|Hu].
  - apply elem_of_concat in Hu as (l & (r & -> & Hr)%list_elem_of_fmap & Hu). exists r. split; [apply elem_of_app; by left|done].
  - apply elem_of_concat in Hu as (l & (level & -> & Hl)%list_elem_of_fmap & (r & Hr & Hu)%level_versions_elem). exists r.
    split; [|done]. apply elem_of_app. right. apply elem_of_concat. by exists level.
Qed.

Lemma filed_levels v : filed v → Forall (λ level, NoDup (ref_number <$> level)) (levels v).
Proof.
  intros Hv. pose proof (fv_numbers _ Hv) as Hnd. unfold version_refs in Hnd. rewrite fmap_app in Hnd. apply NoDup_app in Hnd as (_ & _ & Hnd).
  induction (levels v) as [|l ls IH]; [constructor|]. cbn [concat] in Hnd. rewrite fmap_app in Hnd. apply NoDup_app in Hnd as (? & _ & ?). constructor; auto.
Qed.

Lemma first_log_records floor logs : concat (first_log floor logs).*2 = concat logs.*2.
Proof. by destruct logs. Qed.

Lemma write_vlogs_id dir vs f : Forall (λ x, f !! VlogPath dir (vlog.number_ x) = Some (vlog.v_file x)) vs → write_vlogs dir vs f = f.
Proof. induction 1 as [|x l Hx _ IH]; [done|]. unfold write_vlogs. cbn [foldl]. rewrite insert_id by done. exact IH. Qed.

Section reopen.
Context (dir : bytes) (o : Options) (v : Version) (w : Vsep) (floor : Z) (logs : list (Z * list version)) (m : gmap bytes bytes) (d : DB).
Context (Hrc : recovered dir o v (vlogs_ w) floor (first_log floor logs) d) (Hw : vsep_enabled_ w = enable_value_separation o).
Context (Hrs : rest_ok v w (concat logs.*2) m).

(** The value logs come back under a new cache. *)
Lemma reopened_vsep : vsep_enabled_ (vsep_ d) = vsep_enabled_ w ∧ vlogs_ (vsep_ d) = vlogs_ w.
Proof using Hrc Hw.
  rewrite (rc_vsep _ _ _ _ _ _ _ Hrc), Hw. unfold open_vsep. pose proof (od_sep _ _ _ _ _ _ _ (rc_disk _ _ _ _ _ _ _ Hrc)) as Hs.
  destruct (enable_value_separation o); [done|]. split; [done|]. symmetry. apply Hs.
Qed.

Lemma reopened_values : values_ok (next_file_number_ d) (vsep_ d).
Proof using Hrc Hw.
  destruct reopened_vsep as [E1 E2]. pose proof (rc_disk _ _ _ _ _ _ _ Hrc) as Hod. destruct (on_disk_vnumbers _ _ _ _ _ _ _ Hod) as [Hnd Hb].
  pose proof (new_cache_repr (Key := bytes) (Value := bytes) len 16 (Z.shiftl 32 20) ltac:(lia) ltac:(vm_compute; discriminate)) as Hc.
  split.
  - rewrite E2. pose proof (od_vlogs _ _ _ _ _ _ _ Hod) as Hvl. pose proof (rc_vnumbers _ _ _ _ _ _ _ Hrc) as Hn.
    rewrite Forall_forall in Hb, Hvl, Hn |- *. intros x Hx. split; [by apply Hvl|]. specialize (Hb x Hx). specialize (Hn x Hx). cbn beta in *. lia.
  - by rewrite E2.
  - rewrite E1, Hw. intros He. unfold current_vlog. rewrite E2, (rc_vsep _ _ _ _ _ _ _ Hrc). unfold open_vsep. rewrite He. cbn [vlog_current_].
    pose proof (od_sep _ _ _ _ _ _ _ Hod) as Hs. rewrite He in Hs. destruct (list.last (vlogs_ w)) as [x|] eqn:El; [|by apply last_None in El].
    cbn [fmap option_fmap option_map mbind option_bind]. rewrite (find_vlog_elem _ x); [done|done|by apply last_Some_elem_of].
  - rewrite (rc_vsep _ _ _ _ _ _ _ Hrc). unfold open_vsep. destruct (enable_value_separation o); cbn [vlog_cache_];
      (eexists; split; [exact Hc|]; by intros i k x ?%not_elem_of_nil).
Qed.

Lemma reopened_layers :
  layers d = mem_versions (mem_ d) :: [] :: version_layers v ∧ ∀ u, u ∈ concat (layers d) ↔ u ∈ concat logs.*2 ++ concat (version_layers v).
Proof using Hrc.
  assert (layers d = mem_versions (mem_ d) :: [] :: version_layers v) as El.
  { unfold layers, view_layers. by rewrite (rc_imm _ _ _ _ _ _ _ Hrc), (rc_current _ _ _ _ _ _ _ Hrc). }
  split; [done|]. intros u. rewrite El. cbn [concat app]. by rewrite (rc_versions _ _ _ _ _ _ _ Hrc), first_log_records.
Qed.

Lemma reopened_inv : data_inv d (concat (layers d)) (mkMap m []).
Proof using Hrc Hw Hrs.
  destruct reopened_layers as [El Hel]. destruct reopened_vsep as [E1 E2]. pose proof Hrs as [R1 R2 R3 R4 [next R5] R6 R7].
  assert (∀ k, answer (read (concat (layers d)) k kMaxSeq) = answer (read (concat logs.*2 ++ concat (version_layers v)) k kMaxSeq)) as Hrd
    by (intros k; by rewrite (read_ext_coherent _ _ k kMaxSeq R4 (λ u _, Hel u))).
  assert (logs_grow w (vsep_ d)) as Hg by (unfold logs_grow; rewrite E1, E2; apply logs_grow_refl).
  split; [|by apply reopened_values| | |].
  - assert (coherent (concat (layers d))) as Hco by (eapply coherent_sub; [exact R4|]; intros u; apply Hel).
    split; rewrite ?(rc_current _ _ _ _ _ _ _ Hrc), ?(rc_snapshots _ _ _ _ _ _ _ Hrc); try done.
    + apply Hrc.
    + by rewrite (rc_imm _ _ _ _ _ _ _ Hrc).
    + apply R2.
    + rewrite El. destruct R3 as [R3 R3']. split; [|split; [by intros u x ?%not_elem_of_nil|done]].
      intros u x. cbn [concat app]. rewrite (rc_versions _ _ _ _ _ _ _ Hrc), first_log_records. apply R3.
    + apply Forall_forall. intros u Hu. apply Hel in Hu as Hu'. rewrite Forall_forall in R5. destruct (R5 u Hu') as [F1 F2 F3]. split; [done| |done].
      split; [lia|]. apply elem_of_app in Hu' as [Hu'|Hu'].
      * apply (rc_log_seqs _ _ _ _ _ _ _ Hrc). by rewrite first_log_records.
      * apply version_layers_refs in Hu' as (r & Hr & Hur). by eapply (rc_table_seqs _ _ _ _ _ _ _ Hrc).
    + apply Hrc.
    + split; rewrite ?(rc_current _ _ _ _ _ _ _ Hrc).
      * by apply filed_levels.
      * apply Hrc.
      * rewrite (rc_imm _ _ _ _ _ _ _ Hrc). by intros [? ?].
    + unfold wal_wf. by rewrite (rc_ring _ _ _ _ _ _ _ Hrc).
    + by eapply values_ok_wf, reopened_values.
  - eapply logs_ok_reads; [exact Hrd|]. destruct R6 as [G1 G2]. split; [by rewrite E2|].
    intros He k stored Ha p Hp Hdp. rewrite E1 in He. rewrite E2. by eapply G2.
  - eapply views_reads; [exact Hrd|]. by eapply views_grow.
  - rewrite (rc_snapshots _ _ _ _ _ _ _ Hrc). constructor.
Qed.

(** Nothing is open that is not on disk. *)
Lemma reopened_disk : disk d = fs d.
Proof using Hrc Hw.
  destruct reopened_vsep as [_ E2]. rewrite disk_vlogs, E2, (rc_dir _ _ _ _ _ _ _ Hrc), insert_id by apply Hrc.
  pose proof (rc_vfiles _ _ _ _ _ _ _ Hrc) as Hf. pose proof (od_sep _ _ _ _ _ _ _ (rc_disk _ _ _ _ _ _ _ Hrc)) as Hs.
  destruct (enable_value_separation o); [|by rewrite (proj1 Hs)]. specialize (Hf eq_refl). by apply write_vlogs_id.
Qed.

Lemma reopened_recoverable : next_file_number_ d < 2 ^ 63 → recoverable (mkSystem d BgIdle).
Proof using Hrc Hw Hrs.
  intros Hn. destruct reopened_vsep as [E1 E2]. pose proof reopened_disk as Ed. pose proof (rc_log _ _ _ _ _ _ _ Hrc) as Hl. pose proof (rc_disk _ _ _ _ _ _ _ Hrc) as Hod.
  pose proof (rc_versions _ _ _ _ _ _ _ Hrc) as Hm. destruct (first_log floor logs) as [|[n cur] old _] using rev_ind; [done|].
  rewrite fmap_app, fmap_cons, fmap_nil, last_snoc in Hl. injection Hl as Hl. cbn [fst] in Hl. exists floor, old, cur, [].
  split; cbn [sys_db sys_bg]; rewrite ?Ed, ?E1, ?E2, ?Hw, ?(rc_dir _ _ _ _ _ _ _ Hrc), ?(rc_current _ _ _ _ _ _ _ Hrc), ?(rc_imm _ _ _ _ _ _ _ Hrc);
    try done; try apply Hrc.
  - by rewrite <- Hl.
  - apply Hrs.
  - rewrite fmap_app, concat_app in Hm. cbn [fmap list_fmap concat snd] in Hm. by rewrite app_nil_r in Hm.
Qed.

End reopen.

(** A directory at rest opens to the map it stands for. *)
Lemma open_resting env dir o f m :
  open_fine env → enable_io_uring o = false → resting f dir (enable_value_separation o) m →
  ∃ d, Open env dir o f = Some (fs d, inr d) ∧ dir_ d = dir ∧ vsep_enabled_ (vsep_ d) = enable_value_separation o ∧
    sys_inv (mkSystem d BgIdle) (concat (layers d)) (mkMap m []) ∧ (sized d → recoverable (mkSystem d BgIdle)).
Proof.
  intros He Hu (img & v & w & floor & logs & Hod & Himg & Hw & Hrs).
  destruct (Open_recovers env dir o f v (vlogs_ w) floor logs He Hu Hod Himg (rs_version _ _ _ _ Hrs) (rs_filed _ _ _ _ Hrs)) as (f' & d & E & <- & Hrc).
  exists d. split; [done|]. split; [apply Hrc|]. split.
  - rewrite <- Hw. by eapply reopened_vsep.
  - split; [split; [by eapply reopened_inv|done]|]. intros Hz. eapply reopened_recoverable; [done..|apply Hz].
Qed.
