(* ===== verification/DbInterrupt.v ===== *)
(** * Dying inside a call

    A process that dies in the middle of a call leaves the directory as a call
    whose system calls fail from some point on.  [interrupted_resting]: a write
    whose log record is cut off at any byte, or a flush, compaction or
    collection whose MANIFEST replacement stops at any of its steps, leaves a
    directory that stands for the map before the call or after it, if the reader
    notices the torn end of the log ([noticed]; DbBugs shows what happens when
    it does not). *)

From S2P Require Import Prelude Status FsUtil Encoding Log VLog LruCache InternalKey Mvcc Layers Iterator Block.
From S2P Require Import SSTable TableSize Manifest SkipList MemTable Merge Db DbRead DbInv DbFlush DbPick DbMerge DbCompact.
From S2P Require Import DbValues DbScan DbSystem DbLogs DbRefine DbOpen DbBackground DbCollect DbCorrect DbRounds DbFiles DbDisk DbDurable DbInstall DbRecover.
Import db.

(** A log that the reader takes for intact holds its records and nothing
    else. *)
Definition noticed (data : bytes) : bool :=
  match log.ForEachRecord (λ ps p, (ps ++ [p], true)) data [] [] with
  | Some (ps, log.StopEof) => bool_decide (log.wal_image [] ps = data)
  | Some (_, log.StopCorruption _) => true
  | _ => false
  end.

(** [b] has the files of [a], with [x] at the end of the log. *)
Record torn_state (x : bytes) (a b : DB) : Prop := {
  ts_dir : dir_ b = dir_ a;
  ts_fs : fs b = fs a;
  ts_log : log_number_ (wal_ b) = log_number_ (wal_ a);
  ts_vlogs : vlogs_ (vsep_ b) = vlogs_ (vsep_ a);
  ts_files : next_file_number_ b = next_file_number_ a;
  ts_writer : log.w_file (log_writer_ (wal_ b)) = log.w_file (log_writer_ (wal_ a)) ++ x
}.

(** The same write, once without a byte in the log, once without a failure
    after the value is in its log. *)
Definition refuse (env : entry_env) : entry_env :=
  mkEntryEnv (ee_vlog_writes env) (ee_lseek env) [IoError []] (ee_ring env) (ee_sync env) (ee_coins env).

Definition complete (env : entry_env) : entry_env :=
  mkEntryEnv (ee_vlog_writes env) (ee_lseek env) [] (ee_ring env) quiet_sync (ee_coins env).

Definition with_entries (es : list (entry_env * flush_env)) (env : bg_env) : bg_env :=
  let g := be_gc env in
  mkBgEnv (be_flush env) (be_compact env) (mkGcEnv (ge_open g) (ge_publish g) (ge_preads g) es (ge_sync g) (ge_retire g) (ge_unlink g)).

Definition with_entry (g : entry_env → entry_env) (c : Call) : Call :=
  match c with
  | CPut env key value => CPut (mkPutEnv (pe_rotate env) (g (pe_entry env))) key value
  | CDelete env key => CDelete (mkPutEnv (pe_rotate env) (g (pe_entry env))) key
  | CBackground env => CBackground (with_entries ((g (first_entry env).1, (first_entry env).2) :: tail (ge_entries (be_gc env))) env)
  | c => c
  end.

(** The call writes a record to the log. *)
Definition writing (c : Call) (S : System) : bool :=
  match c with
  | CPut _ _ _ | CDelete _ _ => true
  | CBackground _ => match sys_bg S with BgGcEntries _ => true | _ => false end
  | _ => false
  end.

(** The map after a call whose answer has not been given. *)
Definition interrupted (c : Call) (m m' : gmap bytes bytes) : Prop :=
  m' = m ∨
  match c with
  | CPut _ key value => m' = <[key := value]> m
  | CDelete _ key => m' = delete key m
  | _ => False
  end.

(** A MANIFEST is replaced when it may be. *)
Definition interruptible (c : Call) (S : System) : Prop :=
  match c with
  | CBackground _ =>
      match sys_bg S with
      | BgMerged _ _ | BgGcRetire _ => settled (sys_db S)
      | BgGcRotate => settled (sys_db S) ∧ next_file_number_ (sys_db S) + 1 < 2 ^ 63
      | _ => True
      end
  | _ => True
  end.

#[export] Instance interruptible_dec c S : Decision (interruptible c S).
Proof. unfold interruptible. destruct c; try apply _. destruct (sys_bg S); apply _. Defined.

Lemma refuse_clean env : clean_entry (refuse env).
Proof. by right. Qed.

Lemma complete_clean env : clean_entry (complete env).
Proof. by left. Qed.

(** ** Torn logs *)

Lemma noticed_torn recs p x y :
  log.EncodeRecord p (len (log_image recs)) = x ++ y → y ≠ [] → noticed (log_image recs ++ x) = true → torn_log recs (log_image recs ++ x).
Proof.
  intros Hxy Hy Hn. pose proof (log.wal_image_log [] [] (payload <$> recs) log.log_rel_nil) as Hl.
  destruct (log.log_rel_crash (log_image recs) (payload <$> recs) p x y Hl Hxy Hy) as [torn Ht]. unfold noticed in Hn.
  rewrite (log.ForEachRecord_rel (λ ps p, (ps ++ [p], true)) _ [] [] (payload <$> recs) torn _ eq_refl Ht (λ _ _ _ _, eq_refl)) in Hn.
  assert (∀ (ps acc : list bytes), foldl (λ s q, ((s ++ [q], true) : list bytes * bool).1) acc ps = acc ++ ps) as E.
  { induction ps as [|q ps IH]; intros acc; [by rewrite app_nil_r|]. cbn [foldl fst]. by rewrite IH, <- app_assoc. }
  rewrite E in Hn. destruct torn.
  - right. split; [done|]. rewrite slice_app_l by (pose proof (len_nonneg (log_image recs)); lia). by rewrite slice_full.
  - left. by apply bool_decide_eq_true in Hn.
Qed.

Lemma resting_torn f dir v w floor logs n recs data m :
  on_disk f dir v (vlogs_ w) (vsep_enabled_ w) floor logs → rest_ok v w (concat logs.*2) m →
  (n, recs) ∈ logs → torn_log recs data → resting (<[LogPath dir n := data]> f) dir (vsep_enabled_ w) m.
Proof.
  intros Hod Hrs Hin Ht. exists (λ k vs, if decide (k = n) then data else log_image vs), v, w, floor, logs.
  pose proof (list_elem_of_fmap_2 fst _ _ Hin) as Hn. cbn [fst] in Hn. pose proof (od_logs _ _ _ _ _ _ _ Hod) as Hl.
  destruct (proj1 (Hl n) Hn) as (Hfn & Hb & Hs).
  assert (∀ k, 0 ≤ k < 2 ^ 64 → k ≠ n → <[LogPath dir n := data]> f !! LogPath dir k = f !! LogPath dir k) as Hne.
  { intros k Hk Hkn. apply lookup_insert_ne, log_path_ne; [done|done|congruence]. }
  assert (NoDup logs.*1) as Hnd by (eapply ascending_NoDup, (sorted_ascending (-1)); [apply Forall_forall; intros k Hk; apply Hl in Hk; lia|apply Hod]).
  split; [|split; [|done]].
  - apply (on_disk_logs f _ _ _ _ _ _ Hod (rs_filed _ _ _ _ Hrs)); [| | |apply Hod| |apply Hod|apply Hod].
    + apply (known_insert dir f (FnLog n)); [apply Hod|done].
    + intros x Hx Hxl. apply lookup_insert_ne. apply (path_ne dir (FnLog n) x); [done|done|by intros <-].
    + intros k. rewrite Hl. destruct (decide (k = n)) as [->|Hkn]; [by rewrite lookup_insert_eq|].
      split; intros (H1 & H2 & H3); (split_and!; [done|lia|lia|]); by rewrite (Hne k H2 Hkn) in *.
    + pose proof (od_images _ _ _ _ _ _ _ Hod) as Hi. rewrite Forall_forall in Hi |- *. intros q Hq.
      destruct (decide (q.1 = n)) as [->|Hqn]; [by rewrite lookup_insert_eq|]. rewrite Hne; [by apply Hi| |done].
      apply (Hl q.1). by apply (list_elem_of_fmap_2 fst).
  - apply Forall_forall. intros q Hq. cbn beta. destruct (decide (q.1 = n)) as [E|Hqn]; [|by left].
    assert (q = (n, recs)) as ->; [|done]. apply list_elem_of_lookup in Hq as [i Hi]. apply list_elem_of_lookup in Hin as [j Hj].
    assert (i = j) as ->; [|congruence]. eapply NoDup_lookup; [exact Hnd|by rewrite list_lookup_fmap, Hi|]. by rewrite list_lookup_fmap, Hj, <- E.
Qed.

(** ** Writes *)

Lemma write_loop_torn sched data :
  match (write_loop sched data).2 with
  | None => (write_loop sched data).1 = data
  | Some _ => ∃ rest, data = (write_loop sched data).1 ++ rest ∧ rest ≠ []
  end.
Proof.
  revert data. induction sched as [|o sched IH]; intros [|b data]; cbn [write_loop]; [done..|]. destruct o as [n| |e]; [|apply IH|by exists (b :: data)].
  set (w := Z.max 0 (Z.min n (len (b :: data)))). pose proof (len_nonneg (b :: data)). specialize (IH (at_off w (b :: data))).
  destruct (write_loop sched _) as [out err]. cbn [fst snd] in *. pose proof (slice_split (b :: data) w ltac:(lia)) as Hsp.
  destruct err as [e|]; [|by rewrite IH]. destruct IH as (rest & E & Hne). exists rest. by rewrite <- app_assoc, <- E.
Qed.

Lemma AddRecord_cut sched w p :
  log.writer_ok w →
  let '(s, w') := log.AddRecord sched w p in
  if ok s then log.w_file w' = log.w_file w ++ log.EncodeRecord p (len (log.w_file w))
  else ∃ x y, log.w_file w' = log.w_file w ++ x ∧ log.EncodeRecord p (len (log.w_file w)) = x ++ y ∧ y ≠ [].
Proof.
  intros Hw. unfold log.AddRecord, log.WriteAll. rewrite Hw. pose proof (write_loop_torn sched (log.EncodeRecord p (len (log.w_file w)))) as H.
  destruct (write_loop sched _) as [out err]. cbn [fst snd] in H. destruct err as [e|]; cbn [log.w_file].
  - change (ok (IOError (lit "WAL write failed: " ++ e))) with false. cbv iota.
    change (ok (IOError (lit "WAL write failed: " ++ e))) with false. cbv iota. destruct H as (y & E & Hy). by exists out, y.
  - change (ok Ok) with true. cbv iota. change (ok Ok) with true. cbv iota. cbn [log.w_file]. by rewrite H.
Qed.

Section writes.
Context (strerror : Z → bytes).

Lemma sync_same env mode cv w s w' :
  ring_ w = None → MaybeSync strerror env mode cv w = Some (s, w') → log_writer_ w' = log_writer_ w ∧ log_number_ w' = log_number_ w.
Proof using.
  intros Hr. unfold MaybeSync, sync_if, io_uring_active_. rewrite Hr. unfold sync_files, vlog.Sync. repeat case_match; intros; simplify_eq; done.
Qed.

(** The files of a write, whatever fails. *)
Record entry_left (d2 : DB) (lw : log.Writer) (d' : DB) : Prop := {
  el_dir : dir_ d' = dir_ d2;
  el_fs : fs d' = fs d2;
  el_log : log_number_ (wal_ d') = log_number_ (wal_ d2);
  el_vlogs : vlogs_ (vsep_ d') = vlogs_ (vsep_ d2);
  el_files : next_file_number_ d' = next_file_number_ d2;
  el_writer : log_writer_ (wal_ d') = lw;
  el_next : 0 ≤ next_seq_ d2 → next_seq_ d' ≤ next_seq_ d2 + 1
}.

Lemma WriteEntry_left env type key value count d s d' :
  ring_ (wal_ d) = None → WriteEntry strerror env type key value count d = Some (s, d') →
  ∃ st stored d2, separate env type key value d = Some (st, stored, d2) ∧
    entry_left d2 (if ok st then (log.AddRecord (ee_wal_writes env) (log_writer_ (wal_ d)) (wal_payload (next_seq_ d2) type key stored)).2
                   else log_writer_ (wal_ d)) d'.
Proof using.
  intros Hr. unfold WriteEntry. destruct (separate env type key value d) as [[[st stored] d2]|] eqn:Es; [|done]. cbn [mbind option_bind].
  destruct (separate_files _ _ _ _ _ _ _ _ Es) as (Hs & Hw2 & _). intros E. exists st, stored, d2. split; [done|].
  destruct (ok st); cbn [negb] in E; [|injection E as <- <-; by split; [..|lia]]. rewrite (sf_ring _ _ Hs), Hr in E. unfold append_file in E. rewrite Hw2 in E.
  destruct (log.AddRecord _ _ _) as [sa lw]. cbn [snd]. unfold and_then in E. cbn [mbind option_bind] in E.
  destruct (ok sa) eqn:Ea; cbn [negb] in E; [|rewrite Ea in E; injection E as <- <-; split; try done; cbn; lia]. change (ok Ok) with true in E. cbv iota in E.
  set (dA := add_wal_bytes _ _ d2) in E. cbv zeta in E. set (dB := if count then _ else dA) in E.
  assert (entry_left d2 lw dB ∧ ring_ (wal_ dB) = None ∧ next_seq_ dB = next_seq_ d2) as (HB & HrB & HnB).
  { unfold dB. destruct count; (split; [split; try done; cbn; lia|]); (split; [|done]); cbn; by rewrite (sf_ring _ _ Hs). }
  clearbody dB. clear dA. destruct (MaybeSync strerror _ _ _ _) as [[ss w]|] eqn:Em; [|done]. apply sync_same in Em as [W1 W2]; [|done].
  cbn [mbind option_bind] in E. destruct HB. rewrite <- W1 in el_writer0. rewrite <- W2 in el_log0.
  destruct (negb (ok ss)); [by injection E as <- <-|]. cbn [set_wal mem_ next_seq_] in E. rewrite HnB in *. destruct (if type =? kTypeValue then _ else _) as [m|]; [|done].
  cbn [mbind option_bind] in E. injection E as <- <-. split; try done. intros Hp. cbn. apply Z.mod_le; lia.
Qed.

(** What a write leaves: a torn record, or what it would have left without the
    failure. *)
Definition cut_short (d0 d1 d' : DB) : Prop :=
  torn_state [] d1 d' ∨
  ∃ p x y, torn_state x d0 d' ∧ log.EncodeRecord p (len (log.w_file (log_writer_ (wal_ d0)))) = x ++ y ∧ y ≠ [].

Lemma torn_state_refl d : torn_state [] d d.
Proof using. split; try done. by rewrite app_nil_r. Qed.

Lemma entry_left_torn d2 lw lw' a b x :
  entry_left d2 lw a → entry_left d2 lw' b → log.w_file lw' = log.w_file lw ++ x → torn_state x a b.
Proof using. intros [] [] E. split; congruence. Qed.

Lemma interrupted_entry env type key value count d s d' s0 d0 s1 d1 :
  ring_ (wal_ d) = None → log.writer_ok (log_writer_ (wal_ d)) →
  WriteEntry strerror env type key value count d = Some (s, d') →
  WriteEntry strerror (refuse env) type key value count d = Some (s0, d0) →
  WriteEntry strerror (complete env) type key value count d = Some (s1, d1) → cut_short d0 d1 d'.
Proof using.
  intros Hr Hw E E0 E1. destruct (WriteEntry_left _ _ _ _ _ _ _ _ Hr E) as (st & stored & d2 & Es & H).
  destruct (WriteEntry_left _ _ _ _ _ _ _ _ Hr E0) as (? & ? & ? & Es0 & H0). change (separate env type key value d = Some (x, x0, x1)) in Es0.
  destruct (WriteEntry_left _ _ _ _ _ _ _ _ Hr E1) as (? & ? & ? & Es1 & H1). change (separate env type key value d = Some (x2, x3, x4)) in Es1.
  rewrite Es in Es0, Es1. injection Es0 as <- <- <-. injection Es1 as <- <- <-. cbn [refuse complete ee_wal_writes] in H0, H1. rewrite AddRecord_refused in H0.
  destruct (ok st); [|left; eapply entry_left_torn; [done|done|by rewrite app_nil_r]].
  set (p := wal_payload _ _ _ _) in *. cbn [snd] in H0. pose proof (AddRecord_cut (ee_wal_writes env) (log_writer_ (wal_ d)) p Hw) as Ha.
  pose proof (AddRecord_cut [] (log_writer_ (wal_ d)) p Hw) as Ha1. pose proof (AddRecord_fine [] (log_writer_ (wal_ d)) p eq_refl) as Hf.
  destruct (log.AddRecord (ee_wal_writes env) _ _) as [sa lw]. destruct (log.AddRecord [] _ _) as [sb lw1]. cbn [fst snd] in *. rewrite Hf in Ha1.
  destruct (ok sa).
  - left. eapply entry_left_torn; [done|done|]. by rewrite Ha, Ha1, app_nil_r.
  - right. destruct Ha as (x & y & Hx & Hxy & Hy). exists p, x, y. split_and!; [by eapply entry_left_torn| |done]. by rewrite (el_writer _ _ _ H0).
Qed.

Lemma WriteEntry_next env type key value count d s d' :
  ring_ (wal_ d) = None → 0 ≤ next_seq_ d → WriteEntry strerror env type key value count d = Some (s, d') → next_seq_ d' ≤ next_seq_ d + 1.
Proof using.
  intros Hr Hn E. destruct (WriteEntry_left _ _ _ _ _ _ _ _ Hr E) as (st & stored & d2 & Es & H).
  destruct (separate_files _ _ _ _ _ _ _ _ Es) as (_ & _ & _ & Hn2 & _). rewrite <- Hn2 in *. by apply H.
Qed.

Lemma interrupted_write env type key value S r r0 r1 :
  let with_entry e := mkPutEnv (pe_rotate env) e in
  ring_ (wal_ (sys_db S)) = None → log.writer_ok (log_writer_ (wal_ (sys_db S))) →
  write_op strerror env type key value (sys_db S) = Some r →
  write_op strerror (with_entry (refuse (pe_entry env))) type key value (sys_db S) = Some r0 →
  write_op strerror (with_entry (complete (pe_entry env))) type key value (sys_db S) = Some r1 →
  cut_short (sys_db (write_answer r0 S).2) (sys_db (write_answer r1 S).2) (sys_db (write_answer r S).2).
Proof using.
  cbv zeta. intros Hr Hw. unfold write_op. destruct (imm_ (sys_db S)); [intros [= <-] [= <-] [= <-]; left; apply torn_state_refl|].
  cbn [pe_rotate pe_entry]. unfold and_then. destruct (if _ : bool then _ else _) as [[s d0]|] eqn:E0; [|done]. cbn [mbind option_bind].
  destruct (ok s) eqn:Es; [|intros [= <-] [= <-] [= <-]; left; apply torn_state_refl].
  assert (ring_ (wal_ d0) = None ∧ log.writer_ok (log_writer_ (wal_ d0))) as [Hr0 Hw0].
  { destruct (_ <=? _); [|by injection E0 as <- <-]. destruct (rotated_wal _ _ _ _ _ Hr E0 Es) as [-> ?]. by split. }
  destruct (WriteEntry strerror (pe_entry env) _ _ _ _ _) as [[sa da]|] eqn:Ea; [|done].
  destruct (WriteEntry strerror (refuse _) _ _ _ _ _) as [[sb db]|] eqn:Eb; [|done].
  destruct (WriteEntry strerror (complete _) _ _ _ _ _) as [[sc dc]|] eqn:Ec; [|done].
  intros [= <-] [= <-] [= <-]. by eapply interrupted_entry.
Qed.

Lemma write_next env type key value S r :
  ring_ (wal_ (sys_db S)) = None → 0 ≤ next_seq_ (sys_db S) → write_op strerror env type key value (sys_db S) = Some r →
  next_seq_ (sys_db (write_answer r S).2) ≤ next_seq_ (sys_db S) + 1.
Proof using.
  intros Hr Hn. unfold write_op. destruct (imm_ (sys_db S)); [intros [= <-]; cbn; lia|]. unfold and_then.
  destruct (if _ : bool then _ else _) as [[s d0]|] eqn:E0; [|done]. cbn [mbind option_bind].
  assert (next_seq_ d0 = next_seq_ (sys_db S)) as Hn0.
  { destruct (_ <=? _); [|by injection E0 as <- <-]. unfold RotateForFlush, io_uring_active_ in E0. rewrite Hr in E0.
    unfold and_then in E0. cbn [mbind option_bind] in E0. change (ok Ok) with true in E0. cbv iota zeta in E0. repeat case_match; simplify_eq; done. }
  destruct (ok s) eqn:Es; [|intros [= <-]; cbn; lia].
  assert (ring_ (wal_ d0) = None) as Hr0 by (destruct (_ <=? _); [by destruct (rotated_wal _ _ _ _ _ Hr E0 Es)|by injection E0 as <- <-]).
  destruct (WriteEntry _ _ _ _ _ _ _) as [[sa da]|] eqn:Ea; [|done]. intros [= <-]. cbn. rewrite <- Hn0. eapply WriteEntry_next; [done|lia|done].
Qed.

(** The rewriting of an entry by a collection. *)
Lemma interrupted_collect env x d S' S0 S1 :
  ring_ (wal_ d) = None → log.writer_ok (log_writer_ (wal_ d)) → gc_entry_step strerror env x d = Some S' →
  gc_entry_step strerror (refuse env) x d = Some S0 → gc_entry_step strerror (complete env) x d = Some S1 →
  cut_short (sys_db S0) (sys_db S1) (sys_db S').
Proof using.
  intros Hr Hw. unfold gc_entry_step. destruct (sc_entries x) as [|[[key value] off] es]; [intros [= <-] [= <-] [= <-]; left; apply torn_state_refl|].
  unfold gc_entry. destruct (LookupIn _ _ _ _ _); [|done]. cbn [mbind option_bind]. cbv zeta.
  destruct (negb _); [intros [= <-] [= <-] [= <-]; left; apply torn_state_refl|].
  destruct (WriteEntry strerror env _ _ _ _ _) as [[sa da]|] eqn:Ea; [|done].
  destruct (WriteEntry strerror (refuse _) _ _ _ _ _) as [[sb db]|] eqn:Eb; [|done].
  destruct (WriteEntry strerror (complete _) _ _ _ _ _) as [[sc dc]|] eqn:Ec; [|done].
  intros [= <-] [= <-] [= <-]. by eapply interrupted_entry.
Qed.

Lemma collect_next env x d S' :
  ring_ (wal_ d) = None → 0 ≤ next_seq_ d → gc_entry_step strerror env x d = Some S' → next_seq_ (sys_db S') ≤ next_seq_ d + 1.
Proof using.
  intros Hr Hn. unfold gc_entry_step. destruct (sc_entries x) as [|[[key value] off] es]; [intros [= <-]; cbn; lia|].
  unfold gc_entry. destruct (LookupIn _ _ _ _ _); [|done]. cbn [mbind option_bind]. cbv zeta. destruct (negb _); [intros [= <-]; cbn; lia|].
  destruct (WriteEntry _ _ _ _ _ _ _) as [[sa da]|] eqn:Ea; [|done]. intros [= <-]. cbn. by eapply WriteEntry_next.
Qed.

End writes.

(** ** The directory after it *)

Lemma write_vlogs_insert dir vs path data f :
  (∀ x, x ∈ vs → path ≠ VlogPath dir (vlog.number_ x)) → write_vlogs dir vs (<[path := data]> f) = <[path := data]> (write_vlogs dir vs f).
Proof.
  intros Hp. apply map_eq. intros q. destruct (decide (q = path)) as [->|Hq].
  - by rewrite write_vlogs_other, !lookup_insert_eq.
  - rewrite lookup_insert_ne by done. apply write_vlogs_ext. by rewrite lookup_insert_ne.
Qed.

Lemma torn_disk x a b :
  torn_state x a b → (∀ v, v ∈ vlogs_ (vsep_ a) → LogPath (dir_ a) (log_number_ (wal_ a)) ≠ VlogPath (dir_ a) (vlog.number_ v)) →
  disk b = <[LogPath (dir_ a) (log_number_ (wal_ a)) := log.w_file (log_writer_ (wal_ a)) ++ x]> (disk a).
Proof. intros [T1 T2 T3 T4 _ T5] Hv. rewrite !disk_vlogs, T1, T2, T3, T4, T5, !write_vlogs_insert by done. by rewrite insert_insert_eq. Qed.

Lemma untorn_disk a b : torn_state [] a b → disk b = disk a.
Proof. intros [T1 T2 T3 T4 _ T5]. by rewrite !disk_vlogs, T1, T2, T3, T4, T5, app_nil_r. Qed.

Lemma torn_sized x a b : torn_state x a b → sized b → sized a.
Proof.
  intros [T1 T2 T3 T4 T5 T6] [Z1 Z2 Z3]. split; [by rewrite <- T5| |by rewrite <- T2]. rewrite T6, len_app in Z2. pose proof (len_nonneg x). lia.
Qed.

(** A state that can be recovered, with a torn record. *)
Lemma torn_resting S hist M p x y d' :
  recoverable S → sys_inv S hist M → next_seq_ (sys_db S) ≤ 2 ^ 56 → torn_state x (sys_db S) d' →
  log.EncodeRecord p (len (log.w_file (log_writer_ (wal_ (sys_db S))))) = x ++ y → y ≠ [] →
  noticed (log.w_file (log_writer_ (wal_ d'))) = true →
  resting (disk d') (dir_ (sys_db S)) (vsep_enabled_ (vsep_ (sys_db S))) (contents M).
Proof.
  intros (floor & old & cur & later & Hdu) Hs Hn Ht Hxy Hy Hno. pose proof (current_log _ _ _ _ _ Hdu) as Hc. rewrite Hc in Hxy.
  rewrite (ts_writer _ _ _ Ht), Hc in Hno. pose proof (log_number_ok _ _ _ _ _ Hdu) as [_ Hb].
  rewrite (torn_disk _ _ _ Ht), Hc.
  - eapply resting_torn; [apply Hdu|rewrite concat_all_logs; by eapply durable_rest_ok| |by eapply noticed_torn].
    unfold all_logs. apply elem_of_app. right. apply list_elem_of_here.
  - intros v Hv. apply (path_ne _ (FnLog _) (FnVlog _)); [done|by eapply (vlog_numbered _ _ _ _ _ _ _ (du_disk _ _ _ _ _ Hdu))|done].
Qed.

Lemma allowed_interrupted c a M M' : allowed c a M M' → interrupted c (contents M) (contents M').
Proof.
  unfold interrupted. destruct c, a; cbn [allowed]; try done; intros H; destruct_and?; subst; try case_match; cbn; auto.
Qed.

Section calls.
Context (hash : bytes → Z) (strerror : Z → bytes).

Lemma with_entry_limits g c S :
  (∀ e, ee_vlog_writes (g e) = ee_vlog_writes e ∧ ee_lseek (g e) = ee_lseek e) → limits c S → limits (with_entry g c) S.
Proof using.
  intros Hg [Hl Hc]. split; [done|]. assert (∀ e key value, whole_append e key value → whole_append (g e) key value) as Hw.
  { intros e key value. unfold whole_append. destruct (Hg e) as [-> ->]. done. }
  destruct c as [env key value|env key|io key sn|ios lo hi sn| |x|env]; cbn [with_entry] in *; try done.
  - destruct Hc as (? & ? & ? & ?). split_and!; [done..|by apply Hw].
  - destruct Hc as (? & ? & ? & ?). split_and!; [done..|by apply Hw].
  - unfold bg_limits in *. destruct (sys_bg S); try done. destruct (sc_entries x) as [|[[key value] off] es]; [done|].
    destruct Hc as [? ?]. split; [done|by apply Hw].
Qed.

Lemma with_entry_reliable g c S : (∀ e, clean_entry (g e)) → writing c S → reliable (with_entry g c) S.
Proof using. intros Hg. destruct c; cbn; try done; intros Hb; try apply Hg. by destruct (sys_bg S). Qed.

Lemma with_entry_interrupted g c m m' : interrupted (with_entry g c) m m' → interrupted c m m'.
Proof using. by destruct c. Qed.

Lemma writing_cut c S a S' a0 S0 a1 S1 :
  ring_ (wal_ (sys_db S)) = None → log.writer_ok (log_writer_ (wal_ (sys_db S))) → writing c S →
  step hash strerror c S = Some (a, S') → step hash strerror (with_entry refuse c) S = Some (a0, S0) →
  step hash strerror (with_entry complete c) S = Some (a1, S1) → cut_short (sys_db S0) (sys_db S1) (sys_db S').
Proof using.
  intros Hr Hw. assert (∀ env type key value r r0 r1, write_op strerror env type key value (sys_db S) = Some r →
    write_op strerror (mkPutEnv (pe_rotate env) (refuse (pe_entry env))) type key value (sys_db S) = Some r0 →
    write_op strerror (mkPutEnv (pe_rotate env) (complete (pe_entry env))) type key value (sys_db S) = Some r1 →
    write_answer r S = (a, S') → write_answer r0 S = (a0, S0) → write_answer r1 S = (a1, S1) → cut_short (sys_db S0) (sys_db S1) (sys_db S')) as Hwr.
  { intros env type key value r r0 r1 E E0 E1 F F0 F1. pose proof (interrupted_write strerror env type key value S r r0 r1 Hr Hw E E0 E1) as H.
    by rewrite F, F0, F1 in H. }
  destruct c as [env key value|env key|io key sn|ios lo hi sn| |x|env]; cbn [writing with_entry step]; try done; intros Hb.
  - unfold Put. destruct (write_op strerror env _ _ _ _) as [r|] eqn:E; [|done]. destruct (write_op _ (mkPutEnv _ (refuse _)) _ _ _ _) as [r0|] eqn:E0; [|done].
    destruct (write_op _ (mkPutEnv _ (complete _)) _ _ _ _) as [r1|] eqn:E1; [|done]. cbn [mbind option_bind]. intros [= F] [= F0] [= F1].
    exact (Hwr env _ _ _ r r0 r1 E E0 E1 F F0 F1).
  - unfold Delete. destruct (write_op strerror env _ _ _ _) as [r|] eqn:E; [|done]. destruct (write_op _ (mkPutEnv _ (refuse _)) _ _ _ _) as [r0|] eqn:E0; [|done].
    destruct (write_op _ (mkPutEnv _ (complete _)) _ _ _ _) as [r1|] eqn:E1; [|done]. cbn [mbind option_bind]. intros [= F] [= F0] [= F1].
    exact (Hwr env _ _ _ r r0 r1 E E0 E1 F F0 F1).
  - unfold bg_step. fold (first_entry env). destruct (first_entry env) as [e f] eqn:Ef. cbn [with_entries be_gc ge_entries head from_option id fst snd].
    destruct (sys_bg S) as [|f'|c|c F|c outs|s| |g|x|x|f' x|g|s]; try done.
    destruct (gc_entry_step strerror e x _) as [S2|] eqn:E; [|done]. destruct (gc_entry_step strerror (refuse e) x _) as [S3|] eqn:E0; [|done].
    destruct (gc_entry_step strerror (complete e) x _) as [S4|] eqn:E1; [|done]. cbn [mbind option_bind]. intros [= <- <-] [= <- <-] [= <- <-].
    exact (interrupted_collect strerror e x _ _ _ _ Hr Hw E E0 E1).
Qed.

Lemma writing_next c S a S' :
  ring_ (wal_ (sys_db S)) = None → 0 ≤ next_seq_ (sys_db S) → writing c S →
  step hash strerror c S = Some (a, S') → next_seq_ (sys_db S') ≤ next_seq_ (sys_db S) + 1.
Proof using.
  intros Hr Hn Hb. destruct c as [env key value|env key|io key sn|ios lo hi sn| |x|env]; cbn [writing step] in *; try done.
  - unfold Put. destruct (write_op _ _ _ _ _ _) as [r|] eqn:E; [|done]. cbn [mbind option_bind]. intros [= F].
    pose proof (write_next strerror env _ _ _ S r Hr Hn E) as H. by rewrite F in H.
  - unfold Delete. destruct (write_op _ _ _ _ _ _) as [r|] eqn:E; [|done]. cbn [mbind option_bind]. intros [= F].
    pose proof (write_next strerror env _ _ _ S r Hr Hn E) as H. by rewrite F in H.
  - unfold bg_step. destruct (default _ _) as [e f]. destruct (sys_bg S) as [|f'|c|c F|c outs|s| |g|x|x|f' x|g|s]; try done. destruct (gc_entry_step _ _ _ _) as [S2|] eqn:E; [|done].
    cbn [mbind option_bind]. intros [= <- <-]. exact (collect_next strerror e x _ _ Hr Hn E).
Qed.

Lemma interrupted_writing c S hist M a S' :
  recoverable S → sys_inv S hist M → limits c S → writing c S → step hash strerror c S = Some (a, S') → sized (sys_db S') →
  noticed (log.w_file (log_writer_ (wal_ (sys_db S')))) = true →
  ∃ m, interrupted c (contents M) m ∧ resting (disk (sys_db S')) (dir_ (sys_db S)) (vsep_enabled_ (vsep_ (sys_db S))) m.
Proof using.
  intros Hr Hs Hl Hb E Hz Hno. assert (ring_ (wal_ (sys_db S)) = None ∧ log.writer_ok (log_writer_ (wal_ (sys_db S)))) as [Hring Hw].
  { destruct Hr as (? & ? & ? & ? & Hdu). split; apply Hdu. }
  assert (∀ g x, (∀ e, ee_vlog_writes (g e) = ee_vlog_writes e ∧ ee_lseek (g e) = ee_lseek e) → (∀ e, clean_entry (g e)) →
    ∃ a1 S1, step hash strerror (with_entry g c) S = Some (a1, S1) ∧ (torn_state x (sys_db S1) (sys_db S') →
      ∃ hist1 M1, recoverable S1 ∧ sys_inv S1 hist1 M1 ∧ next_seq_ (sys_db S1) ≤ 2 ^ 56 ∧ home (sys_db S1) = home (sys_db S) ∧ interrupted c (contents M) (contents M1))) as Htwin.
  { intros g x Hg Hc. pose proof (with_entry_limits g c S Hg Hl) as Hl1. pose proof (with_entry_reliable g c S Hc Hb) as Hrel.
    destruct (step_simulates hash strerror _ S hist M Hs Hl1) as (a1 & S1 & hist1 & M1 & E1 & Ha & Hs1). exists a1, S1. split; [done|]. intros Ht.
    assert (writing (with_entry g c) S) as Hb1 by (by destruct c). pose proof (dl_seq _ (proj1 Hl)). pose proof Hs as [Hda _]. pose proof (di_next _ _ (da_db _ _ _ Hda)).
    pose proof (writing_next _ _ _ _ Hring ltac:(lia) Hb1 E1). exists hist1, M1. split_and!; [|done|lia|by eapply home_step|by eapply with_entry_interrupted, allowed_interrupted].
    eapply recoverable_step; try done. by eapply torn_sized. }
  destruct (Htwin complete [] ltac:(done) complete_clean) as (a1 & S1 & E1 & H1).
  destruct (Htwin refuse [] ltac:(done) refuse_clean) as (a0 & S0 & E0 & _).
  destruct (writing_cut c S a S' a0 S0 a1 S1 Hring Hw Hb E E0 E1) as [Ht|(p & x & y & Ht & Hxy & Hy)].
  - destruct (H1 Ht) as (hist1 & M1 & Hr1 & Hs1 & Hn & [= <- <-] & Hi). exists (contents M1). split; [done|]. rewrite (untorn_disk _ _ Ht). by eapply crash_resting.
  - destruct (Htwin refuse x ltac:(done) refuse_clean) as (a2 & S2 & E2 & H2). rewrite E0 in E2. injection E2 as <- <-.
    destruct (H2 Ht) as (hist2 & M2 & Hr2 & Hs2 & Hn & [= <- <-] & Hi). exists (contents M2). split; [done|]. by eapply torn_resting.
Qed.

End calls.

(** ** A MANIFEST that is not replaced, or replaced late *)

(** The two directories mean the same: they differ in the temporary file and in
    empty value logs. *)
Record agrees (dir : bytes) (sep : bool) (f f' : files) : Prop := {
  ag_known : known dir f';
  ag_files : ∀ x, numbered x → x ≠ FnTmp → vlog_file_number x = None → f' !! path_of dir x = f !! path_of dir x;
  ag_vlogs : ∀ n, 0 ≤ n < 2 ^ 64 → default [] (f' !! VlogPath dir n) = default [] (f !! VlogPath dir n);
  ag_none : sep = false → ∀ n, 0 ≤ n < 2 ^ 64 → f !! VlogPath dir n = None → f' !! VlogPath dir n = None
}.

Lemma resting_agrees dir sep f f' m : resting f dir sep m → agrees dir sep f f' → resting f' dir sep m.
Proof.
  intros (img & v & w & floor & logs & Hod & Himg & Hsep & Hrs) [A1 A2 A3 A4]. exists img, v, w, floor, logs. split; [|by split].
  pose proof (od_floor _ _ _ _ _ _ _ Hod) as Hfl. apply (on_disk_agree f); try done.
  - by apply (A2 FnManifest).
  - intros r Hr. apply (A2 (FnSst (ref_number r))); [by eapply ref_numbered; [apply Hrs|]|done|done].
  - intros n Hn. apply (A2 (FnLog n)); [cbn; lia|done|done].
  - intros x Hx. apply A3. by apply (vlog_numbered _ _ _ _ _ _ _ Hod).
  - intros Hs n Hn. apply A4; [done|done|]. pose proof (od_sep _ _ _ _ _ _ _ Hod) as Ho. rewrite Hs in Ho. by apply Ho.
Qed.

(** What a value log of a state holds on disk. *)
Definition vlog_data (n : Z) (d : DB) : bytes :=
  match find_vlog n (vlogs_ (vsep_ d)) with Some v => vlog.v_file v | None => default [] (fs d !! VlogPath (dir_ d) n) end.

Definition vlogs_named (d : DB) : Prop :=
  NoDup (vlog.number_ <$> vlogs_ (vsep_ d)) ∧ Forall (λ x, 0 ≤ vlog.number_ x < 2 ^ 64) (vlogs_ (vsep_ d)).

Lemma disk_vlog_data d n :
  vlogs_named d → 0 ≤ n < 2 ^ 64 → 0 ≤ log_number_ (wal_ d) < 2 ^ 64 → default [] (disk d !! VlogPath (dir_ d) n) = vlog_data n d.
Proof.
  intros [Hnd Hb] Hn Hlog. unfold vlog_data. rewrite disk_vlogs. destruct (find_vlog n _) as [v|] eqn:E.
  - apply find_vlog_Some in E as [Hv <-]. by rewrite write_vlogs_in.
  - apply find_vlog_None in E. rewrite write_vlogs_other, lookup_insert_ne; [done| |].
    + by apply (path_ne (dir_ d) (FnLog _) (FnVlog n)).
    + intros x Hx Ep. rewrite Forall_forall in Hb. apply (path_of_inj (dir_ d) (FnVlog n) (FnVlog _)) in Ep; [|done|by apply Hb].
      injection Ep as ->. apply E. by apply list_elem_of_fmap_2.
Qed.

Lemma disk_other d x :
  vlogs_named d → numbered x → vlog_file_number x = None → x ≠ FnLog (log_number_ (wal_ d)) → 0 ≤ log_number_ (wal_ d) < 2 ^ 64 →
  disk d !! path_of (dir_ d) x = fs d !! path_of (dir_ d) x.
Proof.
  intros [_ Hb] Hx Hxv Hne Hlog. apply disk_closed. intros [E|(v & Hv & E)].
  - by apply (path_of_inj _ x (FnLog _)) in E.
  - rewrite Forall_forall in Hb. apply (path_of_inj _ x (FnVlog _)) in E; [by subst x|done|by apply Hb].
Qed.

Lemma disk_current d : vlogs_named d → 0 ≤ log_number_ (wal_ d) < 2 ^ 64 →
  disk d !! LogPath (dir_ d) (log_number_ (wal_ d)) = Some (log.w_file (log_writer_ (wal_ d))).
Proof.
  intros [_ Hb] Hlog. rewrite disk_vlogs, write_vlogs_other; [apply lookup_insert_eq|]. intros v Hv. rewrite Forall_forall in Hb.
  apply (path_ne _ (FnLog _) (FnVlog _)); [done|by apply Hb|done].
Qed.

(** States that differ in their tables and in the temporary file. *)
Lemma agrees_disk d d' :
  dir_ d' = dir_ d → log_number_ (wal_ d') = log_number_ (wal_ d) → log_writer_ (wal_ d') = log_writer_ (wal_ d) →
  0 ≤ log_number_ (wal_ d) < 2 ^ 64 → vlogs_named d → vlogs_named d' → known (dir_ d) (fs d') →
  (∀ x, numbered x → x ≠ FnTmp → vlog_file_number x = None → fs d' !! path_of (dir_ d) x = fs d !! path_of (dir_ d) x) →
  (∀ n, 0 ≤ n < 2 ^ 64 → vlog_data n d' = vlog_data n d) →
  (vsep_enabled_ (vsep_ d) = false → vlogs_ (vsep_ d') = vlogs_ (vsep_ d) ∧ ∀ n, 0 ≤ n < 2 ^ 64 → fs d' !! VlogPath (dir_ d) n = fs d !! VlogPath (dir_ d) n) →
  agrees (dir_ d) (vsep_enabled_ (vsep_ d)) (disk d) (disk d').
Proof.
  intros E1 E2 E3 Hlog Hv Hv' Hk Hf Hd Hs. split.
  - rewrite disk_vlogs, E1. apply write_vlogs_known; [apply Hv'|]. rewrite E2. by apply (known_insert _ _ (FnLog _)).
  - intros x Hx Hxt Hxv. destruct (decide (x = FnLog (log_number_ (wal_ d)))) as [->|Hne].
    + pose proof (disk_current d Hv Hlog) as H. pose proof (disk_current d' Hv') as H'. rewrite E1, E2, E3 in H'. etrans; [by apply H'|done].
    + rewrite (disk_other d x Hv) by done. pose proof (disk_other d' x Hv' Hx Hxv) as H. rewrite E1, E2 in H. rewrite H by done. by apply Hf.
  - intros n Hn. pose proof (disk_vlog_data d' n Hv' Hn) as H. rewrite E1, E2 in H. rewrite H by done. rewrite Hd by done. symmetry. by apply disk_vlog_data.
  - intros Hsep n Hn Hnone. destruct (Hs Hsep) as [Ev Ef]. rewrite <- Hnone, !disk_vlogs, E1, E2, E3, Ev. apply write_vlogs_ext.
    rewrite !lookup_insert_ne by (by apply (path_ne _ (FnLog _) (FnVlog n))). by apply Ef.
Qed.

Definition as_good (dir : bytes) (sep : bool) (f f' : files) : Prop := ∀ m, resting f dir sep m → resting f' dir sep m.

Lemma as_good_same dir sep f f' : f' = f → as_good dir sep f f'.
Proof. by intros -> m. Qed.

(** The replacement of the MANIFEST stops before the rename, or what is on disk
    is what it would be without a failure. *)
Lemma WriteManifest_cut env d s d' :
  WriteManifest env d = (s, d') → (∀ data, fs d' !! ManifestPath (dir_ d) = Some data → len data < 2 ^ 63) →
  (ok s = false ∧ ∃ g, d' = set_fs g d ∧ ∀ path, path ≠ ManifestTmpPath (dir_ d) → g !! path = fs d !! path) ∨
  (d' = set_fs (with_manifest d (fs d)) d ∧ WriteManifest quiet_manifest d = (Ok, d')).
Proof.
  unfold WriteManifest at 1. set (tmp := ManifestTmpPath (dir_ d)). destruct (me_open env) as [e|].
  { intros [= <- <-] _. left. split; [done|]. exists (fs d). by destruct d. }
  set (records := manifest_records _ _ _). pose proof (add_records_file (log.mkWriter [] 0) (with_writes (me_writes env) records) eq_refl) as Hw.
  destruct (log.add_records _ _) as [result writer]. cbn [fst snd] in Hw. cbv zeta.
  assert (∀ path, path ≠ tmp → <[tmp := log.w_file writer]> (fs d) !! path = fs d !! path) as Htmp by (intros path Hp; by apply lookup_insert_ne).
  assert (∀ path, path ≠ tmp → unlink (me_unlink env) tmp (<[tmp := log.w_file writer]> (fs d)) !! path = fs d !! path) as Hun.
  { intros path Hp. rewrite unlink_other by done. by apply Htmp. }
  destruct (ok result) eqn:Eok; [|rewrite Eok; cbn [negb]; intros [= <- <-] _; left; split; [done|]; by eexists].
  destruct (me_fsync env) as [e|].
  { change (ok (IOError (lit "fsync MANIFEST.tmp failed: " ++ e))) with false. cbn [negb]. intros [= <- <-] _. left. split; [done|]. by eexists. }
  rewrite Eok. cbn [negb]. destruct (me_rename env) as [e|]; [intros [= <- <-] _; left; split; [done|]; by eexists|].
  intros [= <- <-] Hl. cbn [set_fs fs] in Hl. rewrite lookup_insert_eq in Hl. specialize (Hl _ eq_refl). right.
  specialize (Hw eq_refl ltac:(lia)). rewrite with_writes_payloads in Hw. cbn [log.w_file] in Hw. rewrite Hw in *.
  rewrite delete_insert_eq. split; [done|]. fold (manifest_image d) in Hl. change (len (manifest_image d) < 2 ^ 63) in Hl.
  pose proof (log.add_records_image (log.mkWriter [] 0) (with_writes [] records) eq_refl
    (add_records_fine _ _ (with_writes_fine [] records ltac:(constructor)))) as Hi. rewrite with_writes_payloads in Hi.
  pose proof (add_records_fine (log.mkWriter [] 0) _ (with_writes_fine [] records ltac:(constructor))) as Hf.
  unfold WriteManifest. cbn [quiet_manifest me_open me_writes me_fsync me_rename me_dir_open me_dir_sync]. fold records.
  destruct (log.add_records _ (with_writes [] records)) as [r2 w2]. cbn [fst snd] in *. rewrite Hf. cbv zeta iota. rewrite Hf. cbn [negb].
  specialize (Hi ltac:(change (len (manifest_image d) < 2 ^ 64); lia)). rewrite Hi, delete_insert_eq. done.
Qed.

Lemma known_tmp dir f g : known dir f → (∀ path, path ≠ ManifestTmpPath dir → g !! path = f !! path) → known dir g.
Proof.
  intros Hk Hg path Hp. destruct (decide (path = ManifestTmpPath dir)) as [->|Hne]; [by exists FnTmp|]. apply Hk. by rewrite <- Hg.
Qed.

Lemma not_tmp dir x : numbered x → x ≠ FnTmp → path_of dir x ≠ ManifestTmpPath dir.
Proof. intros Hx Hne. by apply (path_ne dir x FnTmp). Qed.

Lemma unlink_none path f : unlink (λ _, false) path f = f.
Proof. done. Qed.

Lemma write_vlogs_among dir l f v :
  Forall (λ x, 0 ≤ vlog.number_ x < 2 ^ 64) l → 0 ≤ vlog.number_ v < 2 ^ 64 → (∀ x, x ∈ l → vlog.number_ x = vlog.number_ v → x = v) →
  v ∈ l ∨ f !! VlogPath dir (vlog.number_ v) = Some (vlog.v_file v) →
  write_vlogs dir l f !! VlogPath dir (vlog.number_ v) = Some (vlog.v_file v).
Proof.
  intros Hb Hv. revert f. induction Hb as [|x l Hx Hb IH]; intros f Hu Hor; [by destruct Hor as [?%not_elem_of_nil|?]|].
  unfold write_vlogs. cbn [foldl]. apply IH; [by intros y Hy; apply Hu, list_elem_of_further|].
  destruct (decide (vlog.number_ x = vlog.number_ v)) as [E|Hne].
  - right. rewrite (Hu x (list_elem_of_here _ _) E). apply lookup_insert_eq.
  - destruct Hor as [[->|?]%elem_of_cons|Hf]; [done|by left|right]. rewrite lookup_insert_ne; [done|]. by apply vlog_path_ne.
Qed.

Section phases.
Context (S : System) (floor : Z) (old : list (Z * list version)) (cur : list version) (later : list Z).
Context (Hdu : durable S floor old cur later).

Let d := sys_db S.
Let sep := vsep_enabled_ (vsep_ d).

Lemma durable_named : vlogs_named d.
Proof using Hdu. eapply on_disk_vnumbers. apply Hdu. Qed.

(** Nothing but the temporary file has changed. *)
Lemma unpublished d' :
  dir_ d' = dir_ d → wal_ d' = wal_ d → vlogs_ (vsep_ d') = vlogs_ (vsep_ d) →
  (∀ path, path ≠ ManifestTmpPath (dir_ d) → fs d' !! path = fs d !! path) → as_good (dir_ d) sep (disk d) (disk d').
Proof using Hdu.
  intros E1 E2 E3 Hf m Hr. eapply resting_agrees; [exact Hr|]. pose proof (log_number_ok _ _ _ _ _ Hdu) as [_ Hn]. pose proof durable_named as Hv.
  assert (∀ x, numbered x → x ≠ FnTmp → fs d' !! path_of (dir_ d) x = fs d !! path_of (dir_ d) x) as Hx by (intros x Hx Hne; by apply Hf, not_tmp).
  apply agrees_disk; rewrite ?E2; try done.
  - unfold vlogs_named. by rewrite E3.
  - eapply known_tmp; [|exact Hf]. apply (known_fs _ _ _ _ _ Hdu).
  - intros x Hnx Hne _. by apply Hx.
  - intros n Hb. unfold vlog_data. rewrite E1, E3. pose proof (Hx (FnVlog n) Hb ltac:(done)) as E. change (path_of (dir_ d) (FnVlog n)) with (VlogPath (dir_ d) n) in E. by rewrite E.
  - intros _. split; [done|]. intros n Hb. by apply (Hx (FnVlog n)).
Qed.

Lemma flush_cut env log r f' d' :
  0 ≤ log < 2 ^ 64 → flush_step env (FlInstall log r) d = Some (f', d') → sized d' →
  as_good (dir_ d) sep (disk d) (disk d') ∨
  ∃ env' f1, manifest_env_fine (fe_manifest env') ∧ flush_step env' (FlInstall log r) d = Some (f1, d').
Proof using Hdu.
  intros Hlog E Hz. cbn [flush_step] in E. unfold flush_install in E. set (d1 := set_current _ d) in E.
  destruct (WriteManifest (fe_manifest env) d1) as [s d2] eqn:E2.
  assert (dir_ d2 = dir_ d) as Ed by (destruct (WriteManifest_keeps (fe_manifest env) d1) as (? & ? & E3); rewrite E2 in E3; by injection E3 as _ ->).
  assert (fs d' !! ManifestPath (dir_ d) = fs d2 !! ManifestPath (dir_ d)) as Em.
  { destruct (negb (ok s)); injection E as <- <-; [done|]. cbn [set_fs fs]. rewrite Ed. apply unlink_other. by apply (path_ne (dir_ d) FnManifest (FnLog log)). }
  destruct (WriteManifest_cut _ _ _ _ E2) as [(Hs & g & -> & Hg)|[_ Eq]].
  { change (dir_ d1) with (dir_ d). intros data. rewrite <- Em. apply (sz_files _ Hz). }
  - left. rewrite Hs in E. injection E as <- <-. by apply unpublished.
  - right. exists (mkFlushEnv (fe_sst env) quiet_manifest (if ok s then fe_unlink env else λ _, false)), (FlDone Ok).
    split; [apply quiet_manifest_fine|]. cbn [flush_step fe_manifest fe_unlink]. unfold flush_install. fold d1. rewrite Eq. change (ok Ok) with true. cbn [negb].
    destruct (ok s); cbn [negb] in E; injection E as <- <-; [done|]. rewrite unlink_none. by destruct d2.
Qed.

Lemma compact_cut env c outs s d' :
  Forall (λ r, numbered (FnSst (ref_number r))) (inputs_a c ++ inputs_b c) → compact_install env c outs d = (s, d') → sized d' →
  as_good (dir_ d) sep (disk d) (disk d') ∨
  ∃ env' s1 d1, manifest_env_fine (ce_manifest env') ∧ compact_install env' c outs d = (s1, d1) ∧ torn_state [] d1 d' ∧ next_seq_ d1 = next_seq_ d.
Proof using Hdu.
  intros Hin E Hz. unfold compact_install in E. set (d1 := set_current _ d) in E.
  destruct (WriteManifest (ce_manifest env) d1) as [s0 d2] eqn:E2.
  assert (dir_ d2 = dir_ d ∧ next_seq_ d2 = next_seq_ d) as [Ed En].
  { destruct (WriteManifest_keeps (ce_manifest env) d1) as (? & ? & E3). rewrite E2 in E3. by injection E3 as _ ->. }
  assert (fs d' !! ManifestPath (dir_ d) = fs d2 !! ManifestPath (dir_ d)) as Em.
  { destruct (negb (ok s0)); injection E as <- <-; [done|]. unfold unlink_ssts. cbn [set_fs fs set_stats dir_]. rewrite Ed.
    destruct (unlink_all_gone (ce_unlink env) (λ r, SstPath (dir_ d) (sst.file_number (meta r))) (inputs_a c ++ inputs_b c) (fs d2) (ManifestPath (dir_ d)))
      as [?|[_ (r & Hr & Ep)]]; [done|].
    rewrite Forall_forall in Hin. by apply (path_of_inj (dir_ d) FnManifest (FnSst (ref_number r))) in Ep; [|done|by apply Hin]. }
  destruct (WriteManifest_cut _ _ _ _ E2) as [(Hs & g & -> & Hg)|[_ Eq]].
  { change (dir_ d1) with (dir_ d). intros data. rewrite <- Em. apply (sz_files _ Hz). }
  - left. rewrite Hs in E. injection E as <- <-. by apply unpublished.
  - right. set (env' := mkCompactEnv (ce_ssts env) quiet_manifest (if ok s0 then ce_unlink env else λ _, false)).
    exists env'. unfold compact_install. fold d1. cbn [env' ce_manifest ce_unlink]. rewrite Eq. change (ok Ok) with true. cbn [negb]. eexists _, _.
    split; [apply quiet_manifest_fine|]. split; [done|]. destruct (ok s0); cbn [negb] in E; injection E as <- <-; [by split; [apply torn_state_refl|]|].
    split; [|done]. split; try done; [|by rewrite app_nil_r]. unfold unlink_ssts. cbn [set_fs fs set_stats dir_].
    induction (inputs_a c ++ inputs_b c) as [|r rs IH]; [done|]. cbn [foldl]. apply IH. by inversion Hin.
Qed.

(** Value logs that are found in a state that names them well. *)
Lemma named_found d0 d' :
  NoDup (vlog.number_ <$> vlogs_ (vsep_ d')) → (∀ n v, find_vlog n (vlogs_ (vsep_ d')) = Some v → find_vlog n (vlogs_ (vsep_ d0)) = Some v) →
  vlogs_named d0 → vlogs_named d'.
Proof using.
  intros Hnd Hf [_ Hb]. split; [done|]. rewrite Forall_forall in Hb |- *. intros x Hx. apply Hb.
  by destruct (find_vlog_Some _ _ _ (Hf _ _ (find_vlog_elem _ _ Hnd Hx))).
Qed.

Context (hist : list version) (M : Map) (Hda : data_inv d hist M) (Hen : sep = true).

(** The state in which the MANIFEST of a new generation is written. *)
Let fresh : vlog.VLog := vlog.mkVLog [] (next_file_number_ d) (len (@nil byte)).
Let rotated : DB :=
  set_next_file (next_file_number_ d + 1)
    (set_vsep (set_vlogs (emplace_vlog fresh (vlogs_ (vsep_ d))) (Some (next_file_number_ d)) (vsep_ d))
       (set_fs (<[VlogPath (dir_ d) (next_file_number_ d) := []]> (fs d)) d)).

Lemma rotated_files :
  next_file_number_ d + 1 < 2 ^ 63 →
  0 ≤ next_file_number_ d < 2 ^ 64 ∧ find_vlog (next_file_number_ d) (vlogs_ (vsep_ d)) = None ∧ vlogs_named rotated ∧ known (dir_ d) (fs rotated) ∧
  ∀ x, numbered x → vlog_file_number x = None → fs rotated !! path_of (dir_ d) x = fs d !! path_of (dir_ d) x.
Proof using Hdu Hda.
  intros Hroom. pose proof (log_number_ok _ _ _ _ _ Hdu) as [_ Hn]. pose proof (du_number _ _ _ _ _ Hdu) as Hnx. fold d in Hn, Hnx.
  assert (0 ≤ next_file_number_ d < 2 ^ 64) as Hb by lia. pose proof durable_named as [Hnd Hbd].
  assert (find_vlog (next_file_number_ d) (vlogs_ (vsep_ d)) = None) as Hnew.
  { apply find_vlog_None. intros (x & Hxn & Hx)%list_elem_of_fmap. pose proof (vo_logs _ _ (da_values _ _ _ Hda)) as Hlogs. rewrite Forall_forall in Hlogs.
    destruct (Hlogs x Hx) as (_ & _ & Hlt). lia. }
  split; [done|]. split; [done|]. split; [|split].
  - split; cbn [rotated set_next_file set_vsep vsep_ set_vlogs vlogs_]; [by apply emplace_NoDup|]. rewrite (emplace_perm fresh _ Hnew). by constructor.
  - apply (known_insert _ _ (FnVlog (next_file_number_ d))); [apply (known_fs _ _ _ _ _ Hdu)|done].
  - intros x Hx Hxv. cbn [rotated set_next_file set_vsep set_fs fs]. apply lookup_insert_ne. apply (path_ne _ (FnVlog _) x); [done|done|by intros <-].
Qed.

Lemma rotate_cut open_err env s gen d' :
  default [] (fs d !! VlogPath (dir_ d) (next_file_number_ d)) = [] → next_file_number_ d + 1 < 2 ^ 63 →
  gc_rotate open_err env d = Some (s, gen, d') → sized d' →
  as_good (dir_ d) sep (disk d) (disk d') ∨
  ∃ s1 gen1 d1, gc_rotate open_err quiet_manifest d = Some (s1, gen1, d1) ∧ sized d1 ∧ next_seq_ d1 = next_seq_ d ∧ as_good (dir_ d) sep (disk d1) (disk d').
Proof using Hdu Hda Hen.
  intros Hempty Hroom E Hz. unfold gc_rotate in *. destruct (snapshots_ d); [|injection E as <- <- <-; left; by apply as_good_same].
  unfold vlog.Open in *. destruct open_err as [e|]; [injection E as <- <- <-; left; by apply as_good_same|].
  change (dir_ d ++ lit "/" ++ vlog.FileName (next_file_number_ d)) with (VlogPath (dir_ d) (next_file_number_ d)) in *. rewrite Hempty in *.
  destruct (rotated_files Hroom) as (Hb & Hnew & Hv1 & Hk1 & Hf1). cbv zeta in *. fold fresh in E |- *. set (number := next_file_number_ d) in *.
  set (l := vlogs_ (vsep_ d)) in *. change (set_next_file (number + 1) (set_vsep (set_vlogs (emplace_vlog fresh l) (Some number) (vsep_ d))
    (set_fs (<[VlogPath (dir_ d) number := vlog.v_file fresh]> (fs d)) d))) with rotated in E |- *. set (d1 := rotated) in *.
  assert (∀ n, find_vlog n (emplace_vlog fresh l) = if number =? n then Some fresh else find_vlog n l) as Hfe by (intros n; by apply find_emplace).
  assert (erase_vlog number (emplace_vlog fresh l) = l) as Her by (by apply (erase_emplace fresh)).
  pose proof durable_named as Hv. pose proof (log_number_ok _ _ _ _ _ Hdu) as [_ Hn].
  destruct (WriteManifest env d1) as [ms d2] eqn:E2. destruct (WriteManifest_cut _ _ _ _ E2) as [(Hs & g & -> & Hg)|[Ed2 Eq]].
  { intros data Hdata. apply (sz_files _ Hz (ManifestPath (dir_ d))). destruct (ok ms); [by injection E as <- <- <-|].
    destruct (list.last _); [|done]. cbn [mbind option_bind] in E. by injection E as <- <- <-. }
  - left. rewrite Hs in E. change (vlogs_ (vsep_ (set_fs g d1))) with (emplace_vlog fresh l) in E. rewrite Her in E.
    destruct (list.last l) as [prev|]; [|done]. cbn [mbind option_bind] in E. injection E as <- <- <-. intros m Hr. eapply resting_agrees; [exact Hr|].
    change (dir_ d1) with (dir_ d) in Hg. apply agrees_disk; try done; cbn [set_next_file set_vsep set_fs fs].
    + by eapply known_tmp.
    + intros x Hx Hne Hxv. rewrite Hg by (by apply not_tmp). by apply Hf1.
    + intros n Hbn. unfold vlog_data. cbn [set_next_file set_vsep set_fs fs vsep_ set_vlogs vlogs_ dir_ d1 rotated]. fold l. destruct (find_vlog n l); [done|].
      rewrite Hg by (by apply (not_tmp _ (FnVlog n))). cbn [d1 rotated set_next_file set_vsep set_fs fs].
      destruct (decide (n = number)) as [->|Hne]; [by rewrite lookup_insert_eq, Hempty|]. rewrite lookup_insert_ne; [done|]. by apply vlog_path_ne.
    + fold sep. by rewrite Hen.
  - right. rewrite Eq. change (ok Ok) with true. cbv iota. eexists _, _, _. split; [done|]. subst d2.
    destruct (ok ms); [by injection E as <- <- <-; split_and!; [|done|apply as_good_same]|].
    change (vlogs_ (vsep_ (set_fs (with_manifest d1 (fs d1)) d1))) with (emplace_vlog fresh l) in E. rewrite Her in E.
    destruct (list.last l) as [prev|]; [|done]. cbn [mbind option_bind] in E. injection E as <- <- <-. split; [|split; [done|]].
    { destruct Hz as [_ Z2 Z3]. by split. }
    assert (as_good (dir_ d1) sep (disk (set_fs (with_manifest d1 (fs d1)) d1))
      (disk (set_next_file number (set_vsep (set_vlogs l (Some (vlog.number_ prev)) (vsep_ d1)) (set_fs (with_manifest d1 (fs d1)) d1))))) as H; [|exact H].
    intros m Hr. eapply resting_agrees; [exact Hr|]. apply (agrees_disk (set_fs (with_manifest d1 (fs d1)) d1)); try done.
    + by apply (with_manifest_known d1).
    + intros n Hbn. unfold vlog_data. cbn [set_next_file set_vsep set_fs fs vsep_ set_vlogs vlogs_ dir_ d1 rotated]. fold l. rewrite Hfe.
      destruct (Z.eqb_spec number n) as [<-|]; [|done]. rewrite Hnew. change (<[VlogPath (dir_ d) number:=[]]> (fs d)) with (fs d1).
      pose proof (with_manifest_other d1 (fs d1) (FnVlog number) Hb ltac:(done) ltac:(done)) as Ew.
      change (path_of (dir_ d1) (FnVlog number)) with (VlogPath (dir_ d) number) in Ew. rewrite Ew.
      cbn [d1 rotated set_next_file set_vsep set_fs fs]. by rewrite lookup_insert_eq.
    + cbn [set_fs vsep_]. change (vsep_enabled_ (vsep_ d1)) with sep. by rewrite Hen.
Qed.

(** What a collection may retire. *)
Context (g : Collecting) (Hg : collecting_ok d hist g []).

Let kept : list vlog.VLog := foldl (λ l g, erase_vlog (vlog.number_ g) l) (vlogs_ (vsep_ d)) (gc_retired g).
Let back : list vlog.VLog := foldl (λ l g, emplace_vlog g l) kept (gc_retired g).
Let saved : files := write_vlogs (dir_ d) (gc_retired g) (fs d).

Lemma retired_named : NoDup (vlog.number_ <$> kept) ∧ NoDup (vlog.number_ <$> back) ∧ Forall (λ v, 0 ≤ vlog.number_ v < 2 ^ 64) (gc_retired g).
Proof using Hdu Hda Hg.
  pose proof durable_named as [Hnd Hb]. assert (NoDup (vlog.number_ <$> kept)) as Hk by (eapply sublist_NoDup; [exact Hnd|]; apply sublist_fmap, erase_all_sublist).
  split_and!; [done|by apply emplace_all_NoDup|]. rewrite Forall_forall in Hb |- *. intros v Hv. apply Hb.
  by destruct (co_retired _ _ _ _ Hg v Hv) as [[Hin _]%find_vlog_Some _].
Qed.

(** Their files are what they were. *)
Lemma saved_data (f : files) n :
  (∀ m, 0 ≤ m < 2 ^ 64 → f !! VlogPath (dir_ d) m = saved !! VlogPath (dir_ d) m) → 0 ≤ n < 2 ^ 64 →
  match find_vlog n kept with Some v => vlog.v_file v | None => default [] (f !! VlogPath (dir_ d) n) end = vlog_data n d.
Proof using Hdu Hda Hg.
  intros Hf Hn. pose proof retired_named as (_ & _ & Hb). unfold vlog_data, kept. rewrite erase_all_find, Hf by done.
  destruct (decide (n ∈ vlog.number_ <$> gc_retired g)) as [(v & -> & Hv)%list_elem_of_fmap|Hout].
  - rewrite bool_decide_eq_true_2 by by apply list_elem_of_fmap_2. destruct (co_retired _ _ _ _ Hg v Hv) as [Hfind _]. rewrite Hfind.
    unfold saved. rewrite write_vlogs_among; [done|done|by rewrite Forall_forall in Hb; apply Hb| |by left].
    intros x Hx E. destruct (co_retired _ _ _ _ Hg x Hx) as [Hx' _]. rewrite E, Hfind in Hx'. by injection Hx' as ->.
  - rewrite bool_decide_eq_false_2 by done. destruct (find_vlog n (vlogs_ (vsep_ d))); [done|]. unfold saved. rewrite write_vlogs_other; [done|].
    intros v Hv. rewrite Forall_forall in Hb. apply vlog_path_ne; [done|by apply Hb|]. intros ->. apply Hout. by apply list_elem_of_fmap_2.
Qed.

Lemma restored_data (f : files) n :
  (∀ m, 0 ≤ m < 2 ^ 64 → f !! VlogPath (dir_ d) m = saved !! VlogPath (dir_ d) m) → 0 ≤ n < 2 ^ 64 →
  match find_vlog n back with Some v => vlog.v_file v | None => default [] (f !! VlogPath (dir_ d) n) end = vlog_data n d.
Proof using Hdu Hda Hg.
  intros Hf Hn. rewrite <- (saved_data f n Hf Hn). pose proof (back_find d hist M Hda g Hg n) as Hb. fold kept back in Hb. rewrite Hb.
  pose proof (saved_data f n Hf Hn) as Hs. unfold vlog_data in Hs. destruct (find_vlog n (vlogs_ (vsep_ d))) as [v|] eqn:E; [done|].
  unfold kept. rewrite erase_all_find, E. by destruct (bool_decide _).
Qed.

Lemma saved_other x : numbered x → vlog_file_number x = None → saved !! path_of (dir_ d) x = fs d !! path_of (dir_ d) x.
Proof using Hdu Hda Hg.
  intros Hx Hxv. pose proof retired_named as (_ & _ & Hb). apply write_vlogs_other. intros v Hv. rewrite Forall_forall in Hb.
  apply (path_ne (dir_ d) x (FnVlog (vlog.number_ v))); [done|by apply Hb|]. by intros ->.
Qed.

Lemma back_named d' : vlogs_ (vsep_ d') = back → vlogs_named d'.
Proof using Hdu Hda Hg.
  intros E. pose proof retired_named as (_ & Hnd & _). apply (named_found d); rewrite ?E; [done| |exact durable_named].
  intros n v. pose proof (back_find d hist M Hda g Hg n) as Hb. fold kept back in Hb. by rewrite Hb.
Qed.

Lemma kept_named d' : vlogs_ (vsep_ d') = kept → vlogs_named d'.
Proof using Hdu Hda Hg.
  intros E. pose proof retired_named as (Hnd & _). apply (named_found d); rewrite ?E; [done| |exact durable_named].
  intros n v. unfold kept. rewrite erase_all_find. by destruct (bool_decide _).
Qed.

Lemma retire_cut strerror env s d' :
  gc_retire strerror env (gc_retired g) (gc_rewritten g) d = Some (s, d') → sized d' →
  as_good (dir_ d) sep (disk d) (disk d') ∨
  ∃ quiet removed s1 d1,
    gc_retire strerror (mkGcEnv (ge_open env) (ge_publish env) (ge_preads env) (ge_entries env) (ge_sync env) quiet removed) (gc_retired g) (gc_rewritten g) d
    = Some (s1, d1) ∧ manifest_env_fine quiet ∧ sized d1 ∧ next_seq_ d1 = next_seq_ d ∧ as_good (dir_ d) sep (disk d1) (disk d').
Proof using Hdu Hda Hen Hg.
  intros E Hz. unfold gc_retire in *. cbn [ge_sync ge_retire ge_unlink]. destruct (snapshots_ d); [|injection E as <- <-; left; by apply as_good_same].
  destruct (ForceDurabilityLocked strerror (ge_sync env) (current_vlog (vsep_ d)) (wal_ d)) as [[s0 w]|] eqn:Ew; [|done].
  destruct (force_same _ _ _ _ _ _ (du_ring _ _ _ _ _ Hdu) Ew) as (W1 & W2 & W3). unfold and_then in *. cbn [mbind option_bind] in *.
  destruct (ok s0); [|injection E as <- <-; left; apply as_good_same; by rewrite !disk_vlogs; cbn [set_wal wal_ dir_ vsep_ fs]; rewrite W1, W3].
  cbv zeta in *. cbn [set_wal vsep_ dir_ fs] in *. change (foldl (λ f g, <[VlogPath (dir_ d) (vlog.number_ g):=vlog.v_file g]> f) (fs d) (gc_retired g)) with saved in E |- *.
  change (foldl (λ l g, erase_vlog (vlog.number_ g) l) (vlogs_ (vsep_ d)) (gc_retired g)) with kept in E |- *. set (d2 := set_vsep _ _) in E |- *.
  pose proof (log_number_ok _ _ _ _ _ Hdu) as [_ Hn]. pose proof retired_named as (_ & _ & Hret). pose proof durable_named as Hv.
  assert (known (dir_ d) saved) as Hks by (apply write_vlogs_known; [done|apply (known_fs _ _ _ _ _ Hdu)]).
  destruct (WriteManifest (ge_retire env) d2) as [ms d3] eqn:E2.
  assert (dir_ d3 = dir_ d) as Ed by (destruct (WriteManifest_keeps (ge_retire env) d2) as (? & ? & E3); rewrite E2 in E3; by injection E3 as _ ->).
  destruct (WriteManifest_cut _ _ _ _ E2) as [(Hs & g0 & -> & Hg0)|[Ed3 Eq]].
  { intros data Hdata. apply (sz_files _ Hz (ManifestPath (dir_ d))). destruct (ok ms); cbn [negb] in E; injection E as <- <-; [|done].
    cbn [set_stats set_fs fs]. rewrite Ed. destruct (unlink_all_gone (ge_unlink env) (λ v, VlogPath (dir_ d) (vlog.number_ v)) (gc_retired g) (fs d3) (ManifestPath (dir_ d)))
      as [->|[_ (v & Hin & Ep)]]; [done|]. rewrite Forall_forall in Hret. by apply (path_of_inj (dir_ d) FnManifest (FnVlog (vlog.number_ v))) in Ep; [|done|by apply Hret]. }
  - left. rewrite Hs in E. cbn [negb] in E. injection E as <- <-. change (dir_ d2) with (dir_ d) in Hg0.
    intros m Hr. eapply resting_agrees; [exact Hr|]. apply agrees_disk; try done; [by apply back_named|by eapply known_tmp| | |fold sep; by rewrite Hen].
    + intros x Hx Hne Hxv. cbn [set_vsep set_fs fs]. rewrite Hg0 by (by apply not_tmp). by apply saved_other.
    + intros n Hbn. apply (restored_data g0); [|done]. intros k Hk. by apply Hg0, (not_tmp _ (FnVlog k)).
  - right. exists quiet_manifest, (if ok ms then ge_unlink env else λ _, false). rewrite Eq. change (ok Ok) with true. cbn [negb]. eexists _, _. split; [done|].
    split; [apply quiet_manifest_fine|]. destruct (ok ms); cbn [negb] in E; injection E as <- <-; [by split_and!; [|subst d3|apply as_good_same]|].
    assert (∀ (l : list vlog.VLog) f, foldl (λ f g, unlink (λ _, false) (VlogPath (dir_ d3) (vlog.number_ g)) f) f l = f) as -> by (by induction l).
    split; [by destruct Hz; split|]. split; [by subst d3|]. subst d3. set (d3 := set_fs (with_manifest d2 (fs d2)) d2) in *.
    set (d1 := set_stats _ _). assert (∀ k, 0 ≤ k < 2 ^ 64 → with_manifest d2 (fs d2) !! VlogPath (dir_ d) k = saved !! VlogPath (dir_ d) k) as Hman.
    { intros k Hk. by apply (with_manifest_other d2 _ (FnVlog k)). }
    intros m Hr. eapply resting_agrees; [exact Hr|].
    apply (agrees_disk d1); try done; [cbn; rewrite W3; done|by apply kept_named|by apply back_named|by apply (with_manifest_known d2)| |].
    + intros n Hbn. etrans; [by apply (restored_data (with_manifest d2 (fs d2)))|]. symmetry. by apply (saved_data (with_manifest d2 (fs d2))).
    + cbn. change (vsep_enabled_ (vsep_ d)) with sep. by rewrite Hen.
Qed.

End phases.

Section interrupt.
Context (hash : bytes → Z) (strerror : Z → bytes).

(** What a reliable step would have left. *)
Definition as_reliable (S S' : System) : Prop :=
  let good := as_good (dir_ (sys_db S)) (vsep_enabled_ (vsep_ (sys_db S))) in
  good (disk (sys_db S)) (disk (sys_db S')) ∨
  ∃ env S1, limits (CBackground env) S ∧ reliable (CBackground env) S ∧ bg_step strerror env S = Some S1 ∧
    sized (sys_db S1) ∧ next_seq_ (sys_db S1) ≤ 2 ^ 56 ∧ good (disk (sys_db S1)) (disk (sys_db S')).

Lemma interrupted_flush wrap place env S log r f' d' :
  flush_phase wrap → recoverable S → db_limits (sys_db S) → sys_bg S = wrap (FlInstall log r) →
  (∀ fe f1 d1, flush_step fe (FlInstall log r) (sys_db S) = Some (f1, d1) → manifest_env_fine (fe_manifest fe) →
     bg_step strerror (place fe) S = Some (mkSystem d1 (wrap f1)) ∧ reliable (CBackground (place fe)) S ∧ limits (CBackground (place fe)) S) →
  flush_step env (FlInstall log r) (sys_db S) = Some (f', d') → sized d' → as_reliable S (mkSystem d' (wrap f')).
Proof using.
  intros Hp (floor & old & cur & later & Hdu) Hl Eb Hplace E Hz. pose proof (du_bg _ _ _ _ _ Hdu) as Hb. rewrite Eb, (proj2 (Hp _)) in Hb.
  destruct Hb as (Hlog & _). pose proof (log_number_ok _ _ _ _ _ Hdu) as [_ Hn].
  destruct (flush_cut S floor old cur later Hdu env log r f' d' ltac:(lia) E Hz) as [Hg|(fe & f1 & Hfine & E1)]; [by left|]. right.
  destruct (Hplace fe f1 d' E1 Hfine) as (Hs & Hrel & Hlim). exists (place fe), (mkSystem d' (wrap f1)). split_and!; try done; [|by apply as_good_same].
  cbn [sys_db flush_step] in *. pose proof (dl_seq _ Hl). unfold flush_install in E1. set (d1 := set_current _ (sys_db S)) in E1.
  destruct (WriteManifest_keeps (fe_manifest fe) d1) as (s & f & Ew). rewrite Ew in E1. destruct (negb (ok s)); injection E1 as <- <-; cbn; lia.
Qed.

Lemma interrupted_bg env S hist M S' :
  recoverable S → sys_inv S hist M → limits (CBackground env) S → interruptible (CBackground env) S → writing (CBackground env) S = false →
  bg_step strerror env S = Some S' → sized (sys_db S') → next_seq_ (sys_db S') ≤ 2 ^ 56 → as_reliable S S'.
Proof using.
  intros Hr [Hda Hb] Hlim Hi Hw E Hz Hn. pose proof Hlim as [Hl Hbl]. pose proof (dl_seq _ Hl) as Hseq. pose proof Hr as (floor & old & cur & later & Hdu).
  assert (reliable (CBackground env) S → as_reliable S S') as Hself.
  { intros Hrel. right. exists env, S'. split_and!; try done. by apply as_good_same. }
  cbn [interruptible writing reliable] in *. unfold bg_step in E. fold (first_entry env) in E. destruct (first_entry env) as [entry drain] eqn:Ef.
  destruct (sys_bg S) as [|f|c|c F|c outs|s| |g|x|x|f x|g|s] eqn:Eb; cbn [bg_inv] in Hb; try (by apply Hself); try done.
  - destruct f as [imm log n|log r|s]; try (by apply Hself). destruct (flush_step _ _ _) as [[f' d']|] eqn:E1; [|done]. cbn [mbind option_bind] in E. injection E as <-.
    eapply (interrupted_flush BgFlush (λ fe, mkBgEnv fe (be_compact env) (be_gc env))); [apply loop_flush_phase|done|done|done| |exact E1|done].
    intros fe f1 d1 Ef1 Hfine. unfold bg_step, limits, bg_limits. cbn [reliable]. rewrite Eb. cbn [be_gc be_flush]. fold (first_entry env). rewrite Ef, Ef1. done.
  - destruct (compact_install _ _ _ _) as [s d'] eqn:E1. injection E as <-. destruct Hb as [Hp _]. cbn [sys_db] in *.
    destruct (compact_cut S floor old cur later Hdu (be_compact env) c outs s d') as [Hg|(ce & s1 & d1 & Hfine & E2 & Ht & Hn1)]; [|done|done|by left|].
    + apply Forall_forall. intros r Hin. by eapply ref_numbered, picked_inputs; [apply Hdu|..].
    + right. exists (mkBgEnv (be_flush env) ce (be_gc env)), (mkSystem d1 (BgCompacted s1)). unfold bg_step, limits, bg_limits. cbn [reliable]. rewrite Eb.
      cbn [be_gc be_compact]. fold (first_entry env). rewrite Ef, E2. split_and!; try done; [by eapply torn_sized|cbn; lia|]. apply as_good_same. by apply untorn_disk.
  - destruct Hi as [Hse Hroom]. destruct (gc_rotate _ _ _) as [[[s fresh] d']|] eqn:E1; [|done]. cbn [mbind option_bind] in E. injection E as <-. cbn [sys_db] in *.
    unfold bg_limits in Hbl. rewrite Eb in Hbl.
    destruct (rotate_cut S floor old cur later Hdu hist M Hda Hb _ _ s fresh d' Hbl Hroom E1 Hz) as [Hg|(s1 & gen1 & d1 & E2 & Hz1 & Hn1 & Hg)]; [by left|].
    right. set (g := be_gc env). exists (mkBgEnv (be_flush env) (be_compact env) (mkGcEnv (ge_open g) quiet_manifest (ge_preads g) (ge_entries g) (ge_sync g) (ge_retire g) (ge_unlink g))).
    unfold bg_step, limits, bg_limits. cbn [reliable]. rewrite Eb. cbn [be_gc ge_open ge_publish ge_entries]. destruct (default (quiet_entry, quiet_flush) _) as [e0 f0]. unfold g. rewrite E2. cbn [mbind option_bind].
    eexists. split_and!; try done; try apply quiet_manifest_fine. cbn; lia.
  - destruct f as [imm log n|log r|s]; try (by apply Hself). destruct (flush_step _ _ _) as [[f' d']|] eqn:E1; [|done]. cbn [mbind option_bind] in E. injection E as <-.
    eapply (interrupted_flush (λ f, BgGcFlush f x) (λ fe, with_entries ((entry, fe) :: tail (ge_entries (be_gc env))) env)); [apply gc_flush_phase|done|done|done| |exact E1|done].
    intros fe f1 d1 Ef1 Hfine. unfold bg_step, limits, bg_limits. cbn [reliable]. rewrite Eb. cbn [first_entry with_entries be_gc ge_entries head from_option id snd]. rewrite Ef1. done.
  - destruct (gc_retire _ _ _ _ _) as [[s d']|] eqn:E1; [|done]. cbn [mbind option_bind] in E. injection E as <-. cbn [sys_db] in *.
    destruct (retire_cut S floor old cur later Hdu hist M Hda (co_enabled _ _ _ _ Hb) g Hb strerror (be_gc env) s d' E1 Hz)
      as [Hg|(quiet & removed & s1 & d1 & E2 & Hfine & Hz1 & Hn1 & Hg)]; [by left|].
    right. eexists (mkBgEnv (be_flush env) (be_compact env) _). unfold bg_step, limits, bg_limits. cbn [reliable]. rewrite Eb. cbn [be_gc].
    eexists. destruct (default (quiet_entry, quiet_flush) _) as [e0 f0]. rewrite E2. cbn [mbind option_bind]. split_and!; try done. cbn; lia.
Qed.

(** A reliable step, and a crash after it. *)
Lemma reliable_resting c S hist M a S1 :
  recoverable S → sys_inv S hist M → limits c S → reliable c S → step hash strerror c S = Some (a, S1) → sized (sys_db S1) →
  next_seq_ (sys_db S1) ≤ 2 ^ 56 →
  ∃ m, interrupted c (contents M) m ∧ resting (disk (sys_db S1)) (dir_ (sys_db S)) (vsep_enabled_ (vsep_ (sys_db S))) m.
Proof using.
  intros Hr Hs Hl Hrel E Hz Hn. destruct (step_simulates hash strerror c S hist M Hs Hl) as (a1 & S2 & hist1 & M1 & E1 & Ha & Hs1).
  rewrite E in E1. injection E1 as <- <-. exists (contents M1). split; [by eapply allowed_interrupted|].
  pose proof (home_step hash strerror c S hist M a S1 Hr Hs Hl Hrel E) as Hh. injection Hh as <- <-. eapply crash_resting; [by eapply recoverable_step|done|done].
Qed.

Lemma interrupted_resting c S hist M a S' :
  recoverable S → sys_inv S hist M → limits c S → interruptible c S → step hash strerror c S = Some (a, S') → sized (sys_db S') →
  next_seq_ (sys_db S') ≤ 2 ^ 56 → noticed (log.w_file (log_writer_ (wal_ (sys_db S')))) = true →
  ∃ m, interrupted c (contents M) m ∧ resting (disk (sys_db S')) (dir_ (sys_db S)) (vsep_enabled_ (vsep_ (sys_db S))) m.
Proof using.
  intros Hr Hs Hl Hi E Hz Hn Hno. destruct (writing c S) eqn:Ew; [eapply interrupted_writing; try done; by rewrite Ew|].
  destruct c as [env key value|env key|io key sn|ios lo hi sn| |x|env]; try (by eapply reliable_resting); try done.
  cbn [step] in E. destruct (bg_step strerror env S) as [S2|] eqn:Eb; [|done]. cbn [mbind option_bind] in E. injection E as <- <-.
  destruct (interrupted_bg env S hist M S2 Hr Hs Hl Hi Ew Eb Hz Hn) as [Hg|(env1 & S1 & Hl1 & Hrel & E1 & Hz1 & Hn1 & Hg)].
  - exists (contents M). split; [by left|]. apply Hg. eapply crash_resting; [done|done|]. pose proof (dl_seq _ (proj1 Hl)). lia.
  - destruct (reliable_resting (CBackground env1) S hist M ANone S1 Hr Hs Hl1 Hrel) as (m & Hm & Hrest); [cbn [step]; by rewrite E1|done|done|].
    exists m. split; [done|by apply Hg].
Qed.

End interrupt.
