(* ===== verification/DbLives.v ===== *)
(** * Lives of the database

    A process opens the directory, serves calls and dies, between two sections
    or in the middle of a call; the next one opens what it left.
    [recovery_restores_map]: if the answered calls reach the disk, every [Open]
    succeeds and the users see one map throughout, in which an unanswered write
    has taken effect or not. *)

From S2P Require Import Prelude Status FsUtil Encoding Log VLog LruCache InternalKey Mvcc Layers Iterator Block.
From S2P Require Import SSTable TableSize Manifest SkipList MemTable Merge Db DbRead DbInv DbFlush DbPick DbMerge DbCompact.
From S2P Require Import DbValues DbScan DbSystem DbLogs DbRefine DbOpen DbBackground DbCollect DbCorrect DbRounds DbFiles DbDisk DbDurable DbInstall DbRecover DbInterrupt.
Import db.

(** ** Lives *)

(** [li_last]: the call the process died in, if it died in one. *)
Record life := mkLife { li_open : open_env; li_options : Options; li_calls : list Call; li_last : option Call }.

Section lives.
Context (hash : bytes → Z) (strerror : Z → bytes) (dir : bytes).

(** The state in which the process dies. *)
Definition last_step (last : option Call) (S : System) : option System :=
  match last with None => Some S | Some c => '(_, S1) ← step hash strerror c S; Some S1 end.

(** The answers, life by life, and the files at the end. *)
Fixpoint live (ls : list life) (f : files) : option (list (list Answer) * files) :=
  match ls with
  | [] => Some ([], f)
  | l :: ls =>
      '(_, r) ← Open (li_open l) dir (li_options l) f;
      match r with
      | inl _ => None
      | inr d =>
          '(answers, S1) ← run hash strerror (li_calls l) (mkSystem d BgIdle);
          S2 ← last_step (li_last l) S1;
          '(rest, f') ← live ls (disk (sys_db S2));
          Some (answers :: rest, f')
      end
  end.

(** The map the process leaves. *)
Definition left_map (last : option Call) (m m' : gmap bytes bytes) : Prop :=
  match last with None => m' = m | Some c => interrupted c m m' end.

(** One map throughout; snapshots end with the process. *)
Fixpoint lives_converse (ls : list life) (answers : list (list Answer)) (m m' : gmap bytes bytes) : Prop :=
  match ls, answers with
  | [], [] => m' = m
  | l :: ls, a :: rest =>
      ∃ M m1, converses (li_calls l) a (mkMap m []) M ∧ left_map (li_last l) (contents M) m1 ∧ lives_converse ls rest m1 m'
  | _, _ => False
  end.

(** Every call is within the limits and reaches the disk. *)
Fixpoint dependable (cs : list Call) (S : System) : Prop :=
  (db_limits (sys_db S) ∧ sized (sys_db S)) ∧
  match cs with
  | [] => True
  | c :: cs => (limits c S ∧ reliable c S) ∧ ∀ a S', step hash strerror c S = Some (a, S') → dependable cs S'
  end.

(** The calls of [Open] succeed, the ring is off, and value separation is on
    in all lives or in none. *)
Definition fine_life (sep : bool) (l : life) : Prop :=
  open_fine (li_open l) ∧ enable_io_uring (li_options l) = false ∧ enable_value_separation (li_options l) = sep.

(** The last call is within the limits, and a torn end of the log shows. *)
Definition dying (last : option Call) (S : System) : Prop :=
  match last with
  | None => True
  | Some c =>
      limits c S ∧ interruptible c S ∧
      ∀ a S1, step hash strerror c S = Some (a, S1) →
        sized (sys_db S1) ∧ next_seq_ (sys_db S1) ≤ 2 ^ 56 ∧ noticed (log.w_file (log_writer_ (wal_ (sys_db S1)))) = true
  end.

Fixpoint dependable_lives (ls : list life) (f : files) : Prop :=
  match ls with
  | [] => True
  | l :: ls =>
      ∀ f' d, Open (li_open l) dir (li_options l) f = Some (f', inr d) →
        dependable (li_calls l) (mkSystem d BgIdle) ∧
        ∀ answers S, run hash strerror (li_calls l) (mkSystem d BgIdle) = Some (answers, S) →
          dying (li_last l) S ∧ ∀ S1, last_step (li_last l) S = Some S1 → dependable_lives ls (disk (sys_db S1))
  end.

(** The conditions can be checked along the lives. *)
Fixpoint check_dependable (cs : list Call) (S : System) : bool :=
  bool_decide (db_limits (sys_db S) ∧ sized (sys_db S)) &&
  match cs with
  | [] => true
  | c :: cs =>
      bool_decide (limits c S ∧ reliable c S) &&
      match step hash strerror c S with Some (_, S') => check_dependable cs S' | None => true end
  end.

Definition check_dying (last : option Call) (S : System) : bool :=
  match last with
  | None => true
  | Some c =>
      bool_decide (limits c S ∧ interruptible c S) &&
      match step hash strerror c S with
      | Some (_, S1) =>
          bool_decide (sized (sys_db S1) ∧ next_seq_ (sys_db S1) ≤ 2 ^ 56) && noticed (log.w_file (log_writer_ (wal_ (sys_db S1))))
      | None => true
      end
  end.

Fixpoint check_lives (ls : list life) (f : files) : bool :=
  match ls with
  | [] => true
  | l :: ls =>
      match Open (li_open l) dir (li_options l) f with
      | Some (_, inr d) =>
          check_dependable (li_calls l) (mkSystem d BgIdle) &&
          match run hash strerror (li_calls l) (mkSystem d BgIdle) with
          | Some (_, S1) =>
              check_dying (li_last l) S1 &&
              match last_step (li_last l) S1 with Some S2 => check_lives ls (disk (sys_db S2)) | None => true end
          | None => true
          end
      | _ => true
      end
  end.

Lemma check_dependable_ok cs S : check_dependable cs S = true → dependable cs S.
Proof.
  revert S. induction cs as [|c cs IH]; intros S; cbn [check_dependable dependable]; intros [H1%bool_decide_eq_true H2]%andb_true_iff; (split; [done|]); [done|].
  apply andb_true_iff in H2 as [H2%bool_decide_eq_true H3]. split; [done|]. intros a S' E. rewrite E in H3. by apply IH.
Qed.

Lemma check_dying_ok last S : check_dying last S = true → dying last S.
Proof.
  destruct last as [c|]; [|done]. cbn [check_dying dying]. intros [[H1 H2]%bool_decide_eq_true H3]%andb_true_iff. split_and!; [done|done|].
  intros a S1 E. rewrite E in H3. apply andb_true_iff in H3 as [[? ?]%bool_decide_eq_true ?]. done.
Qed.

Lemma check_lives_ok ls f : check_lives ls f = true → dependable_lives ls f.
Proof.
  revert f. induction ls as [|l ls IH]; intros f; [done|]. cbn [check_lives dependable_lives]. intros H f' d E. rewrite E in H.
  apply andb_true_iff in H as [H1 H2]. split; [by apply check_dependable_ok|]. intros answers S Er. rewrite Er in H2.
  apply andb_true_iff in H2 as [H2 H3]. split; [by apply check_dying_ok|]. intros S1 E1. rewrite E1 in H3. by apply IH.
Qed.

(** ** Runs *)

Lemma run_recoverable cs S hist M :
  recoverable S → sys_inv S hist M → dependable cs S →
  ∃ answers S' hist' M', run hash strerror cs S = Some (answers, S') ∧ converses cs answers M M' ∧ sys_inv S' hist' M' ∧ recoverable S' ∧
    next_seq_ (sys_db S') < 2 ^ 56 ∧ home (sys_db S') = home (sys_db S).
Proof using.
  revert S hist M. induction cs as [|c cs IH]; intros S hist M Hr Hs [[Hl Hz] Hd].
  - exists [], S, hist, M. split_and!; try done. apply Hl.
  - destruct Hd as [[Hc He] Hd]. destruct (step_simulates hash strerror c S hist M Hs Hc) as (a & S1 & hist1 & M1 & E & Ha & Hs1).
    specialize (Hd a S1 E). assert (sized (sys_db S1)) as Hz1 by (destruct cs; apply Hd).
    pose proof (recoverable_step hash strerror c S hist M a S1 hist1 M1 Hr Hs Hc He E Hs1 Hz1) as Hr1.
    pose proof (home_step hash strerror c S hist M a S1 Hr Hs Hc He E) as Hh.
    destruct (IH S1 hist1 M1 Hr1 Hs1 Hd) as (answers & S' & hist' & M' & E' & Hcv & Hs' & Hr' & Hn & Hh'). exists (a :: answers), S', hist', M'.
    cbn [run]. rewrite E. cbn [mbind option_bind]. rewrite E', Hh'. split_and!; try done. by exists M1.
Qed.

(** The process dies. *)
Lemma last_resting last S hist M :
  recoverable S → sys_inv S hist M → next_seq_ (sys_db S) < 2 ^ 56 → dying last S →
  ∃ S1 m, last_step last S = Some S1 ∧ left_map last (contents M) m ∧
    resting (disk (sys_db S1)) (dir_ (sys_db S)) (vsep_enabled_ (vsep_ (sys_db S))) m.
Proof using.
  intros Hr Hs Hn Hd. destruct last as [c|]; cbn [last_step left_map dying] in *.
  - destruct Hd as (Hl & Hi & Hend). destruct (step_simulates hash strerror c S hist M Hs Hl) as (a & S1 & _ & _ & E & _).
    destruct (Hend a S1 E) as (Hz & Hn1 & Hno). destruct (interrupted_resting hash strerror c S hist M a S1 Hr Hs Hl Hi E Hz Hn1 Hno) as (m & Hm & Hrest).
    exists S1, m. by rewrite E.
  - exists S, (contents M). split_and!; [done|done|]. by apply crash_resting with hist; [..|lia].
Qed.

(** A life leaves a directory the next one can open. *)
Lemma lives_restore sep ls f m :
  Forall (fine_life sep) ls → resting f dir sep m → dependable_lives ls f →
  ∃ answers f' m', live ls f = Some (answers, f') ∧ lives_converse ls answers m m' ∧ resting f' dir sep m'.
Proof using.
  intros Hf. revert f m. induction Hf as [|l ls (Ho & Hu & Hsep) _ IH]; intros f m Hrest Hd; [by exists [], f, m|].
  rewrite <- Hsep in Hrest. destruct (open_resting (li_open l) dir (li_options l) f m Ho Hu Hrest) as (d & E & Ed & Es & Hs & Hr).
  cbn [dependable_lives] in Hd. destruct (Hd _ _ E) as [Hdep Hnext].
  assert (sized d) as Hz by (destruct (li_calls l); apply Hdep).
  destruct (run_recoverable (li_calls l) _ _ _ (Hr Hz) Hs Hdep) as (a & S & hist & M & Er & Hc & Hs' & Hr' & Hn & Hh).
  destruct (Hnext _ _ Er) as [Hdy Hlives]. destruct (last_resting (li_last l) S hist M Hr' Hs' Hn Hdy) as (S2 & m2 & E2 & Hm2 & Hrest').
  unfold home in Hh. injection Hh as H1 H2. cbn [sys_db] in H1, H2. rewrite H1, H2, Ed, Es, Hsep in Hrest'.
  destruct (IH _ _ Hrest' (Hlives _ E2)) as (answers & f' & m' & El & Hcv & Hrest2). exists (a :: answers), f', m'.
  cbn [live]. rewrite E. cbn [mbind option_bind]. rewrite Er. cbn [mbind option_bind]. rewrite E2. cbn [mbind option_bind]. rewrite El.
  split_and!; [done|by exists M, m2|done].
Qed.

End lives.

(** ** Property *)

(** C2: what was acknowledged survives.  Over any number of lives, each opening
    the directory the one before left when it died, with memtables unflushed and
    flushes, compactions or collections under way, between two sections or in
    the middle of a call: a write whose log record is torn at any byte or whose
    sync fails, a flush, compaction or collection whose MANIFEST replacement
    stops at any system call.  Every [Open] succeeds, and the answers of all
    lives are those of one map, in which every acknowledged write stays, the
    write without an answer has happened or not, and snapshots end with the
    process.  The answered calls must succeed on their way to disk or leave the
    log alone, no MANIFEST may be installed while a log below the current one
    holds records that are in no table, and the reader must notice a torn
    log. *)
Theorem recovery_restores_map (hash : bytes → Z) (strerror : Z → bytes) (dir : bytes) (sep : bool) (ls : list life) :
  Forall (fine_life sep) ls → dependable_lives hash strerror dir ls ∅ →
  ∃ answers f m, live hash strerror dir ls ∅ = Some (answers, f) ∧ lives_converse ls answers ∅ m.
Proof.
  intros Hf Hd. destruct ls as [|l ls]; [by exists [], ∅, ∅|].
  assert (resting ∅ dir sep ∅) as Hrest by (inversion Hf as [|? ? (_ & _ & <-)]; apply resting_empty).
  destruct (lives_restore hash strerror dir sep (l :: ls) ∅ ∅ Hf Hrest Hd) as (answers & f & m & E & Hc & _). by exists answers, f, m.
Qed.

(** As [sample_Options], without the ring. *)
Definition plain_Options : Options := mkOptions kSyncAlways 1 2 10 100 true 0 0 false.

(** The log record is cut off after [n] bytes; the MANIFEST of a compaction is
    written and not renamed. *)
Definition torn_put (n : Z) : put_env :=
  mkPutEnv (pe_rotate quiet_put) (mkEntryEnv [] true [IoBytes n; IoError (lit "killed")] quiet_ring quiet_sync []).

Definition unrenamed_bg : bg_env :=
  mkBgEnv quiet_flush (mkCompactEnv [] (mkManifestEnv None [] None (λ _, false) (Some (lit "killed")) None None) (λ _, true)) quiet_gc.

(** The first life dies in a write, after the log has been switched; the second
    dies in the installation of a compaction; the third compacts and dies in
    another compaction, after a write; the fourth reads. *)
Definition sample_lives : list life :=
  [mkLife quiet_open plain_Options
     ([CPut quiet_put (lit "a") (lit "1"); CPut quiet_put (lit "b") (replicate 70 Init.Byte.x78)] ++ replicate 4 (CBackground quiet_bg))
     (Some (CPut (torn_put 12) (lit "c") (lit "3")));
   mkLife quiet_open plain_Options
     ([CGet whole_io (lit "a") None; CGet whole_io (lit "b") None; CDelete quiet_put (lit "a")] ++ replicate 7 (CBackground quiet_bg))
     (Some (CBackground unrenamed_bg));
   mkLife quiet_open plain_Options (replicate 12 (CBackground quiet_bg) ++ [CPut quiet_put (lit "d") (lit "4")]) None;
   mkLife quiet_open plain_Options [CScan [] (lit "a") (lit "z") None] None].

Lemma sample_lives_fine : Forall (fine_life true) sample_lives.
Proof. repeat constructor; exact quiet_open_fine || done. Qed.

Lemma recovery_restores_map_witness :
  ∃ answers f m, live no_hash no_strerror (lit "/db") sample_lives ∅ = Some (answers, f) ∧ lives_converse sample_lives answers ∅ m.
Proof.
  apply (recovery_restores_map no_hash no_strerror (lit "/db") true sample_lives sample_lives_fine).
  apply check_lives_ok. vm_compute. reflexivity.
Defined.
