(* ===== verification/Server.v ===== *)
(** * The Redis-compatible server

    Models include/bedrockkv/server.h and src/server.cpp: the command layer
    ([Execute]) over an abstract store, and the event loop's handlers over the
    connections.  The store is the class [KvStore]; its laws are [KvLaws].  The
    outcomes of [::read], [::write], [::accept4], [::epoll_ctl] and what
    [::epoll_wait] reports are arguments; [sent] is what the peers of the
    connections have been written. *)

From stdpp Require Import fin_sets fin_map_dom.
From S2P Require Import Prelude Status FsUtil Resp.
Import resp.

Module server.

(** ** The store the commands run against *)

Class KvStore (DB : Type) := {
  db_Put : DB → bytes → bytes → Status * DB;
  db_Get : DB → bytes → Status * bytes * DB;
  db_Delete : DB → bytes → Status * DB
}.

Inductive kv_op := OpPut (k v : bytes) | OpGet (k : bytes) | OpDelete (k : bytes).

(** A store whose operations behave as those of a finite map, as long as they
    fit: an operation may fail if [faults], and then it has changed nothing. *)
Class KvLaws (DB : Type) {Store : KvStore DB} (holds : DB → gmap bytes bytes → Prop)
    (fits : kv_op → DB → Prop) (faults : Prop) : Prop := {
  law_put db m k v : holds db m → fits (OpPut k v) db →
    let '(s, db') := db_Put db k v in if ok s then holds db' (<[k := v]> m) else faults ∧ holds db' m;
  law_delete db m k : holds db m → fits (OpDelete k) db →
    let '(s, db') := db_Delete db k in if ok s then holds db' (delete k m) else faults ∧ holds db' m;
  law_get db m k : holds db m → fits (OpGet k) db →
    let '(s, v, db') := db_Get db k in
    holds db' m ∧
    match m !! k with
    | Some x => if ok s then v = x else faults
    | None => code_ s = kNotFound
    end
}.

Definition kMaxOutBytes : Z := 64 * 2 ^ 20.
Definition kMaxInBytes : Z := 64 * 2 ^ 20.
Definition kMaxConns : Z := 4096.

Definition Lower (s : bytes) : bytes :=
  (λ c, if (65 <=? byte_val c) && (byte_val c <=? 90) then to_char (byte_val c + 32) else c) <$> s.

Section commands.
Context {DB : Type} {Store : KvStore DB}.

Fixpoint del_loop (db : DB) (keys : list bytes) (removed : Z) : Z * DB :=
  match keys with
  | [] => (removed, db)
  | k :: keys =>
      let '(s, _, db) := db_Get db k in
      if ok s then
        let '(s, db) := db_Delete db k in
        del_loop db keys (if ok s then removed + 1 else removed)
      else del_loop db keys removed
  end.

Fixpoint exists_loop (db : DB) (keys : list bytes) (found : Z) : Z * DB :=
  match keys with
  | [] => (found, db)
  | k :: keys =>
      let '(s, _, db) := db_Get db k in
      exists_loop db keys (if ok s then found + 1 else found)
  end.

Definition wrong_args (cmd : bytes) : bytes :=
  Error (lit "ERR wrong number of arguments for '" ++ cmd ++ lit "' command").

Definition Execute (args : list bytes) (db : DB) : bytes * DB :=
  match args with
  | [] => (Error (lit "ERR empty command"), db)
  | name :: rest =>
      let cmd := Lower name in
      if bytes_eqb cmd (lit "ping") then
        (match rest with [] => SimpleString (lit "PONG") | msg :: _ => BulkString msg end, db)
      else if bytes_eqb cmd (lit "echo") then
        match rest with [msg] => (BulkString msg, db) | _ => (wrong_args (lit "echo"), db) end
      else if bytes_eqb cmd (lit "set") then
        match rest with
        | [key; value] =>
            let '(s, db) := db_Put db key value in
            (if ok s then SimpleString (lit "OK") else Error (lit "ERR " ++ message_ s), db)
        | _ => (wrong_args (lit "set"), db)
        end
      else if bytes_eqb cmd (lit "get") then
        match rest with
        | [key] =>
            let '(s, value, db) := db_Get db key in
            (if ok s then BulkString value
             else if bool_decide (code_ s = kNotFound) then NullBulk
             else Error (lit "ERR " ++ message_ s), db)
        | _ => (wrong_args (lit "get"), db)
        end
      else if bytes_eqb cmd (lit "del") then
        match rest with
        | [] => (wrong_args (lit "del"), db)
        | _ => let '(n, db) := del_loop db rest 0 in (Integer n, db)
        end
      else if bytes_eqb cmd (lit "exists") then
        match rest with
        | [] => (wrong_args (lit "exists"), db)
        | _ => let '(n, db) := exists_loop db rest 0 in (Integer n, db)
        end
      else (Error (lit "ERR unknown command '" ++ cmd ++ lit "'"), db)
  end.

(** ** Connections *)

Record Conn := mkConn { parser : Parser; out : bytes; out_off_ : Z; closing : bool }.

Definition new_Conn : Conn := mkConn new_Parser [] 0 false.

(** [armed] is the epoll registration: whether [EPOLLOUT] is included. *)
Record RedisServer := mkServer {
  db_ : DB;
  conns_ : gmap Z Conn;
  armed : gmap Z bool;
  sent : gmap Z bytes
}.

Inductive read_outcome := RdData (bs : bytes) | RdEof | RdEintr | RdEagain | RdError.
Inductive write_outcome := WrBytes (n : Z) | WrEintr | WrEagain | WrError.

(** How a loop of system calls on the socket ended. *)
Inductive flush_end := FlDone | FlBlocked | FlFailed.

(** The write loop of [FlushOut] from the cursor on: the bytes that went out and
    how it ended.  An exhausted schedule takes everything. *)
Fixpoint flush_loop (writes : list write_outcome) (rest : bytes) : bytes * flush_end :=
  match rest with
  | [] => ([], FlDone)
  | _ =>
      match writes with
      | [] => (rest, FlDone)
      | WrEintr :: writes => flush_loop writes rest
      | WrEagain :: _ => ([], FlBlocked)
      | WrError :: _ => ([], FlFailed)
      | WrBytes n :: writes =>
          let k := Z.to_nat (Z.max 0 (Z.min n (len rest))) in
          let '(bs, e) := flush_loop writes (drop k rest) in (take k rest ++ bs, e)
      end
  end.

(** [None]: [conns_.at(fd)] throws.  [ctl_ok] is the outcome of the
    [epoll_ctl] the function ends with. *)
Definition FlushOut (writes : list write_outcome) (ctl_ok : bool) (fd : Z) (s : RedisServer)
    : option (bool * RedisServer) :=
  conn ← conns_ s !! fd;
  let '(bs, e) := flush_loop writes (at_off (out_off_ conn) (out conn)) in
  let off := out_off_ conn + len bs in
  let sent' := <[fd := default [] (sent s !! fd) ++ bs]> (sent s) in
  let upd conn' armed' := mkServer (db_ s) (<[fd := conn']> (conns_ s)) armed' sent' in
  match e with
  | FlFailed => Some (false, upd (mkConn (parser conn) (out conn) off (closing conn)) (armed s))
  | FlBlocked =>
      Some (ctl_ok, upd (mkConn (parser conn) (out conn) off (closing conn))
                        (if ctl_ok then <[fd := true]> (armed s) else armed s))
  | FlDone =>
      let conn' := mkConn (parser conn) (if 0 <? off then at_off off (out conn) else out conn) 0 (closing conn) in
      if closing conn then Some (false, upd conn' (armed s))
      else Some (ctl_ok, upd conn' (if ctl_ok then <[fd := false]> (armed s) else armed s))
  end.

(** The request loop of [HandleReadable]. *)
Fixpoint exec_loop (fuel : nat) (db : DB) (conn : Conn) : option (DB * Conn) :=
  match fuel with
  | O => None
  | S fuel =>
      '(st, p) ← Next (parser conn);
      match st with
      | kNeedMore => Some (db, mkConn p (out conn) (out_off_ conn) (closing conn))
      | kError e => Some (db, mkConn p (out conn ++ Error (lit "ERR " ++ e)) (out_off_ conn) true)
      | kRequest args =>
          let '(reply, db) := Execute args db in
          let o := out conn ++ reply in
          if kMaxOutBytes <? len o - out_off_ conn
          then Some (db, mkConn p o (out_off_ conn) true)
          else exec_loop fuel db (mkConn p o (out_off_ conn) (closing conn))
      end
  end.

(** The read loop: [false] when the connection died in it.  An exhausted
    schedule is [EAGAIN]. *)
Fixpoint read_loop (reads : list read_outcome) (db : DB) (conn : Conn) : option (bool * DB * Conn) :=
  match reads with
  | [] | RdEagain :: _ => Some (true, db, conn)
  | RdEintr :: reads => read_loop reads db conn
  | RdError :: _ | RdEof :: _ => Some (false, db, conn)
  | RdData bs :: reads =>
      let p := Feed bs (parser conn) in
      if kMaxInBytes <? pending p then Some (true, db, mkConn p (out conn) (out_off_ conn) true)
      else
        '(db, conn) ← exec_loop (S (length (buf_ p))) db (mkConn p (out conn) (out_off_ conn) (closing conn));
        if closing conn then Some (true, db, conn)
        else if kMaxOutBytes / 2 <? len (out conn) - out_off_ conn then Some (true, db, conn)
        else read_loop reads db conn
  end.

Definition HandleReadable (reads : list read_outcome) (writes : list write_outcome) (ctl_ok : bool)
    (fd : Z) (s : RedisServer) : option (bool * RedisServer) :=
  conn ← conns_ s !! fd;
  '(alive, db, conn) ← read_loop reads (db_ s) conn;
  let s := mkServer db (<[fd := conn]> (conns_ s)) (armed s) (sent s) in
  if (alive : bool) then FlushOut writes ctl_ok fd s else Some (false, s).

Definition HandleWritable := FlushOut.

Definition CloseConn (fd : Z) (s : RedisServer) : RedisServer :=
  mkServer (db_ s) (delete fd (conns_ s)) (delete fd (armed s)) (sent s).

Inductive accept_outcome := AcFd (fd : Z) (ctl_ok : bool) | AcEintr | AcError.

(** A descriptor [accept4] returns is not open, so its registration is new. *)
Fixpoint AcceptNewClients (accepts : list accept_outcome) (s : RedisServer) : RedisServer :=
  match accepts with
  | [] | AcError :: _ => s
  | AcEintr :: accepts => AcceptNewClients accepts s
  | AcFd fd ctl_ok :: accepts =>
      if kMaxConns <=? Z.of_nat (size (conns_ s)) then AcceptNewClients accepts s
      else if negb ctl_ok then AcceptNewClients accepts s
      else
        AcceptNewClients accepts
          (mkServer (db_ s)
             (if decide (is_Some (conns_ s !! fd)) then conns_ s else <[fd := new_Conn]> (conns_ s))
             (<[fd := false]> (armed s)) (<[fd := []]> (sent s)))
  end.

(** One entry of [events], with the outcomes of the calls its handlers make. *)
Inductive event :=
  | EvWake
  | EvListen (accepts : list accept_outcome)
  | EvConn (fd : Z) (err_or_hup epollin epollout : bool) (reads : list read_outcome)
      (writes1 : list write_outcome) (ctl1 : bool) (writes2 : list write_outcome) (ctl2 : bool).

Definition handle_event (s : RedisServer) (e : event) : option RedisServer :=
  match e with
  | EvWake => Some s
  | EvListen accepts => Some (AcceptNewClients accepts s)
  | EvConn fd err_or_hup epollin epollout reads writes1 ctl1 writes2 ctl2 =>
      if err_or_hup && negb epollin then Some (CloseConn fd s)
      else
        '(alive, s) ← (if epollout : bool then HandleWritable writes1 ctl1 fd s else Some (true, s));
        if negb alive then Some (CloseConn fd s)
        else if (epollin : bool) then
          '(alive, s) ← HandleReadable reads writes2 ctl2 fd s;
          Some (if (alive : bool) then s else CloseConn fd s)
        else Some s
  end.

(** [Loop]: the events of successive [epoll_wait] calls. *)
Fixpoint Loop (s : RedisServer) (events : list event) : option RedisServer :=
  match events with
  | [] => Some s
  | e :: events => s ← handle_event s e; Loop s events
  end.

(** ** No exception, no stranded reply *)

(** The bytes a connection still has to be sent. *)
Definition unsent (c : Conn) : bytes := at_off (out_off_ c) (out c).

Record conn_ok (c : Conn) : Prop := {
  co_parser : valid (parser c);
  co_off : 0 ≤ out_off_ c ≤ len (out c)
}.

(** [EPOLLOUT] is armed exactly while there is something to send. *)
Definition settled (c : Conn) (a : option bool) : Prop :=
  (a = Some true ∧ unsent c ≠ []) ∨ (a = Some false ∧ unsent c = [] ∧ closing c = false).

Definition server_inv (s : RedisServer) : Prop :=
  ∀ fd conn, conns_ s !! fd = Some conn → conn_ok conn ∧ settled conn (armed s !! fd).

Lemma flush_loop_spec writes rest :
  let '(bs, e) := flush_loop writes rest in
  ∃ left, rest = bs ++ left ∧ (e = FlDone → left = []) ∧ (e = FlBlocked → left ≠ []).
Proof.
  revert rest. induction writes as [|w writes IH]; intros rest.
  - destruct rest as [|c rest]; simpl; exists []; [done|]. by rewrite app_nil_r.
  - destruct rest as [|c rest]; [by exists []|]. cbn [flush_loop]. destruct w as [n| | |].
    + set (k := Z.to_nat _). specialize (IH (drop k (c :: rest))).
      destruct (flush_loop writes (drop k (c :: rest))) as [bs e]. destruct IH as (l & Hl & H1 & H2).
      exists l. split_and!; [|done|done]. by rewrite <- app_assoc, <- Hl, take_drop.
    + apply IH.
    + by exists (c :: rest).
    + by exists (c :: rest).
Qed.

Lemma at_off_consumed off (o bs l : bytes) :
  0 ≤ off ≤ len o → at_off off o = bs ++ l → off + len bs ≤ len o ∧ at_off (off + len bs) o = l.
Proof.
  intros Ho E. pose proof (f_equal len E) as El. rewrite len_at_off, len_app in El by lia.
  pose proof (len_nonneg l). pose proof (len_nonneg bs). split; [lia|].
  rewrite <- at_off_at_off by lia. rewrite E. by apply at_off_app.
Qed.

Lemma flush_loop_no_error writes rest :
  Forall (λ w, w ≠ WrError) writes → (flush_loop writes rest).2 ≠ FlFailed.
Proof.
  intros H. revert rest. induction H as [|w writes Hw _ IH]; intros rest; destruct rest as [|c rest]; try done.
  cbn [flush_loop]. destruct w as [n| | |]; try done.
  specialize (IH (drop (Z.to_nat (Z.max 0 (Z.min n (len (c :: rest))))) (c :: rest))).
  by destruct (flush_loop writes _).
Qed.

(** What [FlushOut] does to the connection: it moves bytes from the buffer to the
    socket and re-arms. *)
Lemma FlushOut_spec writes ctl fd s conn :
  conns_ s !! fd = Some conn → conn_ok conn →
  ∃ (alive : bool) conn' bs, FlushOut writes ctl fd s
    = Some (alive, mkServer (db_ s) (<[fd := conn']> (conns_ s))
                     (if alive then <[fd := bool_decide (unsent conn' ≠ [])]> (armed s) else armed s)
                     (<[fd := default [] (sent s !! fd) ++ bs]> (sent s))) ∧
    conn_ok conn' ∧ parser conn' = parser conn ∧ closing conn' = closing conn ∧
    unsent conn = bs ++ unsent conn' ∧ (alive = true → closing conn = true → unsent conn' ≠ []) ∧
    (ctl = true → Forall (λ w, w ≠ WrError) writes → alive = false → closing conn = true ∧ unsent conn' = []).
Proof.
  intros Hc [Hp Ho]. unfold FlushOut. rewrite Hc. cbn [mbind option_bind].
  pose proof (flush_loop_spec writes (at_off (out_off_ conn) (out conn))) as Hf.
  pose proof (flush_loop_no_error writes (at_off (out_off_ conn) (out conn))) as Hne.
  destruct (flush_loop writes _) as [bs e]. destruct Hf as (l & Hl & Hd & Hb).
  destruct (at_off_consumed _ _ _ _ Ho Hl) as [Hoff Hat]. pose proof (len_nonneg bs).
  assert (unsent (mkConn (parser conn) (out conn) (out_off_ conn + len bs) (closing conn)) = l) as Hu by exact Hat.
  assert (conn_ok (mkConn (parser conn) (out conn) (out_off_ conn + len bs) (closing conn))) as Hok
    by (split; simpl; [done|lia]).
  destruct e.
  - rewrite (Hd eq_refl) in *. set (o := if 0 <? _ then _ else _).
    assert (o = []) as -> by (unfold o; destruct (Z.ltb_spec 0 (out_off_ conn + len bs)) as [|H0]; [done|];
      rewrite <- Hat; replace (out_off_ conn + len bs) with 0 by lia; by rewrite at_off_0).
    destruct (closing conn) eqn:Ecl.
    + eexists false, _, bs. split; [done|]. by split_and!.
    + exists ctl, (mkConn (parser conn) [] 0 false), bs. split; [by destruct ctl|]. split_and!; try done.
      by intros ->.
  - eexists ctl, _, bs. split; [|split_and!; try done].
    + rewrite Hu. rewrite bool_decide_eq_true_2 by auto. by destruct ctl.
    + by rewrite Hu.
    + rewrite Hu. auto.
    + by intros ->.
  - eexists false, _, bs. split; [done|]. split_and!; try done; [by rewrite Hu|].
    intros _ Hw _. by destruct (Hne Hw).
Qed.

Lemma exec_loop_ok fuel db conn :
  conn_ok conn → len (buf_ (parser conn)) < Z.of_nat fuel →
  ∃ db' conn', exec_loop fuel db conn = Some (db', conn') ∧ conn_ok conn'.
Proof.
  revert db conn. induction fuel as [|fuel IH]; intros db conn [Hp Ho] Hf; [pose proof (len_nonneg (buf_ (parser conn))); lia|].
  cbn [exec_loop]. destruct (Next_ok _ Hp) as (st & p & -> & Hv & _ & Hs). cbn [mbind option_bind].
  destruct st as [args| |e].
  - specialize (Hs args eq_refl). destruct (Execute args db) as [reply db1]. pose proof (len_nonneg reply).
    assert (∀ cl, conn_ok (mkConn p (out conn ++ reply) (out_off_ conn) cl)) as Hok
      by (intros cl; split; simpl; [done|rewrite len_app; lia]).
    destruct (_ <? _); [by eexists _, _|]. apply IH; [done|]. simpl. lia.
  - by eexists _, _.
  - eexists _, _. split; [done|]. split; cbn [parser out out_off_]; [done|]. rewrite len_app.
    pose proof (len_nonneg (Error (lit "ERR " ++ e))). lia.
Qed.

Lemma read_loop_ok reads db conn :
  conn_ok conn → ∃ alive db' conn', read_loop reads db conn = Some (alive, db', conn') ∧ conn_ok conn'.
Proof.
  revert db conn. induction reads as [|r reads IH]; intros db conn Hok; cbn [read_loop]; [by eexists _, _, _|].
  destruct r as [bs| | | |]; try by eexists _, _, _; auto.
  - destruct Hok as [Hp Ho]. destruct (_ <? _).
    { eexists _, _, _. split; [done|]. split; simpl; [by apply Feed_valid|done]. }
    destruct (exec_loop_ok (S (length (buf_ (Feed bs (parser conn))))) db
                (mkConn (Feed bs (parser conn)) (out conn) (out_off_ conn) (closing conn))) as (db' & conn' & -> & Hok').
    { split; simpl; [by apply Feed_valid|done]. } { simpl. unfold len. lia. }
    cbn [mbind option_bind]. destruct (closing conn'); [by eexists _, _, _|].
    destruct (_ <? _); [by eexists _, _, _|]. by apply IH.
  - by apply IH.
Qed.

Lemma FlushOut_inv writes ctl fd s conn :
  conns_ s !! fd = Some conn → conn_ok conn →
  (∀ fd' conn', fd' ≠ fd → conns_ s !! fd' = Some conn' → conn_ok conn' ∧ settled conn' (armed s !! fd')) →
  ∃ (alive : bool) s', FlushOut writes ctl fd s = Some (alive, s') ∧ is_Some (conns_ s' !! fd) ∧
    (if alive then server_inv s' else server_inv (CloseConn fd s')).
Proof.
  intros Hc Hok Hoth.
  destruct (FlushOut_spec writes ctl fd s conn Hc Hok) as (alive & conn' & bs & -> & Hok' & _ & Hcl & _ & Hal & _).
  eexists _, _. split; [done|]. split; [simpl; rewrite lookup_insert_eq; by eexists|].
  destruct alive; intros fd' c; unfold CloseConn; cbn [conns_ armed];
    (destruct (decide (fd' = fd)) as [->|Hne]).
  - rewrite !lookup_insert_eq. intros [= <-]. split; [done|]. unfold settled.
    destruct (decide (unsent conn' = [])) as [E|E].
    + right. rewrite bool_decide_eq_false_2 by (rewrite E; tauto). split_and!; [done|done|].
      rewrite Hcl. destruct (closing conn); [|done]. by destruct (Hal eq_refl eq_refl).
    + left. by rewrite bool_decide_eq_true_2.
  - rewrite !lookup_insert_ne by done. by apply Hoth.
  - by rewrite lookup_delete_eq.
  - rewrite !lookup_delete_ne, lookup_insert_ne by done. by apply Hoth.
Qed.

Lemma HandleReadable_inv reads writes ctl fd s :
  is_Some (conns_ s !! fd) → server_inv s →
  ∃ (alive : bool) s', HandleReadable reads writes ctl fd s = Some (alive, s') ∧
    (if alive then server_inv s' else server_inv (CloseConn fd s')).
Proof.
  intros [conn Hc] Hinv. destruct (Hinv fd conn Hc) as [Hok _]. unfold HandleReadable. rewrite Hc. cbn [mbind option_bind].
  destruct (read_loop_ok reads (db_ s) conn Hok) as (alive & db' & conn' & -> & Hok'). cbn [mbind option_bind].
  assert (∀ fd' c, fd' ≠ fd → <[fd := conn']> (conns_ s) !! fd' = Some c → conn_ok c ∧ settled c (armed s !! fd')) as Hoth.
  { intros fd' c Hne. rewrite lookup_insert_ne by done. apply Hinv. }
  destruct alive.
  - edestruct (FlushOut_inv writes ctl fd) as (al & s' & -> & _ & Hi); [|exact Hok'| |by eexists _, _];
      cbn [conns_ armed]; [by rewrite lookup_insert_eq|exact Hoth].
  - eexists _, _. split; [done|]. intros fd' c. unfold CloseConn. cbn [conns_ armed].
    destruct (decide (fd' = fd)) as [->|Hne]; [by rewrite lookup_delete_eq|].
    rewrite !lookup_delete_ne by done. by apply Hoth.
Qed.

Lemma CloseConn_inv fd s : server_inv s → server_inv (CloseConn fd s).
Proof.
  intros Hinv fd' c. unfold CloseConn. cbn [conns_ armed].
  destruct (decide (fd' = fd)) as [->|Hne]; [by rewrite lookup_delete_eq|].
  rewrite !lookup_delete_ne by done. apply Hinv.
Qed.

(** [accept4] never returns a descriptor that is still open. *)
Fixpoint accepts_fresh (accepts : list accept_outcome) (open : gset Z) : Prop :=
  match accepts with
  | [] | AcError :: _ => True
  | AcEintr :: accepts => accepts_fresh accepts open
  | AcFd fd _ :: accepts => (fd ∉ open) ∧ accepts_fresh accepts ({[fd]} ∪ open)
  end.

Lemma Accept_inv accepts s open :
  dom (conns_ s) ⊆ open → accepts_fresh accepts open → server_inv s → server_inv (AcceptNewClients accepts s).
Proof.
  revert s open. induction accepts as [|a accepts IH]; intros s open Hd Hf Hinv; [done|].
  destruct a as [fd ctl| |]; [|by eapply IH|done]. destruct Hf as [Hfd Hf]. cbn [AcceptNewClients].
  destruct (_ <=? _); [by eapply IH; [|done|]; set_solver|].
  destruct ctl; simpl; [|by eapply IH; [|done|]; set_solver].
  assert (conns_ s !! fd = None) as Hn by (apply not_elem_of_dom; set_solver).
  rewrite decide_False by (rewrite Hn; by intros [? ?]). eapply IH; [|exact Hf|].
  - cbn [conns_]. rewrite dom_insert_L. set_solver.
  - intros fd' c. cbn [conns_ armed]. destruct (decide (fd' = fd)) as [->|Hne].
    + rewrite !lookup_insert_eq. intros [= <-]. split; [|by right].
      split; simpl; [apply new_Parser_valid|done].
    + rewrite !lookup_insert_ne by done. apply Hinv.
Qed.

(** What [epoll_wait] and [accept4] guarantee: events are for open connections,
    new descriptors are not. *)
Definition event_ok (s : RedisServer) (e : event) : Prop :=
  match e with
  | EvWake => True
  | EvListen accepts => accepts_fresh accepts (dom (conns_ s))
  | EvConn fd _ _ _ _ _ _ _ _ => is_Some (conns_ s !! fd)
  end.

Lemma handle_event_inv s e :
  server_inv s → event_ok s e → ∃ s', handle_event s e = Some s' ∧ server_inv s'.
Proof.
  intros Hinv He. destruct e as [|accepts|fd eh i o reads w1 c1 w2 c2]; simpl in *.
  - by eexists.
  - eexists. split; [done|]. by eapply Accept_inv.
  - destruct (eh && negb i); [eexists; split; [done|by apply CloseConn_inv]|].
    assert (∃ (alive : bool) s1, (if o then HandleWritable w1 c1 fd s else Some (true, s)) = Some (alive, s1) ∧
      is_Some (conns_ s1 !! fd) ∧ (if alive then server_inv s1 else server_inv (CloseConn fd s1))) as (al & s1 & -> & H1 & H2).
    { destruct o; [|by eexists _, _]. destruct He as [conn Hc]. destruct (Hinv fd conn Hc) as [Hok _].
      eapply FlushOut_inv; [done|done|]. intros fd' c' _. apply Hinv. }
    cbn [mbind option_bind]. destruct al; simpl; [|by eexists].
    destruct i; [|by eexists]. destruct (HandleReadable_inv reads w2 c2 fd s1 H1 H2) as (al & s2 & -> & H3).
    cbn [mbind option_bind]. destruct al; by eexists.
Qed.

Fixpoint events_ok (s : RedisServer) (events : list event) : Prop :=
  match events with
  | [] => True
  | e :: events => event_ok s e ∧ ∀ s', handle_event s e = Some s' → events_ok s' events
  end.

Definition new_Server (db : DB) : RedisServer := mkServer db ∅ ∅ ∅.

(** ** Pipelined requests *)

(** The replies of running the requests one after the other. *)
Fixpoint exec_all (db : DB) (cmds : list (list bytes)) : bytes * DB :=
  match cmds with
  | [] => ([], db)
  | args :: cmds =>
      let '(r, db) := Execute args db in
      let '(rs, db) := exec_all db cmds in (r ++ rs, db)
  end.

Lemma exec_all_app db a b :
  exec_all db (a ++ b)
  = ((exec_all db a).1 ++ (exec_all (exec_all db a).2 b).1, (exec_all (exec_all db a).2 b).2).
Proof.
  revert db. induction a as [|args a IH]; intros db; simpl; [by destruct (exec_all db b)|].
  destruct (Execute args db) as [r db1]. rewrite IH. destruct (exec_all db1 a) as [rs db2]. simpl.
  by rewrite <- app_assoc.
Qed.

(** The connection while [stream] is still to come and the requests [todo] are
    still to be answered. *)
Record serving (conn : Conn) (stream : bytes) (todo : list (list bytes)) (budget : Z) : Prop := {
  sv_ok : conn_ok conn;
  sv_inv : inv (parser conn) stream todo;
  sv_open : closing conn = false;
  sv_in : len (buf_ (parser conn)) + len stream ≤ budget;
  sv_drained : stream = [] → todo = []
}.

Lemma unsent_app conn (r : bytes) p cl :
  conn_ok conn → unsent (mkConn p (out conn ++ r) (out_off_ conn) cl) = unsent conn ++ r.
Proof.
  intros [_ Ho]. unfold unsent, at_off. simpl. rewrite drop_app_le; [done|]. unfold len in Ho. lia.
Qed.

Lemma len_unsent conn : conn_ok conn → len (unsent conn) = len (out conn) - out_off_ conn.
Proof. intros [_ Ho]. unfold unsent. by rewrite len_at_off. Qed.

Lemma exec_loop_serving fuel db conn stream todo budget :
  len (buf_ (parser conn)) < Z.of_nat fuel → conn_ok conn → inv (parser conn) stream todo → closing conn = false →
  len (buf_ (parser conn)) + len stream ≤ budget →
  len (unsent conn) + len (exec_all db todo).1 ≤ kMaxOutBytes →
  ∃ now todo' conn', exec_loop fuel db conn = Some ((exec_all db now).2, conn') ∧ todo = now ++ todo' ∧
    unsent conn' = unsent conn ++ (exec_all db now).1 ∧ serving conn' stream todo' budget.
Proof.
  revert db conn todo. induction fuel as [|fuel IH]; intros db conn todo Hf Hok Hi Hcl Hb Hmax.
  { pose proof (len_nonneg (buf_ (parser conn))). lia. }
  cbn [exec_loop]. destruct (Next_ok _ (inv_valid _ _ _ Hi)) as (st' & q & E & Hv & Hle & Hs).
  destruct (Next_inv _ _ _ Hi) as (st & p & E2 & Hst). rewrite E2 in E |- *. injection E as <- <-. cbn [mbind option_bind].
  destruct Hst as [(-> & Hi' & Hnil)|(cmd & todo1 & -> & -> & Hi')].
  - exists [], todo, (mkConn p (out conn) (out_off_ conn) (closing conn)). simpl. rewrite !app_nil_r.
    split_and!; [done|done|done|]. destruct Hok as [Hp Ho]. split; simpl; try done. lia.
  - specialize (Hs cmd eq_refl). cbn [exec_all] in Hmax. destruct (Execute cmd db) as [r db1] eqn:Ex.
    destruct (exec_all db1 todo1) as [rs db2] eqn:Erest. cbn [fst] in Hmax. rewrite len_app in Hmax.
    pose proof (len_nonneg r). pose proof (len_nonneg rs). pose proof (unsent_app conn r p (closing conn) Hok) as Hu.
    assert (conn_ok (mkConn p (out conn ++ r) (out_off_ conn) (closing conn))) as Hok1.
    { destruct Hok as [Hp Ho]. split; simpl; [done|]. rewrite len_app. lia. }
    pose proof (len_unsent _ Hok1) as Hlu. cbn [out out_off_] in Hlu.
    rewrite Hu, len_app in Hlu. rewrite (proj2 (Z.ltb_ge _ _)) by lia.
    destruct (IH db1 (mkConn p (out conn ++ r) (out_off_ conn) (closing conn)) todo1)
      as (now & todo' & conn' & -> & -> & Hu' & Hsv); cbn [parser]; try done; try lia.
    { rewrite Hu, len_app, Erest. cbn [fst]. lia. }
    exists (cmd :: now), todo', conn'. cbn [exec_all]. rewrite Ex. rewrite Hu in *.
    destruct (exec_all db1 now) as [rn dn]. cbn [fst snd] in *. rewrite <- app_assoc in *. done.
Qed.

(** What a read schedule delivers before the socket would block. *)
Fixpoint received (reads : list read_outcome) : bytes :=
  match reads with
  | RdData bs :: reads => bs ++ received reads
  | RdEintr :: reads => received reads
  | _ => []
  end.

Definition healthy_read (r : read_outcome) : Prop := r ≠ RdEof ∧ r ≠ RdError.

Lemma read_loop_serving reads db conn stream todo budget :
  Forall healthy_read reads → serving conn (received reads ++ stream) todo budget → budget ≤ kMaxInBytes →
  len (unsent conn) + len (exec_all db todo).1 ≤ kMaxOutBytes / 2 →
  ∃ now todo' conn', read_loop reads db conn = Some (true, (exec_all db now).2, conn') ∧ todo = now ++ todo' ∧
    unsent conn' = unsent conn ++ (exec_all db now).1 ∧ serving conn' stream todo' budget.
Proof.
  intros Hr. revert db conn todo. induction Hr as [|r reads Hr _ IH]; intros db conn todo Hsv Hb Hmax.
  { exists [], todo, conn. simpl. by rewrite app_nil_r. }
  destruct r as [bs| | | |]; cbn [read_loop received] in *; [|by destruct Hr|by apply IH| |by destruct Hr].
  2:{ exists [], todo, conn. simpl. by rewrite app_nil_r. }
  rewrite <- app_assoc in Hsv. destruct Hsv as [Hok Hi Hcl Hin Hnil]. pose proof (Feed_inv _ _ _ _ Hi) as Hi'.
  assert (len (buf_ (Feed bs (parser conn))) + len (received reads ++ stream) ≤ budget) as Hin'.
  { simpl. rewrite !len_app in *. lia. }
  pose proof (len_nonneg (received reads ++ stream)). unfold pending. rewrite (proj2 (Z.ltb_ge _ _)) by lia.
  assert (conn_ok (mkConn (Feed bs (parser conn)) (out conn) (out_off_ conn) (closing conn))) as Hok1.
  { destruct Hok as [Hp Ho]. split; [by apply Feed_valid|done]. }
  destruct (exec_loop_serving (S (length (buf_ (Feed bs (parser conn))))) db
    (mkConn (Feed bs (parser conn)) (out conn) (out_off_ conn) (closing conn)) (received reads ++ stream) todo budget)
    as (now & todo1 & conn1 & -> & -> & Hu & Hsv1); try done.
  { cbn [parser]. unfold len. lia. } { change (len (unsent conn) + len (exec_all db todo).1 ≤ kMaxOutBytes). 
    assert (kMaxOutBytes / 2 ≤ kMaxOutBytes) by done. lia. }
  cbn [mbind option_bind]. rewrite (sv_open _ _ _ _ Hsv1).
  rewrite exec_all_app in Hmax. cbn [fst] in Hmax. rewrite len_app in Hmax.
  change (unsent (mkConn (Feed bs (parser conn)) (out conn) (out_off_ conn) (closing conn))) with (unsent conn) in Hu.
  pose proof (len_nonneg (exec_all (exec_all db now).2 todo1).1).
  pose proof (f_equal len Hu) as Hlu. rewrite len_app in Hlu.
  rewrite <- (len_unsent conn1) by apply (sv_ok _ _ _ _ Hsv1). rewrite (proj2 (Z.ltb_ge _ _)) by lia.
  destruct (IH (exec_all db now).2 conn1 todo1 Hsv1 Hb ltac:(lia)) as (now2 & todo2 & conn2 & -> & -> & Hu2 & Hsv2).
  exists (now ++ now2), todo2, conn2. rewrite exec_all_app. cbn [fst snd].
  split_and!; [done|by rewrite app_assoc| |done]. by rewrite Hu2, Hu, <- app_assoc.
Qed.

(** The server while one client's requests [cmds] are being answered: what the
    client got plus what waits for it is the replies to the requests done. *)
Record in_service (db : DB) (cmds : list (list bytes)) (fd : Z) (stream : bytes) (budget : Z) (s : RedisServer) : Prop := {
  is_conn : ∃ conn done todo,
    conns_ s !! fd = Some conn ∧ serving conn stream todo budget ∧ cmds = done ++ todo ∧
    db_ s = (exec_all db done).2 ∧ default [] (sent s !! fd) ++ unsent conn = (exec_all db done).1
}.

(** An event of the client's connection without socket errors: requests arrive
    in any pieces, replies leave in any pieces. *)
Inductive healthy (fd : Z) : event → bytes → Prop :=
  healthy_event epollout reads writes1 writes2 :
    Forall healthy_read reads → Forall (λ w, w ≠ WrError) writes1 → Forall (λ w, w ≠ WrError) writes2 →
    healthy fd (EvConn fd false true epollout reads writes1 true writes2 true) (received reads).

Lemma FlushOut_serving db cmds fd stream budget s writes :
  Forall (λ w, w ≠ WrError) writes → in_service db cmds fd stream budget s →
  ∃ s', FlushOut writes true fd s = Some (true, s') ∧ in_service db cmds fd stream budget s'.
Proof.
  intros Hw [(conn & dn & todo & Hc & Hsv & Hcm & Hdb & Hse)]. pose proof Hsv as [Hok Hi Hcl Hin Hnil].
  destruct (FlushOut_spec writes true fd s conn Hc Hok)
    as (alive & conn' & bs & -> & Hok' & Hp' & Hcl' & Hu & Hal & Hdead).
  destruct alive; [|destruct (Hdead eq_refl Hw eq_refl); congruence].
  eexists. split; [done|]. split. exists conn', dn, todo. cbn [conns_ db_ sent armed].
  rewrite !lookup_insert_eq. simpl. split_and!; try done.
  - split; [done|by rewrite Hp'|by rewrite Hcl'|by rewrite Hp'|done].
  - by rewrite <- app_assoc, <- Hu.
Qed.

Lemma handle_event_serving db cmds fd stream budget s e bs :
  len (exec_all db cmds).1 ≤ kMaxOutBytes / 2 → budget ≤ kMaxInBytes →
  healthy fd e bs → in_service db cmds fd (bs ++ stream) budget s →
  ∃ s', handle_event s e = Some s' ∧ in_service db cmds fd stream budget s'.
Proof.
  intros Hmax Hb He Hs. destruct He as [o reads w1 w2 Hr Hw1 Hw2]. cbn [handle_event andb].
  assert (∃ s1, (if o then HandleWritable w1 true fd s else Some (true, s)) = Some (true, s1) ∧
    in_service db cmds fd (received reads ++ stream) budget s1) as (s1 & -> & Hs1).
  { destruct o; [by apply FlushOut_serving|by exists s]. }
  cbn [mbind option_bind negb]. destruct Hs1 as [(conn & dn & todo & Hc & Hsv & Hcm & Hdb & Hse)].
  unfold HandleReadable. rewrite Hc. cbn [mbind option_bind]. rewrite Hdb.
  pose proof Hmax as Hmax0. rewrite Hcm, exec_all_app in Hmax0. cbn [fst] in Hmax0. rewrite <- Hse, !len_app in Hmax0.
  pose proof (len_nonneg (default [] (sent s1 !! fd))).
  destruct (read_loop_serving reads (exec_all db dn).2 conn stream todo budget Hr Hsv Hb ltac:(lia))
    as (now & todo' & conn' & -> & -> & Hu & Hsv').
  cbn [mbind option_bind].
  edestruct (FlushOut_serving db cmds fd stream budget) as (s2 & -> & Hs2); [exact Hw2| |by exists s2].
  split. exists conn', (dn ++ now), todo'. cbn [conns_ db_ sent]. rewrite exec_all_app. cbn [fst snd].
  split_and!; [by rewrite lookup_insert_eq|done|by rewrite Hcm, app_assoc|done|].
  by rewrite Hu, app_assoc, Hse.
Qed.

Lemma Loop_serving db cmds fd budget events pieces s :
  len (exec_all db cmds).1 ≤ kMaxOutBytes / 2 → budget ≤ kMaxInBytes →
  Forall2 (healthy fd) events pieces → in_service db cmds fd (concat pieces) budget s → server_inv s →
  ∃ s', Loop s events = Some s' ∧ in_service db cmds fd [] budget s' ∧ server_inv s'.
Proof.
  intros Hmax Hb Hev. revert s. induction Hev as [|e bs events pieces He _ IH]; intros s Hs Hi; [by exists s|].
  cbn [concat] in Hs. destruct (handle_event_serving db cmds fd _ budget s e bs Hmax Hb He Hs) as (s1 & E & Hs1).
  cbn [Loop]. destruct (handle_event_inv s e Hi) as (s1' & E' & Hi1).
  { destruct He. simpl. destruct Hs as [(conn & dn & todo & Hc & _)]. by eexists. }
  rewrite E in E' |- *. injection E' as <-. by apply IH.
Qed.

(** The loop sends a healthy client the replies of [exec_all]. *)
Lemma Loop_answers (db : DB) (fd : Z) (cmds : list (list bytes)) (events : list event) (pieces : list bytes) :
  Forall wf_request cmds →
  Forall2 (healthy fd) events pieces → concat pieces = concat (encode_request <$> cmds) →
  len (concat pieces) ≤ kMaxInBytes → len (exec_all db cmds).1 ≤ kMaxOutBytes / 2 →
  ∃ s conn, Loop (new_Server db) (EvListen [AcFd fd true] :: events) = Some s ∧ conns_ s !! fd = Some conn ∧
    default [] (sent s !! fd) ++ unsent conn = (exec_all db cmds).1 ∧
    (armed s !! fd = Some false → default [] (sent s !! fd) = (exec_all db cmds).1) ∧
    db_ s = (exec_all db cmds).2.
Proof.
  intros Hwf Hev Hcat Hin Hout.
  set (s0 := AcceptNewClients [AcFd fd true] (new_Server db)).
  assert (s0 = mkServer db (<[fd := new_Conn]> ∅) (<[fd := false]> ∅) (<[fd := []]> ∅)) as Es0.
  { unfold s0, new_Server. cbn [AcceptNewClients conns_ db_ armed sent]. rewrite map_size_empty. simpl.
    rewrite decide_False; [done|]. rewrite lookup_empty. by intros [? ?]. }
  destruct (Loop_serving db cmds fd kMaxInBytes events pieces s0 Hout (Z.le_refl _) Hev) as (s & HL & Hs & Hi).
  - rewrite Es0. split. exists new_Conn, [], cmds. split_and!; try done; simpl; [by rewrite lookup_insert_eq| |].
    + split; simpl; try done; [split; simpl; [apply new_Parser_valid|done]|by constructor|].
      rewrite Hcat. intros E. destruct cmds as [|c cmds]; [done|discriminate E].
    + simpl. by rewrite lookup_insert_eq.
  - apply (Accept_inv _ _ ∅); [done|set_solver|]. intros fd' c. simpl. by rewrite lookup_empty.
  - destruct Hs as [(conn & dn & todo & Hc & Hsv & -> & Hdb & Hse)]. rewrite (sv_drained _ _ _ _ Hsv eq_refl), app_nil_r in *.
    exists s, conn. split_and!; try done.
    intros Ha. destruct (Hi fd conn Hc) as [_ [[Ha' _]|(_ & Hu & _)]]; [congruence|].
    by rewrite Hu, app_nil_r in Hse.
Qed.

(** C37: whatever the sockets do, the event loop never looks up a closed
    connection, and after every event a connection that stays open with unsent
    replies has [EPOLLOUT] armed, so it will be woken to send them, while one
    with nothing to send does not and is not waiting to die. *)
Theorem server_no_stranded_reply (db : DB) (events : list event) :
  events_ok (new_Server db) events →
  ∃ s, Loop (new_Server db) events = Some s ∧
    ∀ fd conn, conns_ s !! fd = Some conn →
      (armed s !! fd = Some true ∧ unsent conn ≠ []) ∨
      (armed s !! fd = Some false ∧ unsent conn = [] ∧ closing conn = false).
Proof.
  intros Hok. assert (∃ s, Loop (new_Server db) events = Some s ∧ server_inv s) as (s & Hs & Hi).
  { assert (server_inv (new_Server db)) as Hi by (intros fd c; simpl; by rewrite lookup_empty).
    revert Hok Hi. generalize (new_Server db). induction events as [|e events IH]; intros s Hok Hi; [by exists s|].
    destruct Hok as [He Hok]. destruct (handle_event_inv s e Hi He) as (s' & E & Hi'). simpl. rewrite E.
    by apply IH; [apply Hok|]. }
  exists s. split; [done|]. intros fd conn Hc. by apply Hi.
Qed.

(** ** The commands on a map *)

Definition exec_spec (m : gmap bytes bytes) (args : list bytes) : bytes * gmap bytes bytes :=
  match args with
  | [] => (Error (lit "ERR empty command"), m)
  | name :: rest =>
      let cmd := Lower name in
      if bytes_eqb cmd (lit "ping") then
        (match rest with [] => SimpleString (lit "PONG") | msg :: _ => BulkString msg end, m)
      else if bytes_eqb cmd (lit "echo") then
        match rest with [msg] => (BulkString msg, m) | _ => (wrong_args (lit "echo"), m) end
      else if bytes_eqb cmd (lit "set") then
        match rest with
        | [key; value] => (SimpleString (lit "OK"), <[key := value]> m)
        | _ => (wrong_args (lit "set"), m)
        end
      else if bytes_eqb cmd (lit "get") then
        match rest with
        | [key] => (match m !! key with Some v => BulkString v | None => NullBulk end, m)
        | _ => (wrong_args (lit "get"), m)
        end
      else if bytes_eqb cmd (lit "del") then
        match rest with
        | [] => (wrong_args (lit "del"), m)
        | _ => (Integer (Z.of_nat (size (list_to_set rest ∩ dom m : gset bytes))),
                filter (λ kv, kv.1 ∉ rest) m)
        end
      else if bytes_eqb cmd (lit "exists") then
        match rest with
        | [] => (wrong_args (lit "exists"), m)
        | _ => (Integer (len (filter (λ k, k ∈ dom m) rest)), m)
        end
      else (Error (lit "ERR unknown command '" ++ cmd ++ lit "'"), m)
  end.

(** What a command may do when operations of the store fail: an update is left
    out and not counted, and a value that cannot be read is reported as an
    error or, when its value log is cut short, as missing. *)
Definition faulty_spec (m : gmap bytes bytes) (args : list bytes) (reply : bytes) (m' : gmap bytes bytes) : Prop :=
  match args with
  | [] => False
  | name :: rest =>
      let cmd := Lower name in
      if bytes_eqb cmd (lit "set") then m' = m ∧ len rest = 2 ∧ ∃ e, reply = Error (lit "ERR " ++ e)
      else if bytes_eqb cmd (lit "get") then
        m' = m ∧ ∃ k v, rest = [k] ∧ m !! k = Some v ∧ (reply = NullBulk ∨ ∃ e, reply = Error (lit "ERR " ++ e))
      else if bytes_eqb cmd (lit "del") then
        ∃ gone : gset bytes, gone ⊆ list_to_set rest ∩ dom m ∧
          reply = Integer (Z.of_nat (size gone)) ∧ m' = filter (λ kv, kv.1 ∉ gone) m
      else if bytes_eqb cmd (lit "exists") then
        m' = m ∧ ∃ n, 0 ≤ n ≤ len (filter (λ k, k ∈ dom m) rest) ∧ reply = Integer n
      else False
  end.

(** The replies to a sequence of commands, on a map; [faults]: whether
    operations of the store may fail. *)
Inductive dialogue (faults : Prop) : gmap bytes bytes → list (list bytes) → list bytes → gmap bytes bytes → Prop :=
| dialogue_nil m : dialogue faults m [] [] m
| dialogue_cons m args reply m1 cmds replies m2 :
    (reply, m1) = exec_spec m args ∨ (faults ∧ faulty_spec m args reply m1) →
    dialogue faults m1 cmds replies m2 → dialogue faults m (args :: cmds) (reply :: replies) m2.

Lemma filter_gone (m : gmap bytes bytes) (k : bytes) (gone : gset bytes) :
  filter (λ kv : bytes * bytes, kv.1 ∉ gone) (delete k m) = filter (λ kv, kv.1 ∉ {[k]} ∪ gone) m.
Proof.
  apply map_eq. intros y. apply option_eq. intros z.
  rewrite !map_lookup_filter_Some, lookup_delete_Some. simpl. set_solver.
Qed.

Context (holds : DB → gmap bytes bytes → Prop) (fits : kv_op → DB → Prop) (faults : Prop).

(** The operations a command makes fit. *)
Fixpoint del_fits (db : DB) (keys : list bytes) : Prop :=
  match keys with
  | [] => True
  | k :: keys =>
      fits (OpGet k) db ∧
      let '(s, _, db) := db_Get db k in
      if ok s then fits (OpDelete k) db ∧ del_fits (db_Delete db k).2 keys else del_fits db keys
  end.

Fixpoint exists_fits (db : DB) (keys : list bytes) : Prop :=
  match keys with
  | [] => True
  | k :: keys => fits (OpGet k) db ∧ exists_fits (db_Get db k).2 keys
  end.

Definition exec_fits (args : list bytes) (db : DB) : Prop :=
  match args with
  | [] => True
  | name :: rest =>
      let cmd := Lower name in
      if bytes_eqb cmd (lit "set") then match rest with [k; v] => fits (OpPut k v) db | _ => True end
      else if bytes_eqb cmd (lit "get") then match rest with [k] => fits (OpGet k) db | _ => True end
      else if bytes_eqb cmd (lit "del") then del_fits db rest
      else if bytes_eqb cmd (lit "exists") then exists_fits db rest
      else True
  end.

Fixpoint exec_all_fit (db : DB) (cmds : list (list bytes)) : Prop :=
  match cmds with
  | [] => True
  | args :: cmds => exec_fits args db ∧ exec_all_fit (Execute args db).2 cmds
  end.

Context {Laws : KvLaws DB holds fits faults}.

Lemma del_loop_spec db m keys n :
  holds db m → del_fits db keys →
  ∃ gone : gset bytes, gone ⊆ list_to_set keys ∩ dom m ∧ (faults ∨ gone = list_to_set keys ∩ dom m) ∧
    (del_loop db keys n).1 = n + Z.of_nat (size gone) ∧
    holds (del_loop db keys n).2 (filter (λ kv, kv.1 ∉ gone) m).
Proof using Laws.
  revert db m n. induction keys as [|k keys IH]; intros db m n Hm Hf; cbn [del_loop list_to_set del_fits] in *.
  { exists ∅. split_and!; [set_solver|right; set_solver|rewrite size_empty; simpl; lia|].
    rewrite map_filter_id; [done|]. set_solver. }
  destruct Hf as [Hg Hf]. pose proof (law_get db m k Hm Hg) as Hk. destruct (db_Get db k) as [[s v] db1].
  destruct Hk as [Hm1 Hk]. destruct (m !! k) as [x|] eqn:E.
  - pose proof (elem_of_dom_2 _ _ _ E) as Hd. destruct (ok s).
    2:{ destruct (IH db1 m n Hm1 Hf) as (gone & Hs & _ & ? & ?). exists gone. split_and!; [set_solver|by left|done..]. }
    destruct Hf as [Hf1 Hf2]. pose proof (law_delete db1 m k Hm1 Hf1) as Hdel.
    destruct (db_Delete db1 k) as [s2 db2]. cbn [snd] in Hf2. destruct (ok s2).
    2:{ destruct Hdel as [Hx Hm2]. destruct (IH db2 m n Hm2 Hf2) as (gone & Hs & _ & ? & ?).
        exists gone. split_and!; [set_solver|by left|done..]. }
    destruct (IH db2 (delete k m) (n + 1) Hdel Hf2) as (gone & Hs & Hx & -> & Hh). rewrite dom_delete_L in *.
    exists ({[k]} ∪ gone). split_and!.
    + set_solver.
    + destruct Hx as [Hx|Hx]; [by left|right]. rewrite Hx. apply set_eq. intros y. destruct (decide (y = k)); set_solver.
    + rewrite size_union, size_singleton by set_solver. lia.
    + by rewrite <- filter_gone.
  - apply not_elem_of_dom in E. unfold ok in *. rewrite Hk in *. change (bool_decide (kNotFound = kOk)) with false in *.
    cbv iota in *. destruct (IH db1 m n Hm1 Hf) as (gone & Hs & Hx & ? & ?). exists gone. split_and!; [set_solver| |done..].
    destruct Hx as [Hx|Hx]; [by left|right]. set_solver.
Qed.

Lemma exists_loop_spec db m keys n :
  holds db m → exists_fits db keys →
  ∃ c, 0 ≤ c ≤ len (filter (λ k, k ∈ dom m) keys) ∧ (faults ∨ c = len (filter (λ k, k ∈ dom m) keys)) ∧
    (exists_loop db keys n).1 = n + c ∧ holds (exists_loop db keys n).2 m.
Proof using Laws.
  revert db n. induction keys as [|k keys IH]; intros db n Hm Hf; cbn [exists_loop exists_fits] in *.
  { exists 0. split_and!; [done..|by right|simpl; lia|done]. }
  destruct Hf as [Hg Hf]. pose proof (law_get db m k Hm Hg) as Hk. destruct (db_Get db k) as [[s v] db1].
  destruct Hk as [Hm1 Hk]. cbn [snd] in Hf. destruct (m !! k) as [x|] eqn:E.
  - rewrite filter_cons_True, len_cons by (by eapply elem_of_dom_2).
    destruct (IH db1 (if ok s then n + 1 else n) Hm1 Hf) as (c & Hc & Hx & -> & Hh). destruct (ok s).
    + exists (1 + c). split_and!; try lia; [|done]. destruct Hx; [by left|right; lia].
    + exists c. split_and!; try lia; [|done]. by left.
  - unfold ok. rewrite Hk. change (bool_decide (kNotFound = kOk)) with false. cbv iota.
    rewrite filter_cons_False by (by apply not_elem_of_dom). by apply IH.
Qed.

Lemma Execute_spec db m args :
  holds db m → exec_fits args db →
  ∃ m', holds (Execute args db).2 m' ∧
    (((Execute args db).1, m') = exec_spec m args ∨ (faults ∧ faulty_spec m args (Execute args db).1 m')).
Proof using Laws.
  intros Hm Hf. unfold Execute, exec_spec, faulty_spec, exec_fits in *. destruct args as [|name rest]; [eauto|].
  destruct (bytes_eqb (Lower name) (lit "ping")); [exists m; destruct rest; eauto|].
  destruct (bytes_eqb (Lower name) (lit "echo")); [exists m; destruct rest as [|? []]; eauto|].
  destruct (bytes_eqb (Lower name) (lit "set")).
  { destruct rest as [|k [|v []]]; eauto. pose proof (law_put db m k v Hm Hf) as Hp.
    destruct (db_Put db k v) as [s db1]. cbn [fst snd]. destruct (ok s); [by eauto|].
    destruct Hp as [Hx Hp]. exists m. split; [done|]. right. split_and!; eauto. }
  destruct (bytes_eqb (Lower name) (lit "get")).
  { destruct rest as [|k []]; eauto. pose proof (law_get db m k Hm Hf) as Hk.
    destruct (db_Get db k) as [[s v] db1]. destruct Hk as [Hm1 Hk]. exists m. split; [done|]. cbn [fst snd].
    destruct (m !! k) as [x|] eqn:E; [|unfold ok; rewrite Hk; by left].
    destruct (ok s); [subst; by left|]. right. split_and!; [done..|]. exists k, x. split_and!; [done..|].
    case_bool_decide; [by left|right; eauto]. }
  destruct (bytes_eqb (Lower name) (lit "del")).
  { destruct rest as [|k rest]; eauto. destruct (del_loop_spec db m (k :: rest) 0 Hm Hf) as (gone & Hs & Hx & E & Hh).
    destruct (del_loop db (k :: rest) 0) as [n db1]. cbn [fst snd] in *. subst n. eexists. split; [done|].
    destruct Hx as [Hx|Hx]; [right; split; [done|]; by exists gone|left]. rewrite Hx. f_equal.
    apply map_eq. intros y. apply option_eq. intros z. rewrite !map_lookup_filter_Some. cbn [fst].
    rewrite elem_of_intersection, elem_of_list_to_set. split; [|naive_solver]. intros [Hy Hn]. split; [done|].
    intros Hk. apply Hn. split; [done|]. by eapply elem_of_dom_2. }
  destruct (bytes_eqb (Lower name) (lit "exists")); [|eauto].
  destruct rest as [|k rest]; eauto. destruct (exists_loop_spec db m (k :: rest) 0 Hm Hf) as (c & Hc & Hx & E & Hh).
  destruct (exists_loop db (k :: rest) 0) as [n db1]. cbn [fst snd] in *. subst n. exists m. split; [done|].
  destruct Hx as [Hx|Hx]; [right|left; by rewrite Hx]. split_and!; [done..|]. by exists c.
Qed.

Lemma exec_all_spec db m cmds :
  holds db m → exec_all_fit db cmds →
  ∃ replies m', (exec_all db cmds).1 = concat replies ∧ dialogue faults m cmds replies m' ∧ holds (exec_all db cmds).2 m'.
Proof using Laws.
  revert db m. induction cmds as [|args cmds IH]; intros db m Hm Hf; cbn [exec_all exec_all_fit] in *.
  { exists [], m. by split_and!; [|constructor|]. }
  destruct Hf as [Hf1 Hf2]. destruct (Execute_spec db m args Hm Hf1) as (m1 & H1 & Hd). destruct (Execute args db) as [r db1].
  cbn [fst snd] in *. destruct (IH db1 m1 H1 Hf2) as (replies & m2 & E & Hd2 & H2).
  destruct (exec_all db1 cmds) as [rs db2]. cbn [fst snd] in *. subst rs.
  exists (r :: replies), m2. split_and!; [done|by econstructor|done].
Qed.

(** C35: a client that pipelines requests over a healthy connection gets the
    replies of running them in order on a map, whatever the fragments its
    bytes arrive in, the pieces the replies leave in and the interrupted calls:
    what it has been sent and what is still queued for it is exactly that
    reply stream, nothing stays queued unless [EPOLLOUT] is armed for it, and
    the store ends up holding the map.  An operation of the store that fails is
    reported and changes nothing. *)
Theorem server_pipeline_refines_map (db : DB) (m : gmap bytes bytes) (fd : Z) (cmds : list (list bytes))
    (events : list event) (pieces : list bytes) :
  holds db m → exec_all_fit db cmds → Forall wf_request cmds →
  Forall2 (healthy fd) events pieces → concat pieces = concat (encode_request <$> cmds) →
  len (concat pieces) ≤ kMaxInBytes → len (exec_all db cmds).1 ≤ kMaxOutBytes / 2 →
  ∃ s conn replies m', Loop (new_Server db) (EvListen [AcFd fd true] :: events) = Some s ∧ conns_ s !! fd = Some conn ∧
    default [] (sent s !! fd) ++ unsent conn = concat replies ∧
    (armed s !! fd = Some false → default [] (sent s !! fd) = concat replies) ∧
    dialogue faults m cmds replies m' ∧ holds (db_ s) m'.
Proof using Laws.
  intros Hm Hfit Hwf Hev Hcat Hin Hout. destruct (exec_all_spec db m cmds Hm Hfit) as (replies & m' & E1 & Hd & H1).
  destruct (Loop_answers db fd cmds events pieces Hwf Hev Hcat Hin Hout) as (s & conn & HL & Hc & Hu & Ha & Hdb).
  rewrite E1 in *. exists s, conn, replies, m'. split_and!; try done. by rewrite Hdb.
Qed.

(** A readable event of a connection whose peer sends a request but takes no
    bytes. *)
Definition stalled_ping (fd : Z) : event :=
  EvConn fd false true false [RdData (lit "PING" ++ crlf)] [] true [WrEagain] true.

Lemma stalled_ping_step db o fd a sn :
  kMaxOutBytes < len o →
  handle_event (mkServer db {[fd := mkConn new_Parser o 0 true]} a sn) (stalled_ping fd)
  = Some (mkServer db {[fd := mkConn new_Parser (o ++ SimpleString (lit "PONG")) 0 true]}
            (<[fd := true]> a) (<[fd := default [] (sn !! fd)]> sn)).
Proof.
  intros Ho. unfold handle_event, stalled_ping. cbn [andb]. cbn [mbind option_bind negb].
  unfold HandleReadable. cbn [conns_ db_ armed sent]. rewrite lookup_singleton_eq. cbn [mbind option_bind read_loop].
  cbn [parser out out_off_ closing]. change (kMaxInBytes <? pending (Feed (lit "PING" ++ crlf) new_Parser)) with false.
  cbn [exec_loop]. cbn [parser out out_off_ closing].
  change (Next (Feed (lit "PING" ++ crlf) new_Parser)) with (Some (kRequest [lit "PING"], new_Parser)).
  cbn [mbind option_bind]. change (Execute [lit "PING"] db) with (SimpleString (lit "PONG"), db). cbv iota.
  rewrite len_app, (proj2 (Z.ltb_lt _ _)) by (change (len (SimpleString (lit "PONG"))) with 7; lia).
  cbn [mbind option_bind closing]. unfold FlushOut. cbn [conns_ db_ armed sent]. rewrite lookup_insert_eq.
  cbn [mbind option_bind out out_off_ closing parser]. rewrite at_off_0.
  destruct o as [|c o]; [done|]. cbn [app flush_loop]. rewrite insert_insert_eq, insert_singleton_eq. by rewrite app_nil_r.
Qed.

(** A connection condemned because its backlog passed the cap is not shed:
    while the peer takes nothing, every further readable event executes one
    more of its requests and queues the reply, so the backlog grows with the
    number of events. *)
Theorem backlogged_connection_grows (db : DB) (o : bytes) (fd : Z) (n : nat) :
  kMaxOutBytes < len o →
  ∃ a sn, Loop (mkServer db {[fd := mkConn new_Parser o 0 true]} ∅ ∅) (replicate n (stalled_ping fd))
    = Some (mkServer db {[fd := mkConn new_Parser (o ++ concat (replicate n (SimpleString (lit "PONG")))) 0 true]} a sn).
Proof.
  generalize (∅ : gmap Z bool). generalize (∅ : gmap Z bytes). revert o.
  induction n as [|n IH]; intros o sn a Ho; cbn [replicate Loop concat].
  - eexists _, _. by rewrite app_nil_r.
  - rewrite stalled_ping_step by done. cbn [mbind option_bind].
    destruct (IH (o ++ SimpleString (lit "PONG")) (<[fd := default [] (sn !! fd)]> sn) (<[fd := true]> a))
      as (a' & sn' & ->); [rewrite len_app; pose proof (len_nonneg (SimpleString (lit "PONG"))); lia|].
    eexists _, _. by rewrite <- app_assoc.
Qed.

(** ** Opening and stopping *)

(** The calls on descriptors that matter for their ownership. *)
Inductive fd_call := FdOpen (fd : Z) | FdClose (fd : Z) | FdWake (fd : Z).

(** [joinable]: whether the loop thread runs. *)
Record Handles := mkHandles { listen_fd_ : Z; epfd_ : Z; wake_fd_ : Z; port_ : Z; joinable : bool; stop_ : bool }.

Definition Start (h : Handles) : bool * Handles :=
  if joinable h then (true, h)
  else (true, mkHandles (listen_fd_ h) (epfd_ h) (wake_fd_ h) (port_ h) true false).

(** [Stop] once the loop thread is joined; the destructor calls it. *)
Definition Stop (h : Handles) (s : RedisServer) : list fd_call * Handles * RedisServer :=
  let close fd := if 0 <=? fd then [FdClose fd] else [] in
  ((if 0 <=? wake_fd_ h then [FdWake (wake_fd_ h)] else [])
     ++ ((λ p, FdClose p.1) <$> map_to_list (conns_ s))
     ++ close (listen_fd_ h) ++ close (wake_fd_ h) ++ close (epfd_ h),
   mkHandles (-1) (-1) (-1) (port_ h) false true, mkServer (db_ s) ∅ ∅ (sent s)).

(** What the calls of [Open] return: a descriptor or [strerror(errno)]. *)
Record OpenEnv := mkOpenEnv {
  env_socket : Z + bytes;
  env_inet_pton : bool;
  env_bind : option bytes;
  env_listen : option bytes;
  env_getsockname : option Z;
  env_epoll_create : Z + bytes;
  env_eventfd : Z + bytes;
  env_ctl_listen : option bytes;
  env_ctl_wake : option bytes
}.

(** The result, the status and the descriptor calls, those of the destructor
    of a server that is given up included. *)
Definition Open (env : OpenEnv) (db : DB) (addr : bytes) (port : Z)
    : option (Handles * RedisServer) * Status * list fd_call :=
  let destroy h := (Stop h (new_Server db)).1.1 in
  match env_socket env with
  | inr e => (None, IOError (lit "socket: " ++ e), [])
  | inl fd =>
      let opened := [FdOpen fd] in
      if negb (env_inet_pton env)
      then (None, IOError (lit "invalid bind address: " ++ addr), opened ++ [FdClose fd])
      else match env_bind env with
      | Some e => (None, IOError (lit "bind: " ++ e), opened ++ [FdClose fd])
      | None =>
      match env_listen env with
      | Some e => (None, IOError (lit "listen: " ++ e), opened ++ [FdClose fd])
      | None =>
          let real_port := default port (env_getsockname env) in
          match env_epoll_create env with
          | inr e =>
              (None, IOError (lit "epoll_create1: " ++ e),
               opened ++ [FdClose fd] ++ destroy (mkHandles fd (-1) (-1) real_port false false))
          | inl ep =>
              let opened := opened ++ [FdOpen ep] in
              match env_eventfd env with
              | inr e =>
                  (None, IOError (lit "eventfd: " ++ e),
                   opened ++ [FdClose ep; FdClose fd] ++ destroy (mkHandles fd ep (-1) real_port false false))
              | inl wake =>
                  let opened := opened ++ [FdOpen wake] in
                  let h := mkHandles fd ep wake real_port false false in
                  let closed := [FdClose wake; FdClose ep; FdClose fd] in
                  match env_ctl_listen env with
                  | Some e => (None, IOError (lit "epoll_ctl: " ++ e), opened ++ closed ++ destroy h)
                  | None =>
                      match env_ctl_wake env with
                      | Some e => (None, IOError (lit "epoll_ctl: " ++ e), opened ++ closed ++ destroy h)
                      | None => (Some (h, new_Server db), Ok, opened)
                      end
                  end
              end
          end
      end
      end
  end.

(** Descriptors open after a sequence of calls. *)
Fixpoint open_after (open : gset Z) (calls : list fd_call) : gset Z :=
  match calls with
  | [] => open
  | FdOpen fd :: calls => open_after ({[fd]} ∪ open) calls
  | FdClose fd :: calls => open_after (open ∖ {[fd]}) calls
  | FdWake _ :: calls => open_after open calls
  end.

(** [Open] leaks no descriptor: when it fails nothing it opened stays open,
    and when it succeeds [Stop] closes the listener, the epoll instance and
    the eventfd. *)
Theorem server_open_no_leak (env : OpenEnv) (db : DB) (addr : bytes) (port : Z) :
  let '(r, st, calls) := Open env db addr port in
  match r with
  | None => ok st = false ∧ open_after ∅ calls = ∅
  | Some (h, s) =>
      ok st = true ∧
      (0 ≤ listen_fd_ h → 0 ≤ epfd_ h → 0 ≤ wake_fd_ h → open_after ∅ (calls ++ (Stop h s).1.1) = ∅)
  end.
Proof.
  unfold Open. destruct (env_socket env) as [fd|]; [|done]. destruct (env_inet_pton env); cbn [negb]; [|simpl; split; [done|set_solver]].
  destruct (env_bind env); [simpl; split; [done|set_solver]|].
  destruct (env_listen env); [simpl; split; [done|set_solver]|].
  assert (∀ h, map_to_list (conns_ (new_Server db)) = [] ∧ (Stop h (new_Server db)).1.1 =
    (if 0 <=? wake_fd_ h then [FdWake (wake_fd_ h)] else [])
     ++ (if 0 <=? listen_fd_ h then [FdClose (listen_fd_ h)] else [])
     ++ (if 0 <=? wake_fd_ h then [FdClose (wake_fd_ h)] else [])
     ++ (if 0 <=? epfd_ h then [FdClose (epfd_ h)] else [])) as HS.
  { intros h. unfold Stop. cbn [fst]. simpl. by rewrite map_to_list_empty. }
  destruct (env_epoll_create env) as [ep|].
  2:{ rewrite (proj2 (HS _)). cbn [wake_fd_ listen_fd_ epfd_]. split; [done|]. simpl. destruct (0 <=? fd); simpl; set_solver. }
  destruct (env_eventfd env) as [wk|].
  2:{ rewrite (proj2 (HS _)). cbn [wake_fd_ listen_fd_ epfd_]. split; [done|]. simpl.
      destruct (0 <=? fd), (0 <=? ep); simpl; set_solver. }
  destruct (env_ctl_listen env); [|destruct (env_ctl_wake env)].
  - rewrite (proj2 (HS _)). cbn [wake_fd_ listen_fd_ epfd_]. split; [done|].
    destruct (0 <=? fd), (0 <=? ep), (0 <=? wk); simpl; set_solver.
  - rewrite (proj2 (HS _)). cbn [wake_fd_ listen_fd_ epfd_]. split; [done|].
    destruct (0 <=? fd), (0 <=? ep), (0 <=? wk); simpl; set_solver.
  - split; [done|]. intros H1 H2 H3. rewrite (proj2 (HS _)). cbn [wake_fd_ listen_fd_ epfd_] in *.
    rewrite !(proj2 (Z.leb_le _ _)) by done. simpl. set_solver.
Qed.

End commands.

(** ** A map as the store *)

#[export] Instance map_store : KvStore (gmap bytes bytes) := {
  db_Put m k v := (Ok, <[k := v]> m);
  db_Get m k := match m !! k with Some v => (Ok, v, m) | None => (NotFound [], [], m) end;
  db_Delete m k := (Ok, delete k m)
}.

#[export] Instance map_laws : KvLaws (gmap bytes bytes) eq (λ _ _, True) False.
Proof.
  split.
  - by intros db m k v <-.
  - by intros db m k <-.
  - intros db m k <- _. simpl. by destruct (db !! k).
Qed.

(** A failed [epoll_create1] closes the listening descriptor twice: once
    explicitly and once in the destructor of the server that is given up; in
    between another thread may have been given the same number. *)
Example failed_open_closes_twice :
  let env := mkOpenEnv (inl 5) true None None None (inr (lit "EMFILE")) (inl 7) None None in
  (Open env (∅ : gmap bytes bytes) (lit "127.0.0.1") 6379).2 = [FdOpen 5; FdClose 5; FdClose 5].
Proof. reflexivity. Qed.

Definition client_events : list event :=
  [EvConn 7 false true false [RdData (lit "PING"); RdEintr] [] true [] true;
   EvConn 7 false true true [RdData crlf] [] true [WrBytes 3; WrEagain] true].

Lemma server_no_stranded_reply_witness :
  ∃ s, Loop (new_Server (∅ : gmap bytes bytes)) (EvListen [AcFd 7 true] :: client_events) = Some s ∧
    ∀ fd conn, conns_ s !! fd = Some conn →
      (armed s !! fd = Some true ∧ unsent conn ≠ []) ∨
      (armed s !! fd = Some false ∧ unsent conn = [] ∧ closing conn = false).
Proof.
  apply server_no_stranded_reply. split; [simpl; set_solver|].
  intros s1 [= <-]. split; [by eexists|]. intros s2 [= <-]. split; [by eexists|]. done.
Defined.

Definition set_get : list (list bytes) := [[lit "SET"; lit "k"; lit "v1"]; [lit "GET"; lit "k"]].

Definition set_get_events : list event :=
  [EvConn 7 false true false [RdData (take 20 (concat (encode_request <$> set_get))); RdEintr; RdEagain] [] true [] true;
   EvConn 7 false true true [RdData (drop 20 (concat (encode_request <$> set_get)))] [] true [WrBytes 3; WrEintr; WrEagain] true;
   EvConn 7 false true true [] [] true [] true].

Lemma server_pipeline_refines_map_witness :
  ∃ s conn replies m', Loop (new_Server (∅ : gmap bytes bytes)) (EvListen [AcFd 7 true] :: set_get_events) = Some s ∧
    conns_ s !! 7 = Some conn ∧
    default [] (sent s !! 7) ++ unsent conn = concat replies ∧
    (armed s !! 7 = Some false → default [] (sent s !! 7) = concat replies) ∧
    dialogue False ∅ set_get replies m' ∧ db_ s = m'.
Proof.
  apply (server_pipeline_refines_map eq (λ _ _, True) False ∅ ∅ 7 set_get set_get_events
           [take 20 (concat (encode_request <$> set_get)); drop 20 (concat (encode_request <$> set_get)); []]).
  - reflexivity.
  - vm_compute. done.
  - repeat constructor; vm_compute; done.
  - repeat constructor; try (vm_compute; done).
  - vm_compute. reflexivity.
  - vm_compute. done.
  - vm_compute. done.
Defined.

Lemma backlogged_connection_grows_witness :
  ∃ a sn, Loop (mkServer (∅ : gmap bytes bytes) {[7 := mkConn new_Parser (replicate (Z.to_nat (kMaxOutBytes + 1)) cr) 0 true]} ∅ ∅)
            (replicate 2 (stalled_ping 7))
    = Some (mkServer ∅ {[7 := mkConn new_Parser (replicate (Z.to_nat (kMaxOutBytes + 1)) cr
              ++ concat (replicate 2 (SimpleString (lit "PONG")))) 0 true]} a sn).
Proof.
  apply (backlogged_connection_grows (DB := gmap bytes bytes)). rewrite len_replicate. unfold kMaxOutBytes. lia.
Defined.

(** A client that sends a request and shuts down its sending side gets no
    reply: the end of file is read in the same event, before the reply is
    written. *)
Example half_close_drops_reply :
  let r := Loop (new_Server (∅ : gmap bytes bytes))
             [EvListen [AcFd 7 true]; EvConn 7 false true false [RdData (lit "SET k v" ++ crlf); RdEof] [] true [] true] in
  (λ s, (db_ s !! lit "k", sent s !! 7, conns_ s !! 7)) <$> r = Some (Some (lit "v"), Some [], None).
Proof. vm_compute. reflexivity. Qed.

End server.
