(* ===== verification/Engine.v ===== *)
(** * The engine behind its clients

    The server is proved against the classes [KvStore] and [KvLaws]; here the
    database discharges them.  A call of the server is a step of the concurrent
    system of DbSystem: sections of the background thread run before it, a
    writer that has to wait lets the background thread run until it is
    released, and each call meets its own system call outcomes.  All these are
    the [Turn]s of an [Engine].  [served_database_refines_map] composes the
    event loop, the command layer and the engine.  The engine is also a store
    for the benchmark ([engine_bench_laws]). *)

From S2P Require Import Prelude Status FsUtil Resp Ycsb VLog LruCache Mvcc Db DbSystem DbLogs DbRefine DbOpen DbBackground.
From S2P Require Import DbValues DbScan DbCollect DbCorrect DbDurable Server YcsbBench.
Import db.

(** What the environment does around one operation: the sections of the
    background thread before it, the outcomes its own calls meet, and the
    sections that run while a writer waits. *)
Record Turn := mkTurn {
  t_before : list bg_env;
  t_put : put_env;
  t_io : io_outcome * io_outcome;
  t_scan_ios : list (io_outcome * io_outcome);
  t_wait : list bg_env
}.

Definition quiet_turn : Turn := mkTurn [] quiet_put whole_io [] [].

Record Engine := mkEngine {
  e_hash : bytes → Z;
  e_strerror : Z → bytes;
  e_sys : System;
  e_turns : list Turn
}.

Definition turn (e : Engine) : Turn := default quiet_turn (head (e_turns e)).

Definition next_turn (S : System) (e : Engine) : Engine := mkEngine (e_hash e) (e_strerror e) S (tail (e_turns e)).

(** The background thread before the operation. *)
Definition before (e : Engine) : option System :=
  '(_, S1) ← run (e_hash e) (e_strerror e) (CBackground <$> t_before (turn e)) (e_sys e); Some S1.

(** A write that waits is tried again after each section. *)
Fixpoint write_waiting (hash : bytes → Z) (strerror : Z → bytes) (c : Call) (waits : list bg_env) (S : System)
    : option (Status * System) :=
  '(a, S1) ← step hash strerror c S;
  match a, waits with
  | AStatus s, _ => Some (s, S1)
  | _, env :: waits => S2 ← bg_step strerror env S1; write_waiting hash strerror c waits S2
  | _, [] => None
  end.

Definition engine_write (c : Call) (e : Engine) : option (Status * Engine) :=
  S1 ← before e;
  '(s, S2) ← write_waiting (e_hash e) (e_strerror e) c (t_wait (turn e)) S1;
  Some (s, next_turn S2 e).

Definition engine_get (key : bytes) (e : Engine) : option (Status * bytes * Engine) :=
  S1 ← before e;
  '(a, S2) ← step (e_hash e) (e_strerror e) (CGet (t_io (turn e)) key None) S1;
  match a with
  | AValue s v => Some (s, default [] v, next_turn S2 e)
  | _ => None
  end.

#[export] Instance engine_store : server.KvStore Engine := {
  server.db_Put e k v := default (Corruption [], e) (engine_write (CPut (t_put (turn e)) k v) e);
  server.db_Get e k := default (Corruption [], [], e) (engine_get k e);
  server.db_Delete e k := default (Corruption [], e) (engine_write (CDelete (t_put (turn e)) k) e)
}.

Definition engine_scan (lo hi : bytes) (e : Engine) : option (Status * list (bytes * bytes) * Engine) :=
  S1 ← before e;
  '(a, S2) ← step (e_hash e) (e_strerror e) (CScan (t_scan_ios (turn e)) lo hi None) S1;
  match a with
  | APairs s rows => Some (s, rows, next_turn S2 e)
  | _ => None
  end.

Definition engine_stat (f : Stats → Z) (e : Engine) : Z := f (stats_ (sys_db (e_sys e))).

#[export] Instance engine_bench : BenchStore Engine := {
  db_Scan e lo hi := default (Corruption [], [], e) (engine_scan lo hi e);
  db_wait_for_background_work e := match before e with Some S1 => next_turn S1 e | None => e end;
  wal_bytes_written := engine_stat stats_wal_bytes_;
  sst_bytes_written := engine_stat stats_sst_bytes_;
  vlog_bytes_written := engine_stat stats_vlog_bytes_;
  user_bytes_written := engine_stat stats_user_bytes_;
  flush_count := engine_stat stats_flushes_;
  compaction_count := engine_stat stats_compactions_;
  vlog_gc_count := engine_stat stats_vlog_gcs_;
  io_uring_active e := io_uring_active_ (wal_ (sys_db (e_sys e)));
  io_uring_unavailable_reason e := io_uring_reason_ (wal_ (sys_db (e_sys e)))
}.

(** The calls of a write succeed; the log is written without a ring. *)
Definition put_fine (env : put_env) (d : DB) : Prop :=
  ring_ (wal_ d) = None ∧ reliable_entry (pe_entry env) ∧ error_free (ee_vlog_writes (pe_entry env)) = true ∧
  ro_open (pe_rotate env) = None ∧ ro_fsync (pe_rotate env) = None ∧
  ro_dir_open (pe_rotate env) = None ∧ ro_dir_sync (pe_rotate env) = None.

Definition call_fine (c : Call) (S : System) : Prop :=
  match c with
  | CPut env _ _ | CDelete env _ => put_fine env (sys_db S)
  | CGet io _ _ => io_whole io
  | CScan ios _ _ _ => Forall io_whole ios
  | _ => True
  end.

#[export] Instance call_fine_dec c S : Decision (call_fine c S).
Proof.
  unfold call_fine, put_fine, io_whole. destruct c; try apply _.
Defined.

(** The engine holds the map. *)
Definition engine_holds (e : Engine) (m : gmap bytes bytes) : Prop :=
  ∃ hist M, sys_inv (e_sys e) hist M ∧ contents M = m.

(** The call is within its limits and, if [reliable], its system calls succeed. *)
Definition call_fits (reliable : bool) (c : Call) (S : System) : bool :=
  bool_decide (limits c S) && (negb reliable || bool_decide (call_fine c S)).

(** The write fits whenever it is tried, and it is released. *)
Fixpoint write_fits (reliable : bool) (hash : bytes → Z) (strerror : Z → bytes) (c : Call) (waits : list bg_env) (S : System)
    : bool :=
  call_fits reliable c S &&
  match step hash strerror c S, waits with
  | Some (AWaiting, _), [] => false
  | Some (AWaiting, S1), env :: waits =>
      bool_decide (limits (CBackground env) S1) &&
      match bg_step strerror env S1 with Some S2 => write_fits reliable hash strerror c waits S2 | None => true end
  | _, _ => true
  end.

(** The sections before an operation are within the limits, and the operation fits. *)
Definition after_before (fits : System → bool) (e : Engine) : bool :=
  check_limits (e_hash e) (e_strerror e) (CBackground <$> t_before (turn e)) (e_sys e) &&
  match before e with None => true | Some S1 => fits S1 end.

Definition engine_fits (reliable : bool) (op : server.kv_op) (e : Engine) : Prop :=
  let write c := after_before (write_fits reliable (e_hash e) (e_strerror e) c (t_wait (turn e))) e in
  match op with
  | server.OpPut k v => write (CPut (t_put (turn e)) k v)
  | server.OpDelete k => write (CDelete (t_put (turn e)) k)
  | server.OpGet k => after_before (call_fits reliable (CGet (t_io (turn e)) k None)) e
  end = true.

Definition engine_scan_fits (reliable : bool) (lo hi : bytes) (e : Engine) : Prop :=
  after_before (call_fits reliable (CScan (t_scan_ios (turn e)) lo hi None)) e = true.

(** ** Calls that do not fail *)

Lemma separate_acked env type key value d s stored d1 :
  error_free (ee_vlog_writes env) = true → separate env type key value d = Some (s, stored, d1) → ok s = true.
Proof.
  intros He. unfold separate. destruct (separated type value (vsep_ d)); [|by intros [= <- _ _]].
  destruct (current_vlog (vsep_ d)) as [cv|]; [|done]. cbn [mbind option_bind]. unfold vlog.Append.
  rewrite write_loop_error_free by done. cbn. by intros [= <- _ _].
Qed.

Lemma write_op_acked strerror env type key value d s d' :
  put_fine env d → write_op strerror env type key value d = Some (Some (s, d')) → ok s = true.
Proof.
  intros (Hr & He & Hv & E1 & E2 & E3 & E4). unfold write_op. destruct (imm_ d); [done|].
  assert (∀ d0, ring_ (wal_ d0) = None → (r ← WriteEntry strerror (pe_entry env) type key value true d0; Some (Some r)) = Some (Some (s, d')) →
    ok s = true) as Hw.
  { intros d0 Hr0. destruct (WriteEntry _ _ _ _ _ _ _) as [[s1 d1]|] eqn:Ew; [|done]. intros [= -> ->].
    destruct (WriteEntry_files strerror _ _ _ _ _ _ _ _ Hr0 He Ew) as (s1 & stored & d1 & Es & _ & _ & -> & _).
    by eapply separate_acked. }
  destruct (_ <=? _); [|by apply Hw]. unfold RotateForFlush, io_uring_active_, SyncDir. rewrite Hr, E1, E2, E3, E4.
  intros E. by eapply Hw in E.
Qed.

Lemma step_acked hash strerror c S s S' : call_fine c S → step hash strerror c S = Some (AStatus s, S') → ok s = true.
Proof.
  destruct c as [env key value|env key|io key sn|ios lo hi sn| |a|env]; cbn [call_fine step]; intros Hf.
  - unfold Put. destruct (write_op _ _ _ _ _ _) as [[[s1 d1]|]|] eqn:E; cbn; [|done..]. intros [= <- _]. by eapply write_op_acked.
  - unfold Delete. destruct (write_op _ _ _ _ _ _) as [[[s1 d1]|]|] eqn:E; cbn; [|done..]. intros [= <- _]. by eapply write_op_acked.
  - destruct (read_snapshot _ _) as [o|]; [|done]. cbn. by destruct (Get _ _ _ _ _) as [[[? ?] ?]|].
  - destruct (read_snapshot _ _) as [o|]; [|done]. cbn. by destruct (Scan _ _ _ _ _ _) as [[[? ?] ?]|].
  - by destruct (GetSnapshot _).
  - done.
  - by destruct (bg_step _ _ _).
Qed.

(** ** The laws *)

Lemma background_converses envs answers M M' : converses (CBackground <$> envs) answers M M' → M' = M.
Proof.
  revert answers M. induction envs as [|env envs IH]; intros [|a answers] M; try done.
  intros (M1 & Ha & Hc). apply IH in Hc. destruct a; try done. cbn [allowed] in Ha. congruence.
Qed.

Lemma before_spec e m fits :
  engine_holds e m → after_before fits e = true →
  ∃ S1 hist M, before e = Some S1 ∧ sys_inv S1 hist M ∧ contents M = m ∧ fits S1 = true.
Proof.
  intros (hist & M & Hs & <-) [Hl%check_limits_within Hf]%andb_true_iff.
  destruct (run_simulates _ _ _ _ _ _ Hs Hl) as (a & S1 & hist1 & M1 & E & Hc%background_converses & Hs1). subst M1.
  assert (before e = Some S1) as Eb by (unfold before; by rewrite E). rewrite Eb in Hf.
  by exists S1, hist1, M.
Qed.

(** A call that fits is simulated, and acknowledged if it is reliable. *)
Lemma call_fits_spec reliable hash strerror c S hist M :
  sys_inv S hist M → call_fits reliable c S = true →
  ∃ a S' hist' M', step hash strerror c S = Some (a, S') ∧ allowed c a M M' ∧ sys_inv S' hist' M' ∧
    (reliable = true → call_fine c S) ∧ (∀ s, a = AStatus s → ok s = false → reliable = false).
Proof.
  intros Hs [Hl%bool_decide_eq_true Hr]%andb_true_iff.
  destruct (step_simulates hash strerror c S hist M Hs Hl) as (a & S' & hist' & M' & E & Ha & Hs').
  exists a, S', hist', M'. split_and!; [done..| |].
  - intros ->. by apply bool_decide_eq_true in Hr.
  - intros s -> Es. destruct reliable; [|done]. apply bool_decide_eq_true in Hr.
    pose proof (step_acked _ _ _ _ _ _ Hr E). congruence.
Qed.

Section writes.
Context (reliable : bool) (hash : bytes → Z) (strerror : Z → bytes) (c : Call) (upd : gmap bytes bytes → gmap bytes bytes).
Context (Hc : ∀ a M M', allowed c a M M' →
  (a = AWaiting ∧ M' = M) ∨ ∃ s, a = AStatus s ∧ contents M' = if ok s then upd (contents M) else contents M).

Lemma write_waiting_spec waits S hist M :
  sys_inv S hist M → write_fits reliable hash strerror c waits S = true →
  ∃ s S' hist' M', write_waiting hash strerror c waits S = Some (s, S') ∧ sys_inv S' hist' M' ∧
    (contents M' = if ok s then upd (contents M) else contents M) ∧ (ok s = false → reliable = false).
Proof using Hc.
  revert S hist M. induction waits as [|env waits IH]; intros S hist M Hs; cbn [write_fits write_waiting];
    intros [Hf Hw]%andb_true_iff;
    destruct (call_fits_spec reliable hash strerror c S hist M Hs Hf) as (a & S1 & hist1 & M1 & E & Ha & Hs1 & _ & Hr);
    rewrite E in Hw |- *; cbn [mbind option_bind]; destruct (Hc _ _ _ Ha) as [[-> ->]|(s & -> & Em)]; try done;
    try (exists s, S1, hist1, M1; by eauto).
  apply andb_true_iff in Hw as [Hb%bool_decide_eq_true Hw].
  destruct (bg_simulates strerror env S1 hist1 M Hs1 (proj1 Hb) (proj2 Hb)) as (S2 & hist2 & Eb & Hs2).
  rewrite Eb in Hw |- *. cbn [mbind option_bind]. by eapply IH.
Qed.

Lemma engine_write_spec e m :
  e_hash e = hash → e_strerror e = strerror → engine_holds e m →
  after_before (write_fits reliable hash strerror c (t_wait (turn e))) e = true →
  let '(s, e') := default (Corruption [], e) (engine_write c e) in
  if ok s then engine_holds e' (upd m) else reliable = false ∧ engine_holds e' m.
Proof using Hc.
  intros Eh Es Hh Hf. destruct (before_spec e m _ Hh Hf) as (S1 & hist & M & E & Hs & <- & Hw).
  unfold engine_write. rewrite E, Eh, Es. cbn [mbind option_bind].
  destruct (write_waiting_spec _ _ _ _ Hs Hw) as (s & S2 & hist2 & M2 & -> & Hs2 & Em & Hr). cbn.
  destruct (ok s); [by exists hist2, M2|]. split; [by apply Hr|by exists hist2, M2].
Qed.

End writes.

#[export] Instance engine_laws reliable : server.KvLaws Engine engine_holds (engine_fits reliable) (reliable = false).
Proof.
  split.
  - intros e m k v Hh Hf.
    apply (engine_write_spec reliable (e_hash e) (e_strerror e) (CPut (t_put (turn e)) k v) (<[k := v]>)); [|done..].
    intros [] M M'; try done; [by left|]. cbn [allowed]. intros ->. right. eexists. split; [done|]. by destruct (ok s).
  - intros e m k Hh Hf.
    apply (engine_write_spec reliable (e_hash e) (e_strerror e) (CDelete (t_put (turn e)) k) (delete k)); [|done..].
    intros [] M M'; try done; [by left|]. cbn [allowed]. intros ->. right. eexists. split; [done|]. by destruct (ok s).
  - intros e m k Hh Hf. cbn [server.db_Get engine_store].
    destruct (before_spec e m _ Hh Hf) as (S1 & hist & M & E & Hs & <- & Hc). unfold engine_get. rewrite E.
    destruct (call_fits_spec reliable (e_hash e) (e_strerror e) _ S1 hist M Hs Hc) as (a & S2 & hist2 & M2 & Est & Ha & Hs2 & Hr & _).
    cbn [mbind option_bind]. rewrite Est. destruct a as [| |s v| | |]; try done. cbn [allowed] in Ha.
    destruct Ha as (-> & m & [= <-] & Ha). cbn. split; [by exists hist2, M|].
    destruct (contents M !! k) as [x|]; [|done]. destruct Ha as [Ha Hw]. destruct (ok s); [by rewrite (Ha eq_refl)|].
    destruct reliable; [|done]. by discriminate (Hw (Hr eq_refl)).
Qed.

#[export] Instance engine_bench_laws reliable : BenchLaws Engine engine_holds (engine_scan_fits reliable) (reliable = false).
Proof.
  split. intros e m lo hi Hh Hf. cbn [db_Scan engine_bench].
  destruct (before_spec e m _ Hh Hf) as (S1 & hist & M & E & Hs & <- & Hc). unfold engine_scan. rewrite E.
  destruct (call_fits_spec reliable (e_hash e) (e_strerror e) _ S1 hist M Hs Hc) as (a & S2 & hist2 & M2 & Est & Ha & Hs2 & Hr & _).
  cbn [mbind option_bind]. rewrite Est. destruct a as [| | |s rows| |]; try done. cbn [allowed] in Ha.
  destruct Ha as (-> & m & L & [= <-] & HL & _ & Hok & Hw). cbn. split; [by exists hist2, M|].
  destruct (ok s); [by rewrite (Hok eq_refl)|]. destruct reliable; [|done]. by discriminate (Hw (Hr eq_refl)).
Qed.

(** ** The server on the engine *)


(** Every write fills the memtable; no ring. *)
Definition direct_Options : Options := mkOptions kSyncAlways 1 2 10 100 true 0 0 false.

(** Two writes fill the memtable twice, so the third waits until the first
    memtable has been flushed; the background thread then flushes and compacts
    between the commands. *)
Definition sample_turns : list Turn :=
  [quiet_turn; quiet_turn; mkTurn [] quiet_put whole_io [] (replicate 4 quiet_bg);
   mkTurn (replicate 5 quiet_bg) quiet_put whole_io [] [];
   mkTurn (replicate 4 quiet_bg) quiet_put whole_io [] []; quiet_turn].

Definition sample_cmds : list (list bytes) :=
  [[lit "SET"; lit "a"; lit "1"]; [lit "SET"; lit "b"; replicate 70 Init.Byte.x78]; [lit "SET"; lit "c"; lit "3"];
   [lit "GET"; lit "b"]; [lit "DEL"; lit "a"; lit "x"; lit "a"]; [lit "EXISTS"; lit "a"; lit "c"]].

Definition sample_event : server.event :=
  server.EvConn 7 false true false [server.RdData (concat (resp.encode_request <$> sample_cmds))] [] true [] true.

Lemma sample_fits :
  match Open quiet_open (lit "/db") direct_Options ∅ with
  | Some (_, inr d) =>
      let e := mkEngine no_hash no_strerror (mkSystem d BgIdle) sample_turns in
      server.exec_all_fit (engine_fits true) e sample_cmds ∧ len (server.exec_all e sample_cmds).1 ≤ server.kMaxOutBytes / 2
  | _ => False
  end.
Proof. vm_compute. repeat split; discriminate. Qed.


(** ** The benchmark on the engine *)

(** Every operation is preceded by sections of the background thread. *)
Definition busy_turn : Turn := mkTurn (replicate 3 quiet_bg) quiet_put whole_io (replicate 4 whole_io) (replicate 6 quiet_bg).

(** Four keys and eight operations that insert and scan. *)
Definition engine_Config : Config := mkConfig (lit "E") 4 8 3 3 7 (lit "/db") false false 0 false kSyncAlways.
Definition mixed_workload : ycsb.WorkloadSpec := ycsb.mkWorkload (lit "X") 20 20 20 20 20 true [].

(** The phases of the benchmark fit the engine. *)
Example benchmark_fits_engine :
  match Open quiet_open (lit "/db") direct_Options ∅ with
  | Some (_, inr d) =>
      phases_fit small_pow small_clock [] (engine_fits true) (engine_scan_fits true) engine_Config mixed_workload
        (mkEngine no_hash no_strerror (mkSystem d BgIdle) (replicate 14 busy_turn)) 0
  | _ => False
  end.
Proof. vm_compute. repeat split. Qed.
