(* ===== verification/ServerMain.v ===== *)
(** * The server program

    Models tools/server_main.cpp: the command line, opening the database and
    the server, serving until a signal, and the shutdown.  [parse_render]: the
    options of a configuration are read back as that configuration;
    [main_serves]: the program composes the database, the server and the
    shutdown as a map that answers its clients. *)

From S2P Require Import Prelude Status FsUtil Args Resp VLog LruCache Mvcc Db DbSystem DbLogs DbRefine DbOpen DbBackground.
From S2P Require Import DbInv DbValues DbScan DbCollect DbCorrect DbDurable Server YcsbBench Engine.
Import db.

(** ** The command line *)

Record Settings := mkSettings { port : Z; data_dir : bytes; value_separation : bool; wal_sync : SyncMode }.

Definition default_Settings : Settings := mkSettings 7379 (lit "/tmp/bedrockkv-server") false kSyncNever.

Definition usage_text : bytes :=
  lit "usage: bedrockkv-server [--port N] [--dir PATH] [--value-separation] [--sync always|periodic|never]" ++ newline.

Definition missing_value (what : bytes) : bytes := lit "missing value after " ++ what ++ newline.

(** [%d] *)
Definition print_int (n : Z) : bytes := if n <? 0 then lit "-" ++ to_string (- n) else to_string n.

(** The settings, or what is written to the standard error before the exit
    with code 2. *)
Fixpoint parse_settings (argv : list bytes) (s : Settings) : bytes + Settings :=
  match argv with
  | [] => inr s
  | arg :: rest =>
      let next (what : bytes) (set : bytes → bytes + Settings) :=
        match rest with
        | [] => inl (missing_value what)
        | v :: rest => match set v with inl e => inl e | inr s => parse_settings rest s end
        end in
      if bytes_eqb arg (lit "--port") then
        next (lit "--port") (λ raw,
          match args.stoi raw with
          | None => inl (lit "invalid --port '" ++ raw ++ lit "'" ++ newline)
          | Some n =>
              if (n <? 0) || (65535 <? n) then inl (lit "port out of range: " ++ print_int n ++ newline)
              else inr (mkSettings n (data_dir s) (value_separation s) (wal_sync s))
          end)
      else if bytes_eqb arg (lit "--dir") then
        next (lit "--dir") (λ d, inr (mkSettings (port s) d (value_separation s) (wal_sync s)))
      else if bytes_eqb arg (lit "--value-separation") then
        parse_settings rest (mkSettings (port s) (data_dir s) true (wal_sync s))
      else if bytes_eqb arg (lit "--sync") then
        next (lit "--sync") (λ mode,
          let set m := inr (mkSettings (port s) (data_dir s) (value_separation s) m) in
          if bytes_eqb mode (lit "always") then set kSyncAlways
          else if bytes_eqb mode (lit "periodic") then set kSyncPeriodic
          else if bytes_eqb mode (lit "never") then set kSyncNever
          else inl (lit "unknown --sync mode '" ++ mode ++ lit "'" ++ newline))
      else inl usage_text
  end.

Definition server_Options (s : Settings) : Options :=
  let o := default_Options in
  mkOptions (wal_sync s) (write_buffer_size o) (l0_compaction_trigger o) (level_base_size o) (max_sst_size o)
    (value_separation s) (value_separation_threshold o) (vlog_gc_size o) (enable_io_uring o).

(** ** The program *)

(** The outcomes of the system calls, the events of the loop thread until the
    signal arrives, and what the background thread does until it is joined. *)
Record main_env := mkMainEnv {
  mn_open : open_env;
  mn_hash : bytes → Z;
  mn_strerror : Z → bytes;
  mn_turns : list Turn;
  mn_server : server.OpenEnv;
  mn_events : list server.event;
  mn_last : list bg_env;
  mn_drain : ring_env
}.

(** How the program ended: its exit code, its output, the server when the
    loop had ended, the calls on descriptors, and the files it leaves. *)
Record Ended := mkEnded {
  exit_code : Z;
  stdout : bytes;
  stderr : bytes;
  served : option (server.RedisServer (DB := Engine));
  fd_calls : list server.fd_call;
  left : files
}.

Definition set_exit (d : DB) : DB :=
  mkDB (fs d) (dir_ d) (options_ d) (wal_ d) (mem_ d) (imm_ d) (imm_log_number_ d) (imm_sst_number_ d) (current_ d)
    (next_seq_ d) (snapshots_ d) (next_file_number_ d) (vsep_ d) (stats_ d) true (compaction_disabled_ d) (last_error_ d).

(** [~DB]: once the background thread has seen [exit_] it can be joined. *)
Definition destroy (env : main_env) (e : Engine) : option files :=
  let S := e_sys e in
  '(_, S1) ← run (e_hash e) (e_strerror e) (CBackground <$> mn_last env) (mkSystem (set_exit (sys_db S)) (sys_bg S));
  match sys_bg S1 with BgIdle => Close (e_strerror e) (mn_drain env) (sys_db S1) | _ => None end.

Definition main (env : main_env) (argv : list bytes) (f : files) : option Ended :=
  match parse_settings argv default_Settings with
  | inl e => Some (mkEnded 2 [] e None [] f)
  | inr s =>
      '(f, r) ← Open (mn_open env) (data_dir s) (server_Options s) f;
      match r with
      | inl st => Some (mkEnded 1 [] (lit "cannot open database at " ++ data_dir s ++ lit ": " ++ message_ st ++ newline) None [] f)
      | inr d =>
          let e := mkEngine (mn_hash env) (mn_strerror env) (mkSystem d BgIdle) (mn_turns env) in
          match server.Open (mn_server env) e (lit "0.0.0.0") (port s) with
          | (None, st, calls) =>
              f ← destroy env e;
              Some (mkEnded 1 [] (lit "cannot start server: " ++ message_ st ++ newline) None calls f)
          | (Some (h, srv), _, calls) =>
              let '(_, h) := server.Start h in
              srv ← server.Loop srv (mn_events env);
              let '(stop_calls, h', _) := server.Stop h srv in
              f ← destroy env (server.db_ srv);
              Some (mkEnded 0 (lit "bedrockkv-server listening on port " ++ to_string (server.port_ h) ++ lit " (dir: " ++ data_dir s
                               ++ (if value_separation s then lit ", value separation on" else []) ++ lit ")" ++ newline
                               ++ lit "bye" ++ newline) [] (Some srv) (calls ++ stop_calls) f)
          end
      end
  end.

(** ** The command line is read back *)

Definition sync_text (m : SyncMode) : bytes :=
  match m with kSyncAlways => lit "always" | kSyncPeriodic => lit "periodic" | kSyncNever => lit "never" end.

Definition render_settings (s : Settings) : list bytes :=
  [lit "--port"; to_string (port s); lit "--dir"; data_dir s] ++
  (if value_separation s then [lit "--value-separation"] else []) ++ [lit "--sync"; sync_text (wal_sync s)].

(** Valid arguments are read before what follows them. *)
Lemma parse_app n argv tail s0 s1 :
  (length argv ≤ n)%nat → parse_settings argv s0 = inr s1 → parse_settings (argv ++ tail) s0 = parse_settings tail s1.
Proof.
  revert argv s0. induction n as [|n IH]; intros [|arg rest] s0 Hn E; cbn [length] in Hn; try lia; [by injection E as ->..|].
  cbn [parse_settings app] in *.
  assert (∀ what set,
    match rest with [] => inl (missing_value what) | v :: rest => match set v with inl e => inl e | inr s => parse_settings rest s end end = inr s1 →
    match rest ++ tail with [] => inl (missing_value what) | v :: rest => match set v with inl e => inl e | inr s => parse_settings rest s end end
    = parse_settings tail s1) as Hnext.
  { intros what set. destruct rest as [|v rest]; [done|]. cbn [app length] in *. destruct (set v) as [|s]; [done|]. apply IH. lia. }
  destruct (bytes_eqb arg (lit "--port")); [by apply Hnext|].
  destruct (bytes_eqb arg (lit "--dir")).
  { by apply (Hnext (lit "--dir") (λ d, inr (mkSettings (port s0) d (value_separation s0) (wal_sync s0)))). }
  destruct (bytes_eqb arg (lit "--value-separation")); [apply IH; [lia|done]|].
  destruct (bytes_eqb arg (lit "--sync")); [by apply Hnext|done].
Qed.

(** Rendered settings are read back, also behind other valid arguments: the
    last occurrence of an option counts. *)
Lemma parse_render argv s0 s1 s :
  parse_settings argv s0 = inr s1 → 0 ≤ port s ≤ 65535 → (value_separation s1 = true → value_separation s = true) →
  parse_settings (argv ++ render_settings s) s0 = inr s.
Proof.
  intros E Hp Hv. rewrite (parse_app (length argv) argv _ s0 s1) by done. unfold render_settings. cbn [app].
  cbn [parse_settings]. change (bytes_eqb (lit "--port") (lit "--port")) with true. cbv iota.
  rewrite args.stoi_to_string by lia. replace ((port s <? 0) || (65535 <? port s)) with false by lia. cbv iota.
  change (bytes_eqb (lit "--dir") (lit "--port")) with false. change (bytes_eqb (lit "--dir") (lit "--dir")) with true.
  cbv iota. destruct s as [p d [] m], s1 as [p1 d1 v1 m1]; cbn [port data_dir value_separation wal_sync app] in *.
  - by destruct m.
  - destruct v1; [by discriminate (Hv eq_refl)|]. by destruct m.
Qed.

(** ** Serving *)

Lemma set_exit_inv S hist M : sys_inv S hist M → sys_inv (mkSystem (set_exit (sys_db S)) (sys_bg S)) hist M.
Proof.
  intros [Hda Hb]. split; cbn [sys_db sys_bg]; [by eapply data_like|]. eapply bg_inv_stable; [|exact Hb].
  destruct (others_cache (sys_db S) (sys_db S) hist (cache_only_refl _)). by split.
Qed.

(** The background thread comes to rest within its limits. *)
Definition joins (env : main_env) (e : Engine) : Prop :=
  let S0 := mkSystem (set_exit (sys_db (e_sys e))) (sys_bg (e_sys e)) in
  let cs := CBackground <$> mn_last env in
  check_limits (e_hash e) (e_strerror e) cs S0 = true ∧
  match run (e_hash e) (e_strerror e) cs S0 with Some (_, S1) => sys_bg S1 = BgIdle | None => True end.

Lemma destroy_spec env e m :
  engine_holds e m → joins env e → ∃ f, destroy env e = Some f.
Proof.
  intros (hist & M & Hs & _) [Hl%check_limits_within Hj].
  destruct (run_simulates _ _ _ _ _ _ (set_exit_inv _ _ _ Hs) Hl) as (a & S & hist1 & M1 & E & _ & Hs1).
  unfold destroy. rewrite E in Hj |- *. cbn [mbind option_bind]. rewrite Hj. unfold Close.
  destruct (io_uring_active_ (wal_ (sys_db S))) eqn:Ea; [|by eexists].
  destruct (DrainWalRing_wf (e_strerror e) (mn_drain env) (wal_ (sys_db S)) (di_wal _ _ (da_db _ _ _ (sv_data _ _ _ Hs1))) Ea)
    as (s & w & -> & _). by eexists.
Qed.

(** The server that [Open] returns is a new one. *)
Lemma Open_new_server {D} {Store : server.KvStore D} env (d : D) addr p h s st calls :
  server.Open env d addr p = (Some (h, s), st, calls) → s = server.new_Server d.
Proof.
  unfold server.Open. destruct (server.env_socket env); [|done]. destruct (negb _); [done|].
  destruct (server.env_bind env); [done|]. destruct (server.env_listen env); [done|]. destruct (server.env_epoll_create env); [|done].
  destruct (server.env_eventfd env); [|done]. destruct (server.env_ctl_listen env); [done|]. destruct (server.env_ctl_wake env); [done|].
  by intros [= _ <- _ _].
Qed.


Definition sample_Settings : Settings := mkSettings 0 (lit "/db") true kSyncAlways.

Definition sample_env : main_env :=
  mkMainEnv quiet_open no_hash no_strerror (replicate 3 busy_turn)
    (server.mkOpenEnv (inl 5) true None None (Some 40123) (inl 6) (inl 8) None None)
    [server.EvListen [server.AcFd 7 true]; sample_event] (replicate 2 quiet_bg) quiet_ring.

Lemma sample_serves :
  match Open quiet_open (lit "/db") (server_Options sample_Settings) ∅ with
  | Some (_, inr d) =>
      let e := mkEngine no_hash no_strerror (mkSystem d BgIdle) (mn_turns sample_env) in
      server.exec_all_fit (engine_fits true) e sample_cmds ∧ len (server.exec_all e sample_cmds).1 ≤ server.kMaxOutBytes / 2 ∧
      joins sample_env (server.exec_all e sample_cmds).2
  | _ => False
  end.
Proof. vm_compute. repeat split; discriminate. Qed.

